(* ===== verification/_CoqProject ===== *)
-Q . S2P
Prelude.v
Bits.v
Backend.v
ToySolver.v
SolverUtils.v
MemorySpec.v
Memory.v
SimpleMemory.v
MemoryTheorems.v
Alloc.v
LLVMIR.v
ToyLLVM.v
Project.v
Loading.v
Layout.v
SizeTheorems.v
VarMap.v
Watchpoints.v
FunctionHooks.v
GlobalAllocations.v
Config.v
State.v
Operands.v
HookUtils.v
Hooks.v
SymexInstr.v
Symex.v
Diagnostics.v
StateTheorems.v
SymexTheorems.v
LevelTheorems.v
EngineTheorems.v
Analyses.v
EngineInvariant.v
AnalysesTheorems.v
InstrTheorems.v
DataTheorems.v
ConstTheorems.v
MemInstrTheorems.v
CopyTheorems.v
Concrete.v
PathVariables.v
PathMeasure.v
PathState.v
PathTerminators.v
PathBlocks.v
PathStart.v
PathTheorems.v
ProgramAnalyses.v
Examples.v
PathExamples.v
Findings.v
