(* ===== verification/Prelude.v ===== *)
(** * haybale: a verification library for the symbolic execution engine

    haybale (src/src) executes LLVM IR symbolically: it walks over the
    instructions of a function with bit-vector terms of an SMT solver in the
    place of values, forks at branches by saving backtracking points, and
    returns one result per path.  This library is a shallow embedding of the
    crate: pure code is a function to [outcome], code that uses the solver is
    in the monad [M SolverRef], and code that uses the execution state is in
    the monad [M State].  [outcome] tells apart a value, an [Err] of the
    code's [Result], a Rust panic, and a model that ran out of fuel.

    ** Parts, from the bottom up

    - this file: errors, outcomes, the state monad with its weakest
      preconditions ([wp]), iteration, loops by fuel ([loopM]) and the order
      [refines] on programs that differ in fuel;
    - Bits.v: values of a fixed width as [Z], their bits, slices and
      concatenations, binary digits, u64 and u32 arithmetic with overflow as a
      panic;
    - Backend.v (backend.rs): the traits [BV] and [SolverRef] as the class
      [BackendOps]; what the documentation of Boolector says they do is the
      class [BackendLaws] over the models of [BVSemantics]; the default
      methods are definitions.  ToySolver.v is an instance with all the laws,
      used by the witnesses;
    - SolverUtils.v (solver_utils.rs): the queries;
    - MemorySpec.v: what a memory promises, as the class [MemoryOps] with the
      laws [MemoryLaws]; Memory.v (memory.rs, 64-bit cells) and SimpleMemory.v
      (simple_memory.rs, bytes) implement it; MemoryTheorems.v has their
      correctness, and their equivalence as a refinement;
    - Alloc.v (alloc.rs): the allocator;
    - LLVMIR.v: the part of the crate llvm_ir that the engine walks over, its
      data as types and its functions as the class [LLVM]; ToyLLVM.v is an
      instance for the witnesses;
    - Project.v and Loading.v (project.rs, demangling.rs), Layout.v and
      SizeTheorems.v (layout.rs), VarMap.v
      (varmap.rs, double_keyed_map.rs), Watchpoints.v (watchpoints.rs),
      FunctionHooks.v (function_hooks.rs), GlobalAllocations.v
      (global_allocations.rs), Config.v (config.rs, callbacks.rs): the tables
      the state is made of, each with its operations and theorems;
    - State.v and Operands.v (state.rs): the record [State] and its
      operations; operands and constants to bit-vectors, function pointers,
      [State::new] and [State::fork];
    - HookUtils.v (alloc_utils.rs, hook_utils.rs) and Hooks.v (hooks/*.rs):
      the built-in hooks;
    - SymexInstr.v and Symex.v (symex.rs): one definition for each
      instruction and terminator, calls, invokes, exceptions, backtracking,
      and [ExecutionManager] with [next];
    - Diagnostics.v (state.rs, error.rs, symex.rs, watchpoints.rs): locations,
      backtraces, paths, assignments and error messages as text;
    - Analyses.v (lib.rs): [find_zero_of_func] and
      [get_possible_return_values_of_func];
    - StateTheorems.v, SymexTheorems.v and EngineTheorems.v: what the
      operations of the state, the terminators and the engine promise;
    - LevelTheorems.v and EngineInvariant.v: what every computation leaves
      alone (the location, the call stack, the levels of the solver, of which
      only the innermost grows), and so what holds all through an exploration,
      whatever the program, the hooks and the number of paths;
    - InstrTheorems.v, DataTheorems.v, ConstTheorems.v, MemInstrTheorems.v and
      CopyTheorems.v: the instructions on values, those that move data about,
      constant expressions, what reads and writes memory, and copies and fills
      of a concrete or a symbolic length;
    - AnalysesTheorems.v: what the two analyses report;
    - Concrete.v: a reference semantics of LLVM for programs on integers and
      pointers, with calls and memory, independent of the engine; PathVariables.v,
      PathMeasure.v, PathState.v, PathTerminators.v, PathBlocks.v, PathStart.v and
      PathTheorems.v: the proof that an exploration is exactly the executions of
      it, does not panic, and ends (the variables, a weight of what a path can
      still do, the saved points and the call stack, the ends of blocks, the
      instructions and calls, the state at the start and what the caller does with
      it, the whole exploration); ProgramAnalyses.v: what
      the two analyses answer about such a program;
    - Examples.v: a program run from end to end, and the witnesses on it;
      PathExamples.v: recursion, a loop and memory, explored and run; Findings.v: runs in which the code does not do what it means to.

    ** Correspondence of state

    A [&mut self] of the code is a state that is threaded through; the shared
    solver instance (an [Rc]) is the single [SolverRef] of the state, and its
    assertion stack is [assertions].  The [RefCell]s of [State] (the memory,
    the backtracking points) and the [Cell] of a global's [initialized] flag
    are ordinary fields: no borrow of them is held over another access.  A
    hook or callback, a closure in the code, is the name of a built-in hook or
    of user code, which the class [UserCode] interprets.  Machine integers are
    in [Z]; where the code can overflow, the operation panics as a debug build
    does, and [as u32] truncates.  Error values keep the constant part of a
    message.  A hash set that is iterated over is a [gset], so its order is
    some fixed one: no theorem depends on which.

    ** Theorems

    - Soundness and completeness: every path that [next] returns with a
      result can be taken, and is an execution of the reference semantics for
      every model of its constraints ([paths_sound]); no input within the loop
      bound is missed, and the results of a finished exploration are exactly
      those of the program ([paths_complete]); and an exploration does not panic
      and ends, with a bound on the paths and on the fuel
      ([exploration_total]).  The caller may fix parameters and assert what it
      assumes of the inputs before the first path ([prepared]); all this is then
      about the inputs it assumes.  These are about programs that
      [program_ok] of Concrete.v accepts: integer arithmetic, comparisons,
      conversions, [select], [phi], [load], [store], [getelementptr], casts of
      pointers, branches, [switch], calls of functions by name and [ret], with
      any loops and recursion.  The memory at the start is any (each model has
      one), and pointers are parameters, constants or computed: [alloca] and
      globals are left out, since a revert does not restore the allocator, so
      that the addresses depend on what was explored before.  The proof is by
      induction on the fuel of the engine: each of its entry points promises
      that every model of the constraints is an execution that comes to the
      current location with the current variables, memory and frames, that
      each saved point stands for the executions that come to it, that no model
      is lost, and that it runs out of fuel only when this was less than three
      times the weight of the state, which falls with every split and every
      version of a name ([engine_ok]).  For the bound the program must not go on
      for ever without binding names ([program_ranked]): the loop bound counts
      bindings, and [empty_loop_diverges] shows that it stops nothing else.
    - Exploration: a conditional branch and a switch follow and save exactly
      the feasible destinations ([condbr_explores], [switch_explores]);
      reverting to a saved point restores the state ([backtracking_restores]);
      returning restores the caller's variables ([call_restores_caller]); the
      levels of the solver and the saved points stay in step through any run
      of the engine in which the solver answers every query
      ([exploration_invariant]); what the caller asserted first
      holds on every path ([assumptions_persist]); fuel never changes a result
      ([next_fuel_independent], a lemma on any program).
    - Analyses: [find_zero_of_func] finds a zero exactly when a visited path
      has one, never with a null pointer ([find_zero_correct],
      [inputs_not_null]); [get_possible_return_values_of_func] reports the
      possible results, all of them or more than the limit
      ([return_values_correct]).  These hold for any code, and are stated over
      the paths that [next] visits.  For the programs of the first group the
      paths are the executions, and the answers are about these: no zero was
      found when the program returns none on inputs whose pointers are not null
      ([find_zero_exact]), and the reported values are the values that it returns
      with the fixed arguments ([return_values_exact]); and with enough rounds and fuel both analyses
      answer ([analyses_answer]).
    - Queries: enumeration, extrema and equality are what they say, for
      every model of the constraints, and restore the solver.
    - Memories: reads and writes are exact at any size and alignment, also at
      symbolic addresses; the two memories agree; loads see stores.
    - Instructions and intrinsics: lane-wise semantics of arithmetic,
      comparisons, conversions and selection, element and aggregate
      operations, addresses, constants, [cmpxchg], [memcpy], [memset],
      [bswap]; null pointers are reported exactly when they are possible
      ([null_pointer_checked]).
    - Tables: sizes are those of a reference layout and offsets are disjoint,
      allocations are
      disjoint, names resolve by linkage, bindings and the loop bound,
      watchpoints.

    ** Fuel

    Loops of the solver queries run by [loopM] with fuel computed from the
    width (their proofs show it is enough).  [size] of a type has fuel above
    the number of nested named structs, which [size_correct] shows to be
    enough when no struct contains itself by value.  Constant expressions use
    the class [ConstFuel].  The engine's recursion (calls, branches, loops of
    the program) is by the fuel of [Symex.engine], and a run that stops is
    independent of it; a program that loops for ever has no result at any
    fuel, as in the code, and for the programs of the first group there is
    enough fuel.

    ** Not modelled

    The bindings to Boolector (the laws of [BackendLaws] stand for them), the
    file system and the bitcode parser (parameters of Loading.v), the demangler
    crates (parameters of Project.v), the text of names, source locations,
    bit-vectors and the solver's model (parameters of Diagnostics.v), logging,
    and the test utilities. *)
From stdpp Require Export base tactics list gmap strings.
From Stdlib Require Export ZArith Lia Bool.

Open Scope Z_scope.

(** ** Errors and outcomes

    [Error] is the enum of src/src/error.rs.  The [String] payloads that the
    code builds with [format!] are kept as the constant part of the message. *)

Inductive Error : Type :=
| Unsat
| LoopBoundExceeded (bound : Z)
| NullPointerDereference
| FunctionNotFound (funcname : string)
| SolverError (details : string)
| UnsupportedInstruction (details : string)
| MalformedInstruction (details : string)
| UnreachableInstruction
| FailedToResolveFunctionPointer (solution : Z)
| HookReturnValueMismatch (details : string)
| OtherError (details : string).

(** The result of a computation: a value, an [Err] of the code's [Result], a
    Rust panic (which nothing in the code catches), or a model that ran out
    of fuel.  The last one never stands for a behaviour of the program. *)
Inductive outcome (A : Type) : Type :=
| Ok (a : A)
| Err (e : Error)
| Panic (msg : string)
| OutOfFuel.
Arguments Ok {A} a.
Arguments Err {A} e.
Arguments Panic {A} msg.
Arguments OutOfFuel {A}.
Definition is_ok {A} (r : outcome A) : bool := match r with Ok _ => true | _ => false end.

#[global] Instance outcome_ret : MRet outcome := fun A a => Ok a.
#[global] Instance outcome_bind : MBind outcome := fun A B f c =>
  match c with
  | Ok a => f a
  | Err e => Err e
  | Panic p => Panic p
  | OutOfFuel => OutOfFuel
  end.
#[global] Instance outcome_fmap : FMap outcome := fun A B f c =>
  match c with
  | Ok a => Ok (f a)
  | Err e => Err e
  | Panic p => Panic p
  | OutOfFuel => OutOfFuel
  end.

(** The code mutates state through [&mut self], [RefCell]s and the shared
    solver instance; a computation takes the state and returns the state it
    leaves behind, also when it fails. *)
Definition M (S A : Type) : Type := S -> outcome A * S.

#[global] Instance M_ret {S} : MRet (M S) := fun A a s => (Ok a, s).
#[global] Instance M_bind {S} : MBind (M S) := fun A B f c s =>
  match c s with
  | (Ok a, s') => f a s'
  | (Err e, s') => (Err e, s')
  | (Panic p, s') => (Panic p, s')
  | (OutOfFuel, s') => (OutOfFuel, s')
  end.
#[global] Instance M_fmap {S} : FMap (M S) := fun A B f c s =>
  match c s with
  | (Ok a, s') => (Ok (f a), s')
  | (Err e, s') => (Err e, s')
  | (Panic p, s') => (Panic p, s')
  | (OutOfFuel, s') => (OutOfFuel, s')
  end.

Definition err {S A} (e : Error) : M S A := fun s => (Err e, s).
Definition panic {S A} (msg : string) : M S A := fun s => (Panic msg, s).
Definition out_of_fuel {S A} : M S A := fun s => (OutOfFuel, s).
Definition get {S} : M S S := fun s => (Ok s, s).
Definition put {S} (s : S) : M S unit := fun _ => (Ok tt, s).
Definition modify {S} (f : S -> S) : M S unit := fun s => (Ok tt, f s).
Definition gets {S A} (f : S -> A) : M S A := fun s => (Ok (f s), s).
Definition lift {S A} (c : outcome A) : M S A := fun s => (c, s).

(** A [Result] that is kept as a value ([let r = f();] with no [?]). *)
Definition catch {S A} (c : M S A) : M S (outcome A) := fun s =>
  match c s with
  | (Ok a, s') => (Ok (Ok a), s')
  | (Err e, s') => (Ok (Err e), s')
  | (Panic p, s') => (Panic p, s')
  | (OutOfFuel, s') => (OutOfFuel, s')
  end.

(** A computation on a part of the state. *)
Definition zoom {S T A} (view : S -> T) (update : T -> S -> S) (c : M T A) : M S A := fun s =>
  let '(r, t) := c (view s) in (r, update t s).

(** [assert!(b)] / [assert_eq!] *)
Definition assert_ (msg : string) (b : bool) : outcome unit :=
  if b then Ok tt else Panic msg.
(** [opt.ok_or(e)?] and [opt.expect(msg)] *)
Definition ok_or {A} (e : Error) (o : option A) : outcome A :=
  match o with Some a => Ok a | None => Err e end.
Definition expect {A} (msg : string) (o : option A) : outcome A :=
  match o with Some a => Ok a | None => Panic msg end.

(** [for x in xs { f(x)? }] and [xs.iter().map(f).collect::<Result<Vec<_>>>()] *)
Fixpoint forM {S A} (xs : list A) (f : A -> M S unit) : M S unit :=
  match xs with
  | [] => mret tt
  | x :: xs => f x ≫= fun _ => forM xs f
  end.
Fixpoint mapMM {S A B} (f : A -> M S B) (xs : list A) : M S (list B) :=
  match xs with
  | [] => mret []
  | x :: xs => y ← f x; ys ← mapMM f xs; mret (y :: ys)
  end.
Fixpoint mapO {A B} (f : A -> outcome B) (xs : list A) : outcome (list B) :=
  match xs with
  | [] => Ok []
  | x :: xs => y ← f x; ys ← mapO f xs; mret (y :: ys)
  end.

Fixpoint foldO {A B} (f : A -> B -> outcome A) (a : A) (xs : list B) : outcome A :=
  match xs with
  | [] => Ok a
  | x :: xs => a' ← f a x; foldO f a' xs
  end.
(** [iter.reduce(f).unwrap()] *)
Definition reduceO {A} (f : A -> A -> A) (xs : list A) : outcome A :=
  match xs with
  | [] => Panic "called `Option::unwrap()` on a `None` value"
  | x :: xs => Ok (foldl f x xs)
  end.
(** [iter.enumerate()], with the index as an integer *)
Definition enumerate {A} (xs : list A) : list (Z * A) := imap (fun i x => (Z.of_nat i, x)) xs.
(** [0 .. n] *)
Definition range (n : Z) : list Z := Z.of_nat <$> seq 0 (Z.to_nat n).

(** A loop of at most [2 ^ n] iterations.  [body a] returns [inl a'] to go
    round again and [inr b] to stop. *)
Fixpoint iterM {S A B} (n : nat) (body : A -> M S (A + B)) (a : A) : M S (A + B) :=
  match n with
  | O => body a
  | Datatypes.S n' =>
      r ← iterM n' body a;
      match r with
      | inl a' => iterM n' body a'
      | inr b => mret (inr b)
      end
  end.
(** [loop { .. }] and [while] loops.  Their proofs give a measure below
    [2 ^ 65], so that [out_of_fuel] is never reached. *)
Definition loopM {S A B} (body : A -> M S (A + B)) (a : A) : M S B :=
  r ← iterM 65 body a;
  match r with
  | inl _ => out_of_fuel
  | inr b => mret b
  end.

(** ** Reasoning about computations

    [wp c s Q]: running [c] from [s] gives an outcome and a state related by
    [Q].  The lemmas below are the rules the component proofs use. *)

Definition wp {S A} (c : M S A) (s : S) (Q : outcome A -> S -> Prop) : Prop :=
  Q (fst (c s)) (snd (c s)).

(** What a continuation inherits from a computation that did not return. *)
Definition stopped {A B S} (Q : outcome B -> S -> Prop) (r : outcome A) (s : S) : Prop :=
  match r with
  | Ok _ => False
  | Err e => Q (Err e) s
  | Panic p => Q (Panic p) s
  | OutOfFuel => Q OutOfFuel s
  end.

Section wp_rules.
Context {S : Type}.

Lemma wp_bind {A B} (c : M S A) (f : A -> M S B) s Q :
  wp c s (fun r s' => match r with Ok a => wp (f a) s' Q | _ => stopped Q r s' end) ->
  wp (c ≫= f) s Q.
Proof.
  unfold wp, mbind, M_bind, stopped. destruct (c s) as [[a|e|p|] s']; simpl; auto.
Qed.

Lemma wp_bind_inv {A B} (c : M S A) (f : A -> M S B) s Q :
  wp (c ≫= f) s Q ->
  wp c s (fun r s' => match r with Ok a => wp (f a) s' Q | _ => stopped Q r s' end).
Proof.
  unfold wp, mbind, M_bind, stopped. destruct (c s) as [[a|e|p|] s']; simpl; auto.
Qed.

Lemma bind_run {A B} (c : M S A) (f : A -> M S B) s a s' : c s = (Ok a, s') -> (c ≫= f) s = f a s'.
Proof. intros E. unfold mbind, M_bind. by rewrite E. Qed.

Lemma wp_mono {A} (c : M S A) s (Q R : outcome A -> S -> Prop) :
  wp c s Q -> (forall r s', Q r s' -> R r s') -> wp c s R.
Proof. unfold wp; eauto. Qed.

Lemma wp_ret {A} (a : A) s (Q : outcome A -> S -> Prop) : Q (Ok a) s -> wp (mret a) s Q.
Proof. exact id. Qed.

Lemma wp_lift {A} (c : outcome A) s (Q : outcome A -> S -> Prop) :
  Q c s -> wp (lift c) s Q.
Proof. exact id. Qed.

Lemma wp_modify (f : S -> S) s (Q : outcome unit -> S -> Prop) :
  Q (Ok tt) (f s) -> wp (modify f) s Q.
Proof. exact id. Qed.

Lemma wp_gets {A} (f : S -> A) s (Q : outcome A -> S -> Prop) :
  Q (Ok (f s)) s -> wp (gets f) s Q.
Proof. exact id. Qed.

Lemma wp_catch {A} (c : M S A) s (Q : outcome (outcome A) -> S -> Prop) :
  wp c s (fun r s' => match r with
                      | Ok a => Q (Ok (Ok a)) s'
                      | Err e => Q (Ok (Err e)) s'
                      | _ => stopped Q r s'
                      end) ->
  wp (catch c) s Q.
Proof. unfold wp, catch, stopped. destruct (c s) as [[a|e|p|] s']; simpl; auto. Qed.

Lemma wp_run {A} (c : M S A) s r s' (Q : outcome A -> S -> Prop) :
  c s = (r, s') -> wp c s Q -> Q r s'.
Proof. intros E. unfold wp. rewrite E. exact id. Qed.

Lemma run_wp {A} (c : M S A) s (Q : outcome A -> S -> Prop) :
  (forall r s', c s = (r, s') -> Q r s') -> wp c s Q.
Proof. intros H. apply H. by destruct (c s). Qed.

(** The rule for bounded loops: an invariant [I], a measure that decreases
    on every round, and a postcondition for the ways out. *)
Lemma wp_iterM {A B} (body : A -> M S (A + B)) (I : A -> S -> Prop) (μ : A -> Z)
    (Q : outcome B -> S -> Prop) :
  (forall a s, I a s ->
     wp (body a) s (fun r s' =>
       match r with
       | Ok (inl a') => I a' s' /\ 0 <= μ a' < μ a
       | Ok (inr b) => Q (Ok b) s'
       | _ => stopped Q r s'
       end)) ->
  forall n a s, I a s ->
    wp (iterM n body a) s (fun r s' =>
      match r with
      | Ok (inl a') => I a' s' /\ 0 <= μ a' <= μ a - 2 ^ Z.of_nat n
      | Ok (inr b) => Q (Ok b) s'
      | _ => stopped Q r s'
      end).
Proof.
  intros Hbody n. induction n as [|n IH]; intros a s HI; cbn [iterM].
  - eapply wp_mono; [by apply Hbody|]. intros [[a'|b]|e|p|] s'; simpl; intuition lia.
  - apply wp_bind. eapply wp_mono; [by apply IH|].
    intros [[a'|b]|e|p|] s'; simpl; [|auto|auto..].
    intros [HI' Hm]. eapply wp_mono; [by apply IH|].
    assert (2 ^ Z.of_nat (Datatypes.S n) = 2 * 2 ^ Z.of_nat n) as HE
      by (rewrite Nat2Z.inj_succ, Z.pow_succ_r; lia).
    intros [[a''|b]|e|p|] s''; simpl; try tauto. intros [? ?]. split; [done|]. lia.
Qed.

Lemma wp_loopM {A B} (body : A -> M S (A + B)) (I : A -> S -> Prop) (μ : A -> Z)
    (Q : outcome B -> S -> Prop) a s :
  (forall a s, I a s ->
     wp (body a) s (fun r s' =>
       match r with
       | Ok (inl a') => I a' s' /\ 0 <= μ a' < μ a
       | Ok (inr b) => Q (Ok b) s'
       | _ => stopped Q r s'
       end)) ->
  I a s -> μ a < 2 ^ 65 -> wp (loopM body a) s Q.
Proof.
  intros Hbody HI Hμ. unfold loopM. apply wp_bind.
  eapply wp_mono; [by apply (wp_iterM body I μ Q)|].
  intros [[a'|b]|e|p|] s'; simpl; auto.
  change (2 ^ Z.of_nat 65) with (2 ^ 65). intros [_ ?]. lia.
Qed.

End wp_rules.
#[global] Opaque wp.

(** Step through a [bind] whose first computation is a known primitive. *)
Ltac wp_prim := first [apply wp_ret | apply wp_lift | apply wp_modify | apply wp_gets].
Ltac wp_step := apply wp_bind; wp_prim; cbn beta iota.

(** Break an equation [outcome = Ok _] over binds. *)
Ltac ok_inv :=
  repeat match goal with
  | H : Ok _ = Ok _ |- _ => injection H; clear H; intros
  | H : Err _ = Ok _ |- _ => discriminate H
  | H : Panic _ = Ok _ |- _ => discriminate H
  | H : OutOfFuel = Ok _ |- _ => discriminate H
  | H : (mbind _ ?c) = Ok _ |- _ =>
      let E := fresh "E" in destruct c eqn:E; cbn in H; try discriminate H
  end; subst.

Lemma bind_ok {A B} (c : outcome A) (f : A -> outcome B) b :
  (c ≫= f) = Ok b -> exists a, c = Ok a /\ f a = Ok b.
Proof. destruct c; cbn; try done. eauto. Qed.

(** A computation that does not run out of fuel. *)
Lemma bind_defined {A B} (c : outcome A) (f : A -> outcome B) :
  c <> OutOfFuel -> (forall a, f a <> OutOfFuel) -> (c ≫= f) <> OutOfFuel.
Proof. intros Hc Hf. destruct c; cbn; auto; done. Qed.

Lemma foldO_defined {A B} (f : A -> B -> outcome A) a bs :
  Forall (fun b => forall a, f a b <> OutOfFuel) bs -> foldO f a bs <> OutOfFuel.
Proof.
  intros Hf. revert a. induction Hf as [|b bs Hb _ IH]; intros a; [done|]. cbn.
  apply bind_defined; auto.
Qed.

Lemma foldO_fmap {A B C} (f : A -> B -> outcome A) (g : C -> B) a cs :
  foldO f a (g <$> cs) = foldO (fun a c => f a (g c)) a cs.
Proof.
  revert a. induction cs as [|c cs IH]; intros a; [done|]. cbn. destruct (f a (g c)); cbn; auto.
Qed.

Lemma foldO_app {A B} (f : A -> B -> outcome A) a xs ys :
  foldO f a (xs ++ ys) = (a ← foldO f a xs; foldO f a ys).
Proof.
  revert a. induction xs as [|x xs IH]; intros a; [done|]. cbn. destruct (f a x); cbn; auto.
Qed.

(** ** More fuel *)

(** [c2] does what [c1] does, except where [c1] runs out of fuel. *)
Definition refines {S A} (c1 c2 : M S A) : Prop := forall s, fst (c1 s) = OutOfFuel \/ c1 s = c2 s.

Create HintDb refines.

Lemma refines_refl {S A} (c : M S A) : refines c c.
Proof. by right. Qed.

Lemma refines_trans {S A} (c1 c2 c3 : M S A) : refines c1 c2 -> refines c2 c3 -> refines c1 c3.
Proof. intros H1 H2 s. destruct (H1 s) as [?|E]; [by left|]. rewrite E. apply H2. Qed.

Lemma refines_out_of_fuel {S A} (c : M S A) : refines out_of_fuel c.
Proof. by left. Qed.

Lemma refines_bind {S A B} (c1 c2 : M S A) (f1 f2 : A -> M S B) :
  refines c1 c2 -> (forall a, refines (f1 a) (f2 a)) -> refines (c1 ≫= f1) (c2 ≫= f2).
Proof.
  intros Hc Hf s. unfold mbind, M_bind. destruct (Hc s) as [E| <-].
  - left. by destruct (c1 s) as [[| | |] ?].
  - destruct (c1 s) as [[a| | |] s']; [apply Hf|by right|by right|by left].
Qed.

Lemma refines_catch {S A} (c1 c2 : M S A) : refines c1 c2 -> refines (catch c1) (catch c2).
Proof.
  intros Hc s. unfold catch. destruct (Hc s) as [E| <-]; [|by right].
  left. by destruct (c1 s) as [[| | |] ?].
Qed.

Lemma refines_fmap {S A B} (g : A -> B) (c1 c2 : M S A) : refines c1 c2 -> refines (g <$> c1) (g <$> c2).
Proof.
  intros Hc s. unfold fmap, M_fmap. destruct (Hc s) as [E| <-]; [|by right].
  left. by destruct (c1 s) as [[| | |] ?].
Qed.

#[export] Hint Resolve refines_refl refines_out_of_fuel : refines.

(** Walk down two computations that differ in the calls they make. *)
Ltac refines_step :=
  intros;
  match goal with
  | |- refines (mbind _ _) (mbind _ _) => apply refines_bind
  | |- refines (catch _) (catch _) => apply refines_catch
  | |- refines (fmap _ _) (fmap _ _) => apply refines_fmap
  | |- refines (match ?x with _ => _ end) _ => destruct x
  end.
Ltac solve_refines := repeat (first [solve [eauto 2 with refines] | refines_step]).

(** ** Lists *)

Lemma Forall_rev_iff {A} (P : A -> Prop) (l : list A) : Forall P (rev l) <-> Forall P l.
Proof.
  split; [|apply List.Forall_rev]. intros Hf. rewrite <- (rev_involutive l).
  by apply List.Forall_rev.
Qed.
