(* ===== verification/Bits.v ===== *)
(** * Bits: integers of a fixed width as [Z], and their bits

    A [w]-bit value is a [Z] in [0, 2^w).  The lemmas give the bits of the
    arithmetic that bit-vector operations are made of (slice, concatenation,
    shifts, masks) in one form, [Z.testbit (op ..) j = ..], so that an
    equation between values is proved bit by bit. *)
From S2P Require Import Prelude.
From Stdlib Require Import Ascii.

Open Scope Z_scope.

(** Two's-complement reading of a [w]-bit value. *)
Definition sval (w v : Z) : Z := if v <? 2 ^ (w - 1) then v else v - 2 ^ w.
(** [1 << n] on widths, and the value with its low [w] bits set. *)
Definition ones_val (w : Z) : Z := 2 ^ w - 1.
(** Bits [hi .. lo] (inclusive) of a value. *)
Definition slice_val (v hi lo : Z) : Z := (v / 2 ^ lo) mod 2 ^ (hi - lo + 1).
(** [a] above the [wb]-bit value [b]. *)
Definition concat_val (a wb b : Z) : Z := a * 2 ^ wb + b.

(** [u64] arithmetic with the overflow check of a debug build. *)
Definition u64_max : Z := 2 ^ 64 - 1.
Definition u64_add (a b : Z) : outcome Z :=
  if a + b <=? u64_max then Ok (a + b) else Panic "attempt to add with overflow".
Definition u64_sub (a b : Z) : outcome Z :=
  if b <=? a then Ok (a - b) else Panic "attempt to subtract with overflow".
Definition u64_mul (a b : Z) : outcome Z :=
  if a * b <=? u64_max then Ok (a * b) else Panic "attempt to multiply with overflow".
Definition u32_mul (a b : Z) : outcome Z :=
  if a * b <? 2 ^ 32 then Ok (a * b) else Panic "attempt to multiply with overflow".
Definition u32_sub (a b : Z) : outcome Z :=
  if b <=? a then Ok (a - b) else Panic "attempt to subtract with overflow".
(** [x as u32] *)
Definition as_u32 (a : Z) : Z := a mod 2 ^ 32.

Section ranges.

Lemma pow2_pos (w : Z) : 0 <= w -> 0 < 2 ^ w.
Proof. intros. apply Z.pow_pos_nonneg; lia. Qed.

Lemma pow2_double (w : Z) : 0 < w -> 2 ^ w = 2 * 2 ^ (w - 1).
Proof. intros. rewrite <- Z.pow_succ_r by lia. f_equal. lia. Qed.

Lemma pow2_split (a b : Z) : 0 <= a -> 0 <= b -> 2 ^ (a + b) = 2 ^ a * 2 ^ b.
Proof. apply Z.pow_add_r. Qed.

Lemma pow2_le (a b : Z) : 0 <= a <= b -> 2 ^ a <= 2 ^ b.
Proof. intros. apply Z.pow_le_mono_r; lia. Qed.

Lemma mod_pow2_range (v w : Z) : 0 <= w -> 0 <= v mod 2 ^ w < 2 ^ w.
Proof. intros. apply Z.mod_pos_bound, pow2_pos. lia. Qed.

Lemma slice_val_range v hi lo : lo <= hi + 1 -> 0 <= slice_val v hi lo < 2 ^ (hi - lo + 1).
Proof. intros. apply mod_pow2_range. lia. Qed.

Lemma concat_val_range a wa wb b :
  0 <= wa -> 0 <= wb -> 0 <= a < 2 ^ wa -> 0 <= b < 2 ^ wb ->
  0 <= concat_val a wb b < 2 ^ (wa + wb).
Proof.
  intros ?? Ha Hb. unfold concat_val. rewrite pow2_split by lia.
  pose proof (pow2_pos wb). nia.
Qed.

Lemma ones_val_range w : 0 < w -> 0 <= ones_val w < 2 ^ w.
Proof. intros. unfold ones_val. pose proof (pow2_pos w). lia. Qed.

Lemma sval_range w v : 0 < w -> 0 <= v < 2 ^ w -> - 2 ^ (w - 1) <= sval w v < 2 ^ (w - 1).
Proof.
  intros Hw Hv. unfold sval. rewrite (pow2_double w) in * by lia.
  destruct (Z.ltb_spec v (2 ^ (w - 1))); lia.
Qed.

Lemma sval_mod w v : 0 < w -> 0 <= v < 2 ^ w -> sval w v mod 2 ^ w = v.
Proof.
  intros Hw Hv. unfold sval. destruct (v <? 2 ^ (w - 1)).
  - by apply Z.mod_small.
  - replace (v - 2 ^ w) with (v + (-1) * 2 ^ w) by lia.
    rewrite Z.mod_add by (pose proof (pow2_pos w); lia). by apply Z.mod_small.
Qed.

(** A signed integer of [w] bits is determined by its residue. *)
Lemma sval_of_mod w x : 0 < w -> - 2 ^ (w - 1) <= x < 2 ^ (w - 1) -> sval w (x mod 2 ^ w) = x.
Proof.
  intros Hw Hx. unfold sval. pose proof (pow2_double w Hw) as HE.
  destruct (Z_lt_le_dec x 0).
  - replace (x mod 2 ^ w) with (x + 2 ^ w).
    + destruct (Z.ltb_spec (x + 2 ^ w) (2 ^ (w - 1))); lia.
    + symmetry. rewrite <- (Z.mod_small (x + 2 ^ w) (2 ^ w)) by lia.
      replace (x + 2 ^ w) with (x + 1 * 2 ^ w) by lia. symmetry. apply Z.mod_add. lia.
  - rewrite Z.mod_small by lia. destruct (Z.ltb_spec x (2 ^ (w - 1))); lia.
Qed.

End ranges.

Section bits.

Lemma testbit_high v w j : 0 <= w -> 0 <= v < 2 ^ w -> w <= j -> Z.testbit v j = false.
Proof.
  intros Hw Hv Hj. rewrite <- (Z.mod_small v (2 ^ w)) by done.
  by apply Z.mod_pow2_bits_high.
Qed.

(** Two values of [w] bits with the same bits are equal. *)
Lemma bits_ext w a b :
  0 <= w -> 0 <= a < 2 ^ w -> 0 <= b < 2 ^ w ->
  (forall j, 0 <= j < w -> Z.testbit a j = Z.testbit b j) -> a = b.
Proof.
  intros Hw Ha Hb H. apply Z.bits_inj'. intros j Hj.
  destruct (Z_lt_le_dec j w); [by apply H|].
  by rewrite !(testbit_high _ w) by done.
Qed.

Lemma testbit_div_pow2 v s j : 0 <= s -> 0 <= j -> Z.testbit (v / 2 ^ s) j = Z.testbit v (j + s).
Proof. intros. by rewrite <- Z.shiftr_div_pow2, Z.shiftr_spec by lia. Qed.

Lemma testbit_mod_pow2 v w j :
  0 <= w -> 0 <= j -> Z.testbit (v mod 2 ^ w) j = (j <? w) && Z.testbit v j.
Proof.
  intros. destruct (Z.ltb_spec j w).
  - by rewrite Z.mod_pow2_bits_low by lia.
  - by rewrite Z.mod_pow2_bits_high by lia.
Qed.

Lemma testbit_mul_pow2 v s j :
  0 <= s -> 0 <= j -> Z.testbit (v * 2 ^ s) j = (s <=? j) && Z.testbit v (j - s).
Proof.
  intros. destruct (Z.leb_spec s j).
  - by rewrite Z.mul_pow2_bits by lia.
  - rewrite Z.mul_pow2_bits_low by lia. done.
Qed.

Lemma testbit_slice v hi lo j :
  0 <= lo -> lo <= hi + 1 -> 0 <= j ->
  Z.testbit (slice_val v hi lo) j = (j <=? hi - lo) && Z.testbit v (j + lo).
Proof.
  intros. unfold slice_val. rewrite testbit_mod_pow2, testbit_div_pow2 by lia.
  f_equal. destruct (Z.ltb_spec j (hi - lo + 1)), (Z.leb_spec j (hi - lo)); lia.
Qed.

Lemma testbit_concat a wb b j :
  0 <= wb -> 0 <= b < 2 ^ wb -> 0 <= j ->
  Z.testbit (concat_val a wb b) j =
  if j <? wb then Z.testbit b j else Z.testbit a (j - wb).
Proof.
  intros Hwb Hb Hj. unfold concat_val.
  assert (Hdisj : Z.land (a * 2 ^ wb) b = 0).
  { apply Z.bits_inj'. intros i Hi. rewrite Z.land_spec, Z.bits_0.
    rewrite testbit_mul_pow2 by lia. destruct (Z.leb_spec wb i); [|done].
    rewrite (testbit_high b wb) by lia. apply andb_false_r. }
  rewrite <- Z.add_lor_land, Hdisj, Z.add_0_r, Z.lor_spec, testbit_mul_pow2 by lia.
  destruct (Z.ltb_spec j wb), (Z.leb_spec wb j); try lia; simpl; [done|].
  rewrite (testbit_high b wb) by lia. apply orb_false_r.
Qed.


Lemma testbit_ones_val w j : 0 <= w -> 0 <= j -> Z.testbit (ones_val w) j = (j <? w).
Proof.
  intros. replace (ones_val w) with (Z.ones w) by (rewrite Z.ones_equiv; unfold ones_val; lia).
  destruct (Z.ltb_spec j w); [apply Z.ones_spec_low | apply Z.ones_spec_high]; lia.
Qed.

(** The complement of a [w]-bit value. *)
Lemma testbit_not_val w v j :
  0 <= w -> 0 <= v < 2 ^ w -> 0 <= j ->
  Z.testbit (ones_val w - v) j = (j <? w) && negb (Z.testbit v j).
Proof.
  intros Hw Hv Hj. replace (ones_val w - v) with (Z.lnot v mod 2 ^ w).
  - by rewrite testbit_mod_pow2, Z.lnot_spec by lia.
  - unfold ones_val. rewrite <- (Z.mod_small (2 ^ w - 1 - v) (2 ^ w)) by lia.
    replace (2 ^ w - 1 - v) with (Z.lnot v + 1 * 2 ^ w) by (unfold Z.lnot; lia).
    symmetry. apply Z.mod_add. lia.
Qed.

Lemma land_range w a b : 0 <= w -> 0 <= a < 2 ^ w -> 0 <= b < 2 ^ w -> 0 <= Z.land a b < 2 ^ w.
Proof.
  intros Hw Ha Hb. replace (Z.land a b) with (Z.land a b mod 2 ^ w); [by apply mod_pow2_range|].
  apply Z.bits_inj'. intros j Hj. rewrite testbit_mod_pow2, Z.land_spec by lia.
  destruct (Z.ltb_spec j w); [done|]. by rewrite (testbit_high a w) by done.
Qed.

Lemma lor_range w a b : 0 <= w -> 0 <= a < 2 ^ w -> 0 <= b < 2 ^ w -> 0 <= Z.lor a b < 2 ^ w.
Proof.
  intros Hw Ha Hb. replace (Z.lor a b) with (Z.lor a b mod 2 ^ w); [by apply mod_pow2_range|].
  apply Z.bits_inj'. intros j Hj. rewrite testbit_mod_pow2, Z.lor_spec by lia.
  destruct (Z.ltb_spec j w); [done|]. by rewrite (testbit_high a w), (testbit_high b w) by done.
Qed.

Lemma lxor_range w a b : 0 <= w -> 0 <= a < 2 ^ w -> 0 <= b < 2 ^ w -> 0 <= Z.lxor a b < 2 ^ w.
Proof.
  intros Hw Ha Hb. replace (Z.lxor a b) with (Z.lxor a b mod 2 ^ w); [by apply mod_pow2_range|].
  apply Z.bits_inj'. intros j Hj. rewrite testbit_mod_pow2, Z.lxor_spec by lia.
  destruct (Z.ltb_spec j w); [done|]. by rewrite (testbit_high a w), (testbit_high b w) by done.
Qed.

End bits.

(** ** Binary strings

    [bin_str w v] is Rust's [format!("{:0w$b}", v)] for a [v] that fits in [w]
    digits: most significant bit first. *)

Fixpoint bin_digits (n : nat) (v : Z) : string :=
  match n with
  | O => EmptyString
  | S n' => String (if Z.testbit v (Z.of_nat n') then "1" else "0")%char (bin_digits n' v)
  end.
Definition bin_str (w v : Z) : string := bin_digits (Z.to_nat w) v.

(** [format!("{:0w$b}", v)]: at least [w] digits, more when [v] needs them. *)
Definition format_bin (w v : Z) : string := bin_str (Z.max w (Z.max 1 (Z.log2 v + 1))) v.
(** ["c".repeat(n)] *)
Fixpoint str_repeat (c : ascii) (n : nat) : string :=
  match n with O => EmptyString | S n' => String c (str_repeat c n') end.

(** The value written by a string of binary digits. *)
Fixpoint bin_val_acc (acc : Z) (s : string) : Z :=
  match s with
  | EmptyString => acc
  | String c s' => bin_val_acc (2 * acc + (if Ascii.eqb c "1" then 1 else 0)) s'
  end.
Definition bin_val (s : string) : Z := bin_val_acc 0 s.

Section binary_strings.

Lemma bin_digits_length n v : String.length (bin_digits n v) = n.
Proof. induction n; simpl; congruence. Qed.

Lemma bin_val_acc_digits n v acc :
  bin_val_acc acc (bin_digits n v) = acc * 2 ^ Z.of_nat n + v mod 2 ^ Z.of_nat n.
Proof.
  revert acc. induction n as [|n IH]; intros acc.
  - simpl. rewrite Z.mod_1_r. lia.
  - cbn [bin_digits bin_val_acc]. rewrite IH.
    rewrite Nat2Z.inj_succ, Z.pow_succ_r by lia.
    assert (HE : v mod (2 * 2 ^ Z.of_nat n) =
                 v mod 2 ^ Z.of_nat n + 2 ^ Z.of_nat n * Z.b2z (Z.testbit v (Z.of_nat n))).
    { rewrite (Z.mul_comm 2), Z.rem_mul_r by (pose proof (pow2_pos (Z.of_nat n)); lia).
      rewrite (Z.testbit_spec' v (Z.of_nat n)) by lia. done. }
    rewrite HE. destruct (Z.testbit v (Z.of_nat n)); simpl; lia.
Qed.

Lemma bin_val_str w v : 0 <= w -> 0 <= v < 2 ^ w -> bin_val (bin_str w v) = v.
Proof.
  intros Hw Hv. unfold bin_val, bin_str. rewrite bin_val_acc_digits, Z2Nat.id by lia.
  rewrite Z.mod_small; lia.
Qed.

Lemma bin_str_inj w v v' :
  0 <= w -> 0 <= v < 2 ^ w -> 0 <= v' < 2 ^ w -> bin_str w v = bin_str w v' -> v = v'.
Proof.
  intros Hw Hv Hv' H. rewrite <- (bin_val_str w v), <- (bin_val_str w v') by done. by rewrite H.
Qed.

Lemma bin_str_length w v : 0 <= w -> Z.of_nat (String.length (bin_str w v)) = w.
Proof. intros. unfold bin_str. rewrite bin_digits_length. lia. Qed.

Lemma format_bin_fits w v : 0 < w -> 0 <= v < 2 ^ w -> format_bin w v = bin_str w v.
Proof.
  intros Hw Hv. unfold format_bin. f_equal. assert (v = 0 \/ 0 < v) as [->|Hp] by lia; [cbn; lia|].
  pose proof (proj1 (Z.log2_lt_pow2 v w Hp) (proj2 Hv)). lia.
Qed.

Lemma bin_digits_repeat_0 n : str_repeat "0" n = bin_digits n 0.
Proof. induction n; simpl; [done|]. rewrite Z.bits_0. congruence. Qed.

Lemma bin_digits_ones n w : Z.of_nat n <= w -> bin_digits n (ones_val w) = str_repeat "1" n.
Proof.
  intros Hn. induction n as [|n IH]; simpl; [done|].
  rewrite testbit_ones_val, (proj2 (Z.ltb_lt _ _)), IH by lia. done.
Qed.

Lemma bin_digits_mod n v : bin_digits n (v mod 2 ^ Z.of_nat n) = bin_digits n v.
Proof.
  assert (H : forall k, (k <= n)%nat -> bin_digits k (v mod 2 ^ Z.of_nat n) = bin_digits k v); [|by apply H].
  intros k. induction k as [|k IH]; intros Hk; simpl; [done|].
  rewrite testbit_mod_pow2, (proj2 (Z.ltb_lt _ _)), IH by lia. done.
Qed.

(** Digit strings are written high part first. *)
Lemma bin_digits_app n k a b : 0 <= b < 2 ^ Z.of_nat k ->
  (bin_digits n a +:+ bin_digits k b)%string = bin_digits (n + k) (concat_val a (Z.of_nat k) b).
Proof.
  intros Hb. induction n as [|n IH]; cbn [bin_digits Nat.add].
  - rewrite <- (bin_digits_mod k (concat_val _ _ _)). unfold concat_val.
    rewrite Z.add_comm, Z.mod_add by (pose proof (pow2_pos (Z.of_nat k)); lia).
    by rewrite Z.mod_small.
  - rewrite <- IH, testbit_concat by lia.
    rewrite (proj2 (Z.ltb_ge _ _)) by lia. replace (Z.of_nat (n + k) - Z.of_nat k) with (Z.of_nat n) by lia.
    done.
Qed.

Lemma bin_str_app w k a b : 0 <= w -> 0 <= k -> 0 <= b < 2 ^ k ->
  (bin_str w a +:+ bin_str k b)%string = bin_str (w + k) (concat_val a k b).
Proof.
  intros Hw Hk Hb. unfold bin_str. rewrite bin_digits_app by (rewrite Z2Nat.id; lia).
  by rewrite Z2Nat.id, Z2Nat.inj_add by lia.
Qed.

End binary_strings.
