(* ===== verification/Backend.v ===== *)
(** * Backend: the traits of src/src/backend.rs

    haybale is generic over a [Backend]: a solver reference, a bit-vector type
    and a memory type.  [BackendOps] has the operations of the traits
    [SolverRef] and [BV] (and the few calls the code makes directly on
    [boolector::Btor], [boolector::Array] and [boolector::BVSolution]).
    Boolector itself is not part of the repository: its operations are the
    fields of the class, and [BackendLaws] states what its documentation
    promises about them, relative to an evaluation of terms in a model
    ([BVSemantics]).  The provided methods of the trait ([zero_extend_to_bits],
    [uadds], ...) are definitions. *)
From S2P Require Import Prelude Bits.

Open Scope Z_scope.

(** [boolector::SolverResult] *)
Inductive SolverResult := SolverSat | SolverUnsat | SolverUnknown.

(** The operations of [trait SolverRef], [trait BV] and of the boolector
    objects behind them. *)
Class BackendOps : Type := {
  SolverRef : Type;
  BV : Type;
  Array : Type;
  BVSolution : Type;
  BVSolution_eq_dec :: EqDecision BVSolution;
  BVSolution_countable :: Countable BVSolution;
  (* SolverRef *)
  solver_new : SolverRef;
  duplicate : SolverRef -> SolverRef;
  match_bv : SolverRef -> BV -> option BV;
  match_array : SolverRef -> Array -> option Array;
  (* boolector::Btor, through Deref *)
  btor_push : Z -> SolverRef -> SolverRef;
  btor_pop : Z -> SolverRef -> SolverRef;
  btor_sat : SolverRef -> SolverResult * SolverRef;
  btor_set_model_gen : bool -> SolverRef -> SolverRef;
  btor_assert : BV -> SolverRef -> SolverRef;
  btor_get_a_solution : BV -> SolverRef -> BVSolution;
  (* boolector::BVSolution *)
  from_01x_str : string -> BVSolution;
  as_01x_str : BVSolution -> string;
  disambiguate : BVSolution -> BVSolution;
  sol_as_u64 : BVSolution -> option Z;
  (* boolector::Array *)
  array_new : Z -> Z -> option string -> SolverRef -> Array * SolverRef;
  array_new_initialized : Z -> Z -> BV -> Array;
  array_read : Array -> BV -> BV;
  array_write : Array -> BV -> BV -> Array;
  (* trait BV *)
  bv_new : Z -> option string -> SolverRef -> BV * SolverRef;
  from_bool : bool -> BV;
  from_i32 : Z -> Z -> BV;
  from_u32 : Z -> Z -> BV;
  from_i64 : Z -> Z -> BV;
  from_u64 : Z -> Z -> BV;
  bv_zero : Z -> BV;
  bv_one : Z -> BV;
  bv_ones : Z -> BV;
  from_binary_str : string -> BV;
  as_binary_str : BV -> option string;
  as_u64 : BV -> option Z;
  as_bool : BV -> option bool;
  get_width : BV -> Z;
  bv_eq : BV -> BV -> BV;
  bv_ne : BV -> BV -> BV;
  bv_add : BV -> BV -> BV;
  bv_sub : BV -> BV -> BV;
  bv_mul : BV -> BV -> BV;
  bv_udiv : BV -> BV -> BV;
  bv_sdiv : BV -> BV -> BV;
  bv_urem : BV -> BV -> BV;
  bv_srem : BV -> BV -> BV;
  bv_inc : BV -> BV;
  bv_neg : BV -> BV;
  uaddo : BV -> BV -> BV;
  saddo : BV -> BV -> BV;
  usubo : BV -> BV -> BV;
  ssubo : BV -> BV -> BV;
  umulo : BV -> BV -> BV;
  smulo : BV -> BV -> BV;
  bv_not : BV -> BV;
  bv_and : BV -> BV -> BV;
  bv_or : BV -> BV -> BV;
  bv_xor : BV -> BV -> BV;
  sll : BV -> BV -> BV;
  srl : BV -> BV -> BV;
  sra : BV -> BV -> BV;
  ugt : BV -> BV -> BV;
  ugte : BV -> BV -> BV;
  sgt : BV -> BV -> BV;
  sgte : BV -> BV -> BV;
  ult : BV -> BV -> BV;
  ulte : BV -> BV -> BV;
  slt : BV -> BV -> BV;
  slte : BV -> BV -> BV;
  zext : BV -> Z -> BV;
  sext : BV -> Z -> BV;
  slice : BV -> Z -> Z -> BV;
  bv_concat : BV -> BV -> BV;
  cond_bv : BV -> BV -> BV -> BV
}.

(** What a model of the constraints assigns to terms, and the stack of
    assertion levels (innermost first) a solver instance is in. *)
Class BVSemantics `{BackendOps} : Type := {
  Model : Type;
  eval : Model -> BV -> Z;
  eval_array : Model -> Array -> Z -> Z;
  index_width : Array -> Z;
  element_width : Array -> Z;
  assertions : SolverRef -> list (list BV);
  model_gen : SolverRef -> bool
}.

Section semantics.
Context `{Sem : BVSemantics}.

(** [models s m]: the model satisfies every assertion of every level. *)
Definition models (s : SolverRef) (m : Model) : Prop :=
  Forall (fun b => eval m b = 1) (concat (assertions s)).
(** [m] satisfies the assertions of [s] and the constraint [b]. *)
Definition feasible (s : SolverRef) (P : Model -> Prop) : Prop :=
  exists m, models s m /\ P m.

End semantics.

(** A binary operation on operands of equal width. *)
Definition bin_law `{BVSemantics} (op : BV -> BV -> BV) (f : Z -> Z -> Z -> Z) : Prop :=
  forall a b, get_width a = get_width b ->
    get_width (op a b) = get_width a /\
    forall m, eval m (op a b) = f (get_width a) (eval m a) (eval m b).
(** A predicate on operands of equal width: a one-bit result. *)
Definition pred_law `{BVSemantics} (op : BV -> BV -> BV) (f : Z -> Z -> Z -> bool) : Prop :=
  forall a b, get_width a = get_width b ->
    get_width (op a b) = 1 /\
    forall m, eval m (op a b) = Z.b2z (f (get_width a) (eval m a) (eval m b)).

(** SMT-LIB division: by zero it is all ones (quotient) or the dividend. *)
Definition udiv_val (w a b : Z) : Z := if b =? 0 then ones_val w else a / b.
Definition urem_val (a b : Z) : Z := if b =? 0 then a else a mod b.
Definition sdiv_val (w a b : Z) : Z :=
  (if sval w b =? 0 then (if 0 <=? sval w a then -1 else 1)
   else Z.quot (sval w a) (sval w b)) mod 2 ^ w.
Definition srem_val (w a b : Z) : Z :=
  (if sval w b =? 0 then sval w a else Z.rem (sval w a) (sval w b)) mod 2 ^ w.
(** Out of the range of a [w]-bit signed integer. *)
Definition signed_overflow (w x : Z) : bool := (x <? - 2 ^ (w - 1)) || (2 ^ (w - 1) <=? x).

(** The documented behaviour of Boolector's bit-vector, array and solver
    operations that the code relies on. *)
Class BackendLaws `{BVSemantics} : Prop := {
  width_pos b : 0 < get_width b;
  eval_range m b : 0 <= eval m b < 2 ^ get_width b;
  (* constants *)
  from_bool_law x : get_width (from_bool x) = 1 /\ forall m, eval m (from_bool x) = Z.b2z x;
  from_u32_law u w : 0 < w -> 0 <= u < 2 ^ 32 -> u < 2 ^ w ->
    get_width (from_u32 u w) = w /\ forall m, eval m (from_u32 u w) = u;
  from_u64_law u w : 0 < w -> 0 <= u < 2 ^ 64 -> u < 2 ^ w ->
    get_width (from_u64 u w) = w /\ forall m, eval m (from_u64 u w) = u;
  bv_zero_law w : 0 < w -> get_width (bv_zero w) = w /\ forall m, eval m (bv_zero w) = 0;
  bv_one_law w : 0 < w -> get_width (bv_one w) = w /\ forall m, eval m (bv_one w) = 1;
  bv_ones_law w : 0 < w -> get_width (bv_ones w) = w /\ forall m, eval m (bv_ones w) = ones_val w;
  from_binary_str_law w v : 0 < w -> 0 <= v < 2 ^ w ->
    get_width (from_binary_str (bin_str w v)) = w /\
    forall m, eval m (from_binary_str (bin_str w v)) = v;
  as_u64_law b u : as_u64 b = Some u -> forall m, eval m b = u;
  as_binary_str_law b str : as_binary_str b = Some str ->
    exists v, str = bin_str (get_width b) v /\ 0 <= v < 2 ^ get_width b /\ forall m, eval m b = v;
  as_bool_law b x : as_bool b = Some x -> forall m, eval m b = Z.b2z x;
  (* arithmetic and logic *)
  bv_add_law : bin_law bv_add (fun w a b => (a + b) mod 2 ^ w);
  bv_sub_law : bin_law bv_sub (fun w a b => (a - b) mod 2 ^ w);
  bv_mul_law : bin_law bv_mul (fun w a b => (a * b) mod 2 ^ w);
  bv_udiv_law : bin_law bv_udiv (fun w a b => udiv_val w a b);
  bv_urem_law : bin_law bv_urem (fun _ a b => urem_val a b);
  bv_sdiv_law : bin_law bv_sdiv sdiv_val;
  bv_srem_law : bin_law bv_srem srem_val;
  bv_and_law : bin_law bv_and (fun _ => Z.land);
  bv_or_law : bin_law bv_or (fun _ => Z.lor);
  bv_xor_law : bin_law bv_xor (fun _ => Z.lxor);
  sll_law : bin_law sll (fun w a b => (a * 2 ^ b) mod 2 ^ w);
  srl_law : bin_law srl (fun _ a b => a / 2 ^ b);
  sra_law : bin_law sra (fun w a b => (sval w a / 2 ^ b) mod 2 ^ w);
  bv_not_law a : get_width (bv_not a) = get_width a /\
    forall m, eval m (bv_not a) = ones_val (get_width a) - eval m a;
  bv_neg_law a : get_width (bv_neg a) = get_width a /\
    forall m, eval m (bv_neg a) = (- eval m a) mod 2 ^ get_width a;
  bv_inc_law a : get_width (bv_inc a) = get_width a /\
    forall m, eval m (bv_inc a) = (eval m a + 1) mod 2 ^ get_width a;
  (* predicates *)
  bv_eq_law : pred_law bv_eq (fun _ => Z.eqb);
  bv_ne_law : pred_law bv_ne (fun _ a b => negb (a =? b));
  ugt_law : pred_law ugt (fun _ a b => b <? a);
  ugte_law : pred_law ugte (fun _ a b => b <=? a);
  ult_law : pred_law ult (fun _ a b => a <? b);
  ulte_law : pred_law ulte (fun _ a b => a <=? b);
  sgt_law : pred_law sgt (fun w a b => sval w b <? sval w a);
  sgte_law : pred_law sgte (fun w a b => sval w b <=? sval w a);
  slt_law : pred_law slt (fun w a b => sval w a <? sval w b);
  slte_law : pred_law slte (fun w a b => sval w a <=? sval w b);
  uaddo_law : pred_law uaddo (fun w a b => 2 ^ w <=? a + b);
  saddo_law : pred_law saddo (fun w a b => signed_overflow w (sval w a + sval w b));
  usubo_law : pred_law usubo (fun _ a b => a <? b);
  ssubo_law : pred_law ssubo (fun w a b => signed_overflow w (sval w a - sval w b));
  umulo_law : pred_law umulo (fun w a b => 2 ^ w <=? a * b);
  smulo_law : pred_law smulo (fun w a b => signed_overflow w (sval w a * sval w b));
  (* structure *)
  zext_law a n : 0 <= n -> get_width (zext a n) = get_width a + n /\
    forall m, eval m (zext a n) = eval m a;
  sext_law a n : 0 <= n -> get_width (sext a n) = get_width a + n /\
    forall m, eval m (sext a n) = sval (get_width a) (eval m a) mod 2 ^ (get_width a + n);
  slice_law a hi lo : 0 <= lo <= hi -> hi < get_width a ->
    get_width (slice a hi lo) = hi - lo + 1 /\
    forall m, eval m (slice a hi lo) = slice_val (eval m a) hi lo;
  bv_concat_law a b : get_width (bv_concat a b) = get_width a + get_width b /\
    forall m, eval m (bv_concat a b) = concat_val (eval m a) (get_width b) (eval m b);
  cond_bv_law c a b : get_width c = 1 -> get_width a = get_width b ->
    get_width (cond_bv c a b) = get_width a /\
    forall m, eval m (cond_bv c a b) = if eval m c =? 1 then eval m a else eval m b;
  (* arrays *)
  array_new_law iw ew name s : 0 < iw -> 0 < ew ->
    let '(a, s') := array_new iw ew name s in
    index_width a = iw /\ element_width a = ew /\
    assertions s' = assertions s /\ model_gen s' = model_gen s;
  array_new_initialized_law iw ew v : 0 < iw -> get_width v = ew ->
    index_width (array_new_initialized iw ew v) = iw /\
    element_width (array_new_initialized iw ew v) = ew /\
    forall m i, eval_array m (array_new_initialized iw ew v) i = eval m v;
  array_read_law a i : get_width i = index_width a ->
    get_width (array_read a i) = element_width a /\
    forall m, eval m (array_read a i) = eval_array m a (eval m i);
  array_write_law a i v : get_width i = index_width a -> get_width v = element_width a ->
    index_width (array_write a i v) = index_width a /\
    element_width (array_write a i v) = element_width a /\
    forall m j, eval_array m (array_write a i v) j =
      if j =? eval m i then eval m v else eval_array m a j;
  eval_array_range m a i : 0 < element_width a -> 0 <= eval_array m a i < 2 ^ element_width a;
  (* solver *)
  solver_new_law : assertions solver_new = [[]] /\ model_gen solver_new = false;
  bv_new_law w name s : 0 < w ->
    let '(b, s') := bv_new w name s in
    get_width b = w /\ assertions s' = assertions s /\ model_gen s' = model_gen s;
  btor_push_law n s : 0 <= n ->
    assertions (btor_push n s) = replicate (Z.to_nat n) [] ++ assertions s /\
    model_gen (btor_push n s) = model_gen s;
  btor_pop_law n s : 0 <= n < Z.of_nat (length (assertions s)) ->
    assertions (btor_pop n s) = drop (Z.to_nat n) (assertions s) /\
    model_gen (btor_pop n s) = model_gen s;
  btor_assert_law b l ls s : get_width b = 1 -> assertions s = l :: ls ->
    assertions (btor_assert b s) = (b :: l) :: ls /\
    model_gen (btor_assert b s) = model_gen s;
  btor_set_model_gen_law x s :
    assertions (btor_set_model_gen x s) = assertions s /\
    model_gen (btor_set_model_gen x s) = x;
  btor_sat_law s : let '(r, s') := btor_sat s in
    assertions s' = assertions s /\ model_gen s' = model_gen s /\
    match r with
    | SolverSat => exists m, models s m
    | SolverUnsat => ~ exists m, models s m
    | SolverUnknown => True
    end;
  btor_get_a_solution_law b s s' :
    btor_sat s = (SolverSat, s') -> model_gen s = true ->
    exists m, models s m /\
      as_01x_str (disambiguate (btor_get_a_solution b s')) = bin_str (get_width b) (eval m b);
  (* solutions *)
  as_from_01x_str str : as_01x_str (from_01x_str str) = str;
  from_as_01x_str x : from_01x_str (as_01x_str x) = x;
  sol_as_u64_law w v : 0 < w <= 64 -> 0 <= v < 2 ^ w ->
    sol_as_u64 (from_01x_str (bin_str w v)) = Some v
}.

(** ** Methods of the traits *)

Section methods.
Context `{Ops : BackendOps}.

(** [BV::assert] and [BV::get_a_solution] as [impl BV for boolector::BV] has
    them: the calls cannot fail. *)
Definition bv_assert (b : BV) : M SolverRef unit := fun s => (Ok tt, btor_assert b s).
Definition get_a_solution (b : BV) : M SolverRef BVSolution :=
  fun s => (Ok (btor_get_a_solution b s), s).

Definition zero_extend_to_bits (self : BV) (bits : Z) : outcome BV :=
  let cur_bits := get_width self in
  match Z.compare cur_bits bits with
  | Datatypes.Eq => Ok self
  | Datatypes.Lt => Ok (zext self (bits - cur_bits))
  | Datatypes.Gt => Panic "tried to zero-extend to fewer bits"
  end.

Definition sign_extend_to_bits (self : BV) (bits : Z) : outcome BV :=
  let cur_bits := get_width self in
  match Z.compare cur_bits bits with
  | Datatypes.Eq => Ok self
  | Datatypes.Lt => Ok (sext self (bits - cur_bits))
  | Datatypes.Gt => Panic "tried to sign-extend to fewer bits"
  end.

Definition uadds (self other : BV) : outcome BV :=
  let width := get_width self in
  _ ← assert_ "assert_eq!(width, other.get_width())" (width =? get_width other);
  _ ← assert_ "assert!(width > 0)" (0 <? width);
  let result := bv_add self other in
  let overflow := uaddo self other in
  let max_value := bv_ones width in
  mret (cond_bv overflow max_value result).

Definition sadds (self other : BV) : outcome BV :=
  let width := get_width self in
  _ ← assert_ "assert_eq!(width, other.get_width())" (width =? get_width other);
  _ ← assert_ "assert!(width > 0)" (0 <? width);
  let result := bv_add self other in
  let overflow := saddo self other in
  let max_positive := bv_concat (bv_zero 1) (bv_ones (width - 1)) in
  _ ← assert_ "assert_eq!(max_positive.get_width(), width)" (get_width max_positive =? width);
  let max_negative := bv_concat (bv_one 1) (bv_zero (width - 1)) in
  _ ← assert_ "assert_eq!(max_negative.get_width(), width)" (get_width max_negative =? width);
  let self_negative := slice self (width - 1) (width - 1) in
  mret (cond_bv overflow (cond_bv self_negative max_negative max_positive) result).

Definition usubs (self other : BV) : outcome BV :=
  let width := get_width self in
  _ ← assert_ "assert_eq!(width, other.get_width())" (width =? get_width other);
  _ ← assert_ "assert!(width > 0)" (0 <? width);
  let result := bv_sub self other in
  let overflow := usubo self other in
  let zero := bv_zero width in
  mret (cond_bv overflow zero result).

Definition ssubs (self other : BV) : outcome BV := sadds self (bv_neg other).

End methods.

(** ** Rewriting with the laws

    [bv_widths] computes the width of a term and [bv_evals] its value in a
    model, discharging the side conditions on widths by computing those in
    turn. *)

Section law_lemmas.
Context `{Laws : BackendLaws}.

Lemma bin_width op f a b : bin_law op f -> get_width a = get_width b -> get_width (op a b) = get_width a.
Proof. intros L E. by destruct (L a b E). Qed.
Lemma bin_eval op f a b m : bin_law op f -> get_width a = get_width b ->
  eval m (op a b) = f (get_width a) (eval m a) (eval m b).
Proof. intros L E. by destruct (L a b E). Qed.
Lemma pred_width op f a b : pred_law op f -> get_width a = get_width b -> get_width (op a b) = 1.
Proof. intros L E. by destruct (L a b E). Qed.
Lemma pred_eval op f a b m : pred_law op f -> get_width a = get_width b ->
  eval m (op a b) = Z.b2z (f (get_width a) (eval m a) (eval m b)).
Proof. intros L E. by destruct (L a b E). Qed.

Lemma zext_width a n : 0 <= n -> get_width (zext a n) = get_width a + n.
Proof. intros Hn. by destruct (zext_law a n Hn). Qed.
Lemma zext_eval a n m : 0 <= n -> eval m (zext a n) = eval m a.
Proof. intros Hn. by destruct (zext_law a n Hn). Qed.
Lemma sext_width a n : 0 <= n -> get_width (sext a n) = get_width a + n.
Proof. intros Hn. by destruct (sext_law a n Hn). Qed.
Lemma sext_eval a n m : 0 <= n ->
  eval m (sext a n) = sval (get_width a) (eval m a) mod 2 ^ (get_width a + n).
Proof. intros Hn. by destruct (sext_law a n Hn). Qed.
Lemma slice_width a hi lo : 0 <= lo <= hi /\ hi < get_width a -> get_width (slice a hi lo) = hi - lo + 1.
Proof. intros [H1 H2]. by destruct (slice_law a hi lo H1 H2). Qed.
Lemma slice_eval a hi lo m : 0 <= lo <= hi /\ hi < get_width a ->
  eval m (slice a hi lo) = slice_val (eval m a) hi lo.
Proof. intros [H1 H2]. by destruct (slice_law a hi lo H1 H2). Qed.
Lemma concat_width a b : get_width (bv_concat a b) = get_width a + get_width b.
Proof. by destruct (bv_concat_law a b). Qed.
Lemma concat_eval a b m : eval m (bv_concat a b) = concat_val (eval m a) (get_width b) (eval m b).
Proof. by destruct (bv_concat_law a b). Qed.
Lemma cond_width c a b : get_width c = 1 /\ get_width a = get_width b ->
  get_width (cond_bv c a b) = get_width a.
Proof. intros [H1 H2]. by destruct (cond_bv_law c a b H1 H2). Qed.
Lemma cond_eval c a b m : get_width c = 1 /\ get_width a = get_width b ->
  eval m (cond_bv c a b) = if eval m c =? 1 then eval m a else eval m b.
Proof. intros [H1 H2]. by destruct (cond_bv_law c a b H1 H2). Qed.
Lemma not_width a : get_width (bv_not a) = get_width a.
Proof. by destruct (bv_not_law a). Qed.
Lemma not_eval a m : eval m (bv_not a) = ones_val (get_width a) - eval m a.
Proof. by destruct (bv_not_law a). Qed.
Lemma neg_width a : get_width (bv_neg a) = get_width a.
Proof. by destruct (bv_neg_law a). Qed.
Lemma neg_eval a m : eval m (bv_neg a) = (- eval m a) mod 2 ^ get_width a.
Proof. by destruct (bv_neg_law a). Qed.
Lemma inc_width a : get_width (bv_inc a) = get_width a.
Proof. by destruct (bv_inc_law a). Qed.
Lemma inc_eval a m : eval m (bv_inc a) = (eval m a + 1) mod 2 ^ get_width a.
Proof. by destruct (bv_inc_law a). Qed.
Lemma zero_width w : 0 < w -> get_width (bv_zero w) = w.
Proof. intros H1. by destruct (bv_zero_law w H1). Qed.
Lemma zero_eval w m : 0 < w -> eval m (bv_zero w) = 0.
Proof. intros H1. by destruct (bv_zero_law w H1). Qed.
Lemma one_width w : 0 < w -> get_width (bv_one w) = w.
Proof. intros H1. by destruct (bv_one_law w H1). Qed.
Lemma one_eval w m : 0 < w -> eval m (bv_one w) = 1.
Proof. intros H1. by destruct (bv_one_law w H1). Qed.
Lemma ones_width w : 0 < w -> get_width (bv_ones w) = w.
Proof. intros H1. by destruct (bv_ones_law w H1). Qed.
Lemma ones_eval w m : 0 < w -> eval m (bv_ones w) = ones_val w.
Proof. intros H1. by destruct (bv_ones_law w H1). Qed.
Lemma from_bool_width x : get_width (from_bool x) = 1.
Proof. by destruct (from_bool_law x). Qed.
Lemma from_bool_eval x m : eval m (from_bool x) = Z.b2z x.
Proof. by destruct (from_bool_law x). Qed.
(** A constant fits in its width: with 64 bits or more it always does. *)
Lemma from_u64_width u w : 0 < w /\ 0 <= u < 2 ^ 64 /\ u < 2 ^ w -> get_width (from_u64 u w) = w.
Proof. intros (H1 & H2 & H3). by destruct (from_u64_law u w H1 H2 H3). Qed.
Lemma from_u64_eval u w m : 0 < w /\ 0 <= u < 2 ^ 64 /\ u < 2 ^ w -> eval m (from_u64 u w) = u.
Proof. intros (H1 & H2 & H3). by destruct (from_u64_law u w H1 H2 H3). Qed.
Lemma from_u32_width u w : 0 < w /\ 0 <= u < 2 ^ 32 /\ u < 2 ^ w -> get_width (from_u32 u w) = w.
Proof. intros (H1 & H2 & H3). by destruct (from_u32_law u w H1 H2 H3). Qed.
Lemma from_u32_eval u w m : 0 < w /\ 0 <= u < 2 ^ 32 /\ u < 2 ^ w -> eval m (from_u32 u w) = u.
Proof. intros (H1 & H2 & H3). by destruct (from_u32_law u w H1 H2 H3). Qed.

Lemma b2z_eqb_1 x : (Z.b2z x =? 1) = x.
Proof. by destruct x. Qed.

Lemma b2z_1 x : Z.b2z x = 1 <-> x = true.
Proof. by destruct x. Qed.

(** A one-bit term is 0 or 1. *)
Lemma bit_cases m b : get_width b = 1 -> eval m b = 0 \/ eval m b = 1.
Proof. intros E. pose proof (eval_range m b) as R. rewrite E in R. change (2 ^ 1) with 2 in R. lia. Qed.

(** The negation of a one-bit term. *)
Lemma not_bit m b : get_width b = 1 -> (eval m (bv_not b) = 1 <-> eval m b = 0).
Proof. intros E. rewrite not_eval, E. unfold ones_val. change (2 ^ 1) with 2. lia. Qed.

End law_lemmas.

Ltac pow_consts := change (2 ^ 64) with 18446744073709551616 in *; change (2 ^ 32) with 4294967296 in *;
  change (2 ^ 1) with 2 in *; change (2 ^ 8) with 256 in *; change (2 ^ 3) with 8 in *.

Ltac bv_widths_with side :=
  repeat match goal with
  | |- context [get_width (bv_add ?a ?b)] => rewrite (bin_width bv_add _ a b bv_add_law) by side
  | |- context [get_width (bv_sub ?a ?b)] => rewrite (bin_width bv_sub _ a b bv_sub_law) by side
  | |- context [get_width (bv_mul ?a ?b)] => rewrite (bin_width bv_mul _ a b bv_mul_law) by side
  | |- context [get_width (bv_udiv ?a ?b)] => rewrite (bin_width bv_udiv _ a b bv_udiv_law) by side
  | |- context [get_width (bv_urem ?a ?b)] => rewrite (bin_width bv_urem _ a b bv_urem_law) by side
  | |- context [get_width (bv_sdiv ?a ?b)] => rewrite (bin_width bv_sdiv _ a b bv_sdiv_law) by side
  | |- context [get_width (bv_srem ?a ?b)] => rewrite (bin_width bv_srem _ a b bv_srem_law) by side
  | |- context [get_width (bv_and ?a ?b)] => rewrite (bin_width bv_and _ a b bv_and_law) by side
  | |- context [get_width (bv_or ?a ?b)] => rewrite (bin_width bv_or _ a b bv_or_law) by side
  | |- context [get_width (bv_xor ?a ?b)] => rewrite (bin_width bv_xor _ a b bv_xor_law) by side
  | |- context [get_width (sll ?a ?b)] => rewrite (bin_width sll _ a b sll_law) by side
  | |- context [get_width (srl ?a ?b)] => rewrite (bin_width srl _ a b srl_law) by side
  | |- context [get_width (sra ?a ?b)] => rewrite (bin_width sra _ a b sra_law) by side
  | |- context [get_width (bv_eq ?a ?b)] => rewrite (pred_width bv_eq _ a b bv_eq_law) by side
  | |- context [get_width (bv_ne ?a ?b)] => rewrite (pred_width bv_ne _ a b bv_ne_law) by side
  | |- context [get_width (ugt ?a ?b)] => rewrite (pred_width ugt _ a b ugt_law) by side
  | |- context [get_width (ugte ?a ?b)] => rewrite (pred_width ugte _ a b ugte_law) by side
  | |- context [get_width (ult ?a ?b)] => rewrite (pred_width ult _ a b ult_law) by side
  | |- context [get_width (ulte ?a ?b)] => rewrite (pred_width ulte _ a b ulte_law) by side
  | |- context [get_width (sgt ?a ?b)] => rewrite (pred_width sgt _ a b sgt_law) by side
  | |- context [get_width (sgte ?a ?b)] => rewrite (pred_width sgte _ a b sgte_law) by side
  | |- context [get_width (slt ?a ?b)] => rewrite (pred_width slt _ a b slt_law) by side
  | |- context [get_width (slte ?a ?b)] => rewrite (pred_width slte _ a b slte_law) by side
  | |- context [get_width (uaddo ?a ?b)] => rewrite (pred_width uaddo _ a b uaddo_law) by side
  | |- context [get_width (saddo ?a ?b)] => rewrite (pred_width saddo _ a b saddo_law) by side
  | |- context [get_width (usubo ?a ?b)] => rewrite (pred_width usubo _ a b usubo_law) by side
  | |- context [get_width (ssubo ?a ?b)] => rewrite (pred_width ssubo _ a b ssubo_law) by side
  | |- context [get_width (umulo ?a ?b)] => rewrite (pred_width umulo _ a b umulo_law) by side
  | |- context [get_width (smulo ?a ?b)] => rewrite (pred_width smulo _ a b smulo_law) by side
  | |- context [get_width (bv_concat ?a ?b)] => rewrite (concat_width a b)
  | |- context [get_width (slice ?a ?h ?l)] => rewrite (slice_width a h l) by side
  | |- context [get_width (zext ?a ?n)] => rewrite (zext_width a n) by side
  | |- context [get_width (sext ?a ?n)] => rewrite (sext_width a n) by side
  | |- context [get_width (cond_bv ?c ?a ?b)] => rewrite (cond_width c a b) by side
  | |- context [get_width (bv_not ?a)] => rewrite (not_width a)
  | |- context [get_width (bv_neg ?a)] => rewrite (neg_width a)
  | |- context [get_width (bv_inc ?a)] => rewrite (inc_width a)
  | |- context [get_width (bv_zero ?w)] => rewrite (zero_width w) by side
  | |- context [get_width (bv_one ?w)] => rewrite (one_width w) by side
  | |- context [get_width (bv_ones ?w)] => rewrite (ones_width w) by side
  | |- context [get_width (from_bool ?x)] => rewrite (from_bool_width x)
  | |- context [get_width (from_u64 ?u ?w)] => rewrite (from_u64_width u w) by side
  | |- context [get_width (from_u32 ?u ?w)] => rewrite (from_u32_width u w) by side
  end.
Ltac bv_side := bv_widths_with bv_side; pow_consts; lia.
Ltac bv_widths := bv_widths_with bv_side.

Ltac bv_evals :=
  repeat match goal with
  | |- context [eval ?m (bv_add ?a ?b)] => rewrite (bin_eval bv_add _ a b m bv_add_law) by bv_side
  | |- context [eval ?m (bv_sub ?a ?b)] => rewrite (bin_eval bv_sub _ a b m bv_sub_law) by bv_side
  | |- context [eval ?m (bv_mul ?a ?b)] => rewrite (bin_eval bv_mul _ a b m bv_mul_law) by bv_side
  | |- context [eval ?m (bv_udiv ?a ?b)] => rewrite (bin_eval bv_udiv _ a b m bv_udiv_law) by bv_side
  | |- context [eval ?m (bv_urem ?a ?b)] => rewrite (bin_eval bv_urem _ a b m bv_urem_law) by bv_side
  | |- context [eval ?m (bv_sdiv ?a ?b)] => rewrite (bin_eval bv_sdiv _ a b m bv_sdiv_law) by bv_side
  | |- context [eval ?m (bv_srem ?a ?b)] => rewrite (bin_eval bv_srem _ a b m bv_srem_law) by bv_side
  | |- context [eval ?m (bv_and ?a ?b)] => rewrite (bin_eval bv_and _ a b m bv_and_law) by bv_side
  | |- context [eval ?m (bv_or ?a ?b)] => rewrite (bin_eval bv_or _ a b m bv_or_law) by bv_side
  | |- context [eval ?m (bv_xor ?a ?b)] => rewrite (bin_eval bv_xor _ a b m bv_xor_law) by bv_side
  | |- context [eval ?m (sll ?a ?b)] => rewrite (bin_eval sll _ a b m sll_law) by bv_side
  | |- context [eval ?m (srl ?a ?b)] => rewrite (bin_eval srl _ a b m srl_law) by bv_side
  | |- context [eval ?m (sra ?a ?b)] => rewrite (bin_eval sra _ a b m sra_law) by bv_side
  | |- context [eval ?m (bv_eq ?a ?b)] => rewrite (pred_eval bv_eq _ a b m bv_eq_law) by bv_side
  | |- context [eval ?m (bv_ne ?a ?b)] => rewrite (pred_eval bv_ne _ a b m bv_ne_law) by bv_side
  | |- context [eval ?m (ugt ?a ?b)] => rewrite (pred_eval ugt _ a b m ugt_law) by bv_side
  | |- context [eval ?m (ugte ?a ?b)] => rewrite (pred_eval ugte _ a b m ugte_law) by bv_side
  | |- context [eval ?m (ult ?a ?b)] => rewrite (pred_eval ult _ a b m ult_law) by bv_side
  | |- context [eval ?m (ulte ?a ?b)] => rewrite (pred_eval ulte _ a b m ulte_law) by bv_side
  | |- context [eval ?m (sgt ?a ?b)] => rewrite (pred_eval sgt _ a b m sgt_law) by bv_side
  | |- context [eval ?m (sgte ?a ?b)] => rewrite (pred_eval sgte _ a b m sgte_law) by bv_side
  | |- context [eval ?m (slt ?a ?b)] => rewrite (pred_eval slt _ a b m slt_law) by bv_side
  | |- context [eval ?m (slte ?a ?b)] => rewrite (pred_eval slte _ a b m slte_law) by bv_side
  | |- context [eval ?m (uaddo ?a ?b)] => rewrite (pred_eval uaddo _ a b m uaddo_law) by bv_side
  | |- context [eval ?m (saddo ?a ?b)] => rewrite (pred_eval saddo _ a b m saddo_law) by bv_side
  | |- context [eval ?m (usubo ?a ?b)] => rewrite (pred_eval usubo _ a b m usubo_law) by bv_side
  | |- context [eval ?m (ssubo ?a ?b)] => rewrite (pred_eval ssubo _ a b m ssubo_law) by bv_side
  | |- context [eval ?m (umulo ?a ?b)] => rewrite (pred_eval umulo _ a b m umulo_law) by bv_side
  | |- context [eval ?m (smulo ?a ?b)] => rewrite (pred_eval smulo _ a b m smulo_law) by bv_side
  | |- context [eval ?m (bv_concat ?a ?b)] => rewrite (concat_eval a b m)
  | |- context [eval ?m (slice ?a ?h ?l)] => rewrite (slice_eval a h l m) by bv_side
  | |- context [eval ?m (zext ?a ?n)] => rewrite (zext_eval a n m) by bv_side
  | |- context [eval ?m (sext ?a ?n)] => rewrite (sext_eval a n m) by bv_side
  | |- context [eval ?m (cond_bv ?c ?a ?b)] => rewrite (cond_eval c a b m) by bv_side
  | |- context [eval ?m (bv_not ?a)] => rewrite (not_eval a m)
  | |- context [eval ?m (bv_neg ?a)] => rewrite (neg_eval a m)
  | |- context [eval ?m (bv_inc ?a)] => rewrite (inc_eval a m)
  | |- context [eval ?m (bv_zero ?w)] => rewrite (zero_eval w m) by bv_side
  | |- context [eval ?m (bv_one ?w)] => rewrite (one_eval w m) by bv_side
  | |- context [eval ?m (bv_ones ?w)] => rewrite (ones_eval w m) by bv_side
  | |- context [eval ?m (from_bool ?x)] => rewrite (from_bool_eval x m)
  | |- context [eval ?m (from_u64 ?u ?w)] => rewrite (from_u64_eval u w m) by bv_side
  | |- context [eval ?m (from_u32 ?u ?w)] => rewrite (from_u32_eval u w m) by bv_side
  end; bv_widths; rewrite ?b2z_eqb_1.

(** ** Saturating arithmetic *)

(** Saturating to an interval. *)
Definition clamp (lo hi x : Z) : Z := Z.max lo (Z.min hi x).

Section saturating.
Context `{Laws : BackendLaws}.
Implicit Types a b : BV.

(** The sign bit of a value. *)
Lemma sign_bit w v : 0 < w -> 0 <= v < 2 ^ w ->
  (slice_val v (w - 1) (w - 1) =? 1) = (2 ^ (w - 1) <=? v).
Proof.
  intros Hw Hv. unfold slice_val. replace (w - 1 - (w - 1) + 1) with 1 by lia.
  rewrite (pow2_double w) in Hv by lia. pose proof (pow2_pos (w - 1) ltac:(lia)).
  destruct (Z.leb_spec (2 ^ (w - 1)) v).
  - replace (v / 2 ^ (w - 1)) with 1; [done|]. apply Z.div_unique with (v - 2 ^ (w - 1)); lia.
  - by rewrite Z.div_small by lia.
Qed.

Lemma unsigned_sat_sub (w x y : Z) : 0 <= x < 2 ^ w -> 0 <= y ->
  (if x <? y then 0 else (x - y) mod 2 ^ w) = Z.max 0 (x - y).
Proof. intros. destruct (Z.ltb_spec x y); [lia|]. rewrite Z.mod_small; lia. Qed.

(** Wrapping signed addition with the overflow cases replaced, as [sadds]
    computes it, is clamping. *)
Lemma signed_sat_add w x y :
  1 < w -> 0 <= x < 2 ^ w -> 0 <= y < 2 ^ w ->
  sval w (if signed_overflow w (sval w x + sval w y)
          then if 2 ^ (w - 1) <=? x then 2 ^ (w - 1) else 2 ^ (w - 1) - 1
          else (x + y) mod 2 ^ w)
  = clamp (- 2 ^ (w - 1)) (2 ^ (w - 1) - 1) (sval w x + sval w y).
Proof.
  intros Hw Hx Hy. pose proof (sval_range w x ltac:(lia) Hx). pose proof (sval_range w y ltac:(lia) Hy).
  pose proof (pow2_double w ltac:(lia)) as Hd. pose proof (pow2_pos (w - 1) ltac:(lia)).
  assert (Hmod : (x + y) mod 2 ^ w = (sval w x + sval w y) mod 2 ^ w).
  { rewrite (Z.add_mod x y), (Z.add_mod (sval w x)), !sval_mod, !(Z.mod_small x), !(Z.mod_small y) by lia. done. }
  unfold signed_overflow, clamp.
  destruct (Z.ltb_spec (sval w x + sval w y) (- 2 ^ (w - 1)));
    [|destruct (Z.leb_spec (2 ^ (w - 1)) (sval w x + sval w y))]; cbn [orb].
  - assert (2 ^ (w - 1) <= x) by (unfold sval in *; repeat case_match; lia).
    rewrite (proj2 (Z.leb_le _ _)) by done. unfold sval at 1.
    destruct (Z.ltb_spec (2 ^ (w - 1)) (2 ^ (w - 1))); lia.
  - assert (x < 2 ^ (w - 1)) by (unfold sval in *; repeat case_match; lia).
    rewrite (proj2 (Z.leb_gt _ _)) by done. unfold sval at 1.
    destruct (Z.ltb_spec (2 ^ (w - 1) - 1) (2 ^ (w - 1))); lia.
  - rewrite Hmod, sval_of_mod by lia. lia.
Qed.

Theorem uadds_saturates a b :
  get_width a = get_width b ->
  exists r, uadds a b = Ok r /\ get_width r = get_width a /\
    forall m, eval m r = Z.min (ones_val (get_width a)) (eval m a + eval m b).
Proof.
  intros E. pose proof (width_pos a) as Wp. unfold uadds.
  rewrite (proj2 (Z.eqb_eq _ _) E), (proj2 (Z.ltb_lt _ _) Wp). cbn.
  eexists. split; [done|]. split; [by bv_widths|]. intros m. bv_evals.
  pose proof (eval_range m a). pose proof (eval_range m b). rewrite <- E in *.
  unfold ones_val. destruct (Z.leb_spec (2 ^ get_width a) (eval m a + eval m b)).
  - lia.
  - rewrite Z.mod_small; lia.
Qed.

Theorem usubs_saturates a b :
  get_width a = get_width b ->
  exists r, usubs a b = Ok r /\ get_width r = get_width a /\
    forall m, eval m r = Z.max 0 (eval m a - eval m b).
Proof.
  intros E. pose proof (width_pos a) as Wp. unfold usubs.
  rewrite (proj2 (Z.eqb_eq _ _) E), (proj2 (Z.ltb_lt _ _) Wp). cbn.
  eexists. split; [done|]. split; [by bv_widths|]. intros m. bv_evals.
  apply unsigned_sat_sub; [apply eval_range|]. apply (eval_range m b).
Qed.

(** [sadds] on equal widths of at least two bits: the exact term it builds. *)
Lemma sadds_eval a b :
  get_width a = get_width b -> 1 < get_width a ->
  exists r, sadds a b = Ok r /\ get_width r = get_width a /\
    forall m, sval (get_width a) (eval m r) =
      clamp (- 2 ^ (get_width a - 1)) (2 ^ (get_width a - 1) - 1)
        (sval (get_width a) (eval m a) + sval (get_width a) (eval m b)).
Proof.
  intros E W. pose proof (width_pos a) as Wp. unfold sadds.
  rewrite (proj2 (Z.eqb_eq _ _) E), (proj2 (Z.ltb_lt _ _) Wp). cbn.
  bv_widths. replace (1 + (get_width a - 1)) with (get_width a) by lia. rewrite Z.eqb_refl. cbn.
  eexists. split; [done|]. split; [bv_widths; lia|]. intros m. bv_evals.
  pose proof (eval_range m a) as Ra. pose proof (eval_range m b) as Rb. rewrite <- E in Rb.
  rewrite sign_bit by lia. unfold concat_val, ones_val.
  rewrite !Z.mul_0_l, !Z.mul_1_l, Z.add_0_l, Z.add_0_r.
  by apply signed_sat_add.
Qed.

Theorem sadds_saturates a b :
  get_width a = get_width b -> 1 < get_width a ->
  exists r, sadds a b = Ok r /\ get_width r = get_width a /\
    forall m, sval (get_width a) (eval m r) =
      clamp (- 2 ^ (get_width a - 1)) (2 ^ (get_width a - 1) - 1)
        (sval (get_width a) (eval m a) + sval (get_width a) (eval m b)).
Proof. apply sadds_eval. Qed.

(** Two's-complement negation is exact except on the least value. *)
Lemma sval_neg w v : 1 < w -> 0 <= v < 2 ^ w ->
  sval w ((- v) mod 2 ^ w) = if v =? 2 ^ (w - 1) then - 2 ^ (w - 1) else - sval w v.
Proof.
  intros Hw Hv. pose proof (pow2_double w ltac:(lia)) as Hd. pose proof (pow2_pos (w - 1) ltac:(lia)).
  destruct (Z.eqb_spec v (2 ^ (w - 1))) as [->|Hne].
  - replace ((- 2 ^ (w - 1)) mod 2 ^ w) with ((2 ^ (w - 1)) mod 2 ^ w).
    + rewrite Z.mod_small by lia. unfold sval. destruct (Z.ltb_spec (2 ^ (w - 1)) (2 ^ (w - 1))); lia.
    + replace (2 ^ (w - 1)) with (- 2 ^ (w - 1) + 1 * 2 ^ w) at 1 by lia. apply Z.mod_add. lia.
  - assert (Hs : (- v) mod 2 ^ w = (- sval w v) mod 2 ^ w).
    { unfold sval. destruct (v <? 2 ^ (w - 1)); [done|].
      replace (- (v - 2 ^ w)) with (- v + 1 * 2 ^ w) by lia. rewrite Z.mod_add by lia. done. }
    rewrite Hs. apply sval_of_mod; [lia|]. unfold sval.
    destruct (Z.ltb_spec v (2 ^ (w - 1))); lia.
Qed.

(** [ssubs] saturates as documented whenever the subtrahend is not the
    least signed value. *)
Theorem ssubs_saturates a b :
  get_width a = get_width b -> 1 < get_width a ->
  exists r, ssubs a b = Ok r /\ get_width r = get_width a /\
    forall m, eval m b <> 2 ^ (get_width a - 1) ->
      sval (get_width a) (eval m r) =
      clamp (- 2 ^ (get_width a - 1)) (2 ^ (get_width a - 1) - 1)
        (sval (get_width a) (eval m a) - sval (get_width a) (eval m b)).
Proof.
  intros E W. unfold ssubs.
  destruct (sadds_eval a (bv_neg b)) as (r & Hr & Wr & Er); [by bv_widths|done|].
  exists r. split; [done|]. split; [done|]. intros m Hb. rewrite Er. bv_evals. rewrite <- E.
  pose proof (eval_range m b) as Rb. rewrite <- E in Rb. rewrite sval_neg by lia.
  rewrite (proj2 (Z.eqb_neq _ _)) by done. f_equal.
Qed.

(** With the least signed value as subtrahend the result is always the wrong
    one: the exact difference [a - MIN = a + 2^(w-1)] is clamped to a
    non-negative value, and [ssubs] returns a negative one. *)
Theorem ssubs_least_value_negative a b :
  get_width a = get_width b -> 1 < get_width a ->
  exists r, ssubs a b = Ok r /\
    forall m, eval m b = 2 ^ (get_width a - 1) ->
      sval (get_width a) (eval m r) < 0 /\
      0 <= clamp (- 2 ^ (get_width a - 1)) (2 ^ (get_width a - 1) - 1)
             (sval (get_width a) (eval m a) - sval (get_width a) (eval m b)).
Proof.
  intros E W. unfold ssubs.
  destruct (sadds_eval a (bv_neg b)) as (r & Hr & Wr & Er); [by bv_widths|done|].
  exists r. split; [done|]. intros m Hb. rewrite Er. bv_evals. rewrite <- E.
  pose proof (eval_range m b) as Rb. rewrite <- E in Rb. rewrite sval_neg by lia.
  pose proof (sval_range (get_width a) (eval m a) ltac:(lia) (eval_range m a)).
  pose proof (pow2_double (get_width a) ltac:(lia)).
  rewrite Hb, Z.eqb_refl. unfold clamp.
  assert (sval (get_width a) (2 ^ (get_width a - 1)) = - 2 ^ (get_width a - 1)) as ->
    by (unfold sval; destruct (Z.ltb_spec (2 ^ (get_width a - 1)) (2 ^ (get_width a - 1))); lia).
  lia.
Qed.

End saturating.
