(* ===== verification/ToySolver.v ===== *)
(** * ToySolver: a small lawful backend

    Boolector is not part of the repository, so the development assumes its
    documented behaviour ([BackendLaws]).  This file gives one implementation
    that satisfies every law: terms are functions of a model, there are
    sixteen models, constants are folded, and satisfiability is decided by
    trying every model.  It shows that the laws are consistent and it is the
    backend the concrete examples run on. *)
From S2P Require Import Prelude Bits Backend.
From stdpp Require Import finite.

Open Scope Z_scope.

Module Toy.

Definition model : Type := bool * bool * bool * bool.
Definition seed (m : model) : Z :=
  let '(a, b, c, d) := m in
  8 * Z.b2z a + 4 * Z.b2z b + 2 * Z.b2z c + Z.b2z d.

Inductive tbv :=
| TConst (w v : Z)
| TSym (w : Z) (f : model -> Z).

Definition twidth (b : tbv) : Z :=
  Z.max 1 (match b with TConst w _ => w | TSym w _ => w end).
Definition teval (m : model) (b : tbv) : Z :=
  match b with TConst _ v => v | TSym _ f => f m end mod 2 ^ twidth b.

Definition mk1 (w : Z) (f : Z -> Z) (a : tbv) : tbv :=
  match a with
  | TConst _ _ => TConst w (f (teval (false, false, false, false) a))
  | TSym _ _ => TSym w (fun m => f (teval m a))
  end.
Definition mk2 (w : Z) (f : Z -> Z -> Z) (a b : tbv) : tbv :=
  match a, b with
  | TConst _ _, TConst _ _ =>
      let m := (false, false, false, false) in TConst w (f (teval m a) (teval m b))
  | _, _ => TSym w (fun m => f (teval m a) (teval m b))
  end.
Definition op2 (f : Z -> Z -> Z -> Z) (a b : tbv) : tbv := mk2 (twidth a) (f (twidth a)) a b.
Definition pred2 (f : Z -> Z -> Z -> bool) (a b : tbv) : tbv :=
  mk2 1 (fun x y => Z.b2z (f (twidth a) x y)) a b.
Definition tcond (c a b : tbv) : tbv :=
  match c with
  | TConst _ _ => if teval (false, false, false, false) c =? 1 then a else b
  | TSym _ _ => TSym (twidth a) (fun m => if teval m c =? 1 then teval m a else teval m b)
  end.

Record tarray := TArray { tiw : Z; tew : Z; tfun : model -> Z -> Z }.
Definition teval_array (m : model) (a : tarray) (i : Z) : Z := tfun a m i mod 2 ^ Z.max 1 (tew a).

Record tsolver := TSolver {
  tassertions : list (list tbv);
  tmodel_gen : bool;
  tvars : Z;
  tlast : option model
}.

Definition tsat_model (s : tsolver) (m : model) : bool :=
  forallb (fun b => teval m b =? 1) (concat (tassertions s)).
Definition tsat (s : tsolver) : SolverResult * tsolver :=
  match List.find (tsat_model s) (enum model) with
  | Some m => (SolverSat, TSolver (tassertions s) (tmodel_gen s) (tvars s) (Some m))
  | None => (SolverUnsat, TSolver (tassertions s) (tmodel_gen s) (tvars s) None)
  end.
Definition tassert (b : tbv) (s : tsolver) : tsolver :=
  match tassertions s with
  | l :: ls => TSolver ((b :: l) :: ls) (tmodel_gen s) (tvars s) (tlast s)
  | [] => s
  end.
Definition fresh (s : tsolver) : tsolver :=
  TSolver (tassertions s) (tmodel_gen s) (tvars s + 1) (tlast s).
(** The [k]th variable reads the model's bits from position [k mod 4] up. *)
Definition tvar (k : Z) (m : model) : Z := seed m / 2 ^ (k mod 4).

End Toy.
Import Toy.

Module ToyBackend.

#[export] Instance toy_ops : BackendOps := {|
  SolverRef := tsolver;
  BV := tbv;
  Array := tarray;
  BVSolution := string;
  solver_new := TSolver [[]] false 0 None;
  duplicate s := s;
  match_bv _ b := Some b;
  match_array _ a := Some a;
  btor_push n s := TSolver (replicate (Z.to_nat n) [] ++ tassertions s) (tmodel_gen s) (tvars s) (tlast s);
  btor_pop n s := TSolver (drop (Z.to_nat n) (tassertions s)) (tmodel_gen s) (tvars s) (tlast s);
  btor_sat := tsat;
  btor_set_model_gen x s := TSolver (tassertions s) x (tvars s) (tlast s);
  btor_assert := tassert;
  btor_get_a_solution b s :=
    bin_str (twidth b) (teval (default (false, false, false, false) (tlast s)) b);
  from_01x_str str := str;
  as_01x_str x := x;
  disambiguate x := x;
  sol_as_u64 x := if (Z.of_nat (String.length x) <=? 64) then Some (bin_val x) else None;
  array_new iw ew _ s := (TArray iw ew (fun m i => seed m + 3 * i + tvars s), fresh s);
  array_new_initialized iw ew v := TArray iw ew (fun m _ => teval m v);
  array_read a i := TSym (Z.max 1 (tew a)) (fun m => tfun a m (teval m i));
  array_write a i v :=
    TArray (tiw a) (tew a) (fun m j => if j =? teval m i then teval m v else tfun a m j);
  bv_new w _ s := (TSym w (tvar (tvars s)), fresh s);
  from_bool b := TConst 1 (Z.b2z b);
  from_i32 i w := TConst w i;
  from_u32 u w := TConst w u;
  from_i64 i w := TConst w i;
  from_u64 u w := TConst w u;
  bv_zero w := TConst w 0;
  bv_one w := TConst w 1;
  bv_ones w := TConst w (ones_val w);
  from_binary_str str := TConst (Z.of_nat (String.length str)) (bin_val str);
  as_binary_str b :=
    match b with
    | TConst _ _ => Some (bin_str (twidth b) (teval (false, false, false, false) b))
    | TSym _ _ => None
    end;
  as_u64 b :=
    match b with
    | TConst _ _ => if twidth b <=? 64 then Some (teval (false, false, false, false) b) else None
    | TSym _ _ => None
    end;
  as_bool b :=
    match b with
    | TConst _ _ =>
        if twidth b =? 1 then Some (teval (false, false, false, false) b =? 1) else None
    | TSym _ _ => None
    end;
  get_width := twidth;
  bv_eq := pred2 (fun _ => Z.eqb);
  bv_ne := pred2 (fun _ a b => negb (a =? b));
  bv_add := op2 (fun w a b => (a + b) mod 2 ^ w);
  bv_sub := op2 (fun w a b => (a - b) mod 2 ^ w);
  bv_mul := op2 (fun w a b => (a * b) mod 2 ^ w);
  bv_udiv := op2 udiv_val;
  bv_sdiv := op2 sdiv_val;
  bv_urem := op2 (fun _ => urem_val);
  bv_srem := op2 srem_val;
  bv_inc a := mk1 (twidth a) (fun x => (x + 1) mod 2 ^ twidth a) a;
  bv_neg a := mk1 (twidth a) (fun x => (- x) mod 2 ^ twidth a) a;
  uaddo := pred2 (fun w a b => 2 ^ w <=? a + b);
  saddo := pred2 (fun w a b => signed_overflow w (sval w a + sval w b));
  usubo := pred2 (fun _ a b => a <? b);
  ssubo := pred2 (fun w a b => signed_overflow w (sval w a - sval w b));
  umulo := pred2 (fun w a b => 2 ^ w <=? a * b);
  smulo := pred2 (fun w a b => signed_overflow w (sval w a * sval w b));
  bv_not a := mk1 (twidth a) (fun x => ones_val (twidth a) - x) a;
  bv_and := op2 (fun _ => Z.land);
  bv_or := op2 (fun _ => Z.lor);
  bv_xor := op2 (fun _ => Z.lxor);
  sll := op2 (fun w a b => (a * 2 ^ b) mod 2 ^ w);
  srl := op2 (fun _ a b => a / 2 ^ b);
  sra := op2 (fun w a b => (sval w a / 2 ^ b) mod 2 ^ w);
  ugt := pred2 (fun _ a b => b <? a);
  ugte := pred2 (fun _ a b => b <=? a);
  sgt := pred2 (fun w a b => sval w b <? sval w a);
  sgte := pred2 (fun w a b => sval w b <=? sval w a);
  ult := pred2 (fun _ a b => a <? b);
  ulte := pred2 (fun _ a b => a <=? b);
  slt := pred2 (fun w a b => sval w a <? sval w b);
  slte := pred2 (fun w a b => sval w a <=? sval w b);
  zext a n := mk1 (twidth a + n) (fun x => x) a;
  sext a n := mk1 (twidth a + n) (fun x => sval (twidth a) x mod 2 ^ (twidth a + n)) a;
  slice a hi lo := mk1 (hi - lo + 1) (fun x => slice_val x hi lo) a;
  bv_concat a b := mk2 (twidth a + twidth b) (fun x y => concat_val x (twidth b) y) a b;
  cond_bv := tcond
|}.

#[export] Instance toy_sem : BVSemantics := {|
  Model := model;
  eval := teval;
  eval_array := teval_array;
  index_width := tiw;
  element_width a := Z.max 1 (tew a);
  assertions := tassertions;
  model_gen := tmodel_gen
|}.

Section law_proofs.

Lemma twidth_pos b : 0 < twidth b.
Proof. unfold twidth. lia. Qed.

Lemma teval_range m b : 0 <= teval m b < 2 ^ twidth b.
Proof. apply mod_pow2_range. pose proof (twidth_pos b). lia. Qed.

Lemma mk1_width w f a : twidth (mk1 w f a) = Z.max 1 w.
Proof. by destruct a. Qed.
Lemma mk2_width w f a b : twidth (mk2 w f a b) = Z.max 1 w.
Proof. by destruct a, b. Qed.

Lemma mk1_eval m w f a :
  0 < w -> 0 <= f (teval m a) < 2 ^ w -> teval m (mk1 w f a) = f (teval m a).
Proof.
  intros Hw Hf. transitivity (f (teval m a) mod 2 ^ w).
  - destruct a; unfold teval at 1, twidth; cbn; by rewrite Z.max_r by lia.
  - by apply Z.mod_small.
Qed.

Lemma mk2_eval m w f a b :
  0 < w -> 0 <= f (teval m a) (teval m b) < 2 ^ w ->
  teval m (mk2 w f a b) = f (teval m a) (teval m b).
Proof.
  intros Hw Hf. transitivity (f (teval m a) (teval m b) mod 2 ^ w).
  - destruct a, b; unfold teval at 1, twidth; cbn; by rewrite Z.max_r by lia.
  - by apply Z.mod_small.
Qed.

Lemma tconst_law w v m : 0 < w -> 0 <= v < 2 ^ w ->
  twidth (TConst w v) = w /\ teval m (TConst w v) = v.
Proof.
  intros Hw Hv. assert (twidth (TConst w v) = w) as E by (unfold twidth; lia).
  split; [done|]. unfold teval. rewrite E. by apply Z.mod_small.
Qed.

Lemma op2_law f :
  (forall w x y, 0 < w -> 0 <= x < 2 ^ w -> 0 <= y < 2 ^ w -> 0 <= f w x y < 2 ^ w) ->
  bin_law (op2 f) f.
Proof.
  intros Hf a b E. cbn in *. pose proof (twidth_pos a) as Wp. split.
  - unfold op2. rewrite mk2_width. lia.
  - intros m. apply mk2_eval; [done|]. apply Hf; [done|apply teval_range|].
    rewrite E. apply teval_range.
Qed.

Lemma pred2_law f : pred_law (pred2 f) f.
Proof.
  intros a b E. cbn in *. split.
  - unfold pred2. by rewrite mk2_width.
  - intros m. unfold pred2. rewrite mk2_eval; [done|lia|]. destruct (f _ _ _); cbn; lia.
Qed.

Lemma pow2_mod_range w x : 0 < w -> 0 <= x mod 2 ^ w < 2 ^ w.
Proof. intros. apply mod_pow2_range. lia. Qed.

Lemma udiv_val_range w x y : 0 < w -> 0 <= x < 2 ^ w -> 0 <= y < 2 ^ w -> 0 <= udiv_val w x y < 2 ^ w.
Proof.
  intros Hw Hx Hy. unfold udiv_val. destruct (Z.eqb_spec y 0); [by apply ones_val_range|].
  split; [apply Z.div_pos; lia|]. apply Z.le_lt_trans with x; [|lia]. apply Z.div_le_upper_bound; nia.
Qed.

Lemma urem_val_range w x y : 0 < w -> 0 <= x < 2 ^ w -> 0 <= y < 2 ^ w -> 0 <= urem_val x y < 2 ^ w.
Proof.
  intros Hw Hx Hy. unfold urem_val. destruct (Z.eqb_spec y 0); [done|].
  pose proof (Z.mod_pos_bound x y). lia.
Qed.

Lemma srl_range w x y : 0 < w -> 0 <= x < 2 ^ w -> 0 <= y < 2 ^ w -> 0 <= x / 2 ^ y < 2 ^ w.
Proof.
  intros Hw Hx Hy. pose proof (pow2_pos y ltac:(lia)).
  split; [apply Z.div_pos; lia|]. apply Z.le_lt_trans with x; [|lia]. apply Z.div_le_upper_bound; nia.
Qed.

Lemma tsat_model_models s m : tsat_model s m = true <-> models s m.
Proof.
  unfold tsat_model, models. rewrite forallb_forall, Forall_forall. cbn.
  split; intros H b Hb; specialize (H b); rewrite list_elem_of_In in *; apply Z.eqb_eq; auto.
Qed.

Lemma tsat_law s : let '(r, s') := tsat s in
  tassertions s' = tassertions s /\ tmodel_gen s' = tmodel_gen s /\
  match r with
  | SolverSat => exists m, models s m /\ tlast s' = Some m
  | SolverUnsat => ~ exists m, models s m
  | SolverUnknown => False
  end.
Proof.
  unfold tsat. destruct (List.find (tsat_model s) (enum model)) as [m|] eqn:E; cbn.
  - apply List.find_some in E as [_ E]. split; [done|]. split; [done|].
    exists m. split; [by apply tsat_model_models|done].
  - split; [done|]. split; [done|]. intros [m Hm].
    pose proof (List.find_none _ _ E m) as Hn. apply tsat_model_models in Hm.
    rewrite Hn in Hm; [done|]. apply list_elem_of_In, elem_of_enum.
Qed.

End law_proofs.

#[export] Instance toy_laws : BackendLaws.
Proof.
  split; cbn -[pow2_pos Z.pow].
  - apply twidth_pos.
  - apply teval_range.
  - intros [|]; done.
  - intros u w Hw Hu1 Hu2. split; [unfold twidth; lia|]. intros m. apply tconst_law; lia.
  - intros u w Hw Hu1 Hu2. split; [unfold twidth; lia|]. intros m. apply tconst_law; lia.
  - intros w Hw. pose proof (pow2_pos w). split; [unfold twidth; lia|]. intros m. apply tconst_law; lia.
  - intros w Hw. pose proof (pow2_double w Hw). pose proof (pow2_pos (w - 1)).
    split; [unfold twidth; lia|]. intros m. apply tconst_law; lia.
  - intros w Hw. split; [unfold twidth; lia|]. intros m. apply tconst_law, ones_val_range; lia.
  - intros w v Hw Hv. rewrite bin_str_length, bin_val_str by lia.
    split; [unfold twidth; lia|]. intros m. by apply tconst_law.
  - intros [w v|w f] u; [|done]. case_match; [|done]. by intros [= <-] m.
  - intros [w v|w f] str; [|done]. intros [= <-]. eexists. split; [done|].
    split; [apply teval_range|done].
  - intros [w v|w f] x; [|done]. destruct (Z.eqb_spec (twidth (TConst w v)) 1) as [E|]; [|done].
    intros [= <-] m. pose proof (teval_range m (TConst w v)) as R. rewrite E in R.
    change (teval (false, false, false, false) (TConst w v)) with (teval m (TConst w v)).
    destruct (Z.eqb_spec (teval m (TConst w v)) 1); cbn; lia.
  - apply op2_law. intros. by apply pow2_mod_range.
  - apply op2_law. intros. by apply pow2_mod_range.
  - apply op2_law. intros. by apply pow2_mod_range.
  - apply (op2_law udiv_val). intros. by apply udiv_val_range.
  - apply (op2_law (fun _ => urem_val)). intros. by apply urem_val_range.
  - apply op2_law. intros. by apply pow2_mod_range.
  - apply op2_law. intros. by apply pow2_mod_range.
  - apply (op2_law (fun _ => Z.land)). intros. apply land_range; lia.
  - apply (op2_law (fun _ => Z.lor)). intros. apply lor_range; lia.
  - apply (op2_law (fun _ => Z.lxor)). intros. apply lxor_range; lia.
  - apply op2_law. intros. by apply pow2_mod_range.
  - apply (op2_law (fun _ a b => a / 2 ^ b)). apply srl_range.
  - apply op2_law. intros. by apply pow2_mod_range.
  - intros a. pose proof (twidth_pos a). split; [rewrite mk1_width; lia|]. intros m.
    apply mk1_eval; [done|]. pose proof (teval_range m a). unfold ones_val. lia.
  - intros a. pose proof (twidth_pos a). split; [rewrite mk1_width; lia|]. intros m.
    apply (mk1_eval m _ (fun x => (- x) mod 2 ^ twidth a)); [done|]. by apply pow2_mod_range.
  - intros a. pose proof (twidth_pos a). split; [rewrite mk1_width; lia|]. intros m.
    apply (mk1_eval m _ (fun x => (x + 1) mod 2 ^ twidth a)); [done|]. by apply pow2_mod_range.
  - apply pred2_law.
  - apply pred2_law.
  - apply pred2_law.
  - apply pred2_law.
  - apply pred2_law.
  - apply pred2_law.
  - apply pred2_law.
  - apply pred2_law.
  - apply pred2_law.
  - apply pred2_law.
  - apply pred2_law.
  - apply pred2_law.
  - apply pred2_law.
  - apply pred2_law.
  - apply pred2_law.
  - apply pred2_law.
  - intros a n Hn. pose proof (twidth_pos a). split; [rewrite mk1_width; lia|]. intros m.
    apply (mk1_eval m _ (fun x => x)); [lia|]. pose proof (teval_range m a).
    pose proof (pow2_le (twidth a) (twidth a + n)). lia.
  - intros a n Hn. pose proof (twidth_pos a). split; [rewrite mk1_width; lia|]. intros m.
    apply (mk1_eval m _ (fun x => sval (twidth a) x mod 2 ^ (twidth a + n))); [lia|].
    apply pow2_mod_range. lia.
  - intros a hi lo H1 H2. split; [rewrite mk1_width; lia|]. intros m.
    apply (mk1_eval m _ (fun x => slice_val x hi lo)); [lia|]. apply slice_val_range. lia.
  - intros a b. pose proof (twidth_pos a). pose proof (twidth_pos b).
    split; [rewrite mk2_width; lia|]. intros m.
    apply (mk2_eval m _ (fun x y => concat_val x (twidth b) y)); [lia|].
    apply concat_val_range; try lia; apply teval_range.
  - intros c a b Hc Ha. pose proof (twidth_pos a). destruct c as [w v|w f].
    + split; [cbn; by case_match|]. intros m. unfold tcond.
      change (teval (false, false, false, false) (TConst w v)) with (teval m (TConst w v)).
      by case_match.
    + assert (Hw : forall g, twidth (TSym (twidth a) g) = twidth a) by (intros; unfold twidth at 1; lia).
      split; [apply Hw|]. intros m. unfold tcond, teval at 1. rewrite Hw. apply Z.mod_small.
      case_match; [apply teval_range|]. rewrite Ha. apply teval_range.
  - intros iw ew _ s H1 H2. split; [done|]. split; [lia|]. done.
  - intros iw ew v H1 H2. pose proof (twidth_pos v). split; [done|]. split; [lia|]. intros m i.
    unfold teval_array. cbn. rewrite Z.max_r by lia. subst ew. apply Z.mod_small, teval_range.
  - intros a i Hi. assert (Hw : forall g, twidth (TSym (Z.max 1 (tew a)) g) = Z.max 1 (tew a))
      by (intros; unfold twidth; lia).
    split; [apply Hw|]. intros m. unfold teval at 1. rewrite Hw. done.
  - intros a i v Hi Hv. split; [done|]. split; [done|]. intros m j. unfold teval_array; cbn -[Z.pow].
    case_match; [|done]. rewrite <- Hv. apply Z.mod_small, teval_range.
  - intros m a i Ha. apply mod_pow2_range. lia.
  - done.
  - intros w _ s Hw. split; [unfold twidth; lia|done].
  - done.
  - done.
  - intros b l ls s Hb Hs. unfold tassert. by rewrite Hs.
  - done.
  - intros s. pose proof (tsat_law s) as L. destruct (tsat s) as [r s'].
    destruct L as (L1 & L2 & L3). split; [done|]. split; [done|].
    destruct r; [|done|done]. destruct L3 as (m & Hm & _). by exists m.
  - intros b s s' Hs _. pose proof (tsat_law s) as L. rewrite Hs in L.
    destruct L as (_ & _ & m & Hm & E). exists m. split; [done|]. by rewrite E.
  - done.
  - done.
  - intros w v Hw Hv. rewrite bin_str_length, bin_val_str by lia.
    by rewrite (proj2 (Z.leb_le _ _)) by lia.
Qed.

End ToyBackend.
