(* ===== verification/SolverUtils.v ===== *)
(** * SolverUtils: queries on the solver (src/src/solver_utils.rs)

    Satisfiability queries with temporary constraints, enumeration of the
    possible values of a bit-vector, and its least and greatest possible
    values.  The solver is the state; a query may fail ([SolverError]) when
    Boolector gives up. *)
From S2P Require Import Prelude Bits Backend ToySolver.
From stdpp Require Import gmap.
From Stdlib Require Import Ascii.

Open Scope Z_scope.

Section operations.
Context `{Ops : BackendOps}.

Definition sat : M SolverRef bool :=
  r ← (fun s => let '(r, s') := btor_sat s in (Ok r, s'));
  match r with
  | SolverSat => mret true
  | SolverUnsat => mret false
  | SolverUnknown =>
      err (SolverError "The query was interrupted, timed out, or otherwise failed")
  end.

(** [btor.push(n)], [btor.pop(n)] and [set_opt(BtorOption::ModelGen(..))] *)
Definition push (n : Z) : M SolverRef unit := modify (btor_push n).
Definition pop (n : Z) : M SolverRef unit := modify (btor_pop n).
Definition set_model_gen (x : bool) : M SolverRef unit := modify (btor_set_model_gen x).

Definition sat_with_extra_constraints (constraints : list BV) : M SolverRef bool :=
  _ ← push 1;
  _ ← forM constraints bv_assert;
  retval ← catch sat;
  _ ← pop 1;
  lift retval.

Definition bvs_must_be_equal (a b : BV) : M SolverRef bool :=
  r ← sat_with_extra_constraints [bv_ne a b];
  if (r : bool) then mret false else mret true.

Definition bvs_can_be_equal (a b : BV) : M SolverRef bool :=
  r ← sat_with_extra_constraints [bv_eq a b];
  if (r : bool) then mret true else mret false.

(** A [HashSet] of solutions *)
Inductive PossibleSolutions (V : Type) `{Countable V} :=
| Exactly (v : gset V)
| AtLeast (v : gset V).

Inductive SolutionCount := ExactlyCount (n : Z) | AtLeastCount (n : Z).

Definition count {V} `{Countable V} (ps : PossibleSolutions V) : SolutionCount :=
  match ps with
  | Exactly _ v => ExactlyCount (Z.of_nat (size v))
  | AtLeast _ v => AtLeastCount (Z.of_nat (size v))
  end.

(** [v.iter().map(|bvs| bvs.as_u64()).collect::<Option<HashSet<u64>>>()] *)
Definition collect_u64 (v : gset BVSolution) : option (gset Z) :=
  list_to_set <$> mapM sol_as_u64 (elements v).
Definition as_u64_solutions (ps : PossibleSolutions BVSolution) : option (PossibleSolutions Z) :=
  match ps with
  | Exactly _ v => Exactly Z <$> collect_u64 v
  | AtLeast _ v => AtLeast Z <$> collect_u64 v
  end.

(** One of the tests of [check_for_common_solutions]: when more solutions are
    wanted and the width guard holds, ask whether [bv] can be the constant
    [c], and if so add the solution written [str]. *)
Definition common_solution (bv : BV) (n : Z) (guard : bool) (c : BV) (str : string)
    (solutions : gset BVSolution) : M SolverRef (gset BVSolution) :=
  if (Z.of_nat (size solutions) <=? n) && guard then
    r ← bvs_can_be_equal bv c;
    if (r : bool) then mret ({[ from_01x_str str ]} ∪ solutions) else mret solutions
  else mret solutions.

Definition check_for_common_solutions (bv : BV) (n : Z) (solutions : gset BVSolution)
    : M SolverRef (gset BVSolution) :=
  let width := get_width bv in
  let pow2_solution k sols :=
    common_solution bv n (width >? k) (from_u32 (2 ^ k) width) (format_bin width (2 ^ k)) sols in
  solutions ← common_solution bv n true (bv_zero width) (str_repeat "0" (Z.to_nat width)) solutions;
  solutions ← common_solution bv n true (bv_one width) (format_bin width 1) solutions;
  solutions ← common_solution bv n (width >? 1) (bv_ones width)
                (str_repeat "1" (Z.to_nat width)) solutions;
  solutions ← pow2_solution 1 solutions;
  solutions ← pow2_solution 2 solutions;
  solutions ← pow2_solution 3 solutions;
  solutions ← pow2_solution 4 solutions;
  solutions ← pow2_solution 5 solutions;
  solutions ← pow2_solution 6 solutions;
  solutions ← pow2_solution 7 solutions;
  solutions ← pow2_solution 8 solutions;
  solutions ← pow2_solution 9 solutions;
  solutions ← pow2_solution 10 solutions;
  solutions ← pow2_solution 11 solutions;
  pow2_solution 12 solutions.

(** [bv._ne(&BV::from_binary_str(solver, solution.as_01x_str())).assert()?] *)
Definition exclude_solution (bv : BV) (solution : BVSolution) : M SolverRef unit :=
  bv_assert (bv_ne bv (from_binary_str (as_01x_str solution))).

Definition more_solutions (bv : BV) (n : Z) (solutions : gset BVSolution)
    : M SolverRef (gset BVSolution + gset BVSolution) :=
  if Z.of_nat (size solutions) <=? n then
    r ← sat;
    if (r : bool) then
      sol ← get_a_solution bv;
      let val := disambiguate sol in
      let solutions := {[ val ]} ∪ solutions in
      _ ← exclude_solution bv val;
      mret (inl solutions)
    else mret (inr solutions)
  else mret (inr solutions).

Definition get_possible_solutions_for_bv (bv : BV) (n : Z)
    : M SolverRef (PossibleSolutions BVSolution) :=
  ps ←
    (if n =? 0 then
       _ ← set_model_gen true;
       r ← sat;
       if (r : bool) then
         sol ← get_a_solution bv;
         mret (AtLeast BVSolution {[ disambiguate sol ]})
       else mret (Exactly BVSolution ∅)
     else
       match as_binary_str bv with
       | Some bstr => mret (Exactly BVSolution {[ from_01x_str bstr ]})
       | None =>
           solutions ← check_for_common_solutions bv n ∅;
           if n <? Z.of_nat (size solutions) then mret (AtLeast BVSolution solutions)
           else
             _ ← push 1;
             _ ← forM (elements solutions) (exclude_solution bv);
             _ ← set_model_gen true;
             solutions ← loopM (more_solutions bv n) solutions;
             _ ← pop 1;
             if n <? Z.of_nat (size solutions)
             then mret (AtLeast BVSolution solutions)
             else mret (Exactly BVSolution solutions)
       end);
  _ ← set_model_gen false;
  mret ps.

(** [if width == 64 { u64::MAX } else { (1 << width) - 1 }] *)
Definition all_ones_u64 (width : Z) : Z :=
  if width =? 64 then u64_max else Z.shiftl 1 width - 1.
(** the midpoint of the search, biased to the small end *)
Definition search_mid (min max : Z) : Z :=
  let mid := min / 2 + max / 2 + (min mod 2 + max mod 2) / 2 in
  if min <? mid / 2 then mid / 2 else mid.

Definition max_search (bv : BV) : Z * Z * Z -> M SolverRef (Z * Z * Z + Z * Z * Z) :=
  fun '(min, max, pushes) =>
    if 1 <? max - min then
      let mid := search_mid min max in
      _ ← push 1;
      let pushes := pushes + 1 in
      _ ← bv_assert (ugte bv (from_u64 mid (get_width bv)));
      r ← sat;
      if (r : bool) then mret (inl (mid, max, pushes))
      else
        _ ← pop 1;
        mret (inl (min, mid, pushes - 1))
    else mret (inr (min, max, pushes)).

Definition max_possible_solution_for_bv_as_u64 (bv : BV) : M SolverRef (option Z) :=
  let width := get_width bv in
  if 64 <? width then panic "max_possible_solution_for_bv_as_u64 on a BV with width > 64"
  else
    r ← sat;
    if negb r then mret None
    else
      match as_u64 bv with
      | Some u => mret (Some u)
      | None =>
          r ← bvs_can_be_equal bv (bv_ones width);
          if (r : bool) then mret (Some (all_ones_u64 width))
          else
            '(min, max, pushes) ← loopM (max_search bv) (0, all_ones_u64 width, 0);
            _ ← pop pushes;
            _ ← lift (assert_ "assert_eq!(max - min, 1)" (max - min =? 1));
            mret (Some min)
      end.

Definition min_search (bv : BV) : Z * Z * Z -> M SolverRef (Z * Z * Z + Z * Z * Z) :=
  fun '(min, max, pushes) =>
    if 1 <? max - min then
      let mid := search_mid min max in
      _ ← push 1;
      let pushes := pushes + 1 in
      _ ← bv_assert (ulte bv (from_u64 mid (get_width bv)));
      r ← sat;
      if (r : bool) then mret (inl (min, mid, pushes))
      else
        _ ← pop 1;
        mret (inl (mid, max, pushes - 1))
    else mret (inr (min, max, pushes)).

Definition min_possible_solution_for_bv_as_u64 (bv : BV) : M SolverRef (option Z) :=
  let width := get_width bv in
  if 64 <? width then panic "min_possible_solution_for_bv_as_u64 on a BV with width > 64"
  else
    r ← sat;
    if negb r then mret None
    else
      match as_u64 bv with
      | Some u => mret (Some u)
      | None =>
          r ← bvs_can_be_equal bv (bv_zero width);
          if (r : bool) then mret (Some 0)
          else
            '(min, max, pushes) ← loopM (min_search bv) (0, all_ones_u64 width, 0);
            _ ← pop pushes;
            _ ← lift (assert_ "assert_eq!(max - min, 1)" (max - min =? 1));
            mret (Some max)
      end.

(** One round of the loop of [{max,min}_possible_solution_for_bv_as_binary_str];
    [extremum] is the [u64] search the round calls.  [inr None] is the early
    [return Ok(None)], [inr (Some str)] the [break]. *)
Definition binary_str_round (extremum : BV -> M SolverRef (option Z)) :
    BV * string -> M SolverRef (BV * string + option string) :=
  fun '(bv, retval) =>
    let width := get_width bv in
    if width <=? 64 then
      r ← extremum bv;
      match r with
      | Some v => mret (inr (Some (retval +:+ format_bin width v)))
      | None => mret (inr None)
      end
    else
      let top_bit := width - 1 in
      let high_bits := slice bv top_bit (top_bit - 63) in
      _ ← lift (assert_ "assert_eq!(high_bits.get_width(), 64)" (get_width high_bits =? 64));
      let bv := slice bv (top_bit - 64) 0 in
      r ← extremum high_bits;
      match r with
      | Some v =>
          _ ← bv_assert (bv_eq high_bits (from_u64 v 64));
          mret (inl (bv, retval +:+ format_bin 64 v))
      | None => mret (inr None)
      end.

Definition max_possible_solution_for_bv_as_binary_str (bv : BV) : M SolverRef (option string) :=
  let total_width := get_width bv in
  _ ← push 1;
  r ← loopM (binary_str_round max_possible_solution_for_bv_as_u64) (bv, ""%string);
  match r with
  | None => mret None
  | Some retval =>
      _ ← pop 1;
      _ ← lift (assert_ "assert_eq!(retval.len(), total_width)"
                  (Z.of_nat (String.length retval) =? total_width));
      mret (Some retval)
  end.

Definition min_possible_solution_for_bv_as_binary_str (bv : BV) : M SolverRef (option string) :=
  let total_width := get_width bv in
  r ← loopM (binary_str_round min_possible_solution_for_bv_as_u64) (bv, ""%string);
  match r with
  | None => mret None
  | Some retval =>
      _ ← lift (assert_ "assert_eq!(retval.len(), total_width)"
                  (Z.of_nat (String.length retval) =? total_width));
      mret (Some retval)
  end.

End operations.
Arguments Exactly {V _ _} v.
Arguments AtLeast {V _ _} v.

(** ** What the queries mean *)

Section specification.
Context `{Laws : BackendLaws}.

(** A solver query that Boolector gave up on. *)
Definition query_failed (e : Error) : Prop :=
  e = SolverError "The query was interrupted, timed out, or otherwise failed" /\
  exists s, fst (btor_sat s) = SolverUnknown.

(** The computation returns a value with [Q], or a solver query failed; it
    does not panic and does not run out of fuel. *)
Definition returns {A} (Q : A -> SolverRef -> Prop) (r : outcome A) (s : SolverRef) : Prop :=
  match r with
  | Ok a => Q a s
  | Err e => query_failed e
  | _ => False
  end.

(** The solver is left as it was found. *)
Definition same_solver (s s' : SolverRef) : Prop :=
  assertions s' = assertions s /\ model_gen s' = model_gen s.
Definition solver_ok (s : SolverRef) : Prop := assertions s <> [].
Definition satisfiable (s : SolverRef) : Prop := exists m, models s m.
(** [v] is a possible value of [bv] under the constraints. *)
Definition possible (s : SolverRef) (bv : BV) (v : Z) : Prop :=
  exists m, models s m /\ eval m bv = v.
(** The solution object for the value [v] of [bv]. *)
Definition solution_of (bv : BV) (v : Z) : BVSolution := from_01x_str (bin_str (get_width bv) v).
(** What the enumeration promises about its result. *)
Definition describes (s : SolverRef) (bv : BV) (n : Z) (ps : PossibleSolutions BVSolution) : Prop :=
  match ps with
  | Exactly X => Z.of_nat (size X) <= n /\
                 forall x, x ∈ X <-> exists v, possible s bv v /\ x = solution_of bv v
  | AtLeast X => Z.of_nat (size X) = n + 1 /\
                 forall x, x ∈ X -> exists v, possible s bv v /\ x = solution_of bv v
  end.
Definition is_max (s : SolverRef) (bv : BV) (v : Z) : Prop :=
  possible s bv v /\ forall v', possible s bv v' -> v' <= v.
Definition is_min (s : SolverRef) (bv : BV) (v : Z) : Prop :=
  possible s bv v /\ forall v', possible s bv v' -> v <= v'.

End specification.

#[export] Instance same_solver_equiv `{BVSemantics} : Equivalence same_solver.
Proof.
  unfold same_solver. split; [done| |].
  - intros s s' [-> ->]. done.
  - intros s1 s2 s3 [-> ->] [-> ->]. done.
Qed.
#[export] Instance models_proper `{BVSemantics} : Proper (same_solver ==> eq ==> iff) models.
Proof. intros s s' [E _] m ? <-. unfold models. by rewrite E. Qed.
#[export] Instance satisfiable_proper `{BVSemantics} : Proper (same_solver ==> iff) satisfiable.
Proof. intros s s' E. unfold satisfiable. by setoid_rewrite E. Qed.
#[export] Instance possible_proper `{BVSemantics} : Proper (same_solver ==> eq ==> eq ==> iff) possible.
Proof. intros s s' E ? b <- ? v <-. unfold possible. by setoid_rewrite E. Qed.
#[export] Instance solver_ok_proper `{BVSemantics} : Proper (same_solver ==> iff) solver_ok.
Proof. intros s s' [E _]. unfold solver_ok. by rewrite E. Qed.

Section rules.
Context `{Laws : BackendLaws}.

Lemma returns_bind {A B} (c : M SolverRef A) (f : A -> M SolverRef B) s P Q :
  wp c s (returns P) -> (forall a s', P a s' -> wp (f a) s' (returns Q)) ->
  wp (c ≫= f) s (returns Q).
Proof.
  intros Hc Hf. apply wp_bind. eapply wp_mono; [exact Hc|].
  intros [a|e|p|] s'; simpl; auto.
Qed.

Lemma returns_mono {A} (c : M SolverRef A) s (P Q : A -> SolverRef -> Prop) :
  wp c s (returns P) -> (forall a s', P a s' -> Q a s') -> wp c s (returns Q).
Proof. intros Hc Hm. eapply wp_mono; [exact Hc|]. intros [a|e|p|] s'; simpl; auto. Qed.

Lemma wp_sat s :
  wp sat s (returns (fun b s' => same_solver s s' /\ (b = true <-> satisfiable s) /\
                                 (b = true -> btor_sat s = (SolverSat, s')))).
Proof.
  unfold sat. apply wp_bind, run_wp. pose proof (btor_sat_law s) as L.
  destruct (btor_sat s) as [r s'] eqn:E. destruct L as (L1 & L2 & L3). intros ? ? [= <- <-].
  destruct r; apply wp_lift || apply wp_ret; cbn.
  - split; [done|]. split; [|done]. done.
  - split; [done|]. split; [|done]. split; [done|]. intros H'. by destruct L3.
  - split; [done|]. exists s. by rewrite E.
Qed.

(** Asserting [b] keeps the models in which it holds. *)
Lemma models_assert s b m : get_width b = 1 -> solver_ok s ->
  models (btor_assert b s) m <-> eval m b = 1 /\ models s m.
Proof.
  intros W O. destruct (assertions s) as [|l ls] eqn:E; [by destruct O|].
  destruct (btor_assert_law b l ls s W E) as [L _].
  unfold models. rewrite L, E. simpl. by rewrite Forall_cons.
Qed.

(** Asserting a list of one-bit constraints at the innermost level. *)
Lemma wp_asserts bs s l ls (Q : outcome unit -> SolverRef -> Prop) :
  Forall (fun b => get_width b = 1) bs -> assertions s = l :: ls ->
  (forall s', assertions s' = (rev bs ++ l) :: ls -> model_gen s' = model_gen s -> Q (Ok tt) s') ->
  wp (forM bs bv_assert) s Q.
Proof.
  intros Hb. revert s l. induction Hb as [|b bs Hb _ IH]; intros s l E K; cbn [forM].
  - apply wp_ret. apply K; done.
  - wp_step.
    destruct (btor_assert_law b l ls s Hb E) as [L1 L2].
    apply (IH _ (b :: l)); [done|]. intros s' E' G'. apply K; [|by rewrite G'].
    rewrite E'. simpl. by rewrite <- app_assoc.
Qed.

Lemma push_pop_same s s' ls :
  assertions s' = ls :: assertions s -> model_gen s' = model_gen s -> solver_ok s ->
  same_solver s (btor_pop 1 s').
Proof.
  intros E G O. destruct (btor_pop_law 1 s') as [L1 L2].
  - rewrite E. unfold solver_ok in O. destruct (assertions s); [done|]. simpl. lia.
  - split; [by rewrite L1, E|congruence].
Qed.

Lemma wp_sat_with_extra_constraints bs s :
  Forall (fun b => get_width b = 1) bs -> solver_ok s ->
  wp (sat_with_extra_constraints bs) s (returns (fun b s' =>
    same_solver s s' /\
    (b = true <-> feasible s (fun m => Forall (fun c => eval m c = 1) bs)))).
Proof.
  intros Hb O. unfold sat_with_extra_constraints. wp_step.
  destruct (btor_push_law 1 s ltac:(lia)) as [L1 L2]. simpl in L1.
  apply wp_bind. apply (wp_asserts bs _ [] (assertions s)); [done|done|].
  intros s2 E2 G2. rewrite app_nil_r in E2. apply wp_bind, wp_catch.
  eapply wp_mono; [apply wp_sat|]. intros [b|e|p|] s3; cbn.
  - intros ([E3 G3] & Hsat & _). wp_step. apply wp_lift. split.
    + eapply push_pop_same; [by rewrite E3|congruence|done].
    + rewrite Hsat. unfold satisfiable, feasible, models. rewrite E2. simpl.
      setoid_rewrite Forall_app. setoid_rewrite Forall_rev_iff.
      split; intros (m & H1 & H2); exists m; done.
  - intros F. wp_step. done.
  - done.
  - done.
Qed.

Lemma wp_bvs_can_be_equal a b s :
  get_width a = get_width b -> solver_ok s ->
  wp (bvs_can_be_equal a b) s (returns (fun r s' =>
    same_solver s s' /\ (r = true <-> feasible s (fun m => eval m a = eval m b)))).
Proof.
  intros W O. unfold bvs_can_be_equal. eapply returns_bind.
  { apply wp_sat_with_extra_constraints; [|done]. constructor; [by bv_widths|constructor]. }
  intros r s' [Hs Hr]. assert (r = true <-> feasible s (fun m => eval m a = eval m b)) as Hr'.
  { rewrite Hr. unfold feasible. setoid_rewrite Forall_singleton.
    split; intros (m & Hm & E); exists m; split; try done; revert E; bv_evals;
      rewrite b2z_1, Z.eqb_eq; done. }
  destruct r; apply wp_ret; done.
Qed.

End rules.

(** ** Enumerating the possible values *)

Section enumeration.
Context `{Laws : BackendLaws}.
Implicit Types (bv : BV) (X : gset BVSolution).

Definition sound_solutions s bv X : Prop :=
  forall x, x ∈ X -> exists v, possible s bv v /\ x = solution_of bv v.

Lemma solution_of_inj bv v v' :
  0 <= v < 2 ^ get_width bv -> 0 <= v' < 2 ^ get_width bv ->
  solution_of bv v = solution_of bv v' -> v = v'.
Proof.
  intros Hv Hv' E. apply (f_equal as_01x_str) in E. unfold solution_of in E.
  rewrite !as_from_01x_str in E. pose proof (width_pos bv).
  apply (bin_str_inj (get_width bv)); [lia|done..].
Qed.

Lemma possible_range s bv v : possible s bv v -> 0 <= v < 2 ^ get_width bv.
Proof. intros (m & _ & <-). apply eval_range. Qed.

Lemma sound_insert s bv X v : sound_solutions s bv X -> possible s bv v ->
  sound_solutions s bv ({[solution_of bv v]} ∪ X).
Proof. intros HX Hv x [->%elem_of_singleton|Hx]%elem_of_union; eauto. Qed.

(** Adding one element. *)
Lemma size_insert X x n :
  Z.of_nat (size X) <= n -> Z.of_nat (size ({[x]} ∪ X)) <= n + 1.
Proof.
  intros Hs. pose proof (size_union_alt {[x]} X) as E. rewrite size_singleton in E.
  pose proof (subseteq_size _ _ (subseteq_difference_l X {[x]} X (reflexivity X))). lia.
Qed.

Definition common_post s bv n X s' : Prop :=
  same_solver s s' /\ sound_solutions s bv X /\ Z.of_nat (size X) <= n + 1.

Lemma wp_common_solution s0 s bv n guard c str X v :
  get_width c = get_width bv \/ guard = false ->
  (guard = true -> (forall m, eval m c = v) /\ str = bin_str (get_width bv) v) ->
  solver_ok s0 -> common_post s0 bv n X s ->
  wp (common_solution bv n guard c str X) s (returns (common_post s0 bv n)).
Proof.
  intros Hw Hv O HP. unfold common_solution.
  destruct (Z.leb_spec (Z.of_nat (size X)) n); [|by apply wp_ret]. cbn [andb].
  destruct guard; [|by apply wp_ret]. destruct Hw as [Hw|]; [|done].
  destruct (Hv eq_refl) as [Hev ->]. destruct HP as (Hs & HX & _).
  eapply returns_bind; [apply wp_bvs_can_be_equal; [done|by rewrite <- Hs]|].
  intros r s' [Hs' Hr]. assert (same_solver s0 s') as Hss by (by rewrite Hs, Hs').
  destruct r; apply wp_ret; cbn.
  - split; [done|]. split; [|by apply size_insert].
    apply (sound_insert s0 bv X v); [done|]. destruct (proj1 Hr eq_refl) as (m & Hm & E).
    exists m. rewrite Hs. split; [done|]. by rewrite E, Hev.
  - split; [done|]. split; [done|]. lia.
Qed.

Lemma pow2_fits k w : 0 <= k < w -> 0 <= 2 ^ k < 2 ^ w.
Proof. intros Hk. pose proof (pow2_pos k). pose proof (Z.pow_lt_mono_r 2 k w). lia. Qed.

Lemma wp_pow2_solution s0 s bv n k X :
  0 <= k < 32 -> solver_ok s0 -> common_post s0 bv n X s ->
  wp (common_solution bv n (get_width bv >? k) (from_u32 (2 ^ k) (get_width bv))
        (format_bin (get_width bv) (2 ^ k)) X) s (returns (common_post s0 bv n)).
Proof.
  intros Hk O HP. pose proof (width_pos bv).
  pose proof (pow2_fits k 32 Hk). destruct (get_width bv >? k) eqn:Eg.
  - apply Z.gtb_lt in Eg. pose proof (pow2_fits k (get_width bv) ltac:(lia)).
    eapply (wp_common_solution _ _ _ _ _ _ _ _ (2 ^ k)); [|intros _|done|done].
    + left. apply from_u32_width. lia.
    + split; [intros m; apply from_u32_eval; lia|]. by apply format_bin_fits.
  - eapply (wp_common_solution _ _ _ _ _ _ _ _ 0); [by right|done|done|done].
Qed.

Lemma wp_check_for_common_solutions s bv n :
  solver_ok s -> 0 <= n ->
  wp (check_for_common_solutions bv n ∅) s (returns (common_post s bv n)).
Proof.
  intros O Hn. pose proof (width_pos bv) as Wp. unfold check_for_common_solutions.
  assert (common_post s bv n ∅ s) as H0'.
  { split; [done|]. split; [intros x; set_solver|]. rewrite size_empty. lia. }
  eapply returns_bind; [|intros X1 s1 HP1].
  { eapply (wp_common_solution _ _ _ _ _ _ _ _ 0); [left; by bv_widths|intros _|done|done].
    split; [intros m; by bv_evals|]. apply bin_digits_repeat_0. }
  eapply returns_bind; [|intros X2 s2 HP2].
  { eapply (wp_common_solution _ _ _ _ _ _ _ _ 1); [left; by bv_widths|intros _|done|done].
    split; [intros m; by bv_evals|]. apply format_bin_fits; [done|].
    apply (pow2_fits 0). lia. }
  eapply returns_bind; [|intros X3 s3 HP3].
  { eapply (wp_common_solution _ _ _ _ _ _ _ _ (ones_val (get_width bv)));
      [left; by bv_widths|intros _|done|done].
    split; [intros m; by bv_evals|]. symmetry. apply bin_digits_ones. lia. }
  do 11 (eapply returns_bind; [apply wp_pow2_solution; [lia|done|eassumption]|intros ? ? ?]).
  apply wp_pow2_solution; [lia|done|eassumption].
Qed.

(** [exclude_solution] asserts that [bv] is not [v]. *)
Lemma exclude_term s bv v : possible s bv v ->
  let c := bv_ne bv (from_binary_str (as_01x_str (solution_of bv v))) in
  get_width c = 1 /\ forall m, eval m c = 1 <-> eval m bv <> v.
Proof.
  intros Hp. pose proof (possible_range s bv v Hp) as R. unfold solution_of.
  rewrite as_from_01x_str. pose proof (width_pos bv).
  destruct (from_binary_str_law (get_width bv) v ltac:(lia) R) as [L1 L2].
  cbn zeta. split; [rewrite (pred_width bv_ne _ _ _ bv_ne_law); by rewrite ?L1|].
  intros m. rewrite (pred_eval bv_ne _ _ _ m bv_ne_law) by (by rewrite L1).
  rewrite L2, b2z_1, negb_true_iff, Z.eqb_neq. done.
Qed.

(** The state of the search for further solutions: one level above the
    original constraints, which excludes exactly the solutions found. *)
Definition excluding s bv X s' : Prop :=
  (exists l, assertions s' = l :: assertions s) /\ model_gen s' = true /\
  (forall m, models s' m <-> models s m /\ solution_of bv (eval m bv) ∉ X) /\
  sound_solutions s bv X.

Lemma wp_exclude_all s bv (xs : list BVSolution) s1 l
    (Q : outcome unit -> SolverRef -> Prop) :
  (forall x, x ∈ xs -> exists v, possible s bv v /\ x = solution_of bv v) ->
  assertions s1 = l :: assertions s ->
  (forall s2 l2, assertions s2 = l2 :: assertions s -> model_gen s2 = model_gen s1 ->
     (forall m, models s2 m <-> models s1 m /\ solution_of bv (eval m bv) ∉ xs) -> Q (Ok tt) s2) ->
  wp (forM xs (exclude_solution bv)) s1 Q.
Proof.
  revert s1 l. induction xs as [|x xs IH]; intros s1 l Hx E K; cbn [forM].
  - apply wp_ret. eapply K; [done..|]. intros m. rewrite elem_of_nil. tauto.
  - wp_step. destruct (Hx x ltac:(left)) as (v & Hv & ->).
    destruct (exclude_term s bv v Hv) as [W Ev].
    destruct (btor_assert_law _ l (assertions s) s1 W E) as [L1 L2].
    eapply IH; [intros y Hy; apply Hx; by right|exact L1|]. intros s2 l2 E2 G2 M2. eapply K; [done|congruence|].
    intros m. rewrite M2, models_assert; [|done|unfold solver_ok; by rewrite E].
    rewrite Ev, not_elem_of_cons. pose proof (eval_range m bv). pose proof (possible_range _ _ _ Hv).
    split; [intros [[Hne Hm] Hn]|intros [Hm [Hne Hn]]].
    + split; [done|]. split; [|done]. intros Eq. by apply solution_of_inj in Eq.
    + split; [|done]. split; [|done]. intros Eq. by rewrite Eq in Hne.
Qed.

Lemma wp_more_solutions s bv n X s1 :
  solver_ok s -> excluding s bv X s1 /\ Z.of_nat (size X) <= n + 1 ->
  wp (more_solutions bv n X) s1 (fun r s' =>
    match r with
    | Ok (inl X') => (excluding s bv X' s' /\ Z.of_nat (size X') <= n + 1) /\
                     0 <= n + 1 - Z.of_nat (size X') < n + 1 - Z.of_nat (size X)
    | Ok (inr X') =>
        returns (fun X' s' => excluding s bv X' s' /\
          (Z.of_nat (size X') = n + 1 \/ Z.of_nat (size X') <= n /\ ~ satisfiable s')) (Ok X') s'
    | _ => stopped (returns (fun (X' : gset BVSolution) s' => excluding s bv X' s' /\
          (Z.of_nat (size X') = n + 1 \/ Z.of_nat (size X') <= n /\ ~ satisfiable s'))) r s'
    end).
Proof.
  intros O [HE Hs]. unfold more_solutions.
  destruct (Z.leb_spec (Z.of_nat (size X)) n) as [Hn|Hn].
  2:{ apply wp_ret. cbn. split; [done|]. left. lia. }
  apply wp_bind. eapply wp_mono; [apply wp_sat|]. intros [r|e|p|] s2; [|done..].
  intros (Hss & Hr & Hsat). destruct HE as ([l El] & G & Mo & HX). destruct Hss as [Ess Gss].
  destruct r; apply wp_bind || apply wp_ret.
  - apply wp_gets. cbn beta iota. destruct (btor_get_a_solution_law bv s1 s2 (Hsat eq_refl) G) as (m & Hm & Em).
    assert (disambiguate (btor_get_a_solution bv s2) = solution_of bv (eval m bv)) as ->.
    { unfold solution_of. by rewrite <- Em, from_as_01x_str. }
    apply Mo in Hm as [Hm Hnew]. assert (possible s bv (eval m bv)) as Hp by (by exists m).
    wp_step. apply wp_ret. destruct (exclude_term s bv _ Hp) as [W Ev].
    destruct (btor_assert_law _ l (assertions s) s2 W) as [L1 L2]; [by rewrite Ess|].
    rewrite size_union, size_singleton by (intros ? ->%elem_of_singleton; done). split; [split; [|lia]|lia].
    split; [by eexists|]. split; [congruence|]. split; [|by apply sound_insert].
    intros m'. rewrite models_assert; [|done|unfold solver_ok; by rewrite Ess, El].
    rewrite Ev. assert (models s2 m' <-> models s1 m') as -> by (unfold models; by rewrite Ess).
    rewrite Mo, not_elem_of_union, not_elem_of_singleton.
    pose proof (eval_range m' bv). pose proof (eval_range m bv).
    split; [intros (Hne & Hm' & Hn')|intros (Hm' & Hne & Hn')].
    + split; [done|]. split; [|done]. intros Eq. by apply solution_of_inj in Eq.
    + split; [|done]. intros Eq. by rewrite Eq in Hne.
  - cbn. split.
    + split; [exists l; by rewrite Ess|]. split; [congruence|]. split; [|done].
      intros m. rewrite <- Mo. unfold models. by rewrite Ess.
    + right. split; [done|]. intros Hsat'. cut (false = true); [done|]. apply Hr.
      unfold satisfiable, models in *. by rewrite Ess in Hsat'.
Qed.

Lemma wp_possible_n0 s bv :
  solver_ok s ->
  wp (_ ← set_model_gen true;
      r ← sat;
      if (r : bool) then
        sol ← get_a_solution bv;
        mret (AtLeast {[ disambiguate sol ]})
      else mret (Exactly ∅)) s
    (returns (fun ps s' => assertions s' = assertions s /\ describes s bv 0 ps)).
Proof.
  intros O. wp_step. destruct (btor_set_model_gen_law true s) as [L1 L2].
  eapply returns_bind; [apply wp_sat|]. intros r s1 ([Es _] & Hr & Hsat). rewrite L1 in Es.
  destruct r.
  - wp_step. apply wp_ret. cbn. split; [done|]. split; [by rewrite size_singleton|].
    intros x ->%elem_of_singleton.
    destruct (btor_get_a_solution_law bv _ _ (Hsat eq_refl) L2) as (m & Hm & Em).
    exists (eval m bv). split.
    + exists m. unfold models in *. by rewrite L1 in Hm.
    + unfold solution_of. by rewrite <- Em, from_as_01x_str.
  - apply wp_ret. cbn. split; [done|]. split; [by rewrite size_empty|]. intros x. split; [set_solver +|].
    intros (v & (m & Hm & _) & _). exfalso. cut (false = true); [done|]. apply Hr.
    exists m. unfold models in *. by rewrite L1.
Qed.

(** What the search for further solutions ends with. *)
Lemma excluding_done s bv X n s1 :
  excluding s bv X s1 -> Z.of_nat (size X) <= n -> ~ satisfiable s1 ->
  describes s bv n (Exactly X).
Proof.
  intros (_ & _ & Mo & HX) Hsz Hns. split; [done|]. intros x. split; [by apply HX|].
  intros (v & (m & Hm & <-) & ->). destruct (decide (solution_of bv (eval m bv) ∈ X)) as [|Hn]; [done|].
  destruct Hns. exists m. by apply Mo.
Qed.

Lemma wp_search_solutions s s0 bv n X :
  solver_ok s -> 0 <= n < 2 ^ 64 -> same_solver s s0 ->
  sound_solutions s bv X -> Z.of_nat (size X) <= n ->
  wp (_ ← push 1;
      _ ← forM (elements X) (exclude_solution bv);
      _ ← set_model_gen true;
      solutions ← loopM (more_solutions bv n) X;
      _ ← pop 1;
      if n <? Z.of_nat (size solutions)
      then mret (AtLeast solutions) else mret (Exactly solutions)) s0
    (returns (fun ps s' => assertions s' = assertions s /\ describes s bv n ps)).
Proof.
  intros O Hn [E0 G0] HX Hs. wp_step. destruct (btor_push_law 1 s0 ltac:(lia)) as [L1 _].
  rewrite E0 in L1. simpl in L1. apply wp_bind, (wp_exclude_all s bv _ _ []); [|done|].
  { intros x Hx. apply HX. by apply elem_of_elements. }
  intros s2 l2 E2 _ M2. wp_step. destruct (btor_set_model_gen_law true s2) as [L3 L4].
  assert (excluding s bv X (btor_set_model_gen true s2)) as HE.
  { split; [exists l2; by rewrite L3|]. split; [done|]. split; [|done]. intros m.
    transitivity (models s2 m); [unfold models; by rewrite L3|]. rewrite M2, elem_of_elements.
    unfold models. by rewrite L1. }
  eapply returns_bind.
  { eapply (wp_loopM _ (fun X s' => excluding s bv X s' /\ Z.of_nat (size X) <= n + 1)
              (fun X => n + 1 - Z.of_nat (size X))).
    - intros X' s' HI. by apply wp_more_solutions.
    - split; [done|lia].
    - change (2 ^ 65) with (2 * 2 ^ 64). lia. }
  intros X' s3 [HE3 Hsz]. wp_step. pose proof HE3 as ([l3 E3] & _ & _ & HX3).
  destruct (btor_pop_law 1 s3) as [L5 _].
  { rewrite E3. unfold solver_ok in O. destruct (assertions s); [done|]. simpl. lia. }
  rewrite E3 in L5. simpl in L5.
  destruct (Z.ltb_spec n (Z.of_nat (size X'))); apply wp_ret; (split; [done|]).
  - split; [lia|done].
  - destruct Hsz as [|[_ Hsat]]; [lia|]. by eapply excluding_done.
Qed.

Lemma possible_solutions_spec s bv n :
  solver_ok s -> model_gen s = false -> 0 <= n < 2 ^ 64 ->
  n = 0 \/ as_binary_str bv = None \/ satisfiable s ->
  wp (get_possible_solutions_for_bv bv n) s (returns (fun ps s' =>
    same_solver s s' /\ describes s bv n ps)).
Proof.
  intros O G Hn Hc. unfold get_possible_solutions_for_bv.
  eapply (returns_bind _ _ _ (fun ps s' => assertions s' = assertions s /\ describes s bv n ps)).
  2:{ intros ps s' [E D]. wp_step. apply wp_ret. split; [|done].
      destruct (btor_set_model_gen_law false s') as [L1 L2]. split; congruence. }
  destruct (Z.eqb_spec n 0) as [->|Hn0]; [by apply wp_possible_n0|].
  destruct (as_binary_str bv) as [bstr|] eqn:Eb.
  - apply wp_ret. split; [done|]. destruct (as_binary_str_law bv bstr Eb) as (v & -> & _ & Hv).
    destruct Hc as [|[|[m Hm]]]; [done..|]. split; [rewrite size_singleton; lia|]. intros x. rewrite elem_of_singleton. split.
    + intros ->. exists v. split; [|done]. by exists m.
    + intros (v' & (m' & _ & <-) & ->). by rewrite Hv.
  - eapply returns_bind; [apply wp_check_for_common_solutions; [done|lia]|].
    intros X s1 (Hs & HX & Hsz). destruct (Z.ltb_spec n (Z.of_nat (size X))).
    + apply wp_ret. split; [apply Hs|]. split; [lia|done].
    + by apply wp_search_solutions.
Qed.

(** C15: The enumeration returns exactly the possible values when there are at
    most [n] of them and [n + 1] of them otherwise, leaves the constraints and
    the model-generation option as they were, always terminates, and fails
    only when a solver query fails.  This is for constraints that can be met,
    or a vector that is not a constant: a constant under unsatisfiable
    constraints is reported without a query as its own only value
    ([possible_solutions_unsat_constant]). *)
Theorem get_possible_solutions_correct s bv n :
  solver_ok s -> model_gen s = false -> 0 <= n < 2 ^ 64 ->
  n = 0 \/ as_binary_str bv = None \/ satisfiable s ->
  wp (get_possible_solutions_for_bv bv n) s (returns (fun ps s' =>
    same_solver s s' /\ describes s bv n ps)).
Proof. apply possible_solutions_spec. Qed.

End enumeration.

(** ** The extremal values *)

Section extrema.
Context `{Laws : BackendLaws}.
Implicit Types (bv : BV).

Lemma search_mid_between min max : 0 <= min -> 1 < max - min -> min < search_mid min max < max.
Proof.
  intros Hm Hd. unfold search_mid.
  assert (min / 2 + max / 2 + (min mod 2 + max mod 2) / 2 = (min + max) / 2) as ->.
  { pose proof (Z.div_mod min 2 ltac:(lia)). pose proof (Z.div_mod max 2 ltac:(lia)).
    replace (min + max) with ((min mod 2 + max mod 2) + (min / 2 + max / 2) * 2) by lia.
    rewrite Z.div_add by lia. lia. }
  pose proof (Z.div_mod (min + max) 2 ltac:(lia)). pose proof (Z.mod_pos_bound (min + max) 2 ltac:(lia)).
  destruct (Z.ltb_spec min ((min + max) / 2 / 2)); [|lia].
  split; [lia|]. apply Z.le_lt_trans with ((min + max) / 2); [|lia].
  apply Z.div_le_upper_bound; lia.
Qed.

Lemma all_ones_u64_val w : 0 < w <= 64 -> all_ones_u64 w = ones_val w.
Proof.
  intros Hw. unfold all_ones_u64, ones_val, u64_max. destruct (Z.eqb_spec w 64) as [->|]; [done|].
  rewrite Z.shiftl_mul_pow2; lia.
Qed.

(** The state of a search: [pushes] levels above the original constraints,
    which are restricted to the models with [P]. *)
Definition restricted s pushes (P : Model -> Prop) s' : Prop :=
  0 <= pushes /\
  (exists ls, assertions s' = ls ++ assertions s /\ Z.of_nat (length ls) = pushes) /\
  model_gen s' = model_gen s /\ (forall m, models s' m <-> models s m /\ P m).

Lemma restricted_push_assert s k P s' c :
  solver_ok s -> restricted s k P s' -> get_width c = 1 ->
  restricted s (k + 1) (fun m => P m /\ eval m c = 1) (btor_assert c (btor_push 1 s')).
Proof.
  intros O (Hk & (ls & E & Hl) & G & Mo) W.
  destruct (btor_push_law 1 s' ltac:(lia)) as [L1 L2]. simpl in L1. rewrite E in L1.
  destruct (btor_assert_law c _ _ _ W L1) as [L3 L4]. split; [lia|]. split.
  { exists ([c] :: ls). split; [done|]. simpl. lia. }
  split; [congruence|]. intros m. rewrite models_assert; [|done|unfold solver_ok; by rewrite L1].
  assert (models (btor_push 1 s') m <-> models s' m) as ->
    by (unfold models; by rewrite L1, E).
  rewrite Mo. tauto.
Qed.

Lemma restricted_same s k P s' s'' : restricted s k P s' -> same_solver s' s'' -> restricted s k P s''.
Proof.
  intros (Hk & (ls & E & Hl) & G & Mo) [E' G']. split; [done|].
  split; [exists ls; by rewrite E'|]. split; [congruence|]. intros m. rewrite <- Mo.
  unfold models. by rewrite E'.
Qed.

(** Undoing one level: the levels below are those of the state before. *)
Lemma restricted_pop s k P s1 c s2 :
  solver_ok s -> restricted s k P s1 -> get_width c = 1 ->
  same_solver (btor_assert c (btor_push 1 s1)) s2 ->
  restricted s k P (btor_pop 1 s2).
Proof.
  intros O R W S. eapply restricted_same; [exact R|].
  destruct R as (Hk & (ls & E & Hl) & G & Mo).
  destruct (btor_push_law 1 s1 ltac:(lia)) as [L1 L2]. simpl in L1.
  destruct (btor_assert_law c _ _ _ W L1) as [L3 L4]. destruct S as [S1 S2].
  eapply push_pop_same; [by rewrite S1, L3|congruence|].
  unfold solver_ok in *. rewrite E. by destruct ls, (assertions s).
Qed.

Lemma restricted_pop_all s k P s' : solver_ok s -> restricted s k P s' -> same_solver s (btor_pop k s').
Proof.
  intros O (Hk & (ls & E & Hl) & G & Mo). destruct (btor_pop_law k s') as [L1 L2].
  - rewrite E, length_app. unfold solver_ok in O. destruct (assertions s); [done|]. simpl. lia.
  - split; [|congruence]. rewrite L1, E, <- Hl, Nat2Z.id. apply drop_app_length.
Qed.

Definition max_inv s bv : Z * Z * Z -> SolverRef -> Prop := fun '(min, max, pushes) s' =>
  restricted s pushes (fun m => min <= eval m bv) s' /\
  0 <= min < max /\ max <= ones_val (get_width bv) /\
  feasible s (fun m => min <= eval m bv) /\ ~ feasible s (fun m => max <= eval m bv).

Lemma u64_const mid bv : get_width bv <= 64 -> 0 <= mid <= ones_val (get_width bv) ->
  get_width (from_u64 mid (get_width bv)) = get_width bv /\
  forall m, eval m (from_u64 mid (get_width bv)) = mid.
Proof.
  intros Hw Hm. pose proof (width_pos bv). unfold ones_val in Hm.
  apply from_u64_law; [done| |lia]. pose proof (pow2_le (get_width bv) 64). lia.
Qed.

Lemma wp_max_search s bv a s' :
  solver_ok s -> get_width bv <= 64 -> max_inv s bv a s' ->
  wp (max_search bv a) s' (fun r s2 =>
    match r with
    | Ok (inl a') => max_inv s bv a' s2 /\ 0 <= (let '(min, max, _) := a' in max - min) <
                                               (let '(min, max, _) := a in max - min)
    | Ok (inr b) => returns (fun b s2 => max_inv s bv b s2 /\ snd (fst b) - fst (fst b) = 1) (Ok b) s2
    | _ => stopped (returns (fun b s2 => max_inv s bv b s2 /\ snd (fst b) - fst (fst b) = 1)) r s2
    end).
Proof.
  destruct a as [[min max] pushes]. intros O Hw (R & Hr & Hmax & Hf & Hnf). cbn [max_search].
  destruct (Z.ltb_spec 1 (max - min)) as [Hd|Hd].
  2:{ apply wp_ret. cbn. split; [done|lia]. }
  pose proof (search_mid_between min max ltac:(lia) Hd) as Hmid.
  set (mid := search_mid min max) in *.
  destruct (u64_const mid bv Hw ltac:(lia)) as [Wc Ec].
  set (c := ugte bv (from_u64 mid (get_width bv))).
  assert (get_width c = 1) as W by (by apply (pred_width ugte _ _ _ ugte_law)).
  assert (forall m, eval m c = 1 <-> mid <= eval m bv) as Ev.
  { intros m. unfold c. rewrite (pred_eval ugte _ _ _ m ugte_law), Ec, b2z_1, Z.leb_le by done. done. }
  wp_step. wp_step. fold c. pose proof (restricted_push_assert s pushes _ s' c O R W) as R2.
  apply wp_bind. eapply wp_mono; [apply wp_sat|]. intros [r|e|p|] s2; [|done..].
  intros (Hs & Hsat & _).
  assert (r = true <-> feasible s (fun m => mid <= eval m bv)) as Hsat'.
  { rewrite Hsat. unfold satisfiable, feasible. destruct R2 as (_ & _ & _ & Mo). setoid_rewrite Mo.
    setoid_rewrite Ev. split; intros (m & H1 & H2); exists m; intuition lia. }
  destruct r.
  - apply wp_ret. split; [|lia]. split; [|split; [lia|split; [lia|split; [by apply Hsat'|done]]]].
    eapply restricted_same in R2; [|exact Hs]. destruct R2 as (? & ? & ? & Mo).
    do 3 (split; [done|]). intros m. rewrite Mo, Ev. intuition lia.
  - wp_step. apply wp_ret. split; [|lia]. split.
    + replace (pushes + 1 - 1) with pushes by lia. by eapply restricted_pop.
    + split; [lia|]. split; [lia|]. split; [done|]. intros Hfe. by apply Hsat' in Hfe.
Qed.

(** A bound that is attained and cannot be improved is the extremum. *)
Lemma is_max_of_bounds s bv min :
  feasible s (fun m => min <= eval m bv) -> ~ feasible s (fun m => min + 1 <= eval m bv) ->
  is_max s bv min.
Proof.
  intros (m & Hm & Hle) Hn. assert (forall m', models s m' -> eval m' bv <= min) as Hb.
  { intros m' Hm'. destruct (Z.le_gt_cases (eval m' bv) min); [done|]. destruct Hn. exists m'. split; [done|lia]. }
  split; [exists m; split; [done|]; specialize (Hb m Hm); lia|].
  intros v' (m' & Hm' & <-). auto.
Qed.

Lemma max_u64_spec s bv :
  solver_ok s -> get_width bv <= 64 ->
  wp (max_possible_solution_for_bv_as_u64 bv) s (returns (fun r s' =>
    same_solver s s' /\
    match r with Some v => is_max s bv v | None => ~ satisfiable s end)).
Proof.
  intros O Hw. pose proof (width_pos bv) as Wp. unfold max_possible_solution_for_bv_as_u64.
  rewrite (proj2 (Z.ltb_ge 64 _) Hw), all_ones_u64_val by lia.
  eapply returns_bind; [apply wp_sat|]. intros r s1 (Hs & Hr & _).
  destruct r; cbn [negb]; [|apply wp_ret; split; [done|]; rewrite <- Hr; done].
  destruct (proj1 Hr eq_refl) as [m0 Hm0].
  destruct (as_u64 bv) as [u|] eqn:Eu.
  { apply wp_ret. split; [done|]. pose proof (as_u64_law bv u Eu) as Hu.
    split; [by exists m0|]. intros v' (m' & _ & <-). by rewrite Hu. }
  eapply returns_bind; [apply wp_bvs_can_be_equal; [by bv_widths|by rewrite <- Hs]|].
  intros r s2 [Hs2 Hr2]. destruct r.
  - apply wp_ret. split; [by rewrite Hs|]. destruct (proj1 Hr2 eq_refl) as (m & Hm & Em).
    rewrite ones_eval in Em by done. split; [exists m; by rewrite Hs|].
    intros v' (m' & _ & <-). pose proof (eval_range m' bv). unfold ones_val. lia.
  - eapply returns_bind.
    { eapply (wp_loopM _ (max_inv s bv) (fun '(min, max, _) => max - min)).
      - intros a s' HI. by apply wp_max_search.
      - pose proof (ones_val_range _ Wp). pose proof (pow2_double _ Wp). pose proof (pow2_pos (get_width bv - 1)).
        split; [|split; [unfold ones_val; lia|split; [lia|split]]].
        + split; [lia|]. destruct Hs as [Es Gs], Hs2 as [Es2 Gs2].
          split; [exists []; simpl; split; [congruence|lia]|]. split; [congruence|].
          intros m. transitivity (models s m); [unfold models; by rewrite Es2, Es|].
          pose proof (eval_range m bv). intuition lia.
        + exists m0. pose proof (eval_range m0 bv). split; [done|lia].
        + intros (m & Hm & Hle). cut (false = true); [done|]. apply Hr2. exists m.
          rewrite <- Hs. split; [done|]. rewrite ones_eval by done.
          pose proof (eval_range m bv). unfold ones_val in *. lia.
      - pose proof (pow2_le (get_width bv) 64 ltac:(lia)). unfold ones_val.
        change (2 ^ 65) with (2 * 2 ^ 64). lia. }
    intros [[min max] pushes] s3 ((R & Hmm & _ & Hf & Hnf) & Hd). cbn in Hd.
    wp_step. wp_step. rewrite (proj2 (Z.eqb_eq _ _) Hd). cbn. apply wp_ret.
    split; [by eapply restricted_pop_all|]. apply is_max_of_bounds; [done|].
    replace (min + 1) with max by lia. done.
Qed.

Definition min_inv s bv : Z * Z * Z -> SolverRef -> Prop := fun '(min, max, pushes) s' =>
  restricted s pushes (fun m => eval m bv <= max) s' /\
  0 <= min < max /\ max <= ones_val (get_width bv) /\
  feasible s (fun m => eval m bv <= max) /\ ~ feasible s (fun m => eval m bv <= min).

Lemma wp_min_search s bv a s' :
  solver_ok s -> get_width bv <= 64 -> min_inv s bv a s' ->
  wp (min_search bv a) s' (fun r s2 =>
    match r with
    | Ok (inl a') => min_inv s bv a' s2 /\ 0 <= (let '(min, max, _) := a' in max - min) <
                                               (let '(min, max, _) := a in max - min)
    | Ok (inr b) => returns (fun b s2 => min_inv s bv b s2 /\ snd (fst b) - fst (fst b) = 1) (Ok b) s2
    | _ => stopped (returns (fun b s2 => min_inv s bv b s2 /\ snd (fst b) - fst (fst b) = 1)) r s2
    end).
Proof.
  destruct a as [[min max] pushes]. intros O Hw (R & Hr & Hmax & Hf & Hnf). cbn [min_search].
  destruct (Z.ltb_spec 1 (max - min)) as [Hd|Hd].
  2:{ apply wp_ret. cbn. split; [done|lia]. }
  pose proof (search_mid_between min max ltac:(lia) Hd) as Hmid.
  set (mid := search_mid min max) in *.
  destruct (u64_const mid bv Hw ltac:(lia)) as [Wc Ec].
  set (c := ulte bv (from_u64 mid (get_width bv))).
  assert (get_width c = 1) as W by (by apply (pred_width ulte _ _ _ ulte_law)).
  assert (forall m, eval m c = 1 <-> eval m bv <= mid) as Ev.
  { intros m. unfold c. rewrite (pred_eval ulte _ _ _ m ulte_law), Ec, b2z_1, Z.leb_le by done. done. }
  wp_step. wp_step. fold c. pose proof (restricted_push_assert s pushes _ s' c O R W) as R2.
  apply wp_bind. eapply wp_mono; [apply wp_sat|]. intros [r|e|p|] s2; [|done..].
  intros (Hs & Hsat & _).
  assert (r = true <-> feasible s (fun m => eval m bv <= mid)) as Hsat'.
  { rewrite Hsat. unfold satisfiable, feasible. destruct R2 as (_ & _ & _ & Mo). setoid_rewrite Mo.
    setoid_rewrite Ev. split; intros (m & H1 & H2); exists m; intuition lia. }
  destruct r.
  - apply wp_ret. split; [|lia]. split; [|split; [lia|split; [lia|split; [by apply Hsat'|done]]]].
    eapply restricted_same in R2; [|exact Hs]. destruct R2 as (? & ? & ? & Mo).
    do 3 (split; [done|]). intros m. rewrite Mo, Ev. intuition lia.
  - wp_step. apply wp_ret. split; [|lia]. split.
    + replace (pushes + 1 - 1) with pushes by lia. by eapply restricted_pop.
    + split; [lia|]. split; [lia|]. split; [done|]. intros Hfe. by apply Hsat' in Hfe.
Qed.

Lemma is_min_of_bounds s bv max :
  feasible s (fun m => eval m bv <= max) -> ~ feasible s (fun m => eval m bv <= max - 1) ->
  is_min s bv max.
Proof.
  intros (m & Hm & Hle) Hn. assert (forall m', models s m' -> max <= eval m' bv) as Hb.
  { intros m' Hm'. destruct (Z.le_gt_cases max (eval m' bv)); [done|]. destruct Hn. exists m'. split; [done|lia]. }
  split; [exists m; split; [done|]; specialize (Hb m Hm); lia|].
  intros v' (m' & Hm' & <-). auto.
Qed.

Lemma min_u64_spec s bv :
  solver_ok s -> get_width bv <= 64 ->
  wp (min_possible_solution_for_bv_as_u64 bv) s (returns (fun r s' =>
    same_solver s s' /\
    match r with Some v => is_min s bv v | None => ~ satisfiable s end)).
Proof.
  intros O Hw. pose proof (width_pos bv) as Wp. unfold min_possible_solution_for_bv_as_u64.
  rewrite (proj2 (Z.ltb_ge 64 _) Hw), all_ones_u64_val by lia.
  eapply returns_bind; [apply wp_sat|]. intros r s1 (Hs & Hr & _).
  destruct r; cbn [negb]; [|apply wp_ret; split; [done|]; rewrite <- Hr; done].
  destruct (proj1 Hr eq_refl) as [m0 Hm0].
  destruct (as_u64 bv) as [u|] eqn:Eu.
  { apply wp_ret. split; [done|]. pose proof (as_u64_law bv u Eu) as Hu.
    split; [by exists m0|]. intros v' (m' & _ & <-). by rewrite Hu. }
  eapply returns_bind; [apply wp_bvs_can_be_equal; [by bv_widths|by rewrite <- Hs]|].
  intros r s2 [Hs2 Hr2]. destruct r.
  - apply wp_ret. split; [by rewrite Hs|]. destruct (proj1 Hr2 eq_refl) as (m & Hm & Em).
    rewrite zero_eval in Em by done. split; [exists m; by rewrite Hs|].
    intros v' (m' & _ & <-). apply (eval_range m' bv).
  - eapply returns_bind.
    { eapply (wp_loopM _ (min_inv s bv) (fun '(min, max, _) => max - min)).
      - intros a s' HI. by apply wp_min_search.
      - pose proof (ones_val_range _ Wp). pose proof (pow2_double _ Wp). pose proof (pow2_pos (get_width bv - 1)).
        split; [|split; [unfold ones_val; lia|split; [lia|split]]].
        + split; [lia|]. destruct Hs as [Es Gs], Hs2 as [Es2 Gs2].
          split; [exists []; simpl; split; [congruence|lia]|]. split; [congruence|].
          intros m. transitivity (models s m); [unfold models; by rewrite Es2, Es|].
          pose proof (eval_range m bv). unfold ones_val. intuition lia.
        + exists m0. pose proof (eval_range m0 bv). unfold ones_val. split; [done|lia].
        + intros (m & Hm & Hle). cut (false = true); [done|]. apply Hr2. exists m.
          rewrite <- Hs. split; [done|]. rewrite zero_eval by done.
          pose proof (eval_range m bv). lia.
      - pose proof (pow2_le (get_width bv) 64 ltac:(lia)). unfold ones_val.
        change (2 ^ 65) with (2 * 2 ^ 64). lia. }
    intros [[min max] pushes] s3 ((R & Hmm & _ & Hf & Hnf) & Hd). cbn in Hd.
    wp_step. wp_step. rewrite (proj2 (Z.eqb_eq _ _) Hd). cbn. apply wp_ret.
    split; [by eapply restricted_pop_all|]. apply is_min_of_bounds; [done|].
    replace (max - 1) with min by lia. done.
Qed.

(** ** Extrema of vectors of any width, as digit strings

    [round_inv]: the low [get_width bv] bits of [bv0] are left, the digits
    written so far are those of [hi], and the constraints now fix the high
    bits to [hi]. *)
Definition round_inv s (ls : list (list BV)) bv0 (best : Z -> Z -> Prop) :
    BV * string -> SolverRef -> Prop :=
  fun '(bv, retval) s' =>
    let k := get_width bv in
    k <= get_width bv0 /\ (exists l, assertions s' = l :: ls) /\ model_gen s' = model_gen s /\
    (satisfiable s -> satisfiable s') /\
    (forall m, eval m bv = eval m bv0 mod 2 ^ k) /\
    exists hi, retval = bin_str (get_width bv0 - k) hi /\
      (forall m, models s' m <-> models s m /\ eval m bv0 / 2 ^ k = hi) /\
      (forall m, models s m -> best (eval m bv0 / 2 ^ k) hi).

Definition is_best s bv (best : Z -> Z -> Prop) v : Prop :=
  possible s bv v /\ forall v', possible s bv v' -> best v' v.

(** An order that compares high parts first. *)
Definition lexicographic (best : Z -> Z -> Prop) : Prop :=
  (forall a, best a a) /\
  forall k a b, 0 <= k -> best (a / 2 ^ k) (b / 2 ^ k) ->
    (a / 2 ^ k = b / 2 ^ k -> best (a mod 2 ^ k) (b mod 2 ^ k)) -> best a b.

Lemma lexicographic_le : lexicographic Z.le.
Proof.
  split; [lia|]. intros k a b Hk Hd Hm. pose proof (pow2_pos k Hk).
  pose proof (Z.div_mod a (2 ^ k) ltac:(lia)). pose proof (Z.div_mod b (2 ^ k) ltac:(lia)).
  pose proof (Z.mod_pos_bound a (2 ^ k)). pose proof (Z.mod_pos_bound b (2 ^ k)).
  destruct (Z.eq_dec (a / 2 ^ k) (b / 2 ^ k)) as [E|E]; [specialize (Hm E)|]; nia.
Qed.

Lemma lexicographic_ge : lexicographic Z.ge.
Proof.
  destruct lexicographic_le as [Hr Hl]. split; [lia|]. intros k a b Hk Hd Hm.
  apply Z.le_ge, (Hl k); [done|lia|]. intros E. apply Z.ge_le, Hm. done.
Qed.

(** The next 64 bits of a value below its bits from [k] up. *)
Lemma high_bits_split x k : 64 < k ->
  x / 2 ^ (k - 64) = concat_val (x / 2 ^ k) 64 (slice_val (x mod 2 ^ k) (k - 1) (k - 64)).
Proof.
  intros Hk. unfold concat_val, slice_val. replace (k - 1 - (k - 64) + 1) with 64 by lia.
  pose proof (pow2_pos (k - 64) ltac:(lia)) as Hp. pose proof (pow2_pos 64 ltac:(lia)) as Hq.
  assert (2 ^ k = 2 ^ (k - 64) * 2 ^ 64) as -> by (rewrite <- pow2_split by lia; f_equal; lia).
  set (P := 2 ^ (k - 64)) in *. set (Q := 2 ^ 64) in *.
  rewrite <- Z.div_div, Z.rem_mul_r by lia.
  pose proof (Z.mod_pos_bound x P Hp).
  rewrite (Z.mul_comm P), Z.div_add, (Z.div_small (x mod P)), Z.add_0_l, Z.mod_mod by lia.
  rewrite (Z.mul_comm _ Q). apply Z.div_mod. lia.
Qed.

Lemma concat_div a k b : 0 <= k -> 0 <= b < 2 ^ k -> concat_val a k b / 2 ^ k = a.
Proof.
  intros Hk Hb. unfold concat_val. rewrite Z.add_comm, Z.div_add, Z.div_small by lia. lia.
Qed.

Lemma concat_mod a k b : 0 <= k -> 0 <= b < 2 ^ k -> concat_val a k b mod 2 ^ k = b.
Proof.
  intros Hk Hb. unfold concat_val. rewrite Z.add_comm, Z.mod_add, Z.mod_small by lia. lia.
Qed.

Section binary_strings.
Variable extremum : BV -> M SolverRef (option Z).
Variable best : Z -> Z -> Prop.
Hypothesis best_lex : lexicographic best.
Hypothesis extremum_spec : forall s bv, solver_ok s -> get_width bv <= 64 ->
  wp (extremum bv) s (returns (fun r s' =>
    same_solver s s' /\ match r with Some v => is_best s bv best v | None => ~ satisfiable s end)).

(** How the loop ends: the digits of the best value, with the high bits of
    [bv0] (those above its last 64-bit chunk) fixed to that value's. *)
Definition rounds_post s ls bv0 (r : option string) s' : Prop :=
  (exists l, assertions s' = l :: ls) /\ model_gen s' = model_gen s /\
  match r with
  | None => ~ satisfiable s
  | Some str => exists v k, str = bin_str (get_width bv0) v /\ is_best s bv0 best v /\
      0 < k <= 64 /\ k <= get_width bv0 /\
      (forall m, models s' m <-> models s m /\ eval m bv0 / 2 ^ k = v / 2 ^ k)
  end.

(** Low part found: the value is complete. *)
Lemma best_complete s s' bv0 bv k hi v :
  0 < k -> (forall m, eval m bv = eval m bv0 mod 2 ^ k) -> get_width bv = k ->
  (forall m, models s' m <-> models s m /\ eval m bv0 / 2 ^ k = hi) ->
  (forall m, models s m -> best (eval m bv0 / 2 ^ k) hi) ->
  is_best s' bv best v -> is_best s bv0 best (concat_val hi k v).
Proof.
  intros Hk Hev W Mo Hhi [(m & Hm & <-) Hbest]. pose proof (eval_range m bv) as R. rewrite W in R.
  apply Mo in Hm as [Hm Hq]. split.
  - exists m. split; [done|]. unfold concat_val. rewrite <- Hq, Hev, Z.mul_comm.
    apply Z.div_mod. pose proof (pow2_pos k). lia.
  - intros v' (m' & Hm' & <-). apply (proj2 best_lex k); [lia| |]; rewrite concat_div by lia; [auto|].
    rewrite concat_mod by lia. intros E. rewrite <- Hev. apply Hbest. exists m'. split; [|done].
    by apply Mo.
Qed.

Lemma wp_last_round s ls bv0 bv retval s' :
  get_width bv <= 64 -> round_inv s ls bv0 best (bv, retval) s' ->
  wp (binary_str_round extremum (bv, retval)) s' (returns (fun r s2 =>
    match r with inl _ => False | inr b => rounds_post s ls bv0 b s2 end)).
Proof.
  intros Hw (Hk & (l & El) & G & Hsat & Hev & hi & -> & Mo & Hhi). cbn [binary_str_round].
  pose proof (width_pos bv) as Wp. rewrite (proj2 (Z.leb_le _ _) Hw).
  assert (solver_ok s') as O by (unfold solver_ok; by rewrite El).
  eapply returns_bind; [by apply extremum_spec|]. intros [v|] s2 [[E2 G2] Hv]; apply wp_ret.
  - split; [exists l; by rewrite E2|]. split; [congruence|]. exists (concat_val hi (get_width bv) v), (get_width bv).
    pose proof (possible_range _ _ _ (proj1 Hv)) as R.
    split; [|split; [by eapply best_complete|split; [lia|split; [done|]]]].
    + rewrite format_bin_fits, bin_str_app by lia. f_equal. lia.
    + intros m. rewrite concat_div by lia. rewrite <- Mo. unfold models. by rewrite E2.
  - split; [exists l; by rewrite E2|]. split; [congruence|]. intros Hs. by apply Hv, Hsat.
Qed.

Lemma wp_next_round s ls bv0 bv retval s' :
  64 < get_width bv -> round_inv s ls bv0 best (bv, retval) s' ->
  wp (binary_str_round extremum (bv, retval)) s' (returns (fun r s2 =>
    match r with
    | inl a => round_inv s ls bv0 best a s2 /\ get_width (fst a) = get_width bv - 64
    | inr b => rounds_post s ls bv0 b s2
    end)).
Proof.
  intros Hw (Hk & (l & El) & G & Hsat & Hev & hi & -> & Mo & Hhi). cbn [binary_str_round].
  rewrite (proj2 (Z.leb_gt _ _) Hw). set (k := get_width bv) in *.
  replace (k - 1 - 63) with (k - 64) by lia. replace (k - 1 - 64) with (k - 65) by lia.
  set (hb := slice bv (k - 1) (k - 64)). set (lb := slice bv (k - 65) 0).
  assert (get_width hb = 64) as Wh by (unfold hb; rewrite slice_width; lia).
  assert (get_width lb = k - 64) as Wl by (unfold lb; rewrite slice_width; lia).
  assert (forall m, eval m hb = slice_val (eval m bv0 mod 2 ^ k) (k - 1) (k - 64)) as Eh.
  { intros m. unfold hb. rewrite slice_eval, Hev by lia. done. }
  rewrite Wh. wp_step.
  assert (solver_ok s') as O by (unfold solver_ok; by rewrite El).
  eapply returns_bind; [apply extremum_spec; [done|lia]|].
  intros [v|] s2 [[E2 G2] Hv].
  2:{ apply wp_ret. split; [exists l; by rewrite E2|]. split; [congruence|]. intros Hs. by apply Hv, Hsat. }
  pose proof (possible_range _ _ _ (proj1 Hv)) as R. rewrite Wh in R.
  destruct (from_u64_law v 64 ltac:(lia) R ltac:(lia)) as [Wc Ec].
  set (c := bv_eq hb (from_u64 v 64)).
  assert (get_width c = 1) as W by (apply (pred_width bv_eq _ _ _ bv_eq_law); congruence).
  assert (forall m, eval m c = 1 <-> eval m hb = v) as Evc.
  { intros m. unfold c. rewrite (pred_eval bv_eq _ _ _ m bv_eq_law), Ec, b2z_1, Z.eqb_eq by congruence. done. }
  wp_step. apply wp_ret. destruct (btor_assert_law c l ls s2 W (eq_trans E2 El)) as [L1 L2].
  assert (forall m, models (btor_assert c s2) m <-> eval m hb = v /\ models s' m) as Mo2.
  { intros m. rewrite models_assert, Evc; [|done|unfold solver_ok; by rewrite E2, El].
    unfold models. by rewrite E2. }
  split; [|done]. split; [lia|]. split; [by eexists|]. split; [congruence|]. split; [|split].
  - intros Hs. destruct Hv as [(m & Hm & Em) _]. exists m. by apply Mo2.
  - intros m. unfold lb at 1. rewrite slice_eval, Hev, Wl by lia. unfold slice_val.
    rewrite Z.div_1_r. replace (k - 65 - 0 + 1) with (k - 64) by lia.
    assert (2 ^ k = 2 ^ (k - 64) * 2 ^ 64) as -> by (rewrite <- pow2_split by lia; f_equal; lia).
    pose proof (pow2_pos (k - 64) ltac:(lia)). rewrite Z.rem_mul_r by lia.
    rewrite Z.mul_comm, Z.mod_add, Z.mod_mod by lia. done.
  - exists (concat_val hi 64 v). rewrite Wl. split; [|split].
    + rewrite format_bin_fits, bin_str_app by lia. f_equal. lia.
    + intros m. rewrite Mo2, Mo, high_bits_split, <- Eh by lia.
      pose proof (eval_range m hb) as Rm. rewrite Wh in Rm. split.
      * intros (-> & Hm & ->). done.
      * intros [Hm E]. assert (E1 := f_equal (fun x => x / 2 ^ 64) E).
        assert (E3 := f_equal (fun x => x mod 2 ^ 64) E). cbn beta in E1, E3.
        rewrite !concat_div in E1 by lia. rewrite !concat_mod in E3 by lia. done.
    + intros m Hm. rewrite high_bits_split, <- Eh by lia.
      pose proof (eval_range m hb) as Rm. rewrite Wh in Rm.
      apply (proj2 best_lex 64); [lia| |]; rewrite !concat_div by lia; [auto|].
      rewrite !concat_mod by lia. intros E. apply (proj2 Hv). exists m. split; [|done]. by apply Mo.
Qed.

Lemma wp_binary_str_rounds s ls bv0 s' :
  get_width bv0 < 2 ^ 32 -> (exists l, assertions s' = l :: ls) -> model_gen s' = model_gen s ->
  (forall m, models s' m <-> models s m) ->
  wp (loopM (binary_str_round extremum) (bv0, ""%string)) s' (returns (rounds_post s ls bv0)).
Proof.
  intros Hw E G Mo. eapply (wp_loopM _ (round_inv s ls bv0 best) (fun a => get_width (fst a))).
  - intros [bv retval] s1 HI. pose proof (width_pos bv).
    destruct (Z.le_gt_cases (get_width bv) 64).
    + eapply wp_mono; [by eapply wp_last_round|]. intros [[?|?]|?|?|] s2; simpl; tauto.
    + eapply wp_mono; [by eapply wp_next_round|]. intros [[?|?]|?|?|] s2; simpl; intuition lia.
  - split; [done|]. split; [done|]. split; [done|]. split.
    { intros [m Hm]. exists m. by apply Mo. }
    assert (forall m, 0 <= eval m bv0 < 2 ^ get_width bv0) as R by (intros; apply eval_range).
    split; [intros m; by rewrite Z.mod_small|]. exists 0. split; [|split].
    + by rewrite Z.sub_diag.
    + intros m. rewrite Mo, Z.div_small by done. intuition.
    + intros m Hm. rewrite Z.div_small by done. apply best_lex.
  - cbn [fst]. change (2 ^ 65) with (2 ^ 33 * 2 ^ 32). lia.
Qed.

End binary_strings.

End extrema.

(** ** Correctness of the queries *)

Section theorems.
Context `{Laws : BackendLaws}.

(** [sat_with_extra_constraints] answers whether some model of the current
    constraints satisfies all of the extra ones, and leaves the solver as it
    was. *)
Theorem sat_with_extra_constraints_correct s bs :
  solver_ok s -> Forall (fun b => get_width b = 1) bs ->
  wp (sat_with_extra_constraints bs) s (returns (fun b s' =>
    same_solver s s' /\
    (b = true <-> feasible s (fun m => Forall (fun c => eval m c = 1) bs)))).
Proof. intros. by apply wp_sat_with_extra_constraints. Qed.

Lemma must_be_equal_spec s a b :
  solver_ok s -> get_width a = get_width b ->
  wp (bvs_must_be_equal a b) s (returns (fun r s' =>
    same_solver s s' /\ (r = true <-> forall m, models s m -> eval m a = eval m b))).
Proof.
  intros O W. unfold bvs_must_be_equal. eapply returns_bind.
  { apply wp_sat_with_extra_constraints; [|done]. constructor; [by bv_widths|constructor]. }
  intros r s' [Hs Hr].
  assert (r = true <-> exists m, models s m /\ eval m a <> eval m b) as Hr'.
  { rewrite Hr. unfold feasible. setoid_rewrite Forall_singleton.
    split; intros (m & Hm & E); exists m; (split; [done|]); revert E; bv_evals;
      rewrite b2z_1, negb_true_iff, Z.eqb_neq; done. }
  destruct r; apply wp_ret; (split; [done|]).
  - split; [done|]. intros Heq. destruct (proj1 Hr' eq_refl) as (m & Hm & Hne). by destruct (Hne (Heq m Hm)).
  - split; [|done]. intros _ m Hm. destruct (Z.eq_dec (eval m a) (eval m b)) as [|Hne]; [done|].
    cut (false = true); [done|]. apply Hr'. eauto.
Qed.

(** [bvs_must_be_equal] is true exactly when the two terms agree in every
    model of the constraints (so also when there is none), and
    [bvs_can_be_equal] exactly when they agree in some model; neither changes
    the constraints. *)
Theorem bvs_equality_queries_correct s a b :
  solver_ok s -> get_width a = get_width b ->
  wp (bvs_must_be_equal a b) s (returns (fun r s' =>
    same_solver s s' /\ (r = true <-> forall m, models s m -> eval m a = eval m b))) /\
  wp (bvs_can_be_equal a b) s (returns (fun r s' =>
    same_solver s s' /\ (r = true <-> feasible s (fun m => eval m a = eval m b)))).
Proof. intros. split; [by apply must_be_equal_spec|by apply wp_bvs_can_be_equal]. Qed.

(** C19: on a vector of at most 64 bits the binary search returns the greatest
    possible value, [None] exactly when the constraints are unsatisfiable, it
    terminates, its final assertion holds and every level it pushed is popped. *)
Theorem max_possible_solution_correct s bv :
  solver_ok s -> get_width bv <= 64 ->
  wp (max_possible_solution_for_bv_as_u64 bv) s (returns (fun r s' =>
    same_solver s s' /\
    match r with Some v => is_max s bv v | None => ~ satisfiable s end)).
Proof. apply max_u64_spec. Qed.

(** The same for the least possible value. *)
Theorem min_possible_solution_correct s bv :
  solver_ok s -> get_width bv <= 64 ->
  wp (min_possible_solution_for_bv_as_u64 bv) s (returns (fun r s' =>
    same_solver s s' /\
    match r with Some v => is_min s bv v | None => ~ satisfiable s end)).
Proof. apply min_u64_spec. Qed.

(** For a vector of any width, the chunk-wise search returns the digits of
    the greatest possible value and restores the solver; when there is no
    solution it returns [None] but leaves one assertion level behind. *)
Theorem max_binary_str_correct s bv :
  solver_ok s -> get_width bv < 2 ^ 32 ->
  wp (max_possible_solution_for_bv_as_binary_str bv) s (returns (fun r s' =>
    match r with
    | Some str => same_solver s s' /\ exists v, str = bin_str (get_width bv) v /\ is_max s bv v
    | None => ~ satisfiable s /\ exists l, assertions s' = l :: assertions s
    end)).
Proof.
  intros O Hw. unfold max_possible_solution_for_bv_as_binary_str. wp_step.
  destruct (btor_push_law 1 s ltac:(lia)) as [L1 L2]. simpl in L1.
  eapply returns_bind.
  { apply (wp_binary_str_rounds _ Z.le lexicographic_le max_u64_spec s (assertions s)); [done| |done|].
    - by eexists.
    - intros m. unfold models. by rewrite L1. }
  intros [str|] s1 ([l El] & G & HP).
  - wp_step. destruct HP as (v & k & -> & Hb & _). wp_step.
    pose proof (width_pos bv). rewrite bin_str_length, Z.eqb_refl by lia. apply wp_ret.
    split; [by eapply push_pop_same|]. by exists v.
  - apply wp_ret. split; [done|]. by exists l.
Qed.

(** [min_possible_solution_for_bv_as_binary_str] returns the digits of the
    least possible value, but it pushes no level: on a vector of more than 64
    bits it leaves the solver constrained to the models whose leading bits are
    those of the minimum. *)
Theorem min_binary_str_constrains_solver s bv :
  solver_ok s -> get_width bv < 2 ^ 32 ->
  wp (min_possible_solution_for_bv_as_binary_str bv) s (returns (fun r s' =>
    match r with
    | Some str => exists v k, str = bin_str (get_width bv) v /\ is_min s bv v /\
        0 < k <= 64 /\ k <= get_width bv /\
        (forall m, models s' m <-> models s m /\ eval m bv / 2 ^ k = v / 2 ^ k)
    | None => ~ satisfiable s
    end)).
Proof.
  intros O Hw. unfold min_possible_solution_for_bv_as_binary_str. unfold solver_ok in O.
  destruct (assertions s) as [|l0 ls] eqn:E0; [done|]. eapply returns_bind.
  { apply (wp_binary_str_rounds _ Z.ge lexicographic_ge) with (s := s) (ls := ls); [|done|by exists l0|done|done].
    intros s1 bv1 O1 W1. eapply returns_mono; [by apply min_u64_spec|].
    intros [v|] s2 [Hs Hv]; (split; [done|]); [|done].
    split; [apply Hv|]. intros v' Hv'. by apply Z.le_ge, Hv. }
  intros [str|] s1 ([l El] & G & HP).
  - destruct HP as (v & k & -> & [Hp Hb] & Hk & Hk' & Mo). wp_step.
    pose proof (width_pos bv). rewrite bin_str_length, Z.eqb_refl by lia. apply wp_ret.
    exists v, k. split; [done|]. split; [|done]. split; [done|].
    intros v' Hv'. by apply Z.ge_le, Hb.
  - apply wp_ret. done.
Qed.

(** The documentation promises an empty set when there is no solution; a
    constant is reported as a solution all the same. *)
Lemma possible_solutions_constant s bv str n :
  n <> 0 -> as_binary_str bv = Some str ->
  wp (get_possible_solutions_for_bv bv n) s (fun r _ => r = Ok (Exactly {[ from_01x_str str ]})).
Proof.
  intros Hn E. unfold get_possible_solutions_for_bv.
  rewrite (proj2 (Z.eqb_neq _ _) Hn), E. wp_step. wp_step. by apply wp_ret.
Qed.

(** under unsatisfiable constraints a constant bit-vector is still reported
    as having exactly its one value, where the documentation promises an empty
    set. *)
Theorem possible_solutions_unsat_constant s bv str n :
  n <> 0 -> as_binary_str bv = Some str -> ~ satisfiable s ->
  wp (get_possible_solutions_for_bv bv n) s (fun r _ =>
    exists ps, r = Ok ps /\ count ps = ExactlyCount 1 /\ ~ describes s bv n ps).
Proof.
  intros Hn E Hu. eapply wp_mono; [by eapply possible_solutions_constant|].
  intros r s' ->. eexists. split; [done|]. split; [cbn; by rewrite size_singleton|].
  intros [_ D]. destruct (proj1 (D (from_01x_str str))) as (v & (m & Hm & _) & _); [set_solver +|].
  apply Hu. by exists m.
Qed.

End theorems.

(** ** Witnesses *)

Module Witnesses.
Import ToyBackend Toy.

(** An unconstrained solver, and one asserting that the variable is above 9. *)
Definition s0 : SolverRef := snd (bv_new 8 None solver_new).
Definition x8 : BV := fst (bv_new 8 None solver_new).
Definition s9 : SolverRef := btor_assert (ugt x8 (from_u64 9 8)) s0.
Definition x70 : BV := bv_concat x8 (from_u64 3 62).

Example enumeration_runs :
  fst (get_possible_solutions_for_bv x8 2 s9) =
  Ok (AtLeast (list_to_set ["00001111"; "00001110"; "00001101"]%string)).
Proof. vm_compute. reflexivity. Qed.

Example extrema_run :
  fst (max_possible_solution_for_bv_as_u64 x8 s9) = Ok (Some 15) /\
  fst (min_possible_solution_for_bv_as_u64 x8 s9) = Ok (Some 10).
Proof. vm_compute. auto. Qed.

Lemma sat_with_extra_constraints_witness :
  wp (sat_with_extra_constraints [ult x8 (from_u64 3 8)]) s9 (returns (fun b s' =>
    same_solver s9 s' /\
    (b = true <-> feasible s9 (fun m => Forall (fun c => eval m c = 1) [ult x8 (from_u64 3 8)])))).
Proof.
  apply (sat_with_extra_constraints_correct s9); [done|]. constructor; [reflexivity|constructor].
Defined.

Lemma bvs_equality_queries_witness :
  wp (bvs_must_be_equal x8 (from_u64 12 8)) s9 (returns (fun r s' =>
    same_solver s9 s' /\ (r = true <-> forall m, models s9 m -> eval m x8 = eval m (from_u64 12 8)))).
Proof. apply (bvs_equality_queries_correct s9 x8 (from_u64 12 8)); [done|reflexivity]. Defined.

Lemma get_possible_solutions_witness :
  wp (get_possible_solutions_for_bv x8 2) s9 (returns (fun ps s' =>
    same_solver s9 s' /\ describes s9 x8 2 ps)).
Proof.
  apply (get_possible_solutions_correct s9 x8 2); [done|reflexivity|lia|by right; left].
Defined.

Lemma max_possible_solution_witness :
  wp (max_possible_solution_for_bv_as_u64 x8) s9 (returns (fun r s' =>
    same_solver s9 s' /\ match r with Some v => is_max s9 x8 v | None => ~ satisfiable s9 end)).
Proof. apply (max_possible_solution_correct s9 x8); [done|by vm_compute]. Defined.

Lemma min_possible_solution_witness :
  wp (min_possible_solution_for_bv_as_u64 x8) s9 (returns (fun r s' =>
    same_solver s9 s' /\ match r with Some v => is_min s9 x8 v | None => ~ satisfiable s9 end)).
Proof. apply (min_possible_solution_correct s9 x8); [done|by vm_compute]. Defined.

Lemma max_binary_str_witness :
  wp (max_possible_solution_for_bv_as_binary_str x70) s9 (returns (fun r s' =>
    match r with
    | Some str => same_solver s9 s' /\ exists v, str = bin_str 70 v /\ is_max s9 x70 v
    | None => ~ satisfiable s9 /\ exists l, assertions s' = l :: assertions s9
    end)).
Proof. apply (max_binary_str_correct s9 x70); [done|by vm_compute]. Defined.

Lemma min_binary_str_witness :
  wp (min_possible_solution_for_bv_as_binary_str x70) s9 (returns (fun r s' =>
    match r with
    | Some str => exists v k, str = bin_str 70 v /\ is_min s9 x70 v /\
        0 < k <= 64 /\ k <= 70 /\
        (forall m, models s' m <-> models s9 m /\ eval m x70 / 2 ^ k = v / 2 ^ k)
    | None => ~ satisfiable s9
    end)).
Proof. apply (min_binary_str_constrains_solver s9 x70); [done|by vm_compute]. Defined.

Lemma possible_solutions_unsat_constant_witness :
  let s := btor_assert (from_bool false) solver_new in
  wp (get_possible_solutions_for_bv (from_u64 5 8) 3) s (fun r _ =>
    exists ps, r = Ok ps /\ count ps = ExactlyCount 1 /\ ~ describes s (from_u64 5 8) 3 ps).
Proof.
  cbn zeta. apply (possible_solutions_unsat_constant _ _ "00000101"%string); [done|reflexivity|].
  intros [m Hm]. by apply Forall_inv in Hm.
Defined.

End Witnesses.
