(* ===== verification/MemorySpec.v ===== *)
(** * MemorySpec: what a memory promises

    A memory is a map from 64-bit byte addresses to bytes.  Both
    implementations (src/src/memory.rs with 64-bit cells, src/src/simple_memory.rs
    with 8-bit cells) are described by the same abstract state: a function from
    bit addresses to bits, of period [2 ^ 67] because addresses wrap around.
    [reads] and [writes] are the two operations on that state; the class
    [MemoryLaws] is the interface the rest of the engine relies on. *)
From S2P Require Import Prelude Bits Backend SolverUtils.

Open Scope Z_scope.

(** Number of bits in the address space. *)
Definition space : Z := 2 ^ 67.

Section bit_memory.

(** A bit memory does not distinguish addresses that differ by the size of
    the space. *)
Definition periodic (f : Z -> bool) : Prop := forall p, f p = f (p mod space).

(** [v] is the [size]-bit value stored at bit address [start] onwards. *)
Definition reads (f : Z -> bool) (start size v : Z) : Prop :=
  0 <= v < 2 ^ size /\ forall j, 0 <= j < size -> Z.testbit v j = f (start + j).

(** [g] is [f] with the [size] bits from [start] on replaced by those of [v]. *)
Definition writes (f g : Z -> bool) (start size v : Z) : Prop :=
  forall p, g p = if (p - start) mod space <? size
                  then Z.testbit v ((p - start) mod space) else f p.

Lemma space_pos : 0 < space.
Proof. done. Qed.

Lemma periodic_eq f p q : periodic f -> p mod space = q mod space -> f p = f q.
Proof. intros P E. by rewrite (P p), (P q), E. Qed.

Lemma reads_unique f start size v v' : 0 <= size ->
  reads f start size v -> reads f start size v' -> v = v'.
Proof.
  intros Hs [R H] [R' H']. apply (bits_ext size); try done. intros j Hj. by rewrite H, H'.
Qed.

Lemma reads_concat f start s1 s2 v1 v2 :
  0 <= s1 -> 0 <= s2 -> reads f start s1 v1 -> reads f (start + s1) s2 v2 ->
  reads f start (s1 + s2) (concat_val v2 s1 v1).
Proof.
  intros H1 H2 [R1 B1] [R2 B2]. split.
  - rewrite Z.add_comm. by apply concat_val_range.
  - intros j Hj. rewrite testbit_concat by lia. destruct (Z.ltb_spec j s1).
    + apply B1. lia.
    + rewrite B2 by lia. f_equal. lia.
Qed.

Lemma reads_congr f start start' size v : periodic f ->
  start mod space = start' mod space -> reads f start size v -> reads f start' size v.
Proof.
  intros P E [R B]. split; [done|]. intros j Hj. rewrite B by done. apply periodic_eq; [done|].
  rewrite (Z.add_mod start), (Z.add_mod start'), E by done. done.
Qed.

Lemma writes_congr f g start start' size v :
  start mod space = start' mod space -> writes f g start size v -> writes f g start' size v.
Proof.
  intros E W p. rewrite W. replace ((p - start) mod space) with ((p - start') mod space); [done|].
  rewrite (Zminus_mod p start), (Zminus_mod p start'), E. done.
Qed.

Lemma writes_periodic f g start size v : periodic f -> writes f g start size v -> periodic g.
Proof.
  intros P W p. rewrite (W p), (W (p mod space)), Zminus_mod_idemp_l. case_match; [done|apply P].
Qed.

(** Offset of [p] from [start + k], in terms of its offset from [start]. *)
Lemma offset_shift p start k : 0 <= k < space ->
  (p - (start + k)) mod space =
  if k <=? (p - start) mod space then (p - start) mod space - k
  else (p - start) mod space - k + space.
Proof.
  intros Hk. pose proof (Z.mod_pos_bound (p - start) space eq_refl) as R.
  replace (p - (start + k)) with ((p - start) - k) by lia.
  rewrite <- Zminus_mod_idemp_l. set (d := (p - start) mod space) in *.
  destruct (Z.leb_spec k d); [apply Z.mod_small; lia|].
  rewrite <- (Z.mod_add _ 1) by done. apply Z.mod_small. lia.
Qed.

(** Two adjacent writes are one write of the concatenation. *)
Lemma writes_concat f g h start s1 s2 v1 v2 v :
  0 <= s1 -> 0 <= s2 -> s1 + s2 <= space ->
  (forall j, 0 <= j < s1 -> Z.testbit v1 j = Z.testbit v j) ->
  (forall j, 0 <= j < s2 -> Z.testbit v2 j = Z.testbit v (j + s1)) ->
  writes f g start s1 v1 -> writes g h (start + s1) s2 v2 -> writes f h start (s1 + s2) v.
Proof.
  intros H1 H2 Hs E1 E2 W1 W2 p. rewrite W2, W1.
  pose proof (Z.mod_pos_bound (p - start) space eq_refl) as R.
  destruct (Z.eq_dec s1 space) as [->|Hne].
  { assert (s2 = 0) as -> by lia. pose proof (Z.mod_pos_bound (p - (start + space)) space eq_refl).
    destruct (Z.ltb_spec ((p - (start + space)) mod space) 0); [lia|]. rewrite Z.add_0_r.
    destruct (Z.ltb_spec ((p - start) mod space) space); [apply E1; lia|done]. }
  rewrite offset_shift by lia. set (d := (p - start) mod space) in *.
  destruct (Z.leb_spec s1 d).
  - destruct (Z.ltb_spec (d - s1) s2), (Z.ltb_spec d (s1 + s2)), (Z.ltb_spec d s1); try lia; [|done].
    rewrite E2 by lia. f_equal. lia.
  - destruct (Z.ltb_spec (d - s1 + space) s2), (Z.ltb_spec d (s1 + s2)), (Z.ltb_spec d s1); try lia.
    apply E1. lia.
Qed.

Lemma writes_nothing f start v : writes f f start 0 v.
Proof. intros p. pose proof (Z.mod_pos_bound (p - start) space eq_refl). destruct (Z.ltb_spec ((p - start) mod space) 0); [lia|done]. Qed.

(** Reading back what was just written. *)
Lemma reads_after_write f g start size v :
  0 <= size <= space -> 0 <= v < 2 ^ size -> writes f g start size v -> reads g start size v.
Proof.
  intros Hs Hv W. split; [done|]. intros j Hj. rewrite W. replace (start + j - start) with j by lia.
  rewrite Z.mod_small by lia. by rewrite (proj2 (Z.ltb_lt _ _)) by lia.
Qed.

(** The bit ranges of two accesses have no bit in common. *)
Definition disjoint_ranges (a n b k : Z) : Prop :=
  forall i j, 0 <= i < n -> 0 <= j < k -> (a + i) mod space <> (b + j) mod space.

(** A write leaves every disjoint range as it was. *)
Lemma reads_frame f g start size v a n x :
  size <= space -> disjoint_ranges start size a n ->
  writes f g start size v -> reads f a n x -> reads g a n x.
Proof.
  intros Hs D W [R B]. split; [done|]. intros j Hj. rewrite B by done. symmetry. rewrite W.
  pose proof (Z.mod_pos_bound (a + j - start) space eq_refl) as Rm.
  destruct (Z.ltb_spec ((a + j - start) mod space) size) as [Hlt|]; [|done].
  exfalso. apply (D ((a + j - start) mod space) j); [lia|done|].
  rewrite Z.add_comm, Zplus_mod_idemp_l. f_equal. lia.
Qed.

End bit_memory.

(** ** Bits of shifted and masked values *)

Section masks.

Lemma reads_part f start n v off size :
  0 <= off -> 0 < size -> off + size <= n -> reads f start n v ->
  reads f (start + off) size (slice_val (v / 2 ^ off) (size - 1) 0).
Proof.
  intros Ho Hs Hn [R B]. split.
  - pose proof (slice_val_range (v / 2 ^ off) (size - 1) 0 ltac:(lia)) as Rs.
    by replace (size - 1 - 0 + 1) with size in Rs by lia.
  - intros j Hj. rewrite testbit_slice, testbit_div_pow2 by lia.
    rewrite (proj2 (Z.leb_le _ _)) by lia. cbn [andb]. rewrite B by lia. f_equal. lia.
Qed.

(** Clearing a field of a [w]-bit value and or-ing another one in. *)
Lemma masked_bits w size off old v k :
  0 <= off -> 0 < size -> off + size <= w -> 0 <= old < 2 ^ w -> 0 <= v < 2 ^ size -> 0 <= k < w ->
  Z.testbit (Z.lor (Z.land old (ones_val w - (ones_val size * 2 ^ off) mod 2 ^ w))
                   ((v * 2 ^ off) mod 2 ^ w)) k =
  if (off <=? k) && (k <? off + size) then Z.testbit v (k - off) else Z.testbit old k.
Proof.
  intros Ho Hs Hw Hold Hv Hk.
  rewrite Z.lor_spec, Z.land_spec, testbit_not_val, !testbit_mod_pow2, !testbit_mul_pow2 by
    (try apply mod_pow2_range; lia).
  rewrite (proj2 (Z.ltb_lt k w)) by lia. cbn [andb].
  destruct (Z.leb_spec off k); cbn [andb negb].
  - rewrite testbit_ones_val by lia. destruct (Z.ltb_spec (k - off) size), (Z.ltb_spec k (off + size)); try lia.
    + cbn. by rewrite andb_false_r.
    + cbn. rewrite (testbit_high v size) by lia. by rewrite andb_true_r, orb_false_r.
  - by rewrite andb_true_r, orb_false_r.
Qed.

(** A write of [n] bits that changes only the [size] bits at [off]. *)
Lemma writes_narrow f g start n d off size v :
  periodic f -> 0 <= off -> 0 <= size -> off + size <= n -> n <= space ->
  (forall k, 0 <= k < n -> Z.testbit d k =
     if (off <=? k) && (k <? off + size) then Z.testbit v (k - off) else f (start + k)) ->
  writes f g start n d -> writes f g (start + off) size v.
Proof.
  intros P Ho Hs Hn Hsp Hd W p. rewrite W.
  pose proof (Z.mod_pos_bound (p - start) space eq_refl) as R.
  assert (off < space \/ size = 0) as [Hlt| ->] by lia.
  2:{ pose proof (Z.mod_pos_bound (p - (start + off)) space eq_refl).
      destruct (Z.ltb_spec ((p - (start + off)) mod space) 0); [lia|].
      destruct (Z.ltb_spec ((p - start) mod space) n); [|done]. rewrite Hd by lia.
      destruct (Z.leb_spec off ((p - start) mod space)), (Z.ltb_spec ((p - start) mod space) (off + 0));
        try lia; cbn; (apply periodic_eq; [done|]; rewrite Zplus_mod_idemp_r; f_equal; lia). }
  rewrite offset_shift by lia.
  assert (f (start + (p - start) mod space) = f p) as Hp.
  { apply periodic_eq; [done|]. rewrite Zplus_mod_idemp_r. f_equal. lia. }
  set (d' := (p - start) mod space) in *.
  destruct (Z.leb_spec off d').
  - destruct (Z.ltb_spec d' n), (Z.ltb_spec (d' - off) size); try lia; [| |done].
    + rewrite Hd by lia. rewrite (proj2 (Z.leb_le _ _)), (proj2 (Z.ltb_lt _ _)) by lia. done.
    + rewrite Hd by lia. rewrite (proj2 (Z.ltb_ge _ _)), andb_false_r by lia. done.
  - destruct (Z.ltb_spec (d' - off + space) size); [lia|].
    destruct (Z.ltb_spec d' n); [|done]. rewrite Hd by lia.
    rewrite (proj2 (Z.leb_gt _ _)) by lia. done.
Qed.

(** Byte addresses wrap at [2 ^ 64], bit addresses at [2 ^ 67]. *)
Lemma addr_wrap x : (8 * (x mod 2 ^ 64)) mod space = (8 * x) mod space.
Proof. unfold space. change (2 ^ 67) with (8 * 2 ^ 64). by rewrite !Z.mul_mod_distr_l, Z.mod_mod. Qed.

End masks.

(** ** Accesses made of consecutive parts *)

Section parts.
Context `{Laws : BackendLaws}.
Context {X : Type} (pos sz : X -> Z).

(** The items [xs] cover consecutive bit ranges from [k] on. *)
Fixpoint consecutive (k : Z) (xs : list X) : Prop :=
  match xs with
  | [] => True
  | x :: xs => pos x = k /\ 0 < sz x /\ consecutive (k + sz x) xs
  end.
Fixpoint total (xs : list X) : Z :=
  match xs with [] => 0 | x :: xs => sz x + total xs end.

Lemma total_nonneg k xs : consecutive k xs -> 0 <= total xs.
Proof. revert k. induction xs as [|x xs IH]; intros k; simpl; [lia|]. intros (_ & ? & ?%IH). lia. Qed.

Lemma concat_parts (f : Model -> Z -> bool) (start : Model -> Z) xs k parts acc n :
  0 < n -> consecutive k xs -> get_width acc = n ->
  (forall m, reads (f m) (start m + k - n) n (eval m acc)) ->
  Forall2 (fun x b => get_width b = sz x /\
                      forall m, reads (f m) (start m + pos x) (sz x) (eval m b)) xs parts ->
  get_width (foldl (fun a b => bv_concat b a) acc parts) = n + total xs /\
  forall m, reads (f m) (start m + k - n) (n + total xs)
              (eval m (foldl (fun a b => bv_concat b a) acc parts)).
Proof.
  intros Hn Hc Wa Ra Hp. revert k n acc Hn Hc Wa Ra.
  induction Hp as [|x b xs parts [Wb Rb] _ IH]; intros k n acc Hn Hc Wa Ra; cbn [foldl total consecutive] in *.
  - rewrite Z.add_0_r. done.
  - destruct Hc as (Hpos & Hsz & Hc). destruct (IH (k + sz x) (n + sz x) (bv_concat b acc)) as [IW IR].
    + lia.
    + done.
    + rewrite concat_width. lia.
    + intros m. rewrite concat_eval, Wa.
      replace (start m + (k + sz x) - (n + sz x)) with (start m + k - n) by lia.
      apply reads_concat; [lia|lia|done|]. replace (start m + k - n + n) with (start m + pos x) by lia. done.
    + rewrite Z.add_assoc. split; [done|]. intros m.
      replace (start m + k - n) with (start m + (k + sz x) - (n + sz x)) by lia. done.
Qed.

(** Reading consecutive parts and concatenating them reads the whole. *)
Lemma read_parts (f : Model -> Z -> bool) (start : Model -> Z) (F : X -> outcome BV) xs :
  xs <> [] -> consecutive 0 xs ->
  (forall x, x ∈ xs -> exists b, F x = Ok b /\ get_width b = sz x /\
     forall m, reads (f m) (start m + pos x) (sz x) (eval m b)) ->
  exists r, (parts ← mapO F xs; reduceO (fun a b => bv_concat b a) parts) = Ok r /\
    get_width r = total xs /\ forall m, reads (f m) (start m) (total xs) (eval m r).
Proof.
  intros Hne Hc HF.
  assert (exists parts, mapO F xs = Ok parts /\
    Forall2 (fun x b => get_width b = sz x /\
               forall m, reads (f m) (start m + pos x) (sz x) (eval m b)) xs parts) as (parts & E & HP).
  { clear Hc Hne. induction xs as [|x xs IH]; cbn [mapO].
    - exists []. done.
    - destruct (HF x) as (b & -> & Hb); [left|]. destruct IH as (parts & E & HP).
      { intros y Hy. apply HF. by right. }
      exists (b :: parts). cbn. rewrite E. split; [done|]. by constructor. }
  rewrite E. cbn. destruct HP as [|x b xs parts [Wb Rb] HP]; [done|].
  cbn in *. destruct Hc as (Hpos & Hsz & Hc).
  destruct (concat_parts f start xs (0 + sz x) parts b (sz x)) as [IW IR]; try done.
  { intros m. replace (start m + (0 + sz x) - sz x) with (start m + pos x) by lia. done. }
  eexists. split; [done|]. split; [done|]. intros m.
  replace (start m) with (start m + (0 + sz x) - sz x) by lia. done.
Qed.

(** Writing consecutive parts of a value writes the whole. *)
Lemma write_parts {T} (wf : T -> Prop) (f : T -> Model -> Z -> bool) (start v : Model -> Z)
    (F : T -> X -> outcome T) xs k t :
  wf t -> 0 <= k -> consecutive k xs -> k + total xs <= space ->
  (forall t x, wf t -> x ∈ xs -> exists t', F t x = Ok t' /\ wf t' /\
     forall m, writes (f t m) (f t' m) (start m + pos x) (sz x) (v m / 2 ^ pos x)) ->
  exists t', foldO F t xs = Ok t' /\ wf t' /\
    forall m, writes (f t m) (f t' m) (start m + k) (total xs) (v m / 2 ^ k).
Proof.
  revert k t. induction xs as [|x xs IH]; intros k t Ht Hk Hc Htot HF; cbn [foldO consecutive total] in *.
  - exists t. split; [done|]. split; [done|]. intros m. apply writes_nothing.
  - destruct Hc as (Hpos & Hsz & Hc). pose proof (total_nonneg _ _ Hc).
    destruct (HF t x) as (t1 & E1 & Ht1 & W1); [done|left|]. rewrite E1. cbn.
    destruct (IH (k + sz x) t1) as (t2 & E2 & Ht2 & W2); try done; try lia.
    { intros t' y Ht' Hy. apply HF; [done|by right]. }
    exists t2. split; [done|]. split; [done|]. intros m. rewrite Hpos in W1.
    eapply (writes_concat _ (f t1 m) _ _ (sz x) (total xs)); [lia|lia|lia|done| |done|].
    2:{ replace (start m + k + sz x) with (start m + (k + sz x)) by lia. apply W2. }
    intros j Hj. rewrite !testbit_div_pow2 by lia. f_equal. lia.
Qed.

End parts.

Section indices.

(** The byte numbers [0 .. n] cover [8 * n] bits. *)
Lemma range_consecutive n : 0 <= n ->
  consecutive (fun i => 8 * i) (fun _ => 8) 0 (range n) /\ total (fun _ : Z => 8) (range n) = 8 * n.
Proof.
  intros Hn. unfold range. assert (forall l k,
    consecutive (fun i => 8 * i) (fun _ => 8) (8 * Z.of_nat k) (Z.of_nat <$> seq k l) /\
    total (fun _ : Z => 8) (Z.of_nat <$> seq k l) = 8 * Z.of_nat l) as Hs.
  { induction l as [|l IH]; intros k; cbn [seq fmap list_fmap consecutive total]; [done|].
    destruct (IH (S k)) as [H1 H2]. split; [|lia]. split; [done|]. split; [lia|].
    replace (8 * Z.of_nat k + 8) with (8 * Z.of_nat (S k)) by lia. done. }
  destruct (Hs (Z.to_nat n) 0%nat) as [H1 H2]. split; [done|]. lia.
Qed.

Lemma range_elem n i : i ∈ range n -> 0 <= i < n.
Proof.
  unfold range. intros (k & -> & Hk)%list_elem_of_fmap. apply elem_of_seq in Hk. lia.
Qed.

End indices.

(** ** The interface

    [trait Memory] of src/src/backend.rs.  The solver a memory belongs to is
    the state of the computation. *)

Class MemoryOps `{BackendOps} : Type := {
  Memory : Type;
  new_uninitialized : bool -> option string -> SolverRef -> Memory * SolverRef;
  new_zero_initialized : bool -> option string -> Memory;
  mem_read : Memory -> BV -> Z -> M SolverRef BV;
  mem_write : Memory -> BV -> BV -> M SolverRef Memory;
  mem_change_solver : Memory -> SolverRef -> outcome Memory
}.

Section null.
Context `{Ops : BackendOps}.

(** [if self.null_detection && bvs_can_be_equal(addr, 0)? { return Err(NullPointerDereference) }] *)
Definition null_check (detect : bool) (addr : BV) : M SolverRef unit :=
  if detect then
    r ← bvs_can_be_equal addr (bv_zero (get_width addr));
    if (r : bool) then err NullPointerDereference else mret tt
  else mret tt.

End null.

(** Sizes both implementations handle at every address. *)
Definition byte_size (bits : Z) : Prop := 0 < bits < 2 ^ 32 /\ bits mod 8 = 0.
Definition read_size (bits : Z) : Prop := 0 < bits < 2 ^ 32 /\ (bits < 8 \/ bits mod 8 = 0).

(** The outcome of an access: [Q], or the null check fired (which it only does
    when it is enabled and the address can be zero), or a query failed. *)
Definition access `{BVSemantics} {A} (null_detection : bool) (s : SolverRef) (addr : BV)
    (Q : A -> Prop) (r : outcome A) (s' : SolverRef) : Prop :=
  match r with
  | Ok a => same_solver s s' /\ (null_detection = true -> ~ possible s addr 0) /\ Q a
  | Err e => query_failed e \/
             e = NullPointerDereference /\ null_detection = true /\ possible s addr 0 /\ same_solver s s'
  | _ => False
  end.

Class MemoryLaws `{MemoryOps} `{!BVSemantics} : Type := {
  mem_bit : Memory -> Model -> Z -> bool;
  mem_wf : Memory -> Prop;
  mem_null_detection : Memory -> bool;
  mem_periodic mem m : periodic (mem_bit mem m);
  new_uninitialized_law nd name s :
    let '(mem, s') := new_uninitialized nd name s in
    mem_wf mem /\ mem_null_detection mem = nd /\ same_solver s s';
  new_zero_initialized_law nd name :
    mem_wf (new_zero_initialized nd name) /\
    mem_null_detection (new_zero_initialized nd name) = nd /\
    forall m p, mem_bit (new_zero_initialized nd name) m p = false;
  mem_read_law mem addr bits s :
    mem_wf mem -> solver_ok s -> get_width addr = 64 -> read_size bits ->
    wp (mem_read mem addr bits) s (access (mem_null_detection mem) s addr (fun v =>
      get_width v = bits /\
      forall m, reads (mem_bit mem m) (8 * eval m addr) bits (eval m v)));
  mem_write_law mem addr v s :
    mem_wf mem -> solver_ok s -> get_width addr = 64 -> byte_size (get_width v) ->
    wp (mem_write mem addr v) s (access (mem_null_detection mem) s addr (fun mem' =>
      mem_wf mem' /\ mem_null_detection mem' = mem_null_detection mem /\
      forall m, writes (mem_bit mem m) (mem_bit mem' m) (8 * eval m addr) (get_width v) (eval m v)))
}.

Section null_checks.
Context `{Laws : BackendLaws}.

Lemma wp_null_check nd addr s :
  solver_ok s -> wp (null_check nd addr) s (access nd s addr (fun _ => True)).
Proof.
  intros O. unfold null_check. destruct nd; [|by apply wp_ret].
  apply wp_bind. pose proof (width_pos addr). eapply wp_mono; [apply wp_bvs_can_be_equal; [by bv_widths|done]|].
  intros [r|e|p|] s'; simpl; try done; [|by left]. intros [Hs Hr].
  assert (r = true <-> possible s addr 0) as Hr'.
  { rewrite Hr. unfold feasible, possible. setoid_rewrite zero_eval; done. }
  destruct r.
  - apply wp_lift. simpl. right. by rewrite <- Hr'.
  - apply wp_ret. split; [done|]. split; [|done]. intros _ Hp. by apply Hr' in Hp.
Qed.

(** An access whose contents operation succeeds. *)
Lemma wp_access {A} nd addr s (c : outcome A) a (Q : A -> Prop) :
  solver_ok s -> c = Ok a -> Q a ->
  wp (_ ← null_check nd addr; lift c) s (access nd s addr Q).
Proof.
  intros O -> HQ. apply wp_bind. eapply wp_mono; [by apply wp_null_check|].
  intros [[]|e|p|] s'; simpl; try done. intros (Hs & Hn & _). by apply wp_lift.
Qed.

End null_checks.
