(* ===== verification/Memory.v ===== *)
(** * Memory: memory with 64-bit cells (src/src/memory.rs)

    The contents are an array of [2 ^ 61] cells of 64 bits.  Accesses of any
    size at any alignment are built from reads and writes of whole cells with
    shifts and masks.  The solver ([self.btor]) is the state of the
    computation; the fields [cell_bytes_as_bv], .. are constants the code
    creates once.  The theorems say that every access does what [MemorySpec]'s
    [reads] and [writes] say, whatever the address is. *)
From S2P Require Import Prelude Bits Backend SolverUtils MemorySpec.

Open Scope Z_scope.

Definition INDEX_BITS : Z := 64.
Definition CELL_BITS : Z := 64.
Definition BITS_IN_BYTE : Z := 8.
Definition LOG_BITS_IN_BYTE : Z := 3.
Definition CELL_BYTES : Z := CELL_BITS / BITS_IN_BYTE.
Definition LOG_CELL_BYTES : Z := 3.
Definition CELL_OFFSET_MASK : Z := 7.

Section operations.
Context `{Ops : BackendOps}.

Record CellMemory := {
  mem : Array;
  name : string;
  null_detection : bool;
  cell_bytes_as_bv : BV;
  log_bits_in_byte_as_bv : BV;
  log_bits_in_byte_as_wide_bv : BV
}.

Definition new_uninitialized (null_detection : bool) (nm : option string) (s : SolverRef)
    : CellMemory * SolverRef :=
  let log_num_cells := INDEX_BITS - LOG_CELL_BYTES in
  let default_name := "mem"%string in
  let '(arr, s') := array_new log_num_cells CELL_BITS
                      (match nm with Some n => Some n | None => Some default_name end) s in
  ({| mem := arr;
      name := default default_name nm;
      null_detection := null_detection;
      cell_bytes_as_bv := from_u64 CELL_BYTES INDEX_BITS;
      log_bits_in_byte_as_bv := from_u64 LOG_BITS_IN_BYTE CELL_BITS;
      log_bits_in_byte_as_wide_bv := from_u64 LOG_BITS_IN_BYTE (2 * CELL_BITS) |}, s').

Definition new_zero_initialized (null_detection : bool) (nm : option string) : CellMemory :=
  let log_num_cells := INDEX_BITS - LOG_CELL_BYTES in
  let default_name := "mem_initialized"%string in
  {| mem := array_new_initialized log_num_cells CELL_BITS (bv_zero CELL_BITS);
     name := default default_name nm;
     null_detection := null_detection;
     cell_bytes_as_bv := from_u64 CELL_BYTES INDEX_BITS;
     log_bits_in_byte_as_bv := from_u64 LOG_BITS_IN_BYTE CELL_BITS;
     log_bits_in_byte_as_wide_bv := from_u64 LOG_BITS_IN_BYTE (2 * CELL_BITS) |}.

Definition change_solver (self : CellMemory) (new_btor : SolverRef) : outcome CellMemory :=
  let unwrap {A} (o : option A) := expect "called `Option::unwrap()` on a `None` value" o in
  mem' ← unwrap (match_array new_btor (mem self));
  c1 ← unwrap (match_bv new_btor (cell_bytes_as_bv self));
  c2 ← unwrap (match_bv new_btor (log_bits_in_byte_as_bv self));
  c3 ← unwrap (match_bv new_btor (log_bits_in_byte_as_wide_bv self));
  mret {| mem := mem'; name := name self; null_detection := null_detection self;
          cell_bytes_as_bv := c1; log_bits_in_byte_as_bv := c2;
          log_bits_in_byte_as_wide_bv := c3 |}.

Definition with_mem (self : CellMemory) (arr : Array) : CellMemory :=
  {| mem := arr; name := name self; null_detection := null_detection self;
     cell_bytes_as_bv := cell_bytes_as_bv self;
     log_bits_in_byte_as_bv := log_bits_in_byte_as_bv self;
     log_bits_in_byte_as_wide_bv := log_bits_in_byte_as_wide_bv self |}.

Definition read_cell (self : CellMemory) (addr : BV) : outcome BV :=
  _ ← assert_ "assert_eq!(addr.get_width(), Self::INDEX_BITS)" (get_width addr =? INDEX_BITS);
  let cell_num := slice addr (INDEX_BITS - 1) LOG_CELL_BYTES in
  mret (array_read (mem self) cell_num).

Definition write_cell (self : CellMemory) (addr val : BV) : outcome CellMemory :=
  _ ← assert_ "assert_eq!(addr.get_width(), Self::INDEX_BITS)" (get_width addr =? INDEX_BITS);
  _ ← assert_ "assert_eq!(val.get_width(), Self::CELL_BITS)" (get_width val =? CELL_BITS);
  let cell_num := slice addr (INDEX_BITS - 1) LOG_CELL_BYTES in
  mret (with_mem self (array_write (mem self) cell_num val)).

Definition read_within_cell (self : CellMemory) (addr : BV) (bits : Z) : outcome BV :=
  cell_contents ← read_cell self addr;
  _ ← assert_ "assert!(bits <= Self::CELL_BITS)" (bits <=? CELL_BITS);
  if bits =? CELL_BITS then mret cell_contents
  else
    let offset := sll (zext (slice addr (LOG_CELL_BYTES - 1) 0) (CELL_BITS - LOG_CELL_BYTES))
                      (log_bits_in_byte_as_bv self) in
    hi ← u32_sub bits 1;
    mret (slice (srl cell_contents offset) hi 0).

Definition write_within_cell (self : CellMemory) (addr val : BV) : outcome CellMemory :=
  let write_size := get_width val in
  _ ← assert_ "assert!(write_size <= Self::CELL_BITS)" (write_size <=? CELL_BITS);
  data_to_write ←
    (if write_size =? CELL_BITS then mret val
     else
       let offset := sll (zext (slice addr (LOG_CELL_BYTES - 1) 0) (CELL_BITS - LOG_CELL_BYTES))
                         (log_bits_in_byte_as_bv self) in
       let mask_clear := bv_not (sll (zext (bv_ones write_size) (CELL_BITS - write_size)) offset) in
       let mask_write := sll (zext val (CELL_BITS - write_size)) offset in
       cell ← read_cell self addr;
       mret (bv_or (bv_and cell mask_clear) mask_write));
  write_cell self addr data_to_write.

Definition read_small (self : CellMemory) (addr : BV) (bits : Z) : outcome BV :=
  _ ← assert_ "assert!(bits <= Self::CELL_BITS)" (bits <=? CELL_BITS);
  if bits <=? 8 then read_within_cell self addr bits
  else
    let next_cell_addr := bv_add addr (cell_bytes_as_bv self) in
    next_cell ← read_cell self next_cell_addr;
    this_cell ← read_cell self addr;
    let merged_contents := bv_concat next_cell this_cell in
    let offset := sll (zext (slice addr (LOG_CELL_BYTES - 1) 0) (2 * CELL_BITS - LOG_CELL_BYTES))
                      (log_bits_in_byte_as_wide_bv self) in
    mret (slice (srl merged_contents offset) (bits - 1) 0).

Definition write_small (self : CellMemory) (addr val : BV) : outcome CellMemory :=
  let write_size := get_width val in
  _ ← assert_ "assert!(write_size <= Self::CELL_BITS)" (write_size <=? CELL_BITS);
  if write_size <=? 8 then write_within_cell self addr val
  else
    let next_cell_addr := bv_add addr (cell_bytes_as_bv self) in
    let offset := sll (zext (slice addr (LOG_CELL_BYTES - 1) 0) (2 * CELL_BITS - LOG_CELL_BYTES))
                      (log_bits_in_byte_as_wide_bv self) in
    let mask_clear :=
      bv_not (sll (zext (bv_ones write_size) (2 * CELL_BITS - write_size)) offset) in
    let mask_write := sll (zext val (2 * CELL_BITS - write_size)) offset in
    next_cell ← read_cell self next_cell_addr;
    this_cell ← read_cell self addr;
    let data_to_write := bv_or (bv_and (bv_concat next_cell this_cell) mask_clear) mask_write in
    self ← write_cell self addr (slice data_to_write (CELL_BITS - 1) 0);
    write_cell self next_cell_addr (slice data_to_write (2 * CELL_BITS - 1) CELL_BITS).

(** The sizes of the cell-aligned accesses that make up one of [bits] bits:
    full cells and a last one, which may be partial. *)
Definition cell_sizes (bits : Z) : list Z :=
  let num_full_cells := (bits - 1) / CELL_BITS in
  let bits_in_last_cell := (bits - 1) mod CELL_BITS + 1 in
  replicate (Z.to_nat num_full_cells) CELL_BITS ++ [bits_in_last_cell].

Definition read_large_aligned (self : CellMemory) (addr : BV) (bits : Z) : outcome BV :=
  _ ← assert_ "assert_ne!(bits, 0)" (negb (bits =? 0));
  parts ← mapO (fun '(i, sz) =>
            let offset_bytes := i * CELL_BYTES in
            read_within_cell self (bv_add addr (from_u64 offset_bytes INDEX_BITS)) sz)
          (enumerate (cell_sizes bits));
  reduceO (fun a b => bv_concat b a) parts.

Definition write_large_aligned (self : CellMemory) (addr val : BV) : outcome CellMemory :=
  let write_size := get_width val in
  _ ← assert_ "assert_ne!(write_size, 0)" (negb (write_size =? 0));
  foldO (fun self '(i, sz) =>
      _ ← assert_ "assert!(sz > 0)" (0 <? sz);
      let offset_bytes := i * CELL_BYTES in
      let offset_bits := i * CELL_BITS in
      let write_data := slice val (sz + offset_bits - 1) offset_bits in
      write_within_cell self (bv_add addr (from_u64 offset_bytes INDEX_BITS)) write_data)
    self (enumerate (cell_sizes write_size)).

Definition read_contents (self : CellMemory) (addr : BV) (bits : Z) : outcome BV :=
  let addr_width := get_width addr in
  if bits <=? CELL_BITS then read_small self addr bits
  else
    match as_u64 addr with
    | Some addr_u64 =>
        let cell_offset := Z.land addr_u64 CELL_OFFSET_MASK in
        if cell_offset =? 0 then read_large_aligned self addr bits
        else
          let bytes_till_cell_boundary := CELL_BYTES - cell_offset in
          first ← read_small self addr (bytes_till_cell_boundary * BITS_IN_BYTE);
          let next_cell_addr := bv_add addr (from_u64 bytes_till_cell_boundary addr_width) in
          rest ← read_large_aligned self next_cell_addr
                   (bits - bytes_till_cell_boundary * BITS_IN_BYTE);
          mret (bv_concat rest first)
    | None =>
        _ ← assert_ "assert_eq!(bits % Self::BITS_IN_BYTE, 0)" (bits mod BITS_IN_BYTE =? 0);
        let bytes := bits / BITS_IN_BYTE in
        _ ← assert_ "assert!(bytes > 0)" (0 <? bytes);
        parts ← mapO (fun byte_num =>
                  let offset_addr := bv_add addr (from_u64 byte_num addr_width) in
                  read_within_cell self offset_addr BITS_IN_BYTE)
                (range bytes);
        reduceO (fun a b => bv_concat b a) parts
    end.

Definition read (self : CellMemory) (addr : BV) (bits : Z) : M SolverRef BV :=
  _ ← lift (assert_ "Read address has wrong width" (get_width addr =? INDEX_BITS));
  _ ← null_check (null_detection self) addr;
  lift (read_contents self addr bits).

Definition write_contents (self : CellMemory) (addr val : BV) : outcome CellMemory :=
  let addr_width := get_width addr in
  let write_size := get_width val in
  if write_size <=? CELL_BITS then write_small self addr val
  else
    match as_u64 addr with
    | Some addr_u64 =>
        let cell_offset := Z.land addr_u64 CELL_OFFSET_MASK in
        if cell_offset =? 0 then write_large_aligned self addr val
        else
          let bytes_till_cell_boundary := CELL_BYTES - cell_offset in
          let first := slice val (bytes_till_cell_boundary * BITS_IN_BYTE - 1) 0 in
          self ← write_small self addr first;
          let rest := slice val (get_width val - 1) (bytes_till_cell_boundary * BITS_IN_BYTE) in
          let next_cell_addr := bv_add addr (from_u64 bytes_till_cell_boundary addr_width) in
          write_large_aligned self next_cell_addr rest
    | None =>
        _ ← assert_ "assert_eq!(write_size % Self::BITS_IN_BYTE, 0)"
              (write_size mod BITS_IN_BYTE =? 0);
        let write_size_bytes := write_size / BITS_IN_BYTE in
        foldO (fun self byte_num =>
            let val_byte := slice val ((byte_num + 1) * BITS_IN_BYTE - 1) (byte_num * BITS_IN_BYTE) in
            let offset_addr := bv_add addr (from_u64 byte_num addr_width) in
            write_within_cell self offset_addr val_byte)
          self (range write_size_bytes)
    end.

Definition write (self : CellMemory) (addr val : BV) : M SolverRef CellMemory :=
  _ ← lift (assert_ "Write address has wrong width" (get_width addr =? INDEX_BITS));
  _ ← null_check (null_detection self) addr;
  lift (write_contents self addr val).

End operations.

(** ** Cells and bits *)

Section cells.
Context `{Laws : BackendLaws}.
Implicit Types (self : CellMemory) (addr val : BV).

Definition membit self (m : Model) (p : Z) : bool :=
  Z.testbit (eval_array m (mem self) (p mod space / 64)) (p mod 64).

(** The invariant of the structure: the array has 61-bit indices and 64-bit
    cells, and the constants have the values the code gave them. *)
Definition wf self : Prop :=
  index_width (mem self) = 61 /\ element_width (mem self) = 64 /\
  (get_width (cell_bytes_as_bv self) = 64 /\ forall m, eval m (cell_bytes_as_bv self) = 8) /\
  (get_width (log_bits_in_byte_as_bv self) = 64 /\
   forall m, eval m (log_bits_in_byte_as_bv self) = 3) /\
  (get_width (log_bits_in_byte_as_wide_bv self) = 128 /\
   forall m, eval m (log_bits_in_byte_as_wide_bv self) = 3).

Lemma membit_periodic self m : periodic (membit self m).
Proof.
  intros p. unfold membit. rewrite Z.mod_mod by done. f_equal.
  unfold space. change (2 ^ 67) with (64 * 2 ^ 61). rewrite Z.rem_mul_r by done.
  rewrite (Z.mul_comm 64), Z.mod_add, Z.mod_mod by done. done.
Qed.

Lemma membit_cell self m c j : 0 <= c < 2 ^ 61 -> 0 <= j < 64 ->
  membit self m (64 * c + j) = Z.testbit (eval_array m (mem self) c) j.
Proof.
  intros Hc Hj. unfold membit. rewrite Z.mod_small by (unfold space; lia).
  rewrite Z.mul_comm, Z.div_add_l, Z.div_small, Z.add_0_r by lia.
  by rewrite Z.add_comm, Z.mod_add, Z.mod_small by lia.
Qed.

Lemma cell_range addr m : get_width addr = 64 -> 0 <= eval m addr / 8 < 2 ^ 61.
Proof.
  intros W. pose proof (eval_range m addr) as R. rewrite W in R.
  split; [apply Z.div_pos; lia|]. apply Z.div_lt_upper_bound; [lia|].
  change (8 * 2 ^ 61) with (2 ^ 64). lia.
Qed.

(** The cell number of an address. *)
Lemma cell_num addr : get_width addr = 64 ->
  get_width (slice addr (INDEX_BITS - 1) LOG_CELL_BYTES) = 61 /\
  forall m, eval m (slice addr (INDEX_BITS - 1) LOG_CELL_BYTES) = eval m addr / 8.
Proof.
  intros W. unfold INDEX_BITS, LOG_CELL_BYTES. split; [by rewrite slice_width by lia|].
  intros m. rewrite slice_eval by lia. unfold slice_val. apply Z.mod_small.
  apply (cell_range addr m W).
Qed.

(** The bit offset of an address in its cell, [w] bits wide. *)
Lemma cell_offset addr k w : get_width addr = 64 -> 64 <= w -> get_width k = w ->
  (forall m, eval m k = 3) ->
  get_width (sll (zext (slice addr (LOG_CELL_BYTES - 1) 0) (w - LOG_CELL_BYTES)) k) = w /\
  forall m, eval m (sll (zext (slice addr (LOG_CELL_BYTES - 1) 0) (w - LOG_CELL_BYTES)) k) =
            8 * (eval m addr mod 8).
Proof.
  intros W Hw Wk Ek. unfold LOG_CELL_BYTES.
  assert (get_width (zext (slice addr (3 - 1) 0) (w - 3)) = w) as Wz.
  { rewrite zext_width, slice_width by lia. lia. }
  split; [rewrite (bin_width sll _ _ _ sll_law); lia|]. intros m.
  rewrite (bin_eval sll _ _ _ m sll_law) by lia. rewrite Wz, Ek, zext_eval, slice_eval by lia.
  unfold slice_val. rewrite Z.div_1_r. change (2 ^ (3 - 1 - 0 + 1)) with 8. change (2 ^ 3) with 8.
  pose proof (Z.mod_pos_bound (eval m addr) 8 ltac:(lia)).
  pose proof (pow2_le 64 w ltac:(lia)). rewrite Z.mod_small; lia.
Qed.

Lemma read_cell_spec self addr : wf self -> get_width addr = 64 ->
  exists r, read_cell self addr = Ok r /\ get_width r = 64 /\
    forall m, reads (membit self m) (64 * (eval m addr / 8)) 64 (eval m r).
Proof.
  intros (Wi & We & _) W. unfold read_cell. rewrite W. cbn. eexists. split; [done|].
  destruct (cell_num addr W) as [Wc Ec].
  destruct (array_read_law (mem self) _ (eq_trans Wc (eq_sym Wi))) as [Wr Er].
  rewrite We in Wr. split; [done|]. intros m. split; [pose proof (eval_range m (array_read (mem self) (slice addr (INDEX_BITS - 1) LOG_CELL_BYTES))) as R; by rewrite Wr in R|].
  intros j Hj. rewrite Er, Ec. symmetry. apply membit_cell; [by apply cell_range|done].
Qed.

(** Replacing the cell [c] writes its 64 bits. *)
Lemma writes_cell self arr m c v :
  0 <= c < 2 ^ 61 ->
  (forall j, eval_array m arr j = if j =? c then v else eval_array m (mem self) j) ->
  writes (membit self m) (membit (with_mem self arr) m) (64 * c) 64 v.
Proof.
  intros Hc Harr p. unfold membit at 1. cbn [mem with_mem]. rewrite Harr.
  pose proof (Z.mod_pos_bound p space eq_refl) as R. set (q := p mod space) in *.
  assert ((p - 64 * c) mod space = (q - 64 * c) mod space) as -> by (unfold q; by rewrite Zminus_mod_idemp_l).
  assert (p mod 64 = q mod 64) as ->.
  { unfold q, space. change (2 ^ 67) with (64 * 2 ^ 61). rewrite Z.rem_mul_r by done.
    by rewrite (Z.mul_comm 64), Z.mod_add, Z.mod_mod. }
  pose proof (Z.div_mod q 64 ltac:(lia)). pose proof (Z.mod_pos_bound q 64 ltac:(lia)).
  assert (space = 64 * 2 ^ 61) as HS by done.
  destruct (Z.eqb_spec (q / 64) c) as [E|E].
  - rewrite (Z.mod_small (q - 64 * c)) by lia. rewrite (proj2 (Z.ltb_lt _ _)) by lia. f_equal. lia.
  - replace (Z.testbit (eval_array m (mem self) (q / 64)) (q mod 64)) with (membit self m p)
      by (rewrite membit_periodic; fold q; unfold membit; rewrite (Z.mod_small q) by lia; done).
    destruct (Z.ltb_spec ((q - 64 * c) mod space) 64) as [Hlt|]; [|done]. exfalso.
    assert (q < 64 * c \/ 64 * c + 64 <= q) as [Hq|Hq] by lia.
    + rewrite <- (Z.mod_add _ 1), (Z.mod_small (q - 64 * c + 1 * space)) in Hlt by lia. lia.
    + rewrite (Z.mod_small (q - 64 * c)) in Hlt by lia. lia.
Qed.

Lemma write_cell_spec self addr val : wf self -> get_width addr = 64 -> get_width val = 64 ->
  exists self', write_cell self addr val = Ok self' /\ wf self' /\
    null_detection self' = null_detection self /\
    forall m, writes (membit self m) (membit self' m) (64 * (eval m addr / 8)) 64 (eval m val).
Proof.
  intros (Wi & We & Hk) W Wv. unfold write_cell. rewrite W, Wv. cbn. eexists. split; [done|].
  destruct (cell_num addr W) as [Wc Ec].
  destruct (array_write_law (mem self) _ val (eq_trans Wc (eq_sym Wi)) (eq_trans Wv (eq_sym We)))
    as (L1 & L2 & L3).
  split; [split; [cbn; congruence|split; [cbn; congruence|done]]|]. split; [done|].
  intros m. apply writes_cell; [by apply cell_range|]. intros j. by rewrite L3, Ec.
Qed.

End cells.

Ltac spec_ok S := let r := fresh "r" in let E := fresh "E" in let W := fresh "W" in let R := fresh "R" in
  destruct S as (r & E & W & R); rewrite E; cbn [mbind outcome_bind].

Section accesses.
Context `{Laws : BackendLaws}.
Implicit Types (self : CellMemory) (addr val : BV).

(** The start of the cell plus the offset in it is the address. *)
Lemma cell_start addr m : 64 * (eval m addr / 8) + 8 * (eval m addr mod 8) = 8 * eval m addr.
Proof. pose proof (Z.div_mod (eval m addr) 8 ltac:(lia)). lia. Qed.

Lemma read_within_cell_spec self addr bits :
  wf self -> get_width addr = 64 -> 0 < bits <= 64 ->
  (forall m, 8 * (eval m addr mod 8) + bits <= 64) ->
  exists r, read_within_cell self addr bits = Ok r /\ get_width r = bits /\
    forall m, reads (membit self m) (8 * eval m addr) bits (eval m r).
Proof.
  intros Hwf W Hb Hin. unfold read_within_cell. spec_ok (read_cell_spec self addr Hwf W).
  unfold CELL_BITS. rewrite (proj2 (Z.leb_le _ _)) by lia. cbn [assert_ mbind outcome_bind].
  destruct (Z.eqb_spec bits 64) as [->|Hne].
  - exists r. split; [done|]. split; [done|]. intros m. specialize (Hin m).
    pose proof (Z.mod_pos_bound (eval m addr) 8 ltac:(lia)).
    rewrite <- cell_start. replace (8 * (eval m addr mod 8)) with 0 by lia. rewrite Z.add_0_r. done.
  - unfold u32_sub. rewrite (proj2 (Z.leb_le _ _)) by lia. cbn [mbind outcome_bind].
    destruct Hwf as (_ & _ & _ & (Wk & Ek) & _).
    destruct (cell_offset addr _ 64 W ltac:(lia) Wk Ek) as [Wo Eo].
    eexists. split; [done|].
    match goal with |- context [srl r ?o] => set (off := o) in * end.
    assert (get_width (srl r off) = 64) as Ws by (rewrite (bin_width srl _ _ _ srl_law); congruence).
    split; [rewrite slice_width by lia; lia|]. intros m.
    rewrite slice_eval, (bin_eval srl _ _ _ m srl_law), Eo, <- cell_start by (lia || congruence).
    apply (reads_part _ _ 64); [|lia|apply Hin|apply R].
    pose proof (Z.mod_pos_bound (eval m addr) 8 ltac:(lia)). lia.
Qed.

(** The masked data: the field at [off] replaced by the value. *)
Lemma masked_data old val off w m :
  get_width old = w -> get_width off = w -> 0 < get_width val <= w ->
  0 <= eval m off -> eval m off + get_width val <= w ->
  let mask_clear := bv_not (sll (zext (bv_ones (get_width val)) (w - get_width val)) off) in
  let mask_write := sll (zext val (w - get_width val)) off in
  get_width (bv_or (bv_and old mask_clear) mask_write) = w /\
  forall k, 0 <= k < w ->
    Z.testbit (eval m (bv_or (bv_and old mask_clear) mask_write)) k =
    if (eval m off <=? k) && (k <? eval m off + get_width val)
    then Z.testbit (eval m val) (k - eval m off) else Z.testbit (eval m old) k.
Proof.
  intros Wo Wf Wv Ho Hin mask_clear mask_write.
  assert (get_width mask_clear = w) as Wc by (unfold mask_clear; bv_widths; lia).
  assert (get_width mask_write = w) as Wm by (unfold mask_write; bv_widths; lia).
  split; [bv_widths; lia|]. intros k Hk.
  rewrite (bin_eval bv_or _ _ _ m bv_or_law), (bin_eval bv_and _ _ _ m bv_and_law) by (bv_widths; lia).
  unfold mask_clear, mask_write in *.
  rewrite not_eval, !(bin_eval sll _ _ _ m sll_law) by (bv_widths; lia).
  rewrite !zext_eval, ones_eval, !zext_width, ones_width by (bv_widths; lia).
  rewrite (bin_width sll _ _ _ sll_law), zext_width, ones_width by (bv_widths; lia).
  replace (get_width val + (w - get_width val)) with w by lia.
  pose proof (eval_range m old) as Ro. rewrite Wo in Ro.
  apply masked_bits; try lia. apply eval_range.
Qed.

Lemma write_within_cell_spec self addr val :
  wf self -> get_width addr = 64 -> get_width val <= 64 ->
  (forall m, 8 * (eval m addr mod 8) + get_width val <= 64) ->
  exists self', write_within_cell self addr val = Ok self' /\ wf self' /\
    null_detection self' = null_detection self /\
    forall m, writes (membit self m) (membit self' m) (8 * eval m addr) (get_width val) (eval m val).
Proof.
  intros Hwf W Hb Hin. pose proof (width_pos val) as Wv. unfold write_within_cell, CELL_BITS.
  rewrite (proj2 (Z.leb_le _ _)) by lia. cbn [assert_ mbind outcome_bind].
  destruct (Z.eqb_spec (get_width val) 64) as [E64|Hne].
  - cbn. destruct (write_cell_spec self addr val Hwf W E64) as (s' & -> & Hwf' & Hn & HW).
    exists s'. split; [done|]. split; [done|]. split; [done|]. intros m. specialize (Hin m).
    pose proof (Z.mod_pos_bound (eval m addr) 8 ltac:(lia)). rewrite E64.
    rewrite <- cell_start. replace (8 * (eval m addr mod 8)) with 0 by lia. rewrite Z.add_0_r. apply HW.
  - spec_ok (read_cell_spec self addr Hwf W). unfold mret, outcome_ret.
    pose proof Hwf as (_ & _ & _ & (Wk & Ek) & _).
    destruct (cell_offset addr _ 64 W ltac:(lia) Wk Ek) as [Wo Eo].
    cbn [mbind outcome_bind].
    match goal with |- context [write_cell self addr ?d] => set (data := d) end.
    match type of Eo with forall m, eval m ?o = _ => set (off := o) in * end.
    assert (forall m, get_width data = 64 /\ forall k, 0 <= k < 64 -> Z.testbit (eval m data) k =
      if (8 * (eval m addr mod 8) <=? k) && (k <? 8 * (eval m addr mod 8) + get_width val)
      then Z.testbit (eval m val) (k - 8 * (eval m addr mod 8)) else Z.testbit (eval m r) k) as HD.
    { intros m. pose proof (Z.mod_pos_bound (eval m addr) 8 ltac:(lia)). specialize (Hin m).
      rewrite <- Eo. apply (masked_data r val off 64 m); try rewrite Eo; try done; lia. }
    assert (get_width data = 64) as Wd by (unfold data; bv_widths; lia).
    destruct (write_cell_spec self addr data Hwf W Wd) as (s' & -> & Hwf' & Hn & HW).
    exists s'. split; [done|]. split; [done|]. split; [done|]. intros m.
    pose proof (Z.mod_pos_bound (eval m addr) 8 ltac:(lia)). rewrite <- cell_start.
    eapply (writes_narrow _ _ _ 64); [apply membit_periodic|lia|lia|apply Hin|done| |apply HW].
    intros k Hk. rewrite (proj2 (HD m) k Hk). case_match; [done|]. by apply (R m).
Qed.

(** The address of the next cell. *)
Lemma next_cell self addr : wf self -> get_width addr = 64 ->
  get_width (bv_add addr (cell_bytes_as_bv self)) = 64 /\
  forall m, (64 * (eval m (bv_add addr (cell_bytes_as_bv self)) / 8)) mod space =
            (64 * (eval m addr / 8) + 64) mod space.
Proof.
  intros (_ & _ & (Wc & Ec) & _) W. split; [rewrite (bin_width bv_add _ _ _ bv_add_law); congruence|].
  intros m. rewrite (bin_eval bv_add _ _ _ m bv_add_law), W, Ec by congruence.
  pose proof (eval_range m addr) as R. rewrite W in R. set (a := eval m addr) in *.
  destruct (Z.lt_ge_cases (a + 8) (2 ^ 64)).
  - rewrite (Z.mod_small (a + 8)) by lia. replace (a + 8) with (a + 1 * 8) by lia.
    rewrite Z.div_add by lia. f_equal. lia.
  - rewrite <- (Z.mod_add (a + 8) (-1)), (Z.mod_small (a + 8 + -1 * 2 ^ 64)) by lia.
    rewrite <- (Z.mod_add (64 * (a / 8) + 64) (-1)) by done. f_equal.
    replace (a + 8 + -1 * 2 ^ 64) with (a + (1 - 2 ^ 61) * 8) by lia.
    rewrite Z.div_add by lia. unfold space. lia.
Qed.

(** The contents of two neighbouring cells, as [read_small] and
    [write_small] put them together. *)
Lemma two_cells self addr : wf self -> get_width addr = 64 ->
  exists hi lo, read_cell self (bv_add addr (cell_bytes_as_bv self)) = Ok hi /\
    read_cell self addr = Ok lo /\ get_width (bv_concat hi lo) = 128 /\
    forall m, reads (membit self m) (64 * (eval m addr / 8)) 128 (eval m (bv_concat hi lo)).
Proof.
  intros Hwf W. destruct (next_cell self addr Hwf W) as [Wn En].
  destruct (read_cell_spec self _ Hwf Wn) as (hi & Eh & Wh & Rh).
  destruct (read_cell_spec self addr Hwf W) as (lo & El & Wl & Rl).
  exists hi, lo. split; [done|]. split; [done|]. split; [bv_widths; lia|]. intros m.
  rewrite concat_eval, Wl. apply (reads_concat _ _ 64 64); [lia|lia|apply Rl|].
  eapply reads_congr; [apply membit_periodic| |apply Rh]. apply En.
Qed.

Lemma read_small_spec self addr bits :
  wf self -> get_width addr = 64 -> 0 < bits <= 64 ->
  exists r, read_small self addr bits = Ok r /\ get_width r = bits /\
    forall m, reads (membit self m) (8 * eval m addr) bits (eval m r).
Proof.
  intros Hwf W Hb. unfold read_small, CELL_BITS. rewrite (proj2 (Z.leb_le bits 64)) by lia.
  cbn [assert_ mbind outcome_bind]. destruct (Z.leb_spec bits 8).
  { apply read_within_cell_spec; [done|done|lia|]. intros m.
    pose proof (Z.mod_pos_bound (eval m addr) 8 ltac:(lia)). lia. }
  destruct (two_cells self addr Hwf W) as (hi & lo & -> & -> & Wm & Rm). cbn.
  destruct Hwf as (_ & _ & _ & _ & Wk & Ek).
  destruct (cell_offset addr _ 128 W ltac:(lia) Wk Ek) as [Wo Eo].
  eexists. split; [done|].
  match type of Eo with forall m, eval m ?o = _ => set (off := o) in * end.
  set (merged := bv_concat hi lo) in *.
  assert (get_width (srl merged off) = 128) as Ws by (rewrite (bin_width srl _ _ _ srl_law); congruence).
  change (sll _ _) with off.
  split; [rewrite slice_width by lia; lia|]. intros m.
  rewrite slice_eval, (bin_eval srl _ _ _ m srl_law), Eo, <- cell_start by (lia || congruence).
  pose proof (Z.mod_pos_bound (eval m addr) 8 ltac:(lia)).
  apply (reads_part _ _ 128); [lia|lia|lia|apply Rm].
Qed.

Lemma write_small_spec self addr val :
  wf self -> get_width addr = 64 -> get_width val <= 64 ->
  exists self', write_small self addr val = Ok self' /\ wf self' /\
    null_detection self' = null_detection self /\
    forall m, writes (membit self m) (membit self' m) (8 * eval m addr) (get_width val) (eval m val).
Proof.
  intros Hwf W Hb. pose proof (width_pos val) as Wv. unfold write_small, CELL_BITS.
  rewrite (proj2 (Z.leb_le _ 64)) by lia. cbn [assert_ mbind outcome_bind].
  destruct (Z.leb_spec (get_width val) 8).
  { apply write_within_cell_spec; [done..|]. intros m.
    pose proof (Z.mod_pos_bound (eval m addr) 8 ltac:(lia)). lia. }
  destruct (two_cells self addr Hwf W) as (hi & lo & -> & -> & Wm & Rm).
  destruct (next_cell self addr Hwf W) as [Wn En].
  pose proof Hwf as (_ & _ & _ & _ & Wk & Ek).
  destruct (cell_offset addr _ 128 W ltac:(lia) Wk Ek) as [Wo Eo].
  cbn [mbind outcome_bind]. change (2 * 64) with 128. set (merged := bv_concat hi lo) in *.
  match goal with |- context [slice ?d 63 0] => set (data := d) | |- context [slice ?d (64 - 1) 0] => set (data := d) end.
  match type of Eo with forall m, eval m ?o = _ => set (off := o) in * end.
  assert (get_width data = 128) as Wd by (unfold data; bv_widths; lia).
  assert (forall m k, 0 <= k < 128 -> Z.testbit (eval m data) k =
    if (8 * (eval m addr mod 8) <=? k) && (k <? 8 * (eval m addr mod 8) + get_width val)
    then Z.testbit (eval m val) (k - 8 * (eval m addr mod 8))
    else Z.testbit (eval m merged) k) as HD.
  { intros m. pose proof (Z.mod_pos_bound (eval m addr) 8 ltac:(lia)).
    rewrite <- Eo. apply (masked_data _ val off 128 m); try rewrite Eo; try done; lia. }
  destruct (write_cell_spec self addr (slice data (64 - 1) 0) Hwf W ltac:(by rewrite slice_width by lia))
    as (s1 & -> & Hwf1 & Hn1 & HW1). cbn [mbind outcome_bind].
  destruct (write_cell_spec s1 _ (slice data (128 - 1) 64) Hwf1 Wn ltac:(by rewrite slice_width by lia))
    as (s2 & -> & Hwf2 & Hn2 & HW2).
  exists s2. split; [done|]. split; [done|]. split; [congruence|]. intros m.
  pose proof (Z.mod_pos_bound (eval m addr) 8 ltac:(lia)). rewrite <- cell_start.
  eapply (writes_narrow _ _ _ 128 (eval m data)); [apply membit_periodic|lia|lia|lia|done| |].
  - intros k Hk. rewrite HD by done. case_match; [done|]. by apply (Rm m).
  - eapply (writes_concat _ _ _ _ 64 64); [lia|lia|done| | |apply HW1|].
    3:{ eapply writes_congr; [apply En|apply HW2]. }
    + intros j Hj. rewrite slice_eval, testbit_slice by lia.
      rewrite (proj2 (Z.leb_le _ _)) by lia. cbn [andb]. f_equal. lia.
    + intros j Hj. rewrite slice_eval, testbit_slice by lia.
      rewrite (proj2 (Z.leb_le _ _)) by lia. done.
Qed.

End accesses.

(** ** Large accesses *)

Section large.
Context `{Laws : BackendLaws}.
Implicit Types (self : CellMemory) (addr val : BV).

Lemma cell_sizes_consecutive bits : 0 < bits ->
  consecutive (fun x : Z * Z => 64 * fst x) snd 0 (enumerate (cell_sizes bits)) /\
  total (X := Z * Z) snd (enumerate (cell_sizes bits)) = bits.
Proof.
  intros Hb. unfold cell_sizes, enumerate, CELL_BITS.
  pose proof (Z.mod_pos_bound (bits - 1) 64 ltac:(lia)). pose proof (Z.div_mod (bits - 1) 64 ltac:(lia)).
  pose proof (Z.div_pos (bits - 1) 64 ltac:(lia) ltac:(lia)).
  assert (forall n l k, 0 < l ->
    consecutive (fun x : Z * Z => 64 * fst x) snd (64 * Z.of_nat k)
      (imap (fun i x => (Z.of_nat (k + i), x)) (replicate n 64 ++ [l])) /\
    total (X := Z * Z) snd (imap (fun i x => (Z.of_nat (k + i), x)) (replicate n 64 ++ [l])) =
    64 * Z.of_nat n + l) as Hs.
  { induction n as [|n IH]; intros l k Hl; cbn [replicate app imap consecutive total fst snd].
    - rewrite Nat.add_0_r. split; [done|lia].
    - destruct (IH l (S k) Hl) as [Hc1 Ht1]. rewrite Nat.add_0_r.
      erewrite imap_ext; [|intros i x _; cbn; rewrite <- Nat.add_succ_comm; reflexivity].
      split; [|lia]. split; [done|]. split; [lia|].
      replace (64 * Z.of_nat k + 64) with (64 * Z.of_nat (S k)) by lia. done. }
  destruct (Hs (Z.to_nat ((bits - 1) / 64)) ((bits - 1) mod 64 + 1) 0%nat ltac:(lia)) as [Hc1 Ht1].
  split; [done|]. etransitivity; [exact Ht1|]. lia.
Qed.

(** An item of the sequence: its index and size stay inside the access, and
    only full cells and the last one occur. *)
Lemma cell_sizes_elem bits i sz : 0 < bits -> (i, sz) ∈ enumerate (cell_sizes bits) ->
  0 <= i /\ 0 < sz <= 64 /\ 64 * i + sz <= bits.
Proof.
  intros Hb. unfold enumerate, cell_sizes, CELL_BITS. intros (k & Hk)%list_elem_of_lookup.
  rewrite list_lookup_imap in Hk. apply fmap_Some in Hk as (z & Hz & [= -> ->]).
  pose proof (Z.mod_pos_bound (bits - 1) 64 ltac:(lia)). pose proof (Z.div_mod (bits - 1) 64 ltac:(lia)).
  pose proof (Z.div_pos (bits - 1) 64 ltac:(lia) ltac:(lia)).
  apply lookup_app_Some in Hz as [Hz|[Hl Hz]].
  - apply lookup_replicate in Hz as [-> Hl]. lia.
  - rewrite length_replicate in *. apply list_lookup_singleton_Some in Hz as [Hz <-]. lia.
Qed.

(** [addr + off], for an offset in bytes. *)
Lemma addr_offset addr off : get_width addr = 64 -> 0 <= off < 2 ^ 64 ->
  get_width (bv_add addr (from_u64 off 64)) = 64 /\
  forall m, eval m (bv_add addr (from_u64 off 64)) = (eval m addr + off) mod 2 ^ 64.
Proof.
  intros W Ho. destruct (from_u64_law off 64 ltac:(lia) Ho ltac:(lia)) as [Wc Ec].
  split; [rewrite (bin_width bv_add _ _ _ bv_add_law); congruence|].
  intros m. by rewrite (bin_eval bv_add _ _ _ m bv_add_law), W, Ec by congruence.
Qed.

Lemma aligned_offset a k : a mod 8 = 0 -> ((a + 8 * k) mod 2 ^ 64) mod 8 = 0.
Proof.
  intros Ha. change (2 ^ 64) with (8 * 2 ^ 61). rewrite Z.rem_mul_r by done.
  rewrite (Z.mul_comm 8 (_ mod _)), Z.mod_add, Z.mod_mod by done.
  by rewrite (Z.mul_comm 8 k), Z.mod_add.
Qed.

Lemma reads_at_offset self addr' m a off bits v :
  eval m addr' = (a + off) mod 2 ^ 64 ->
  reads (membit self m) (8 * eval m addr') bits v -> reads (membit self m) (8 * a + 8 * off) bits v.
Proof.
  intros E. apply reads_congr; [apply membit_periodic|]. rewrite E, addr_wrap. f_equal. lia.
Qed.

Lemma writes_at_offset f g addr' (m : Model) a off size v :
  eval m addr' = (a + off) mod 2 ^ 64 ->
  writes f g (8 * eval m addr') size v -> writes f g (8 * a + 8 * off) size v.
Proof. intros E. apply writes_congr. rewrite E, addr_wrap. f_equal. lia. Qed.

Lemma read_large_aligned_spec self addr bits :
  wf self -> get_width addr = 64 -> 0 < bits < 2 ^ 32 -> (forall m, eval m addr mod 8 = 0) ->
  exists r, read_large_aligned self addr bits = Ok r /\ get_width r = bits /\
    forall m, reads (membit self m) (8 * eval m addr) bits (eval m r).
Proof.
  intros Hwf W Hb Hal. unfold read_large_aligned, INDEX_BITS. change CELL_BYTES with 8.
  rewrite (proj2 (Z.eqb_neq bits 0)) by lia. cbn [negb assert_ mbind outcome_bind].
  destruct (cell_sizes_consecutive bits ltac:(lia)) as [Hc Ht].
  destruct (read_parts (fun x : Z * Z => 64 * fst x) snd (membit self) (fun m => 8 * eval m addr)
    (fun '(i, sz) => read_within_cell self (bv_add addr (from_u64 (i * 8) 64)) sz)
    (enumerate (cell_sizes bits))) as (r & E & Wr & Rr); [|done| |].
  - intros E. by rewrite E in Ht; cbn in Ht; lia.
  - intros [i sz] Hx. apply cell_sizes_elem in Hx as (Hi & Hsz & Hin); [|lia].
    destruct (addr_offset addr (i * 8) W ltac:(lia)) as [Wa Ea].
    destruct (read_within_cell_spec self (bv_add addr (from_u64 (i * 8) 64)) sz Hwf Wa Hsz) as (b & Eb & Wb & Rb).
    { intros m. rewrite Ea, (Z.mul_comm i), aligned_offset by done. lia. }
    exists b. split; [done|]. split; [done|]. intros m. cbn [fst snd].
    replace (64 * i) with (8 * (i * 8)) by lia. eapply reads_at_offset; [apply Ea|apply Rb].
  - exists r. rewrite Ht in Wr, Rr. done.
Qed.

Lemma slice_bits val hi lo m j : 0 <= lo <= hi -> hi < get_width val -> 0 <= j <= hi - lo ->
  Z.testbit (eval m (slice val hi lo)) j = Z.testbit (eval m val / 2 ^ lo) j.
Proof.
  intros H1 H2 Hj. rewrite slice_eval, testbit_slice, testbit_div_pow2 by lia.
  by rewrite (proj2 (Z.leb_le _ _)) by lia.
Qed.

(** A write only depends on the bits it writes. *)
Lemma writes_ext f g start size v v' : (forall j, 0 <= j < size -> Z.testbit v j = Z.testbit v' j) ->
  writes f g start size v -> writes f g start size v'.
Proof.
  intros E HW p. rewrite HW. pose proof (Z.mod_pos_bound (p - start) space eq_refl).
  destruct (Z.ltb_spec ((p - start) mod space) size); [|done]. apply E. lia.
Qed.

(** The invariant of a sequence of writes to one memory. *)
Definition same_config nd self : Prop := wf self /\ null_detection self = nd.

Lemma write_large_aligned_spec self addr val :
  wf self -> get_width addr = 64 -> get_width val < 2 ^ 32 -> (forall m, eval m addr mod 8 = 0) ->
  exists self', write_large_aligned self addr val = Ok self' /\ wf self' /\
    null_detection self' = null_detection self /\
    forall m, writes (membit self m) (membit self' m) (8 * eval m addr) (get_width val) (eval m val).
Proof.
  intros Hwf W Hb Hal. pose proof (width_pos val) as Wv.
  unfold write_large_aligned, INDEX_BITS. change CELL_BYTES with 8. change CELL_BITS with 64.
  rewrite (proj2 (Z.eqb_neq (get_width val) 0)) by lia. cbn [negb assert_ mbind outcome_bind].
  destruct (cell_sizes_consecutive (get_width val) ltac:(lia)) as [Hc Ht].
  match goal with |- context [foldO ?F _ _] => destruct (write_parts (fun x : Z * Z => 64 * fst x) snd
    (same_config (null_detection self)) membit (fun m => 8 * eval m addr) (fun m => eval m val) F
    (enumerate (cell_sizes (get_width val))) 0 self) as (s' & E & [Hwf' Hn] & HW) end; try done.
  - unfold space. rewrite Ht. lia.
  - intros t [i sz] [Hwt Hnt] Hx. apply cell_sizes_elem in Hx as (Hi & Hsz & Hin); [|lia].
    rewrite (proj2 (Z.ltb_lt 0 sz)) by lia. cbn [assert_ mbind outcome_bind fst snd].
    destruct (addr_offset addr (i * 8) W ltac:(lia)) as [Wa Ea].
    set (d := slice val (sz + i * 64 - 1) (i * 64)).
    assert (get_width d = sz) as Wd by (unfold d; rewrite slice_width; lia).
    destruct (write_within_cell_spec t (bv_add addr (from_u64 (i * 8) 64)) d Hwt Wa ltac:(lia))
      as (t' & Et & Hwt' & Hnt' & HWt).
    { intros m. rewrite Ea, (Z.mul_comm i), aligned_offset by done. lia. }
    exists t'. split; [done|]. split; [split; [done|congruence]|]. intros m. rewrite Wd in HWt.
    replace (64 * i) with (8 * (i * 8)) by lia. eapply writes_at_offset; [apply Ea|].
    eapply writes_ext; [|apply HWt]. intros j Hj. unfold d. rewrite slice_bits by lia.
    replace (8 * (i * 8)) with (i * 64) by lia. done.
  - exists s'. split; [done|]. split; [done|]. split; [done|]. intros m. specialize (HW m).
    rewrite Ht, Z.add_0_r, Z.div_1_r in HW. done.
Qed.

(** The accesses of any size.  Below 64 bits every size is supported; above,
    a concrete address or a whole number of bytes is needed. *)
Definition supported addr bits : Prop :=
  0 < bits < 2 ^ 32 /\ (bits <= 64 \/ is_Some (as_u64 addr) \/ bits mod 8 = 0).

(** The concrete-address path: the offset in the cell and the distance to the
    next cell boundary. *)
Lemma boundary addr u m : get_width addr = 64 -> as_u64 addr = Some u ->
  Z.land u CELL_OFFSET_MASK = eval m addr mod 8.
Proof.
  intros W E. rewrite (as_u64_law addr u E m). change CELL_OFFSET_MASK with (Z.ones 3).
  by rewrite Z.land_ones.
Qed.

Lemma next_boundary addr off m : get_width addr = 64 -> 0 < off < 8 -> eval m addr mod 8 = off ->
  (eval m addr + (8 - off)) mod 2 ^ 64 mod 8 = 0.
Proof.
  intros W Ho E. pose proof (Z.div_mod (eval m addr) 8 ltac:(lia)).
  replace (eval m addr + (8 - off)) with (0 + 8 * (eval m addr / 8 + 1)) by lia.
  by apply aligned_offset.
Qed.

Lemma read_unaligned_spec self addr bits u :
  wf self -> get_width addr = 64 -> 64 < bits < 2 ^ 32 -> as_u64 addr = Some u ->
  Z.land u CELL_OFFSET_MASK <> 0 ->
  let till := CELL_BYTES - Z.land u CELL_OFFSET_MASK in
  exists r, (first ← read_small self addr (till * BITS_IN_BYTE);
             rest ← read_large_aligned self (bv_add addr (from_u64 till (get_width addr)))
                      (bits - till * BITS_IN_BYTE);
             mret (bv_concat rest first)) = Ok r /\ get_width r = bits /\
    forall m, reads (membit self m) (8 * eval m addr) bits (eval m r).
Proof.
  intros Hwf W Hb Eu Hne till. change CELL_BYTES with 8 in till. unfold BITS_IN_BYTE. rewrite W.
  assert (0 <= Z.land u CELL_OFFSET_MASK < 8) as Ro.
  { change CELL_OFFSET_MASK with (Z.ones 3). rewrite Z.land_ones by lia. apply Z.mod_pos_bound. lia. }
  assert (1 <= till <= 7) as Ht by (unfold till; lia).
  spec_ok (read_small_spec self addr (till * 8) Hwf W ltac:(lia)).
  destruct (addr_offset addr till W ltac:(lia)) as [Wa Ea].
  spec_ok (read_large_aligned_spec self (bv_add addr (from_u64 till 64)) (bits - till * 8) Hwf Wa ltac:(lia)
    ltac:(intros m; rewrite Ea; unfold till; apply next_boundary;
          [done|lia|symmetry; by apply boundary])).
  eexists. split; [done|]. split; [rewrite concat_width; lia|]. intros m.
  rewrite concat_eval, W0. replace bits with (till * 8 + (bits - till * 8)) by lia.
  apply reads_concat; [lia|lia|apply R|]. replace (8 * eval m addr + till * 8) with (8 * eval m addr + 8 * till) by lia.
  eapply reads_at_offset; [apply Ea|apply R0].
Qed.

Lemma read_bytes_spec self addr bits :
  wf self -> get_width addr = 64 -> 64 < bits < 2 ^ 32 -> bits mod 8 = 0 ->
  exists r, (parts ← mapO (fun byte_num =>
               read_within_cell self (bv_add addr (from_u64 byte_num (get_width addr))) BITS_IN_BYTE)
               (range (bits / BITS_IN_BYTE));
             reduceO (fun a b => bv_concat b a) parts) = Ok r /\ get_width r = bits /\
    forall m, reads (membit self m) (8 * eval m addr) bits (eval m r).
Proof.
  intros Hwf W Hb H8. unfold BITS_IN_BYTE. rewrite W. pose proof (Z.div_mod bits 8 ltac:(lia)).
  destruct (range_consecutive (bits / 8) ltac:(lia)) as [Hc Ht].
  destruct (read_parts (fun i => 8 * i) (fun _ => 8) (membit self) (fun m => 8 * eval m addr)
    (fun byte_num => read_within_cell self (bv_add addr (from_u64 byte_num 64)) 8)
    (range (bits / 8))) as (r & E & Wr & Rr); [|done| |].
  - intros E. rewrite E in Ht. cbn in Ht. lia.
  - intros i Hi%range_elem. destruct (addr_offset addr i W ltac:(lia)) as [Wa Ea].
    destruct (read_within_cell_spec self (bv_add addr (from_u64 i 64)) 8 Hwf Wa ltac:(lia)) as (b & Eb & Wb & Rb).
    { intros m. pose proof (Z.mod_pos_bound (eval m (bv_add addr (from_u64 i 64))) 8 ltac:(lia)). lia. }
    exists b. split; [done|]. split; [done|]. intros m. eapply reads_at_offset; [apply Ea|apply Rb].
  - exists r. assert (total (fun _ : Z => 8) (range (bits / 8)) = bits) as Ht' by lia.
    rewrite Ht' in Wr, Rr. done.
Qed.

Lemma read_contents_spec self addr bits :
  wf self -> get_width addr = 64 -> supported addr bits ->
  exists r, read_contents self addr bits = Ok r /\ get_width r = bits /\
    forall m, reads (membit self m) (8 * eval m addr) bits (eval m r).
Proof.
  intros Hwf W [Hb Hs]. unfold read_contents. change CELL_BITS with 64.
  destruct (Z.leb_spec bits 64); [apply read_small_spec; [done|done|lia]|].
  destruct (as_u64 addr) as [u|] eqn:Eu.
  - destruct (Z.eqb_spec (Z.land u CELL_OFFSET_MASK) 0) as [E|E].
    + apply read_large_aligned_spec; [done|done|lia|]. intros m. by rewrite <- (boundary addr u m).
    + apply read_unaligned_spec; [done|done|lia|done|done].
  - destruct Hs as [|[[? ?]|H8]]; [lia|done|]. change BITS_IN_BYTE with 8. rewrite H8.
    pose proof (Z.div_mod bits 8 ltac:(lia)).
    rewrite (proj2 (Z.ltb_lt 0 (bits / 8))) by lia. cbn [Z.eqb assert_ mbind outcome_bind].
    apply read_bytes_spec; [done|done|lia|done].
Qed.

Lemma write_unaligned_spec self addr val u :
  wf self -> get_width addr = 64 -> 64 < get_width val < 2 ^ 32 -> as_u64 addr = Some u ->
  Z.land u CELL_OFFSET_MASK <> 0 ->
  let till := CELL_BYTES - Z.land u CELL_OFFSET_MASK in
  exists self', (self ← write_small self addr (slice val (till * BITS_IN_BYTE - 1) 0);
      write_large_aligned self (bv_add addr (from_u64 till (get_width addr)))
        (slice val (get_width val - 1) (till * BITS_IN_BYTE))) = Ok self' /\ wf self' /\
    null_detection self' = null_detection self /\
    forall m, writes (membit self m) (membit self' m) (8 * eval m addr) (get_width val) (eval m val).
Proof.
  intros Hwf W Hb Eu Hne till. change CELL_BYTES with 8 in till. unfold BITS_IN_BYTE. rewrite W.
  assert (0 <= Z.land u CELL_OFFSET_MASK < 8) as Ro.
  { change CELL_OFFSET_MASK with (Z.ones 3). rewrite Z.land_ones by lia. apply Z.mod_pos_bound. lia. }
  assert (1 <= till <= 7) as Ht by (unfold till; lia).
  destruct (addr_offset addr till W ltac:(lia)) as [Wa Ea].
  set (d1 := slice val (till * 8 - 1) 0). set (d2 := slice val (get_width val - 1) (till * 8)).
  assert (get_width d1 = till * 8) as W1 by (unfold d1; rewrite slice_width; lia).
  assert (get_width d2 = get_width val - till * 8) as W2 by (unfold d2; rewrite slice_width; lia).
  destruct (write_small_spec self addr d1 Hwf W ltac:(lia)) as (s1 & -> & Hwf1 & Hn1 & HW1).
  cbn [mbind outcome_bind].
  destruct (write_large_aligned_spec s1 (bv_add addr (from_u64 till 64)) d2 Hwf1 Wa ltac:(lia))
    as (s2 & -> & Hwf2 & Hn2 & HW2).
  { intros m. rewrite Ea. unfold till. apply next_boundary; [done|lia|symmetry; by apply boundary]. }
  exists s2. split; [done|]. split; [done|]. split; [congruence|]. intros m.
  specialize (HW1 m). specialize (HW2 m). rewrite W1 in HW1. rewrite W2 in HW2.
  replace (get_width val) with (till * 8 + (get_width val - till * 8)) by lia.
  eapply (writes_concat _ (membit s1 m) _ _ (till * 8) _ (eval m d1) (eval m d2)); [lia|lia|unfold space; lia| | |apply HW1|].
  - intros j Hj. unfold d1. rewrite slice_bits by lia. by rewrite Z.div_1_r.
  - intros j Hj. unfold d2. rewrite slice_bits, testbit_div_pow2 by lia. reflexivity.
  - replace (8 * eval m addr + till * 8) with (8 * eval m addr + 8 * till) by lia.
    eapply writes_at_offset; [apply Ea|apply HW2].
Qed.

Lemma write_bytes_spec self addr val :
  wf self -> get_width addr = 64 -> 64 < get_width val < 2 ^ 32 -> get_width val mod 8 = 0 ->
  exists self', foldO (fun self byte_num =>
      write_within_cell self (bv_add addr (from_u64 byte_num (get_width addr)))
        (slice val ((byte_num + 1) * BITS_IN_BYTE - 1) (byte_num * BITS_IN_BYTE)))
      self (range (get_width val / BITS_IN_BYTE)) = Ok self' /\ wf self' /\
    null_detection self' = null_detection self /\
    forall m, writes (membit self m) (membit self' m) (8 * eval m addr) (get_width val) (eval m val).
Proof.
  intros Hwf W Hb H8. unfold BITS_IN_BYTE. rewrite W. pose proof (Z.div_mod (get_width val) 8 ltac:(lia)).
  destruct (range_consecutive (get_width val / 8) ltac:(lia)) as [Hc Ht].
  match goal with |- context [foldO ?F _ _] => destruct (write_parts (fun i => 8 * i) (fun _ => 8)
    (same_config (null_detection self)) membit (fun m => 8 * eval m addr) (fun m => eval m val) F
    (range (get_width val / 8)) 0 self) as (s' & E & [Hwf' Hn] & HW) end; try done.
  - unfold space. rewrite Ht. lia.
  - intros t i [Hwt Hnt] Hi%range_elem. destruct (addr_offset addr i W ltac:(lia)) as [Wa Ea].
    set (d := slice val ((i + 1) * 8 - 1) (i * 8)).
    assert (get_width d = 8) as Wd by (unfold d; rewrite slice_width; lia).
    destruct (write_within_cell_spec t (bv_add addr (from_u64 i 64)) d Hwt Wa ltac:(lia))
      as (t' & Et & Hwt' & Hnt' & HWt).
    { intros m. pose proof (Z.mod_pos_bound (eval m (bv_add addr (from_u64 i 64))) 8 ltac:(lia)). lia. }
    exists t'. split; [done|]. split; [split; [done|congruence]|]. intros m. rewrite Wd in HWt.
    eapply writes_at_offset; [apply Ea|]. eapply writes_ext; [|apply HWt].
    intros j Hj. unfold d. rewrite slice_bits by lia. replace (i * 8) with (8 * i) by lia. done.
  - exists s'. split; [done|]. split; [done|]. split; [done|]. intros m. specialize (HW m).
    rewrite Ht, Z.add_0_r, Z.div_1_r in HW. by replace (8 * (get_width val / 8)) with (get_width val) in HW by lia.
Qed.

Lemma write_contents_spec self addr val :
  wf self -> get_width addr = 64 -> supported addr (get_width val) ->
  exists self', write_contents self addr val = Ok self' /\ wf self' /\
    null_detection self' = null_detection self /\
    forall m, writes (membit self m) (membit self' m) (8 * eval m addr) (get_width val) (eval m val).
Proof.
  intros Hwf W [Hb Hs]. unfold write_contents. change CELL_BITS with 64.
  destruct (Z.leb_spec (get_width val) 64); [by apply write_small_spec|].
  destruct (as_u64 addr) as [u|] eqn:Eu.
  - destruct (Z.eqb_spec (Z.land u CELL_OFFSET_MASK) 0) as [E|E].
    + apply write_large_aligned_spec; [done|done|lia|]. intros m. by rewrite <- (boundary addr u m).
    + apply write_unaligned_spec; [done|done|lia|done|done].
  - destruct Hs as [|[[? ?]|H8]]; [lia|done|]. change BITS_IN_BYTE with 8. rewrite H8.
    cbn [Z.eqb assert_ mbind outcome_bind]. apply write_bytes_spec; [done|done|lia|done].
Qed.

(** [read] and [write], whole. *)
Lemma read_spec self addr bits s :
  wf self -> solver_ok s -> get_width addr = 64 -> supported addr bits ->
  wp (read self addr bits) s (access (null_detection self) s addr (fun v =>
    get_width v = bits /\ forall m, reads (membit self m) (8 * eval m addr) bits (eval m v))).
Proof.
  intros Hwf O W Hs. unfold read. rewrite W. wp_step.
  destruct (read_contents_spec self addr bits Hwf W Hs) as (r & E & Wr & Rr).
  by apply (wp_access _ _ _ _ r).
Qed.

Lemma write_spec self addr val s :
  wf self -> solver_ok s -> get_width addr = 64 -> supported addr (get_width val) ->
  wp (write self addr val) s (access (null_detection self) s addr (fun self' =>
    wf self' /\ null_detection self' = null_detection self /\
    forall m, writes (membit self m) (membit self' m) (8 * eval m addr) (get_width val) (eval m val))).
Proof.
  intros Hwf O W Hs. unfold write. rewrite W. wp_step.
  destruct (write_contents_spec self addr val Hwf W Hs) as (self' & E & HQ).
  by apply (wp_access _ _ _ _ self').
Qed.

Lemma new_uninitialized_spec nd nm s :
  let '(self, s') := new_uninitialized nd nm s in
  wf self /\ null_detection self = nd /\ same_solver s s'.
Proof.
  unfold new_uninitialized. change (INDEX_BITS - LOG_CELL_BYTES) with 61. change CELL_BITS with 64.
  pose proof (array_new_law 61 64 (match nm with Some n => Some n | None => Some "mem"%string end) s
    ltac:(lia) ltac:(lia)) as L.
  destruct (array_new _ _ _ s) as [arr s']. destruct L as (L1 & L2 & L3 & L4).
  split; [|done]. split; [done|]. split; [done|]. cbn.
  split; [|split]; apply from_u64_law; done.
Qed.

Lemma new_zero_initialized_spec nd nm :
  wf (new_zero_initialized nd nm) /\ null_detection (new_zero_initialized nd nm) = nd /\
  forall m p, membit (new_zero_initialized nd nm) m p = false.
Proof.
  destruct (array_new_initialized_law 61 64 (bv_zero 64) ltac:(lia) ltac:(by bv_widths)) as (L1 & L2 & L3).
  split; [|split; [done|]].
  - split; [done|]. split; [done|]. cbn. split; [|split]; apply from_u64_law; done.
  - intros m p. unfold membit. cbn [mem new_zero_initialized].
    change (INDEX_BITS - LOG_CELL_BYTES) with 61. change CELL_BITS with 64.
    rewrite L3, zero_eval by done. apply Z.bits_0.
Qed.

End large.

(** ** The interface, implemented by cells *)

Module CellBackend.

#[export] Instance cell_memory `{Ops : BackendOps} : MemoryOps := {|
  MemorySpec.Memory := CellMemory;
  MemorySpec.new_uninitialized := new_uninitialized;
  MemorySpec.new_zero_initialized := new_zero_initialized;
  mem_read := read;
  mem_write := write;
  mem_change_solver := change_solver
|}.

(** Every size the interface allows is supported. *)
Lemma read_size_supported `{BackendLaws} addr bits : read_size bits -> supported addr bits.
Proof. intros [? [?|?]]; split; auto. left. lia. Qed.

#[export] Instance cell_memory_laws `{Laws : BackendLaws} : MemoryLaws := {|
  mem_bit := membit;
  mem_wf := wf;
  mem_null_detection := null_detection;
  mem_periodic := membit_periodic;
  new_uninitialized_law := new_uninitialized_spec;
  new_zero_initialized_law := new_zero_initialized_spec;
  mem_read_law self addr bits s Hwf O W Hb :=
    read_spec self addr bits s Hwf O W (read_size_supported addr bits Hb);
  mem_write_law self addr v s Hwf O W Hb :=
    write_spec self addr v s Hwf O W
      (read_size_supported addr (get_width v) (conj (proj1 Hb) (or_intror (proj2 Hb))))
|}.

End CellBackend.
