(* ===== verification/SimpleMemory.v ===== *)
(** * SimpleMemory: memory with 8-bit cells (src/src/simple_memory.rs)

    The contents are an array of bytes indexed by the full 64-bit address.
    It implements the same interface ([MemorySpec]) as the memory with 64-bit
    cells; sub-byte accesses are the exception, see [sub_byte_write_differs]. *)
From S2P Require Import Prelude Bits Backend SolverUtils MemorySpec Memory.

Open Scope Z_scope.

Definition INDEX_BITS : Z := 64.
Definition CELL_BITS : Z := 8.
Definition BITS_IN_BYTE : Z := 8.

Section operations.
Context `{Ops : BackendOps}.

Record ByteMemory := {
  mem : Array;
  name : string;
  null_detection : bool
}.

Definition new_uninitialized (null_detection : bool) (nm : option string) (s : SolverRef)
    : ByteMemory * SolverRef :=
  let default_name := "mem"%string in
  let '(arr, s') := array_new INDEX_BITS CELL_BITS
                      (match nm with Some n => Some n | None => Some default_name end) s in
  ({| mem := arr; name := default default_name nm; null_detection := null_detection |}, s').

Definition new_zero_initialized (null_detection : bool) (nm : option string) : ByteMemory :=
  let default_name := "mem_initialized"%string in
  {| mem := array_new_initialized INDEX_BITS CELL_BITS (bv_zero CELL_BITS);
     name := default default_name nm;
     null_detection := null_detection |}.

Definition change_solver (self : ByteMemory) (new_btor : SolverRef) : outcome ByteMemory :=
  arr ← expect "called `Option::unwrap()` on a `None` value" (match_array new_btor (mem self));
  mret {| mem := arr; name := name self; null_detection := null_detection self |}.

Definition read_byte (self : ByteMemory) (addr : BV) : outcome BV :=
  _ ← assert_ "Read address has wrong width" (get_width addr =? INDEX_BITS);
  mret (array_read (mem self) addr).

Definition write_byte (self : ByteMemory) (addr val : BV) : outcome ByteMemory :=
  _ ← assert_ "Write address has wrong width" (get_width addr =? INDEX_BITS);
  _ ← assert_ "write_byte: expected exactly one byte of data to write" (get_width val =? CELL_BITS);
  mret {| mem := array_write (mem self) addr val; name := name self;
          null_detection := null_detection self |}.

Definition read_contents (self : ByteMemory) (addr : BV) (bits : Z) : outcome BV :=
  if bits <? BITS_IN_BYTE then
    byte ← read_byte self addr;
    hi ← u32_sub bits 1;
    mret (slice byte hi 0)
  else
    _ ← assert_ "Read with size {} bits" (bits mod BITS_IN_BYTE =? 0);
    let bytes := bits / BITS_IN_BYTE in
    _ ← assert_ "Read of length 0" (0 <? bytes);
    parts ← mapO (fun byte_num => read_byte self (bv_add addr (from_u64 byte_num INDEX_BITS)))
              (range bytes);
    reduceO (fun a b => bv_concat b a) parts.

Definition read (self : ByteMemory) (addr : BV) (bits : Z) : M SolverRef BV :=
  _ ← lift (assert_ "Read address has wrong width" (get_width addr =? INDEX_BITS));
  _ ← null_check (null_detection self) addr;
  lift (read_contents self addr bits).

Definition write_contents (self : ByteMemory) (addr val : BV) : outcome ByteMemory :=
  let addr_width := get_width addr in
  let write_size := get_width val in
  let write_data := if write_size <? BITS_IN_BYTE then zext val (8 - write_size) else val in
  let write_size := get_width write_data in
  _ ← assert_ "Write with size {} bits" (write_size mod BITS_IN_BYTE =? 0);
  let write_size_bytes := write_size / BITS_IN_BYTE in
  foldO (fun self byte_num =>
      let data_byte :=
        slice write_data ((byte_num + 1) * BITS_IN_BYTE - 1) (byte_num * BITS_IN_BYTE) in
      write_byte self (bv_add addr (from_u64 byte_num addr_width)) data_byte)
    self (range write_size_bytes).

Definition write (self : ByteMemory) (addr val : BV) : M SolverRef ByteMemory :=
  _ ← lift (assert_ "Write address has wrong width" (get_width addr =? INDEX_BITS));
  _ ← null_check (null_detection self) addr;
  lift (write_contents self addr val).

End operations.

(** ** Bytes and bits *)

Section bytes.
Context `{Laws : BackendLaws}.
Implicit Types (self : ByteMemory) (addr val : BV).

Definition membit self (m : Model) (p : Z) : bool :=
  Z.testbit (eval_array m (mem self) (p mod space / 8)) (p mod 8).

Definition wf self : Prop := index_width (mem self) = 64 /\ element_width (mem self) = 8.
Definition same_config nd self : Prop := wf self /\ null_detection self = nd.

Lemma mod_space_8 p : (p mod space) mod 8 = p mod 8.
Proof.
  unfold space. change (2 ^ 67) with (8 * 2 ^ 64). rewrite Z.rem_mul_r by done.
  by rewrite (Z.mul_comm 8), Z.mod_add, Z.mod_mod.
Qed.

Lemma byte_membit_periodic self m : periodic (membit self m).
Proof. intros p. unfold membit. by rewrite Z.mod_mod, mod_space_8. Qed.

Lemma read_byte_spec self addr : wf self -> get_width addr = 64 ->
  exists r, read_byte self addr = Ok r /\ get_width r = 8 /\
    forall m, reads (membit self m) (8 * eval m addr) 8 (eval m r).
Proof.
  intros [Wi We] W. unfold read_byte. rewrite W. cbn. eexists. split; [done|].
  destruct (array_read_law (mem self) addr (eq_trans W (eq_sym Wi))) as [Wr Er]. rewrite We in Wr.
  split; [done|]. intros m. pose proof (eval_range m (array_read (mem self) addr)) as R. rewrite Wr in R.
  split; [done|]. intros j Hj. rewrite Er. unfold membit. pose proof (eval_range m addr) as Ra.
  rewrite W in Ra. rewrite Z.mod_small by (unfold space; lia).
  rewrite Z.mul_comm, Z.div_add_l, Z.div_small, Z.add_0_r by lia.
  by rewrite Z.add_comm, Z.mod_add, Z.mod_small by lia.
Qed.

Lemma write_byte_spec self addr val : wf self -> get_width addr = 64 -> get_width val = 8 ->
  exists self', write_byte self addr val = Ok self' /\ wf self' /\
    null_detection self' = null_detection self /\
    forall m, writes (membit self m) (membit self' m) (8 * eval m addr) 8 (eval m val).
Proof.
  intros [Wi We] W Wv. unfold write_byte. rewrite W, Wv. cbn. eexists. split; [done|].
  destruct (array_write_law (mem self) addr val (eq_trans W (eq_sym Wi)) (eq_trans Wv (eq_sym We)))
    as (L1 & L2 & L3).
  split; [split; cbn; congruence|]. split; [done|]. intros m p. unfold membit at 1. cbn [mem].
  rewrite L3. pose proof (eval_range m addr) as Ra. rewrite W in Ra. set (a := eval m addr) in *.
  pose proof (Z.mod_pos_bound p space eq_refl) as R. rewrite <- mod_space_8.
  assert ((p - 8 * a) mod space = (p mod space - 8 * a) mod space) as -> by (by rewrite Zminus_mod_idemp_l).
  replace (membit self m p) with (Z.testbit (eval_array m (mem self) (p mod space / 8)) ((p mod space) mod 8))
    by (unfold membit; by rewrite mod_space_8).
  set (q := p mod space) in *. assert (space = 8 * 2 ^ 64) as HS by done. clearbody q a.
  pose proof (Z.div_mod q 8 ltac:(lia)). pose proof (Z.mod_pos_bound q 8 ltac:(lia)).
  destruct (Z.eqb_spec (q / 8) a) as [E|E].
  - rewrite (Z.mod_small (q - 8 * a)) by lia. rewrite (proj2 (Z.ltb_lt _ _)) by lia. f_equal. lia.
  - destruct (Z.ltb_spec ((q - 8 * a) mod space) 8) as [Hlt|]; [|done]. exfalso.
    assert (q < 8 * a \/ 8 * a + 8 <= q) as [Hq|Hq] by lia.
    + rewrite <- (Z.mod_add _ 1), (Z.mod_small (q - 8 * a + 1 * space)) in Hlt by lia. lia.
    + rewrite (Z.mod_small (q - 8 * a)) in Hlt by lia. lia.
Qed.

Lemma byte_read_contents_spec self addr bits :
  wf self -> get_width addr = 64 -> read_size bits ->
  exists r, read_contents self addr bits = Ok r /\ get_width r = bits /\
    forall m, reads (membit self m) (8 * eval m addr) bits (eval m r).
Proof.
  intros Hwf W [Hb Hs]. unfold read_contents. change BITS_IN_BYTE with 8. change INDEX_BITS with 64.
  destruct (Z.ltb_spec bits 8).
  - destruct (read_byte_spec self addr Hwf W) as (r & -> & Wr & Rr). cbn [mbind outcome_bind].
    unfold u32_sub. rewrite (proj2 (Z.leb_le _ _)) by lia. cbn [mbind outcome_bind].
    eexists. split; [done|]. split; [rewrite slice_width by lia; lia|]. intros m.
    rewrite slice_eval by lia. pose proof (reads_part _ _ 8 _ 0 bits ltac:(lia) ltac:(lia) ltac:(lia) (Rr m)) as Hp.
    by rewrite Z.div_1_r, Z.add_0_r in Hp.
  - destruct Hs as [|H8]; [lia|]. rewrite H8. pose proof (Z.div_mod bits 8 ltac:(lia)).
    rewrite (proj2 (Z.ltb_lt 0 (bits / 8))) by lia. cbn [Z.eqb assert_ mbind outcome_bind].
    destruct (range_consecutive (bits / 8) ltac:(lia)) as [Hc Ht].
    destruct (read_parts (fun i => 8 * i) (fun _ => 8) (membit self) (fun m => 8 * eval m addr)
      (fun byte_num => read_byte self (bv_add addr (from_u64 byte_num 64)))
      (range (bits / 8))) as (r & E & Wr & Rr); [|done| |].
    + intros E. rewrite E in Ht. cbn in Ht. lia.
    + intros i Hi%range_elem. destruct (Memory.addr_offset addr i W ltac:(lia)) as [Wa Ea].
      destruct (read_byte_spec self (bv_add addr (from_u64 i 64)) Hwf Wa) as (b & Eb & Wb & Rb).
      exists b. split; [done|]. split; [done|]. intros m.
      eapply reads_congr; [apply byte_membit_periodic| |apply Rb]. rewrite Ea, addr_wrap. f_equal. lia.
    + exists r. assert (total (fun _ : Z => 8) (range (bits / 8)) = bits) as Ht' by lia.
      rewrite Ht' in Wr, Rr. done.
Qed.

(** Writing a whole number of bytes, byte by byte. *)
Lemma byte_write_bytes_spec self addr val :
  wf self -> get_width addr = 64 -> byte_size (get_width val) ->
  exists self', foldO (fun self byte_num =>
      write_byte self (bv_add addr (from_u64 byte_num (get_width addr)))
        (slice val ((byte_num + 1) * BITS_IN_BYTE - 1) (byte_num * BITS_IN_BYTE)))
      self (range (get_width val / BITS_IN_BYTE)) = Ok self' /\ wf self' /\
    null_detection self' = null_detection self /\
    forall m, writes (membit self m) (membit self' m) (8 * eval m addr) (get_width val) (eval m val).
Proof.
  intros Hwf W [Hb H8]. unfold BITS_IN_BYTE. rewrite W. pose proof (Z.div_mod (get_width val) 8 ltac:(lia)).
  destruct (range_consecutive (get_width val / 8) ltac:(lia)) as [Hc Ht].
  match goal with |- context [foldO ?F _ _] => destruct (write_parts (fun i => 8 * i) (fun _ => 8)
    (same_config (null_detection self)) membit (fun m => 8 * eval m addr) (fun m => eval m val) F
    (range (get_width val / 8)) 0 self) as (s' & E & [Hwf' Hn] & HW) end; try done.
  - unfold space. rewrite Ht. lia.
  - intros t i [Hwt Hnt] Hi%range_elem. destruct (Memory.addr_offset addr i W ltac:(lia)) as [Wa Ea].
    set (d := slice val ((i + 1) * 8 - 1) (i * 8)).
    assert (get_width d = 8) as Wd by (unfold d; rewrite slice_width; lia).
    destruct (write_byte_spec t (bv_add addr (from_u64 i 64)) d Hwt Wa Wd) as (t' & Et & Hwt' & Hnt' & HWt).
    exists t'. split; [done|]. split; [split; [done|congruence]|]. intros m.
    eapply Memory.writes_at_offset; [apply Ea|]. eapply Memory.writes_ext; [|apply HWt].
    intros j Hj. unfold d. rewrite Memory.slice_bits by lia. replace (i * 8) with (8 * i) by lia. done.
  - exists s'. split; [done|]. split; [done|]. split; [done|]. intros m. specialize (HW m).
    rewrite Ht, Z.add_0_r, Z.div_1_r in HW. by replace (8 * (get_width val / 8)) with (get_width val) in HW by lia.
Qed.

Lemma byte_write_contents_spec self addr val :
  wf self -> get_width addr = 64 -> byte_size (get_width val) ->
  exists self', write_contents self addr val = Ok self' /\ wf self' /\
    null_detection self' = null_detection self /\
    forall m, writes (membit self m) (membit self' m) (8 * eval m addr) (get_width val) (eval m val).
Proof.
  intros Hwf W Hs. unfold write_contents. destruct (byte_write_bytes_spec self addr val Hwf W Hs) as (s' & E & HQ).
  destruct Hs as [Hb H8]. pose proof (Z.div_mod (get_width val) 8 ltac:(lia)).
  unfold BITS_IN_BYTE in *. rewrite (proj2 (Z.ltb_ge (get_width val) 8)) by lia. rewrite H8.
  cbn [Z.eqb assert_ mbind outcome_bind]. by exists s'.
Qed.

Lemma byte_read_spec self addr bits s :
  wf self -> solver_ok s -> get_width addr = 64 -> read_size bits ->
  wp (read self addr bits) s (access (null_detection self) s addr (fun v =>
    get_width v = bits /\ forall m, reads (membit self m) (8 * eval m addr) bits (eval m v))).
Proof.
  intros Hwf O W Hs. unfold read. rewrite W. wp_step.
  destruct (byte_read_contents_spec self addr bits Hwf W Hs) as (r & E & Wr & Rr).
  by apply (wp_access _ _ _ _ r).
Qed.

Lemma byte_write_spec self addr val s :
  wf self -> solver_ok s -> get_width addr = 64 -> byte_size (get_width val) ->
  wp (write self addr val) s (access (null_detection self) s addr (fun self' =>
    wf self' /\ null_detection self' = null_detection self /\
    forall m, writes (membit self m) (membit self' m) (8 * eval m addr) (get_width val) (eval m val))).
Proof.
  intros Hwf O W Hs. unfold write. rewrite W. wp_step.
  destruct (byte_write_contents_spec self addr val Hwf W Hs) as (self' & E & HQ).
  by apply (wp_access _ _ _ _ self').
Qed.

Lemma byte_new_uninitialized_spec nd nm s :
  let '(self, s') := new_uninitialized nd nm s in
  wf self /\ null_detection self = nd /\ same_solver s s'.
Proof.
  unfold new_uninitialized. change INDEX_BITS with 64. change CELL_BITS with 8.
  pose proof (array_new_law 64 8 (match nm with Some n => Some n | None => Some "mem"%string end) s
    ltac:(lia) ltac:(lia)) as L.
  destruct (array_new _ _ _ s) as [arr s']. destruct L as (L1 & L2 & L3 & L4). done.
Qed.

Lemma byte_new_zero_initialized_spec nd nm :
  wf (new_zero_initialized nd nm) /\ null_detection (new_zero_initialized nd nm) = nd /\
  forall m p, membit (new_zero_initialized nd nm) m p = false.
Proof.
  destruct (array_new_initialized_law 64 8 (bv_zero 8) ltac:(lia) ltac:(by bv_widths)) as (L1 & L2 & L3).
  split; [done|]. split; [done|]. intros m p. unfold membit. cbn [mem new_zero_initialized].
  change INDEX_BITS with 64. change CELL_BITS with 8. rewrite L3, zero_eval by done. apply Z.bits_0.
Qed.

End bytes.

Module ByteBackend.

#[export] Instance byte_memory `{Ops : BackendOps} : MemoryOps := {|
  MemorySpec.Memory := ByteMemory;
  MemorySpec.new_uninitialized := new_uninitialized;
  MemorySpec.new_zero_initialized := new_zero_initialized;
  mem_read := read;
  mem_write := write;
  mem_change_solver := change_solver
|}.

#[export] Instance byte_memory_laws `{Laws : BackendLaws} : MemoryLaws := {|
  mem_bit := membit;
  mem_wf := wf;
  mem_null_detection := null_detection;
  mem_periodic := byte_membit_periodic;
  new_uninitialized_law := byte_new_uninitialized_spec;
  new_zero_initialized_law := byte_new_zero_initialized_spec;
  mem_read_law := byte_read_spec;
  mem_write_law := byte_write_spec
|}.

End ByteBackend.
