(* ===== verification/MemoryTheorems.v ===== *)
(** * MemoryTheorems: correctness of the two memories, and their equivalence

    What the engine relies on when it loads and stores: an access returns or
    replaces exactly the addressed bits, a store can be read back, disjoint
    stores do not interfere, and a program cannot tell the memory with 64-bit
    cells from the one with bytes. *)
From S2P Require Import Prelude Bits Backend SolverUtils MemorySpec Memory SimpleMemory ToySolver.

Open Scope Z_scope.

Section correctness.
Context `{Laws : BackendLaws}.

(** C17: a read of a supported size from a well-formed memory with 64-bit cells
    returns a value of that many bits whose bits are those stored at the
    address, in every model and at every alignment (addresses wrap around at
    [2 ^ 64]); it fails only when the address can be null and null detection
    is on, or when a query fails; it never panics. *)
Theorem cell_read_correct (self : CellMemory) addr bits s :
  Memory.wf self -> solver_ok s -> get_width addr = 64 -> supported addr bits ->
  wp (Memory.read self addr bits) s (access (Memory.null_detection self) s addr (fun v =>
    get_width v = bits /\
    forall m, reads (Memory.membit self m) (8 * eval m addr) bits (eval m v))).
Proof. apply Memory.read_spec. Qed.

(** C18: a write of a supported size replaces exactly the addressed bits, in
    every model, and keeps the memory well-formed. *)
Theorem cell_write_correct (self : CellMemory) addr val s :
  Memory.wf self -> solver_ok s -> get_width addr = 64 -> supported addr (get_width val) ->
  wp (Memory.write self addr val) s (access (Memory.null_detection self) s addr (fun self' =>
    Memory.wf self' /\ Memory.null_detection self' = Memory.null_detection self /\
    forall m, writes (Memory.membit self m) (Memory.membit self' m)
                (8 * eval m addr) (get_width val) (eval m val))).
Proof. apply Memory.write_spec. Qed.

(** The byte memory reads and writes exactly the addressed bits too, for
    the sizes of the [Memory] interface. *)
Theorem byte_memory_correct (self : ByteMemory) addr bits val s :
  SimpleMemory.wf self -> solver_ok s -> get_width addr = 64 -> read_size bits ->
  byte_size (get_width val) ->
  wp (SimpleMemory.read self addr bits) s
    (access (SimpleMemory.null_detection self) s addr (fun v =>
      get_width v = bits /\
      forall m, reads (SimpleMemory.membit self m) (8 * eval m addr) bits (eval m v))) /\
  wp (SimpleMemory.write self addr val) s
    (access (SimpleMemory.null_detection self) s addr (fun self' =>
      SimpleMemory.wf self' /\
      SimpleMemory.null_detection self' = SimpleMemory.null_detection self /\
      forall m, writes (SimpleMemory.membit self m) (SimpleMemory.membit self' m)
                  (8 * eval m addr) (get_width val) (eval m val))).
Proof. intros. split; [by apply SimpleMemory.byte_read_spec|by apply SimpleMemory.byte_write_spec]. Qed.

(** Below a byte the two memories disagree: a write of fewer than eight bits
    to the byte memory is zero-extended and clears the rest of the byte, while
    the memory with 64-bit cells preserves it. *)
Theorem sub_byte_write_differs (mb : ByteMemory) (mc : CellMemory) addr val :
  SimpleMemory.wf mb -> Memory.wf mc -> get_width addr = 64 -> get_width val < 8 ->
  exists mb' mc',
    SimpleMemory.write_contents mb addr val = Ok mb' /\ Memory.write_contents mc addr val = Ok mc' /\
    forall m,
      writes (SimpleMemory.membit mb m) (SimpleMemory.membit mb' m) (8 * eval m addr) 8 (eval m val) /\
      writes (Memory.membit mc m) (Memory.membit mc' m) (8 * eval m addr) (get_width val) (eval m val).
Proof.
  intros Hb Hc W Hv. pose proof (width_pos val).
  destruct (SimpleMemory.byte_write_bytes_spec mb addr (zext val (8 - get_width val)) Hb W) as (mb' & Eb & _ & _ & HWb).
  { unfold byte_size. rewrite zext_width by lia.
    replace (get_width val + (8 - get_width val)) with 8 by lia. done. }
  destruct (Memory.write_contents_spec mc addr val Hc W) as (mc' & Ec & _ & _ & HWc).
  { split; [lia|]. left. lia. }
  exists mb', mc'. split; [|split; [done|]].
  - unfold SimpleMemory.write_contents, BITS_IN_BYTE in *. rewrite (proj2 (Z.ltb_lt _ _)) by lia.
    rewrite zext_width in * by lia. replace (get_width val + (8 - get_width val)) with 8 in * by lia. done.
  - intros m. split; [|apply HWc]. specialize (HWb m). rewrite zext_width, zext_eval in HWb by lia.
    by replace (get_width val + (8 - get_width val)) with 8 in HWb by lia.
Qed.

End correctness.

(** ** Against the interface *)

Section interface.
Context `{Laws : BackendLaws} `{MOps : !MemoryOps} `{MLaws : !MemoryLaws}.

(** A store followed by a load of the same size at the same address. *)
Definition store_load (mem : MemorySpec.Memory) (addr val : BV) : M SolverRef BV :=
  mem' ← mem_write mem addr val; mem_read mem' addr (get_width val).

Lemma store_load_spec mem addr val s :
  mem_wf mem -> solver_ok s -> get_width addr = 64 -> byte_size (get_width val) ->
  wp (store_load mem addr val) s (access (mem_null_detection mem) s addr (fun v =>
    get_width v = get_width val /\ forall m, eval m v = eval m val)).
Proof.
  intros Hwf O W Hs. unfold store_load. apply wp_bind.
  eapply wp_mono; [by apply mem_write_law|]. intros [mem'|e|p|] s'; simpl; try done.
  intros (Hss & Hnull & Hwf' & Hnd & HW). eapply wp_mono; [apply mem_read_law|].
  - done.
  - by rewrite <- Hss.
  - done.
  - destruct Hs. split; [done|by right].
  - rewrite Hnd. intros [v|e|p|] s''; simpl; try done.
    + intros (Hss' & _ & Wv & HR). split; [by rewrite Hss|]. split; [done|]. split; [done|].
      intros m. pose proof (eval_range m val). destruct Hs as [Hs _].
      eapply reads_unique; [|apply HR|]; [lia|].
      eapply reads_after_write; [unfold space; lia|done|apply HW].
    + intros [?|(-> & Hd & Hp & Hss')]; [by left|]. exfalso. apply Hnull; [done|]. by rewrite Hss.
Qed.

(** What is stored can be loaded: a store followed by a load of the same
    size at the same address, symbolic or not, gives a term with the stored
    value in every model. *)
Theorem store_load_roundtrip mem addr val s :
  mem_wf mem -> solver_ok s -> get_width addr = 64 -> byte_size (get_width val) ->
  wp (store_load mem addr val) s (access (mem_null_detection mem) s addr (fun v =>
    get_width v = get_width val /\ forall m, eval m v = eval m val)).
Proof. apply store_load_spec. Qed.

(** A store does not disturb disjoint memory: a load that, in a model, has
    no bit in common with the store sees the bits from before it there. *)
Theorem store_frame mem addr val a bits s m :
  mem_wf mem -> solver_ok s -> get_width addr = 64 -> get_width a = 64 ->
  byte_size (get_width val) -> read_size bits ->
  disjoint_ranges (8 * eval m addr) (get_width val) (8 * eval m a) bits ->
  wp (mem_write mem addr val) s (access (mem_null_detection mem) s addr (fun mem' =>
    wp (mem_read mem' a bits) s (access (mem_null_detection mem) s a (fun v =>
      reads (mem_bit mem m) (8 * eval m a) bits (eval m v))))).
Proof.
  intros Hwf O W Wa Hs Hb D. eapply wp_mono; [by apply mem_write_law|].
  intros [mem'|e|p|] s'; simpl; try done. intros (Hss & Hnull & Hwf' & Hnd & HW).
  split; [done|]. split; [done|]. rewrite <- Hnd. eapply wp_mono; [by apply mem_read_law|].
  intros [v|e|p|] s''; simpl; try done. intros (Hss' & Hn' & Wv & HR).
  split; [done|]. split; [done|]. destruct (HR m) as [Rv Bv]. split; [done|]. intros j Hj.
  rewrite Bv by done. rewrite (HW m). pose proof (Z.mod_pos_bound (8 * eval m a + j - 8 * eval m addr) space eq_refl) as Rm.
  destruct (Z.ltb_spec ((8 * eval m a + j - 8 * eval m addr) mod space) (get_width val)) as [Hlt|]; [|done].
  exfalso. apply (D ((8 * eval m a + j - 8 * eval m addr) mod space) j); [lia|done|].
  rewrite Z.add_comm, Zplus_mod_idemp_l. f_equal. lia.
Qed.

End interface.

(** ** The two implementations cannot be told apart *)

Section programs.
Context `{Ops : BackendOps}.

Inductive memop := Load (addr : BV) (bits : Z) | Store (addr val : BV).

(** A sequence of accesses; the results of the loads, in order. *)
Fixpoint run `{MOps : !MemoryOps} (ops : list memop) (mem : MemorySpec.Memory) : M SolverRef (list BV) :=
  match ops with
  | [] => mret []
  | Load addr bits :: ops => v ← mem_read mem addr bits; vs ← run ops mem; mret (v :: vs)
  | Store addr val :: ops => mem' ← mem_write mem addr val; run ops mem'
  end.

Definition valid_op (op : memop) : Prop :=
  match op with
  | Load addr bits => get_width addr = 64 /\ read_size bits
  | Store addr val => get_width addr = 64 /\ byte_size (get_width val)
  end.

End programs.

Section equivalence.
Context `{Laws : BackendLaws}.

(** Equal outcomes, up to a relation on the values. *)
Definition outcome_rel {A B} (R : A -> B -> Prop) (r : outcome A) (r' : outcome B) : Prop :=
  match r, r' with
  | Ok a, Ok b => R a b
  | Err e, Err e' => e = e'
  | _, _ => False
  end.
(** Terms with the same width and the same value in every model. *)
Definition bv_equiv (a b : BV) : Prop :=
  get_width a = get_width b /\ forall m, eval m a = eval m b.

Definition mem_equiv (mc : CellMemory) (mb : ByteMemory) : Prop :=
  Memory.wf mc /\ SimpleMemory.wf mb /\
  Memory.null_detection mc = SimpleMemory.null_detection mb /\
  forall m p, Memory.membit mc m p = SimpleMemory.membit mb m p.

Lemma null_check_outcome nd addr s : solver_ok s ->
  match null_check nd addr s with
  | (Ok _, s') => solver_ok s'
  | (Err _, _) => True
  | _ => False
  end.
Proof.
  intros O. pose proof (wp_null_check nd addr s O) as HW.
  destruct (null_check nd addr s) as [r s'] eqn:E. apply (wp_run _ _ _ _ _ E) in HW.
  destruct r; simpl in HW; try done. destruct HW as [Hs _]. by rewrite <- Hs.
Qed.

Lemma read_equiv mc mb addr bits s :
  mem_equiv mc mb -> solver_ok s -> get_width addr = 64 -> read_size bits ->
  snd (Memory.read mc addr bits s) = snd (SimpleMemory.read mb addr bits s) /\
  outcome_rel (fun a b => bv_equiv a b /\ solver_ok (snd (Memory.read mc addr bits s)))
    (fst (Memory.read mc addr bits s)) (fst (SimpleMemory.read mb addr bits s)).
Proof.
  intros (Hc & Hb & Hnd & Hbits) O W Hs. unfold Memory.read, SimpleMemory.read. rewrite W.
  destruct (Memory.read_contents_spec mc addr bits Hc W) as (vc & -> & Wc & Rc).
  { destruct Hs as [? [?|?]]; split; auto. left. lia. }
  destruct (SimpleMemory.byte_read_contents_spec mb addr bits Hb W Hs) as (vb & -> & Wb & Rb).
  rewrite Hnd. cbn. unfold mbind, M_bind, lift. cbn.
  pose proof (null_check_outcome (SimpleMemory.null_detection mb) addr s O) as HN.
  destruct (null_check _ addr s) as [[[]|e|p|] s']; cbn; try done.
  split; [done|]. split; [|done]. split; [congruence|]. intros m.
  destruct Hs as [Hs _]. eapply (reads_unique (Memory.membit mc m)); [|apply Rc|]; [lia|].
  destruct (Rb m) as [R B]. split; [done|]. intros j Hj. rewrite Hbits. by apply B.
Qed.

Lemma write_equiv mc mb addr val s :
  mem_equiv mc mb -> solver_ok s -> get_width addr = 64 -> byte_size (get_width val) ->
  snd (Memory.write mc addr val s) = snd (SimpleMemory.write mb addr val s) /\
  outcome_rel (fun mc' mb' => mem_equiv mc' mb' /\ solver_ok (snd (Memory.write mc addr val s)))
    (fst (Memory.write mc addr val s)) (fst (SimpleMemory.write mb addr val s)).
Proof.
  intros (Hc & Hb & Hnd & Hbits) O W Hs. unfold Memory.write, SimpleMemory.write. rewrite W.
  destruct (Memory.write_contents_spec mc addr val Hc W) as (mc' & -> & Hc' & Hn' & HWc).
  { destruct Hs. split; auto. }
  destruct (SimpleMemory.byte_write_contents_spec mb addr val Hb W Hs) as (mb' & -> & Hb' & Hn2 & HWb).
  rewrite Hnd. cbn. unfold mbind, M_bind, lift. cbn.
  pose proof (null_check_outcome (SimpleMemory.null_detection mb) addr s O) as HN.
  destruct (null_check _ addr s) as [[[]|e|p|] s']; cbn; try done.
  split; [done|]. split; [|done]. split; [done|]. split; [done|]. split; [congruence|].
  intros m p. rewrite (HWc m p), (HWb m p), Hbits. done.
Qed.

(** C16: refinement of one memory by the other: any sequence of loads and stores
    of the interface's sizes ([valid_op]: 64-bit addresses, stores of whole bytes,
    loads that both memories support; stores of a part of a byte differ, see
    [sub_byte_write_differs]), run on the memory with 64-bit cells and on the
    byte memory from equal contents and the same solver, performs the same
    queries, leaves the same solver state, and either fails with the same
    error or yields the same values in every model. *)
Theorem memories_equivalent ops mc mb s :
  mem_equiv mc mb -> solver_ok s -> Forall valid_op ops ->
  snd (run (MOps := CellBackend.cell_memory) ops mc s) =
  snd (run (MOps := ByteBackend.byte_memory) ops mb s) /\
  outcome_rel (Forall2 bv_equiv)
    (fst (run (MOps := CellBackend.cell_memory) ops mc s))
    (fst (run (MOps := ByteBackend.byte_memory) ops mb s)).
Proof.
  intros HE O HV. revert mc mb s HE O.
  induction HV as [|op ops Hop HV IH]; intros mc mb s HE O; [by split; [|constructor]|].
  destruct op as [addr bits|addr val]; destruct Hop as [W Hs]; cbn [run]; unfold mbind, M_bind; cbn.
  - destruct (read_equiv mc mb addr bits s HE O W Hs) as [Hst Hout].
    destruct (Memory.read mc addr bits s) as [[v|e|p|] s1], (SimpleMemory.read mb addr bits s) as [[v'|e'|p'|] s1'];
      cbn in *; try done; subst.
    destruct Hout as [Hv O1]. destruct (IH mc mb s1' HE O1) as [Hst2 Hout2].
    unfold mbind, M_bind in *.
    destruct (run (MOps := CellBackend.cell_memory) ops mc s1') as [[vs|e|p|] s2],
      (run (MOps := ByteBackend.byte_memory) ops mb s1') as [[vs'|e'|p'|] s2']; cbn in *; try done.
    split; [done|]. by constructor.
  - destruct (write_equiv mc mb addr val s HE O W Hs) as [Hst Hout].
    destruct (Memory.write mc addr val s) as [[v|e|p|] s1], (SimpleMemory.write mb addr val s) as [[v'|e'|p'|] s1'];
      cbn in *; try done; subst.
    destruct Hout as [Hv O1]. by apply IH.
Qed.

End equivalence.

(** ** Witnesses *)

Module MemoryWitnesses.
Import ToyBackend Toy.

(** A symbolic 64-bit address: the first variable of the solver, shifted. *)
Definition s1 : SolverRef := snd (bv_new 64 None solver_new).
Definition sym : BV := bv_add (fst (bv_new 64 None solver_new)) (from_u64 1021 64).
Definition cells : CellMemory := Memory.new_zero_initialized true None.
Definition bytes : ByteMemory := SimpleMemory.new_zero_initialized true None.

Lemma solver_ok_s1 : solver_ok s1.
Proof. done. Qed.
Lemma wf_cells : Memory.wf cells.
Proof. apply (Memory.new_zero_initialized_spec true None). Qed.
Lemma wf_bytes : SimpleMemory.wf bytes.
Proof. apply (SimpleMemory.byte_new_zero_initialized_spec true None). Qed.
Lemma cells_bytes : mem_equiv cells bytes.
Proof.
  split; [apply wf_cells|]. split; [apply wf_bytes|]. split; [done|]. intros m p.
  destruct (Memory.new_zero_initialized_spec true None) as (_ & _ & ->).
  by destruct (SimpleMemory.byte_new_zero_initialized_spec true None) as (_ & _ & ->).
Qed.

(** An unaligned 80-bit store that crosses a cell boundary, read back. *)
Example unaligned_roundtrip_runs :
  (fun '(r, _) => match r with Ok v => Some (eval (true, false, true, false) v) | _ => None end)
    (store_load (MOps := CellBackend.cell_memory) cells sym (from_u64 987654321 80) s1)
  = Some 987654321.
Proof. vm_compute. reflexivity. Qed.

Lemma cell_read_witness :
  wp (Memory.read cells sym 24) s1 (access true s1 sym (fun v =>
    get_width v = 24 /\ forall m, reads (Memory.membit cells m) (8 * eval m sym) 24 (eval m v))).
Proof.
  apply (cell_read_correct cells sym 24 s1); [apply wf_cells|apply solver_ok_s1|reflexivity|].
  split; [lia|left; lia].
Defined.

Lemma cell_write_witness :
  wp (Memory.write cells sym (from_u64 77 80)) s1 (access true s1 sym (fun self' =>
    Memory.wf self' /\ Memory.null_detection self' = true /\
    forall m, writes (Memory.membit cells m) (Memory.membit self' m) (8 * eval m sym) 80
                (eval m (from_u64 77 80)))).
Proof.
  apply (cell_write_correct cells sym (from_u64 77 80) s1); [apply wf_cells|apply solver_ok_s1|reflexivity|].
  split; [by vm_compute|right; by right].
Defined.

Lemma byte_memory_witness :
  wp (SimpleMemory.read bytes sym 24) s1 (access true s1 sym (fun v =>
    get_width v = 24 /\ forall m, reads (SimpleMemory.membit bytes m) (8 * eval m sym) 24 (eval m v))).
Proof.
  apply (byte_memory_correct bytes sym 24 (from_u64 5 32) s1);
    [apply wf_bytes|apply solver_ok_s1|reflexivity|split; [lia|by right]|by vm_compute].
Defined.

Lemma sub_byte_write_witness :
  exists mb' mc',
    SimpleMemory.write_contents bytes sym (from_u64 5 4) = Ok mb' /\
    Memory.write_contents cells sym (from_u64 5 4) = Ok mc' /\
    forall m,
      writes (SimpleMemory.membit bytes m) (SimpleMemory.membit mb' m) (8 * eval m sym) 8
        (eval m (from_u64 5 4)) /\
      writes (Memory.membit cells m) (Memory.membit mc' m) (8 * eval m sym) 4 (eval m (from_u64 5 4)).
Proof.
  apply (sub_byte_write_differs bytes cells sym (from_u64 5 4));
    [apply wf_bytes|apply wf_cells|reflexivity|by vm_compute].
Defined.

Lemma store_load_witness :
  wp (store_load (MOps := CellBackend.cell_memory) cells sym (from_u64 77 80)) s1
    (access true s1 sym (fun v =>
      get_width v = 80 /\ forall m, eval m v = eval m (from_u64 77 80))).
Proof.
  apply (store_load_roundtrip (MLaws := CellBackend.cell_memory_laws) cells sym (from_u64 77 80) s1);
    [apply wf_cells|apply solver_ok_s1|reflexivity|by vm_compute].
Defined.

Definition m3 : Model := (false, false, true, true).

Lemma store_frame_witness :
  wp (SimpleMemory.write bytes sym (from_u64 77 32)) s1 (access true s1 sym (fun mem' =>
    wp (SimpleMemory.read mem' (from_u64 9 64) 16) s1 (access true s1 (from_u64 9 64) (fun v =>
      reads (SimpleMemory.membit bytes m3) (8 * 9) 16 (eval m3 v))))).
Proof.
  apply (store_frame (MLaws := ByteBackend.byte_memory_laws) bytes sym (from_u64 77 32) (from_u64 9 64) 16 s1 m3);
    [apply wf_bytes|apply solver_ok_s1|reflexivity|reflexivity|by vm_compute|split; [lia|by right]|].
  intros i j Hi Hj.
  change (8 * eval m3 sym) with 8192.
  change (8 * eval m3 (from_u64 9 64)) with 72.
  change (get_width (from_u64 77 32)) with 32 in Hi.
  rewrite !Z.mod_small by (unfold space; lia). lia.
Defined.

Lemma memories_equivalent_witness :
  let ops := [Store sym (from_u64 77 80); Load sym 24; Load (from_u64 5 64) 3] in
  snd (run (MOps := CellBackend.cell_memory) ops cells s1) =
  snd (run (MOps := ByteBackend.byte_memory) ops bytes s1) /\
  outcome_rel (Forall2 bv_equiv)
    (fst (run (MOps := CellBackend.cell_memory) ops cells s1))
    (fst (run (MOps := ByteBackend.byte_memory) ops bytes s1)).
Proof.
  apply memories_equivalent; [apply cells_bytes|apply solver_ok_s1|].
  constructor; [split; [reflexivity|by vm_compute]|].
  constructor; [split; [reflexivity|split; [lia|by right]]|].
  constructor; [split; [reflexivity|split; [lia|left; lia]]|constructor].
Defined.

End MemoryWitnesses.
