(* ===== verification/Alloc.v ===== *)
(** * Alloc: the bump allocator (src/src/alloc.rs)

    Addresses are handed out from [ALLOC_START] upwards and never freed.  The
    theorems give the allocator's contract: distinct live allocations do not
    overlap, the alignment rules in the source's comment hold, and the size of
    every non-empty allocation can be recovered from its address. *)
From S2P Require Import Prelude Bits.
From S2P Require Import Memory.

Open Scope Z_scope.

Record Alloc := mkAlloc {
  cursor : Z;
  sizes : gmap Z Z
}.

Definition ALLOC_START : Z := 0x10000000.

Definition alloc_new : Alloc := {| cursor := ALLOC_START; sizes := ∅ |}.

(** Bits rounded up to bytes. *)
Definition bytes_of_bits (bits : Z) : Z :=
  bits / BITS_IN_BYTE + (if bits mod BITS_IN_BYTE =? 0 then 0 else 1).

Definition alloc (self : Alloc) (bits : Z) : outcome (Z * Alloc) :=
  let cell_bytes := CELL_BYTES in
  let bytes := bytes_of_bits bits in
  let current_offset_bytes := cursor self mod cell_bytes in
  let bytes_remaining_in_cell := cell_bytes - current_offset_bytes in
  cur ← (if bytes_remaining_in_cell <? bytes then
           cur ← u64_add (cursor self) bytes_remaining_in_cell;
           _ ← assert_ "assert_eq!(self.cursor % cell_bytes, 0)" (cur mod cell_bytes =? 0);
           mret cur
         else mret (cursor self));
  let rval := cur in
  cur ← u64_add cur bytes;
  mret (rval, {| cursor := cur; sizes := <[rval := bits]> (sizes self) |}).

Definition get_allocation_size (self : Alloc) (addr : Z) : option Z := sizes self !! addr.

(** A sequence of allocations: the addresses returned, and the final state. *)
Fixpoint alloc_all (self : Alloc) (reqs : list Z) : outcome (list Z * Alloc) :=
  match reqs with
  | [] => Ok ([], self)
  | bits :: reqs =>
      '(a, self) ← alloc self bits;
      '(rest, self) ← alloc_all self reqs;
      mret (a :: rest, self)
  end.

Section theorems.

Lemma bytes_of_bits_bounds bits : 0 <= bits -> bits <= 8 * bytes_of_bits bits < bits + 8.
Proof.
  intros Hb. unfold bytes_of_bits, BITS_IN_BYTE. pose proof (Z.div_mod bits 8 ltac:(lia)).
  pose proof (Z.mod_pos_bound bits 8 ltac:(lia)). destruct (Z.eqb_spec (bits mod 8) 0); lia.
Qed.

(** The address of the next allocation. *)
Definition next_addr (self : Alloc) (bits : Z) : Z :=
  if 8 - cursor self mod 8 <? bytes_of_bits bits
  then cursor self + (8 - cursor self mod 8) else cursor self.

(** [alloc] on every branch: it succeeds exactly when the address space
    suffices, and otherwise panics on overflow; its own assertion holds. *)
Lemma alloc_eq self bits :
  0 <= cursor self -> 0 <= bits ->
  alloc self bits =
  (if next_addr self bits + bytes_of_bits bits <=? u64_max
   then Ok (next_addr self bits,
            {| cursor := next_addr self bits + bytes_of_bits bits;
               sizes := <[next_addr self bits := bits]> (sizes self) |})
   else Panic "attempt to add with overflow").
Proof.
  intros Hc Hb. pose proof (bytes_of_bits_bounds bits Hb).
  unfold alloc, next_addr, u64_add. change CELL_BYTES with 8.
  pose proof (Z.mod_pos_bound (cursor self) 8 ltac:(lia)). pose proof (Z.div_mod (cursor self) 8 ltac:(lia)).
  destruct (Z.ltb_spec (8 - cursor self mod 8) (bytes_of_bits bits)).
  - destruct (Z.leb_spec (cursor self + (8 - cursor self mod 8)) u64_max); cbn [mbind outcome_bind].
    + assert ((cursor self + (8 - cursor self mod 8)) mod 8 = 0) as ->.
      { replace (cursor self + (8 - cursor self mod 8)) with (0 + (cursor self / 8 + 1) * 8) by lia.
        by rewrite Z.mod_add by lia. }
      cbn [Z.eqb assert_ mbind outcome_bind]. unfold mret, outcome_ret. cbn [mbind outcome_bind].
      destruct (_ <=? u64_max); done.
    + rewrite (proj2 (Z.leb_gt _ _)) by lia. done.
  - unfold mret, outcome_ret. cbn [mbind outcome_bind]. destruct (_ <=? u64_max); done.
Qed.

(** Where allocations live: below the cursor, and the recorded ranges are
    pairwise disjoint. *)
Definition alloc_inv (self : Alloc) : Prop :=
  ALLOC_START <= cursor self /\
  (forall a bits, sizes self !! a = Some bits ->
     0 <= bits /\ ALLOC_START <= a /\ a + bytes_of_bits bits <= cursor self) /\
  (forall a b x y, sizes self !! a = Some x -> sizes self !! b = Some y -> a <> b ->
     a + bytes_of_bits x <= b \/ b + bytes_of_bits y <= a).

Lemma next_addr_range self bits : cursor self <= next_addr self bits.
Proof.
  unfold next_addr. pose proof (Z.mod_pos_bound (cursor self) 8 ltac:(lia)). case_match; lia.
Qed.

Lemma alloc_ok self bits a self' :
  alloc_inv self -> 0 <= bits -> alloc self bits = Ok (a, self') ->
  a = next_addr self bits /\
  self' = {| cursor := a + bytes_of_bits bits; sizes := <[a := bits]> (sizes self) |}.
Proof.
  intros [Hc _] Hb. unfold ALLOC_START in Hc. rewrite alloc_eq by lia. case_match; [|done].
  intros [= <- <-]. done.
Qed.

Lemma alloc_preserves self bits a self' :
  alloc_inv self -> 0 <= bits -> alloc self bits = Ok (a, self') -> alloc_inv self'.
Proof.
  intros HI Hb E. destruct (alloc_ok _ _ _ _ HI Hb E) as [Ha ->]. destruct HI as (Hc & Hin & Hd).
  pose proof (next_addr_range self bits). pose proof (bytes_of_bits_bounds bits Hb).
  split; [cbn; lia|]. cbn [sizes cursor]. split.
  - intros b x Hx. apply lookup_insert_Some in Hx as [[<- <-]|[Hne Hx]]; [lia|]. apply Hin in Hx. lia.
  - intros b c x y Hx Hy Hne.
    apply lookup_insert_Some in Hx as [[<- <-]|[Hnb Hx]].
    + apply lookup_insert_Some in Hy as [[<- <-]|[Hnc Hy]]; [done|]. apply Hin in Hy. lia.
    + apply lookup_insert_Some in Hy as [[<- <-]|[Hnc Hy]]; [apply Hin in Hx; lia|].
      by apply (Hd b c).
Qed.

Lemma alloc_new_inv : alloc_inv alloc_new.
Proof. split; [done|]. split; cbn [sizes alloc_new]; intros *; by rewrite lookup_empty. Qed.

(** The comment's invariants: an allocation of at most a cell does not cross a
    cell boundary, a larger one starts at one. *)
Lemma alloc_alignment self bits a self' :
  alloc_inv self -> 0 <= bits -> alloc self bits = Ok (a, self') ->
  (bits <= CELL_BITS -> a mod 8 + bytes_of_bits bits <= 8) /\
  (CELL_BITS < bits -> a mod 8 = 0).
Proof.
  intros HI Hb E. destruct (alloc_ok _ _ _ _ HI Hb E) as [-> _]. unfold CELL_BITS.
  pose proof (bytes_of_bits_bounds bits Hb). unfold next_addr.
  pose proof (Z.mod_pos_bound (cursor self) 8 ltac:(lia)). pose proof (Z.div_mod (cursor self) 8 ltac:(lia)).
  destruct (Z.ltb_spec (8 - cursor self mod 8) (bytes_of_bits bits)).
  - replace (cursor self + (8 - cursor self mod 8)) with (0 + (cursor self / 8 + 1) * 8) by lia.
    rewrite Z.mod_add, Z.mod_0_l by lia. lia.
  - lia.
Qed.

Lemma alloc_all_spec reqs self addrs self' :
  alloc_inv self -> Forall (fun b => 0 <= b) reqs -> alloc_all self reqs = Ok (addrs, self') ->
  alloc_inv self' /\ length addrs = length reqs /\ cursor self <= cursor self' /\
  (forall a bits, sizes self !! a = Some bits -> a + bytes_of_bits bits < cursor self \/ 0 < bits ->
     sizes self' !! a = Some bits) /\
  (forall i a bits, addrs !! i = Some a -> reqs !! i = Some bits ->
     cursor self <= a /\ a + bytes_of_bits bits <= cursor self' /\
     (bits <= CELL_BITS -> a mod 8 + bytes_of_bits bits <= 8) /\
     (CELL_BITS < bits -> a mod 8 = 0) /\ (0 < bits -> sizes self' !! a = Some bits)) /\
  (forall i j a b x, (i < j)%nat -> addrs !! i = Some a -> addrs !! j = Some b ->
     reqs !! i = Some x -> a + bytes_of_bits x <= b).
Proof.
  intros HI HF. revert self addrs HI.
  induction HF as [|bits reqs Hb HF IH]; intros self addrs HI E; cbn [alloc_all] in E.
  - injection E as <- <-. split; [done|]. split; [done|]. split; [lia|]. split; [done|]. done.
  - destruct (alloc self bits) as [[a s1]| | |] eqn:E1; try discriminate E. cbn in E.
    destruct (alloc_all s1 reqs) as [[rest s2]| | |] eqn:E2; try discriminate E. cbn in E.
    injection E as <- <-. pose proof (alloc_preserves _ _ _ _ HI Hb E1) as HI1.
    pose proof (alloc_alignment _ _ _ _ HI Hb E1) as Hal.
    destruct (IH s1 rest HI1 E2) as (HI2 & Hlen & Hcur & Hkeep & Haddr & Hdis).
    destruct (alloc_ok _ _ _ _ HI Hb E1) as [Ha Hs1].
    pose proof (next_addr_range self bits). pose proof (bytes_of_bits_bounds bits Hb).
    assert (cursor s1 = a + bytes_of_bits bits) as Hc1 by (by rewrite Hs1).
    split; [done|]. split; [cbn; lia|]. split; [lia|]. split; [|split].
    + intros b x Hx Hbx. apply Hkeep.
      * rewrite Hs1. cbn. destruct HI as (_ & Hin & _). pose proof (Hin b x Hx).
        pose proof (bytes_of_bits_bounds x). rewrite lookup_insert_ne; [done|]. lia.
      * destruct HI as (_ & Hin & _). pose proof (Hin b x Hx). lia.
    + intros [|i] b x Hb' Hx; cbn in Hb', Hx.
      * injection Hb' as <-. injection Hx as <-. split; [lia|]. split; [lia|].
        split; [apply Hal|]. split; [apply Hal|]. intros Hp. apply Hkeep; [|lia].
        rewrite Hs1. cbn. by rewrite lookup_insert_eq.
      * destruct (Haddr i b x Hb' Hx) as (? & ? & ?). split; [lia|]. done.
    + intros [|i] [|j] b c x Hij Hb' Hc Hx; cbn in Hb', Hc, Hx; try lia.
      * injection Hb' as <-. injection Hx as <-.
        destruct (lookup_lt_is_Some_2 reqs j) as [y Hy].
        { rewrite <- Hlen. by eapply lookup_lt_Some. }
        destruct (Haddr j c y Hc Hy) as [? _]. lia.
      * apply (Hdis i j b c x); [lia|done..].
Qed.

(** C20: the allocator's contract over any sequence of requests: every
    allocation is at or above [ALLOC_START], allocations never overlap (each
    ends before any later one starts), one of at most 64 bits stays within a
    cell and a larger one starts at a cell boundary, and the size recorded for
    the address of a non-empty allocation is the one requested. *)
Theorem alloc_contract reqs addrs self' :
  Forall (fun b => 0 <= b) reqs -> alloc_all alloc_new reqs = Ok (addrs, self') ->
  length addrs = length reqs /\
  (forall i a bits, addrs !! i = Some a -> reqs !! i = Some bits ->
     ALLOC_START <= a /\
     (bits <= CELL_BITS -> a mod 8 + bytes_of_bits bits <= 8) /\
     (CELL_BITS < bits -> a mod 8 = 0) /\
     (0 < bits -> get_allocation_size self' a = Some bits)) /\
  (forall i j a b x, (i < j)%nat -> addrs !! i = Some a -> addrs !! j = Some b ->
     reqs !! i = Some x -> a + bytes_of_bits x <= b).
Proof.
  intros HF E. destruct (alloc_all_spec _ _ _ _ alloc_new_inv HF E) as (_ & Hlen & _ & _ & Haddr & Hdis).
  split; [done|]. split; [|done]. intros i a bits Ha Hb.
  destruct (Haddr i a bits Ha Hb) as (? & _ & ?). done.
Qed.

(** Allocation is total until the address space is exhausted: from any
    reachable state a request that fits below [2 ^ 64] succeeds, and one that
    does not panics with an overflow. *)
Theorem alloc_total self bits :
  alloc_inv self -> 0 <= bits ->
  (next_addr self bits + bytes_of_bits bits <= u64_max ->
     exists a self', alloc self bits = Ok (a, self') /\ alloc_inv self') /\
  (u64_max < next_addr self bits + bytes_of_bits bits ->
     alloc self bits = Panic "attempt to add with overflow").
Proof.
  intros HI Hb. pose proof HI as [Hc _]. unfold ALLOC_START in Hc.
  split; intros Hle; pose proof (alloc_eq self bits ltac:(lia) Hb) as E.
  - rewrite (proj2 (Z.leb_le _ _) Hle) in E. eexists _, _. split; [exact E|].
    by eapply alloc_preserves.
  - by rewrite (proj2 (Z.leb_gt _ _) Hle) in E.
Qed.

(** Five allocations, the third of which would cross a cell boundary. *)
Lemma alloc_contract_witness :
  exists addrs self',
    alloc_all alloc_new [8; 32; 64; 100; 1] = Ok (addrs, self') /\
    addrs = [0x10000000; 0x10000001; 0x10000008; 0x10000018; 0x10000025] /\
    get_allocation_size self' 0x10000018 = Some 100.
Proof.
  destruct (alloc_all alloc_new [8; 32; 64; 100; 1]) as [[addrs self']| | |] eqn:E; try discriminate E.
  assert (addrs = [0x10000000; 0x10000001; 0x10000008; 0x10000018; 0x10000025]) as Ha
    by (vm_compute in E; injection E as <- _; reflexivity).
  destruct (alloc_contract [8; 32; 64; 100; 1] addrs self') as (_ & H2 & _);
    [by repeat constructor|exact E|].
  exists addrs, self'. split; [done|]. split; [done|]. subst addrs.
  apply (H2 3%nat 0x10000018 100); [done|done|lia].
Defined.

Lemma alloc_total_witness :
  exists a self', alloc alloc_new 12 = Ok (a, self') /\ alloc_inv self'.
Proof.
  apply (alloc_total alloc_new 12); [apply alloc_new_inv|lia|by vm_compute].
Defined.

End theorems.
