(* ===== verification/LLVMIR.v ===== *)
(** * LLVMIR: the abstract syntax the engine walks over

    haybale reads LLVM IR through the crate [llvm_ir] (version 0.5), which is
    not part of the repository.  The data types below have the constructors
    and fields of that crate that the code matches on or reads; functions of
    the crate ([get_type], [get_bb_by_name], [PartialEq] on types, ...) and of
    the demangling crates are the fields of the class [LLVM].

    A [NamedStructType] holds a weak reference to its definition; references
    are indices into the list [struct_types] of the class, and [upgrade] is
    the lookup. *)
From S2P Require Import Prelude.

Open Scope Z_scope.
Set Warnings "-register-all".

(** [llvm_ir::Name] *)
Inductive Name := NameStr (s : string) | Number (n : Z).

#[export] Instance Name_eq_dec : EqDecision Name.
Proof. solve_decision. Defined.
#[export] Instance Name_countable : Countable Name.
Proof.
  refine (inj_countable' (fun n => match n with NameStr s => inl s | Number k => inr k end)
            (fun x => match x with inl s => NameStr s | inr k => Number k end) _).
  by intros [].
Defined.

(** ** Types *)

Inductive FPType := Half | Single | Double | FP128 | X86_FP80 | PPC_FP128.

Inductive Type_ :=
| VoidType
| IntegerType (bits : Z)
| PointerType (pointee_type : Type_)
| FPTypeT (fpt : FPType)
| FuncType (result_type : Type_) (param_types : list Type_) (is_var_arg : bool)
| VectorType (element_type : Type_) (num_elements : Z)
| ArrayType (element_type : Type_) (num_elements : Z)
| StructType (element_types : list Type_) (is_packed : bool)
| NamedStructType (name : string) (ty : option nat)
| X86_MMXType
| MetadataType
| LabelType
| TokenType.

(** ** Constants *)

Inductive IntPredicate := EQ | NE | UGT | UGE | ULT | ULE | SGT | SGE | SLT | SLE.

(** The fields of the constant expressions are those of the structs
    [llvm_ir::constant::Add], ...; [COther] stands for the constants the code
    does not handle. *)
Inductive Constant :=
| CInt (bits value : Z)
| CNull (ty : Type_)
| CAggregateZero (ty : Type_)
| CStruct (name : option string) (values : list Constant) (is_packed : bool)
| CArray (element_type : Type_) (elements : list Constant)
| CVector (elements : list Constant)
| CUndef (ty : Type_)
| CGlobalReference (name : Name) (ty : Type_)
| CAdd (operand0 operand1 : Constant)
| CSub (operand0 operand1 : Constant)
| CMul (operand0 operand1 : Constant)
| CUDiv (operand0 operand1 : Constant)
| CSDiv (operand0 operand1 : Constant)
| CURem (operand0 operand1 : Constant)
| CSRem (operand0 operand1 : Constant)
| CAnd (operand0 operand1 : Constant)
| COr (operand0 operand1 : Constant)
| CXor (operand0 operand1 : Constant)
| CShl (operand0 operand1 : Constant)
| CLShr (operand0 operand1 : Constant)
| CAShr (operand0 operand1 : Constant)
| CExtractElement (vector index : Constant)
| CInsertElement (vector element index : Constant)
| CExtractValue (aggregate : Constant) (indices : list Z)
| CInsertValue (aggregate element : Constant) (indices : list Z)
| CGetElementPtr (address : Constant) (indices : list Constant)
| CTrunc (operand : Constant) (to_type : Type_)
| CZExt (operand : Constant) (to_type : Type_)
| CSExt (operand : Constant) (to_type : Type_)
| CPtrToInt (operand : Constant) (to_type : Type_)
| CIntToPtr (operand : Constant) (to_type : Type_)
| CBitCast (operand : Constant) (to_type : Type_)
| CAddrSpaceCast (operand : Constant) (to_type : Type_)
| CICmp (predicate : IntPredicate) (operand0 operand1 : Constant)
| CSelect (condition true_value false_value : Constant)
| COther (description : string).

Inductive Operand :=
| LocalOperand (name : Name) (ty : Type_)
| ConstantOperand (c : Constant)
| MetadataOperand.

(** ** Instructions and terminators *)

Inductive BinOpKind :=
| OpAdd | OpSub | OpMul | OpUDiv | OpSDiv | OpURem | OpSRem
| OpAnd | OpOr | OpXor | OpShl | OpLShr | OpAShr
| OpFAdd | OpFSub | OpFMul | OpFDiv | OpFRem.

(** [llvm_ir::instruction::groups::BinaryOp] *)
Record BinaryOp := { bop_kind : BinOpKind; bop_operand0 : Operand; bop_operand1 : Operand; bop_dest : Name }.
Record ICmp := { icmp_predicate : IntPredicate; icmp_operand0 : Operand; icmp_operand1 : Operand; icmp_dest : Name }.
(** [ZExt], [SExt], [Trunc], [PtrToInt], [IntToPtr], [BitCast] *)
Record UnaryOp := { un_operand : Operand; un_to_type : Type_; un_dest : Name }.
Record Load := { load_address : Operand; load_dest : Name }.
Record Store := { store_address : Operand; store_value : Operand }.
Record GetElementPtr := { gep_address : Operand; gep_indices : list Operand; gep_dest : Name }.
Record Alloca := { alloca_allocated_type : Type_; alloca_num_elements : Operand; alloca_dest : Name }.
Record ExtractElement := { ee_vector : Operand; ee_index : Operand; ee_dest : Name }.
Record InsertElement := { ie_vector : Operand; ie_element : Operand; ie_index : Operand; ie_dest : Name }.
Record ShuffleVector := { sv_operand0 : Operand; sv_operand1 : Operand; sv_mask : Constant; sv_dest : Name }.
Record ExtractValue := { ev_aggregate : Operand; ev_indices : list Z; ev_dest : Name }.
Record InsertValue := { iv_aggregate : Operand; iv_element : Operand; iv_indices : list Z; iv_dest : Name }.
Record Phi := { phi_incoming_values : list (Operand * Name); phi_dest : Name }.
Record Select := { select_condition : Operand; select_true_value : Operand; select_false_value : Operand; select_dest : Name }.
Record CmpXchg := { cx_address : Operand; cx_expected : Operand; cx_replacement : Operand; cx_dest : Name }.
Record LandingPad := { lp_result_type : Type_; lp_dest : Name }.
(** [Either<InlineAssembly, Operand>]; attributes and calling conventions are
    not read by the code. *)
Record Call := { call_function : unit + Operand; call_arguments : list Operand; call_dest : option Name }.

Inductive Instruction :=
| IBinaryOp (bop : BinaryOp)
| IICmp (icmp : ICmp)
| ILoad (load : Load)
| IStore (store : Store)
| IGetElementPtr (gep : GetElementPtr)
| IAlloca (alloca : Alloca)
| IExtractElement (ee : ExtractElement)
| IInsertElement (ie : InsertElement)
| IShuffleVector (sv : ShuffleVector)
| IExtractValue (ev : ExtractValue)
| IInsertValue (iv : InsertValue)
| IZExt (zext : UnaryOp)
| ISExt (sext : UnaryOp)
| ITrunc (trunc : UnaryOp)
| IPtrToInt (pti : UnaryOp)
| IIntToPtr (itp : UnaryOp)
| IBitCast (bitcast : UnaryOp)
| IPhi (phi : Phi)
| ISelect (select : Select)
| ICmpXchg (cmpxchg : CmpXchg)
| ICall (call : Call)
| ILandingPad (lp : LandingPad)
| IOther (description : string).

Record Invoke := { invoke_function : unit + Operand; invoke_arguments : list Operand;
                   invoke_result : Name; invoke_return_label : Name; invoke_exception_label : Name }.
Record CondBr := { condbr_condition : Operand; condbr_true_dest : Name; condbr_false_dest : Name }.
Record Switch := { switch_operand : Operand; switch_dests : list (Constant * Name); switch_default_dest : Name }.

Inductive Terminator :=
| TRet (return_operand : option Operand)
| TBr (dest : Name)
| TCondBr (condbr : CondBr)
| TSwitch (switch : Switch)
| TInvoke (invoke : Invoke)
| TResume (operand : Operand)
| TUnreachable
| TOther (description : string).

(** ** Functions and modules *)

Record BasicBlock := { bb_name : Name; bb_instrs : list Instruction; bb_term : Terminator }.
Record Parameter_ := { param_name : Name; param_ty : Type_ }.

Inductive Linkage :=
| Private | Internal | External | ExternalWeak | AvailableExternally
| LinkOnceAny | LinkOnceODR | WeakAny | WeakODR | Common | Appending | LinkageOther.

Record Function_ := {
  func_name : string;
  func_parameters : list Parameter_;
  func_is_var_arg : bool;
  func_return_type : Type_;
  func_basic_blocks : list BasicBlock;
  func_linkage : Linkage
}.
Record GlobalVariable := {
  gv_name : Name;
  gv_linkage : Linkage;
  gv_ty : Type_;
  gv_initializer : option Constant
}.
Record GlobalAlias := { ga_name : Name; ga_aliasee : Constant }.

Record Module_ := {
  mod_name : string;
  mod_source_file_name : string;
  mod_functions : list Function_;
  mod_global_vars : list GlobalVariable;
  mod_global_aliases : list GlobalAlias;
  mod_named_struct_types : gmap string (option nat)
}.

(** A call site: the commonalities of [Call] and [Invoke] ([trait IsCall] in
    src/src/function_hooks.rs). *)
Inductive CallInstr := LeftCall (call : Call) | RightInvoke (invoke : Invoke).

Definition get_called_func (c : CallInstr) : unit + Operand :=
  match c with LeftCall c => call_function c | RightInvoke i => invoke_function i end.
Definition get_arguments (c : CallInstr) : list Operand :=
  match c with LeftCall c => call_arguments c | RightInvoke i => invoke_arguments i end.

(** ** What the engine uses of the crates around it *)

Record DebugLoc := { dl_line : Z; dl_col : Z; dl_filename : string }.

Class LLVM : Type := {
  (* the definitions that weak references point to *)
  struct_types : list Type_;
  (* [Typed::get_type] *)
  operand_type : Operand -> Type_;
  constant_type : Constant -> Type_;
  instr_type : Instruction -> Type_;
  call_type : CallInstr -> Type_;
  (* [PartialEq for Type] *)
  type_eqb : Type_ -> Type_ -> bool;
  (* [Function::get_bb_by_name], [Module::get_func_by_name] *)
  get_bb_by_name : Function_ -> Name -> option BasicBlock;
  module_get_func_by_name : Module_ -> string -> option Function_;
  (* [HasDebugLoc::get_debug_loc] *)
  instr_debug_loc : Instruction -> option DebugLoc;
  term_debug_loc : Terminator -> option DebugLoc;
  (* [rustc_demangle::demangle(..).to_string()], [format!("{:#}", demangle(..))],
     [rustc_demangle::try_demangle], [cpp_demangle] *)
  rust_demangle : string -> string;
  rust_demangle_alt : string -> string;
  rust_try_demangle : string -> option string;
  cpp_symbol_demangle : string -> option string
}.

(** [weak.upgrade()] *)
Definition upgrade `{LLVM} (r : nat) : option Type_ := struct_types !! r.

(** ** Induction on types through the lists of struct elements *)

Section type_induction.
Context (P : Type_ -> Prop).
Context (Hscalar : forall ty,
  match ty with
  | PointerType _ | FuncType _ _ _ | VectorType _ _ | ArrayType _ _ | StructType _ _ => True
  | _ => P ty
  end).
Context (Hptr : forall ty, P ty -> P (PointerType ty)).
Context (Hfun : forall r ps v, P r -> Forall P ps -> P (FuncType r ps v)).
Context (Hvec : forall ty n, P ty -> P (VectorType ty n)).
Context (Harr : forall ty n, P ty -> P (ArrayType ty n)).
Context (Hstruct : forall tys packed, Forall P tys -> P (StructType tys packed)).

Fixpoint Type_nested_ind (ty : Type_) : P ty :=
  let all := fix all (tys : list Type_) : Forall P tys :=
    match tys with
    | [] => List.Forall_nil P
    | t :: tys => List.Forall_cons P t tys (Type_nested_ind t) (all tys)
    end in
  match ty with
  | PointerType t => Hptr t (Type_nested_ind t)
  | FuncType r ps v => Hfun r ps v (Type_nested_ind r) (all ps)
  | VectorType t n => Hvec t n (Type_nested_ind t)
  | ArrayType t n => Harr t n (Type_nested_ind t)
  | StructType tys packed => Hstruct tys packed (all tys)
  | t => Hscalar t
  end.

End type_induction.
