(* ===== verification/ToyLLVM.v ===== *)
(** * ToyLLVM: a concrete instance of the class [LLVM]

    Enough of the behaviour that the crate [llvm_ir] documents to run the
    engine on small programs; the witnesses use it.  Nothing else depends on
    it. *)
From S2P Require Import Prelude LLVMIR.

Open Scope Z_scope.

Module ToyLLVM.

Fixpoint ty_eqb (a b : Type_) : bool :=
  let all := fix all (xs ys : list Type_) : bool :=
    match xs, ys with
    | [], [] => true
    | x :: xs, y :: ys => ty_eqb x y && all xs ys
    | _, _ => false
    end in
  match a, b with
  | VoidType, VoidType => true
  | IntegerType x, IntegerType y => x =? y
  | PointerType x, PointerType y => ty_eqb x y
  | FPTypeT x, FPTypeT y =>
      match x, y with
      | Half, Half | Single, Single | Double, Double | FP128, FP128
      | X86_FP80, X86_FP80 | PPC_FP128, PPC_FP128 => true
      | _, _ => false
      end
  | VectorType x n, VectorType y k => (n =? k) && ty_eqb x y
  | ArrayType x n, ArrayType y k => (n =? k) && ty_eqb x y
  | StructType xs p, StructType ys q => Bool.eqb p q && all xs ys
  | FuncType r ps v, FuncType r' ps' v' => Bool.eqb v v' && ty_eqb r r' && all ps ps'
  | NamedStructType x _, NamedStructType y _ => bool_decide (x = y)
  | X86_MMXType, X86_MMXType | MetadataType, MetadataType
  | LabelType, LabelType | TokenType, TokenType => true
  | _, _ => false
  end.

Fixpoint const_type (c : Constant) : Type_ :=
  match c with
  | CInt bits _ => IntegerType bits
  | CNull ty | CAggregateZero ty | CUndef ty => ty
  | CStruct _ values packed => StructType (const_type <$> values) packed
  | CArray ty els => ArrayType ty (Z.of_nat (length els))
  | CVector els =>
      VectorType (match els with c :: _ => const_type c | [] => VoidType end) (Z.of_nat (length els))
  | CGlobalReference _ ty => PointerType ty
  | CAdd a _ | CSub a _ | CMul a _ | CUDiv a _ | CSDiv a _ | CURem a _ | CSRem a _
  | CAnd a _ | COr a _ | CXor a _ | CShl a _ | CLShr a _ | CAShr a _ => const_type a
  | CTrunc _ ty | CZExt _ ty | CSExt _ ty | CPtrToInt _ ty | CIntToPtr _ ty
  | CBitCast _ ty | CAddrSpaceCast _ ty => ty
  | CICmp _ _ _ => IntegerType 1
  | CSelect _ a _ => const_type a
  | _ => VoidType
  end.

Definition op_type (o : Operand) : Type_ :=
  match o with
  | LocalOperand _ ty => ty
  | ConstantOperand c => const_type c
  | MetadataOperand => MetadataType
  end.

Definition pointee (t : Type_) : Type_ :=
  match t with PointerType t => t | _ => VoidType end.

(** The result of a function type, or of a pointer to one. *)
Definition result_of (t : Type_) : Type_ :=
  match t with
  | FuncType r _ _ => r
  | PointerType (FuncType r _ _) => r
  | _ => VoidType
  end.

Definition callee_type (f : unit + Operand) : Type_ :=
  match f with inl _ => VoidType | inr o => result_of (op_type o) end.

Definition inst_type (i : Instruction) : Type_ :=
  match i with
  | IBinaryOp b => op_type (bop_operand0 b)
  | IICmp i =>
      match op_type (icmp_operand0 i) with
      | VectorType _ n => VectorType (IntegerType 1) n
      | _ => IntegerType 1
      end
  | ILoad l => pointee (op_type (load_address l))
  | IZExt u | ISExt u | ITrunc u | IPtrToInt u | IIntToPtr u | IBitCast u => un_to_type u
  | IAlloca a => PointerType (alloca_allocated_type a)
  | IGetElementPtr g => op_type (gep_address g)
  | IPhi p => match phi_incoming_values p with (o, _) :: _ => op_type o | [] => VoidType end
  | ISelect s => op_type (select_true_value s)
  | IInsertElement i => op_type (ie_vector i)
  | IInsertValue i => op_type (iv_aggregate i)
  | IExtractElement e => match op_type (ee_vector e) with VectorType t _ => t | _ => VoidType end
  | ILandingPad l => lp_result_type l
  | ICmpXchg c => StructType [op_type (cx_expected c); IntegerType 1] false
  | ICall c => callee_type (call_function c)
  | _ => VoidType
  end.

#[export] Instance toy_llvm (structs : list Type_) : LLVM := {
  struct_types := structs;
  operand_type := op_type;
  constant_type := const_type;
  instr_type := inst_type;
  call_type c := callee_type (get_called_func c);
  type_eqb := ty_eqb;
  get_bb_by_name f n := List.find (fun bb => bool_decide (bb_name bb = n)) (func_basic_blocks f);
  module_get_func_by_name m n := List.find (fun f => bool_decide (func_name f = n)) (mod_functions m);
  instr_debug_loc _ := None;
  term_debug_loc _ := None;
  rust_demangle s := s;
  rust_demangle_alt s := s;
  rust_try_demangle _ := None;
  cpp_symbol_demangle _ := None
}.

End ToyLLVM.
