(* ===== verification/Project.v ===== *)
(** * Project: the loaded modules (src/src/project.rs, src/src/demangling.rs)

    A project is a list of LLVM modules; the operations search it for
    functions and for definitions of named struct types.  Reading bitcode
    from disk ([from_bc_path] and its relatives) is in Loading.v.  The theorems
    say what the searches return and when they panic. *)
From S2P Require Import Prelude LLVMIR.
From Stdlib Require Import String.

Open Scope Z_scope.
Local Open Scope string_scope.

Record Project := { modules : list Module_ }.

(** ** Demangling *)

Inductive Demangling := NoDemangling | CPP | Rust.

Definition ends_with (suffix s : string) : bool :=
  (String.length suffix <=? String.length s)%nat &&
  String.eqb (String.substring (String.length s - String.length suffix) (String.length suffix) s) suffix.
Definition starts_with (pre s : string) : bool := String.prefix pre s.

Section demangling.
Context `{L : LLVM}.

Definition try_cpp_demangle (funcname : string) : option string := cpp_symbol_demangle funcname.
Definition cpp_demangle_or_id (funcname : string) : string := default funcname (try_cpp_demangle funcname).
Definition try_rust_demangle (funcname : string) : option string := rust_try_demangle funcname.
Definition rust_demangle_or_id (funcname : string) : string := rust_demangle_alt funcname.

Definition maybe_demangle (self : Demangling) (funcname : string) : string :=
  match self with
  | NoDemangling => funcname
  | CPP => cpp_demangle_or_id funcname
  | Rust => rust_demangle_or_id funcname
  end.

End demangling.

(** ** Iterators over the project *)

Definition all_functions (self : Project) : list (Function_ * Module_) :=
  modules self ≫= fun m => (fun f => (f, m)) <$> mod_functions m.
Definition all_global_vars (self : Project) : list (GlobalVariable * Module_) :=
  modules self ≫= fun m => (fun v => (v, m)) <$> mod_global_vars m.
Definition all_global_aliases (self : Project) : list (GlobalAlias * Module_) :=
  modules self ≫= fun m => (fun a => (a, m)) <$> mod_global_aliases m.
(** Each with its definition, unless it is opaque; a [HashMap] iterates in no
    particular order. *)
Definition all_named_struct_types `{L : LLVM} (self : Project) : list (string * option Type_ * Module_) :=
  modules self ≫= fun m => (fun '(name, opt) => (name, opt ≫= upgrade, m)) <$> map_to_list (mod_named_struct_types m).
Definition active_module_names (self : Project) : list string := mod_name <$> modules self.
Definition module_source_file_names (self : Project) : list string :=
  mod_source_file_name <$> modules self.

Definition autodetect (proj : Project) : Demangling :=
  if existsb (fun name => ends_with ".rs" name || ends_with "u.0" name) (module_source_file_names proj)
  then Rust
  else if existsb (fun name => ends_with ".cpp" name) (module_source_file_names proj) then CPP
  else NoDemangling.

(** ** Searches *)

Section searches.
Context `{L : LLVM}.

(** [for module in &self.modules { if let Some(f) = .. { match retval { None => .., Some(_) => panic!(..) } } }] *)
Definition search_modules (msg : string) (find : Module_ -> option Function_) (self : Project)
    : outcome (option (Function_ * Module_)) :=
  foldO (fun retval module =>
           match find module with
           | Some f =>
               match retval with
               | None => Ok (Some (f, module))
               | Some _ => Panic msg
               end
           | None => Ok retval
           end) None (modules self).

(** [module.functions.iter().find(p)] *)
Definition find_function (p : Function_ -> bool) (m : Module_) : option Function_ :=
  List.find p (mod_functions m).

Definition get_func_by_name (self : Project) (name : string) : outcome (option (Function_ * Module_)) :=
  retval ← search_modules "Multiple functions found with name"
             (fun m => module_get_func_by_name m name) self;
  match retval with
  | Some _ => mret retval
  | None =>
      retval ← search_modules "Multiple functions found with demangled name"
                 (find_function (fun func => String.eqb (rust_demangle (func_name func)) name)) self;
      match retval with
      | Some _ => mret retval
      | None =>
          retval ← search_modules "Multiple functions found with demangled name"
                     (find_function (fun func => String.eqb (rust_demangle_alt (func_name func)) name)) self;
          match retval with
          | Some _ => mret retval
          | None =>
              search_modules "Multiple functions found with demangled name"
                (find_function (fun func => bool_decide (try_cpp_demangle (func_name func) = Some name))) self
          end
      end
  end.

Definition get_named_struct_type_by_name (self : Project) (name : string)
    : option (option nat * Module_) :=
  foldl (fun retval module =>
           match mod_named_struct_types module !! name with
           | Some t =>
               match retval, t with
               | None, t => Some (t, module)
               | Some _, None => retval
               | Some (None, _), Some _ => Some (t, module)
               | Some (Some _, _), Some _ => retval
               end
           | None => retval
           end) None (modules self).

Definition get_inner_struct_type_from_named (self : Project) (ty : Type_) : outcome (option Type_) :=
  match ty with
  | NamedStructType name (Some r) =>
      t ← expect "Failed to upgrade weak reference" (upgrade r); mret (Some t)
  | NamedStructType name None =>
      match get_named_struct_type_by_name self name with
      | None => Panic "Have a struct with no struct of that name found in the Project"
      | Some (Some arc, _) =>
          t ← expect "Failed to upgrade weak reference" (upgrade arc); mret (Some t)
      | Some (None, _) => mret None
      end
  | _ => Panic "Project::get_inner_struct_type_from_named: called with a Type which is not a NamedStructType"
  end.

End searches.

(** ** Theorems *)

Section theorems.
Context `{L : LLVM}.
Implicit Types (self : Project) (m : Module_).

(** The modules of [ms] that have a hit. *)
Definition hits (find : Module_ -> option Function_) (ms : list Module_) : list (Function_ * Module_) :=
  ms ≫= fun m => match find m with Some f => [(f, m)] | None => [] end.

Lemma search_fold msg find ms retval :
  foldO (fun retval module =>
           match find module with
           | Some f => match retval with None => Ok (Some (f, module)) | Some _ => Panic msg end
           | None => Ok retval
           end) retval ms =
  match retval, hits find ms with
  | r, [] => Ok r
  | None, [h] => Ok (Some h)
  | _, _ => Panic msg
  end.
Proof.
  revert retval. induction ms as [|m ms IH]; intros retval; [by destruct retval|].
  cbn [foldO hits mbind list_bind]. fold (hits find ms).
  destruct (find m) as [f|]; cbn [app].
  - destruct retval; cbn; [done|]. change (foldO _ _ ms) with
      (foldO (fun retval module => match find module with
           | Some f => match retval with None => Ok (Some (f, module)) | Some _ => Panic msg end
           | None => Ok retval end) (Some (f, m)) ms). rewrite IH. by destruct (hits find ms).
  - cbn. change (foldO _ _ ms) with
      (foldO (fun retval module => match find module with
           | Some f => match retval with None => Ok (Some (f, module)) | Some _ => Panic msg end
           | None => Ok retval end) retval ms). by rewrite IH.
Qed.

(** A search returns the hit when it is unique, nothing when there is none,
    and panics when two modules have one. *)
Lemma search_modules_spec msg find self :
  search_modules msg find self =
  match hits find (modules self) with
  | [] => Ok None
  | [h] => Ok (Some h)
  | _ => Panic msg
  end.
Proof. unfold search_modules. rewrite search_fold. by repeat case_match. Qed.

(** The first hit of a list of candidate definitions. *)
Definition first_defined (defs : list (option nat * Module_)) : option (option nat * Module_) :=
  match List.find (fun d => bool_decide (is_Some (fst d))) defs with
  | Some d => Some d
  | None => head defs
  end.
Definition struct_defs (name : string) (ms : list Module_) : list (option nat * Module_) :=
  ms ≫= fun m => match mod_named_struct_types m !! name with Some t => [(t, m)] | None => [] end.

Definition struct_step (name : string) (retval : option (option nat * Module_)) (module : Module_) :=
  match mod_named_struct_types module !! name with
  | Some t =>
      match retval, t with
      | None, t => Some (t, module)
      | Some _, None => retval
      | Some (None, _), Some _ => Some (t, module)
      | Some (Some _, _), Some _ => retval
      end
  | None => retval
  end.

Lemma struct_fold_some name ms r m :
  foldl (struct_step name) (Some (r, m)) ms = first_defined ((r, m) :: struct_defs name ms).
Proof.
  revert r m. induction ms as [|m' ms IH]; intros r m; [by destruct r|].
  cbn [foldl struct_defs mbind list_bind]. fold (struct_defs name ms). unfold struct_step at 2.
  destruct (mod_named_struct_types m' !! name) as [[t|]|]; cbn [app]; destruct r as [r|]; rewrite IH; done.
Qed.

(** [get_named_struct_type_by_name] returns the first non-opaque definition
    of the project if there is one, otherwise the first (opaque) declaration. *)
Lemma struct_lookup_spec self name :
  get_named_struct_type_by_name self name = first_defined (struct_defs name (modules self)).
Proof.
  unfold get_named_struct_type_by_name. change (foldl _ None (modules self)) with
    (foldl (struct_step name) None (modules self)).
  induction (modules self) as [|m ms IH]; [done|].
  cbn [foldl struct_defs mbind list_bind]. fold (struct_defs name ms). unfold struct_step at 2.
  destruct (mod_named_struct_types m !! name) as [t|]; cbn [app]; [|done].
  rewrite <- struct_fold_some. by destruct t.
Qed.

End theorems.
