(* ===== verification/Loading.v ===== *)
(** * Loading: projects from bitcode files (src/src/project.rs)

    The constructors of a project and the operations that add modules to it.
    The file system and the bitcode parser of [llvm_ir] are the class
    [FileSystem]; a [Result] with an error type of its own is a sum.  The
    theorems say which files of a directory are loaded, in which order, and
    which error is reported. *)
From S2P Require Import Prelude LLVMIR Project.

Open Scope Z_scope.

Class FileSystem : Type := {
  Path : Type;
  DirEntry : Type;
  IoError : Type;
  (* [llvm_ir::Module::from_bc_path] *)
  module_from_bc_path : Path -> string + Module_;
  (* [Path::read_dir], [DirEntry::file_type] followed by [FileType::is_dir], [DirEntry::path], [Path::extension] *)
  read_dir : Path -> IoError + list (IoError + DirEntry);
  entry_file_type_is_dir : DirEntry -> IoError + bool;
  entry_path : DirEntry -> Path;
  extension : Path -> option string;
  (* [io::Error::new(io::ErrorKind::Other, s)] *)
  io_error_other : string -> IoError
}.

(** [iter.collect::<Result<Vec<_>, _>>()]: the first error, or all values. *)
Fixpoint collect {E A} (xs : list (E + A)) : E + list A :=
  match xs with
  | [] => inr []
  | inl e :: _ => inl e
  | inr x :: xs => match collect xs with inl e => inl e | inr ys => inr (x :: ys) end
  end.

Section loading.
Context `{FS : FileSystem}.

Definition from_bc_path (path : Path) : string + Project :=
  match module_from_bc_path path with
  | inl e => inl e
  | inr m => inr {| modules := [m] |}
  end.

Definition from_bc_paths (paths : list Path) : string + Project :=
  match collect (module_from_bc_path <$> paths) with
  | inl e => inl e
  | inr ms => inr {| modules := ms |}
  end.

(** [None] if the entry or its type could not be read. *)
Definition entry_is_dir (entry : IoError + DirEntry) : option bool :=
  match entry with
  | inr entry => match entry_file_type_is_dir entry with inr b => Some b | inl _ => None end
  | inl _ => None
  end.

Definition not_dir (entry : IoError + DirEntry) : bool :=
  match entry_is_dir entry with Some true => false | Some false => true | None => true end.
Definition has_extension (extn : string) (exclude : Path -> bool) (path : IoError + Path) : bool :=
  match path with
  | inr path =>
      match extension path with
      | Some e => bool_decide (e = extn) && negb (exclude path)
      | None => false
      end
  | inl _ => true
  end.
Definition parse_entry (path : IoError + Path) : IoError + Module_ :=
  match path with
  | inl e => inl e
  | inr path => match module_from_bc_path path with inl s => inl (io_error_other s) | inr m => inr m end
  end.

Definition modules_from_bc_dir (path : Path) (extn : string) (exclude : Path -> bool) : IoError + list Module_ :=
  match read_dir path with
  | inl e => inl e
  | inr entries =>
      let entries := List.filter not_dir entries in
      let paths := (fun entry => match entry with inl e => inl e | inr entry => inr (entry_path entry) end) <$> entries in
      let paths := List.filter (has_extension extn exclude) paths in
      collect (parse_entry <$> paths)
  end.

Definition from_bc_dir_with_blacklist (path : Path) (extn : string) (exclude : Path -> bool) : IoError + Project :=
  match modules_from_bc_dir path extn exclude with
  | inl e => inl e
  | inr ms => inr {| modules := ms |}
  end.
Definition from_bc_dir (path : Path) (extn : string) : IoError + Project :=
  match modules_from_bc_dir path extn (fun _ => false) with
  | inl e => inl e
  | inr ms => inr {| modules := ms |}
  end.

(** The [Result], and the project as it is left. *)
Definition add_bc_path (self : Project) (path : Path) : (string + unit) * Project :=
  match module_from_bc_path path with
  | inl e => (inl e, self)
  | inr m => (inr tt, {| modules := modules self ++ [m] |})
  end.
Definition add_bc_dir_with_blacklist (self : Project) (path : Path) (extn : string) (exclude : Path -> bool)
    : (IoError + unit) * Project :=
  match modules_from_bc_dir path extn exclude with
  | inl e => (inl e, self)
  | inr ms => (inr tt, {| modules := modules self ++ ms |})
  end.
Definition add_bc_dir (self : Project) (path : Path) (extn : string) : (IoError + unit) * Project :=
  match modules_from_bc_dir path extn (fun _ => false) with
  | inl e => (inl e, self)
  | inr ms => (inr tt, {| modules := modules self ++ ms |})
  end.

(** ** Theorems *)

Lemma collect_ok {E A} (xs : list (E + A)) ys : collect xs = inr ys <-> xs = inr <$> ys.
Proof.
  revert ys. induction xs as [|[e|x] xs IH]; intros ys; cbn.
  - split; [by intros [= <-]|]. by destruct ys.
  - split; [done|]. by destruct ys.
  - split.
    + destruct (collect xs) as [e|zs] eqn:E'; [done|]. intros [= <-]. cbn. f_equal. by apply IH.
    + destruct ys as [|y ys]; [done|]. intros [= -> Hxs]. by rewrite (proj2 (IH ys) Hxs).
Qed.
Lemma collect_err {E A} (xs : list (E + A)) e :
  collect xs = inl e <-> exists ys rest, xs = (inr <$> ys) ++ inl e :: rest.
Proof.
  induction xs as [|[e'|x] xs IH]; cbn.
  - split; [done|]. by intros ([|y ys] & rest & E').
  - split.
    + intros [= ->]. by exists [], xs.
    + intros ([|y ys] & rest & E'); [by injection E' as -> _|done].
  - split.
    + destruct (collect xs) as [e'|zs]; [|done]. intros [= ->]. destruct (proj1 IH eq_refl) as (ys & rest & ->).
      by exists (x :: ys), rest.
    + intros ([|y ys] & rest & E'); [done|]. injection E' as -> E'. by rewrite (proj2 IH ltac:(eauto)).
Qed.

(** A file of the directory that is to be loaded. *)
Definition wanted (extn : string) (exclude : Path -> bool) (entry : IoError + DirEntry) : option (IoError + Path) :=
  match entry with
  | inl e => Some (inl e)
  | inr d =>
      if not_dir entry && bool_decide (extension (entry_path d) = Some extn) && negb (exclude (entry_path d))
      then Some (inr (entry_path d)) else None
  end.

(** The files that are loaded are the entries of the directory that are not
    directories, have the extension and are not excluded, in the order of the
    directory; what cannot be read is an error, not skipped. *)
Theorem bc_dir_loads (path : Path) extn exclude :
  modules_from_bc_dir path extn exclude =
  match read_dir path with
  | inl e => inl e
  | inr entries => collect (parse_entry <$> omap (wanted extn exclude) entries)
  end.
Proof.
  unfold modules_from_bc_dir. destruct (read_dir path) as [e|entries]; [done|]. f_equal. f_equal.
  induction entries as [|[e|d] entries IH]; [done| |]; cbn [List.filter omap list_omap wanted].
  - cbn. by rewrite <- IH.
  - destruct (not_dir (inr d)); cbn; [|exact IH]. rewrite <- IH.
    destruct (extension (entry_path d)) as [x|]; cbn; [|done].
    destruct (decide (x = extn)) as [->|Hne].
    + rewrite !bool_decide_true by done. cbn. by destruct (exclude (entry_path d)).
    + by rewrite !bool_decide_false by congruence.
Qed.

(** A failed load leaves the project as it was; a successful one appends the
    modules after those already there. *)
Theorem add_bc_dir_atomic self (path : Path) extn exclude r self' :
  add_bc_dir_with_blacklist self path extn exclude = (r, self') ->
  match r with
  | inl e => self' = self /\ modules_from_bc_dir path extn exclude = inl e
  | inr _ => exists ms, modules_from_bc_dir path extn exclude = inr ms /\ modules self' = modules self ++ ms
  end.
Proof.
  unfold add_bc_dir_with_blacklist. destruct (modules_from_bc_dir path extn exclude) as [e|ms]; intros [= <- <-]; eauto.
Qed.

End loading.
