(* ===== verification/Layout.v ===== *)
(** * Layout: sizes and offsets of LLVM types (src/src/layout.rs)

    Sizes are in bits, offsets in bytes.  A named struct is measured through
    its weak reference, so the recursion is not structural: [size_at n] may
    follow [n] references, and [size] allows as many as there are definitions.
    The theorems: the offsets of the elements of an aggregate are pairwise
    disjoint and within it (the sizes are in SizeTheorems.v). *)
From S2P Require Import Prelude Bits Backend LLVMIR ToyLLVM Project.

Open Scope Z_scope.

Definition POINTER_SIZE_BITS : Z := 64.

Definition fp_size (fpt : FPType) : Z :=
  match fpt with
  | Half => 16
  | Single => 32
  | Double => 64
  | FP128 => 128
  | X86_FP80 => 80
  | PPC_FP128 => 128
  end.

Section sizes.
Context `{L : LLVM}.

(** [size], with [named] for the definition behind a weak reference. *)
Fixpoint size_with (named : nat -> outcome Z) (ty : Type_) : outcome Z :=
  match ty with
  | IntegerType bits => Ok bits
  | PointerType _ => Ok POINTER_SIZE_BITS
  | ArrayType element_type num_elements =>
      s ← size_with named element_type; u64_mul num_elements s
  | VectorType element_type num_elements =>
      s ← size_with named element_type; u64_mul num_elements s
  | StructType element_types _ =>
      foldO (fun acc s => s ← s; u64_add acc s) 0 (size_with named <$> element_types)
  | NamedStructType _ ty =>
      r ← expect "Can't get size of an opaque struct type" ty; named r
  | FPTypeT fpt => Ok (fp_size fpt)
  | _ => Panic "Not sure how to get the size"
  end.

Fixpoint size_at (n : nat) : Type_ -> outcome Z :=
  size_with (fun r =>
    t ← expect "Failed to upgrade weak reference" (upgrade r);
    match n with
    | O => OutOfFuel
    | S n => size_at n t
    end).

Definition size (ty : Type_) : outcome Z := size_at (length struct_types) ty.

(** [element_types.iter().map(|ty| size_opaque_aware(ty, proj)).sum::<Option<usize>>()]:
    the sum stops at the first [None]. *)
Fixpoint size_opaque_aware_with (named : Type_ -> outcome (option Z)) (ty : Type_) : outcome (option Z) :=
  match ty with
  | NamedStructType _ _ => named ty
  | ArrayType element_type num_elements =>
      s ← size_opaque_aware_with named element_type;
      match s with Some s => Some <$> u64_mul s num_elements | None => mret None end
  | VectorType element_type num_elements =>
      s ← size_opaque_aware_with named element_type;
      match s with Some s => Some <$> u64_mul s num_elements | None => mret None end
  | StructType element_types _ =>
      foldO (fun acc s =>
               match acc with
               | Some acc =>
                   s ← s;
                   match s with Some s => Some <$> u64_add acc s | None => mret None end
               | None => mret None
               end) (Some 0) (size_opaque_aware_with named <$> element_types)
  | _ => Some <$> size ty
  end.

Fixpoint size_opaque_aware_at (n : nat) (proj : Project) : Type_ -> outcome (option Z) :=
  size_opaque_aware_with (fun ty =>
    t ← get_inner_struct_type_from_named proj ty;
    match t, n with
    | None, _ => mret None
    | Some t, O => OutOfFuel
    | Some t, S n => size_opaque_aware_at n proj t
    end).

Definition size_opaque_aware (ty : Type_) (proj : Project) : outcome (option Z) :=
  size_opaque_aware_at (length struct_types) proj ty.

(** [for ty in element_types.iter().take(index) { offset_bits += size(ty); }] *)
Definition struct_offset_bits (element_types : list Type_) (index : Z) : outcome Z :=
  foldO (fun offset_bits ty => s ← size ty; u64_add offset_bits s) 0
    (take (Z.to_nat index) element_types).

(** The [StructType] case, which the source has twice. *)
Definition struct_offset (element_types : list Type_) (index : Z) : outcome (Z * Type_) :=
  offset_bits ← struct_offset_bits element_types index;
  if negb (offset_bits mod 8 =? 0) then Err (UnsupportedInstruction "Struct offset of bits")
  else
    ty ← expect "index out of bounds" (element_types !! Z.to_nat index);
    mret (offset_bits / 8, ty).

Definition get_offset_constant_index (base_type : Type_) (index : Z) : outcome (Z * Type_) :=
  match base_type with
  | PointerType element_type
  | ArrayType element_type _
  | VectorType element_type _ =>
      el_size_bits ← size element_type;
      if negb (el_size_bits mod 8 =? 0) then Err (UnsupportedInstruction "Encountered a type with size bits")
      else
        let el_size_bytes := el_size_bits / 8 in
        off ← u64_mul index el_size_bytes;
        mret (off, element_type)
  | StructType element_types _ => struct_offset element_types index
  | NamedStructType _ ty =>
      r ← ok_or (MalformedInstruction "get_offset on an opaque struct type") ty;
      actual_ty ← expect "Failed to upgrade weak reference" (upgrade r);
      match actual_ty with
      | StructType element_types _ => struct_offset element_types index
      | _ => Err (MalformedInstruction "Expected NamedStructType inner type to be a StructType")
      end
  | _ => Panic "get_offset_constant_index with base type"
  end.

Context `{Ops : BackendOps}.

Definition get_offset_bv_index (base_type : Type_) (index : BV) : outcome (BV * Type_) :=
  match base_type with
  | PointerType element_type
  | ArrayType element_type _
  | VectorType element_type _ =>
      el_size_bits ← size element_type;
      if negb (el_size_bits mod 8 =? 0) then Err (UnsupportedInstruction "Encountered a type with size bits")
      else
        let el_size_bytes := el_size_bits / 8 in
        mret (bv_mul index (from_u64 el_size_bytes (get_width index)), element_type)
  | StructType _ _ | NamedStructType _ _ =>
      Err (MalformedInstruction "Index into struct type must be constant; consider using `get_offset_constant_index` instead of `get_offset_bv_index`")
  | _ => Panic "get_offset_bv_index with base type"
  end.

End sizes.

Section theorems.
Context `{L : LLVM}.
Implicit Types (ty : Type_) (tys : list Type_).

(** ** Termination *)

(** The definitions that a type contains by value. *)
Fixpoint by_value ty : list nat :=
  match ty with
  | ArrayType t _ | VectorType t _ => by_value t
  | StructType tys _ => concat (by_value <$> tys)
  | NamedStructType _ (Some r) => [r]
  | _ => []
  end.

(** No definition contains itself by value: LLVM rejects modules for which
    this fails, as their types would have no size. *)
Definition acyclic : Prop :=
  exists rank : nat -> nat, forall r t, upgrade r = Some t ->
    (rank r < length struct_types)%nat /\
    forall r', r' ∈ by_value t -> is_Some (upgrade r') -> (rank r' < rank r)%nat.

Lemma u64_add_defined a b : u64_add a b <> OutOfFuel.
Proof. unfold u64_add. by case_match. Qed.
Lemma u64_mul_defined a b : u64_mul a b <> OutOfFuel.
Proof. unfold u64_mul. by case_match. Qed.

Lemma size_with_defined (named : nat -> outcome Z) ty :
  Forall (fun r => named r <> OutOfFuel) (by_value ty) -> size_with named ty <> OutOfFuel.
Proof.
  revert ty. refine (Type_nested_ind _ _ _ _ _ _ _);
    [intros ty|intros t IH|intros r ps v _ _|intros t n IH|intros t n IH|intros tys p IH].
  - destruct ty; try done. cbn. destruct ty as [r|]; [|done]. cbn. intros Hf. by inversion Hf.
  - done.
  - done.
  - cbn. intros Hf. apply bind_defined; [by apply IH|]. intros s. apply u64_mul_defined.
  - cbn. intros Hf. apply bind_defined; [by apply IH|]. intros s. apply u64_mul_defined.
  - cbn [size_with by_value]. intros Hf. apply foldO_defined. rewrite List.Forall_concat, Forall_fmap in Hf.
    apply Forall_fmap. eapply Forall_impl; [exact (proj2 (Forall_and _ _) (conj IH Hf))|].
    cbn. intros t [Ht Hn] acc. apply bind_defined; [by apply Ht|]. intros s. apply u64_add_defined.
Qed.

Lemma size_at_defined (rank : nat -> nat) n ty :
  (forall r t, upgrade r = Some t ->
     forall r', r' ∈ by_value t -> is_Some (upgrade r') -> (rank r' < rank r)%nat) ->
  (forall r, r ∈ by_value ty -> is_Some (upgrade r) -> (rank r < n)%nat) -> size_at n ty <> OutOfFuel.
Proof.
  intros Hrank. revert ty. induction n as [|n IH]; intros ty Hty; cbn [size_at];
    apply size_with_defined, Forall_forall; intros r Hr; destruct (upgrade r) as [t|] eqn:E; cbn; try done.
  - specialize (Hty r Hr ltac:(by rewrite E)). lia.
  - apply IH. intros r' Hr' Hs. specialize (Hty r Hr ltac:(by rewrite E)).
    specialize (Hrank r t E r' Hr' Hs). lia.
Qed.

(** ** Sizes *)

Definition sum_sizes (acc : Z) tys : outcome Z :=
  foldO (fun offset_bits ty => s ← size ty; u64_add offset_bits s) acc tys.

Lemma size_struct tys packed : size (StructType tys packed) = sum_sizes 0 tys.
Proof.
  unfold size, sum_sizes, size. destruct (length struct_types); cbn [size_at size_with]; rewrite foldO_fmap; reflexivity.
Qed.

Lemma size_array ty n : size (ArrayType ty n) = (s ← size ty; u64_mul n s).
Proof. unfold size. by destruct (length struct_types). Qed.
Lemma size_vector ty n : size (VectorType ty n) = (s ← size ty; u64_mul n s).
Proof. unfold size. by destruct (length struct_types). Qed.

(** More references followed: the same size. *)
Lemma size_with_mono (named named' : nat -> outcome Z) ty s :
  (forall r s, named r = Ok s -> named' r = Ok s) -> size_with named ty = Ok s -> size_with named' ty = Ok s.
Proof.
  intros Hn. revert ty s. refine (Type_nested_ind _ _ _ _ _ _ _);
    [intros ty|intros t IH|intros r ps v _ _|intros t n IH|intros t n IH|intros tys p IH]; try done.
  - destruct ty; try done. intros s. cbn. destruct ty as [r|]; cbn; [apply Hn|done].
  - intros s. cbn. intros (x & Ex & E)%bind_ok. by rewrite (IH x Ex).
  - intros s. cbn. intros (x & Ex & E)%bind_ok. by rewrite (IH x Ex).
  - cbn [size_with]. rewrite !foldO_fmap. generalize 0. induction IH as [|t tys Ht _ IH]; [done|].
    cbn. intros acc s (x & (y & Ey & Ex)%bind_ok & E)%bind_ok. rewrite (Ht y Ey). cbn. rewrite Ex. cbn. by apply IH.
Qed.

Lemma size_at_mono n ty s : size_at n ty = Ok s -> size_at (S n) ty = Ok s.
Proof.
  revert ty s. induction n as [|n IH]; intros ty s; cbn [size_at]; apply size_with_mono; intros r s'.
  - intros E. by ok_inv.
  - cbn. intros E. destruct (upgrade r) as [t|]; cbn in *; [|done]. by apply IH.
Qed.

Lemma size_at_le n k ty s : (n <= k)%nat -> size_at n ty = Ok s -> size_at k ty = Ok s.
Proof. induction 1 as [|k _ IH]; [done|]. intros E. by apply size_at_mono, IH. Qed.

(** A named struct has the size of its definition. *)
Lemma size_named name r t s :
  upgrade r = Some t -> size (NamedStructType name (Some r)) = Ok s -> size t = Ok s.
Proof.
  intros Hr. unfold size. destruct (length struct_types) as [|n]; cbn [size_at size_with]; cbn; rewrite Hr; [done|].
  cbn. apply size_at_mono.
Qed.

(** Bit widths and element counts are unsigned. *)
Fixpoint unsigned_ty ty : Prop :=
  match ty with
  | IntegerType bits => 0 <= bits
  | ArrayType t n | VectorType t n => 0 <= n /\ unsigned_ty t
  | StructType tys _ => foldr (fun t P => unsigned_ty t /\ P) True tys
  | PointerType t => unsigned_ty t
  | _ => True
  end.

Lemma unsigned_struct tys packed : unsigned_ty (StructType tys packed) <-> Forall unsigned_ty tys.
Proof. cbn. induction tys; [done|]. cbn. rewrite Forall_cons. by rewrite IHtys. Qed.

Lemma u64_add_ok a b c : u64_add a b = Ok c -> c = a + b.
Proof. unfold u64_add. case_match; [|done]. congruence. Qed.
Lemma u64_mul_ok a b c : u64_mul a b = Ok c -> c = a * b.
Proof. unfold u64_mul. case_match; [|done]. congruence. Qed.

Lemma size_with_nonneg (named : nat -> outcome Z) ty s :
  (forall r s, named r = Ok s -> 0 <= s) -> unsigned_ty ty -> size_with named ty = Ok s -> 0 <= s.
Proof.
  intros Hn. revert ty s. refine (Type_nested_ind _ _ _ _ _ _ _);
    [intros ty|intros t IH|intros r ps v _ _|intros t n IH|intros t n IH|intros tys p IH];
    [destruct ty; try done|..]; intros s U.
  - cbn in *. by intros [= <-].
  - cbn. intros [= <-]. by destruct fpt.
  - cbn. destruct ty as [r|]; cbn; [by apply Hn|done].
  - cbn. by intros [= <-].
  - done.
  - cbn in *. intros (x & Ex & ->%u64_mul_ok)%bind_ok. destruct U as [? U]. specialize (IH x U Ex). nia.
  - cbn in *. intros (x & Ex & ->%u64_mul_ok)%bind_ok. destruct U as [? U]. specialize (IH x U Ex). nia.
  - apply unsigned_struct in U. cbn [size_with]. rewrite foldO_fmap.
    assert (0 <= 0) as H0 by lia. revert H0. generalize 0 at 2 3.
    induction U as [|t tys Ut _ IHU]; inversion IH as [|? ? IHt IHtys]; subst; cbn; intros acc Hacc.
    + by intros [= <-].
    + intros (x & (y & Ey & ->%u64_add_ok)%bind_ok & E)%bind_ok. specialize (IHt y Ut Ey). eapply IHU; [done| |done]. lia.
Qed.

Context (Hstructs : Forall unsigned_ty struct_types).

Lemma size_nonneg ty s : unsigned_ty ty -> size ty = Ok s -> 0 <= s.
Proof.
  unfold size. generalize (length struct_types). intros n. revert ty s. induction n as [|n IH]; intros ty s U;
    cbn [size_at]; apply size_with_nonneg; try done; intros r s'; destruct (upgrade r) as [t|] eqn:E; cbn; try done.
  apply IH. rewrite Forall_forall in Hstructs. apply Hstructs. by eapply list_elem_of_lookup_2.
Qed.

Lemma sum_sizes_mono acc tys t : Forall unsigned_ty tys -> sum_sizes acc tys = Ok t -> acc <= t.
Proof.
  intros U. revert acc. induction U as [|ty tys Ut _ IH]; intros acc; cbn; [intros [= ->]; lia|].
  intros (x & (y & Ey & ->%u64_add_ok)%bind_ok & E%IH)%bind_ok. apply size_nonneg in Ey; [lia|done].
Qed.

(** ** Offsets *)

Lemma struct_offset_ok tys i off ty :
  struct_offset tys i = Ok (off, ty) ->
  tys !! Z.to_nat i = Some ty /\ sum_sizes 0 (take (Z.to_nat i) tys) = Ok (8 * off).
Proof.
  unfold struct_offset. intros (bits & Eb & E)%bind_ok.
  destruct (Z.eqb_spec (bits mod 8) 0) as [Hm|]; [|done]. cbn [negb] in E.
  apply bind_ok in E as (t & Et & [= <- <-]). destruct (tys !! Z.to_nat i); [|done]. cbn in Et.
  injection Et as <-. split; [done|]. replace (8 * (bits / 8)) with bits; [done|].
  pose proof (Z.div_mod bits 8 ltac:(lia)). lia.
Qed.

(** Whatever follows the first elements of a struct starts at or after their end. *)
Lemma struct_prefix_end tys (i j : nat) e k :
  Forall unsigned_ty tys -> (i <= j)%nat ->
  sum_sizes 0 (take i tys) = Ok e -> sum_sizes 0 (take j tys) = Ok k -> e <= k.
Proof.
  intros U Hij He Hk. replace j with (i + (j - i))%nat in Hk by lia. rewrite <- take_take_drop in Hk.
  unfold sum_sizes in *. rewrite foldO_app, He in Hk. cbn in Hk.
  eapply sum_sizes_mono; [|exact Hk]. by apply Forall_take, Forall_drop.
Qed.

Lemma struct_element_bound tys (i j : Z) off ty s k :
  Forall unsigned_ty tys -> 0 <= i < j ->
  struct_offset tys i = Ok (off, ty) -> size ty = Ok s ->
  sum_sizes 0 (take (Z.to_nat j) tys) = Ok k -> 8 * off + s <= k.
Proof.
  intros U Hij Ho Hs Hk. destruct (struct_offset_ok _ _ _ _ Ho) as [Hty Hsum].
  assert (sum_sizes 0 (take (S (Z.to_nat i)) tys) = Ok (8 * off + s)) as He;
    [|by eapply (struct_prefix_end tys (S (Z.to_nat i)) (Z.to_nat j)); [|lia|..]].
  rewrite (take_S_r _ _ ty) by done. unfold sum_sizes in *. rewrite foldO_app, Hsum. cbn. rewrite Hs. cbn.
  replace (Z.to_nat j) with (S (Z.to_nat i) + (Z.to_nat j - S (Z.to_nat i)))%nat in Hk by lia.
  rewrite <- take_take_drop, (take_S_r _ _ ty), foldO_app, foldO_app, Hsum in Hk by done.
  cbn in Hk. rewrite Hs in Hk. cbn in Hk. destruct (u64_add (8 * off) s) eqn:E; cbn in Hk; try done.
  by apply u64_add_ok in E as ->.
Qed.

(** The struct whose elements an index into a type selects, if it is one. *)
Definition struct_elements ty : option (list Type_) :=
  match ty with
  | StructType tys _ => Some tys
  | NamedStructType _ (Some r) =>
      match upgrade r with Some (StructType tys _) => Some tys | _ => None end
  | _ => None
  end.

(** What [get_offset_constant_index] computes: the offset of a struct element,
    or a multiple of the element size. *)
Lemma constant_index_ok base i off ty :
  get_offset_constant_index base i = Ok (off, ty) ->
  match struct_elements base with
  | Some tys => struct_offset tys i = Ok (off, ty)
  | None => (base = PointerType ty \/ exists n, base = ArrayType ty n \/ base = VectorType ty n) /\
            exists el, size ty = Ok el /\ el mod 8 = 0 /\ off = i * (el / 8)
  end.
Proof.
  assert (forall t (el : outcome Z), (el_size_bits ← el;
      if negb (el_size_bits mod 8 =? 0) then Err (UnsupportedInstruction "Encountered a type with size bits")
      else off ← u64_mul i (el_size_bits / 8); mret (off, t)) = Ok (off, ty) ->
      t = ty /\ exists x, el = Ok x /\ x mod 8 = 0 /\ off = i * (x / 8)) as Hseq.
  { intros t el (x & -> & E)%bind_ok. destruct (Z.eqb_spec (x mod 8) 0); [|done]. cbn [negb] in E.
    apply bind_ok in E as (o & ->%u64_mul_ok & [= <- <-]). eauto. }
  destruct base; try done; cbn [get_offset_constant_index struct_elements].
  - intros (-> & x & ?)%Hseq. split; [by left|eauto].
  - intros (-> & x & ?)%Hseq. split; [right; eauto|eauto].
  - intros (-> & x & ?)%Hseq. split; [right; eauto|eauto].
  - destruct ty0 as [r|]; [|done]. cbn. destruct (upgrade r) as [t|]; [|done]. cbn. by destruct t.
Qed.

Lemma unsigned_elements base tys :
  unsigned_ty base -> struct_elements base = Some tys -> Forall unsigned_ty tys.
Proof.
  destruct base; try done; cbn [struct_elements].
  - intros U [= <-]. by eapply unsigned_struct.
  - intros _. destruct ty as [r|]; [|done]. destruct (upgrade r) as [t|] eqn:E; [|done].
    destruct t; try done. intros [= <-]. eapply unsigned_struct. rewrite Forall_forall in Hstructs.
    apply Hstructs. by eapply list_elem_of_lookup_2.
Qed.

Lemma size_elements base tys total :
  struct_elements base = Some tys -> size base = Ok total -> sum_sizes 0 tys = Ok total.
Proof.
  destruct base; try done; cbn [struct_elements].
  - intros [= <-]. by rewrite size_struct.
  - destruct ty as [r|]; [|done]. destruct (upgrade r) as [t|] eqn:E; [|done].
    destruct t; try done. intros [= <-] Hs. eapply size_named in Hs; [|done]. by rewrite size_struct in Hs.
Qed.

(** The index is in range for an array or vector; a struct's index is checked
    by the access itself, and a pointer has no bound. *)
Definition index_in_range base (i : Z) : Prop :=
  match base with
  | ArrayType _ n | VectorType _ n => i < n
  | PointerType _ => False
  | _ => True
  end.

End theorems.

Section claims.
Context `{L : LLVM}.

(** C36: two different elements of an aggregate (or of the array a pointer
    points to) never share a bit: the element with the smaller index ends at
    or before the start of the other. *)
Theorem offsets_disjoint base i j oi ti oj tj s :
  Forall unsigned_ty struct_types -> unsigned_ty base -> 0 <= i < j ->
  get_offset_constant_index base i = Ok (oi, ti) -> size ti = Ok s ->
  get_offset_constant_index base j = Ok (oj, tj) ->
  8 * oi + s <= 8 * oj.
Proof.
  intros HS U Hij Hi%constant_index_ok Hs Hj%constant_index_ok.
  destruct (struct_elements base) as [tys|] eqn:E.
  - apply struct_offset_ok in Hj as [_ Hj].
    eapply struct_element_bound; [done|by eapply unsigned_elements|done..].
  - destruct Hi as (Hb & el & Hel & Hm & ->), Hj as (Hb' & el' & Hel' & _ & ->).
    assert (ti = tj) as <- by (destruct Hb as [->|(n & [->| ->])], Hb' as [?|(k & [?|?])]; congruence).
    rewrite Hel in Hs, Hel'. injection Hs as ->. injection Hel' as ->.
    apply size_nonneg in Hel; [|done|].
    + pose proof (Z.div_mod el' 8 ltac:(lia)). nia.
    + destruct Hb as [->|(n & [->| ->])]; cbn in U; tauto.
Qed.

(** An element selected by an index in range lies within the aggregate it
    is an element of. *)
Theorem offset_within base i off ty s total :
  Forall unsigned_ty struct_types -> unsigned_ty base -> 0 <= i -> index_in_range base i ->
  get_offset_constant_index base i = Ok (off, ty) -> size ty = Ok s -> size base = Ok total ->
  0 <= 8 * off /\ 8 * off + s <= total.
Proof.
  intros HS U Hi Hr Ho%constant_index_ok Hs Ht. destruct (struct_elements base) as [tys|] eqn:E.
  - pose proof (unsigned_elements HS _ _ U E) as Ut. split.
    + apply struct_offset_ok in Ho as [_ Ho]. eapply sum_sizes_mono; [done| |exact Ho]. by apply Forall_take.
    + eapply (struct_element_bound HS tys i (Z.of_nat (length tys))); [done| |done..|].
      * destruct (struct_offset_ok _ _ _ _ Ho) as [Hl%lookup_lt_Some _]. lia.
      * rewrite Nat2Z.id, firstn_all. by eapply size_elements.
  - destruct Ho as (Hb & el & Hel & Hm & ->). rewrite Hel in Hs. injection Hs as ->.
    assert (0 <= s) as H0.
    { eapply size_nonneg; [done| |exact Hel]. destruct Hb as [->|(n & [->| ->])]; cbn in U; tauto. }
    pose proof (Z.div_mod s 8 ltac:(lia)). destruct Hb as [->|(n & [->| ->])]; [done|..];
      [rewrite size_array, Hel in Ht|rewrite size_vector, Hel in Ht]; cbn in Ht, Hr;
      apply u64_mul_ok in Ht as ->; nia.
Qed.

End claims.

(** ** Witnesses: [%pair = type { i8, %inner, i64 }], [%inner = type { i16, [3 x i8] }] *)

Module LayoutWitnesses.

Definition inner : Type_ := StructType [IntegerType 16; ArrayType (IntegerType 8) 3] false.
Definition pair : Type_ :=
  StructType [IntegerType 8; NamedStructType "inner" (Some 0%nat); IntegerType 64] false.
#[local] Instance structs : LLVM := ToyLLVM.toy_llvm [inner; pair].

Lemma offsets_disjoint_witness :
  get_offset_constant_index pair 1 = Ok (1, NamedStructType "inner" (Some 0%nat)) /\
  get_offset_constant_index pair 2 = Ok (6, IntegerType 64) /\
  8 * 1 + 40 <= 8 * 6.
Proof.
  split; [reflexivity|]. split; [reflexivity|].
  apply (offsets_disjoint pair 1 2 1 (NamedStructType "inner" (Some 0%nat)) 6 (IntegerType 64) 40).
  - repeat constructor; cbn; lia.
  - cbn. lia.
  - lia.
  - reflexivity.
  - reflexivity.
  - reflexivity.
Defined.

Lemma offset_within_witness :
  get_offset_constant_index pair 2 = Ok (6, IntegerType 64) /\ size pair = Ok 112 /\
  (0 <= 8 * 6 /\ 8 * 6 + 64 <= 112).
Proof.
  split; [reflexivity|]. split; [reflexivity|].
  apply (offset_within pair 2 6 (IntegerType 64) 64 112).
  - repeat constructor; cbn; lia.
  - cbn. lia.
  - lia.
  - exact I.
  - reflexivity.
  - reflexivity.
  - reflexivity.
Defined.

End LayoutWitnesses.
