(* ===== verification/SizeTheorems.v ===== *)
(** * SizeTheorems: the sizes of types against a reference layout

    [has_size] and [has_size_in] say what the size of a type is, as relations
    on mathematical integers; [size] and [size_opaque_aware] of Layout.v compute
    exactly these, and panic where there is none. *)
From S2P Require Import Prelude Bits Backend LLVMIR ToyLLVM Project Layout.

Open Scope Z_scope.

Section reference.
Context `{L : LLVM}.

Fixpoint sumZ (ss : list Z) : Z := match ss with [] => 0 | s :: ss => s + sumZ ss end.
Definition usize (x : Z) : Prop := 0 <= x < 2 ^ 64.

(** The size of a type in bits, for the types that have one and whose parts
    have one, that a [usize] can hold. *)
Inductive has_size : Type_ -> Z -> Prop :=
| has_size_int bits : has_size (IntegerType bits) bits
| has_size_pointer t : has_size (PointerType t) 64
| has_size_fp fpt : has_size (FPTypeT fpt) (fp_size fpt)
| has_size_array t n s : has_size t s -> usize (n * s) -> has_size (ArrayType t n) (n * s)
| has_size_vector t n s : has_size t s -> usize (n * s) -> has_size (VectorType t n) (n * s)
| has_size_struct tys packed ss :
    Forall2 has_size tys ss -> usize (sumZ ss) -> has_size (StructType tys packed) (sumZ ss)
| has_size_named name r t s : upgrade r = Some t -> has_size t s -> has_size (NamedStructType name (Some r)) s.

(** The types that do not contain other types by value. *)
Definition scalar (ty : Type_) : bool :=
  match ty with
  | ArrayType _ _ | VectorType _ _ | StructType _ _ | NamedStructType _ _ => false
  | _ => true
  end.

(** The same with the definitions of a project, which may also have none for a
    struct: then everything that contains it has no size either. *)
Inductive has_size_in (proj : Project) : Type_ -> option Z -> Prop :=
| size_in_scalar t s : scalar t = true -> has_size t s -> has_size_in proj t (Some s)
| size_in_array t n s : has_size_in proj t (Some s) -> usize (s * n) -> has_size_in proj (ArrayType t n) (Some (s * n))
| size_in_vector t n s : has_size_in proj t (Some s) -> usize (s * n) -> has_size_in proj (VectorType t n) (Some (s * n))
| opaque_array t n : has_size_in proj t None -> has_size_in proj (ArrayType t n) None
| opaque_vector t n : has_size_in proj t None -> has_size_in proj (VectorType t n) None
| size_in_struct tys packed ss :
    Forall2 (fun t s => has_size_in proj t (Some s)) tys ss -> usize (sumZ ss) ->
    has_size_in proj (StructType tys packed) (Some (sumZ ss))
| opaque_struct pre t post packed ss :
    Forall2 (fun t s => has_size_in proj t (Some s)) pre ss -> usize (sumZ ss) -> has_size_in proj t None ->
    has_size_in proj (StructType (pre ++ t :: post) packed) None
| size_in_named name r t o :
    get_inner_struct_type_from_named proj (NamedStructType name r) = Ok (Some t) -> has_size_in proj t o ->
    has_size_in proj (NamedStructType name r) o
| undefined_struct name r :
    get_inner_struct_type_from_named proj (NamedStructType name r) = Ok None ->
    has_size_in proj (NamedStructType name r) None.

(** The named structs that a type contains by value. *)
Fixpoint named_by_value (ty : Type_) : list Type_ :=
  match ty with
  | ArrayType t _ | VectorType t _ => named_by_value t
  | StructType tys _ => concat (named_by_value <$> tys)
  | NamedStructType _ _ => [ty]
  | _ => []
  end.

(** No definition of the project contains itself by value. *)
Definition acyclic_in (proj : Project) : Prop :=
  exists rank : Type_ -> nat, forall ty t, get_inner_struct_type_from_named proj ty = Ok (Some t) ->
    (rank ty < length struct_types)%nat /\
    forall ty' t', ty' ∈ named_by_value t -> get_inner_struct_type_from_named proj ty' = Ok (Some t') -> (rank ty' < rank ty)%nat.

(** *** Sums *)

Lemma u64_add_iff a b c : u64_add a b = Ok c <-> c = a + b /\ a + b < 2 ^ 64.
Proof. unfold u64_add, u64_max. destruct (Z.leb_spec (a + b) (2 ^ 64 - 1)); split; [intros [= <-]; lia|intros [-> _]; done|done|intros [_ ?]; lia]. Qed.
Lemma u64_mul_iff a b c : u64_mul a b = Ok c <-> c = a * b /\ a * b < 2 ^ 64.
Proof. unfold u64_mul, u64_max. destruct (Z.leb_spec (a * b) (2 ^ 64 - 1)); split; [intros [= <-]; lia|intros [-> _]; done|done|intros [_ ?]; lia]. Qed.
Lemma bind_ok_iff {A B} (c : outcome A) (f : A -> outcome B) b : (c ≫= f) = Ok b <-> exists a, c = Ok a /\ f a = Ok b.
Proof. split; [apply bind_ok|]. by intros (a & -> & ?). Qed.

Lemma sumZ_nonneg ss : Forall (fun s => 0 <= s) ss -> 0 <= sumZ ss.
Proof. induction 1; cbn; lia. Qed.

Lemma foldO_sum (f : Type_ -> outcome Z) tys : Forall (fun t => forall x, f t = Ok x -> 0 <= x) tys -> forall acc s,
  0 <= acc < 2 ^ 64 ->
  foldO (fun acc t => s ← f t; u64_add acc s) acc tys = Ok s <->
  exists ss, Forall2 (fun t x => f t = Ok x) tys ss /\ s = acc + sumZ ss /\ s < 2 ^ 64.
Proof.
  induction 1 as [|t tys Ht Htys IH]; intros acc s Hacc; cbn [foldO].
  - split; [intros [= <-]; exists []; repeat split; [constructor|cbn; lia..]|].
    intros (ss & Hss%Forall2_nil_inv_l & -> & _). subst. cbn. f_equal. lia.
  - rewrite bind_ok_iff. split.
    + intros (a & (x & Ex & [-> Hx]%u64_add_iff)%bind_ok & E). pose proof (Ht x Ex).
      apply IH in E as (ss & Hss & -> & Hs); [|lia]. exists (x :: ss). split; [by constructor|]. cbn. split; lia.
    + intros (ss' & Hss' & -> & Hs). apply Forall2_cons_inv_l in Hss' as (x & ss & Ex & Hss & ->). cbn in *.
      pose proof (Ht x Ex). assert (0 <= sumZ ss) as H0.
      { apply sumZ_nonneg. clear -Hss Htys. induction Hss; inversion Htys; subst; constructor; eauto. }
      exists (acc + x). split; [rewrite bind_ok_iff; exists x; split; [done|apply u64_add_iff; split; [done|lia]]|].
      apply IH; [lia|]. exists ss. split; [done|]. split; lia.
Qed.

(** A sum whose terms may be missing. *)
Definition add_opaque (f : Type_ -> outcome (option Z)) (acc : option Z) (t : Type_) : outcome (option Z) :=
  match acc with
  | Some acc => s ← f t; match s with Some s => Some <$> u64_add acc s | None => mret None end
  | None => mret None
  end.
Lemma foldO_opaque (f : Type_ -> outcome (option Z)) tys : foldO (add_opaque f) None tys = Ok None.
Proof. by induction tys. Qed.
Lemma add_opaque_cons f acc t tys o :
  foldO (add_opaque f) (Some acc) (t :: tys) = Ok o <->
  (exists x, f t = Ok (Some x) /\ acc + x < 2 ^ 64 /\ foldO (add_opaque f) (Some (acc + x)) tys = Ok o) \/ f t = Ok None /\ o = None.
Proof.
  cbn [foldO]. rewrite bind_ok_iff. split.
  - intros (a & (x & Ex & E)%bind_ok & Ef). destruct x as [x|].
    + left. exists x. split; [done|]. destruct (u64_add acc x) eqn:Eu; cbn in E; try done. injection E as <-.
      apply u64_add_iff in Eu as [-> ?]. done.
    + right. split; [done|]. cbn in E. injection E as <-. rewrite foldO_opaque in Ef. congruence.
  - intros [(x & Ex & Hx & Ef)|[Ex ->]]; cbn [add_opaque].
    + exists (Some (acc + x)). split; [|done]. rewrite Ex. cbn. by rewrite (proj2 (u64_add_iff acc x _) (conj eq_refl Hx)).
    + exists None. split; [by rewrite Ex|apply foldO_opaque].
Qed.

Lemma foldO_sum_opaque (f : Type_ -> outcome (option Z)) tys : Forall (fun t => forall x, f t = Ok (Some x) -> 0 <= x) tys -> forall acc o,
  0 <= acc < 2 ^ 64 ->
  foldO (add_opaque f) (Some acc) tys = Ok o <->
  match o with
  | Some s => exists ss, Forall2 (fun t x => f t = Ok (Some x)) tys ss /\ s = acc + sumZ ss /\ s < 2 ^ 64
  | None => exists pre t post ss, tys = pre ++ t :: post /\ Forall2 (fun t x => f t = Ok (Some x)) pre ss /\ acc + sumZ ss < 2 ^ 64 /\ f t = Ok None
  end.
Proof.
  induction 1 as [|t tys Ht Htys IH]; intros acc o Hacc.
  - destruct o as [s|]; split.
    + intros [= <-]. exists []. repeat split; [constructor|cbn; lia..].
    + intros (ss & Hss%Forall2_nil_inv_l & -> & _). subst. cbn. do 2 f_equal. lia.
    + done.
    + intros (pre & t & post & ss & E & _). by destruct pre.
  - rewrite add_opaque_cons. split.
    + intros [(x & Ex & Hx & E)|[Ex ->]].
      * pose proof (Ht x Ex). apply IH in E; [|lia]. destruct o as [s|].
        -- destruct E as (ss & Hss & -> & Hs). exists (x :: ss). split; [by constructor|]. cbn. split; lia.
        -- destruct E as (pre & t' & post & ss & -> & Hss & Hs & En). exists (t :: pre), t', post, (x :: ss).
           split; [done|]. split; [by constructor|]. cbn. split; [lia|done].
      * exists [], t, tys, []. split; [done|]. split; [constructor|]. cbn. split; [lia|done].
    + assert (forall pre ss, Forall (fun t => forall x, f t = Ok (Some x) -> 0 <= x) pre ->
        Forall2 (fun t x => f t = Ok (Some x)) pre ss -> 0 <= sumZ ss) as Hnn.
      { intros pre ss Hp Hss. apply sumZ_nonneg. induction Hss; inversion Hp; subst; constructor; eauto. }
      destruct o as [s|].
      * intros (ss' & Hss' & -> & Hs). apply Forall2_cons_inv_l in Hss' as (x & ss & Ex & Hss & ->). cbn in *.
        pose proof (Ht x Ex). pose proof (Hnn _ _ Htys Hss). left. exists x. split; [done|]. split; [lia|].
        apply IH; [lia|]. exists ss. split; [done|]. split; lia.
      * intros (pre & t' & post & ss' & E & Hss' & Hs & En). destruct pre as [|t0 pre]; injection E as -> ->; [by right|].
        apply Forall2_cons_inv_l in Hss' as (x & ss & Ex & Hss & ->). cbn in *. pose proof (Ht x Ex).
        assert (0 <= sumZ ss) by (eapply Hnn; [|done]; by apply Forall_app in Htys as [? _]).
        left. exists x. split; [done|]. split; [lia|]. apply IH; [lia|]. exists pre, t', post, ss.
        split; [done|]. split; [done|]. split; [lia|done].
Qed.

Lemma Forall2_via {A B} (P Q : A -> B -> Prop) xs ys :
  Forall (fun x => forall y, P x y -> Q x y) xs -> Forall2 P xs ys -> Forall2 Q xs ys.
Proof. intros Hf H. induction H; inversion Hf; subst; constructor; auto. Qed.

(** *** [size] *)

(** Bit widths and element counts are unsigned, in every definition. *)
Context (Hstructs : Forall unsigned_ty struct_types).
Implicit Types ty : Type_.

Lemma unsigned_definition r t : upgrade r = Some t -> unsigned_ty t.
Proof. intros E. rewrite Forall_forall in Hstructs. apply Hstructs. by eapply list_elem_of_lookup_2. Qed.

Lemma size_with_sound (named : nat -> outcome Z) ty s :
  (forall r s, named r = Ok s -> 0 <= s /\ forall name, has_size (NamedStructType name (Some r)) s) ->
  unsigned_ty ty -> size_with named ty = Ok s -> has_size ty s.
Proof.
  intros Hn. assert (forall r s, named r = Ok s -> 0 <= s) as Hpos by (intros r x E; apply (Hn r x E)).
  revert ty s. refine (Type_nested_ind _ _ _ _ _ _ _);
    [intros ty|intros t IH|intros r ps v _ _|intros t n IH|intros t n IH|intros tys p IH];
    [destruct ty; try done|..]; intros s U; cbn [size_with].
  - intros [= <-]. constructor.
  - intros [= <-]. constructor.
  - destruct ty as [r|]; cbn; [|done]. intros E. by apply Hn.
  - intros [= <-]. constructor.
  - done.
  - intros (x & Ex & [-> Hx]%u64_mul_iff)%bind_ok. destruct U as [Hn0 U]. constructor; [by apply IH|].
    assert (0 <= x) by by eapply size_with_nonneg. split; [nia|done].
  - intros (x & Ex & [-> Hx]%u64_mul_iff)%bind_ok. destruct U as [Hn0 U]. constructor; [by apply IH|].
    assert (0 <= x) by by eapply size_with_nonneg. split; [nia|done].
  - apply unsigned_struct in U. rewrite foldO_fmap. assert (Forall (fun t => forall x, size_with named t = Ok x -> 0 <= x) tys) as Hp.
    { eapply Forall_impl; [exact U|]. intros t Ut x. by apply size_with_nonneg. }
    intros (ss & Hss & -> & Hs)%foldO_sum; [|done|lia]. constructor.
    + eapply Forall2_via; [|exact Hss]. eapply Forall_impl; [exact (proj2 (Forall_and _ _) (conj IH U))|]. cbn. intros t [IHt Ut] x. by apply IHt.
    + split; [|done]. apply sumZ_nonneg. clear -Hss Hp. induction Hss; inversion Hp; subst; constructor; eauto.
Qed.

Lemma size_at_nonneg n ty s : unsigned_ty ty -> size_at n ty = Ok s -> 0 <= s.
Proof.
  revert ty s. induction n as [|k IH]; intros ty x U; cbn [size_at]; apply size_with_nonneg; try done;
    intros r s'; destruct (upgrade r) as [t|] eqn:E; cbn; try done. apply IH. by eapply unsigned_definition.
Qed.

Lemma size_at_sound n ty s : unsigned_ty ty -> size_at n ty = Ok s -> has_size ty s.
Proof.
  revert ty s. induction n as [|n IH]; intros ty s U; cbn [size_at]; apply size_with_sound; try done;
    intros r x; destruct (upgrade r) as [t|] eqn:E; cbn; try done.
  intros Ex. split; [eapply size_at_nonneg; [by eapply unsigned_definition|done]|]. intros name. eapply has_size_named; [done|]. apply IH; [by eapply unsigned_definition|done].
Qed.

Lemma size_with_complete (named : nat -> outcome Z) ty s :
  (forall r s, named r = Ok s -> 0 <= s) ->
  Forall (fun r => forall t s, upgrade r = Some t -> has_size t s -> named r = Ok s) (by_value ty) ->
  unsigned_ty ty -> has_size ty s -> size_with named ty = Ok s.
Proof.
  intros Hpos. revert ty s. refine (Type_nested_ind _ _ _ _ _ _ _);
    [intros ty|intros t IH|intros r ps v _ _|intros t n IH|intros t n IH|intros tys p IH];
    [|intros s Hn U Hs; inversion Hs; subst; cbn [size_with]..].
  - destruct ty; try done; intros s Hn U Hs; inversion Hs as [| | | | | |name' r t s' Er Ht]; subst; try done. cbn in Hn |- *.
    apply Forall_cons in Hn as [Hn _]. by eapply Hn.
  - done.
  - destruct U as [? U]. match goal with H : has_size t _ |- _ => rewrite (IH _ Hn U H) end. cbn. by apply u64_mul_iff; split; [|lia || match goal with H : usize _ |- _ => apply H end].
  - destruct U as [? U]. match goal with H : has_size t _ |- _ => rewrite (IH _ Hn U H) end. cbn. by apply u64_mul_iff; split; [|lia || match goal with H : usize _ |- _ => apply H end].
  - apply unsigned_struct in U. cbn [by_value] in Hn. rewrite List.Forall_concat, Forall_fmap in Hn. rewrite foldO_fmap. apply foldO_sum; [|lia|].
    + eapply Forall_impl; [exact U|]. intros t Ut x. by apply size_with_nonneg.
    + match goal with H : Forall2 _ tys ?ss, Hu : usize _ |- _ => exists ss; split; [|split; [lia|apply Hu]]; eapply Forall2_via; [|exact H] end.
      eapply Forall_impl; [exact (proj2 (Forall_and _ _) (conj IH (proj2 (Forall_and _ _) (conj Hn U))))|]. cbn. intros t (IHt & Hnt & Ut) x. by apply IHt.
Qed.

Lemma size_at_complete (rank : nat -> nat) n ty s :
  (forall r t, upgrade r = Some t -> forall r', r' ∈ by_value t -> is_Some (upgrade r') -> (rank r' < rank r)%nat) ->
  (forall r, r ∈ by_value ty -> is_Some (upgrade r) -> (rank r < n)%nat) ->
  unsigned_ty ty -> has_size ty s -> size_at n ty = Ok s.
Proof.
  intros Hrank. revert ty s. induction n as [|n IH]; intros ty s Hty U Hs; cbn [size_at];
    apply size_with_complete; try done.
  - intros r x. by destruct (upgrade r).
  - apply Forall_forall. intros r Hr t x E _. specialize (Hty r Hr ltac:(by rewrite E)). lia.
  - intros r x. destruct (upgrade r) as [t|] eqn:E; cbn; [|done]. apply size_at_nonneg. by eapply unsigned_definition.
  - apply Forall_forall. intros r Hr t x E Hx. rewrite E. cbn. apply IH; [|by eapply unsigned_definition|done].
    intros r' Hr' Hs'. specialize (Hty r Hr ltac:(by rewrite E)). specialize (Hrank r t E r' Hr' Hs'). lia.
Qed.

(** A computation that does not end in an error. *)
Definition no_error {A} (o : outcome A) : Prop := forall e, o <> Err e.
Lemma no_error_bind {A B} (c : outcome A) (f : A -> outcome B) : no_error c -> (forall a, no_error (f a)) -> no_error (c ≫= f).
Proof. intros Hc Hf e. destruct c; cbn; [apply Hf|by intros [= ->]; eapply Hc|done..]. Qed.
Lemma no_error_foldO {A B} (f : A -> B -> outcome A) a bs :
  Forall (fun b => forall a, no_error (f a b)) bs -> no_error (foldO f a bs).
Proof. intros Hf. revert a. induction Hf as [|b bs Hb _ IH]; intros a; [by intros e|]. cbn. apply no_error_bind; auto. Qed.
Lemma no_error_u64_add a b : no_error (u64_add a b).
Proof. intros e. unfold u64_add. by case_match. Qed.
Lemma no_error_u64_mul a b : no_error (u64_mul a b).
Proof. intros e. unfold u64_mul. by case_match. Qed.
Lemma no_error_expect {A} msg (o : option A) : no_error (expect msg o).
Proof. intros e. by destruct o. Qed.
Lemma no_error_fmap {A B} (f : A -> B) (c : outcome A) : no_error c -> no_error (f <$> c).
Proof. intros Hc e. destruct c; cbn; [done|intros [= ->]; by eapply Hc|done..]. Qed.

Lemma size_with_no_error (named : nat -> outcome Z) ty : (forall r, no_error (named r)) -> no_error (size_with named ty).
Proof.
  intros Hn. revert ty. refine (Type_nested_ind _ _ _ _ _ _ _);
    [intros ty; destruct ty; try done|intros t IH|intros r ps v _ _|intros t n IH|intros t n IH|intros tys p IH]; cbn [size_with]; try done.
  - by apply no_error_bind; [apply no_error_expect|].
  - apply no_error_bind; [done|]. intros. apply no_error_u64_mul.
  - apply no_error_bind; [done|]. intros. apply no_error_u64_mul.
  - rewrite foldO_fmap. apply no_error_foldO. eapply Forall_impl; [exact IH|]. intros t Ht acc.
    apply no_error_bind; [done|]. intros. apply no_error_u64_add.
Qed.
Lemma size_no_error ty : no_error (size ty).
Proof.
  unfold size. generalize (length struct_types). intros n. revert ty. induction n as [|n IH]; intros ty; cbn [size_at];
    apply size_with_no_error; intros r; apply no_error_bind; try apply no_error_expect; [by intros t e|done].
Qed.

Lemma size_defined ty : acyclic -> size ty <> OutOfFuel.
Proof.
  intros [rank Hrank]. apply (size_at_defined rank).
  - intros r t Hr. by apply Hrank.
  - intros r _ [t Hr]. by eapply Hrank.
Qed.

Lemma size_iff ty s : acyclic -> unsigned_ty ty -> size ty = Ok s <-> has_size ty s.
Proof.
  intros [rank Hrank] U. split; [by apply size_at_sound|]. apply (size_at_complete rank).
  - intros r t Hr. by apply Hrank.
  - intros r _ [t Hr]. by eapply Hrank.
  - done.
Qed.

Lemma ok_or_panic {A} (o : outcome A) (P : A -> Prop) : no_error o -> o <> OutOfFuel -> (forall a, o = Ok a <-> P a) ->
  (exists a, P a /\ o = Ok a) \/ (forall a, ~ P a) /\ exists p, o = Panic p.
Proof.
  intros He Hf Hp. destruct o as [a|e|p|].
  - left. exists a. split; [by apply Hp|done].
  - by destruct (He e).
  - right. split; [intros a Ha%Hp; done|by exists p].
  - done.
Qed.

(** *** [size_opaque_aware] *)

Section opaque.
Context (proj : Project) (Hacyclic : acyclic).

Lemma lookup_no_error ty : no_error (get_inner_struct_type_from_named proj ty).
Proof.
  intros e. destruct ty; try done. cbn. destruct ty as [r|]; [by destruct (upgrade r)|].
  destruct (get_named_struct_type_by_name proj name) as [[[r|] m]|]; try done. by destruct (upgrade r).
Qed.
Lemma lookup_named ty t : get_inner_struct_type_from_named proj ty = Ok (Some t) -> unsigned_ty t.
Proof.
  destruct ty; try done. cbn. destruct ty as [r|].
  - destruct (upgrade r) as [t'|] eqn:E; cbn; [|done]. intros [= <-]. by eapply unsigned_definition.
  - destruct (get_named_struct_type_by_name proj name) as [[[r|] m]|]; try done.
    destruct (upgrade r) as [t'|] eqn:E; cbn; [|done]. intros [= <-]. by eapply unsigned_definition.
Qed.

Lemma size_opaque_struct (named : Type_ -> outcome (option Z)) tys packed :
  size_opaque_aware_with named (StructType tys packed) = foldO (add_opaque (size_opaque_aware_with named)) (Some 0) tys.
Proof. cbn [size_opaque_aware_with]. by rewrite foldO_fmap. Qed.

Lemma opaque_with_nonneg (named : Type_ -> outcome (option Z)) ty s :
  (forall name r s, named (NamedStructType name r) = Ok (Some s) -> 0 <= s) ->
  unsigned_ty ty -> size_opaque_aware_with named ty = Ok (Some s) -> 0 <= s.
Proof.
  intros Hn. assert (forall ty s, unsigned_ty ty -> Some <$> size ty = Ok (Some s) -> 0 <= s) as Hs.
  { intros t x U. destruct (size t) eqn:E; cbn; try done. intros [= ->]. by eapply size_at_nonneg. }
  revert ty s. refine (Type_nested_ind _ _ _ _ _ _ _);
    [intros ty; destruct ty; try done; intros s U|intros t IH s|intros r ps v _ _ s U|intros t n IH s U|intros t n IH s U|intros tys p IH s U];
    try (by apply Hs); try (by apply Hn).
  - cbn. intros (x & Ex & E)%bind_ok. destruct x as [x|]; [|done]. destruct (u64_mul x n) eqn:Em; cbn in E; try done.
    apply u64_mul_iff in Em as [-> _]. injection E as <-. destruct U as [? U]. specialize (IH x U Ex). nia.
  - cbn. intros (x & Ex & E)%bind_ok. destruct x as [x|]; [|done]. destruct (u64_mul x n) eqn:Em; cbn in E; try done.
    apply u64_mul_iff in Em as [-> _]. injection E as <-. destruct U as [? U]. specialize (IH x U Ex). nia.
  - apply unsigned_struct in U. rewrite size_opaque_struct. assert (Forall (fun t => forall x, size_opaque_aware_with named t = Ok (Some x) -> 0 <= x) tys) as Hp.
    { eapply Forall_impl; [exact (proj2 (Forall_and _ _) (conj IH U))|]. cbn. intros t [IHt Ut] x. by apply IHt. }
    intros E%foldO_sum_opaque; [|done|lia]. destruct E as (ss & Hss & -> & _). cbn. apply sumZ_nonneg.
    clear -Hss Hp. induction Hss; inversion Hp; subst; constructor; eauto.
Qed.

Lemma opaque_elements (named : Type_ -> outcome (option Z)) tys :
  (forall name r s, named (NamedStructType name r) = Ok (Some s) -> 0 <= s) -> Forall unsigned_ty tys ->
  Forall (fun t => forall x, size_opaque_aware_with named t = Ok (Some x) -> 0 <= x) tys.
Proof. intros Hn U. eapply Forall_impl; [exact U|]. intros t Ut x. by apply opaque_with_nonneg. Qed.

(** An array or a vector. *)
Lemma opaque_times (c : outcome (option Z)) n o : 0 <= n -> (forall s, c = Ok (Some s) -> 0 <= s) ->
  (s ← c; match s with Some s => Some <$> u64_mul s n | None => mret None end) = Ok o <->
  (exists s, c = Ok (Some s) /\ o = Some (s * n) /\ usize (s * n)) \/ c = Ok None /\ o = None.
Proof.
  intros Hn Hc. rewrite bind_ok_iff. split.
  - intros ([x|] & Ex & E); [left|right; split; [done|by injection E]]. exists x. split; [done|]. specialize (Hc x Ex).
    destruct (u64_mul x n) eqn:Em; cbn in E; try done. apply u64_mul_iff in Em as [-> ?]. injection E as <-. split; [done|]. split; [nia|done].
  - intros [(x & Ex & -> & Hu)|[Ex ->]]; eexists; (split; [exact Ex|]); [|done]. cbn beta iota. by rewrite (proj2 (u64_mul_iff x n _) (conj eq_refl (proj2 Hu))).
Qed.

Lemma opaque_with_sound (named : Type_ -> outcome (option Z)) ty o :
  (forall name r s, named (NamedStructType name r) = Ok (Some s) -> 0 <= s) ->
  (forall name r o, named (NamedStructType name r) = Ok o -> has_size_in proj (NamedStructType name r) o) ->
  unsigned_ty ty -> size_opaque_aware_with named ty = Ok o -> has_size_in proj ty o.
Proof.
  intros Hpos Hn. assert (forall ty o, scalar ty = true -> unsigned_ty ty -> Some <$> size ty = Ok o -> has_size_in proj ty o) as Hs.
  { intros t x Ht U. destruct (size t) eqn:E; cbn; try done. intros [= <-]. constructor; [done|]. by eapply size_at_sound. }
  revert ty o. refine (Type_nested_ind _ _ _ _ _ _ _);
    [intros ty; destruct ty; try done; intros o U|intros t IH o|intros r ps v _ _ o U|intros t n IH o U|intros t n IH o U|intros tys p IH o U];
    try (by apply Hs); try (by apply Hn); cbn [size_opaque_aware_with].
  - destruct U as [Hn0 U]. intros E%opaque_times; [|done|intros x; by apply opaque_with_nonneg].
    destruct E as [(x & Ex & -> & Hu)|[Ex ->]]; [apply size_in_vector; auto|apply opaque_vector; auto].
  - destruct U as [Hn0 U]. intros E%opaque_times; [|done|intros x; by apply opaque_with_nonneg].
    destruct E as [(x & Ex & -> & Hu)|[Ex ->]]; [apply size_in_array; auto|apply opaque_array; auto].
  - apply unsigned_struct in U. pose proof (opaque_elements named tys Hpos U) as Hp.
    assert (Forall (fun t => forall o, size_opaque_aware_with named t = Ok o -> has_size_in proj t o) tys) as IH'.
    { eapply Forall_impl; [exact (proj2 (Forall_and _ _) (conj IH U))|]. cbn. intros t [IHt Ut] x. by apply IHt. }
    change (size_opaque_aware_with named (StructType tys p) = Ok o -> has_size_in proj (StructType tys p) o).
    rewrite size_opaque_struct. intros E%foldO_sum_opaque; [|done|lia]. destruct o as [s|].
    + destruct E as (ss & Hss & -> & Hlt). apply size_in_struct.
      * eapply Forall2_via; [|exact Hss]. eapply Forall_impl; [exact IH'|]. auto.
      * split; [|done]. apply sumZ_nonneg. clear -Hss Hp. induction Hss; inversion Hp; subst; constructor; eauto.
    + destruct E as (pre & t & post & ss & -> & Hss & Hlt & Et). apply Forall_app in IH' as [IHp IHt], Hp as [Hp _].
      apply Forall_cons in IHt as [IHt _]. apply (opaque_struct _ _ _ _ _ ss); [| |by apply IHt].
      * eapply Forall2_via; [|exact Hss]. eapply Forall_impl; [exact IHp|]. auto.
      * split; [|done]. apply sumZ_nonneg. clear -Hss Hp. induction Hss; inversion Hp; subst; constructor; eauto.
Qed.

Lemma opaque_with_complete (named : Type_ -> outcome (option Z)) ty o :
  (forall name r s, named (NamedStructType name r) = Ok (Some s) -> 0 <= s) ->
  Forall (fun t => forall o, has_size_in proj t o -> named t = Ok o) (named_by_value ty) ->
  unsigned_ty ty -> has_size_in proj ty o -> size_opaque_aware_with named ty = Ok o.
Proof.
  intros Hpos. assert (forall ty o, scalar ty = true -> unsigned_ty ty -> has_size_in proj ty o -> Some <$> size ty = Ok o) as Hs.
  { intros t x Ht U Hx. inversion Hx as [t' s _ Hsz| | | | | | | |]; subst; try done. by rewrite (proj2 (size_iff t s Hacyclic U) Hsz). }
  revert ty o. refine (Type_nested_ind _ _ _ _ _ _ _);
    [intros ty; destruct ty; try done; intros o Hn U|intros t IH o Hn|intros r ps v _ _ o Hn U|intros t n IH o Hn U|intros t n IH o Hn U|intros tys p IH o Hn U];
    try (by apply Hs).
  - cbn in Hn. apply Forall_cons in Hn as [Hn _]. apply Hn.
  - destruct U as [Hn0 U]. intros Hx. apply opaque_times; [done|intros x; by apply opaque_with_nonneg|].
    inversion Hx; subst; [done|left|right; split; [by apply IH|done]]. eexists. split; [by apply IH|done].
  - destruct U as [Hn0 U]. intros Hx. apply opaque_times; [done|intros x; by apply opaque_with_nonneg|].
    inversion Hx; subst; [done|left|right; split; [by apply IH|done]]. eexists. split; [by apply IH|done].
  - apply unsigned_struct in U. pose proof (opaque_elements named tys Hpos U) as Hp.
    cbn [named_by_value] in Hn. rewrite List.Forall_concat, Forall_fmap in Hn.
    assert (Forall (fun t => forall o, has_size_in proj t o -> size_opaque_aware_with named t = Ok o) tys) as IH'.
    { eapply Forall_impl; [exact (proj2 (Forall_and _ _) (conj IH (proj2 (Forall_and _ _) (conj Hn U))))|]. cbn. intros t (IHt & Hnt & Ut) x. by apply IHt. }
    intros Hx. rewrite size_opaque_struct. apply foldO_sum_opaque; [done|lia|]. inversion Hx as [| | | | |tys' p' ss Hss Hu|pre t post p' ss Hss Hu Ht| |]; subst; [done|..].
    + exists ss. split; [|split; [lia|apply Hu]]. eapply Forall2_via; [|exact Hss]. eapply Forall_impl; [exact IH'|]. auto.
    + apply Forall_app in IH' as [IHp IHt]. apply Forall_cons in IHt as [IHt _]. exists pre, t, post, ss. split; [done|].
      split; [|split; [apply Hu|by apply IHt]]. eapply Forall2_via; [|exact Hss]. eapply Forall_impl; [exact IHp|]. auto.
Qed.

Lemma named_by_value_named ty : Forall (fun t => exists name r, t = NamedStructType name r) (named_by_value ty).
Proof.
  revert ty. refine (Type_nested_ind _ _ _ _ _ _ _);
    [intros ty; destruct ty; try done; cbn; try apply List.Forall_nil|intros t IH|intros r ps v _ _|intros t n IH|intros t n IH|intros tys p IH];
    try done; try apply List.Forall_nil.
  - apply Forall_singleton. by eauto.
  - cbn [named_by_value]. by rewrite List.Forall_concat, Forall_fmap.
Qed.

Lemma opaque_at_nonneg n ty s : unsigned_ty ty -> size_opaque_aware_at n proj ty = Ok (Some s) -> 0 <= s.
Proof.
  revert ty s. induction n as [|n IH]; intros ty s U; cbn [size_opaque_aware_at]; apply opaque_with_nonneg; try done;
    intros name r x ([t|] & Et & E)%bind_ok; try done. eapply IH; [by eapply lookup_named|done].
Qed.

Lemma opaque_at_sound n ty o : unsigned_ty ty -> size_opaque_aware_at n proj ty = Ok o -> has_size_in proj ty o.
Proof.
  revert ty o. induction n as [|n IH]; intros ty o U; cbn [size_opaque_aware_at]; apply opaque_with_sound; try done;
    intros name r x ([t|] & Et & E)%bind_ok; try done.
  - injection E as <-. by apply undefined_struct.
  - eapply opaque_at_nonneg; [by eapply lookup_named|done].
  - eapply size_in_named; [done|]. apply IH; [by eapply lookup_named|done].
  - injection E as <-. by apply undefined_struct.
Qed.

Lemma opaque_at_complete (rank : Type_ -> nat) n ty o :
  (forall ty t, get_inner_struct_type_from_named proj ty = Ok (Some t) ->
     forall ty' t', ty' ∈ named_by_value t -> get_inner_struct_type_from_named proj ty' = Ok (Some t') -> (rank ty' < rank ty)%nat) ->
  (forall ty' t', ty' ∈ named_by_value ty -> get_inner_struct_type_from_named proj ty' = Ok (Some t') -> (rank ty' < n)%nat) ->
  unsigned_ty ty -> has_size_in proj ty o -> size_opaque_aware_at n proj ty = Ok o.
Proof.
  intros Hrank. revert ty o. induction n as [|n IH]; intros ty o Hty U Ho; cbn [size_opaque_aware_at]; apply opaque_with_complete; try done;
    [intros name r x ([t|] & Et & E)%bind_ok; try done| |intros name r x ([t|] & Et & E)%bind_ok; try done|];
    [|eapply opaque_at_nonneg; [by eapply lookup_named|done]|];
    apply Forall_forall; intros t Ht x Hx;
    destruct (proj1 (Forall_forall _ _) (named_by_value_named ty) t Ht) as (name & r & ->);
    inversion Hx as [| | | | | | |name' r' t' o' Et Ht'|name' r' Et]; subst; try done; rewrite Et; cbn; try done.
  - specialize (Hty _ _ Ht Et). lia.
  - apply IH; [|by eapply lookup_named|done]. intros ty' t'' Hin Et'. specialize (Hty _ _ Ht Et). specialize (Hrank _ _ Et _ _ Hin Et'). lia.
Qed.

Lemma opaque_with_defined (named : Type_ -> outcome (option Z)) ty :
  Forall (fun t => named t <> OutOfFuel) (named_by_value ty) -> size_opaque_aware_with named ty <> OutOfFuel.
Proof.
  assert (forall ty, Some <$> size ty <> OutOfFuel) as Hs by (intros t; pose proof (size_defined t Hacyclic); by destruct (size t)).
  assert (forall n s, Some <$> u64_mul s n <> OutOfFuel) as Hm by (intros n s; unfold u64_mul; by case_match).
  revert ty. refine (Type_nested_ind _ _ _ _ _ _ _);
    [intros ty; destruct ty; try done; intros Hn|intros t IH Hn|intros r ps v _ _ Hn|intros t n IH Hn|intros t n IH Hn|intros tys p IH Hn];
    try (by apply Hs); cbn [size_opaque_aware_with].
  - cbn in Hn. by apply Forall_cons in Hn as [Hn _].
  - apply bind_defined; [by apply IH|]. intros [s|]; [apply Hm|done].
  - apply bind_defined; [by apply IH|]. intros [s|]; [apply Hm|done].
  - cbn [named_by_value] in Hn. rewrite List.Forall_concat, Forall_fmap in Hn. rewrite foldO_fmap. apply foldO_defined.
    eapply Forall_impl; [exact (proj2 (Forall_and _ _) (conj IH Hn))|]. cbn. intros t [IHt Hnt] [acc|]; [|done].
    apply bind_defined; [by apply IHt|]. intros [s|]; [|done]. unfold u64_add. by case_match.
Qed.

Lemma lookup_defined ty : get_inner_struct_type_from_named proj ty <> OutOfFuel.
Proof.
  destruct ty; try done. cbn. destruct ty as [r|]; [by destruct (upgrade r)|].
  destruct (get_named_struct_type_by_name proj name) as [[[r|] m]|]; try done. by destruct (upgrade r).
Qed.

Lemma opaque_at_defined (rank : Type_ -> nat) n ty :
  (forall ty t, get_inner_struct_type_from_named proj ty = Ok (Some t) ->
     forall ty' t', ty' ∈ named_by_value t -> get_inner_struct_type_from_named proj ty' = Ok (Some t') -> (rank ty' < rank ty)%nat) ->
  (forall ty' t', ty' ∈ named_by_value ty -> get_inner_struct_type_from_named proj ty' = Ok (Some t') -> (rank ty' < n)%nat) ->
  size_opaque_aware_at n proj ty <> OutOfFuel.
Proof.
  intros Hrank. revert ty. induction n as [|n IH]; intros ty Hty; cbn [size_opaque_aware_at];
    apply opaque_with_defined, Forall_forall; intros t Ht; destruct (get_inner_struct_type_from_named proj t) as [[t'|]| | |] eqn:Et;
    cbn; try done.
  - specialize (Hty _ _ Ht Et). lia.
  - by destruct (lookup_defined t).
  - apply IH. intros ty' t'' Hin Et'. specialize (Hty _ _ Ht Et). specialize (Hrank _ _ Et _ _ Hin Et'). lia.
  - by destruct (lookup_defined t).
Qed.

Lemma opaque_with_no_error (named : Type_ -> outcome (option Z)) ty : (forall t, no_error (named t)) -> no_error (size_opaque_aware_with named ty).
Proof.
  intros Hn. assert (forall ty, no_error (Some <$> size ty)) as Hs by (intros t; apply no_error_fmap, size_no_error).
  assert (forall (c : outcome (option Z)) n, no_error c -> no_error (s ← c; match s with Some s => Some <$> u64_mul s n | None => mret None end)) as Hm.
  { intros c n Hc. apply no_error_bind; [done|]. intros [s|]; [apply no_error_fmap, no_error_u64_mul|done]. }
  revert ty. refine (Type_nested_ind _ _ _ _ _ _ _);
    [intros ty; destruct ty; try done|intros t IH|intros r ps v _ _|intros t n IH|intros t n IH|intros tys p IH];
    try (by apply Hs); try (by apply Hn); try (by apply Hm).
  rewrite size_opaque_struct. apply no_error_foldO. eapply Forall_impl; [exact IH|]. intros t Ht [acc|]; [|done].
  apply no_error_bind; [done|]. intros [s|]; [apply no_error_fmap, no_error_u64_add|done].
Qed.

Lemma opaque_at_no_error n ty : no_error (size_opaque_aware_at n proj ty).
Proof.
  revert ty. induction n as [|n IH]; intros ty; cbn [size_opaque_aware_at]; apply opaque_with_no_error; intros t;
    (apply no_error_bind; [apply lookup_no_error|]); by intros [t'|].
Qed.

End opaque.

(** C35: the sizes of types.  On struct definitions that do not contain
    themselves by value, [size] returns exactly the size that a type has by the
    reference layout, and panics for the types that have none (an opaque or
    unsupported part, or a size beyond a [usize]); it is never an error and
    always ends.  [size_opaque_aware] does the same with the definitions of a
    project, and returns [None] exactly for the types with a part that the
    project does not define. *)
Theorem size_correct ty proj : acyclic -> acyclic_in proj -> unsigned_ty ty ->
  ((exists s, has_size ty s /\ size ty = Ok s) \/ (forall s, ~ has_size ty s) /\ exists p, size ty = Panic p) /\
  ((exists o, has_size_in proj ty o /\ size_opaque_aware ty proj = Ok o) \/
   (forall o, ~ has_size_in proj ty o) /\ exists p, size_opaque_aware ty proj = Panic p).
Proof.
  intros Hac [rank Hrank] U. split; apply ok_or_panic.
  - apply size_no_error.
  - by apply size_defined.
  - intros s. by apply size_iff.
  - apply opaque_at_no_error.
  - apply (opaque_at_defined proj Hac rank); [intros t t' E; by apply Hrank|]. intros t t' _ E. by apply Hrank in E as [? _].
  - intros o. split; [by apply opaque_at_sound|].
    apply (opaque_at_complete proj Hac rank); [intros t t' E; by apply Hrank|intros t t' _ E; by apply Hrank in E as [? _]|done].
Qed.
End reference.

(** ** Witness: [%inner = type { i16, [3 x i8] }], [%pair = type { i8, %inner, i64 }], and an opaque [%ghost] *)

Module SizeWitnesses.

Definition inner : Type_ := StructType [IntegerType 16; ArrayType (IntegerType 8) 3] false.
Definition pair : Type_ := StructType [IntegerType 8; NamedStructType "inner" (Some 0%nat); IntegerType 64] false.
#[local] Instance structs : LLVM := ToyLLVM.toy_llvm [inner; pair].
Definition proj : Project :=
  {| modules := [{| mod_name := "m"; mod_source_file_name := "m.c"; mod_functions := []; mod_global_vars := [];
                    mod_global_aliases := []; mod_named_struct_types := {["inner" := Some 0%nat; "pair" := Some 1%nat; "ghost" := None]} |}] |}.
(** Two pairs and, behind its name only, an inner struct. *)
Definition good : Type_ := StructType [ArrayType (NamedStructType "pair" (Some 1%nat)) 2; NamedStructType "inner" None] false.

Definition rank (ty : Type_) : nat :=
  match ty with NamedStructType _ (Some r) => r | NamedStructType name None => if String.eqb name "pair" then 1%nat else 0%nat | _ => 0%nat end.

Lemma acyclic_structs : acyclic.
Proof.
  exists id. intros [|[|r]] t; cbn; [intros [= <-]..|done].
  - split; [cbn; lia|]. cbn. intros r' Hr'. by apply not_elem_of_nil in Hr'.
  - split; [cbn; lia|]. cbn. intros r' ->%list_elem_of_singleton _. cbn. lia.
Qed.

Lemma definitions ty t : get_inner_struct_type_from_named proj ty = Ok (Some t) -> t = inner /\ (rank ty < 2)%nat \/ t = pair /\ rank ty = 1%nat.
Proof.
  destruct ty; try done. destruct ty as [[|[|r]]|]; cbn; try done; try (intros [= <-]; auto).
  unfold get_named_struct_type_by_name, proj. cbn.
  destruct (decide (name = "inner")) as [->|Hi]; [rewrite lookup_insert_eq; intros [= <-]; auto|rewrite lookup_insert_ne by done].
  destruct (decide (name = "pair")) as [->|Hp]; [rewrite lookup_insert_eq; intros [= <-]; auto|rewrite lookup_insert_ne by done].
  destruct (decide (name = "ghost")) as [->|Hg]; [by rewrite lookup_singleton_eq|by rewrite lookup_singleton_ne].
Qed.
Lemma acyclic_project : acyclic_in proj.
Proof.
  exists rank. intros ty t [[-> Hr]|[-> Hr]]%definitions.
  - split; [done|by intros ty' t' Hin%not_elem_of_nil].
  - split; [rewrite Hr; cbn; lia|]. rewrite Hr. cbn. intros ty' t' ->%list_elem_of_singleton _. cbn. lia.
Qed.

(** A struct with a size, and one that contains the opaque struct. *)
Lemma size_correct_witness :
  size_opaque_aware good proj = Ok (Some (2 * 112 + 40)) /\ has_size_in proj good (Some 264) /\
  (exists p, size good = Panic p) /\ (forall s, ~ has_size good s) /\
  size_opaque_aware (ArrayType (NamedStructType "ghost" None) 3) proj = Ok None.
Proof.
  assert (Forall unsigned_ty struct_types) as Hu by (repeat constructor; cbn; lia).
  assert (unsigned_ty good) as Hg by (cbn; lia).
  destruct (size_correct Hu good proj acyclic_structs acyclic_project Hg) as [Hs Ho].
  assert (size_opaque_aware good proj = Ok (Some 264)) as E by (vm_compute; reflexivity).
  split; [exact E|]. split; [|split; [|split]].
  - destruct Ho as [(o & Ho & E')|[_ [p E']]]; rewrite E in E'; [by injection E' as <-|done].
  - by eexists.
  - destruct Hs as [(s & _ & E')|[Hs _]]; [by vm_compute in E'|exact Hs].
  - by vm_compute.
Defined.

End SizeWitnesses.
