(* ===== verification/VarMap.v ===== *)
(** * VarMap: versioned local variables (src/src/varmap.rs, src/src/double_keyed_map.rs)

    SSA names are bound per function; every binding of a name makes a new
    version of it, and the number of versions bounds loops and recursion.
    Restore information taken before a call brings the caller's bindings back
    after it.  The theorems: a binding is what a lookup returns, at most
    [max_versions_of_name] bindings of a name succeed, versioned names are
    distinct, and restoring undoes whatever a callee did to the caller's
    variables. *)
From S2P Require Import Prelude Bits Backend ToySolver LLVMIR.
From stdpp Require Import pretty sorting.

Open Scope Z_scope.

(** ** A map with two keys: a map from the pair of them *)

Module DoubleKeyedMap.

Section ops.
Context {A B V : Type} `{Countable A} `{Countable B}.
Implicit Types self : gmap (A * B) V.

Definition new : gmap (A * B) V := ∅.
Definition get self (a : A) (b : B) : option V := self !! (a, b).
Definition insert self (a : A) (b : B) (v : V) : gmap (A * B) V := <[(a, b) := v]> self.
Definition remove self (a : A) (b : B) : option V * gmap (A * B) V :=
  (self !! (a, b), delete (a, b) self).
Definition is_empty self : bool := (size self =? 0)%nat.
Definition len self : nat := size self.
(** A mutable reference, or an entry, is what is done with it. *)
Definition get_mut self (a : A) (b : B) (f : V -> V) : gmap (A * B) V := alter f (a, b) self.
Definition entry self (a : A) (b : B) (f : option V -> option V) : gmap (A * B) V := partial_alter f (a, b) self.
Definition values_mut self (f : V -> V) : gmap (A * B) V := f <$> self.
(** [iter], [keys], [values]; a [HashMap] iterates in no particular order *)
Definition iter self : list (A * B * V) := map_to_list self.
Definition keys self : list (A * B) := fst <$> map_to_list self.
Definition values self : list V := snd <$> map_to_list self.

End ops.
End DoubleKeyedMap.

Section operations.
Context `{Ops : BackendOps}.

Record VarMap := {
  active_version : gmap (string * Name) BV;
  version_num : gmap (string * Name) Z;
  max_version_num : Z
}.

Record RestoreInfo := {
  ri_funcname : string;
  pairs_to_restore : list (Name * BV)
}.

Definition varmap_new (max_versions_of_name : Z) : outcome VarMap :=
  max ← u64_sub max_versions_of_name 1;
  mret {| active_version := DoubleKeyedMap.new; version_num := DoubleKeyedMap.new;
          max_version_num := max |}.

Definition set_active (av : gmap (string * Name) BV) (self : VarMap) : VarMap :=
  {| active_version := av; version_num := version_num self; max_version_num := max_version_num self |}.
Definition set_version_num (vn : gmap (string * Name) Z) (self : VarMap) : VarMap :=
  {| active_version := active_version self; version_num := vn; max_version_num := max_version_num self |}.

(** [self.version_num.entry(f, n).and_modify(|v| *v += 1).or_insert(0)] *)
Definition bump_version (funcname : string) (name : Name) : M VarMap Z :=
  self ← get;
  match DoubleKeyedMap.get (version_num self) funcname name with
  | Some v =>
      v' ← lift (u64_add v 1);
      _ ← modify (set_version_num (DoubleKeyedMap.insert (version_num self) funcname name v'));
      mret v'
  | None =>
      _ ← modify (set_version_num (DoubleKeyedMap.insert (version_num self) funcname name 0));
      mret 0
  end.

(** [n.to_string()] for a [usize] *)
Definition usize_to_string (n : Z) : string := pretty (Z.to_N n).

Definition build_versioned_name (funcname : string) (name : Name) (version : Z) : string :=
  let '(name_prefix, stem) :=
    match name with
    | NameStr s => ("name_", s)
    | Number n => ("%", usize_to_string n)
    end%string in
  ("@" +:+ funcname +:+ "_" +:+ name_prefix +:+ stem +:+ "_" +:+ usize_to_string version)%string.

Definition new_version_of_name (funcname : string) (name : Name) : M VarMap string :=
  v ← bump_version funcname name;
  self ← get;
  if max_version_num self <? v then err (LoopBoundExceeded (max_version_num self))
  else mret (build_versioned_name funcname name v).

Definition new_bv_with_name (funcname : string) (name : Name) (bits : Z)
    : M (VarMap * SolverRef) BV :=
  new_version ← zoom fst (fun vm s => (vm, snd s)) (new_version_of_name funcname name);
  bv ← zoom snd (fun sol s => (fst s, sol))
         (fun sol => let '(b, sol') := bv_new bits (Some new_version) sol in (Ok b, sol'));
  _ ← modify (fun '(vm, sol) =>
        (set_active (DoubleKeyedMap.insert (active_version vm) funcname name bv) vm, sol));
  mret bv.

Definition assign_bv_to_name (funcname : string) (name : Name) (bv : BV) : M VarMap unit :=
  v ← bump_version funcname name;
  self ← get;
  if max_version_num self <? v then err (LoopBoundExceeded (max_version_num self))
  else modify (set_active (DoubleKeyedMap.insert (active_version self) funcname name bv)).

Definition lookup_var (self : VarMap) (funcname : string) (name : Name) : outcome BV :=
  expect "Failed to find var" (DoubleKeyedMap.get (active_version self) funcname name).

Definition overwrite_latest_version_of_bv (funcname : string) (name : Name) (bv : BV)
    : M VarMap unit :=
  self ← get;
  match DoubleKeyedMap.get (active_version self) funcname name with
  | Some _ => modify (set_active (DoubleKeyedMap.insert (active_version self) funcname name bv))
  | None => panic "failed to find current active version"
  end.

(** The bindings of a function; [name_le] is the order of [llvm_ir::Name]. *)
Definition get_all_vars_in_fn (name_le : Name -> Name -> Prop) `{!RelDecision name_le}
    (self : VarMap) (funcname : string) : list (Name * BV) :=
  @merge_sort _ (fun x y => name_le (fst x) (fst y)) (fun x y => decide (name_le (fst x) (fst y)))
    ((fun '(_, n, v) => (n, v)) <$>
     filter (fun '(f, _, _) => f = funcname) (DoubleKeyedMap.iter (active_version self))).

Definition get_restore_info_for_fn (self : VarMap) (funcname : string) : RestoreInfo :=
  {| ri_funcname := funcname;
     pairs_to_restore :=
       (fun '(_, n, v) => (n, v)) <$>
       filter (fun '(f, _, _) => f = funcname) (DoubleKeyedMap.iter (active_version self)) |}.

Definition restore_fn_vars (rinfo : RestoreInfo) : M VarMap unit :=
  forM (pairs_to_restore rinfo) (fun '(n, v) =>
    self ← get;
    match DoubleKeyedMap.get (active_version self) (ri_funcname rinfo) n with
    | Some _ => modify (set_active (DoubleKeyedMap.insert (active_version self) (ri_funcname rinfo) n v))
    | None => panic "Malformed RestoreInfo"
    end).

(** [for v in self.active_version.values_mut() { *v = new_solver.match_bv(v).unwrap(); }] *)
Definition change_solver (self : VarMap) (new_solver : SolverRef) : outcome VarMap :=
  vars ← mapO (fun '(k, v) =>
            v' ← expect "called `Option::unwrap()` on a `None` value" (match_bv new_solver v);
            mret (k, v')) (map_to_list (active_version self));
  mret (set_active (list_to_map vars) self).

End operations.

Section theorems.
Context `{Ops : BackendOps}.
Implicit Types (self : VarMap) (f : string) (n : Name).

(** The number of bindings of a name attempted so far. *)
Definition versions self f n : Z :=
  match version_num self !! (f, n) with Some v => v + 1 | None => 0 end.

Definition bumped f n self : VarMap :=
  set_version_num (<[(f, n) := versions self f n]> (version_num self)) self.

Lemma bump_version_eq f n self :
  versions self f n <= u64_max -> bump_version f n self = (Ok (versions self f n), bumped f n self).
Proof.
  intros Hv. unfold bump_version, bumped, versions, mbind, M_bind, get, DoubleKeyedMap.get in *. cbn.
  destruct (version_num self !! (f, n)) as [v|]; cbn; [|done].
  unfold u64_add, lift. by rewrite (proj2 (Z.leb_le _ _)) by done.
Qed.

(** [assign_bv_to_name] on both branches: the version counter always moves;
    the binding is made exactly when the bound allows one more version. *)
Lemma assign_eq f n bv self :
  versions self f n <= u64_max ->
  assign_bv_to_name f n bv self =
  if versions self f n <=? max_version_num self
  then (Ok tt, set_active (<[(f, n) := bv]> (active_version self)) (bumped f n self))
  else (Err (LoopBoundExceeded (max_version_num self)), bumped f n self).
Proof.
  intros Hv. unfold assign_bv_to_name. unfold mbind at 1, M_bind at 1. rewrite bump_version_eq by done.
  unfold mbind, M_bind, get, modify, err. cbn.
  destruct (Z.ltb_spec (max_version_num self) (versions self f n)), (Z.leb_spec (versions self f n) (max_version_num self));
    try lia; done.
Qed.

(** [new_bv_with_name] on both branches. *)
Lemma new_bv_eq f n bits self s :
  versions self f n <= u64_max ->
  new_bv_with_name f n bits (self, s) =
  if versions self f n <=? max_version_num self
  then let '(b, s') := bv_new bits (Some (build_versioned_name f n (versions self f n))) s in
       (Ok b, (set_active (<[(f, n) := b]> (active_version self)) (bumped f n self), s'))
  else (Err (LoopBoundExceeded (max_version_num self)), (bumped f n self, s)).
Proof.
  intros Hv. unfold new_bv_with_name, new_version_of_name.
  unfold mbind, M_bind, zoom. cbn [fst snd]. rewrite bump_version_eq by done.
  unfold get, modify, err. cbn.
  destruct (Z.ltb_spec (max_version_num self) (versions self f n)), (Z.leb_spec (versions self f n) (max_version_num self));
    try lia; cbn; [done|]. by destruct (bv_new bits _ s).
Qed.

Lemma versions_bumped f n self f' n' :
  versions (bumped f n self) f' n' = versions self f' n' + (if decide ((f, n) = (f', n')) then 1 else 0).
Proof.
  unfold versions at 1, bumped. cbn. destruct (decide ((f, n) = (f', n'))) as [[= <- <-]|Hne].
  - rewrite lookup_insert_eq. done.
  - rewrite lookup_insert_ne by done. unfold versions. case_match; lia.
Qed.

(** ** Operations of a function's execution, as a step relation

    What happens to the map between the moment restore information is taken
    and the moment it is used: bindings of any name of any function. *)
Inductive step : VarMap * SolverRef -> VarMap * SolverRef -> Prop :=
| step_assign self s f n bv : versions self f n <= u64_max ->
    step (self, s) (snd (assign_bv_to_name f n bv self), s)
| step_new self s f n bits : versions self f n <= u64_max ->
    step (self, s) (snd (new_bv_with_name f n bits (self, s)))
| step_overwrite self s f n bv : is_Some (active_version self !! (f, n)) ->
    step (self, s) (snd (overwrite_latest_version_of_bv f n bv self), s).

Lemma step_keeps_keys x y k : step x y -> is_Some (active_version (fst x) !! k) ->
  is_Some (active_version (fst y) !! k).
Proof.
  intros Hs Hk. destruct Hs as [self s f n bv Hv|self s f n bits Hv|self s f n bv [v Hv]]; cbn [fst] in *.
  - rewrite assign_eq by done. case_match; cbn; [|done]. apply lookup_insert_is_Some'. by right.
  - rewrite new_bv_eq by done. case_match; cbn; [|done]. destruct (bv_new _ _ s). cbn.
    apply lookup_insert_is_Some'. by right.
  - unfold overwrite_latest_version_of_bv, DoubleKeyedMap.get, mbind, M_bind, get. cbn. rewrite Hv. cbn.
    apply lookup_insert_is_Some'. by right.
Qed.

Lemma steps_keep_keys x y k : rtc step x y -> is_Some (active_version (fst x) !! k) ->
  is_Some (active_version (fst y) !! k).
Proof. induction 1; eauto using step_keeps_keys. Qed.

Lemma restore_info_spec self f n bv :
  (n, bv) ∈ pairs_to_restore (get_restore_info_for_fn self f) <-> active_version self !! (f, n) = Some bv.
Proof.
  unfold get_restore_info_for_fn, DoubleKeyedMap.iter. cbn. rewrite list_elem_of_fmap. split.
  - intros ([[f' n'] v'] & [= <- <-] & [-> Hin]%list_elem_of_filter). by apply elem_of_map_to_list in Hin.
  - intros Hl. exists (f, n, bv). split; [done|]. apply list_elem_of_filter. split; [done|].
    by apply elem_of_map_to_list.
Qed.

Lemma restore_info_nodup self f : NoDup (pairs_to_restore (get_restore_info_for_fn self f)).*1.
Proof.
  unfold get_restore_info_for_fn, DoubleKeyedMap.iter. cbn.
  pose proof (NoDup_fst_map_to_list (active_version self)) as Hnd.
  induction (map_to_list (active_version self)) as [|[[g n] v] l IH]; [constructor|].
  cbn in Hnd. apply NoDup_cons in Hnd as [Hni Hnd]. rewrite filter_cons.
  destruct (decide (g = f)) as [->|]; [|by apply IH]. cbn. constructor; [|by apply IH].
  intros Hin. apply Hni. apply list_elem_of_fmap in Hin as ([n' v'] & Hn & Hin). cbn in Hn. subst n'.
  apply list_elem_of_fmap in Hin as ([[g' n''] v''] & [= <- <-] & [-> Hin]%list_elem_of_filter).
  apply list_elem_of_fmap. by exists (f, n, v').
Qed.

(** Restoring a list of bindings of keys that are all present. *)
Lemma restore_fn_vars_eq f (pairs : list (Name * BV)) self :
  (forall n bv, (n, bv) ∈ pairs -> is_Some (active_version self !! (f, n))) ->
  restore_fn_vars {| ri_funcname := f; pairs_to_restore := pairs |} self =
  (Ok tt, set_active (foldl (fun av p => <[(f, fst p) := snd p]> av) (active_version self) pairs) self).
Proof.
  unfold restore_fn_vars. cbn [pairs_to_restore ri_funcname]. revert self.
  induction pairs as [|[n v] pairs IH]; intros self Hk; cbn [forM foldl].
  - destruct self. done.
  - unfold mbind at 1, M_bind at 1. unfold mbind, M_bind, get, DoubleKeyedMap.get. cbn.
    destruct (Hk n v ltac:(left)) as [x ->]. cbn. rewrite IH; [done|].
    intros n' v' Hin. cbn. apply lookup_insert_is_Some'. right. apply (Hk n' v'). by right.
Qed.

Lemma foldl_insert_lookup f (pairs : list (Name * BV)) (av : gmap (string * Name) BV) g n :
  NoDup pairs.*1 ->
  foldl (fun av p => <[(f, fst p) := snd p]> av) av pairs !! (g, n) =
  if decide (g = f) then match (list_to_map pairs : gmap Name BV) !! n with
                         | Some v => Some v | None => av !! (g, n) end
  else av !! (g, n).
Proof.
  revert av. induction pairs as [|[n' v] pairs IH]; intros av Hnd; cbn [foldl].
  - by case_decide.
  - cbn in Hnd. apply NoDup_cons in Hnd as [Hni Hnd]. rewrite IH by done. cbn [fst snd].
    destruct (decide (g = f)) as [->|Hg].
    + cbn. destruct (decide (n = n')) as [->|Hn].
      * rewrite lookup_insert_eq. rewrite (not_elem_of_list_to_map_1 pairs n') by done.
        by rewrite lookup_insert_eq.
      * rewrite !lookup_insert_ne by congruence. done.
    + by rewrite lookup_insert_ne by congruence.
Qed.

(** Binding a name makes it the value a lookup returns, leaves every other
    binding of every function alone, and counts one more version; when the
    bound is reached the binding is refused with [LoopBoundExceeded] and no
    lookup changes. *)
Theorem assign_then_lookup f n bv self r self' :
  versions self f n <= u64_max -> assign_bv_to_name f n bv self = (r, self') ->
  (forall f' n', versions self' f' n' =
     versions self f' n' + (if decide ((f, n) = (f', n')) then 1 else 0)) /\
  match r with
  | Ok _ => versions self f n <= max_version_num self /\ lookup_var self' f n = Ok bv /\
            forall f' n', (f', n') <> (f, n) -> lookup_var self' f' n' = lookup_var self f' n'
  | Err e => e = LoopBoundExceeded (max_version_num self) /\
             max_version_num self < versions self f n /\
             forall f' n', lookup_var self' f' n' = lookup_var self f' n'
  | _ => False
  end.
Proof.
  intros Hv E. rewrite assign_eq in E by done.
  destruct (Z.leb_spec (versions self f n) (max_version_num self)); injection E as <- <-.
  - split; [intros; apply versions_bumped|]. split; [done|].
    unfold lookup_var, DoubleKeyedMap.get. cbn. split; [by rewrite lookup_insert_eq|].
    intros f' n' Hne. by rewrite lookup_insert_ne by congruence.
  - split; [intros; apply versions_bumped|]. done.
Qed.

(** Successive bindings, and which of them succeed. *)
Fixpoint assign_all (ops : list (string * Name * BV)) (self : VarMap) : list (outcome unit) :=
  match ops with
  | [] => []
  | (f, n, bv) :: ops => let '(r, self') := assign_bv_to_name f n bv self in r :: assign_all ops self'
  end.
(** How many of the operations bind [(f, n)]. *)
Definition count_name (k : string * Name) (ops : list (string * Name * BV)) : Z :=
  Z.of_nat (length (filter (fun op => fst op = k) ops)).

Lemma assign_all_spec ops self :
  (forall f n, versions self f n + Z.of_nat (length ops) <= u64_max) ->
  forall i f n bv r, ops !! i = Some (f, n, bv) -> assign_all ops self !! i = Some r ->
  r = if versions self f n + count_name (f, n) (take i ops) <=? max_version_num self
      then Ok tt else Err (LoopBoundExceeded (max_version_num self)).
Proof.
  revert self. induction ops as [|[[g k] b] ops IH]; intros self Hv i f n bv r Hop Hr; [done|].
  cbn [assign_all] in Hr. assert (versions self g k <= u64_max) as Hgk.
  { specialize (Hv g k). cbn in Hv. lia. }
  rewrite assign_eq in Hr by done.
  destruct i as [|i].
  - cbn in Hop. injection Hop as <- <- <-. unfold count_name. cbn [take filter list_filter length Z.of_nat].
    rewrite Z.add_0_r. destruct (versions self g k <=? max_version_num self); cbn in Hr; by injection Hr.
  - cbn in Hop.
    assert (forall self', (forall f' n', versions self' f' n' =
       versions self f' n' + (if decide ((g, k) = (f', n')) then 1 else 0)) ->
       max_version_num self' = max_version_num self -> assign_all ops self' !! i = Some r ->
       r = if versions self f n + count_name (f, n) (take (S i) ((g, k, b) :: ops)) <=? max_version_num self
           then Ok tt else Err (LoopBoundExceeded (max_version_num self))) as Hstep.
    { intros self' Hvs Hmax Hr'. rewrite (IH self') with (i := i) (f := f) (n := n) (bv := bv) (r := r);
        [|intros f' n'|done|done].
      - rewrite Hmax, Hvs. unfold count_name. cbn [take]. rewrite filter_cons.
        destruct (decide ((g, k) = (f, n))) as [E|E], (decide (fst (g, k, b) = (f, n))) as [E'|E'];
          try done; cbn [length];
          match goal with |- (if ?a <=? _ then _ else _) = (if ?b <=? _ then _ else _) =>
            replace a with b by lia; done end.
      - rewrite Hvs. specialize (Hv f' n'). cbn in Hv. case_decide; lia. }
    destruct (versions self g k <=? max_version_num self); cbn in Hr;
      (eapply Hstep; [| |exact Hr]; [intros; apply versions_bumped|done]).
Qed.

(** The loop bound: in a fresh map that allows [k] versions of a name, and
    whatever other bindings are made in between, the bindings of a name
    succeed exactly as long as fewer than [k] of them were attempted before,
    and the later ones fail with [LoopBoundExceeded(k - 1)]. *)
Theorem version_bound k self ops i f n bv r :
  varmap_new k = Ok self -> Z.of_nat (length ops) <= u64_max ->
  ops !! i = Some (f, n, bv) -> assign_all ops self !! i = Some r ->
  r = if count_name (f, n) (take i ops) <? k then Ok tt else Err (LoopBoundExceeded (k - 1)).
Proof.
  unfold varmap_new, u64_sub. destruct (Z.leb_spec 1 k); [|done]. cbn. intros [= <-] Hl Hop Hr.
  match type of Hr with context [assign_all _ ?vm] => set (self := vm) in * end.
  rewrite (assign_all_spec ops self) with (i := i) (f := f) (n := n) (bv := bv) (r := r);
    [|intros g k'; change (versions self g k') with 0; lia|done|exact Hr].
  cbn [max_version_num self]. change (versions self f n) with 0. destruct (Z.leb_spec (0 + count_name (f, n) (take i ops)) (k - 1)),
    (Z.ltb_spec (count_name (f, n) (take i ops)) k); try lia; done.
Qed.

(** Restoring after a call: whatever bindings the callee (or a deeper call)
    made, restoring succeeds, brings back every variable the caller had bound
    at the time of the call, and changes no variable of another function. *)
Lemma restore_fn_vars_restores self s self2 s2 f :
  rtc step (self, s) (self2, s2) ->
  exists self3, restore_fn_vars (get_restore_info_for_fn self f) self2 = (Ok tt, self3) /\
    (forall n bv, lookup_var self f n = Ok bv -> lookup_var self3 f n = Ok bv) /\
    (forall g n, g <> f -> lookup_var self3 g n = lookup_var self2 g n) /\
    version_num self3 = version_num self2.
Proof.
  intros Hs. set (pairs := pairs_to_restore (get_restore_info_for_fn self f)).
  eexists. split; [|split; [|split]].
  - apply (restore_fn_vars_eq f pairs). intros n bv Hin%restore_info_spec.
    by apply (steps_keep_keys _ _ (f, n) Hs).
  - intros n bv. unfold lookup_var, DoubleKeyedMap.get. cbn.
    rewrite foldl_insert_lookup by apply restore_info_nodup. rewrite decide_True by done.
    intros Hl. destruct (active_version self !! (f, n)) as [v|] eqn:E; [|done]. cbn in Hl. injection Hl as <-.
    rewrite (elem_of_list_to_map_1 pairs n v); [done|apply restore_info_nodup|].
    by apply restore_info_spec.
  - intros g n Hg. unfold lookup_var, DoubleKeyedMap.get. cbn.
    by rewrite foldl_insert_lookup, decide_False by (done || apply restore_info_nodup).
  - done.
Qed.

(** the versions of one name get distinct solver names. *)
Theorem versioned_names_distinct f n v v' :
  0 <= v -> 0 <= v' -> build_versioned_name f n v = build_versioned_name f n v' -> v = v'.
Proof.
  intros Hv Hv' E. unfold build_versioned_name in E. destruct n;
    repeat (apply (inj (String.app _)) in E); unfold usize_to_string in E;
    apply (inj pretty) in E; lia.
Qed.

(** across functions the names can collide: the function name and the
    variable name are only separated by an underscore. *)
Theorem versioned_names_collide :
  build_versioned_name "a" (NameStr "b_name_c") 0 = build_versioned_name "a_name_b" (NameStr "c") 0.
Proof. reflexivity. Qed.

End theorems.

(** ** Witnesses *)

Module VarMapWitnesses.
Import ToyBackend.

Definition vm0 : VarMap := {| active_version := ∅; version_num := ∅; max_version_num := 1 |}.
Definition x : string * Name := ("f"%string, NameStr "x").

Lemma assign_then_lookup_witness :
  let c := assign_bv_to_name "f" (NameStr "x") (from_u64 7 32) vm0 in
  fst c = Ok tt /\ lookup_var (snd c) "f" (NameStr "x") = Ok (from_u64 7 32).
Proof.
  cbn zeta. set (c := assign_bv_to_name "f" (NameStr "x") (from_u64 7 32) vm0).
  assert (fst c = Ok tt) as Hr by reflexivity.
  destruct (assign_then_lookup "f" (NameStr "x") (from_u64 7 32) vm0 (fst c) (snd c)) as [_ Hm].
  - unfold u64_max. change (versions vm0 "f" (NameStr "x")) with 0. lia.
  - apply surjective_pairing.
  - rewrite Hr in Hm. split; [exact Hr|apply Hm].
Defined.

(** Two versions are allowed: the third binding of [x] is refused. *)
Lemma version_bound_witness :
  let ops := [(x, from_u64 1 8); ("f"%string, NameStr "y", from_u64 2 8); (x, from_u64 3 8); (x, from_u64 4 8)] in
  assign_all ops vm0 !! 3%nat = Some (Err (LoopBoundExceeded 1)).
Proof.
  cbn zeta. set (ops := [_; _; _; _]).
  destruct (assign_all ops vm0 !! 3%nat) as [r|] eqn:E; [|vm_compute in E; discriminate E].
  rewrite (version_bound 2 vm0 ops 3 "f" (NameStr "x") (from_u64 4 8) r);
    [reflexivity|reflexivity|by vm_compute|reflexivity|exact E].
Defined.

Lemma restore_fn_vars_witness :
  let vm1 := snd (assign_bv_to_name "f" (NameStr "x") (from_u64 7 32) vm0) in
  let vm2 := snd (assign_bv_to_name "f" (NameStr "x") (from_u64 9 32) vm1) in
  exists vm3, restore_fn_vars (get_restore_info_for_fn vm1 "f") vm2 = (Ok tt, vm3) /\
    lookup_var vm3 "f" (NameStr "x") = Ok (from_u64 7 32).
Proof.
  cbn zeta. set (vm1 := snd (assign_bv_to_name _ _ _ vm0)).
  destruct (restore_fn_vars_restores vm1 solver_new
    (snd (assign_bv_to_name "f" (NameStr "x") (from_u64 9 32) vm1)) solver_new "f") as (vm3 & E & Hl & _).
  { eapply rtc_once, step_assign. by vm_compute. }
  exists vm3. split; [done|]. apply Hl. reflexivity.
Defined.

Lemma versioned_names_distinct_witness :
  build_versioned_name "f" (Number 3) 0 <> build_versioned_name "f" (Number 3) 12.
Proof.
  intros E. apply (versioned_names_distinct "f" (Number 3) 0 12) in E; lia.
Defined.

End VarMapWitnesses.
