(* ===== verification/Watchpoints.v ===== *)
(** * Watchpoints: watched segments of memory (src/src/watchpoints.rs)

    A named, possibly disabled, interval of addresses.  A memory operation
    triggers a watchpoint when some model makes it touch the interval; the
    theorems say that the three-way test of the code decides exactly that, for
    operations on whole bytes that do not wrap around the end of the address
    space. *)
From S2P Require Import Prelude Bits Backend SolverUtils ToySolver.

Open Scope Z_scope.

Record Watchpoint := { low : Z; high : Z }.

Definition watchpoint_new (addr bytes : Z) : outcome Watchpoint :=
  if bytes =? 0 then Panic "Watchpoint::new: `bytes` cannot be 0"
  else
    x ← u64_add addr bytes;
    h ← u64_sub x 1;
    mret {| low := addr; high := h |}.

Abbreviation Watchpoints := (gmap string (Watchpoint * bool)).

Definition from_iter (iter : list (string * Watchpoint)) : Watchpoints :=
  foldl (fun self '(name, w) => <[name := (w, true)]> self) ∅ iter.
Definition watchpoints_new : Watchpoints := ∅.

Section operations.
Implicit Types self : Watchpoints.

Definition add self (name : string) (watchpoint : Watchpoint) : bool * Watchpoints :=
  (bool_decide (is_Some (self !! name)), <[name := (watchpoint, true)]> self).
Definition remove self (name : string) : bool * Watchpoints :=
  (bool_decide (is_Some (self !! name)), delete name self).
Definition disable self (name : string) : bool * Watchpoints :=
  match self !! name with
  | Some (w, _) => (true, <[name := (w, false)]> self)
  | None => (false, self)
  end.
Definition enable self (name : string) : bool * Watchpoints :=
  match self !! name with
  | Some (w, _) => (true, <[name := (w, true)]> self)
  | None => (false, self)
  end.

Context `{Ops : BackendOps}.

Definition is_watchpoint_triggered (watchpoint : Watchpoint) (interval_lower interval_upper : BV)
    : M SolverRef bool :=
  let width := get_width interval_lower in
  _ ← lift (assert_ "assert_eq!(width, interval_upper.get_width())"
              (width =? get_width interval_upper));
  let watchpoint_lower := from_u64 (low watchpoint) width in
  let watchpoint_upper := from_u64 (high watchpoint) width in
  let interval_lower_contained :=
    bv_and (ugte interval_lower watchpoint_lower) (ulte interval_lower watchpoint_upper) in
  let interval_upper_contained :=
    bv_and (ugte interval_upper watchpoint_lower) (ulte interval_upper watchpoint_upper) in
  let contains_entire_watchpoint :=
    bv_and (ulte interval_lower watchpoint_lower) (ugte interval_upper watchpoint_upper) in
  sat_with_extra_constraints
    [bv_or (bv_or interval_lower_contained interval_upper_contained) contains_entire_watchpoint].

Definition get_triggered_watchpoints self (addr : BV) (bits : Z)
    : M SolverRef (list (string * Watchpoint)) :=
  let addr_width := get_width addr in
  let op_lower := addr in
  let bytes := if bits <? 8 then 1 else bits / 8 in
  let op_upper := bv_add addr (from_u32 (bytes - 1) addr_width) in
  results ← mapMM (fun '(name, (watchpoint, enabled)) =>
              if (enabled : bool) then
                r ← is_watchpoint_triggered watchpoint op_lower op_upper;
                if (r : bool) then mret (Some (name, watchpoint)) else mret None
              else mret None) (map_to_list self);
  mret (omap id results).

End operations.

Section theorems.
Context `{Laws : BackendLaws}.
Implicit Types (self : Watchpoints) (w : Watchpoint).

(** A watchpoint as [Watchpoint::new] makes them. *)
Definition wf_watchpoint w : Prop := 0 <= low w <= high w /\ high w <= u64_max.

Lemma watchpoint_new_wf addr bytes w :
  0 <= addr -> 0 <= bytes -> watchpoint_new addr bytes = Ok w ->
  wf_watchpoint w /\ forall a, low w <= a <= high w <-> addr <= a < addr + bytes.
Proof.
  intros Ha Hb. unfold watchpoint_new, u64_add, u64_sub.
  destruct (Z.eqb_spec bytes 0); [done|]. destruct (Z.leb_spec (addr + bytes) u64_max); [|done]. cbn.
  destruct (Z.leb_spec 1 (addr + bytes)); [|done]. cbn. intros [= <-]. unfold wf_watchpoint. cbn.
  split; [lia|]. intros a. lia.
Qed.

(** The byte ranges [lo..hi] and the watched one have an address in common. *)
Definition touches w (lo hi : Z) : Prop := exists a, lo <= a <= hi /\ low w <= a <= high w.

Lemma touches_dec w lo hi : low w <= high w -> lo <= hi ->
  touches w lo hi <->
  (low w <= lo <= high w) \/ (low w <= hi <= high w) \/ (lo <= low w /\ high w <= hi).
Proof.
  intros Hw Hl. split.
  - intros (a & ? & ?). lia.
  - intros [?|[?|?]]; [exists lo|exists hi|exists (low w)]; lia.
Qed.

Lemma and_bit m a b : get_width a = 1 -> get_width b = 1 ->
  (eval m (bv_and a b) = 1 <-> eval m a = 1 /\ eval m b = 1).
Proof.
  intros Wa Wb.
  rewrite (bin_eval bv_and _ _ _ m bv_and_law) by congruence.
  destruct (bit_cases m a Wa) as [-> | ->], (bit_cases m b Wb) as [-> | ->]; cbn; intuition congruence.
Qed.

Lemma or_bit m a b : get_width a = 1 -> get_width b = 1 ->
  (eval m (bv_or a b) = 1 <-> eval m a = 1 \/ eval m b = 1).
Proof.
  intros Wa Wb.
  rewrite (bin_eval bv_or _ _ _ m bv_or_law) by congruence.
  destruct (bit_cases m a Wa) as [-> | ->], (bit_cases m b Wb) as [-> | ->]; cbn; intuition congruence.
Qed.

Lemma ugte_bit m a b : get_width a = get_width b ->
  (eval m (ugte a b) = 1 <-> eval m b <= eval m a).
Proof.
  intros W.
  rewrite (pred_eval ugte _ _ _ m ugte_law), b2z_1, Z.leb_le by done. done.
Qed.

Lemma ulte_bit m a b : get_width a = get_width b ->
  (eval m (ulte a b) = 1 <-> eval m a <= eval m b).
Proof.
  intros W.
  rewrite (pred_eval ulte _ _ _ m ulte_law), b2z_1, Z.leb_le by done. done.
Qed.

Lemma triggered_spec w lo hi s :
  solver_ok s -> wf_watchpoint w -> get_width lo = 64 -> get_width hi = 64 ->
  wp (is_watchpoint_triggered w lo hi) s (returns (fun r s' => same_solver s s' /\
    (r = true <-> feasible s (fun m =>
       (low w <= eval m lo <= high w) \/ (low w <= eval m hi <= high w) \/
       (eval m lo <= low w /\ high w <= eval m hi))))).
Proof.
  intros O [Hw1 Hw2] Wl Wh. unfold is_watchpoint_triggered, u64_max in *. rewrite Wl, Wh. wp_step.
  destruct (from_u64_law (low w) 64 ltac:(lia) ltac:(lia) ltac:(lia)) as [Wlo Elo].
  destruct (from_u64_law (high w) 64 ltac:(lia) ltac:(lia) ltac:(lia)) as [Whi Ehi].
  set (wl := from_u64 (low w) 64) in *. set (wh := from_u64 (high w) 64) in *.
  match goal with |- context [sat_with_extra_constraints [?x]] => set (c := x) end.
  assert (get_width c = 1) as Wc by (unfold c; bv_widths; lia).
  assert (forall m, eval m c = 1 <-> (low w <= eval m lo <= high w) \/
    (low w <= eval m hi <= high w) \/ (eval m lo <= low w /\ high w <= eval m hi)) as Ec.
  { intros m. unfold c.
    rewrite !or_bit, !and_bit, !ugte_bit, !ulte_bit by (bv_widths; lia).
    rewrite Elo, Ehi. lia. }
  eapply returns_mono; [apply wp_sat_with_extra_constraints; [by repeat constructor|done]|].
  intros r s' [Hs Hr]. split; [done|]. rewrite Hr. unfold feasible. setoid_rewrite Forall_singleton.
  by setoid_rewrite Ec.
Qed.

(** the three tests of [is_watchpoint_triggered] decide whether some model
    of the constraints makes the operation's byte range meet the watched one,
    when the range does not wrap around; the constraints are not changed. *)
Theorem watchpoint_triggered_correct w lo hi s :
  solver_ok s -> wf_watchpoint w -> get_width lo = 64 -> get_width hi = 64 ->
  (forall m, models s m -> eval m lo <= eval m hi) ->
  wp (is_watchpoint_triggered w lo hi) s (returns (fun r s' => same_solver s s' /\
    (r = true <-> feasible s (fun m => touches w (eval m lo) (eval m hi))))).
Proof.
  intros O Hw Wl Wh Hord. eapply returns_mono; [by apply triggered_spec|]. intros r s' [Hs Hr].
  split; [done|]. rewrite Hr. destruct Hw as [Hw _].
  split; intros (m & Hm & H1); exists m; (split; [done|]);
    (apply touches_dec; [lia|by apply Hord|done]) || (by apply touches_dec in H1; [|lia|apply Hord]).
Qed.

(** The collection of the triggered watchpoints. *)
Lemma mapMM_triggered (T : Watchpoint -> Prop) lo hi s0
    (l : list (string * (Watchpoint * bool))) s :
  solver_ok s0 -> same_solver s0 s ->
  (forall name w e, (name, (w, e)) ∈ l -> wf_watchpoint w) ->
  (forall w s, same_solver s0 s -> wf_watchpoint w -> wp (is_watchpoint_triggered w lo hi) s
     (returns (fun r s' => same_solver s0 s' /\ (r = true <-> T w)))) ->
  wp (mapMM (fun '(name, (watchpoint, enabled)) =>
        if (enabled : bool) then
          r ← is_watchpoint_triggered watchpoint lo hi;
          if (r : bool) then mret (Some (name, watchpoint)) else mret None
        else mret None) l) s
    (returns (fun res s' => same_solver s0 s' /\
       forall name w, (name, w) ∈ omap id res <-> (name, (w, true)) ∈ l /\ T w)).
Proof.
  intros O Hs Hwf HT. revert s Hs. induction l as [|[name [w e]] l IH]; intros s Hs; cbn [mapMM].
  - apply wp_ret. split; [done|]. intros name w. cbn. split; [by intros ?%not_elem_of_nil|].
    by intros [?%not_elem_of_nil _].
  - eapply returns_bind with (P := fun o s1 => same_solver s0 s1 /\
      forall n v, o = Some (n, v) <-> n = name /\ v = w /\ e = true /\ T w).
    { destruct e.
      - eapply returns_bind; [apply HT; [done|]; eapply Hwf; left|]. intros r s1 [Hs1 Hr].
        destruct r; apply wp_ret; (split; [done|]); intros n v.
        + split; [intros [= <- <-]; intuition|by intros (-> & -> & _)].
        + split; [done|]. intros (_ & _ & _ & Ht). by apply Hr in Ht.
      - apply wp_ret. split; [done|]. intros n v. split; [done|]. by intros (_ & _ & ? & _). }
    intros o s1 [Hs1 Ho]. eapply returns_bind; [apply IH; [|done]; intros; eapply Hwf; by right|].
    intros res s2 [Hs2 Hres]. apply wp_ret. split; [done|]. intros n v.
    assert (((n, (v, true)) ∈ (name, (w, e)) :: l) /\ T v <->
            ((n, (v, true)) = (name, (w, e)) /\ T v) \/ (n, v) ∈ omap id res) as ->.
    { rewrite elem_of_cons, Hres. tauto. }
    cbn. destruct o as [[n0 v0]|]; cbn.
    + rewrite elem_of_cons. destruct (proj1 (Ho n0 v0) eq_refl) as (-> & -> & -> & Ht).
      split; (intros [E|E]; [left|by right]); [by simplify_eq|]. destruct E as [E _]. by simplify_eq.
    + split; [by right|]. intros [[E Ht]|E]; [|done]. simplify_eq.
      by discriminate (proj2 (Ho _ _) (conj eq_refl (conj eq_refl (conj eq_refl Ht)))).
Qed.

(** The three-way test on the interval the code computes. *)
Definition may_trigger s addr bits w : Prop :=
  let hi := bv_add addr (from_u32 ((if bits <? 8 then 1 else bits / 8) - 1) (get_width addr)) in
  feasible s (fun m => (low w <= eval m addr <= high w) \/ (low w <= eval m hi <= high w) \/
                       (eval m addr <= low w /\ high w <= eval m hi)).

(** Looking for triggered watchpoints is a query: it leaves the solver as it
    was, and whatever it returns is an enabled watchpoint. *)
Lemma wp_get_triggered self addr bits s :
  solver_ok s -> (forall name w e, self !! name = Some (w, e) -> wf_watchpoint w) ->
  get_width addr = 64 -> 0 < bits < 2 ^ 32 ->
  wp (get_triggered_watchpoints self addr bits) s (returns (fun l s' => same_solver s s' /\
    forall name w, (name, w) ∈ l <-> self !! name = Some (w, true) /\ may_trigger s addr bits w)).
Proof.
  intros O Hwf W Hb. unfold get_triggered_watchpoints.
  assert (0 <= (if bits <? 8 then 1 else bits / 8) - 1 < 2 ^ 32) as Hop.
  { destruct (Z.ltb_spec bits 8); [lia|]. pose proof (Z.div_mod bits 8 ltac:(lia)).
    pose proof (Z.mod_pos_bound bits 8 ltac:(lia)). lia. }
  destruct (from_u32_law _ 64 ltac:(lia) Hop ltac:(lia)) as [Wc _].
  eapply returns_bind.
  { apply (mapMM_triggered (may_trigger s addr bits) _ _ s); [done|done| |].
    - intros name w e Hin%elem_of_map_to_list. by eapply Hwf.
    - intros w s1 Hs1 Hw. eapply returns_mono; [apply triggered_spec; [by rewrite <- Hs1|done|done|]|].
      { rewrite W, (bin_width bv_add _ _ _ bv_add_law); congruence. }
      intros r s2 [Hs2 Hr]. split; [by rewrite Hs1|]. rewrite Hr. unfold may_trigger, feasible.
      by setoid_rewrite Hs1. }
  intros res s' [Hs Hres]. apply wp_ret. split; [done|]. intros name w. by rewrite Hres, elem_of_map_to_list.
Qed.

(** The number of bytes that an operation of [bits] bits touches, the last of
    them perhaps in part only. *)
Definition op_bytes (bits : Z) : Z := (bits + 7) / 8.

(** The code counts the whole bytes, and one byte for less than that. *)
Lemma counted_bytes bits : 0 < bits -> bits mod 8 = 0 \/ bits < 8 ->
  (if bits <? 8 then 1 else bits / 8) = op_bytes bits.
Proof.
  intros Hb Hm. unfold op_bytes. destruct (Z.ltb_spec bits 8) as [Hlt|Hge].
  - apply (Z.div_unique _ _ 1 (bits - 1)); lia.
  - destruct Hm as [Hm|]; [|lia]. apply (Z.div_unique _ _ (bits / 8) 7); [lia|]. pose proof (Z.div_mod bits 8). lia.
Qed.

(** C39: [get_triggered_watchpoints] returns exactly the enabled watchpoints
    that some model of the constraints makes the operation touch, for
    operations on whole bytes or on less than one, that cannot wrap around the
    end of the address space.  (The others can be missed:
    [partial_byte_missed] and [watchpoint_wraparound_missed] below.) *)
Theorem get_triggered_watchpoints_correct self addr bits s :
  solver_ok s -> (forall name w e, self !! name = Some (w, e) -> wf_watchpoint w) ->
  get_width addr = 64 -> 0 < bits < 2 ^ 32 -> bits mod 8 = 0 \/ bits < 8 ->
  (forall m, models s m -> eval m addr + op_bytes bits - 1 < 2 ^ 64) ->
  wp (get_triggered_watchpoints self addr bits) s (returns (fun l s' => same_solver s s' /\
    forall name w, (name, w) ∈ l <->
      self !! name = Some (w, true) /\
      feasible s (fun m => touches w (eval m addr) (eval m addr + op_bytes bits - 1)))).
Proof.
  intros O Hwf W Hb Hm8 Hnw. eapply returns_mono; [by apply wp_get_triggered|]. intros l s' [Hs Hl]. split; [done|].
  assert (1 <= op_bytes bits < 2 ^ 32) as Hop.
  { unfold op_bytes. split; [apply Z.div_le_lower_bound; lia|apply Z.div_lt_upper_bound; lia]. }
  intros name w. rewrite Hl. assert (forall P P' Q : Prop, (Q -> P <-> P') -> Q /\ P <-> Q /\ P') as Hand by tauto. apply Hand. intros Hw%Hwf. unfold may_trigger. rewrite counted_bytes, W by lia.
  destruct (from_u32_law (op_bytes bits - 1) 64 ltac:(lia) ltac:(lia) ltac:(lia)) as [Wc Ec].
  assert (forall m, models s m -> eval m (bv_add addr (from_u32 (op_bytes bits - 1) 64)) = eval m addr + op_bytes bits - 1) as Eh.
  { intros m Hm. rewrite (bin_eval bv_add _ _ _ m bv_add_law), W, Ec by congruence.
    specialize (Hnw m Hm). pose proof (eval_range m addr). rewrite Z.mod_small; lia. }
  destruct Hw as [Hw _]. split; intros (m & Hm & H1); exists m; (split; [done|]); rewrite (Eh m Hm) in *;
    [apply touches_dec; [lia|lia|done]|by apply touches_dec in H1; [|lia|lia]].
Qed.

(** An operation that wraps around the end of the address space can miss a
    watchpoint: a three-byte access at the last address touches address 0, and
    a watchpoint on address 0 is not triggered. *)
Theorem watchpoint_wraparound_missed s :
  solver_ok s ->
  let lo := from_u64 (2 ^ 64 - 1) 64 in
  let hi := bv_add lo (from_u32 (op_bytes 24 - 1) 64) in
  wp (is_watchpoint_triggered {| low := 0; high := 0 |} lo hi) s (returns (fun r _ => r = false)) /\
  forall m, (eval m lo + 1) mod 2 ^ 64 = 0.
Proof.
  intros O lo hi. destruct (from_u64_law (2 ^ 64 - 1) 64 ltac:(lia) ltac:(lia) ltac:(lia)) as [Wl El].
  destruct (from_u32_law (op_bytes 24 - 1) 64 ltac:(lia) ltac:(done) ltac:(done)) as [Wc Ec].
  fold lo in Wl, El. assert (get_width hi = 64) as Wh by (unfold hi; rewrite (bin_width bv_add _ _ _ bv_add_law); congruence).
  assert (forall m, eval m hi = 1) as Eh.
  { intros m. unfold hi. rewrite (bin_eval bv_add _ _ _ m bv_add_law), Wl, El, Ec by congruence. done. }
  split; [|intros m; by rewrite El].
  eapply returns_mono; [apply triggered_spec; [done|done|done|done]|].
  intros [|] s' [_ Hr]; [|done]. destruct (proj1 Hr eq_refl) as (m & _ & Hm). rewrite El, Eh in Hm.
  cbn [low high] in Hm. lia.
Qed.

End theorems.

(** ** Witnesses *)

Module WatchpointWitnesses.
Import ToyBackend Toy.

Definition s1 : SolverRef := snd (bv_new 64 None solver_new).
Definition addr : BV := bv_add (fst (bv_new 64 None solver_new)) (from_u64 4096 64).
Definition w : Watchpoint := {| low := 4100; high := 4103 |}.
Definition ws : Watchpoints := <["a"%string := (w, true)]> (<["b"%string := (w, false)]> ∅).

Lemma addr_small m : 0 <= eval m addr < 5000.
Proof. destruct m as [[[[] []] []] []]; vm_compute; split; congruence. Qed.

Example triggered_runs : fst (get_triggered_watchpoints ws addr 32 s1) = Ok [("a"%string, w)].
Proof. vm_compute. reflexivity. Qed.

Lemma watchpoint_triggered_witness :
  wp (is_watchpoint_triggered w addr (bv_add addr (from_u32 3 64))) s1 (returns (fun r s' =>
    same_solver s1 s' /\ (r = true <-> feasible s1 (fun m =>
      touches w (eval m addr) (eval m (bv_add addr (from_u32 3 64))))))).
Proof.
  apply (watchpoint_triggered_correct w addr _ s1); [done|by vm_compute|reflexivity|reflexivity|].
  intros [[[[] []] []] []] _; by vm_compute.
Defined.

Lemma get_triggered_watchpoints_witness :
  wp (get_triggered_watchpoints ws addr 32) s1 (returns (fun l s' => same_solver s1 s' /\
    forall name v, (name, v) ∈ l <-> ws !! name = Some (v, true) /\
      feasible s1 (fun m => touches v (eval m addr) (eval m addr + op_bytes 32 - 1)))).
Proof.
  apply (get_triggered_watchpoints_correct ws addr 32 s1); [done| |reflexivity|lia|by left|].
  - unfold ws. intros name v e Hl. apply lookup_insert_Some in Hl as [[_ [= <- _]]|[_ Hl]]; [by vm_compute|].
    apply lookup_insert_Some in Hl as [[_ [= <- _]]|[_ Hl]]; [by vm_compute|]. by rewrite lookup_empty in Hl.
  - intros m _. pose proof (addr_small m). change (op_bytes 32) with 4. lia.
Defined.

(** An operation of 12 bits at 4096 touches the byte at 4097, but only the first
    byte is looked at. *)
Theorem partial_byte_missed :
  fst (get_triggered_watchpoints {["w"%string := ({| low := 4097; high := 4097 |}, true)]} (from_u64 4096 64) 12 s1) = Ok [] /\
  touches {| low := 4097; high := 4097 |} 4096 (4096 + op_bytes 12 - 1).
Proof. split; [vm_compute; reflexivity|]. exists 4097. cbn. split; [split; [lia|by vm_compute]|lia]. Qed.

Lemma watchpoint_wraparound_witness :
  wp (is_watchpoint_triggered {| low := 0; high := 0 |} (from_u64 (2 ^ 64 - 1) 64)
        (bv_add (from_u64 (2 ^ 64 - 1) 64) (from_u32 2 64))) s1 (returns (fun r _ => r = false)).
Proof. apply (watchpoint_wraparound_missed s1). done. Defined.

End WatchpointWitnesses.
