(* ===== verification/FunctionHooks.v ===== *)
(** * FunctionHooks: which functions are hooked (src/src/function_hooks.rs)

    A hook is a Rust closure; the hooks the repository defines are named by
    the constructors of [HookFn], and a user's closure by a number whose
    behaviour is a parameter of the engine.  The bodies of the repository's
    hooks are in Hooks.v. *)
From S2P Require Import Prelude Bits LLVMIR ToyLLVM Project.

Open Scope Z_scope.

Inductive HookFn :=
| H_malloc | H_calloc | H_realloc | H_free
| H_cxa_allocate_exception | H_cxa_throw | H_cxa_begin_catch | H_cxa_end_catch | H_llvm_eh_typeid_for
| H_abort | H_generic_stub
| H_memset | H_memcpy | H_bswap | H_objectsize | H_assume
| H_uadd_with_overflow | H_sadd_with_overflow | H_usub_with_overflow
| H_ssub_with_overflow | H_umul_with_overflow | H_smul_with_overflow
| H_uadd_sat | H_sadd_sat | H_usub_sat | H_ssub_sat
| H_user (k : Z).

(** Equality and hashing of hooks look only at the [id]. *)
Record FunctionHook := { hook : HookFn; hook_id : Z }.
Definition hook_eqb (a b : FunctionHook) : bool := hook_id a =? hook_id b.

Record FunctionHooks := {
  hooks : gmap string FunctionHook;
  cpp_demangled_hooks : gmap string FunctionHook;
  rust_demangled_hooks : gmap string FunctionHook;
  inline_asm_hook : option FunctionHook;
  default_hook : option FunctionHook;
  cur_id : Z
}.

Section operations.
Implicit Types self : FunctionHooks.

Definition hooks_new : FunctionHooks :=
  {| hooks := ∅; cpp_demangled_hooks := ∅; rust_demangled_hooks := ∅;
     inline_asm_hook := None; default_hook := None; cur_id := 0 |}.

Definition add_hook self (hooked_function : string) (h : HookFn) : outcome FunctionHooks :=
  id ← u64_add (cur_id self) 1;
  mret {| hooks := <[hooked_function := {| hook := h; hook_id := cur_id self |}]> (hooks self);
          cpp_demangled_hooks := cpp_demangled_hooks self;
          rust_demangled_hooks := rust_demangled_hooks self;
          inline_asm_hook := inline_asm_hook self; default_hook := default_hook self; cur_id := id |}.

Definition add_cpp_demangled self (hooked_function : string) (h : HookFn) : outcome FunctionHooks :=
  id ← u64_add (cur_id self) 1;
  mret {| hooks := hooks self;
          cpp_demangled_hooks := <[hooked_function := {| hook := h; hook_id := cur_id self |}]> (cpp_demangled_hooks self);
          rust_demangled_hooks := rust_demangled_hooks self;
          inline_asm_hook := inline_asm_hook self; default_hook := default_hook self; cur_id := id |}.

Definition add_rust_demangled self (hooked_function : string) (h : HookFn) : outcome FunctionHooks :=
  id ← u64_add (cur_id self) 1;
  mret {| hooks := hooks self; cpp_demangled_hooks := cpp_demangled_hooks self;
          rust_demangled_hooks := <[hooked_function := {| hook := h; hook_id := cur_id self |}]> (rust_demangled_hooks self);
          inline_asm_hook := inline_asm_hook self; default_hook := default_hook self; cur_id := id |}.

Definition add_inline_asm_hook self (h : HookFn) : outcome (bool * FunctionHooks) :=
  let present := match inline_asm_hook self with Some _ => true | None => false end in
  id ← u64_add (cur_id self) 1;
  mret (present,
        {| hooks := hooks self; cpp_demangled_hooks := cpp_demangled_hooks self;
           rust_demangled_hooks := rust_demangled_hooks self;
           inline_asm_hook := Some {| hook := h; hook_id := cur_id self |};
           default_hook := default_hook self; cur_id := id |}).

Definition add_default_hook self (h : HookFn) : outcome (bool * FunctionHooks) :=
  let present := match default_hook self with Some _ => true | None => false end in
  id ← u64_add (cur_id self) 1;
  mret (present,
        {| hooks := hooks self; cpp_demangled_hooks := cpp_demangled_hooks self;
           rust_demangled_hooks := rust_demangled_hooks self;
           inline_asm_hook := inline_asm_hook self;
           default_hook := Some {| hook := h; hook_id := cur_id self |}; cur_id := id |}).

Definition remove_hook self (hooked_function : string) : FunctionHooks :=
  {| hooks := delete hooked_function (hooks self); cpp_demangled_hooks := cpp_demangled_hooks self;
     rust_demangled_hooks := rust_demangled_hooks self; inline_asm_hook := inline_asm_hook self;
     default_hook := default_hook self; cur_id := cur_id self |}.
Definition remove_cpp_demangled self (hooked_function : string) : FunctionHooks :=
  {| hooks := hooks self; cpp_demangled_hooks := delete hooked_function (cpp_demangled_hooks self);
     rust_demangled_hooks := rust_demangled_hooks self; inline_asm_hook := inline_asm_hook self;
     default_hook := default_hook self; cur_id := cur_id self |}.
Definition remove_rust_demangled self (hooked_function : string) : FunctionHooks :=
  {| hooks := hooks self; cpp_demangled_hooks := cpp_demangled_hooks self;
     rust_demangled_hooks := delete hooked_function (rust_demangled_hooks self);
     inline_asm_hook := inline_asm_hook self; default_hook := default_hook self; cur_id := cur_id self |}.
Definition remove_inline_asm_hook self : FunctionHooks :=
  {| hooks := hooks self; cpp_demangled_hooks := cpp_demangled_hooks self;
     rust_demangled_hooks := rust_demangled_hooks self; inline_asm_hook := None;
     default_hook := default_hook self; cur_id := cur_id self |}.
Definition remove_default_hook self : FunctionHooks :=
  {| hooks := hooks self; cpp_demangled_hooks := cpp_demangled_hooks self;
     rust_demangled_hooks := rust_demangled_hooks self; inline_asm_hook := inline_asm_hook self;
     default_hook := None; cur_id := cur_id self |}.

Definition get_all_hooks self : list (string * FunctionHook) :=
  map_to_list (hooks self) ++ map_to_list (cpp_demangled_hooks self) ++
  map_to_list (rust_demangled_hooks self).

Context `{L : LLVM}.

Definition get_hook_for self (funcname : string) : option FunctionHook :=
  match hooks self !! funcname with
  | Some h => Some h
  | None =>
      match try_rust_demangle funcname ≫= fun demangled => rust_demangled_hooks self !! demangled with
      | Some h => Some h
      | None => try_cpp_demangle funcname ≫= fun demangled => cpp_demangled_hooks self !! demangled
      end
  end.
Definition get_inline_asm_hook self : option FunctionHook := inline_asm_hook self.
Definition get_default_hook self : option FunctionHook := default_hook self.
Definition is_hooked self (funcname : string) : bool := bool_decide (is_Some (get_hook_for self funcname)).
Definition has_inline_asm_hook self : bool := bool_decide (is_Some (inline_asm_hook self)).
Definition has_default_hook self : bool := bool_decide (is_Some (default_hook self)).

(** A sequence of [add]s. *)
Definition add_hooks self (adds : list (string * HookFn)) : outcome FunctionHooks :=
  foldO (fun self '(name, h) => add_hook self name h) self adds.

(** [FunctionHooks::default()] *)
Definition hooks_default : outcome FunctionHooks :=
  fhooks ← add_hooks hooks_new
    [("malloc", H_malloc); ("calloc", H_calloc); ("realloc", H_realloc); ("free", H_free);
     ("__cxa_allocate_exception", H_cxa_allocate_exception); ("__cxa_throw", H_cxa_throw);
     ("__cxa_begin_catch", H_cxa_begin_catch); ("__cxa_end_catch", H_cxa_end_catch);
     ("llvm.eh.typeid.for", H_llvm_eh_typeid_for); ("exit", H_abort)]%string;
  foldO (fun self '(name, h) => add_rust_demangled self name h) fhooks
    [("std::panicking::begin_panic", H_abort); ("core::panicking::panic", H_abort);
     ("core::panicking::panic_bounds_check", H_abort); ("core::result::unwrap_failed", H_abort);
     ("core::slice::slice_index_len_fail", H_abort); ("core::slice::slice_index_order_fail", H_abort);
     ("core::slice::slice_index_overflow_fail", H_abort)]%string.

(** The built-in hooks that [State::new] installs. *)
Definition intrinsic_hooks_new : outcome FunctionHooks :=
  add_hooks hooks_new
    [("intrinsic: llvm.memset", H_memset);
     ("intrinsic: llvm.memcpy/memmove", H_memcpy);
     ("intrinsic: llvm.bswap", H_bswap);
     ("intrinsic: llvm.objectsize", H_objectsize);
     ("intrinsic: llvm.assume", H_assume);
     ("intrinsic: llvm.uadd.with.overflow", H_uadd_with_overflow);
     ("intrinsic: llvm.sadd.with.overflow", H_sadd_with_overflow);
     ("intrinsic: llvm.usub.with.overflow", H_usub_with_overflow);
     ("intrinsic: llvm.ssub.with.overflow", H_ssub_with_overflow);
     ("intrinsic: llvm.umul.with.overflow", H_umul_with_overflow);
     ("intrinsic: llvm.smul.with.overflow", H_smul_with_overflow);
     ("intrinsic: llvm.uadd.sat", H_uadd_sat);
     ("intrinsic: llvm.sadd.sat", H_sadd_sat);
     ("intrinsic: llvm.usub.sat", H_usub_sat);
     ("intrinsic: llvm.ssub.sat", H_ssub_sat);
     ("intrinsic: generic_stub_hook", H_generic_stub);
     ("intrinsic: abort_hook", H_abort)]%string.

End operations.

