(* ===== verification/GlobalAllocations.v ===== *)
(** * GlobalAllocations: names of globals to addresses (src/src/global_allocations.rs)

    Module-private definitions shadow public ones; a public name has at most
    one strong definition, which replaces a weak one.  The theorem says which
    definition a name resolves to after any sequence of definitions has been
    allocated. *)
From S2P Require Import Prelude Bits Backend ToySolver LLVMIR ToyLLVM FunctionHooks.

Open Scope Z_scope.

Inductive Definition_ (V : Type) := Strong (v : V) | Weak (v : V).
Arguments Strong {V} v.
Arguments Weak {V} v.
Definition def_get {V} (self : Definition_ V) : V :=
  match self with Strong v => v | Weak v => v end.
Definition def_map {V W} (f : V -> W) (self : Definition_ V) : Definition_ W :=
  match self with Strong v => Strong (f v) | Weak v => Weak (f v) end.

Inductive Callable := LLVMFunction (f : Function_) | CallableHook (h : FunctionHook).
(** [PartialEq for Callable] *)
Definition callable_eqb (a b : Callable) : bool :=
  match a, b with
  | LLVMFunction f1, LLVMFunction f2 => bool_decide (func_name f1 = func_name f2)
  | CallableHook f1, CallableHook f2 => hook_eqb f1 f2
  | _, _ => false
  end.

Inductive AllocationResult := Public | ModulePrivate | NoAllocate.

Section operations.
Context `{Ops : BackendOps}.

Inductive GlobalAllocation :=
| GAVariable (addr : BV) (initializer : Constant) (initialized : bool)
| GAFunction (func : Function_) (module : Module_) (addr : BV).

Definition get_addr (self : GlobalAllocation) : BV :=
  match self with GAVariable addr _ _ => addr | GAFunction _ _ addr => addr end.
Definition set_addr (new_addr : BV) (self : GlobalAllocation) : GlobalAllocation :=
  match self with
  | GAVariable _ initializer initialized => GAVariable new_addr initializer initialized
  | GAFunction func module _ => GAFunction func module new_addr
  end.
(** [initialized.set(true)] *)
Definition set_initialized (self : GlobalAllocation) : GlobalAllocation :=
  match self with
  | GAVariable addr initializer _ => GAVariable addr initializer true
  | GAFunction _ _ _ => self
  end.

(** [allocated_hooks] is keyed by the id of the hook. *)
Record GlobalAllocations := {
  allocated_globals : gmap Name (Definition_ GlobalAllocation);
  allocated_hooks : gmap Z BV;
  addr_to_function : gmap Z Callable;
  module_private_allocated_globals : gmap string (gmap Name GlobalAllocation);
  module_private_addr_to_function : gmap string (gmap Z Callable)
}.
Implicit Types self : GlobalAllocations.

Definition ga_new : GlobalAllocations :=
  {| allocated_globals := ∅; allocated_hooks := ∅; addr_to_function := ∅;
     module_private_allocated_globals := ∅; module_private_addr_to_function := ∅ |}.

Definition set_allocated_globals x self : GlobalAllocations :=
  {| allocated_globals := x; allocated_hooks := allocated_hooks self;
     addr_to_function := addr_to_function self;
     module_private_allocated_globals := module_private_allocated_globals self;
     module_private_addr_to_function := module_private_addr_to_function self |}.
Definition set_allocated_hooks x self : GlobalAllocations :=
  {| allocated_globals := allocated_globals self; allocated_hooks := x;
     addr_to_function := addr_to_function self;
     module_private_allocated_globals := module_private_allocated_globals self;
     module_private_addr_to_function := module_private_addr_to_function self |}.
Definition set_addr_to_function x self : GlobalAllocations :=
  {| allocated_globals := allocated_globals self; allocated_hooks := allocated_hooks self;
     addr_to_function := x;
     module_private_allocated_globals := module_private_allocated_globals self;
     module_private_addr_to_function := module_private_addr_to_function self |}.
Definition set_private_globals x self : GlobalAllocations :=
  {| allocated_globals := allocated_globals self; allocated_hooks := allocated_hooks self;
     addr_to_function := addr_to_function self;
     module_private_allocated_globals := x;
     module_private_addr_to_function := module_private_addr_to_function self |}.
Definition set_private_addr_to_function x self : GlobalAllocations :=
  {| allocated_globals := allocated_globals self; allocated_hooks := allocated_hooks self;
     addr_to_function := addr_to_function self;
     module_private_allocated_globals := module_private_allocated_globals self;
     module_private_addr_to_function := x |}.

(** [trait Global]: the linkage and the name of the global. *)
Definition allocate_global self (linkage : Linkage) (name : Name) (module : Module_)
    (allocation : GlobalAllocation) : outcome (AllocationResult * GlobalAllocations) :=
  match linkage with
  | Private | Internal =>
      let hm := default ∅ (module_private_allocated_globals self !! mod_name module) in
      match hm !! name with
      | None =>
          mret (ModulePrivate,
                set_private_globals (<[mod_name module := <[name := allocation]> hm]>
                                       (module_private_allocated_globals self)) self)
      | Some _ => Panic "Duplicate definitions found for module-private global variable or function"
      end
  | External =>
      match allocated_globals self !! name with
      | None =>
          mret (Public, set_allocated_globals (<[name := Strong allocation]> (allocated_globals self)) self)
      | Some (Strong _) => Panic "Duplicate strong definitions found for public global variable or function"
      | Some (Weak _) =>
          mret (Public, set_allocated_globals (<[name := Strong allocation]> (allocated_globals self)) self)
      end
  | AvailableExternally | LinkOnceAny | WeakAny | Common | ExternalWeak | LinkOnceODR | WeakODR =>
      match allocated_globals self !! name with
      | None =>
          mret (Public, set_allocated_globals (<[name := Weak allocation]> (allocated_globals self)) self)
      | Some _ => mret (NoAllocate, self)
      end
  | Appending => mret (NoAllocate, self)
  | LinkageOther => Panic "not implemented: Linkage type"
  end.

Definition allocate_global_var self (var : GlobalVariable) (module : Module_) (addr : BV)
    : outcome GlobalAllocations :=
  initializer ← expect "Can't call allocate_global_var() with a global declaration, only a definition"
                  (gv_initializer var);
  '(_, self) ← allocate_global self (gv_linkage var) (gv_name var) module
                 (GAVariable addr initializer false);
  mret self.

Definition allocate_function self (func : Function_) (module : Module_) (addr : Z) (addr_bv : BV)
    : outcome GlobalAllocations :=
  '(res, self) ← allocate_global self (func_linkage func) (NameStr (func_name func)) module
                   (GAFunction func module addr_bv);
  match res with
  | Public => mret (set_addr_to_function (<[addr := LLVMFunction func]> (addr_to_function self)) self)
  | ModulePrivate =>
      let hm := default ∅ (module_private_addr_to_function self !! mod_name module) in
      mret (set_private_addr_to_function (<[mod_name module := <[addr := LLVMFunction func]> hm]>
                                            (module_private_addr_to_function self)) self)
  | NoAllocate => mret self
  end.

Definition allocate_function_hook self (h : FunctionHook) (addr : Z) (addr_bv : BV) : GlobalAllocations :=
  set_addr_to_function (<[addr := CallableHook h]> (addr_to_function self))
    (set_allocated_hooks (<[hook_id h := addr_bv]> (allocated_hooks self)) self).

Definition get_global_allocation self (name : Name) (module : Module_) : option GlobalAllocation :=
  match module_private_allocated_globals self !! mod_name module ≫= fun hm => hm !! name with
  | Some ga => Some ga
  | None => def_get <$> allocated_globals self !! name
  end.

(** Setting the [initialized] flag of the allocation that
    [get_global_allocation] returns a reference to. *)
Definition mark_initialized self (name : Name) (module : Module_) : GlobalAllocations :=
  match module_private_allocated_globals self !! mod_name module with
  | Some hm =>
      match hm !! name with
      | Some ga =>
          set_private_globals (<[mod_name module := <[name := set_initialized ga]> hm]>
                                 (module_private_allocated_globals self)) self
      | None =>
          set_allocated_globals (alter (def_map set_initialized) name (allocated_globals self)) self
      end
  | None => set_allocated_globals (alter (def_map set_initialized) name (allocated_globals self)) self
  end.

Definition get_function_hook_address self (h : FunctionHook) : option BV :=
  allocated_hooks self !! hook_id h.

Definition get_func_for_address self (addr : Z) (module : Module_) : option Callable :=
  match addr_to_function self !! addr with
  | Some c => Some c
  | None => module_private_addr_to_function self !! mod_name module ≫= fun hm => hm !! addr
  end.

(** [*bv = new_solver.match_bv(bv).unwrap()] on every value of a map. *)
Definition match_values {K V} `{Countable K} (get : V -> BV) (set : BV -> V -> V)
    (new_solver : SolverRef) (m : gmap K V) : outcome (gmap K V) :=
  vs ← mapO (fun '(k, v) =>
         b ← expect "called `Option::unwrap()` on a `None` value" (match_bv new_solver (get v));
         mret (k, set b v)) (map_to_list m);
  mret (list_to_map vs).

Definition ga_change_solver self (new_solver : SolverRef) : outcome GlobalAllocations :=
  globals ← match_values (fun def => get_addr (def_get def)) (fun b => def_map (set_addr b))
              new_solver (allocated_globals self);
  hooks ← match_values id (fun b _ => b) new_solver (allocated_hooks self);
  privates ← mapO (fun '(k, hm) =>
               hm ← match_values get_addr set_addr new_solver hm; mret (k, hm))
               (map_to_list (module_private_allocated_globals self));
  mret (set_private_globals (list_to_map privates)
          (set_allocated_hooks hooks (set_allocated_globals globals self))).

End operations.

(** ** Symbol resolution *)

Section theorems.
Context `{Ops : BackendOps}.

(** A definition in some module, as [allocate_global] is given it. *)
Record global_def := GlobalDef {
  gd_linkage : Linkage;
  gd_name : Name;
  gd_module : Module_;
  gd_allocation : GlobalAllocation
}.

Definition allocate_all (self : GlobalAllocations) (defs : list global_def) : outcome GlobalAllocations :=
  foldO (fun self d =>
           '(_, self) ← allocate_global self (gd_linkage d) (gd_name d) (gd_module d) (gd_allocation d);
           mret self) self defs.

Definition is_private (l : Linkage) : bool :=
  match l with Private | Internal => true | _ => false end.
Definition is_strong (l : Linkage) : bool :=
  match l with External => true | _ => false end.
Definition is_weak (l : Linkage) : bool :=
  match l with
  | AvailableExternally | LinkOnceAny | WeakAny | Common | ExternalWeak | LinkOnceODR | WeakODR => true
  | _ => false
  end.

Definition private_def (defs : list global_def) (name : Name) (modname : string) : option global_def :=
  List.find (fun d => is_private (gd_linkage d) && bool_decide (gd_name d = name) &&
                      bool_decide (mod_name (gd_module d) = modname)) defs.
Definition strong_def (defs : list global_def) (name : Name) : option global_def :=
  List.find (fun d => is_strong (gd_linkage d) && bool_decide (gd_name d = name)) defs.
Definition weak_def (defs : list global_def) (name : Name) : option global_def :=
  List.find (fun d => is_weak (gd_linkage d) && bool_decide (gd_name d = name)) defs.

(** The definition that prevails for a name that appears in a module. *)
Definition prevailing (defs : list global_def) (name : Name) (module : Module_) : option global_def :=
  match private_def defs name (mod_name module) with
  | Some d => Some d
  | None => match strong_def defs name with Some d => Some d | None => weak_def defs name end
  end.

Definition tables_agree (self : GlobalAllocations) (defs : list global_def) : Prop :=
  (forall name mn, (module_private_allocated_globals self !! mn ≫= fun hm => hm !! name) =
     gd_allocation <$> private_def defs name mn) /\
  (forall name, allocated_globals self !! name =
     match strong_def defs name with
     | Some d => Some (Strong (gd_allocation d))
     | None => (fun d => Weak (gd_allocation d)) <$> weak_def defs name
     end).

Lemma find_snoc {A} (p : A -> bool) xs x :
  List.find p (xs ++ [x]) =
  match List.find p xs with Some y => Some y | None => if p x then Some x else None end.
Proof. induction xs as [|y xs IH]; [done|]. cbn. by destruct (p y). Qed.

Lemma private_insert self mn0 name0 ga name mn :
  (<[mn0 := <[name0 := ga]> (default ∅ (module_private_allocated_globals self !! mn0))]>
     (module_private_allocated_globals self) !! mn ≫= fun hm => hm !! name) =
  if bool_decide (name0 = name) && bool_decide (mn0 = mn) then Some ga
  else module_private_allocated_globals self !! mn ≫= fun hm => hm !! name.
Proof.
  destruct (decide (mn0 = mn)) as [<-|Hm].
  - rewrite lookup_insert_eq. cbn. rewrite (bool_decide_true (mn0 = mn0)), andb_true_r by done.
    destruct (decide (name0 = name)) as [<-|Hn].
    + by rewrite lookup_insert_eq, bool_decide_true.
    + rewrite lookup_insert_ne, bool_decide_false by done.
      by destruct (module_private_allocated_globals self !! mn0).
  - rewrite lookup_insert_ne, (bool_decide_false (mn0 = mn)), andb_false_r by done. done.
Qed.

Lemma private_snoc defs d name mn :
  private_def (defs ++ [d]) name mn =
  match private_def defs name mn with
  | Some y => Some y
  | None => if is_private (gd_linkage d) && bool_decide (gd_name d = name) &&
               bool_decide (mod_name (gd_module d) = mn) then Some d else None
  end.
Proof. exact (find_snoc _ _ _). Qed.
Lemma strong_snoc defs d name :
  strong_def (defs ++ [d]) name =
  match strong_def defs name with
  | Some y => Some y
  | None => if is_strong (gd_linkage d) && bool_decide (gd_name d = name) then Some d else None
  end.
Proof. exact (find_snoc _ _ _). Qed.
Lemma weak_snoc defs d name :
  weak_def (defs ++ [d]) name =
  match weak_def defs name with
  | Some y => Some y
  | None => if is_weak (gd_linkage d) && bool_decide (gd_name d = name) then Some d else None
  end.
Proof. exact (find_snoc _ _ _). Qed.

Lemma keep_some {A} (o : option A) : match o with Some y => Some y | None => None end = o.
Proof. by destruct o. Qed.

(** A definition whose linkage is not of a kind leaves the table of that kind. *)
Lemma private_keep defs d name mn :
  is_private (gd_linkage d) = false -> private_def (defs ++ [d]) name mn = private_def defs name mn.
Proof. intros E. rewrite private_snoc, E. apply keep_some. Qed.
Lemma public_keep defs d name :
  is_strong (gd_linkage d) = false -> is_weak (gd_linkage d) = false ->
  strong_def (defs ++ [d]) name = strong_def defs name /\ weak_def (defs ++ [d]) name = weak_def defs name.
Proof. intros Es Ew. rewrite strong_snoc, weak_snoc, Es, Ew. by rewrite !keep_some. Qed.

Lemma tables_snoc_private self defs d :
  is_private (gd_linkage d) = true -> tables_agree self defs ->
  default ∅ (module_private_allocated_globals self !! mod_name (gd_module d)) !! gd_name d = None ->
  tables_agree (set_private_globals
    (<[mod_name (gd_module d) :=
         <[gd_name d := gd_allocation d]>
           (default ∅ (module_private_allocated_globals self !! mod_name (gd_module d)))]>
       (module_private_allocated_globals self)) self) (defs ++ [d]).
Proof.
  intros E [HP HG] Hnone. split; [|intros name; destruct (public_keep defs d name) as [-> ->];
    [by destruct (gd_linkage d)..|apply HG]]. intros name mn. cbn. rewrite private_insert, private_snoc, E.
  destruct (decide (gd_name d = name)) as [<-|Hn]; destruct (decide (mod_name (gd_module d) = mn)) as [<-|Hm];
    repeat (rewrite bool_decide_true by done); repeat (rewrite bool_decide_false by done); cbn [andb];
    try (by rewrite keep_some, HP).
  specialize (HP (gd_name d) (mod_name (gd_module d))).
  destruct (module_private_allocated_globals self !! mod_name (gd_module d)) as [hm|]; cbn in *.
  - rewrite Hnone in HP. by destruct (private_def defs _ _).
  - by destruct (private_def defs _ _).
Qed.

Lemma tables_snoc_strong self defs d :
  is_strong (gd_linkage d) = true -> tables_agree self defs ->
  (forall ga, allocated_globals self !! gd_name d <> Some (Strong ga)) ->
  tables_agree (set_allocated_globals
    (<[gd_name d := Strong (gd_allocation d)]> (allocated_globals self)) self) (defs ++ [d]).
Proof.
  intros E [HP HG] Hnone. split; [intros; by rewrite private_keep by (by destruct (gd_linkage d))|].
  intros name. cbn. rewrite strong_snoc, weak_snoc, E.
  replace (is_weak (gd_linkage d)) with false by (by destruct (gd_linkage d)). cbn [andb]. rewrite keep_some.
  destruct (decide (gd_name d = name)) as [<-|Hn].
  - rewrite lookup_insert_eq, bool_decide_true by done. specialize (HG (gd_name d)).
    destruct (strong_def defs (gd_name d)) as [d'|]; [|done]. by destruct (Hnone (gd_allocation d')).
  - rewrite lookup_insert_ne, bool_decide_false by done. by rewrite HG, keep_some.
Qed.

Lemma tables_snoc_weak self defs d :
  is_weak (gd_linkage d) = true -> tables_agree self defs ->
  tables_agree (match allocated_globals self !! gd_name d with
                | None => set_allocated_globals
                    (<[gd_name d := Weak (gd_allocation d)]> (allocated_globals self)) self
                | Some _ => self
                end) (defs ++ [d]).
Proof.
  intros E [HP HG]. split.
  { intros. rewrite private_keep by (by destruct (gd_linkage d)). by case_match. }
  intros name. rewrite strong_snoc, weak_snoc, E.
  replace (is_strong (gd_linkage d)) with false by (by destruct (gd_linkage d)). cbn [andb]. rewrite keep_some.
  pose proof (HG (gd_name d)) as HGd. destruct (allocated_globals self !! gd_name d) as [def|] eqn:Ed.
  - rewrite HG. destruct (strong_def defs name) as [|] eqn:Es; [done|].
    destruct (decide (gd_name d = name)) as [<-|Hn].
    + rewrite Es in HGd. by destruct (weak_def defs (gd_name d)).
    + rewrite bool_decide_false by done. by rewrite keep_some.
  - cbn. destruct (decide (gd_name d = name)) as [<-|Hn].
    + rewrite lookup_insert_eq, bool_decide_true by done.
      destruct (strong_def defs (gd_name d)); [done|]. by destruct (weak_def defs (gd_name d)).
    + rewrite lookup_insert_ne, bool_decide_false by done. by rewrite HG, keep_some.
Qed.

Lemma tables_snoc self defs d r self' :
  tables_agree self defs ->
  allocate_global self (gd_linkage d) (gd_name d) (gd_module d) (gd_allocation d) = Ok (r, self') ->
  tables_agree self' (defs ++ [d]).
Proof.
  intros HT Ha.
  destruct (is_private (gd_linkage d)) eqn:Ep.
  { pose proof (tables_snoc_private self defs d Ep HT) as Hs. unfold allocate_global in Ha.
    destruct (default ∅ _ !! gd_name d); destruct (gd_linkage d); try done; injection Ha as _ <-; by apply Hs. }
  destruct (is_strong (gd_linkage d)) eqn:Es.
  { pose proof (tables_snoc_strong self defs d Es HT) as Hs. unfold allocate_global in Ha.
    destruct (allocated_globals self !! gd_name d) as [[]|]; destruct (gd_linkage d); try done;
      injection Ha as _ <-; by apply Hs. }
  destruct (is_weak (gd_linkage d)) eqn:Ew.
  { pose proof (tables_snoc_weak self defs d Ew HT) as Hs. unfold allocate_global in Ha.
    destruct (allocated_globals self !! gd_name d) as [def|]; destruct (gd_linkage d); try done;
      injection Ha as _ <-; by apply Hs. }
  destruct HT as [HP HG]. assert (self' = self) as ->.
  { unfold allocate_global in Ha. destruct (gd_linkage d); try done. by injection Ha. }
  split; intros; [by rewrite private_keep|]. by destruct (public_keep defs d name Es Ew) as [-> ->].
Qed.

Lemma allocate_all_tables defs self :
  allocate_all ga_new defs = Ok self -> tables_agree self defs.
Proof.
  revert self. induction defs as [|d defs IH] using rev_ind; intros self.
  { intros [= <-]. split; [|done]. intros name mn. cbn. by rewrite lookup_empty. }
  unfold allocate_all. rewrite foldO_app. intros (self1 & H1 & H2)%bind_ok. cbn in H2.
  apply bind_ok in H2 as (self2 & ([r self3] & H3 & [= <-])%bind_ok & [= <-]).
  eapply tables_snoc; [by apply IH|exact H3].
Qed.

(** C37: after any sequence of definitions of globals and functions (from any
    modules, in any order) has been allocated without a duplicate-definition
    panic, a name used in a module resolves to that module's private
    definition if there is one, otherwise to the strong public definition,
    otherwise to the first weak one. *)
Theorem resolution_correct defs self name module :
  allocate_all ga_new defs = Ok self ->
  get_global_allocation self name module = gd_allocation <$> prevailing defs name module.
Proof.
  intros [HP HG]%allocate_all_tables. unfold get_global_allocation, prevailing. rewrite HP, HG.
  destruct (private_def defs name (mod_name module)); [done|]. cbn.
  destruct (strong_def defs name); [done|]. by destruct (weak_def defs name).
Qed.

End theorems.

Module GlobalsWitnesses.
Import ToyBackend.

Definition mod_named (n : string) : Module_ :=
  {| mod_name := n; mod_source_file_name := ""; mod_functions := []; mod_global_vars := [];
     mod_global_aliases := []; mod_named_struct_types := ∅ |}.
Definition var_at (a v : Z) : GlobalAllocation := GAVariable (from_u64 a 64) (CInt 32 v) false.
Definition x : Name := NameStr "x".
(** [a.c]: a weak [x]; [b.c]: a static [x]; [c.c]: the strong [x]; [d.c]: another weak [x]. *)
Definition defs : list global_def :=
  [GlobalDef WeakAny x (mod_named "a.c") (var_at 16 1); GlobalDef Internal x (mod_named "b.c") (var_at 32 2);
   GlobalDef External x (mod_named "c.c") (var_at 48 3); GlobalDef LinkOnceODR x (mod_named "d.c") (var_at 64 4)].

Lemma resolution_witness :
  exists self, allocate_all ga_new defs = Ok self /\
    get_global_allocation self x (mod_named "a.c") = Some (var_at 48 3) /\
    get_global_allocation self x (mod_named "b.c") = Some (var_at 32 2).
Proof.
  eexists. split; [reflexivity|]. split.
  - rewrite (resolution_correct defs) by reflexivity. reflexivity.
  - rewrite (resolution_correct defs) by reflexivity. reflexivity.
Defined.

End GlobalsWitnesses.
