(* ===== verification/Config.v ===== *)
(** * Config: settings of an execution (src/src/config.rs, src/src/callbacks.rs)

    Callbacks are closures of the user; a callback is named by a number whose
    behaviour is a parameter of the engine. *)
From S2P Require Import Prelude Bits LLVMIR Project FunctionHooks Watchpoints.

Open Scope Z_scope.

Inductive NullPointerChecking := NPSimple | NPSplitPath | NPNone.

Inductive Concretize :=
| Symbolic
| Arbitrary
| Prefer (val : Z) (backup : Concretize)
| Maximum
| Minimum.

Record Callbacks := {
  instruction_callbacks : list Z;
  terminator_callbacks : list Z
}.
Definition callbacks_default : Callbacks :=
  {| instruction_callbacks := []; terminator_callbacks := [] |}.
Definition add_instruction_callback (self : Callbacks) (cb : Z) : Callbacks :=
  {| instruction_callbacks := instruction_callbacks self ++ [cb];
     terminator_callbacks := terminator_callbacks self |}.
Definition add_terminator_callback (self : Callbacks) (cb : Z) : Callbacks :=
  {| instruction_callbacks := instruction_callbacks self;
     terminator_callbacks := terminator_callbacks self ++ [cb] |}.

Record Config := {
  loop_bound : Z;
  max_callstack_depth : option Z;
  solver_query_timeout : option Z;
  null_pointer_checking : NullPointerChecking;
  concretize_memcpy_lengths : Concretize;
  max_memcpy_length : option Z;
  squash_unsats : bool;
  trust_llvm_assumes : bool;
  function_hooks : FunctionHooks;
  callbacks : Callbacks;
  initial_mem_watchpoints : gmap string Watchpoint;
  demangling : option Demangling;
  print_source_info : bool;
  print_module_name : bool
}.

Definition config_with_hooks (fhooks : FunctionHooks) : Config :=
  {| loop_bound := 10; max_callstack_depth := None; solver_query_timeout := Some 300;
     null_pointer_checking := NPSimple; concretize_memcpy_lengths := Symbolic;
     max_memcpy_length := None; squash_unsats := true; trust_llvm_assumes := true;
     function_hooks := fhooks; callbacks := callbacks_default; initial_mem_watchpoints := ∅;
     demangling := None; print_source_info := true; print_module_name := true |}.

(** [Config::default()] and [Config::new()] *)
Definition config_default : outcome Config := config_with_hooks <$> hooks_default.
Definition config_new : outcome Config := _ ← config_default; mret (config_with_hooks hooks_new).

Definition set_demangling (d : option Demangling) (c : Config) : Config :=
  {| loop_bound := loop_bound c; max_callstack_depth := max_callstack_depth c;
     solver_query_timeout := solver_query_timeout c;
     null_pointer_checking := null_pointer_checking c;
     concretize_memcpy_lengths := concretize_memcpy_lengths c;
     max_memcpy_length := max_memcpy_length c; squash_unsats := squash_unsats c;
     trust_llvm_assumes := trust_llvm_assumes c; function_hooks := function_hooks c;
     callbacks := callbacks c; initial_mem_watchpoints := initial_mem_watchpoints c;
     demangling := d; print_source_info := print_source_info c; print_module_name := print_module_name c |}.
