(* ===== verification/State.v ===== *)
(** * State: the symbolic program state (src/src/state.rs)

    The whole state of an execution and its operations.  [&self] methods that
    mutate through a [RefCell], a [Cell] or the shared solver take and return
    the state like [&mut self] ones.  The three stacks of the source are
    vectors that grow at their end: [stack] and [backtrack_points] are lists
    with the most recent entry first, [path] is in the source's order.
    Logging and pretty-printing are left out. *)
From S2P Require Import Prelude Bits Backend SolverUtils MemorySpec Alloc LLVMIR Project Layout VarMap Watchpoints FunctionHooks GlobalAllocations Config.

Open Scope Z_scope.

(** ** Locations *)

Inductive BBInstrIndex := Instr (i : Z) | TerminatorIdx.
#[export] Instance BBInstrIndex_eq_dec : EqDecision BBInstrIndex.
Proof. solve_decision. Defined.
#[export] Instance BBInstrIndex_countable : Countable BBInstrIndex.
Proof.
  refine (inj_countable' (fun x => match x with Instr i => Some i | TerminatorIdx => None end)
            (fun x => match x with Some i => Instr i | None => TerminatorIdx end) _).
  by intros [].
Defined.

Record Location := {
  module : Module_;
  func : Function_;
  bb : BasicBlock;
  instr : BBInstrIndex;
  source_loc : option DebugLoc
}.

(** What [PartialEq] and [Hash] for [Location] look at. *)
Definition LocKey : Type := string * string * Name * BBInstrIndex.
Definition loc_key (l : Location) : LocKey :=
  (mod_name (module l), func_name (func l), bb_name (bb l), instr l).
Definition loc_eqb (l l' : Location) : bool := bool_decide (loc_key l = loc_key l').

Definition PathEntry : Type := Location.

Inductive ReturnValue (V : Type) := Return (v : V) | ReturnVoid | Throw (v : V) | Abort.
Arguments Return {V} v.
Arguments ReturnVoid {V}.
Arguments Throw {V} v.
Arguments Abort {V}.

Record Callsite := { callsite_loc : Location; callsite_instr : CallInstr }.

Section locations.
Context `{L : LLVM}.

Definition set_instr (i : BBInstrIndex) (l : Location) : Location :=
  {| module := module l; func := func l; bb := bb l; instr := i; source_loc := source_loc l |}.
Definition set_source_loc (d : option DebugLoc) (l : Location) : Location :=
  {| module := module l; func := func l; bb := bb l; instr := instr l; source_loc := d |}.

Definition move_to_start_of_bb (self : Location) (b : BasicBlock) : Location :=
  {| module := module self; func := func self; bb := b; instr := Instr 0; source_loc := source_loc self |}.

Definition move_to_start_of_bb_by_name (self : Location) (bbname : Name) : outcome Location :=
  b ← expect "Failed to find bb in function" (get_bb_by_name (func self) bbname);
  mret (move_to_start_of_bb self b).

Definition inc (self : Location) : outcome Location :=
  match instr self with
  | Instr i =>
      if Z.of_nat (length (bb_instrs (bb self))) <=? i + 1 then mret (set_instr TerminatorIdx self)
      else mret (set_instr (Instr (i + 1)) self)
  | TerminatorIdx => Panic "called inc() on a Location pointing to a terminator"
  end.

End locations.

(** How deep [const_to_bv] may recurse.  The recursion follows constants,
    the initializers of globals (each at most once) and aliases. *)
Class ConstFuel := const_fuel : nat.

Section state.
Context `{Ops : BackendOps} `{MOps : !MemoryOps} `{L : LLVM} `{CF : ConstFuel}.

Record StackFrame := { callsite : Callsite; restore_info : RestoreInfo }.

Record BacktrackPoint := {
  bp_loc : Location;
  bp_stack : list StackFrame;
  bp_constraint : BV;
  bp_varmap : VarMap;
  bp_mem : Memory;
  bp_path_len : nat
}.

Record State := {
  solver : SolverRef;
  config : Config;
  cur_loc : Location;
  varmap : VarMap;
  mem : Memory;
  allocator : Alloc;
  global_allocations : GlobalAllocations;
  intrinsic_hooks : FunctionHooks;
  stack : list StackFrame;
  backtrack_points : list BacktrackPoint;
  path : list PathEntry;
  mem_watchpoints : gmap string (Watchpoint * bool);
  function_ptr_cache : gmap LocKey Z
}.

Definition set_solver (x : SolverRef) (s : State) : State :=
    {| solver := x; config := config s; cur_loc := cur_loc s; varmap := varmap s; mem := mem s;
     allocator := allocator s; global_allocations := global_allocations s; intrinsic_hooks :=
     intrinsic_hooks s; stack := stack s; backtrack_points := backtrack_points s; path := path s;
     mem_watchpoints := mem_watchpoints s; function_ptr_cache := function_ptr_cache s |}.
Definition set_config (x : Config) (s : State) : State :=
    {| solver := solver s; config := x; cur_loc := cur_loc s; varmap := varmap s; mem := mem s;
     allocator := allocator s; global_allocations := global_allocations s; intrinsic_hooks :=
     intrinsic_hooks s; stack := stack s; backtrack_points := backtrack_points s; path := path s;
     mem_watchpoints := mem_watchpoints s; function_ptr_cache := function_ptr_cache s |}.
Definition set_cur_loc (x : Location) (s : State) : State :=
    {| solver := solver s; config := config s; cur_loc := x; varmap := varmap s; mem := mem s;
     allocator := allocator s; global_allocations := global_allocations s; intrinsic_hooks :=
     intrinsic_hooks s; stack := stack s; backtrack_points := backtrack_points s; path := path s;
     mem_watchpoints := mem_watchpoints s; function_ptr_cache := function_ptr_cache s |}.
Definition set_varmap (x : VarMap) (s : State) : State :=
    {| solver := solver s; config := config s; cur_loc := cur_loc s; varmap := x; mem := mem s;
     allocator := allocator s; global_allocations := global_allocations s; intrinsic_hooks :=
     intrinsic_hooks s; stack := stack s; backtrack_points := backtrack_points s; path := path s;
     mem_watchpoints := mem_watchpoints s; function_ptr_cache := function_ptr_cache s |}.
Definition set_mem (x : Memory) (s : State) : State :=
    {| solver := solver s; config := config s; cur_loc := cur_loc s; varmap := varmap s; mem := x;
     allocator := allocator s; global_allocations := global_allocations s; intrinsic_hooks :=
     intrinsic_hooks s; stack := stack s; backtrack_points := backtrack_points s; path := path s;
     mem_watchpoints := mem_watchpoints s; function_ptr_cache := function_ptr_cache s |}.
Definition set_allocator (x : Alloc) (s : State) : State :=
    {| solver := solver s; config := config s; cur_loc := cur_loc s; varmap := varmap s; mem := mem
     s; allocator := x; global_allocations := global_allocations s; intrinsic_hooks :=
     intrinsic_hooks s; stack := stack s; backtrack_points := backtrack_points s; path := path s;
     mem_watchpoints := mem_watchpoints s; function_ptr_cache := function_ptr_cache s |}.
Definition set_global_allocations (x : GlobalAllocations) (s : State) : State :=
    {| solver := solver s; config := config s; cur_loc := cur_loc s; varmap := varmap s; mem := mem
     s; allocator := allocator s; global_allocations := x; intrinsic_hooks := intrinsic_hooks s;
     stack := stack s; backtrack_points := backtrack_points s; path := path s; mem_watchpoints :=
     mem_watchpoints s; function_ptr_cache := function_ptr_cache s |}.
Definition set_intrinsic_hooks (x : FunctionHooks) (s : State) : State :=
    {| solver := solver s; config := config s; cur_loc := cur_loc s; varmap := varmap s; mem := mem
     s; allocator := allocator s; global_allocations := global_allocations s; intrinsic_hooks := x;
     stack := stack s; backtrack_points := backtrack_points s; path := path s; mem_watchpoints :=
     mem_watchpoints s; function_ptr_cache := function_ptr_cache s |}.
Definition set_stack (x : list StackFrame) (s : State) : State :=
    {| solver := solver s; config := config s; cur_loc := cur_loc s; varmap := varmap s; mem := mem
     s; allocator := allocator s; global_allocations := global_allocations s; intrinsic_hooks :=
     intrinsic_hooks s; stack := x; backtrack_points := backtrack_points s; path := path s;
     mem_watchpoints := mem_watchpoints s; function_ptr_cache := function_ptr_cache s |}.
Definition set_backtrack_points (x : list BacktrackPoint) (s : State) : State :=
    {| solver := solver s; config := config s; cur_loc := cur_loc s; varmap := varmap s; mem := mem
     s; allocator := allocator s; global_allocations := global_allocations s; intrinsic_hooks :=
     intrinsic_hooks s; stack := stack s; backtrack_points := x; path := path s; mem_watchpoints :=
     mem_watchpoints s; function_ptr_cache := function_ptr_cache s |}.
Definition set_path (x : list PathEntry) (s : State) : State :=
    {| solver := solver s; config := config s; cur_loc := cur_loc s; varmap := varmap s; mem := mem
     s; allocator := allocator s; global_allocations := global_allocations s; intrinsic_hooks :=
     intrinsic_hooks s; stack := stack s; backtrack_points := backtrack_points s; path := x;
     mem_watchpoints := mem_watchpoints s; function_ptr_cache := function_ptr_cache s |}.
Definition set_mem_watchpoints (x : gmap string (Watchpoint * bool)) (s : State) : State :=
    {| solver := solver s; config := config s; cur_loc := cur_loc s; varmap := varmap s; mem := mem
     s; allocator := allocator s; global_allocations := global_allocations s; intrinsic_hooks :=
     intrinsic_hooks s; stack := stack s; backtrack_points := backtrack_points s; path := path s;
     mem_watchpoints := x; function_ptr_cache := function_ptr_cache s |}.
Definition set_function_ptr_cache (x : gmap LocKey Z) (s : State) : State :=
    {| solver := solver s; config := config s; cur_loc := cur_loc s; varmap := varmap s; mem := mem
     s; allocator := allocator s; global_allocations := global_allocations s; intrinsic_hooks :=
     intrinsic_hooks s; stack := stack s; backtrack_points := backtrack_points s; path := path s;
     mem_watchpoints := mem_watchpoints s; function_ptr_cache := x |}.


(** ** Computations on parts of the state *)

Definition on_solver {A} (c : M SolverRef A) : M State A := zoom solver set_solver c.
Definition on_varmap {A} (c : M VarMap A) : M State A := zoom varmap set_varmap c.
(** The current function's name. *)
Definition cur_fn (s : State) : string := func_name (func (cur_loc s)).

(** ** Solver queries *)

Definition sat : M State bool := on_solver SolverUtils.sat.
Definition sat_with_extra_constraints (constraints : list BV) : M State bool :=
  on_solver (SolverUtils.sat_with_extra_constraints constraints).
Definition bvs_must_be_equal (a b : BV) : M State bool := on_solver (SolverUtils.bvs_must_be_equal a b).
Definition bvs_can_be_equal (a b : BV) : M State bool := on_solver (SolverUtils.bvs_can_be_equal a b).

Definition get_a_solution_for_bv (bv : BV) : M State (option BVSolution) :=
  match as_binary_str bv with
  | Some bstr => mret (Some (from_01x_str bstr))
  | None =>
      _ ← on_solver (set_model_gen true);
      b ← sat;
      solution ← (if (b : bool) then Some <$> on_solver (get_a_solution bv) else mret None);
      _ ← on_solver (set_model_gen false);
      mret solution
  end.

(** [self.varmap.lookup_var(funcname, name)] *)
Definition lookup_in_fn (funcname : string) (name : Name) : M State BV :=
  s ← get; lift (lookup_var (varmap s) funcname name).

Definition get_a_solution_for_irname (funcname : string) (name : Name) : M State (option BVSolution) :=
  bv ← lookup_in_fn funcname name; get_a_solution_for_bv bv.
Definition get_possible_solutions_for_bv (bv : BV) (n : Z) : M State (PossibleSolutions BVSolution) :=
  on_solver (SolverUtils.get_possible_solutions_for_bv bv n).
Definition get_possible_solutions_for_irname (funcname : string) (name : Name) (n : Z)
    : M State (PossibleSolutions BVSolution) :=
  bv ← lookup_in_fn funcname name; get_possible_solutions_for_bv bv n.
Definition max_possible_solution_for_bv_as_u64 (bv : BV) : M State (option Z) :=
  on_solver (SolverUtils.max_possible_solution_for_bv_as_u64 bv).
Definition max_possible_solution_for_irname_as_u64 (funcname : string) (name : Name) : M State (option Z) :=
  bv ← lookup_in_fn funcname name; max_possible_solution_for_bv_as_u64 bv.
Definition min_possible_solution_for_bv_as_u64 (bv : BV) : M State (option Z) :=
  on_solver (SolverUtils.min_possible_solution_for_bv_as_u64 bv).
Definition min_possible_solution_for_irname_as_u64 (funcname : string) (name : Name) : M State (option Z) :=
  bv ← lookup_in_fn funcname name; min_possible_solution_for_bv_as_u64 bv.

(** Constants of the state's solver, which the terms of the model do not
    mention. *)
Definition bv_from_bool (self : State) (b : bool) : BV := from_bool b.
Definition bv_from_i32 (self : State) (i width : Z) : BV := from_i32 i width.
Definition bv_from_u32 (self : State) (u width : Z) : BV := from_u32 u width.
Definition bv_from_i64 (self : State) (i width : Z) : BV := from_i64 i width.
Definition bv_from_u64 (self : State) (u width : Z) : BV := from_u64 u width.
Definition zero (self : State) (width : Z) : BV := bv_zero width.
Definition one (self : State) (width : Z) : BV := bv_one width.
Definition ones (self : State) (width : Z) : BV := bv_ones width.

(** [bv.assert()?] on the state's solver *)
Definition assert_bv (bv : BV) : M State unit := on_solver (bv_assert bv).

(** ** Variables *)

Definition new_bv_with_name (name : Name) (bits : Z) : M State BV :=
  s ← get;
  zoom (fun s => (varmap s, solver s)) (fun '(vm, sol) s => set_solver sol (set_varmap vm s))
    (VarMap.new_bv_with_name (cur_fn s) name bits).

Definition assign_bv_to_name (name : Name) (bv : BV) : M State unit :=
  s ← get; on_varmap (VarMap.assign_bv_to_name (cur_fn s) name bv).

(** [trait HasResult]: the type and the name of the result of an instruction. *)
Record HasResult := { result_type : Type_; result_name : Name }.

(** The [debug_assertions] version, which checks the width. *)
Definition record_bv_result (thing : HasResult) (resultval : BV) : M State unit :=
  sz ← lift (size (result_type thing));
  if negb (as_u32 sz =? get_width resultval)
  then err (OtherError "Computed result for an instruction has the wrong size")
  else assign_bv_to_name (result_name thing) resultval.

Definition overwrite_latest_version_of_bv (name : Name) (bv : BV) : M State unit :=
  s ← get; on_varmap (VarMap.overwrite_latest_version_of_bv (cur_fn s) name bv).

(** ** Backtracking *)

Definition save_backtracking_point_at_location (loc_to_start_at : Location) (constraint : BV)
    : M State unit :=
  _ ← on_solver (push 1);
  modify (fun s =>
    set_backtrack_points ({| bp_loc := loc_to_start_at; bp_stack := stack s; bp_constraint := constraint;
                             bp_varmap := varmap s; bp_mem := mem s; bp_path_len := length (path s) |}
                          :: backtrack_points s) s).

Definition save_backtracking_point (bb_to_enter : Name) (constraint : BV) : M State unit :=
  s ← get;
  b ← lift (expect "Failed to find bb in function" (get_bb_by_name (func (cur_loc s)) bb_to_enter));
  let backtrack_loc := {| module := module (cur_loc s); func := func (cur_loc s); bb := b;
                          instr := Instr 0; source_loc := None |} in
  save_backtracking_point_at_location backtrack_loc constraint.

Definition revert_to_backtracking_point : M State bool :=
  s ← get;
  match backtrack_points s with
  | bp :: bps =>
      _ ← modify (set_backtrack_points bps);
      _ ← on_solver (pop 1);
      _ ← modify (set_varmap (bp_varmap bp));
      _ ← modify (set_mem (bp_mem bp));
      _ ← modify (set_stack (bp_stack bp));
      _ ← modify (fun s => set_path (take (bp_path_len bp) (path s)) s);
      _ ← modify (set_cur_loc (bp_loc bp));
      _ ← assert_bv (bp_constraint bp);
      mret true
  | [] => mret false
  end.

Definition count_backtracking_points (s : State) : nat := length (backtrack_points s).

(** ** Memory *)

(** [if self.config.null_pointer_checking == SplitPath { self.save_backtracking_point_at_location(..) }] *)
Definition split_on_null (addr : BV) : M State unit :=
  s ← get;
  match null_pointer_checking (config s) with
  | NPSplitPath =>
      save_backtracking_point_at_location (cur_loc s) (bv_ne addr (bv_zero (get_width addr)))
  | _ => mret tt
  end.

(** [match self.mem.borrow().read(..) { Ok(val) => val, e @ Err(NullPointerDereference) => { ..; return e },
    e @ Err(_) => return e }], and the same for [write] *)
Definition access_or_split {A} (addr : BV) (c : M SolverRef A) : M State A :=
  r ← catch (on_solver c);
  match r with
  | Err NullPointerDereference => _ ← split_on_null addr; err NullPointerDereference
  | r => lift r
  end.

Definition read (addr : BV) (bits : Z) : M State BV :=
  s ← get;
  retval ← access_or_split addr (mem_read (mem s) addr bits);
  s ← get;
  _ ← on_solver (get_triggered_watchpoints (mem_watchpoints s) addr bits);
  mret retval.

Definition write_without_mut (addr val : BV) : M State unit :=
  let write_width := get_width val in
  s ← get;
  mem' ← access_or_split addr (mem_write (mem s) addr val);
  _ ← modify (set_mem mem');
  s ← get;
  triggered ← on_solver (get_triggered_watchpoints (mem_watchpoints s) addr write_width);
  forM triggered (fun '(_, watchpoint) =>
    let watchpoint_low := from_u64 (low watchpoint) (as_u32 POINTER_SIZE_BITS) in
    len ← lift (u64_sub (high watchpoint) (low watchpoint));
    len ← lift (u64_add len 1);
    watchpoint_size_bits ← lift (u64_mul len 8);
    s ← get;
    _ ← on_solver (mem_read (mem s) watchpoint_low (as_u32 watchpoint_size_bits));
    mret tt).

Definition write (addr val : BV) : M State unit := write_without_mut addr val.

(** Lifting an operation on the watchpoints that returns a [bool]. *)
Definition on_watchpoints (f : gmap string (Watchpoint * bool) -> bool * gmap string (Watchpoint * bool))
    : M State bool :=
  s ← get; let '(b, w) := f (mem_watchpoints s) in _ ← modify (set_mem_watchpoints w); mret b.
Definition add_mem_watchpoint (name : string) (w : Watchpoint) : M State bool :=
  on_watchpoints (fun ws => Watchpoints.add ws name w).
Definition rm_mem_watchpoint (name : string) : M State bool :=
  on_watchpoints (fun ws => Watchpoints.remove ws name).
Definition disable_watchpoint (name : string) : M State bool :=
  on_watchpoints (fun ws => Watchpoints.disable ws name).
Definition enable_watchpoint (name : string) : M State bool :=
  on_watchpoints (fun ws => Watchpoints.enable ws name).

(** ** Allocation *)

(** [self.alloc.alloc(bits)] *)
Definition raw_alloc (bits : Z) : M State Z :=
  s ← get;
  '(addr, a) ← lift (alloc (allocator s) bits);
  _ ← modify (set_allocator a);
  mret addr.

Definition allocate (bits : Z) : M State BV :=
  raw_ptr ← raw_alloc bits;
  mret (from_u64 raw_ptr 64).

Definition get_allocation_size (addr : BV) : M State (option Z) :=
  match as_u64 addr with
  | Some addr => s ← get; mret (Alloc.get_allocation_size (allocator s) addr)
  | None =>
      ps ← get_possible_solutions_for_bv addr 1;
      match ps with
      | AtLeast _ => err (OtherError "get_allocation_size: address is not a constant")
      | Exactly v =>
          sol ← lift (ok_or Unsat (head (elements v)));
          addr ← lift (ok_or (OtherError "get_allocation_size: address is more than 64 bits wide") (sol_as_u64 sol));
          s ← get;
          mret (Alloc.get_allocation_size (allocator s) addr)
      end
  end.

(** ** Paths and the call stack *)

Definition get_path (self : State) : list PathEntry := path self.
Definition record_path_entry : M State unit :=
  modify (fun s => set_path (path s ++ [cur_loc s]) s).

Definition push_generic_callsite (i : CallInstr) : M State unit :=
  modify (fun s =>
    set_stack ({| callsite := {| callsite_loc := cur_loc s; callsite_instr := i |};
                  restore_info := get_restore_info_for_fn (varmap s) (cur_fn s) |} :: stack s) s).
Definition push_callsite (call : Call) : M State unit := push_generic_callsite (LeftCall call).
Definition push_invokesite (invoke : Invoke) : M State unit := push_generic_callsite (RightInvoke invoke).

Definition pop_callsite : M State (option Callsite) :=
  s ← get;
  match stack s with
  | frame :: rest =>
      _ ← modify (set_stack rest);
      _ ← on_varmap (restore_fn_vars (restore_info frame));
      mret (Some (callsite frame))
  | [] => mret None
  end.

Definition current_callstack_depth (s : State) : Z := Z.of_nat (length (stack s)).

(** [self.cur_loc.move_to_start_of_bb_by_name(..)] and [self.cur_loc.inc()] *)
Definition goto_bb (bbname : Name) : M State unit :=
  s ← get; l ← lift (move_to_start_of_bb_by_name (cur_loc s) bbname); modify (set_cur_loc l).
Definition inc_loc : M State unit :=
  s ← get; l ← lift (inc (cur_loc s)); modify (set_cur_loc l).

(** [Demangling] was resolved when the state was made. *)
Definition demangle (funcname : string) : M State string :=
  s ← get;
  match demangling (config s) with
  | Some d => mret (maybe_demangle d funcname)
  | None => panic "Demangling shouldn't be None here"
  end.

End state.
