(* ===== verification/Operands.v ===== *)
(** * Operands: operands and constants to bit-vectors (src/src/state.rs)

    [operand_to_bv], [const_to_bv] and their helpers, function pointers, and
    the lookups that go through the global allocations.  [const_to_bv] is
    recursive through constants, through the initializers of the globals they
    reference (which it writes to memory on first use) and through aliases;
    the model's recursion is bounded by [const_fuel]. *)
From S2P Require Import Prelude Bits Backend SolverUtils MemorySpec Alloc LLVMIR Project Layout VarMap FunctionHooks GlobalAllocations Config State.

Open Scope Z_scope.

(** ** Constant aggregates *)

Fixpoint simplify_const_ev (s : Constant) (indices : list Z) : outcome Constant :=
  match indices with
  | [] => Ok s
  | index :: indices =>
      match s with
      | CStruct _ values _ =>
          val ← ok_or (MalformedInstruction "Constant::ExtractValue index out of range")
                  (values !! Z.to_nat index);
          simplify_const_ev val indices
      | _ => Panic "simplify_const_ev: not a Constant::Struct"
      end
  end.

Fixpoint simplify_const_iv (s val : Constant) (indices : list Z) : outcome Constant :=
  match indices with
  | [] => Ok val
  | index :: indices =>
      match s with
      | CStruct name values is_packed =>
          to_replace ← ok_or (MalformedInstruction "Constant::InsertValue index out of range")
                         (values !! Z.to_nat index);
          new ← simplify_const_iv to_replace val indices;
          mret (CStruct name (<[Z.to_nat index := new]> values) is_packed)
      | _ => Panic "simplify_const_iv: not a Constant::Struct"
      end
  end.

Section operands.
Context `{Ops : BackendOps} `{MOps : !MemoryOps} `{L : LLVM} `{CF : ConstFuel}.

Definition intpred_to_bvpred (pred : IntPredicate) : BV -> BV -> BV :=
  match pred with
  | EQ => bv_eq
  | NE => bv_ne
  | UGT => ugt
  | UGE => ugte
  | ULT => ult
  | ULE => ulte
  | SGT => sgt
  | SGE => sgte
  | SLT => slt
  | SLE => slte
  end.

(** The offset into a struct, which both [StructType] cases of
    [get_offset_recursive] compute. *)
Definition const_struct_index (index : Constant) : outcome Z :=
  match index with
  | CInt _ value => Ok value
  | _ => Err (MalformedInstruction "Expected index into struct type to be a constant int")
  end.

Fixpoint get_offset_recursive (const_to_bv : Constant -> M State BV) (indices : list Constant)
    (base_type : Type_) (result_bits : Z) : M State BV :=
  match indices with
  | [] => mret (bv_zero result_bits)
  | index :: indices =>
      match base_type with
      | PointerType _ | ArrayType _ _ | VectorType _ _ =>
          i ← const_to_bv index;
          i ← lift (zero_extend_to_bits i result_bits);
          '(offset, nested_ty) ← lift (get_offset_bv_index base_type i);
          bv ← get_offset_recursive const_to_bv indices nested_ty result_bits;
          mret (bv_add bv offset)
      | StructType _ _ =>
          i ← lift (const_struct_index index);
          '(offset, nested_ty) ← lift (get_offset_constant_index base_type i);
          bv ← get_offset_recursive const_to_bv indices nested_ty result_bits;
          mret (bv_add bv (from_u64 offset result_bits))
      | NamedStructType _ ty =>
          r ← lift (ok_or (MalformedInstruction "get_offset on an opaque struct type") ty);
          actual_ty ← lift (expect "Failed to upgrade weak reference" (upgrade r));
          match actual_ty with
          | StructType _ _ =>
              i ← lift (const_struct_index index);
              '(offset, nested_ty) ← lift (get_offset_constant_index base_type i);
              bv ← get_offset_recursive const_to_bv indices nested_ty result_bits;
              mret (bv_add bv (from_u64 offset result_bits))
          | _ => err (MalformedInstruction "Expected NamedStructType inner type to be a StructType")
          end
      | _ => panic "get_offset_recursive with base type"
      end
  end.

(** [.map(|c| self.const_to_bv(c)).reduce(|a, b| Ok(b?.concat(&a?)))]: every
    element is converted, also after an error; a later error wins. *)
Fixpoint concat_results (const_to_bv : Constant -> M State BV) (acc : outcome BV)
    (elements : list Constant) : M State BV :=
  match elements with
  | [] => lift acc
  | c :: elements =>
      b ← catch (const_to_bv c);
      concat_results const_to_bv
        (match b, acc with
         | Ok b, Ok a => Ok (bv_concat b a)
         | Ok _, e => e
         | e, _ => e
         end) elements
  end.
Definition aggregate_to_bv (const_to_bv : Constant -> M State BV) (elements : list Constant) : M State BV :=
  match elements with
  | [] => panic "called `Option::unwrap()` on a `None` value"
  | c :: elements =>
      a ← catch (const_to_bv c);
      concat_results const_to_bv a elements
  end.

Definition const_binop (const_to_bv : Constant -> M State BV) (op : BV -> BV -> BV) (a b : Constant)
    : M State BV :=
  x ← const_to_bv a; y ← const_to_bv b; mret (op x y).

(** [PtrToInt], [IntToPtr], [BitCast], [AddrSpaceCast] *)
Definition const_cast (const_to_bv : Constant -> M State BV) (operand : Constant) (to_type : Type_)
    : M State BV :=
  bv ← const_to_bv operand;
  sz ← lift (size to_type);
  _ ← lift (assert_ "assert_eq!(bv.get_width(), size(to_type))" (get_width bv =? as_u32 sz));
  mret bv.

Definition global_reference_to_bv (const_to_bv : Constant -> M State BV) (name : Name) : M State BV :=
  s ← get;
  match get_global_allocation (global_allocations s) name (module (cur_loc s)) with
  | Some (GAFunction _ _ addr) => mret addr
  | Some (GAVariable addr initializer initialized) =>
      _ ← (if negb initialized then
             _ ← modify (set_global_allocations
                           (mark_initialized (global_allocations s) name (module (cur_loc s))));
             write_val ← const_to_bv initializer;
             write_without_mut addr write_val
           else mret tt);
      mret addr
  | None =>
      match List.find (fun a => bool_decide (ga_name a = name)) (mod_global_aliases (module (cur_loc s))) with
      | Some alias => const_to_bv (ga_aliasee alias)
      | None => err (OtherError "const_to_bv: GlobalReference which was not found")
      end
  end.

Fixpoint const_to_bv_at (fuel : nat) (c : Constant) : M State BV :=
  match fuel with
  | O => out_of_fuel
  | S fuel =>
      let const_to_bv := const_to_bv_at fuel in
      match c with
      | CInt bits value => mret (from_u64 value bits)
      | CNull ty | CAggregateZero ty | CUndef ty =>
          sz ← lift (size ty); mret (bv_zero (as_u32 sz))
      | CStruct _ elements _ | CArray _ elements | CVector elements =>
          aggregate_to_bv const_to_bv elements
      | CGlobalReference name _ => global_reference_to_bv const_to_bv name
      | CAdd a b => const_binop const_to_bv bv_add a b
      | CSub a b => const_binop const_to_bv bv_sub a b
      | CMul a b => const_binop const_to_bv bv_mul a b
      | CUDiv a b => const_binop const_to_bv bv_udiv a b
      | CSDiv a b => const_binop const_to_bv bv_sdiv a b
      | CURem a b => const_binop const_to_bv bv_urem a b
      | CSRem a b => const_binop const_to_bv bv_srem a b
      | CAnd a b => const_binop const_to_bv bv_and a b
      | COr a b => const_binop const_to_bv bv_or a b
      | CXor a b => const_binop const_to_bv bv_xor a b
      | CShl a b => const_binop const_to_bv sll a b
      | CLShr a b => const_binop const_to_bv srl a b
      | CAShr a b => const_binop const_to_bv sra a b
      | CExtractElement vector index =>
          match index with
          | CInt _ index =>
              match vector with
              | CVector els =>
                  el ← lift (ok_or (MalformedInstruction "Constant::ExtractElement index out of range")
                               (els !! Z.to_nat index));
                  const_to_bv el
              | _ => err (MalformedInstruction "Expected ExtractElement.vector to be a Constant::Vector")
              end
          | _ => err (MalformedInstruction "Expected ExtractElement.index to be a Constant::Int")
          end
      | CInsertElement vector element index =>
          match index with
          | CInt _ index =>
              match vector with
              | CVector els =>
                  _ ← lift (ok_or (MalformedInstruction "Constant::InsertElement index out of range")
                              (els !! Z.to_nat index));
                  const_to_bv (CVector (<[Z.to_nat index := element]> els))
              | _ => err (MalformedInstruction "Expected InsertElement.vector to be a Constant::Vector")
              end
          | _ => err (MalformedInstruction "Expected InsertElement.index to be a Constant::Int")
          end
      | CExtractValue aggregate indices =>
          c ← lift (simplify_const_ev aggregate indices); const_to_bv c
      | CInsertValue aggregate element indices =>
          c ← lift (simplify_const_iv aggregate element indices); const_to_bv c
      | CGetElementPtr address indices =>
          bvbase ← const_to_bv address;
          offset ← get_offset_recursive const_to_bv indices (constant_type address) (get_width bvbase);
          mret (bv_add bvbase offset)
      | CTrunc operand to_type =>
          bv ← const_to_bv operand;
          sz ← lift (size to_type);
          hi ← lift (u32_sub (as_u32 sz) 1);
          mret (slice bv hi 0)
      | CZExt operand to_type =>
          bv ← const_to_bv operand;
          sz ← lift (size to_type);
          lift (zero_extend_to_bits bv (as_u32 sz))
      | CSExt operand to_type =>
          bv ← const_to_bv operand;
          sz ← lift (size to_type);
          lift (sign_extend_to_bits bv (as_u32 sz))
      | CPtrToInt operand to_type | CIntToPtr operand to_type
      | CBitCast operand to_type | CAddrSpaceCast operand to_type =>
          const_cast const_to_bv operand to_type
      | CICmp predicate a b => const_binop const_to_bv (intpred_to_bvpred predicate) a b
      | CSelect condition true_value false_value =>
          b ← const_to_bv condition;
          match as_bool b with
          | None => err (MalformedInstruction "Constant::Select: Expected a constant condition")
          | Some true => const_to_bv true_value
          | Some false => const_to_bv false_value
          end
      | COther _ => panic "not implemented: const_to_bv"
      end
  end.

Definition const_to_bv (c : Constant) : M State BV := const_to_bv_at const_fuel c.

Definition operand_to_bv (op : Operand) : M State BV :=
  match op with
  | ConstantOperand c => const_to_bv c
  | LocalOperand name _ => s ← get; lift (lookup_var (varmap s) (cur_fn s) name)
  | MetadataOperand => panic "Can't convert to BV"
  end.

(** ** Function pointers *)

(** [PossibleSolutions<Callable>]; the set is a list without duplicates
    with respect to [PartialEq for Callable]. *)
Inductive PossibleCallables := ExactlyC (v : list Callable) | AtLeastC (v : list Callable).

Definition insert_callable (cs : list Callable) (c : Callable) : list Callable :=
  if existsb (callable_eqb c) cs then cs else cs ++ [c].

Definition interpret_as_function_ptr (bv : BV) (n : Z) : M State PossibleCallables :=
  if n =? 0 then panic "not implemented: n == 0 in interpret_as_function_ptr"
  else
    addrs ← match as_u64 bv with
            | Some addr => mret [addr]
            | None =>
                s ← get;
                cached ← match function_ptr_cache s !! loc_key (cur_loc s) with
                         | Some addr =>
                             b ← bvs_must_be_equal bv (from_u64 addr (get_width bv));
                             mret (if (b : bool) then Some addr else None)
                         | None => mret None
                         end;
                match cached with
                | Some addr => mret [addr]
                | None =>
                    ps ← get_possible_solutions_for_bv bv n;
                    ps ← lift (expect "called `Option::unwrap()` on a `None` value" (as_u64_solutions ps));
                    match ps with
                    | Exactly v => mret (elements v)
                    | AtLeast v => mret (elements v)
                    end
                end
            end;
    _ ← match addrs with
        | [addr] => modify (fun s => set_function_ptr_cache
                              (<[loc_key (cur_loc s) := addr]> (function_ptr_cache s)) s)
        | _ => mret tt
        end;
    s ← get;
    callables ← lift (mapO (fun addr =>
                  ok_or (FailedToResolveFunctionPointer addr)
                    (get_func_for_address (global_allocations s) addr (module (cur_loc s)))) addrs);
    let callables := foldl insert_callable [] callables in
    if n <? Z.of_nat (length callables) then mret (AtLeastC callables) else mret (ExactlyC callables).

Definition get_pointer_to_function (funcname : string) (s : State) : option BV :=
  get_addr <$> get_global_allocation (global_allocations s) (NameStr funcname) (module (cur_loc s)).

Definition get_pointer_to_function_hook (funcname : string) (s : State) : option BV :=
  get_hook_for (function_hooks (config s)) funcname ≫= get_function_hook_address (global_allocations s).

Definition get_func_by_name (funcname : string) : M State (option (Function_ * Module_)) :=
  s ← get;
  match get_global_allocation (global_allocations s) (NameStr funcname) (module (cur_loc s)) with
  | Some (GAFunction func module _) => mret (Some (func, module))
  | Some (GAVariable _ _ _) => panic "get_func_by_name: refers to a global variable, not a function"
  | None => mret None
  end.

(** ** Creating and duplicating states *)

Definition state_new (project : Project) (start_loc : Location) (cfg : Config) : outcome State :=
  let cfg := match demangling cfg with
             | None => set_demangling (Some (autodetect project)) cfg
             | Some _ => cfg
             end in
  vm ← varmap_new (loop_bound cfg);
  let '(m, sol) := new_uninitialized (match null_pointer_checking cfg with
                                      | NPSimple => true
                                      | NPSplitPath => true
                                      | NPNone => false
                                      end) None solver_new in
  ihooks ← intrinsic_hooks_new;
  let state := {| solver := sol; config := cfg; cur_loc := start_loc; varmap := vm; mem := m;
                  allocator := alloc_new; global_allocations := ga_new; intrinsic_hooks := ihooks;
                  stack := []; backtrack_points := []; path := [];
                  mem_watchpoints := Watchpoints.from_iter (map_to_list (initial_mem_watchpoints cfg));
                  function_ptr_cache := ∅ |} in
  let '(r, state) :=
    (_ ← forM (filter (fun '(var, _) => is_Some (gv_initializer var)) (all_global_vars project))
           (fun '(var, module) =>
              match gv_ty var with
              | PointerType pointee_type =>
                  sz ← lift (size_opaque_aware pointee_type project);
                  size_bits ← lift (expect "Global variable has a struct type which is opaque in the entire Project" sz);
                  let size_bits := if size_bits =? 0 then 8 else size_bits in
                  addr ← allocate size_bits;
                  s ← get;
                  ga ← lift (allocate_global_var (global_allocations s) var module addr);
                  modify (set_global_allocations ga)
              | _ => panic "Global variable has non-pointer type"
              end);
     _ ← forM (all_functions project) (fun '(func, module) =>
           addr ← raw_alloc 64;
           s ← get;
           ga ← lift (allocate_function (global_allocations s) func module addr (from_u64 addr 64));
           modify (set_global_allocations ga));
     s ← get;
     forM (get_all_hooks (function_hooks (config s))) (fun '(_, hook) =>
       addr ← raw_alloc 64;
       modify (fun s => set_global_allocations
                 (allocate_function_hook (global_allocations s) hook addr (from_u64 addr 64)) s)) : M State unit)
      state in
  _ ← r; mret state.

Definition fork (self : State) : outcome State :=
  let new_solver := duplicate (solver self) in
  vm ← VarMap.change_solver (varmap self) new_solver;
  m ← mem_change_solver (mem self) new_solver;
  ga ← ga_change_solver (global_allocations self) new_solver;
  mret (set_solver new_solver (set_global_allocations ga (set_mem m (set_varmap vm self)))).

End operands.
