(* ===== verification/HookUtils.v ===== *)
(** * HookUtils: helpers for hooks (src/src/alloc_utils.rs, src/src/hook_utils.rs)

    [malloc] and its relatives, [memset] and [memcpy] on the symbolic memory,
    and the choice of a length for the latter two. *)
From S2P Require Import Prelude Bits Backend SolverUtils MemorySpec Alloc LLVMIR Project Layout VarMap FunctionHooks GlobalAllocations Config State Operands.

Open Scope Z_scope.

Section utils.
Context `{Ops : BackendOps} `{MOps : !MemoryOps} `{L : LLVM} `{CF : ConstFuel}.

(** ** src/src/alloc_utils.rs *)

(** [1 << 20] *)
Definition MAX_ALLOCATION_SIZE_BYTES : Z := 1048576.

Definition try_as_u64 (op : Operand) : option Z :=
  match op with
  | ConstantOperand (CInt _ value) => Some value
  | _ => None
  end.

Definition malloc (num_bytes : Operand) : M State BV :=
  let num_bytes := default MAX_ALLOCATION_SIZE_BYTES (try_as_u64 num_bytes) in
  num_bits ← lift (u64_mul num_bytes 8);
  allocate num_bits.

Definition zalloc (num_bytes : Operand) : M State BV :=
  let num_bytes := default MAX_ALLOCATION_SIZE_BYTES (try_as_u64 num_bytes) in
  num_bits ← lift (u64_mul num_bytes 8);
  addr ← allocate num_bits;
  _ ← write addr (bv_zero (as_u32 num_bits));
  mret addr.

Definition calloc (a b : Operand) : M State BV :=
  num_bytes ← match try_as_u64 a, try_as_u64 b with
              | Some a, Some b => lift (u64_mul a b)
              | _, _ => mret MAX_ALLOCATION_SIZE_BYTES
              end;
  num_bits ← lift (u64_mul num_bytes 8);
  addr ← allocate num_bits;
  _ ← write addr (bv_zero (as_u32 num_bits));
  mret addr.

Definition realloc (addr num_bytes : Operand) : M State BV :=
  addr ← operand_to_bv addr;
  let new_size := default MAX_ALLOCATION_SIZE_BYTES (try_as_u64 num_bytes) in
  old ← get_allocation_size addr;
  old_size ← lift (ok_or (OtherError "realloc: failed to get old allocation size") old);
  if new_size <=? old_size then mret addr
  else
    new_addr ← allocate new_size;
    contents ← read addr (as_u32 old_size);
    _ ← write new_addr contents;
    mret new_addr.

(** ** src/src/hook_utils.rs *)

Inductive MemcpyLength := ConcreteLen (len : Z) | SymbolicLen.

Definition unwrap {A} (o : option A) : outcome A :=
  expect "called `Option::unwrap()` on a `None` value" o.

(** [v.iter().map(|val| val.as_u64().unwrap()).find(|val| *val <= max)] *)
Fixpoint find_at_most (max : Z) (vals : list BVSolution) : outcome (option Z) :=
  match vals with
  | [] => Ok None
  | v :: vals =>
      x ← unwrap (sol_as_u64 v);
      if x <=? max then mret (Some x) else find_at_most max vals
  end.

Fixpoint get_memcpy_length (num_bytes : BV) (concretize : Concretize) : M State MemcpyLength :=
  ps ← get_possible_solutions_for_bv num_bytes 1;
  s ← get;
  match ps with
  | Exactly v =>
      sol ← lift (ok_or Unsat (head (elements v)));
      single_val ← lift (unwrap (sol_as_u64 sol));
      match max_memcpy_length (config s) with
      | Some max_len =>
          if max_len <? single_val
          then err (OtherError "Encountered a memcpy/memset/memmove larger than max_memcpy_length")
          else mret (ConcreteLen single_val)
      | None => mret (ConcreteLen single_val)
      end
  | AtLeast v =>
      _ ← match max_memcpy_length (config s) with
          | Some max_len =>
              let max_len_bv := from_u64 max_len (get_width num_bytes) in
              b ← sat_with_extra_constraints [ulte num_bytes max_len_bv];
              if negb b then
                sol ← lift (unwrap (head (elements v)));
                _ ← lift (unwrap (sol_as_u64 sol));
                err (OtherError "Encountered a memcpy/memset/memmove with multiple possible lengths, but all of them are larger than max_memcpy_length")
              else
                b ← sat_with_extra_constraints [ugt num_bytes max_len_bv];
                if (b : bool) then assert_bv (ulte num_bytes max_len_bv) else mret tt
          | None => mret tt
          end;
      let finish (num_bytes_concrete : Z) : M State MemcpyLength :=
        _ ← assert_bv (bv_eq num_bytes (from_u64 num_bytes_concrete (get_width num_bytes)));
        mret (ConcreteLen num_bytes_concrete) in
      match concretize with
      | Arbitrary =>
          val ← match max_memcpy_length (config s) with
                | None =>
                    sol ← lift (unwrap (head (elements v)));
                    lift (unwrap (sol_as_u64 sol))
                | Some max_len =>
                    r ← lift (find_at_most max_len (elements v));
                    match r with
                    | Some val => mret val
                    | None =>
                        sol ← get_a_solution_for_bv num_bytes;
                        sol ← lift (unwrap sol);
                        lift (unwrap (sol_as_u64 sol))
                    end
                end;
          finish val
      | Minimum => r ← min_possible_solution_for_bv_as_u64 num_bytes; val ← lift (unwrap r); finish val
      | Maximum => r ← max_possible_solution_for_bv_as_u64 num_bytes; val ← lift (unwrap r); finish val
      | Prefer val backup =>
          b ← bvs_can_be_equal num_bytes (from_u64 val (get_width num_bytes));
          if (b : bool) then finish val
          else
            b ← sat;
            if negb b then err Unsat else get_memcpy_length num_bytes backup
      | Symbolic => mret SymbolicLen
      end
  end.

(** [8 * u32::try_from(length_bytes).map_err(..)?] *)
Definition memset_width (length_bytes : Z) : outcome Z :=
  if length_bytes <? 2 ^ 32 then u32_mul 8 length_bytes else Err (OtherError "memset too big").

(** [for _ in 0 ..= max_num_bytes { .. }] *)
Fixpoint memset_loop (n : nat) (val num_bytes addr bytes_written : BV) : M State unit :=
  match n with
  | O => mret tt
  | S n =>
      old_val ← read addr 8;
      let should_write := ugt num_bytes bytes_written in
      _ ← write addr (cond_bv should_write val old_val);
      memset_loop n val num_bytes (bv_inc addr) (bv_inc bytes_written)
  end.

Definition memset_bv (addr val num_bytes : BV) : M State BV :=
  let val := if 8 <? get_width val then slice val 7 0 else val in
  s ← get;
  len ← get_memcpy_length num_bytes (concretize_memcpy_lengths (config s));
  _ ← match len with
      | ConcreteLen length_bytes =>
          if length_bytes =? 0 then mret tt
          else
            _ ← lift (assert_ "assert_eq!(val.get_width(), 8)" (get_width val =? 8));
            is_zero ← bvs_must_be_equal val (bv_zero 8);
            big_val ← (if (is_zero : bool) then w ← lift (memset_width length_bytes); mret (bv_zero w)
                       else
                         is_ones ← bvs_must_be_equal val (bv_ones 8);
                         if (is_ones : bool) then w ← lift (memset_width length_bytes); mret (bv_ones w)
                         else lift (reduceO bv_concat (replicate (Z.to_nat length_bytes) val)));
            write addr big_val
      | SymbolicLen =>
          r ← max_possible_solution_for_bv_as_u64 num_bytes;
          max_num_bytes ← lift (unwrap r);
          memset_loop (S (Z.to_nat max_num_bytes)) val num_bytes addr (bv_zero (get_width num_bytes))
      end;
  mret addr.

Definition memset (addr val num_bytes : Operand) : M State BV :=
  addr ← operand_to_bv addr;
  val ← operand_to_bv val;
  num_bytes ← operand_to_bv num_bytes;
  memset_bv addr val num_bytes.

Fixpoint memcpy_loop (n : nat) (num_bytes src_addr dest_addr bytes_written : BV) : M State unit :=
  match n with
  | O => mret tt
  | S n =>
      src_val ← read src_addr 8;
      dst_val ← read dest_addr 8;
      let should_write := ugt num_bytes bytes_written in
      _ ← write dest_addr (cond_bv should_write src_val dst_val);
      memcpy_loop n num_bytes (bv_inc src_addr) (bv_inc dest_addr) (bv_inc bytes_written)
  end.

Definition memcpy_bv (dest src num_bytes : BV) : M State BV :=
  s ← get;
  len ← get_memcpy_length num_bytes (concretize_memcpy_lengths (config s));
  _ ← match len with
      | ConcreteLen length_bytes =>
          if length_bytes =? 0 then mret tt
          else
            bits ← lift (u32_mul (as_u32 length_bytes) 8);
            val ← read src bits;
            write dest val
      | SymbolicLen =>
          r ← max_possible_solution_for_bv_as_u64 num_bytes;
          max_num_bytes ← lift (unwrap r);
          memcpy_loop (S (Z.to_nat max_num_bytes)) num_bytes src dest (bv_zero (get_width num_bytes))
      end;
  mret dest.

Definition memcpy (dest src num_bytes : Operand) : M State BV :=
  dest ← operand_to_bv dest;
  src ← operand_to_bv src;
  num_bytes ← operand_to_bv num_bytes;
  memcpy_bv dest src num_bytes.

End utils.
