(* ===== verification/Hooks.v ===== *)
(** * Hooks: the built-in hooks (src/src/hooks/*.rs, src/src/function_hooks.rs)

    The bodies of the hooks that [FunctionHooks] names.  Hooks and callbacks
    supplied by the user of the library are the fields of [UserCode]. *)
From S2P Require Import Prelude Bits Backend SolverUtils MemorySpec Alloc LLVMIR Project Layout VarMap FunctionHooks GlobalAllocations Config State Operands HookUtils.

Open Scope Z_scope.

Section hooks.
Context `{Ops : BackendOps} `{MOps : !MemoryOps} `{L : LLVM} `{CF : ConstFuel}.

Abbreviation hook_result := (M State (ReturnValue BV)).

(** [assert_eq!(call.get_arguments().len(), n)] *)
Definition assert_args (call : CallInstr) (n : nat) : M State unit :=
  lift (assert_ "assert_eq!(call.get_arguments().len(), ..)" (length (get_arguments call) =? n)%nat).
(** [&call.get_arguments()[i].0] *)
Definition arg (call : CallInstr) (i : nat) : M State Operand :=
  lift (expect "index out of bounds" (get_arguments call !! i)).

Definition is_integer_type (ty : Type_) : bool := match ty with IntegerType _ => true | _ => false end.
Definition is_pointer_type (ty : Type_) : bool := match ty with PointerType _ => true | _ => false end.
Definition expect_type (what : string) (b : bool) : M State unit :=
  if b then mret tt else err (OtherError what).
Definition i8_pointer : Type_ := PointerType (IntegerType 8).

(** ** hooks/allocation.rs *)

Definition malloc_hook (call : CallInstr) : hook_result :=
  _ ← assert_args call 1;
  bytes ← arg call 0;
  _ ← expect_type "malloc_hook: expected argument to have integer type" (is_integer_type (operand_type bytes));
  _ ← expect_type "malloc_hook: expected return type to be a pointer type" (is_pointer_type (call_type call));
  addr ← malloc bytes;
  mret (Return addr).

Definition calloc_hook (call : CallInstr) : hook_result :=
  _ ← assert_args call 2;
  num ← arg call 0;
  sz ← arg call 1;
  _ ← expect_type "calloc_hook: expected first argument to have integer type" (is_integer_type (operand_type num));
  _ ← expect_type "calloc_hook: expected second argument to have integer type" (is_integer_type (operand_type sz));
  _ ← expect_type "calloc_hook: expected return type to be a pointer type" (is_pointer_type (call_type call));
  addr ← calloc num sz;
  mret (Return addr).

Definition free_hook (call : CallInstr) : hook_result := mret ReturnVoid.

Definition realloc_hook (call : CallInstr) : hook_result :=
  _ ← assert_args call 2;
  addr ← arg call 0;
  new_size ← arg call 1;
  _ ← expect_type "realloc_hook: expected first argument to be a pointer type" (is_pointer_type (operand_type addr));
  _ ← expect_type "realloc_hook: expected second argument to be an integer type" (is_integer_type (operand_type new_size));
  _ ← expect_type "realloc_hook: expected return type to be a pointer type" (is_pointer_type (call_type call));
  addr ← realloc addr new_size;
  mret (Return addr).

(** ** hooks/exceptions.rs *)

Definition cxa_allocate_exception (call : CallInstr) : hook_result :=
  _ ← assert_args call 1;
  bytes ← arg call 0;
  _ ← expect_type "__cxa_allocate_exception: expected argument to have integer type" (is_integer_type (operand_type bytes));
  _ ← expect_type "__cxa_allocate_exception: expected return type to be a pointer type" (is_pointer_type (call_type call));
  addr ← zalloc bytes;
  mret (Return addr).

Definition cxa_throw (call : CallInstr) : hook_result :=
  _ ← assert_args call 3;
  thrown_ptr ← arg call 0;
  type_info ← arg call 1;
  _ ← expect_type "__cxa_throw: expected first argument to be some pointer type" (is_pointer_type (operand_type thrown_ptr));
  _ ← expect_type "__cxa_throw: expected second argument to be some pointer type" (is_pointer_type (operand_type type_info));
  thrown_ptr ← operand_to_bv thrown_ptr;
  mret (Throw thrown_ptr).

Definition cxa_begin_catch (call : CallInstr) : hook_result :=
  _ ← assert_args call 1;
  a ← arg call 0;
  a ← operand_to_bv a;
  mret (Return a).

Definition cxa_end_catch (call : CallInstr) : hook_result := mret ReturnVoid.

Definition llvm_eh_typeid_for (call : CallInstr) : hook_result :=
  _ ← assert_args call 1;
  retval ← new_bv_with_name (NameStr "llvm_eh_typeid_for_retval") 32;
  _ ← assert_bv (sgte retval (bv_zero 32));
  mret (Return retval).

(** ** hooks/intrinsics.rs *)

(** The value of a call that may return its first argument or nothing. *)
Definition pointer_or_void (what : string) (call : CallInstr) (addr : BV) : hook_result :=
  match call_type call with
  | VoidType => mret ReturnVoid
  | PointerType _ => mret (Return addr)
  | _ => err (OtherError what)
  end.

Definition symex_memset (call : CallInstr) : hook_result :=
  _ ← assert_args call 4;
  addr ← arg call 0;
  val ← arg call 1;
  num_bytes ← arg call 2;
  _ ← lift (assert_ "assert_eq!(addr.get_type(), i8*)" (type_eqb (operand_type addr) i8_pointer));
  addr ← memset addr val num_bytes;
  pointer_or_void "Unexpected return type for a memset" call addr.

Definition symex_memcpy (call : CallInstr) : hook_result :=
  dest ← arg call 0;
  src ← arg call 1;
  num_bytes ← arg call 2;
  _ ← lift (assert_ "assert_eq!(dest.get_type(), i8*)" (type_eqb (operand_type dest) i8_pointer));
  _ ← lift (assert_ "assert_eq!(src.get_type(), i8*)" (type_eqb (operand_type src) i8_pointer));
  dest ← memcpy dest src num_bytes;
  pointer_or_void "Unexpected return type for a memcpy or memmove" call dest.

(** [arg.slice(8 * i + 7, 8 * i)] for each byte, then
    [byte_0.concat(&byte_1).concat(..)] *)
Definition bswap_bytes (a : BV) (k : nat) : outcome BV :=
  reduceO bv_concat ((fun i => slice a (8 * Z.of_nat i + 7) (8 * Z.of_nat i)) <$> seq 0 k).

Definition symex_bswap (call : CallInstr) : hook_result :=
  _ ← assert_args call 1;
  a ← arg call 0;
  let argty := operand_type a in
  let retty := call_type call in
  if negb (type_eqb argty retty)
  then err (OtherError "Expected bswap argument to be the same type as its return type")
  else
    a ← operand_to_bv a;
    match argty with
    | IntegerType bits =>
        if (bits =? 16) || (bits =? 32) || (bits =? 48) || (bits =? 64) then
          _ ← lift (assert_ "assert_eq!(arg.get_width(), bits)" (get_width a =? bits));
          Return <$> lift (bswap_bytes a (Z.to_nat (bits / 8)))
        else err (UnsupportedInstruction "llvm.bswap with argument type")
    | _ => err (UnsupportedInstruction "llvm.bswap with argument type")
    end.

Definition symex_objectsize (call : CallInstr) : hook_result :=
  a ← arg call 1;
  arg1 ← operand_to_bv a;
  width ← lift (size (call_type call));
  let zero := bv_zero (as_u32 width) in
  let minusone := bv_ones (as_u32 width) in
  mret (Return (cond_bv arg1 zero minusone)).

Definition symex_assume (call : CallInstr) : hook_result :=
  _ ← assert_args call 1;
  a ← arg call 0;
  _ ← expect_type "symex_assume: expected arg to be of type i1"
        (match operand_type a with IntegerType bits => bits =? 1 | _ => false end);
  s ← get;
  _ ← (if trust_llvm_assumes (config s) then b ← operand_to_bv a; assert_bv b else mret tt);
  mret ReturnVoid.

(** The two operands of an arithmetic intrinsic. *)
Definition same_type_args (what : string) (call : CallInstr) : M State (BV * BV) :=
  _ ← assert_args call 2;
  arg0 ← arg call 0;
  arg1 ← arg call 1;
  if negb (type_eqb (operand_type arg0) (operand_type arg1)) then err (OtherError what)
  else
    arg0 ← operand_to_bv arg0;
    arg1 ← operand_to_bv arg1;
    mret (arg0, arg1).

(** The body shared by the six [*_with_overflow] hooks. *)
Definition with_overflow (op ovf : BV -> BV -> BV) (what : string) (call : CallInstr) : hook_result :=
  '(arg0, arg1) ← same_type_args what call;
  let result := op arg0 arg1 in
  let overflow := ovf arg0 arg1 in
  _ ← lift (assert_ "assert_eq!(overflow.get_width(), 1)" (get_width overflow =? 1));
  mret (Return (bv_concat overflow result)).

Definition symex_uadd_with_overflow : CallInstr -> hook_result :=
  with_overflow bv_add uaddo "symex_uadd_with_overflow: expected arguments to be of the same type".
Definition symex_sadd_with_overflow : CallInstr -> hook_result :=
  with_overflow bv_add saddo "symex_sadd_with_overflow: expected arguments to be of the same type".
Definition symex_usub_with_overflow : CallInstr -> hook_result :=
  with_overflow bv_sub usubo "symex_usub_with_overflow: expected arguments to be of the same type".
Definition symex_ssub_with_overflow : CallInstr -> hook_result :=
  with_overflow bv_sub ssubo "symex_ssub_with_overflow: expected arguments to be of the same type".
Definition symex_umul_with_overflow : CallInstr -> hook_result :=
  with_overflow bv_mul umulo "symex_umul_with_overflow: expected arguments to be of the same type".
Definition symex_smul_with_overflow : CallInstr -> hook_result :=
  with_overflow bv_mul smulo "symex_smul_with_overflow: expected arguments to be of the same type".

(** The body shared by the four [*_sat] hooks. *)
Definition saturating (op : BV -> BV -> outcome BV) (what : string) (call : CallInstr) : hook_result :=
  '(arg0, arg1) ← same_type_args what call;
  Return <$> lift (op arg0 arg1).

Definition symex_uadd_sat : CallInstr -> hook_result :=
  saturating uadds "symex_uadd_sat: expected arguments to be of the same type".
Definition symex_sadd_sat : CallInstr -> hook_result :=
  saturating sadds "symex_sadd_sat: expected arguments to be of the same type".
Definition symex_usub_sat : CallInstr -> hook_result :=
  saturating usubs "symex_usub_sat: expected arguments to be of the same type".
Definition symex_ssub_sat : CallInstr -> hook_result :=
  saturating ssubs "symex_ssub_sat: expected arguments to be of the same type".

(** ** function_hooks.rs *)

Definition generic_stub_hook (call : CallInstr) : hook_result :=
  match call_type call with
  | VoidType => mret ReturnVoid
  | ty =>
      width ← lift (size ty);
      bv ← new_bv_with_name (NameStr "generic_stub_hook_retval") (as_u32 width);
      mret (Return bv)
  end.

Definition abort_hook (call : CallInstr) : hook_result := mret Abort.

(** The user's closures, by number. *)
Class UserCode := {
  user_hook : Z -> Project -> CallInstr -> M State (ReturnValue BV);
  instruction_callback : Z -> Instruction -> M State unit;
  terminator_callback : Z -> Terminator -> M State unit
}.
Context `{UC : UserCode}.

Definition call_hook (h : FunctionHook) (proj : Project) (call : CallInstr) : hook_result :=
  match hook h with
  | H_malloc => malloc_hook call
  | H_calloc => calloc_hook call
  | H_realloc => realloc_hook call
  | H_free => free_hook call
  | H_cxa_allocate_exception => cxa_allocate_exception call
  | H_cxa_throw => cxa_throw call
  | H_cxa_begin_catch => cxa_begin_catch call
  | H_cxa_end_catch => cxa_end_catch call
  | H_llvm_eh_typeid_for => llvm_eh_typeid_for call
  | H_abort => abort_hook call
  | H_generic_stub => generic_stub_hook call
  | H_memset => symex_memset call
  | H_memcpy => symex_memcpy call
  | H_bswap => symex_bswap call
  | H_objectsize => symex_objectsize call
  | H_assume => symex_assume call
  | H_uadd_with_overflow => symex_uadd_with_overflow call
  | H_sadd_with_overflow => symex_sadd_with_overflow call
  | H_usub_with_overflow => symex_usub_with_overflow call
  | H_ssub_with_overflow => symex_ssub_with_overflow call
  | H_umul_with_overflow => symex_umul_with_overflow call
  | H_smul_with_overflow => symex_smul_with_overflow call
  | H_uadd_sat => symex_uadd_sat call
  | H_sadd_sat => symex_sadd_sat call
  | H_usub_sat => symex_usub_sat call
  | H_ssub_sat => symex_ssub_sat call
  | H_user k => user_hook k proj call
  end.

End hooks.
