(* ===== verification/SymexInstr.v ===== *)
(** * SymexInstr: non-terminator instructions (src/src/symex.rs)

    One definition per instruction that does not transfer control, with the
    vector, aggregate and offset helpers they use.  Calls, terminators and
    the exploration itself are in Symex.v. *)
From S2P Require Import Prelude Bits Backend SolverUtils MemorySpec Alloc LLVMIR Project Layout VarMap FunctionHooks GlobalAllocations Config State Operands.

Open Scope Z_scope.

(** [u32] addition with the overflow check of a debug build. *)
Definition u32_add (a b : Z) : outcome Z :=
  if a + b <? 2 ^ 32 then Ok (a + b) else Panic "attempt to add with overflow".

Section instructions.
Context `{Ops : BackendOps} `{MOps : !MemoryOps} `{L : LLVM} `{CF : ConstFuel}.

(** [.reduce(|a, b| b.concat(&a))] *)
Definition reduce_concat (xs : list BV) : option BV :=
  match xs with
  | [] => None
  | x :: xs => Some (foldl (fun a b => bv_concat b a) x xs)
  end.

(** [v.slice((i + 1) * el_size - 1, i * el_size)] *)
Definition element (v : BV) (el_size i : Z) : outcome BV :=
  i1 ← u32_add i 1;
  hi ← u32_mul i1 el_size;
  hi ← u32_sub hi 1;
  lo ← u32_mul i el_size;
  mret (slice v hi lo).

(** [assert_eq!(size % num_elements, 0)], which divides by [num_elements] *)
Definition assert_divides (size_ num_elements : Z) : outcome unit :=
  if num_elements =? 0 then Panic "attempt to calculate the remainder with a divisor of zero"
  else assert_ "assert_eq!(in_vector_size % num_elements, 0)" (size_ mod num_elements =? 0).

Definition binop_to_bvbinop (bop : BinOpKind) : outcome (BV -> BV -> BV) :=
  match bop with
  | OpAdd => Ok bv_add
  | OpSub => Ok bv_sub
  | OpMul => Ok bv_mul
  | OpUDiv => Ok bv_udiv
  | OpSDiv => Ok bv_sdiv
  | OpURem => Ok bv_urem
  | OpSRem => Ok bv_srem
  | OpAnd => Ok bv_and
  | OpOr => Ok bv_or
  | OpXor => Ok bv_xor
  | OpShl => Ok sll
  | OpLShr => Ok srl
  | OpAShr => Ok sra
  | _ => Err (UnsupportedInstruction "BinaryOp")
  end.

Definition unary_on_vector (in_vector : BV) (num_elements : Z) (op : BV -> outcome BV) : outcome BV :=
  let in_vector_size := get_width in_vector in
  _ ← assert_divides in_vector_size num_elements;
  let in_el_size := in_vector_size / num_elements in
  out_scalars ← mapO (fun i => s ← element in_vector in_el_size i; op s) (range num_elements);
  ok_or (MalformedInstruction "Vector operation with 0 elements") (reduce_concat out_scalars).

Definition binary_on_vector (in_vector_0 in_vector_1 : BV) (num_elements : Z) (op : BV -> BV -> BV)
    : outcome BV :=
  let in_vector_0_size := get_width in_vector_0 in
  let in_vector_1_size := get_width in_vector_1 in
  if negb (in_vector_0_size =? in_vector_1_size)
  then Err (MalformedInstruction "Binary operation's vector operands are different total sizes")
  else
    let in_vector_size := in_vector_0_size in
    _ ← assert_divides in_vector_size num_elements;
    let in_el_size := in_vector_size / num_elements in
    out_scalars ← mapO (fun i =>
                     s0 ← element in_vector_0 in_el_size i;
                     s1 ← element in_vector_1 in_el_size i;
                     mret (op s0 s1)) (range num_elements);
    ok_or (MalformedInstruction "Binary operation on vectors with 0 elements") (reduce_concat out_scalars).

(** The [HasResult] view of an instruction. *)
Definition result (i : Instruction) (dest : Name) : HasResult :=
  {| result_type := instr_type i; result_name := dest |}.

Definition symex_binop (bop : BinaryOp) : M State unit :=
  let op0 := bop_operand0 bop in
  let op1 := bop_operand1 bop in
  let op0_type := operand_type op0 in
  let op1_type := operand_type op1 in
  if negb (type_eqb op0_type op1_type)
  then err (MalformedInstruction "Expected binary op to have two operands of same type")
  else
    bvop0 ← operand_to_bv op0;
    bvop1 ← operand_to_bv op1;
    bvoperation ← lift (binop_to_bvbinop (bop_kind bop));
    match op0_type with
    | IntegerType _ => record_bv_result (result (IBinaryOp bop) (bop_dest bop)) (bvoperation bvop0 bvop1)
    | VectorType (IntegerType _) num_elements =>
        v ← lift (binary_on_vector bvop0 bvop1 (as_u32 num_elements) bvoperation);
        record_bv_result (result (IBinaryOp bop) (bop_dest bop)) v
    | VectorType _ _ =>
        err (MalformedInstruction "Expected binary operation's vector operands to have integer elements")
    | _ => err (MalformedInstruction "Expected binary operation to have operands of type integer or vector of integers")
    end.

Definition icmp_operands_ok (ty : Type_) : bool :=
  match ty with IntegerType _ | VectorType _ _ | PointerType _ => true | _ => false end.

Definition symex_icmp (icmp : ICmp) : M State unit :=
  bvfirstop ← operand_to_bv (icmp_operand0 icmp);
  bvsecondop ← operand_to_bv (icmp_operand1 icmp);
  let bvpred := intpred_to_bvpred (icmp_predicate icmp) in
  let op0_type := operand_type (icmp_operand0 icmp) in
  let op1_type := operand_type (icmp_operand1 icmp) in
  if negb (type_eqb op0_type op1_type)
  then err (MalformedInstruction "Expected icmp to compare two operands of same type")
  else
    let bad_operands := err (MalformedInstruction "Expected ICmp to have operands of type integer, pointer, or vector of integers") in
    let bad_result := err (MalformedInstruction "Expected ICmp result type to be i1 or vector of i1") in
    match instr_type (IICmp icmp) with
    | IntegerType bits =>
        if bits =? 1 then
          if icmp_operands_ok op0_type
          then record_bv_result (result (IICmp icmp) (icmp_dest icmp)) (bvpred bvfirstop bvsecondop)
          else bad_operands
        else bad_result
    | VectorType (IntegerType bits) num_elements =>
        if bits =? 1 then
          if icmp_operands_ok op0_type then
            let zero := bv_zero 1 in
            let one := bv_one 1 in
            final_bv ← lift (binary_on_vector bvfirstop bvsecondop (as_u32 num_elements)
                               (fun a b => cond_bv (bvpred a b) one zero));
            record_bv_result (result (IICmp icmp) (icmp_dest icmp)) final_bv
          else bad_operands
        else bad_result
    | _ => bad_result
    end.

(** The element size of a vector result with as many elements as the operand. *)
Definition out_element_size (what : string) (out_type : Type_) (num_elements : Z) : outcome Z :=
  match out_type with
  | VectorType out_el_type out_num_els =>
      if negb (out_num_els =? num_elements) then Err (MalformedInstruction what)
      else as_u32 <$> size out_el_type
  | _ => Err (MalformedInstruction what)
  end.

Definition symex_zext (z : UnaryOp) : M State unit :=
  match operand_type (un_operand z) with
  | IntegerType bits =>
      bvop ← operand_to_bv (un_operand z);
      let source_size := bits in
      dest_size ← lift (size (instr_type (IZExt z)));
      d ← lift (u32_sub (as_u32 dest_size) source_size);
      record_bv_result (result (IZExt z) (un_dest z)) (zext bvop d)
  | VectorType element_type num_elements =>
      in_vector ← operand_to_bv (un_operand z);
      in_el_size ← lift (size element_type);
      out_el_size ← lift (out_element_size "ZExt operand is a vector type" (instr_type (IZExt z)) num_elements);
      final_bv ← lift (unary_on_vector in_vector (as_u32 num_elements) (fun el =>
                         d ← u32_sub out_el_size (as_u32 in_el_size); mret (zext el d)));
      record_bv_result (result (IZExt z) (un_dest z)) final_bv
  | _ => err (MalformedInstruction "Expected ZExt operand type to be integer or vector of integers")
  end.

Definition symex_sext (z : UnaryOp) : M State unit :=
  match operand_type (un_operand z) with
  | IntegerType bits =>
      bvop ← operand_to_bv (un_operand z);
      let source_size := bits in
      dest_size ← lift (size (instr_type (ISExt z)));
      d ← lift (u32_sub (as_u32 dest_size) source_size);
      record_bv_result (result (ISExt z) (un_dest z)) (sext bvop d)
  | VectorType element_type num_elements =>
      in_vector ← operand_to_bv (un_operand z);
      in_el_size ← lift (size element_type);
      out_el_size ← lift (out_element_size "SExt operand is a vector type" (instr_type (ISExt z)) num_elements);
      final_bv ← lift (unary_on_vector in_vector (as_u32 num_elements) (fun el =>
                         d ← u32_sub out_el_size (as_u32 in_el_size); mret (sext el d)));
      record_bv_result (result (ISExt z) (un_dest z)) final_bv
  | _ => err (MalformedInstruction "Expected SExt operand type to be integer or vector of integers")
  end.

Definition symex_trunc (t : UnaryOp) : M State unit :=
  match operand_type (un_operand t) with
  | IntegerType _ =>
      bvop ← operand_to_bv (un_operand t);
      dest_size ← lift (size (instr_type (ITrunc t)));
      hi ← lift (u32_sub (as_u32 dest_size) 1);
      record_bv_result (result (ITrunc t) (un_dest t)) (slice bvop hi 0)
  | VectorType _ num_elements =>
      in_vector ← operand_to_bv (un_operand t);
      dest_el_size ← lift (out_element_size "Trunc operand is a vector type" (instr_type (ITrunc t)) num_elements);
      final_bv ← lift (unary_on_vector in_vector (as_u32 num_elements) (fun el =>
                         hi ← u32_sub dest_el_size 1; mret (slice el hi 0)));
      record_bv_result (result (ITrunc t) (un_dest t)) final_bv
  | _ => err (MalformedInstruction "Expected Trunc operand type to be integer or vector of integers")
  end.

(** [cast]: the instruction as a whole, for its type. *)
Definition symex_cast_op (i : Instruction) (cast : UnaryOp) : M State unit :=
  bvop ← operand_to_bv (un_operand cast);
  record_bv_result (result i (un_dest cast)) bvop.

Definition symex_load (load : Load) : M State unit :=
  bvaddr ← operand_to_bv (load_address load);
  dest_size ← lift (size (instr_type (ILoad load)));
  v ← read bvaddr (as_u32 dest_size);
  record_bv_result (result (ILoad load) (load_dest load)) v.

Definition symex_store (store : Store) : M State unit :=
  bvval ← operand_to_bv (store_value store);
  bvaddr ← operand_to_bv (store_address store);
  write bvaddr bvval.

(** The index into a struct type, which must be a constant int. *)
Definition operand_struct_index (index : Operand) : outcome Z :=
  match index with
  | ConstantOperand (CInt _ value) => Ok value
  | _ => Err (MalformedInstruction "Expected index into struct type to be constant")
  end.

Fixpoint gep_offset_recursive (indices : list Operand) (base_type : Type_) (result_bits : Z) : M State BV :=
  match indices with
  | [] => mret (bv_zero result_bits)
  | index :: indices =>
      match base_type with
      | PointerType _ | ArrayType _ _ | VectorType _ _ =>
          i ← operand_to_bv index;
          i ← lift (zero_extend_to_bits i result_bits);
          '(offset, nested_ty) ← lift (get_offset_bv_index base_type i);
          bv ← gep_offset_recursive indices nested_ty result_bits;
          mret (bv_add bv offset)
      | StructType _ _ =>
          i ← lift (operand_struct_index index);
          '(offset, nested_ty) ← lift (get_offset_constant_index base_type i);
          bv ← gep_offset_recursive indices nested_ty result_bits;
          mret (bv_add bv (from_u32 (as_u32 offset) result_bits))
      | NamedStructType _ ty =>
          r ← lift (ok_or (MalformedInstruction "get_offset on an opaque struct type") ty);
          actual_ty ← lift (expect "Failed to upgrade weak reference" (upgrade r));
          match actual_ty with
          | StructType _ _ =>
              i ← lift (operand_struct_index index);
              '(offset, nested_ty) ← lift (get_offset_constant_index actual_ty i);
              bv ← gep_offset_recursive indices nested_ty result_bits;
              mret (bv_add bv (from_u32 (as_u32 offset) result_bits))
          | _ => err (MalformedInstruction "Expected NamedStructType inner type to be a StructType")
          end
      | _ => panic "get_offset_recursive with base type"
      end
  end.

Definition symex_gep (gep : GetElementPtr) : M State unit :=
  match instr_type (IGetElementPtr gep) with
  | PointerType _ =>
      bvbase ← operand_to_bv (gep_address gep);
      offset ← gep_offset_recursive (gep_indices gep) (operand_type (gep_address gep)) (get_width bvbase);
      record_bv_result (result (IGetElementPtr gep) (gep_dest gep)) (bv_add bvbase offset)
  | VectorType _ _ => err (UnsupportedInstruction "GEP calculating a vector of pointers")
  | _ => err (MalformedInstruction "Expected GEP result type to be pointer or vector of pointers")
  end.

Definition symex_alloca (project : Project) (alloca : Alloca) : M State unit :=
  match alloca_num_elements alloca with
  | ConstantOperand (CInt _ num_elements) =>
      sz ← lift (size_opaque_aware (alloca_allocated_type alloca) project);
      element_size_bits ← lift (expect "Alloca with type which is opaque in the entire Project" sz);
      allocation_size_bits ← lift (u64_mul element_size_bits num_elements);
      let allocation_size_bits := if allocation_size_bits =? 0 then 8 else allocation_size_bits in
      allocated ← allocate allocation_size_bits;
      record_bv_result (result (IAlloca alloca) (alloca_dest alloca)) allocated
  | _ => err (UnsupportedInstruction "Alloca with num_elements not a constant int")
  end.

Definition symex_extractelement (ee : ExtractElement) : M State unit :=
  vector ← operand_to_bv (ee_vector ee);
  match ee_index ee with
  | ConstantOperand (CInt _ index) =>
      let index := as_u32 index in
      match operand_type (ee_vector ee) with
      | VectorType element_type num_elements =>
          if as_u32 num_elements <=? index
          then err (MalformedInstruction "ExtractElement index out of range")
          else
            el_size ← lift (size element_type);
            v ← lift (element vector (as_u32 el_size) index);
            record_bv_result (result (IExtractElement ee) (ee_dest ee)) v
      | _ => err (MalformedInstruction "Expected ExtractElement vector to be a vector type")
      end
  | _ => err (UnsupportedInstruction "ExtractElement with index not a constant int")
  end.

Definition overwrite_bv_segment (original_bv overwrite_data : BV) (low_bitindex high_bitindex : Z)
    : outcome BV :=
  let full_width := get_width original_bv in
  let highest_bit_index := full_width - 1 in
  _ ← assert_ "overwrite_bv_segment: high_bitindex is larger than highest valid bit index"
        (high_bitindex <=? highest_bit_index);
  _ ← assert_ "overwrite_bv_segment: high_bitindex is lower than low_bitindex"
        (low_bitindex <=? high_bitindex);
  let overwrite_width := get_width overwrite_data in
  _ ← assert_ "overwrite_bv_segment: provided overwrite_data has the wrong width"
        (overwrite_width =? high_bitindex - low_bitindex + 1);
  let zeroes := bv_zero overwrite_width in
  let mask_clear :=
    if high_bitindex =? highest_bit_index then
      if low_bitindex =? 0 then zeroes else bv_concat zeroes (bv_ones low_bitindex)
    else
      let top := bv_concat (bv_ones (highest_bit_index - high_bitindex)) zeroes in
      if low_bitindex =? 0 then top else bv_concat top (bv_ones low_bitindex) in
  top ← zero_extend_to_bits overwrite_data (full_width - low_bitindex);
  let mask_overwrite := if low_bitindex =? 0 then top else bv_concat top (bv_zero low_bitindex) in
  mret (bv_or (bv_and original_bv mask_clear) mask_overwrite).

Definition symex_insertelement (ie : InsertElement) : M State unit :=
  vector ← operand_to_bv (ie_vector ie);
  elt ← operand_to_bv (ie_element ie);
  match ie_index ie with
  | ConstantOperand (CInt _ index) =>
      let index := as_u32 index in
      match operand_type (ie_vector ie) with
      | VectorType element_type num_elements =>
          if as_u32 num_elements <=? index
          then err (MalformedInstruction "InsertElement index out of range")
          else
            let vec_size := get_width vector in
            sz ← lift (size element_type);
            let el_size := as_u32 sz in
            total ← lift (u32_mul el_size (as_u32 num_elements));
            _ ← lift (assert_ "assert_eq!(vec_size, el_size * num_elements)" (vec_size =? total));
            insertion_bitindex_low ← lift (u32_mul index el_size);
            i1 ← lift (u32_add index 1);
            hi ← lift (u32_mul i1 el_size);
            insertion_bitindex_high ← lift (u32_sub hi 1);
            with_insertion ← lift (overwrite_bv_segment vector elt insertion_bitindex_low insertion_bitindex_high);
            record_bv_result (result (IInsertElement ie) (ie_dest ie)) with_insertion
      | _ => err (MalformedInstruction "Expected InsertElement vector to be a vector type")
      end
  | _ => err (UnsupportedInstruction "InsertElement with index not a constant int")
  end.

Definition shuffle_mask (mask : Constant) : outcome (list Z) :=
  match mask with
  | CVector mask =>
      mapO (fun c =>
        match c with
        | CInt _ idx => Ok (as_u32 idx)
        | CUndef _ => Ok 0
        | _ => Err (UnsupportedInstruction "ShuffleVector with a mask entry which is not a Constant::Int or Constant::Undef")
        end) mask
  | CAggregateZero ty | CUndef ty =>
      match ty with
      | VectorType _ num_elements => Ok (replicate (Z.to_nat num_elements) 0)
      | _ => Err (MalformedInstruction "Expected ShuffleVector mask to have vector type")
      end
  | _ => Err (MalformedInstruction "Expected ShuffleVector mask to be a Constant::Vector, Constant::AggregateZero, or Constant::Undef")
  end.

Definition shuffle_element (op0 op1 : BV) (el_size num_elements idx : Z) : outcome BV :=
  if idx <? num_elements then element op0 el_size idx
  else element op1 el_size (idx - num_elements).

Definition symex_shufflevector (sv : ShuffleVector) : M State unit :=
  let op0_type := operand_type (sv_operand0 sv) in
  let op1_type := operand_type (sv_operand1 sv) in
  if negb (type_eqb op0_type op1_type)
  then err (MalformedInstruction "Expected ShuffleVector operands to be exactly the same type")
  else
    match op0_type with
    | VectorType element_type num_elements =>
        mask ← lift (shuffle_mask (sv_mask sv));
        op0 ← operand_to_bv (sv_operand0 sv);
        op1 ← operand_to_bv (sv_operand1 sv);
        if negb (get_width op0 =? get_width op1)
        then err (OtherError "ShuffleVector operands are the same type, but somehow we got two different sizes")
        else
          sz ← lift (size element_type);
          let el_size := as_u32 sz in
          let num_elements := as_u32 num_elements in
          total ← lift (u32_mul el_size num_elements);
          _ ← lift (assert_ "assert_eq!(op0.get_width(), el_size * num_elements)" (get_width op0 =? total));
          scalars ← lift (mapO (shuffle_element op0 op1 el_size num_elements) mask);
          final_bv ← lift (ok_or (MalformedInstruction "ShuffleVector mask had 0 elements") (reduce_concat scalars));
          record_bv_result (result (IShuffleVector sv) (sv_dest sv)) final_bv
    | _ => err (MalformedInstruction "Expected ShuffleVector operands to be vectors")
    end.

Fixpoint get_offset_recursive_const_indices (indices : list Z) (base_type : Type_) : outcome (Z * Z) :=
  match indices with
  | [] => s ← size base_type; mret (0, s)
  | index :: indices =>
      match base_type with
      | PointerType _ | ArrayType _ _ | VectorType _ _ | StructType _ _ =>
          '(offset, nested_ty) ← get_offset_constant_index base_type index;
          '(val, s) ← get_offset_recursive_const_indices indices nested_ty;
          v ← u64_add val offset;
          mret (v, s)
      | NamedStructType _ ty =>
          r ← ok_or (MalformedInstruction "get_offset on an opaque struct type") ty;
          actual_ty ← expect "Failed to upgrade weak reference" (upgrade r);
          match actual_ty with
          | StructType _ _ =>
              '(offset, nested_ty) ← get_offset_constant_index actual_ty index;
              '(val, s) ← get_offset_recursive_const_indices indices nested_ty;
              v ← u64_add val offset;
              mret (v, s)
          | _ => Err (MalformedInstruction "Expected NamedStructType inner type to be a StructType")
          end
      | _ => Panic "get_offset_recursive_const_indices with base type"
      end
  end.

Definition symex_extractvalue (ev : ExtractValue) : M State unit :=
  aggregate ← operand_to_bv (ev_aggregate ev);
  '(offset_bytes, size_bits) ← lift (get_offset_recursive_const_indices (ev_indices ev)
                                       (operand_type (ev_aggregate ev)));
  low_offset_bits ← lift (u64_mul offset_bytes 8);
  high_offset_bits ← lift (u64_add low_offset_bits size_bits);
  _ ← lift (assert_ "Trying to extractvalue out of bounds" (as_u32 high_offset_bits <=? get_width aggregate));
  hi ← lift (u64_sub high_offset_bits 1);
  record_bv_result (result (IExtractValue ev) (ev_dest ev))
    (slice aggregate (as_u32 hi) (as_u32 low_offset_bits)).

Definition symex_insertvalue (iv : InsertValue) : M State unit :=
  aggregate ← operand_to_bv (iv_aggregate iv);
  elt ← operand_to_bv (iv_element iv);
  '(offset_bytes, size_bits) ← lift (get_offset_recursive_const_indices (iv_indices iv)
                                       (operand_type (iv_aggregate iv)));
  low_offset_bits ← lift (u64_mul offset_bytes 8);
  hi ← lift (u64_add low_offset_bits size_bits);
  high_offset_bits ← lift (u64_sub hi 1);
  _ ← lift (assert_ "Trying to insertvalue out of bounds" (as_u32 high_offset_bits <=? get_width aggregate));
  new_aggregate ← lift (overwrite_bv_segment aggregate elt (as_u32 low_offset_bits) (as_u32 high_offset_bits));
  record_bv_result (result (IInsertValue iv) (iv_dest iv)) new_aggregate.

Definition symex_landing_pad (lp : LandingPad) (thrown_ptr type_index : BV) : M State unit :=
  match instr_type (ILandingPad lp) with
  | StructType [ty0; ty1] _ =>
      _ ← match ty0 with
          | PointerType _ =>
              sz ← lift (size ty0);
              lift (assert_ "Expected thrown_ptr to be a pointer" (get_width thrown_ptr =? as_u32 sz))
          | _ => err (MalformedInstruction "Expected landingpad result type to be a struct with first element a pointer")
          end;
      _ ← match ty1 with
          | IntegerType bits =>
              if bits =? 32 then mret tt
              else err (MalformedInstruction "Expected landingpad result type to be a struct with second element an i32")
          | _ => err (MalformedInstruction "Expected landingpad result type to be a struct with second element an i32")
          end;
      record_bv_result (result (ILandingPad lp) (lp_dest lp)) (bv_concat type_index thrown_ptr)
  | StructType _ _ => err (MalformedInstruction "Expected landingpad result type to be a struct of 2 elements")
  | _ => err (MalformedInstruction "Expected landingpad result type to be a struct")
  end.

Definition symex_phi (phi : Phi) : M State unit :=
  s ← get;
  let len := length (path s) in
  match path s !! (len - 2)%nat with
  | Some entry =>
      if (len <=? 1)%nat then panic "not yet implemented: starting in a block with Phi instructions"
      else
        let prev_bb := bb_name (bb entry) in
        chosen ← lift (ok_or (OtherError "Failed to find a Phi member matching previous BasicBlock")
                         (fst <$> List.find (fun '(_, bbname) => bool_decide (bbname = prev_bb)) (phi_incoming_values phi)));
        v ← operand_to_bv chosen;
        record_bv_result (result (IPhi phi) (phi_dest phi)) v
  | None => panic "not yet implemented: starting in a block with Phi instructions"
  end.

Definition symex_select (select : Select) : M State unit :=
  let truetype := operand_type (select_true_value select) in
  let falsetype := operand_type (select_false_value select) in
  if negb (type_eqb truetype falsetype)
  then err (MalformedInstruction "Expected Select operands to have identical type")
  else
    let optype := truetype in
    let bad_condition := err (MalformedInstruction "Expected select condition to be i1 or vector of i1") in
    match operand_type (select_condition select) with
    | IntegerType bits =>
        if bits =? 1 then
          bvcond ← operand_to_bv (select_condition select);
          bvtrueval ← operand_to_bv (select_true_value select);
          bvfalseval ← operand_to_bv (select_false_value select);
          record_bv_result (result (ISelect select) (select_dest select)) (cond_bv bvcond bvtrueval bvfalseval)
        else bad_condition
    | VectorType element_type num_elements =>
        _ ← match element_type with
            | IntegerType bits =>
                if bits =? 1 then mret tt
                else err (MalformedInstruction "Expected Select vector condition to be vector of i1")
            | _ => err (MalformedInstruction "Expected Select vector condition to be vector of i1")
            end;
        el_size ← lift (match optype with
                        | VectorType op_el_type op_num_els =>
                            if negb (num_elements =? op_num_els)
                            then Err (MalformedInstruction "Select condition and operands are vectors of different lengths")
                            else as_u32 <$> size op_el_type
                        | _ => Err (MalformedInstruction "Expected Select with vector condition to have vector operands")
                        end);
        condvec ← operand_to_bv (select_condition select);
        truevec ← operand_to_bv (select_true_value select);
        falsevec ← operand_to_bv (select_false_value select);
        scalars ← lift (mapO (fun idx =>
                     let bit := slice condvec idx idx in
                     t ← element truevec el_size idx;
                     f ← element falsevec el_size idx;
                     mret (cond_bv bit t f)) (range (as_u32 num_elements)));
        final_bv ← lift (ok_or (MalformedInstruction "Select with vectors of 0 elements") (reduce_concat scalars));
        record_bv_result (result (ISelect select) (select_dest select)) final_bv
    | _ => bad_condition
    end.

Definition symex_cmpxchg (cmpxchg : CmpXchg) : M State unit :=
  let expected_ty := operand_type (cx_expected cmpxchg) in
  let replacement_ty := operand_type (cx_replacement cmpxchg) in
  if negb (type_eqb expected_ty replacement_ty)
  then err (MalformedInstruction "Expected cmpxchg 'expected' and 'replacement' to be the same type")
  else
    let main_ty := expected_ty in
    _ ← match instr_type (ICmpXchg cmpxchg) with
        | StructType [ty0; ty1] _ =>
            if negb (type_eqb ty0 main_ty)
            then err (MalformedInstruction "Expected cmpxchg result type to be a struct with first element equal to the expected/replacement type")
            else if negb (type_eqb ty1 (IntegerType 1))
            then err (MalformedInstruction "Expected cmpxchg result type to be a struct with second element an i1")
            else mret tt
        | StructType _ _ => err (MalformedInstruction "Expected cmpxchg result type to be a struct of 2 elements")
        | _ => err (MalformedInstruction "Expected cmpxchg result type to be a struct")
        end;
    addr ← operand_to_bv (cx_address cmpxchg);
    expected ← operand_to_bv (cx_expected cmpxchg);
    replacement ← operand_to_bv (cx_replacement cmpxchg);
    read_value ← read addr (get_width expected);
    let match_flag := bv_eq read_value expected in
    _ ← write addr (cond_bv match_flag replacement read_value);
    record_bv_result (result (ICmpXchg cmpxchg) (cx_dest cmpxchg)) (bv_concat match_flag read_value).

End instructions.
