(* ===== verification/Symex.v ===== *)
(** * Symex: calls, terminators and path exploration (src/src/symex.rs)

    The functions of the source call each other recursively without a bound
    (a program may loop until the loop bound stops it); each handler below
    takes the three functions it calls back into as a record [Engine], and
    [engine n] ties the knot with [n] nested calls.  Running out of fuel is
    the outcome [OutOfFuel], never a result of the program. *)
From S2P Require Import Prelude Bits Backend SolverUtils MemorySpec Alloc LLVMIR Project Layout VarMap FunctionHooks GlobalAllocations Config State Operands HookUtils Hooks SymexInstr.

Open Scope Z_scope.

Inductive HookedThing :=
| HTFunction (funcname : string)
| HTIntrinsic (funcname : string)
| HTFunctionPtr
| HTInlineAsm.

Inductive ResolvedFunction :=
| HookActive (hook : FunctionHook) (hooked_thing : HookedThing)
| NoHookActive (called_funcname : string).

(** The built-in hook for a function name that has no hook in the config:
    its key in [intrinsic_hooks], and what is being hooked. *)
Definition intrinsic_for (f : string) : option (string * HookedThing) :=
  if starts_with "llvm.memset" f || starts_with "__memset" f
  then Some ("intrinsic: llvm.memset", HTFunction f)
  else if starts_with "llvm.memcpy" f || starts_with "llvm.memmove" f || starts_with "__memcpy" f
  then Some ("intrinsic: llvm.memcpy/memmove", HTFunction f)
  else if starts_with "llvm.bswap" f then Some ("intrinsic: llvm.bswap", HTIntrinsic f)
  else if starts_with "llvm.objectsize" f then Some ("intrinsic: llvm.objectsize", HTIntrinsic f)
  else if bool_decide (f = "llvm.assume") then Some ("intrinsic: llvm.assume", HTIntrinsic f)
  else if starts_with "llvm.uadd.with.overflow" f then Some ("intrinsic: llvm.uadd.with.overflow", HTIntrinsic f)
  else if starts_with "llvm.sadd.with.overflow" f then Some ("intrinsic: llvm.sadd.with.overflow", HTIntrinsic f)
  else if starts_with "llvm.usub.with.overflow" f then Some ("intrinsic: llvm.usub.with.overflow", HTIntrinsic f)
  else if starts_with "llvm.ssub.with.overflow" f then Some ("intrinsic: llvm.ssub.with.overflow", HTIntrinsic f)
  else if starts_with "llvm.umul.with.overflow" f then Some ("intrinsic: llvm.umul.with.overflow", HTIntrinsic f)
  else if starts_with "llvm.smul_with_overflow" f then Some ("intrinsic: llvm.smul.with.overflow", HTIntrinsic f)
  else if starts_with "llvm.uadd.sat" f then Some ("intrinsic: llvm.uadd.sat", HTIntrinsic f)
  else if starts_with "llvm.sadd.sat" f then Some ("intrinsic: llvm.sadd.sat", HTIntrinsic f)
  else if starts_with "llvm.usub.sat" f then Some ("intrinsic: llvm.usub.sat", HTIntrinsic f)
  else if starts_with "llvm.ssub.sat" f then Some ("intrinsic: llvm.ssub.sat", HTIntrinsic f)
  else if starts_with "llvm.read_register" f || starts_with "llvm.write_register" f
  then Some ("intrinsic: generic_stub_hook", HTIntrinsic f)
  else if starts_with "llvm.lifetime" f || starts_with "llvm.invariant" f ||
          starts_with "llvm.launder.invariant" f || starts_with "llvm.strip.invariant" f ||
          starts_with "llvm.dbg" f
  then Some ("intrinsic: generic_stub_hook", HTIntrinsic f)
  else None.

Section symex.
Context `{Ops : BackendOps} `{MOps : !MemoryOps} `{L : LLVM} `{CF : ConstFuel} `{UC : !UserCode}.
(** The [ExecutionManager]'s project and its [squash_unsats] setting. *)
Context (project : Project) (squash_unsats : bool).

Abbreviation RV := (ReturnValue BV).

Record Engine := {
  symex_from_cur_loc_through_end_of_function : M State (option RV);
  backtrack_and_continue : M State (option RV);
  symex_from_cur_loc : M State (option RV)
}.

(** ** Calls *)

Definition resolve_function (function : unit + Operand) : M State ResolvedFunction :=
  s ← get;
  funcname_or_hook ←
    match function with
    | inr (ConstantOperand (CGlobalReference (NameStr name) _)) => mret (inl name)
    | inr (ConstantOperand (CGlobalReference _ _)) => panic "Function with a numbered name"
    | inr operand =>
        bv ← operand_to_bv operand;
        cs ← interpret_as_function_ptr bv 1;
        match cs with
        | AtLeastC _ => err (OtherError "calling a function pointer which has multiple possible targets")
        | ExactlyC v =>
            match v with
            | [] => err Unsat
            | LLVMFunction f :: _ => mret (inl (func_name f))
            | CallableHook h :: _ => mret (inr (HookActive h HTFunctionPtr))
            end
        end
    | inl _ =>
        match get_inline_asm_hook (function_hooks (config s)) with
        | Some hook => mret (inr (HookActive hook HTInlineAsm))
        | None => err (OtherError "Encountered a call to inline assembly, but we have no inline assembly hook")
        end
    end;
  match funcname_or_hook with
  | inr resolved => mret resolved
  | inl funcname =>
      match get_hook_for (function_hooks (config s)) funcname with
      | Some hook => mret (HookActive hook (HTFunction funcname))
      | None =>
          match intrinsic_for funcname with
          | Some (key, thing) =>
              hook ← lift (expect "Failed to find LLVM intrinsic hook" (get_hook_for (intrinsic_hooks s) key));
              mret (HookActive hook thing)
          | None => mret (NoHookActive funcname)
          end
      end
  end.

Definition symex_hook (call : CallInstr) (hook : FunctionHook) : M State RV :=
  r ← call_hook hook project call;
  match r with
  | ReturnVoid =>
      if negb (type_eqb (call_type call) VoidType)
      then err (HookReturnValueMismatch "Hook returned void but call needs a return value")
      else mret ReturnVoid
  | Return retval =>
      let ret_type := call_type call in
      if type_eqb ret_type VoidType
      then err (HookReturnValueMismatch "Hook returned a value but call is void-typed")
      else
        retwidth ← lift (size ret_type);
        if negb (get_width retval =? as_u32 retwidth)
        then err (HookReturnValueMismatch "Hook returned a value of the wrong width")
        else mret (Return retval)
  | Throw bvptr => mret (Throw bvptr)
  | Abort => mret Abort
  end.

(** [match self.state.config.max_callstack_depth { .. }] *)
Definition at_max_callstack_depth (s : State) : bool :=
  match max_callstack_depth (config s) with
  | Some max_depth => max_depth <=? current_callstack_depth s
  | None => false
  end.

(** [call.dest.as_ref().unwrap().clone()] *)
Definition call_dest_unwrap (call : Call) : outcome Name :=
  expect "called `Option::unwrap()` on a `None` value" (call_dest call).

(** The entry of a callee: argument values, the call site, the new location
    and the parameters' bindings. *)
Definition enter_callee (arguments : list Operand) (site : CallInstr) (callee : Function_) (callee_mod : Module_)
    : M State unit :=
  if negb (length arguments =? length (func_parameters callee))%nat then
    if func_is_var_arg callee then err (UnsupportedInstruction "Call of a function which is variadic")
    else err (MalformedInstruction "Call of a function with a wrong number of arguments")
  else
    bvargs ← mapMM operand_to_bv arguments;
    _ ← push_generic_callsite site;
    entry ← lift (expect "Failed to get entry basic block" (func_basic_blocks callee !! 0%nat));
    _ ← modify (set_cur_loc {| module := callee_mod; func := callee; bb := entry;
                               instr := Instr 0; source_loc := None |});
    forM (zip bvargs (func_parameters callee)) (fun '(bvarg, param) =>
      assign_bv_to_name (param_name param) bvarg).

(** What a hooked call does with the hook's value: [inl] to continue after
    the call, [inr] the value to return from the current function. *)
Definition finish_hooked_call (call : Call) (r : RV) : M State (option RV) :=
  match r with
  | Return retval => d ← lift (call_dest_unwrap call); _ ← assign_bv_to_name d retval; mret None
  | ReturnVoid => mret None
  | Throw bvptr => mret (Some (Throw bvptr))
  | Abort => mret (Some Abort)
  end.

(** The result of a call that is skipped at the maximal call depth. *)
Definition skipped_result (call : CallInstr) (called_funcname : string) (dest : outcome Name) : M State unit :=
  match call_type call with
  | VoidType => mret tt
  | ty =>
      width ← lift (size ty);
      bv ← new_bv_with_name (NameStr (called_funcname +:+ "_retval")) (as_u32 width);
      d ← lift dest;
      assign_bv_to_name d bv
  end.

Definition symex_call (E : Engine) (call : Call) : M State (option RV) :=
  resolved ← resolve_function (call_function call);
  match resolved with
  | HookActive hook _ =>
      r ← symex_hook (LeftCall call) hook;
      finish_hooked_call call r
  | NoHookActive called_funcname =>
      s ← get;
      if at_max_callstack_depth s then
        _ ← skipped_result (LeftCall call) called_funcname (call_dest_unwrap call);
        mret None
      else
        callee ← get_func_by_name called_funcname;
        match callee with
        | Some (callee, callee_mod) =>
            let saved_loc := cur_loc s in
            _ ← enter_callee (call_arguments call) (LeftCall call) callee callee_mod;
            r ← symex_from_cur_loc_through_end_of_function E;
            returned_bv ← lift (ok_or Unsat r);
            site ← pop_callsite;
            match site with
            | None => mret (Some returned_bv)
            | Some {| callsite_loc := l; callsite_instr := LeftCall _ |} =>
                if loc_eqb l saved_loc then
                  _ ← modify (set_cur_loc saved_loc);
                  _ ← inc_loc;
                  _ ← record_path_entry;
                  match returned_bv with
                  | Return bv => d ← lift (call_dest_unwrap call); _ ← assign_bv_to_name d bv; mret None
                  | ReturnVoid =>
                      _ ← lift (assert_ "assert_eq!(call.dest, None)" (bool_decide (call_dest call = None)));
                      mret None
                  | Throw bvptr => mret (Some (Throw bvptr))
                  | Abort => mret (Some Abort)
                  end
                else panic "Received unexpected callsite"
            | Some _ => panic "Received unexpected callsite"
            end
        | None =>
            match get_default_hook (function_hooks (config s)) with
            | None => name ← demangle called_funcname; err (FunctionNotFound name)
            | Some hook =>
                _ ← demangle called_funcname;
                r ← symex_hook (LeftCall call) hook;
                finish_hooked_call call r
            end
        end
  end.

(** ** Terminators *)

Definition symex_return (ret : option Operand) : M State RV :=
  match ret with
  | Some op => bv ← operand_to_bv op; mret (Return bv)
  | None => mret ReturnVoid
  end.

Definition symex_br (E : Engine) (dest : Name) : M State (option RV) :=
  _ ← goto_bb dest;
  symex_from_cur_loc_through_end_of_function E.

Definition symex_condbr (E : Engine) (condbr : CondBr) : M State (option RV) :=
  bvcond ← operand_to_bv (condbr_condition condbr);
  true_feasible ← sat_with_extra_constraints [bvcond];
  false_feasible ← sat_with_extra_constraints [bv_not bvcond];
  if true_feasible && false_feasible then
    _ ← save_backtracking_point (condbr_false_dest condbr) (bv_not bvcond);
    _ ← assert_bv bvcond;
    _ ← goto_bb (condbr_true_dest condbr);
    symex_from_cur_loc_through_end_of_function E
  else if (true_feasible : bool) then
    _ ← assert_bv bvcond;
    _ ← goto_bb (condbr_true_dest condbr);
    symex_from_cur_loc_through_end_of_function E
  else if (false_feasible : bool) then
    _ ← assert_bv (bv_not bvcond);
    _ ← goto_bb (condbr_false_dest condbr);
    symex_from_cur_loc_through_end_of_function E
  else backtrack_and_continue E.

(** [dests.iter().map(|(c, _)| c._eq(&switchval).not()).reduce(|a, b| a.and(&b))] *)
Definition default_dest_constraint (switchval : BV) (dests : list (BV * Name)) : BV :=
  match (fun '(c, _) => bv_not (bv_eq c switchval)) <$> dests with
  | [] => from_bool true
  | x :: xs => foldl bv_and x xs
  end.

Definition symex_switch (E : Engine) (switch : Switch) : M State (option RV) :=
  switchval ← operand_to_bv (switch_operand switch);
  dests ← mapMM (fun '(c, n) => c ← const_to_bv c; mret (c, n)) (switch_dests switch);
  checked ← mapMM (fun '(c, n) => b ← bvs_can_be_equal c switchval; mret (c, n, b)) dests;
  let feasible_dests := fst <$> filter (fun '(_, _, b) => b = true) checked in
  match feasible_dests with
  | [] =>
      _ ← goto_bb (switch_default_dest switch);
      symex_from_cur_loc_through_end_of_function E
  | (val, name) :: rest =>
      _ ← forM rest (fun '(val, name) => save_backtracking_point name (bv_eq val switchval));
      let constraint := default_dest_constraint switchval dests in
      default_feasible ← sat_with_extra_constraints [constraint];
      _ ← (if (default_feasible : bool)
           then save_backtracking_point (switch_default_dest switch) constraint else mret tt);
      _ ← assert_bv (bv_eq val switchval);
      _ ← goto_bb name;
      symex_from_cur_loc_through_end_of_function E
  end.

Definition symex_resume (operand : Operand) : M State (option RV) :=
  op ← operand_to_bv operand;
  let exception_ptr := slice op (POINTER_SIZE_BITS - 1) 0 in
  mret (Some (Throw exception_ptr)).

(** ** Catching exceptions *)

(** The loop over the instructions of a landing-pad block. *)
Fixpoint landing_loop (E : Engine) (thrown_ptr type_index : BV) (first_iter : bool)
    (insts : list (Z * Instruction)) : M State (option RV) :=
  match insts with
  | [] => err (MalformedInstruction "Expected exception-catching block to have a `LandingPad`, but it seems not to")
  | (instnum, inst) :: insts =>
      _ ← modify (fun s => set_cur_loc (set_source_loc (instr_debug_loc inst)
                             (set_instr (Instr instnum) (cur_loc s))) s);
      _ ← (if first_iter then record_path_entry else mret tt);
      result ← catch (match inst with
                      | IPhi phi => _ ← symex_phi phi; mret false
                      | ILandingPad lp => _ ← symex_landing_pad lp thrown_ptr type_index; mret true
                      | _ => err (MalformedInstruction "Expected exception-catching block to have a `LandingPad` as its first non-phi instruction")
                      end);
      match result with
      | Ok true => _ ← inc_loc; symex_from_cur_loc_through_end_of_function E
      | Ok false => landing_loop E thrown_ptr type_index false insts
      | Err Unsat | Err (LoopBoundExceeded _) => backtrack_and_continue E
      | Err e => err e
      | r => lift (r ≫= fun _ => Panic "unreachable")
      end
  end.

Definition catch_with_type_index (E : Engine) (thrown_ptr type_index : BV) (bbname : Name)
    : M State (option RV) :=
  _ ← goto_bb bbname;
  s ← get;
  landing_loop E thrown_ptr type_index true (enumerate (bb_instrs (bb (cur_loc s)))).

Definition catch_at_exception_label (E : Engine) (thrown_ptr : BV) (bbname : Name) : M State (option RV) :=
  type_index ← new_bv_with_name (NameStr "unconstrained_type_index_for_thrown_value") 32;
  catch_with_type_index E thrown_ptr type_index bbname.

(** A hooked [invoke]: the continuation after a normal return is [k]. *)
Definition finish_hooked_invoke (E : Engine) (invoke : Invoke) (r : RV) (k : M State (option RV))
    : M State (option RV) :=
  match r with
  | Return retval => _ ← assign_bv_to_name (invoke_result invoke) retval; k
  | ReturnVoid => k
  | Throw bvptr => catch_at_exception_label E bvptr (invoke_exception_label invoke)
  | Abort => mret (Some Abort)
  end.

Definition symex_invoke (E : Engine) (invoke : Invoke) : M State (option RV) :=
  let continue_at_return_label :=
    _ ← goto_bb (invoke_return_label invoke);
    symex_from_cur_loc_through_end_of_function E in
  resolved ← resolve_function (invoke_function invoke);
  match resolved with
  | HookActive hook _ =>
      r ← symex_hook (RightInvoke invoke) hook;
      finish_hooked_invoke E invoke r continue_at_return_label
  | NoHookActive called_funcname =>
      s ← get;
      if at_max_callstack_depth s then
        _ ← skipped_result (RightInvoke invoke) called_funcname (Ok (invoke_result invoke));
        continue_at_return_label
      else
        callee ← get_func_by_name called_funcname;
        match callee with
        | Some (callee, callee_mod) =>
            let saved_loc := cur_loc s in
            _ ← enter_callee (invoke_arguments invoke) (RightInvoke invoke) callee callee_mod;
            r ← symex_from_cur_loc_through_end_of_function E;
            returned_bv ← lift (ok_or Unsat r);
            site ← pop_callsite;
            match site with
            | None => mret (Some returned_bv)
            | Some {| callsite_loc := l; callsite_instr := RightInvoke _ |} =>
                if loc_eqb l saved_loc then
                  _ ← modify (set_cur_loc saved_loc);
                  match returned_bv with
                  | Return retval =>
                      _ ← assign_bv_to_name (invoke_result invoke) retval;
                      continue_at_return_label
                  | ReturnVoid => continue_at_return_label
                  | Throw bvptr => catch_at_exception_label E bvptr (invoke_exception_label invoke)
                  | Abort => mret (Some Abort)
                  end
                else panic "Received unexpected callsite"
            | Some _ => panic "Received unexpected callsite"
            end
        | None =>
            match get_default_hook (function_hooks (config s)) with
            | None => name ← demangle called_funcname; err (FunctionNotFound name)
            | Some hook =>
                _ ← demangle called_funcname;
                r ← symex_hook (RightInvoke invoke) hook;
                finish_hooked_invoke E invoke r (mret None)
            end
        end
  end.

(** ** Basic blocks *)

(** One non-terminator instruction: [None] to go on, [Some] the value to
    return from the current function. *)
Definition symex_instruction (E : Engine) (inst : Instruction) : M State (option RV) :=
  let go (c : M State unit) : M State (option RV) := _ ← c; mret None in
  match inst with
  | IBinaryOp bop => go (symex_binop bop)
  | IICmp icmp => go (symex_icmp icmp)
  | ILoad load => go (symex_load load)
  | IStore store => go (symex_store store)
  | IGetElementPtr gep => go (symex_gep gep)
  | IAlloca alloca => go (symex_alloca project alloca)
  | IExtractElement ee => go (symex_extractelement ee)
  | IInsertElement ie => go (symex_insertelement ie)
  | IShuffleVector sv => go (symex_shufflevector sv)
  | IExtractValue ev => go (symex_extractvalue ev)
  | IInsertValue iv => go (symex_insertvalue iv)
  | IZExt z => go (symex_zext z)
  | ISExt z => go (symex_sext z)
  | ITrunc t => go (symex_trunc t)
  | IPtrToInt u | IIntToPtr u | IBitCast u => go (symex_cast_op inst u)
  | IPhi phi => go (symex_phi phi)
  | ISelect select => go (symex_select select)
  | ICmpXchg cmpxchg => go (symex_cmpxchg cmpxchg)
  | ICall call => symex_call E call
  | ILandingPad _ => err (UnsupportedInstruction "Encountered an LLVM `LandingPad` instruction, but wasn't expecting it (there is no inflight exception)")
  | IOther _ => err (UnsupportedInstruction "instruction")
  end.

(** The loop over the instructions of a block, then [k first_iter]. *)
Fixpoint instr_loop (E : Engine) (insts : list (Z * Instruction)) (first_iter : bool)
    (k : bool -> M State (option RV)) : M State (option RV) :=
  match insts with
  | [] => k first_iter
  | (instnum, inst) :: insts =>
      _ ← modify (fun s => set_cur_loc (set_source_loc (instr_debug_loc inst)
                             (set_instr (Instr instnum) (cur_loc s))) s);
      _ ← (if first_iter then record_path_entry else mret tt);
      s ← get;
      _ ← forM (instruction_callbacks (callbacks (config s))) (fun cb => instruction_callback cb inst);
      result ← catch (symex_instruction E inst);
      match result with
      | Ok None => instr_loop E insts false k
      | Ok (Some symexresult) => mret (Some symexresult)
      | Err Unsat => if squash_unsats then backtrack_and_continue E else err Unsat
      | r => lift r
      end
  end.

Definition symex_terminator (E : Engine) (term : Terminator) : M State (option RV) :=
  match term with
  | TRet ret => Some <$> symex_return ret
  | TBr br => symex_br E br
  | TCondBr condbr => symex_condbr E condbr
  | TSwitch switch => symex_switch E switch
  | TInvoke invoke => symex_invoke E invoke
  | TResume resume => symex_resume resume
  | TUnreachable => err UnreachableInstruction
  | TOther _ => err (UnsupportedInstruction "terminator")
  end.

Definition insts_to_skip (l : Location) : outcome nat :=
  let num_insts := Z.of_nat (length (bb_instrs (bb l))) in
  match instr l with
  | Instr i =>
      if (i =? 0) && (num_insts =? 0) then Ok 0%nat
      else
        _ ← assert_ "Invalid current instruction index" (i <? num_insts);
        mret (Z.to_nat i)
  | TerminatorIdx => Ok (length (bb_instrs (bb l)))
  end.

Definition through_end_of_function (E : Engine) : M State (option RV) :=
  s ← get;
  let b := bb (cur_loc s) in
  skip ← lift (insts_to_skip (cur_loc s));
  instr_loop E (drop skip (enumerate (bb_instrs b))) true (fun first_iter =>
    s ← get;
    let term := bb_term (bb (cur_loc s)) in
    _ ← modify (fun s => set_cur_loc (set_source_loc (term_debug_loc term)
                           (set_instr TerminatorIdx (cur_loc s))) s);
    _ ← (if first_iter then record_path_entry else mret tt);
    s ← get;
    _ ← forM (terminator_callbacks (callbacks (config s))) (fun cb => terminator_callback cb term);
    symex_terminator E term).

(** ** Backtracking and returning to callers *)

Definition backtrack_and_continue_with (E : Engine) : M State (option RV) :=
  b ← revert_to_backtracking_point;
  if (b : bool) then symex_from_cur_loc E else mret None.

(** [loop { match self.state.pop_callsite() { .. } }]: at most one round per
    frame of the stack, and a last one. *)
Fixpoint unwind (E : Engine) (frames : nat) (bvptr : BV) : M State (option RV) :=
  match frames with
  | O => out_of_fuel
  | S frames =>
      site ← pop_callsite;
      match site with
      | Some site =>
          match callsite_instr site with
          | LeftCall _ => unwind E frames bvptr
          | RightInvoke invoke =>
              _ ← modify (set_cur_loc (callsite_loc site));
              catch_at_exception_label E bvptr (invoke_exception_label invoke)
          end
      | None => mret (Some (Throw bvptr))
      end
  end.

(** [if self.state.assign_bv_to_name(dest, bv).is_err() { return self.backtrack_and_continue(); }] *)
Definition assign_or_backtrack (E : Engine) (dest : Name) (bv : BV) (k : M State (option RV))
    : M State (option RV) :=
  r ← catch (assign_bv_to_name dest bv);
  match r with
  | Ok _ => k
  | _ => backtrack_and_continue E
  end.

Definition from_cur_loc (E : Engine) : M State (option RV) :=
  r ← symex_from_cur_loc_through_end_of_function E;
  match r with
  | Some (Throw bvptr) => s ← get; unwind E (S (length (stack s))) bvptr
  | Some Abort => mret (Some Abort)
  | Some symexresult =>
      site ← pop_callsite;
      match site with
      | Some site =>
          match callsite_instr site with
          | LeftCall call =>
              _ ← modify (set_cur_loc (callsite_loc site));
              let k := _ ← inc_loc; symex_from_cur_loc E in
              match symexresult with
              | Return bv => d ← lift (call_dest_unwrap call); assign_or_backtrack E d bv k
              | ReturnVoid => k
              | _ => panic "This case should have been handled above"
              end
          | RightInvoke invoke =>
              _ ← modify (set_cur_loc (callsite_loc site));
              let k := _ ← goto_bb (invoke_return_label invoke); symex_from_cur_loc E in
              match symexresult with
              | Return bv => assign_or_backtrack E (invoke_result invoke) bv k
              | ReturnVoid => k
              | _ => panic "This case should have been handled above"
              end
          end
      | None => mret (Some symexresult)
      end
  | None => backtrack_and_continue E
  end.

Fixpoint engine (fuel : nat) : Engine :=
  match fuel with
  | O => {| symex_from_cur_loc_through_end_of_function := out_of_fuel;
            backtrack_and_continue := out_of_fuel;
            symex_from_cur_loc := out_of_fuel |}
  | S fuel =>
      let E := engine fuel in
      {| symex_from_cur_loc_through_end_of_function := through_end_of_function E;
         backtrack_and_continue := backtrack_and_continue_with E;
         symex_from_cur_loc := from_cur_loc E |}
  end.

End symex.

(** ** The execution manager *)

Section manager.
Context `{Ops : BackendOps} `{MOps : !MemoryOps} `{L : LLVM} `{CF : ConstFuel} `{UC : !UserCode}.

Record ExecutionManager := {
  em_state : State;
  em_project : Project;
  em_bvparams : list BV;
  em_fresh : bool;
  em_squash_unsats : bool
}.

Definition em_new (state : State) (project : Project) (bvparams : list BV) (squash_unsats : bool)
    : ExecutionManager :=
  {| em_state := state; em_project := project; em_bvparams := bvparams;
     em_fresh := true; em_squash_unsats := squash_unsats |}.
Definition param_bvs (self : ExecutionManager) : list BV := em_bvparams self.

(** [Iterator::next]: [None] when no paths remain, [Some (Ok v)] and
    [Some (Err e)] for a path that ends; panics are not caught. *)
Definition next (fuel : nat) (self : ExecutionManager)
    : outcome (option (outcome (ReturnValue BV))) * ExecutionManager :=
  let E := engine (em_project self) (em_squash_unsats self) fuel in
  let '(r, s) := (if em_fresh self then symex_from_cur_loc_through_end_of_function E
                  else backtrack_and_continue E) (em_state self) in
  let self := {| em_state := s; em_project := em_project self; em_bvparams := em_bvparams self;
                 em_fresh := false; em_squash_unsats := em_squash_unsats self |} in
  (match r with
   | Ok (Some v) => Ok (Some (Ok v))
   | Ok None => Ok None
   | Err e => Ok (Some (Err e))
   | Panic p => Panic p
   | OutOfFuel => OutOfFuel
   end, self).

Definition symex_function (funcname : string) (project : Project) (cfg : Config) : outcome ExecutionManager :=
  r ← Project.get_func_by_name project funcname;
  '(func, module) ← expect "Failed to find function" r;
  entry ← expect "Failed to get entry basic block" (func_basic_blocks func !! 0%nat);
  let start_loc := {| module := module; func := func; bb := entry; instr := Instr 0; source_loc := None |} in
  state ← state_new project start_loc cfg;
  let '(r, state) :=
    mapMM (fun param =>
      sz ← lift (size_opaque_aware (param_ty param) project);
      param_size ← lift (expect "Parameter type is a struct opaque in the entire Project" sz);
      r ← catch (new_bv_with_name (param_name param) (as_u32 param_size));
      lift (match r with Err _ => Panic "called `Result::unwrap()` on an `Err` value" | r => r end))
      (func_parameters func) state in
  bvparams ← r;
  mret (em_new state project bvparams (squash_unsats cfg)).

End manager.
