(* ===== verification/Diagnostics.v ===== *)
(** * Diagnostics: locations, backtraces and paths as text (src/src/state.rs, src/src/error.rs)

    What the crate prints about an error: the error itself, the backtrace, the
    path that led to it and the variables of the function.  The texts that
    other crates make of their data are parameters, and so are the two
    environment variables that select what is shown. *)
From S2P Require Import Prelude Bits Backend SolverUtils MemorySpec Alloc LLVMIR Project Layout VarMap Watchpoints FunctionHooks GlobalAllocations Config State Operands Hooks Symex.
From stdpp Require Import pretty sorting.
From Stdlib Require Import Ascii HexString.

Open Scope Z_scope.

(** [Display] for [llvm_ir::Name] and [llvm_ir::DebugLoc], [Debug] for [BV],
    [Btor::print_model] as its lines, and the order of [Name]. *)
Class ForeignText `{BackendOps} : Type := {
  name_to_string : Name -> string;
  debug_loc_to_string : DebugLoc -> string;
  bv_debug : BV -> string;
  print_model_lines : SolverRef -> list string;
  name_le : Name -> Name -> Prop;
  name_le_dec :: RelDecision name_le
}.

#[export] Instance DebugLoc_eq_dec : EqDecision DebugLoc.
Proof. solve_decision. Defined.

Definition newline : string := String (Ascii.ascii_of_nat 10) EmptyString.
Definition quote : string := String (Ascii.ascii_of_nat 34) EmptyString.
Definition concat_strings (xs : list string) : string := foldr String.append EmptyString xs.

(** ** Errors *)

(** [{:?}] of a [str] of ASCII characters: [char::escape_debug] of each, but
    for the single quote. *)
Definition escape_debug (c : ascii) : string :=
  let n := Z.of_nat (Ascii.nat_of_ascii c) in
  if n =? 9 then "\t" else if n =? 13 then "\r" else if n =? 10 then "\n"
  else if n =? 0 then "\0"
  else if n =? 34 then "\" +:+ quote else if n =? 92 then "\\"
  else if (n <? 32) || (n =? 127) then "\u{" +:+ String.substring 2 2 (HexString.of_Z n) +:+ "}"
  else String c EmptyString.
Definition debug_str (s : string) : string := quote +:+ concat_strings (escape_debug <$> String.list_ascii_of_string s) +:+ quote.

Definition error_to_string (self : Error) : string :=
  match self with
  | Unsat => "`Unsat`: the current state or path is unsat"
  | LoopBoundExceeded bound =>
      "`LoopBoundExceeded`: the current path has exceeded the configured `loop_bound`, which was " +:+ pretty bound
  | NullPointerDereference =>
      "`NullPointerDereference`: the current path has attempted to dereference a null pointer"
  | FunctionNotFound funcname =>
      "`FunctionNotFound`: encountered a call of a function named " +:+ debug_str funcname +:+
      ", but failed to find an LLVM definition, a function hook, or a built-in handler for it"
  | SolverError details =>
      "`SolverError`: the solver returned this error while evaluating a query: " +:+ details
  | UnsupportedInstruction details =>
      "`UnsupportedInstruction`: encountered an LLVM instruction which is not currently supported: " +:+ details
  | MalformedInstruction details =>
      "`MalformedInstruction`: encountered an LLVM instruction which was malformed, or at least didn't conform to our expected invariants: " +:+ details
  | UnreachableInstruction => "`UnreachableInstruction`: Reached an LLVM 'Unreachable' instruction"
  | FailedToResolveFunctionPointer solution =>
      "`FailedToResolveFunctionPointer`: Can't resolve a symbolically-valued function pointer, because one possible solution for it (" +:+
      HexString.of_Z solution +:+ ") points to something that's not a function"
  | HookReturnValueMismatch details => "`HookReturnValueMismatch`: " +:+ details
  | OtherError details => "`OtherError`: " +:+ details
  end.

(** ** Watchpoints and hooked calls *)

Definition watchpoint_to_string (self : Watchpoint) : string :=
  "[" +:+ HexString.of_Z (low self) +:+ ", " +:+ HexString.of_Z (high self) +:+ "]".

Definition hooked_thing_to_string (self : HookedThing) : string :=
  match self with
  | HTFunction funcname => "function " +:+ debug_str funcname
  | HTIntrinsic funcname => "intrinsic " +:+ debug_str funcname
  | HTFunctionPtr => "a function pointer"
  | HTInlineAsm => "inline assembly"
  end.

(** ** Locations *)

Definition instr_to_string (i : BBInstrIndex) : string :=
  match i with Instr i => "instr " +:+ pretty i | TerminatorIdx => "terminator" end.

Record LocationDescription := {
  modname : string;
  funcname : string;
  bbname : Name;
  ld_instr : BBInstrIndex;
  ld_source_loc : option DebugLoc
}.
Definition location_description (loc : Location) : LocationDescription :=
  {| modname := mod_name (module loc); funcname := func_name (func loc); bbname := bb_name (bb loc);
     ld_instr := instr loc; ld_source_loc := source_loc loc |}.

Section text.
Context `{Text : ForeignText} `{MOps : !MemoryOps} `{L : LLVM} `{CF : ConstFuel}.

Definition description_no_module (d : LocationDescription) : string :=
  "{" +:+ funcname d +:+ ", bb " +:+ name_to_string (bbname d) +:+ ", " +:+ instr_to_string (ld_instr d) +:+ "}".
Definition description_with_module (d : LocationDescription) : string :=
  "{" +:+ modname d +:+ ": " +:+ funcname d +:+ ", bb " +:+ name_to_string (bbname d) +:+ ", " +:+ instr_to_string (ld_instr d) +:+ "}".

Definition location_no_module (l : Location) : string :=
  func_name (func l) +:+ ", bb " +:+ name_to_string (bb_name (bb l)) +:+ ", " +:+ instr_to_string (instr l).
Definition location_with_module (l : Location) : string :=
  mod_name (module l) +:+ ": " +:+ location_no_module l.

(** [.rsplit('/').next()]: what follows the last slash. *)
Fixpoint after_last_slash (s : string) : string :=
  match s with
  | EmptyString => EmptyString
  | String c rest =>
      if existsb (fun c => Ascii.eqb c "/"%char) (String.list_ascii_of_string s)
      then after_last_slash rest else s
  end.
Definition location_short_module (l : Location) : string :=
  after_last_slash (mod_name (module l)) +:+ ": " +:+ location_no_module l.

(** ** Path entries *)

Definition entry_no_module (e : PathEntry) : string :=
  "{" +:+ func_name (func e) +:+ ", bb " +:+ name_to_string (bb_name (bb e)) +:+ ", starting at " +:+ instr_to_string (instr e) +:+ "}".
Definition entry_with_module (e : PathEntry) : string :=
  "{" +:+ mod_name (module e) +:+ ": " +:+ func_name (func e) +:+ ", bb " +:+ name_to_string (bb_name (bb e)) +:+ ", starting at " +:+
  instr_to_string (instr e) +:+ "}".

Definition backtrack_point_to_string (self : BacktrackPoint) : string :=
  "<BacktrackPoint to execute bb " +:+ name_to_string (bb_name (bb (bp_loc self))) +:+ " with constraint " +:+
  bv_debug (bp_constraint self) +:+ " and " +:+ pretty (length (bp_stack self)) +:+ " frames on the callstack>".

(** [Itertools::dedup]: of equal neighbours the first is kept. *)
Fixpoint dedup (xs : list DebugLoc) : list DebugLoc :=
  match xs with
  | x :: (y :: _) as rest => if bool_decide (x = y) then dedup rest else x :: dedup rest
  | xs => xs
  end.
Definition get_all_source_locs (e : PathEntry) : list DebugLoc := dedup (omap instr_debug_loc (bb_instrs (bb e))).

(** ** The texts *)

Definition entry_to_string (s : State) (e : PathEntry) : string :=
  if print_module_name (config s) then entry_with_module e else entry_no_module e.

Definition demangle_locdescr (d : LocationDescription) : M State LocationDescription :=
  f ← demangle (funcname d);
  mret {| modname := modname d; funcname := f; bbname := bbname d; ld_instr := ld_instr d; ld_source_loc := ld_source_loc d |}.

Definition frame_to_string (s : State) (framenum : Z) (d : LocationDescription) : string :=
  let pretty_locdescr := if print_module_name (config s) then description_with_module d else description_no_module d in
  "  #" +:+ pretty framenum +:+ ": " +:+ pretty_locdescr +:+ newline +:+
  match ld_source_loc d with
  | Some l => if print_source_info (config s) then "         (" +:+ debug_loc_to_string l +:+ ")" +:+ newline else EmptyString
  | None => EmptyString
  end.

(** The current location, then the call sites, the innermost first. *)
Definition backtrace_locations (s : State) : list LocationDescription :=
  location_description (cur_loc s) :: ((fun frame => location_description (callsite_loc (callsite frame))) <$> stack s).

Definition pretty_backtrace : M State string :=
  s ← get;
  locdescrs ← mapMM demangle_locdescr (backtrace_locations s);
  mret (concat_strings (imap (fun i d => frame_to_string s (Z.of_nat i + 1) d) locdescrs)).

Definition pretty_path_llvm (s : State) : string :=
  concat_strings ((fun e => "  " +:+ entry_to_string s e +:+ newline) <$> path s).

Definition source_line (indent : string) (l : DebugLoc) : string := indent +:+ debug_loc_to_string l +:+ newline.

Definition pretty_path_source (s : State) : string :=
  match mbind get_all_source_locs (path s) with
  | [] =>
      "  No source locations available in the path." +:+ newline +:+
      "  This may be because the LLVM bitcode was not compiled with debuginfo." +:+ newline +:+
      "  To compile C/C++ or Rust sources with debuginfo, pass the `-g` flag" +:+ newline +:+
      "    to `clang`, `clang++`, or `rustc`." +:+ newline
  | source_locs => concat_strings (source_line "  " <$> source_locs)
  end.

Definition pretty_path_interleaved (s : State) : string :=
  concat_strings ((fun e =>
    "  " +:+ entry_to_string s e +:+ ":" +:+ newline +:+
    match get_all_source_locs e with
    | [] => "    (no source locations available)" +:+ newline
    | source_locs => concat_strings (source_line "    " <$> source_locs)
    end) <$> path s).

End text.

(** ** The error message *)

Inductive PathDumpType := DumpNone | DumpLLVM | DumpSource | DumpInterleaved.

Definition ascii_uppercase (c : ascii) : ascii :=
  let n := Ascii.nat_of_ascii c in if ((97 <=? n) && (n <=? 122))%nat then Ascii.ascii_of_nat (n - 32) else c.
Definition make_ascii_uppercase (s : string) : string :=
  String.string_of_list_ascii (ascii_uppercase <$> String.list_ascii_of_string s).

(** From the value of [HAYBALE_DUMP_PATH], if it is set. *)
Definition get_from_env_var (var : option string) : PathDumpType :=
  match var with
  | None => DumpNone
  | Some val =>
      let val := make_ascii_uppercase val in
      if bool_decide (val = EmptyString) then DumpNone
      else if bool_decide (val = "LLVM") then DumpLLVM
      else if bool_decide (val = "SRC") then DumpSource
      else if bool_decide (val = "BOTH") then DumpInterleaved
      else if bool_decide (val = "1") then DumpInterleaved
      else DumpInterleaved
  end.

Section messages.
Context `{Text : ForeignText} `{MOps : !MemoryOps} `{L : LLVM} `{CF : ConstFuel}.

Definition all_vars_in_cur_fn (s : State) : list (Name * BV) :=
  get_all_vars_in_fn name_le (varmap s) (func_name (func (cur_loc s))).

Definition path_text (dump_path : PathDumpType) (s : State) : string :=
  match dump_path with
  | DumpNone =>
      "note: For a dump of the path that led to this error, rerun with the environment variable `HAYBALE_DUMP_PATH` set to:" +:+ newline +:+
      "        `LLVM` for a list of the LLVM basic blocks in the path" +:+ newline +:+
      "        `SRC` for a list of the source-language locations in the path" +:+ newline +:+
      "        `BOTH` for both of the above" +:+ newline +:+
      "      To get source-language locations, the LLVM bitcode must also contain" +:+ newline +:+
      "      debuginfo. For example, C/C++ or Rust sources must be compiled with the" +:+ newline +:+
      "      `-g` flag to `clang`, `clang++`, or `rustc`." +:+ newline
  | DumpLLVM =>
      "LLVM path to error:" +:+ newline +:+ pretty_path_llvm s +:+
      "note: to also get a dump of the source-language locations in this path, rerun with `HAYBALE_DUMP_PATH=BOTH`." +:+ newline
  | DumpSource =>
      "Source-language path to error:" +:+ newline +:+ pretty_path_source s +:+
      "note: to also get a dump of the LLVM basic blocks in this path, rerun with `HAYBALE_DUMP_PATH=BOTH`." +:+ newline
  | DumpInterleaved => "Full path to error:" +:+ newline +:+ pretty_path_interleaved s
  end.

(** [dump_vars]: the value of [HAYBALE_DUMP_VARS], if it is set. *)
Definition vars_text (dump_vars : option string) (s : State) : string :=
  if bool_decide (dump_vars = Some "1") then
    newline +:+ "Latest values of variables at time of error, in current function:" +:+ newline +:+
    "(Ignore any values from past the point of error, they may be from other paths)" +:+ newline +:+ newline +:+
    concat_strings ((fun '(varname, value) =>
      "  " +:+ name_to_string varname +:+ ": " +:+ bv_debug value +:+ newline) <$> all_vars_in_cur_fn s)
  else
    newline +:+ "note: For a dump of variable values at time of error, rerun with `HAYBALE_DUMP_VARS=1` environment variable." +:+ newline.

(** [itertools::sorted], on strings: by their bytes. *)
Definition sorted_lines (lines : list string) : list string :=
  merge_sort (fun x y => Is_true (String.leb x y)) lines.

Definition current_assignments_as_pretty_string : M State string :=
  _ ← on_solver (set_model_gen true);
  is_sat ← State.sat;
  text ← (if (is_sat : bool) then
            s ← get;
            mret (foldl (fun s line => s +:+ newline +:+ line) EmptyString (sorted_lines (print_model_lines (solver s))))
          else mret "<state is unsatisfiable>");
  _ ← on_solver (set_model_gen false);
  mret text.

Definition full_error_message_with_context (dump_path dump_vars : option string) (e : Error) : M State string :=
  s ← get;
  backtrace ← pretty_backtrace;
  mret (error_to_string e +:+ newline +:+ newline +:+ "Backtrace:" +:+ newline +:+ backtrace +:+ newline +:+
        path_text (get_from_env_var dump_path) s +:+ vars_text dump_vars s +:+
        newline +:+ "note: to enable detailed logs, ensure that debug-level logging messages are visible." +:+ newline +:+
        "  See the documentation for your chosen logging backend (e.g., env_logger, log4rs, etc)" +:+ newline +:+
        "  for help with configuration." +:+ newline +:+ newline).

(** ** What the texts show *)

(** The documentation of [get_all_source_locs]: no two consecutive locations
    are equal, and every location of the block is there. *)
Fixpoint no_equal_neighbours (xs : list DebugLoc) : Prop :=
  match xs with
  | x :: (y :: _) as rest => x <> y /\ no_equal_neighbours rest
  | _ => True
  end.

Lemma dedup_head x xs : head (dedup (x :: xs)) = Some x.
Proof.
  revert x. induction xs as [|y xs IH]; intros x; [done|]. cbn [dedup]. case_bool_decide as E; [|done]. subst. apply IH.
Qed.
Lemma no_equal_neighbours_cons x xs :
  no_equal_neighbours xs -> (forall y, head xs = Some y -> x <> y) -> no_equal_neighbours (x :: xs).
Proof. destruct xs as [|y xs]; [done|]. intros Hn Hy. split; [by apply Hy | exact Hn]. Qed.
Lemma dedup_cons x y xs : dedup (x :: y :: xs) = if bool_decide (x = y) then dedup (y :: xs) else x :: dedup (y :: xs).
Proof. reflexivity. Qed.
Lemma dedup_neighbours xs : no_equal_neighbours (dedup xs).
Proof.
  induction xs as [|x [|y xs] IH]; [done..|]. rewrite dedup_cons. case_bool_decide as E; [exact IH|].
  apply no_equal_neighbours_cons; [exact IH|]. intros z. rewrite dedup_head. by intros [= <-].
Qed.
Lemma elem_of_dedup l xs : l ∈ dedup xs <-> l ∈ xs.
Proof.
  induction xs as [|x [|y xs] IH]; [done..|]. cbn [dedup]. case_bool_decide as E.
  - subst. rewrite IH, !elem_of_cons. tauto.
  - rewrite elem_of_cons, IH, (elem_of_cons (y :: xs)). tauto.
Qed.

Theorem source_locs_correct (e : PathEntry) :
  no_equal_neighbours (get_all_source_locs e) /\
  forall l, l ∈ get_all_source_locs e <-> exists i, i ∈ bb_instrs (bb e) /\ instr_debug_loc i = Some l.
Proof. split; [apply dedup_neighbours|]. intros l. unfold get_all_source_locs. by rewrite elem_of_dedup, list_elem_of_omap. Qed.

(** What demangling does to a description of a location: only the function's
    name changes. *)
Definition demangled (d : Demangling) (l l' : LocationDescription) : Prop :=
  funcname l' = maybe_demangle d (funcname l) /\ modname l' = modname l /\
  bbname l' = bbname l /\ ld_instr l' = ld_instr l /\ ld_source_loc l' = ld_source_loc l.

Lemma demangle_locdescr_run d l s :
  demangling (config s) = Some d -> exists l', demangle_locdescr l s = (Ok l', s) /\ demangled d l l'.
Proof. intros Hd. eexists. unfold demangle_locdescr, demangle, mbind, M_bind, get. rewrite Hd. cbn. by split. Qed.

Lemma demangle_all_run d ls s :
  demangling (config s) = Some d ->
  exists ls', mapMM demangle_locdescr ls s = (Ok ls', s) /\ Forall2 (demangled d) ls ls'.
Proof.
  intros Hd. induction ls as [|l ls (ls' & E & F)]; [by exists []|]. cbn [mapMM].
  destruct (demangle_locdescr_run d l s Hd) as (l' & El & Fl). exists (l' :: ls'). split; [|by constructor].
  by rewrite (bind_run _ _ _ _ _ El), (bind_run _ _ _ _ _ E).
Qed.

(** The backtrace has a frame for the current location and one for each call
    site, the innermost first, numbered from 1; asking for it changes nothing. *)
Theorem backtrace_frames s d :
  demangling (config s) = Some d ->
  exists frames, pretty_backtrace s = (Ok (concat_strings frames), s) /\ length frames = S (length (stack s)) /\
    forall i l, backtrace_locations s !! i = Some l ->
      exists l', frames !! i = Some (frame_to_string s (Z.of_nat i + 1) l') /\ demangled d l l'.
Proof.
  intros Hd. destruct (demangle_all_run d (backtrace_locations s) s Hd) as (ls' & E & F).
  unfold pretty_backtrace. rewrite (bind_run _ _ _ _ _ (eq_refl : get s = (Ok s, s))), (bind_run _ _ _ _ _ E).
  eexists. split; [reflexivity|]. pose proof (Forall2_length _ _ _ F) as Hl. split.
  - rewrite length_imap, <- Hl. unfold backtrace_locations. cbn. by rewrite length_fmap.
  - intros i l Hi. destruct (Forall2_lookup_l _ _ _ _ _ F Hi) as (l' & Hi' & Hp). exists l'. by rewrite list_lookup_imap, Hi'.
Qed.

End messages.

(** The names of the dumps are recognized in any case. *)
Lemma dump_type_case v v' : make_ascii_uppercase v = make_ascii_uppercase v' -> get_from_env_var (Some v) = get_from_env_var (Some v').
Proof. cbn. by intros ->. Qed.
