(* ===== verification/StateTheorems.v ===== *)
(** * StateTheorems: backtracking and calls restore the state

    What the two stacks of the state promise: a backtrack point brings back
    the state in which it was saved, with its constraint added, whatever
    happened since; returning from a call brings back the caller's variables. *)
From S2P Require Import Prelude Bits Backend ToySolver SolverUtils MemorySpec Memory Alloc LLVMIR ToyLLVM Project Layout VarMap Watchpoints FunctionHooks GlobalAllocations Config State Operands.

Open Scope Z_scope.

Section rules.
Context `{Ops : BackendOps} `{MOps : !MemoryOps} `{L : LLVM}.

Lemma wp_on_solver {A} (c : M SolverRef A) s (Q : outcome A -> State -> Prop) :
  wp c (solver s) (fun r sol => Q r (set_solver sol s)) -> wp (on_solver c) s Q.
Proof.
  intros Hc. apply run_wp. intros r s'. unfold on_solver, zoom.
  destruct (c (solver s)) as [r0 sol] eqn:E. intros [= <- <-]. exact (wp_run _ _ _ _ _ E Hc).
Qed.

Lemma set_solver_id s : set_solver (solver s) s = s.
Proof. by destruct s. Qed.

End rules.

(** ** Backtrack points *)

Section backtracking.
Context `{Laws : BackendLaws} `{MOps : !MemoryOps} `{L : LLVM}.
Implicit Types (s : State) (bp : BacktrackPoint).

(** What can happen to a state while at least [d] backtrack points stay:
    any change of the variables, the memory, the location, the call stack and
    the tables that outlive backtracking; queries that leave the solver as it
    was; new constraints; new path entries; saving and reverting to points
    above the first [d]. *)
Inductive step (d : nat) : State -> State -> Prop :=
| step_query s sol : same_solver (solver s) sol -> step d s (set_solver sol s)
| step_assert s b : get_width b = 1 -> step d s (snd (assert_bv b s))
| step_varmap s vm : step d s (set_varmap vm s)
| step_mem s m : step d s (set_mem m s)
| step_stack s frames : step d s (set_stack frames s)
| step_cur_loc s l : step d s (set_cur_loc l s)
| step_allocator s a : step d s (set_allocator a s)
| step_globals s ga : step d s (set_global_allocations ga s)
| step_watchpoints s w : step d s (set_mem_watchpoints w s)
| step_cache s c : step d s (set_function_ptr_cache c s)
| step_path s : step d s (snd (record_path_entry s))
| step_save s l c : get_width c = 1 -> step d s (snd (save_backtracking_point_at_location l c s))
| step_revert s : (d < length (backtrack_points s))%nat -> step d s (snd (revert_to_backtracking_point s)).

(** [s] still has the point [bp] that was saved in [s0]: its points and
    solver levels extend those of [s0] one for one, and so does its path. *)
Definition extends s0 bp s : Prop :=
  exists bps lvls,
    backtrack_points s = bps ++ bp :: backtrack_points s0 /\
    assertions (solver s) = lvls ++ assertions (solver s0) /\
    length lvls = S (length bps) /\
    path s0 `prefix_of` path s /\
    Forall (fun bp => get_width (bp_constraint bp) = 1 /\ (length (path s0) <= bp_path_len bp)%nat) bps.

Lemma save_eq s l c :
  save_backtracking_point_at_location l c s =
  (Ok tt, set_backtrack_points
            ({| bp_loc := l; bp_stack := stack s; bp_constraint := c; bp_varmap := varmap s;
                bp_mem := mem s; bp_path_len := length (path s) |} :: backtrack_points s)
            (set_solver (btor_push 1 (solver s)) s)).
Proof. done. Qed.

Lemma revert_eq s bp bps :
  backtrack_points s = bp :: bps ->
  revert_to_backtracking_point s =
  (Ok true, {| solver := btor_assert (bp_constraint bp) (btor_pop 1 (solver s)); config := config s;
               cur_loc := bp_loc bp; varmap := bp_varmap bp; mem := bp_mem bp; allocator := allocator s;
               global_allocations := global_allocations s; intrinsic_hooks := intrinsic_hooks s;
               stack := bp_stack bp; backtrack_points := bps; path := take (bp_path_len bp) (path s);
               mem_watchpoints := mem_watchpoints s; function_ptr_cache := function_ptr_cache s |}).
Proof.
  intros E. unfold revert_to_backtracking_point, mbind at 1, M_bind at 1, get. cbn iota beta.
  rewrite E. reflexivity.
Qed.

Lemma push_assertions sol : assertions (btor_push 1 sol) = [] :: assertions sol.
Proof. by destruct (btor_push_law 1 sol ltac:(lia)) as [-> _]. Qed.

Lemma pop_assertions sol l l' ls : assertions sol = l :: l' :: ls -> assertions (btor_pop 1 sol) = l' :: ls.
Proof.
  intros E. destruct (btor_pop_law 1 sol) as [-> _]; [rewrite E; cbn [length]; lia|]. by rewrite E.
Qed.

Lemma extends_assert s0 bp s b :
  get_width b = 1 -> extends s0 bp s -> extends s0 bp (set_solver (btor_assert b (solver s)) s).
Proof.
  intros Wb (bps & lvls & Eb & Ea & El & Ep & Ef). exists bps. destruct lvls as [|l lvls]; [done|].
  exists ((b :: l) :: lvls). cbn in *. by destruct (btor_assert_law b l _ _ Wb Ea) as [-> _].
Qed.

Lemma extends_save s0 bp s l c :
  get_width c = 1 -> extends s0 bp s -> extends s0 bp (snd (save_backtracking_point_at_location l c s)).
Proof.
  intros Wc (bps & lvls & Eb & Ea & El & Ep & Ef). rewrite save_eq. cbn [snd].
  eexists (_ :: bps), ([] :: lvls). cbn. rewrite Eb, push_assertions, Ea. split; [done|].
  split; [done|]. split; [by rewrite El|]. split; [done|]. constructor; [|done]. cbn.
  split; [done|]. by apply prefix_length.
Qed.

Lemma prefix_take {A} (xs ys : list A) n : xs `prefix_of` ys -> (length xs <= n)%nat -> xs `prefix_of` take n ys.
Proof. intros [zs ->] Hn. rewrite take_app, take_ge by done. by apply prefix_app_r. Qed.

Lemma extends_revert s0 bp s :
  extends s0 bp s -> (S (length (backtrack_points s0)) < length (backtrack_points s))%nat ->
  extends s0 bp (snd (revert_to_backtracking_point s)).
Proof.
  intros (bps & lvls & Eb & Ea & El & Ep & Ef) Hd. rewrite Eb, length_app in Hd.
  destruct bps as [|bp' bps]; [cbn in Hd; lia|]. destruct lvls as [|l [|l' lvls]]; [done..|].
  apply Forall_cons in Ef as [[Wc Hl] Ef]. cbn [app] in Ea, Eb. pose proof (pop_assertions _ _ _ _ Ea) as Hp.
  destruct (btor_assert_law (bp_constraint bp') _ _ _ Wc Hp) as [Ha _].
  rewrite (revert_eq _ _ _ Eb). cbn [snd].
  exists bps, ((bp_constraint bp' :: l') :: lvls). cbn. rewrite Ha.
  split; [done|]. split; [done|]. split; [cbn in El; lia|]. split; [|done]. by apply prefix_take.
Qed.

Lemma step_extends s0 bp s s' :
  extends s0 bp s -> step (S (length (backtrack_points s0))) s s' -> extends s0 bp s'.
Proof.
  intros He Hs. pose proof He as (bps & lvls & Eb & Ea & El & Ep & Ef).
  destruct Hs as [s sol [Es _]|s b Wb| | | | | | | | |s|s l c Wc|s Hr]; try (by exists bps, lvls).
  - exists bps, lvls. cbn. by rewrite Es.
  - by apply extends_assert.
  - exists bps, lvls. cbn. split; [done|]. split; [done|]. split; [done|]. split; [|done]. by apply prefix_app_r.
  - by apply extends_save.
  - by apply extends_revert.
Qed.

(** C9: backtracking.  Save a point with a constraint, then let anything
    happen to the state (new constraints, writes, calls and returns, further
    points saved and reverted to) as long as this point stays the one on top
    at the end.  Reverting then succeeds and gives back the location that was
    asked for and the variables, memory, call stack, path and older points of
    the moment the point was saved; the constraints are exactly those of that
    moment and the one saved with the point.  Allocations and globals' flags
    are not rolled back. *)
Theorem backtracking_restores s0 l c s1 s2 :
  solver_ok (solver s0) -> get_width c = 1 ->
  save_backtracking_point_at_location l c s0 = (Ok tt, s1) ->
  rtc (step (S (length (backtrack_points s0)))) s1 s2 ->
  length (backtrack_points s2) = S (length (backtrack_points s0)) ->
  exists s3, revert_to_backtracking_point s2 = (Ok true, s3) /\
    cur_loc s3 = l /\ varmap s3 = varmap s0 /\ mem s3 = mem s0 /\ stack s3 = stack s0 /\
    path s3 = path s0 /\ backtrack_points s3 = backtrack_points s0 /\
    (forall m, models (solver s3) m <-> models (solver s0) m /\ eval m c = 1) /\
    allocator s3 = allocator s2 /\ global_allocations s3 = global_allocations s2.
Proof.
  intros O Wc Hsave Hs Hlen. rewrite save_eq in Hsave.
  set (bp := {| bp_loc := l; bp_stack := stack s0; bp_constraint := c; bp_varmap := varmap s0;
                bp_mem := mem s0; bp_path_len := length (path s0) |}) in Hsave.
  assert (extends s0 bp s1) as He.
  { injection Hsave as <-. exists [], [[]]. cbn. by rewrite push_assertions. }
  assert (extends s0 bp s2) as (bps & lvls & Eb & Ea & El & [zs Ep] & _).
  { clear Hsave Hlen. induction Hs as [|? ? ? ? _ IH]; [done|]. by eapply IH, step_extends. }
  destruct bps as [|? bps]; [|rewrite Eb in Hlen; cbn in Hlen; rewrite length_app in Hlen; cbn in Hlen; lia].
  destruct lvls as [|l0 [|]]; [done| |done]. cbn [app] in Ea, Eb.
  destruct (assertions (solver s0)) as [|l1 ls] eqn:E0; [by destruct O|].
  pose proof (pop_assertions _ _ _ _ Ea) as Hp.
  eexists. split; [by apply revert_eq|]. cbn. repeat (split; [done|]).
  split; [by rewrite Ep, take_app_length|]. split; [done|]. split; [|done].
  intros m. rewrite models_assert; [|done|by unfold solver_ok; rewrite Hp].
  unfold models. rewrite Hp, E0. tauto.
Qed.

End backtracking.

(** ** Calls *)

Section calls.
Context `{Ops : BackendOps} `{MOps : !MemoryOps} `{L : LLVM}.
Implicit Types s : State.

Lemma pop_callsite_eq s frame rest vm :
  stack s = frame :: rest -> restore_fn_vars (restore_info frame) (varmap s) = (Ok tt, vm) ->
  pop_callsite s = (Ok (Some (callsite frame)), set_varmap vm (set_stack rest s)).
Proof.
  intros E1 E2. unfold pop_callsite, mbind, M_bind, get. rewrite E1.
  unfold modify, on_varmap, zoom. change (varmap (set_stack rest s)) with (varmap s). by rewrite E2.
Qed.

(** C10: calls.  Whatever bindings are made between entering a call and
    leaving it (by the callee or by deeper calls, recursion included), leaving
    the call returns the call site that was entered, restores every variable
    the caller had, changes no variable of any other function, and leaves the
    older call sites, the memory and the solver alone. *)
Theorem call_restores_caller s i s2 sol :
  rtc VarMap.step (varmap s, sol) (varmap s2, solver s2) ->
  stack s2 = stack (snd (push_generic_callsite i s)) ->
  exists s3, pop_callsite s2 = (Ok (Some {| callsite_loc := cur_loc s; callsite_instr := i |}), s3) /\
    stack s3 = stack s /\
    (forall n bv, lookup_var (varmap s) (cur_fn s) n = Ok bv -> lookup_var (varmap s3) (cur_fn s) n = Ok bv) /\
    (forall g n, g <> cur_fn s -> lookup_var (varmap s3) g n = lookup_var (varmap s2) g n) /\
    mem s3 = mem s2 /\ solver s3 = solver s2 /\ backtrack_points s3 = backtrack_points s2.
Proof.
  intros Hs Hst. destruct (restore_fn_vars_restores _ _ _ _ (cur_fn s) Hs) as (vm & E & H1 & H2 & _).
  exists (set_varmap vm (set_stack (stack s) s2)). split; [|done].
  change (stack s2 = {| callsite := {| callsite_loc := cur_loc s; callsite_instr := i |};
                        restore_info := get_restore_info_for_fn (varmap s) (cur_fn s) |} :: stack s) in Hst.
  by rewrite (pop_callsite_eq _ _ _ _ Hst E).
Qed.

End calls.

(** ** Memory accesses *)

Section accesses.
Context `{Laws : BackendLaws} `{MOps : !MemoryOps} `{MLaws : !MemoryLaws} `{L : LLVM}.
Implicit Types s : State.

(** Everything but the solver is unchanged, and the solver has the same
    constraints. *)
Definition only_queried s s' : Prop :=
  exists sol, same_solver (solver s) sol /\ s' = set_solver sol s.

(** What a null-pointer error leaves behind: with [SplitPath], a backtrack
    point that resumes at the current location under the constraint that the
    address is not null. *)
Definition null_split s addr s' : Prop :=
  match null_pointer_checking (config s) with
  | NPSplitPath =>
      exists sol bp, same_solver (solver s) sol /\
        s' = set_backtrack_points (bp :: backtrack_points s) (set_solver (btor_push 1 sol) s) /\
        bp_loc bp = cur_loc s /\ bp_mem bp = mem s /\ bp_varmap bp = varmap s /\ bp_stack bp = stack s /\
        bp_path_len bp = length (path s) /\
        get_width (bp_constraint bp) = 1 /\ forall m, eval m (bp_constraint bp) = 1 <-> eval m addr <> 0
  | _ => only_queried s s'
  end.

(** The outcome of a memory access in a state. *)
Definition state_access {A} s addr (Q : A -> State -> Prop) (r : outcome A) (s' : State) : Prop :=
  match r with
  | Ok a => (mem_null_detection (mem s) = true -> ~ possible (solver s) addr 0) /\ Q a s'
  | Err e => query_failed e \/
             e = NullPointerDereference /\ mem_null_detection (mem s) = true /\
             possible (solver s) addr 0 /\ null_split s addr s'
  | _ => False
  end.

(** Watchpoints as [Watchpoint::new] makes them, above address 0 and of a
    size that fits in 32 bits. *)
Definition watch_ok s : Prop :=
  forall name w e, mem_watchpoints s !! name = Some (w, e) ->
    wf_watchpoint w /\ 0 < low w /\ 8 * (high w - low w + 1) < 2 ^ 32.

Lemma wp_split_on_null s addr sol (Q : outcome unit -> State -> Prop) :
  same_solver (solver s) sol -> (forall s', null_split s addr s' -> Q (Ok tt) s') ->
  wp (split_on_null addr) (set_solver sol s) Q.
Proof.
  intros Hs HQ. unfold split_on_null. wp_step. cbn. pose proof (width_pos addr) as Hw.
  unfold null_split in HQ. destruct (null_pointer_checking (config s)).
  - apply wp_ret, HQ. by exists sol.
  - apply run_wp. intros r s'. rewrite save_eq. intros [= <- <-]. apply HQ. eexists sol, _.
    split; [done|]. split; [reflexivity|]. cbn. repeat (split; [done|]). split.
    + apply (pred_width bv_ne _ _ _ bv_ne_law). by rewrite zero_width.
    + intros m. rewrite (pred_eval bv_ne _ _ _ m bv_ne_law), zero_eval, b2z_1 by (done || by rewrite zero_width).
      destruct (Z.eqb_spec (eval m addr) 0); cbn; intuition congruence.
  - apply wp_ret, HQ. by exists sol.
Qed.

(** An access to the memory object, followed by the null-pointer split. *)
Lemma wp_access_or_split {A} s addr (c : M SolverRef A) (P : A -> Prop) (Q : outcome A -> State -> Prop) :
  wp c (solver s) (access (mem_null_detection (mem s)) (solver s) addr P) ->
  (forall a sol, same_solver (solver s) sol -> (mem_null_detection (mem s) = true -> ~ possible (solver s) addr 0) ->
     P a -> Q (Ok a) (set_solver sol s)) ->
  (forall e s', state_access s addr (fun _ _ => False) (Err e : outcome A) s' -> Q (Err e) s') ->
  wp (access_or_split addr c) s Q.
Proof.
  intros Hc HOk HErr. unfold access_or_split. apply wp_bind, wp_catch, wp_on_solver. eapply wp_mono; [exact Hc|].
  intros [a|e|p|] sol; cbn; try done.
  - intros (Hs & Hn & Ha). apply wp_lift. by apply HOk.
  - intros [Hf|(-> & Hnd & Hp & Hs)].
    + assert (e <> NullPointerDereference) as Hne by (destruct Hf as [-> _]; done).
      assert (wp (lift (Err e)) (set_solver sol s) Q) as Hl by (apply wp_lift, HErr; by left).
      by destruct e.
    + apply wp_bind, wp_split_on_null; [done|]. intros s' Hsp. apply wp_lift, HErr. right. done.
Qed.

Lemma wp_get_triggered_state s sol addr bits (Q : outcome (list (string * Watchpoint)) -> State -> Prop) :
  solver_ok (solver s) -> watch_ok s -> get_width addr = 64 -> 0 < bits < 2 ^ 32 -> same_solver (solver s) sol ->
  (forall e s', query_failed e -> Q (Err e) s') ->
  (forall l sol', same_solver (solver s) sol' ->
     (forall name w, (name, w) ∈ l -> mem_watchpoints s !! name = Some (w, true)) -> Q (Ok l) (set_solver sol' s)) ->
  wp (on_solver (get_triggered_watchpoints (mem_watchpoints s) addr bits)) (set_solver sol s) Q.
Proof.
  intros O Hw W Hb Hs HErr HOk. apply wp_on_solver. eapply wp_mono; [apply wp_get_triggered; [|by intros ? ? ? [? _]%Hw|done|done]|].
  { cbn. by rewrite <- Hs. }
  intros [l|e|p|] sol'; cbn; try done; [|by apply HErr].
  intros [Hs' Hl]. apply HOk; [by rewrite Hs|]. intros name w Hin. by apply Hl.
Qed.

Lemma access_failed {A B} s addr (Q : B -> State -> Prop) e s' :
  state_access s addr (fun (_ : A) _ => False) (Err e) s' -> state_access s addr Q (Err e) s'.
Proof. done. Qed.

(** [State::read] on every branch. *)
Lemma wp_state_read s addr bits :
  mem_wf (mem s) -> solver_ok (solver s) -> watch_ok s -> get_width addr = 64 -> read_size bits ->
  wp (read addr bits) s (state_access s addr (fun v s' =>
    only_queried s s' /\ get_width v = bits /\
    forall m, reads (mem_bit (mem s) m) (8 * eval m addr) bits (eval m v))).
Proof.
  intros Hm O Hw W Hb. unfold read. wp_step. apply wp_bind.
  eapply wp_access_or_split; [exact (mem_read_law _ _ _ _ Hm O W Hb)| |].
  - intros v sol Hs Hn [Wv Hv]. wp_step. apply wp_bind. cbn [mem_watchpoints set_solver].
    destruct Hb as [Hb _]. apply wp_get_triggered_state; [done..|by left|].
    intros l sol' Hs' _. apply wp_ret. split; [done|]. split; [by exists sol'|]. by split.
  - intros e s'. apply access_failed.
Qed.

(** Reading back a triggered watchpoint after a write: a query. *)
Lemma wp_watch_read s w (Q : outcome unit -> State -> Prop) :
  mem_wf (mem s) -> solver_ok (solver s) ->
  wf_watchpoint w -> 0 < low w -> 8 * (high w - low w + 1) < 2 ^ 32 ->
  (forall e s', query_failed e -> Q (Err e) s') ->
  (forall s', only_queried s s' -> Q (Ok tt) s') ->
  wp (len ← lift (u64_sub (high w) (low w));
      len ← lift (u64_add len 1);
      watchpoint_size_bits ← lift (u64_mul len 8);
      s ← get;
      _ ← on_solver (mem_read (mem s) (from_u64 (low w) (as_u32 POINTER_SIZE_BITS)) (as_u32 watchpoint_size_bits));
      mret tt) s Q.
Proof.
  intros Hm O [Hw1 Hw2] Hlow Hsz HErr HOk. unfold u64_max in Hw2.
  unfold u64_sub, u64_add, u64_mul, u64_max. rewrite (proj2 (Z.leb_le (low w) (high w))) by lia. wp_step.
  rewrite (proj2 (Z.leb_le (high w - low w + 1) _)) by lia. wp_step.
  rewrite (proj2 (Z.leb_le ((high w - low w + 1) * 8) _)) by lia. wp_step. wp_step.
  unfold as_u32 at 2. rewrite Z.mod_small by lia. change (as_u32 POINTER_SIZE_BITS) with 64.
  destruct (from_u64_law (low w) 64 ltac:(lia) ltac:(lia) ltac:(lia)) as [Wl El].
  apply wp_bind, wp_on_solver. eapply wp_mono; [apply mem_read_law; [done|done|done|]|].
  { split; [lia|right]. by rewrite Z.mul_comm, Z.mul_comm, Z.mod_mul by lia. }
  intros [v|e|p|] sol; cbn; try done.
  - intros (Hs & _ & _). apply wp_ret, HOk. by exists sol.
  - intros [Hf|(_ & _ & (m & _ & Hp) & _)]; [by apply HErr|]. rewrite El in Hp. lia.
Qed.

Lemma only_queried_trans s s' s'' : only_queried s s' -> only_queried s' s'' -> only_queried s s''.
Proof.
  intros (sol & H1 & ->) (sol' & H2 & ->). exists sol'. cbn in H2. split; [by rewrite H1|done].
Qed.

(** [State::write] on every branch. *)
Lemma wp_state_write s addr v :
  mem_wf (mem s) -> solver_ok (solver s) -> watch_ok s -> get_width addr = 64 -> byte_size (get_width v) ->
  wp (write addr v) s (state_access s addr (fun _ s' =>
    exists mem', only_queried (set_mem mem' s) s' /\ mem_wf mem' /\
      mem_null_detection mem' = mem_null_detection (mem s) /\
      forall m, writes (mem_bit (mem s) m) (mem_bit mem' m) (8 * eval m addr) (get_width v) (eval m v))).
Proof.
  intros Hm O Hw W Hb. unfold write, write_without_mut. wp_step. apply wp_bind.
  eapply wp_access_or_split; [exact (mem_write_law _ _ _ _ Hm O W Hb)| |intros e s'; apply access_failed].
  intros mem' sol Hs Hn (Hm' & Hnd & Hwr). wp_step. wp_step. apply wp_bind.
  change (set_mem mem' (set_solver sol s)) with (set_solver sol (set_mem mem' s)).
  cbn [mem_watchpoints set_solver]. destruct Hb as [Hb _].
  apply (wp_get_triggered_state (set_mem mem' s)); [done..|by left|]. intros l sol' Hs' Hl.
  assert (forall s1, only_queried (set_mem mem' s) s1 ->
    state_access s addr (fun (_ : unit) s' => exists mem', only_queried (set_mem mem' s) s' /\ mem_wf mem' /\
      mem_null_detection mem' = mem_null_detection (mem s) /\
      forall m, writes (mem_bit (mem s) m) (mem_bit mem' m) (8 * eval m addr) (get_width v) (eval m v)) (Ok tt) s1) as HQ.
  { intros s1 Hq. split; [done|]. by exists mem'. }
  assert (only_queried (set_mem mem' s) (set_solver sol' (set_mem mem' s))) as Hq by (by exists sol').
  revert Hq Hl. generalize (set_solver sol' (set_mem mem' s)). induction l as [|[name w] l IH]; intros s1 Hq Hl; cbn [forM].
  { apply wp_ret. by apply HQ. }
  pose proof Hq as (sol1 & Hsol1 & ->). destruct (Hw name w true) as (Hwf & Hlow & Hsz); [apply Hl; left|].
  apply wp_bind, (wp_watch_read _ w); [done|cbn; by rewrite <- Hsol1|done|done|done|by left|].
  intros s2 Hq2. apply IH; [by eapply only_queried_trans|]. intros n w' Hin. apply Hl. by right.
Qed.

End accesses.

(** ** Single solutions *)

Section solutions.
Context `{Laws : BackendLaws} `{MOps : !MemoryOps} `{L : LLVM}.
(** The documented behaviour of [BVSolution::as_u64]: arbitrary bits are 0. *)
Context (as_u64_disambiguates : forall x, sol_as_u64 x = sol_as_u64 (disambiguate x)).

(** A value of a vector, from a query of its own. *)
Definition solution_value_of (s : SolverRef) (bv : BV) (x : option BVSolution) : Prop :=
  exists sol u, x = Some sol /\ sol_as_u64 sol = Some u /\ possible s bv u.

Lemma as_u64_solution_of bv u : get_width bv <= 64 -> 0 <= u < 2 ^ get_width bv -> sol_as_u64 (solution_of bv u) = Some u.
Proof. intros Hw Hu. pose proof (width_pos bv). apply sol_as_u64_law; lia. Qed.

Lemma wp_get_a_solution s bv :
  satisfiable (solver s) -> get_width bv <= 64 -> model_gen (solver s) = false ->
  wp (get_a_solution_for_bv bv) s (fun r s' =>
    match r with
    | Ok x => (exists sol, s' = set_solver sol s /\ same_solver (solver s) sol) /\ solution_value_of (solver s) bv x
    | Err e => query_failed e
    | _ => False
    end).
Proof.
  intros Hsat Hw G. unfold get_a_solution_for_bv. destruct (as_binary_str bv) as [str|] eqn:Eb.
  - apply wp_ret. split; [exists (solver s); split; [by rewrite set_solver_id|done]|].
    destruct (as_binary_str_law bv str Eb) as (u & -> & Hr & Hu). destruct Hsat as [m Hm].
    exists (solution_of bv u), u. split; [done|]. split; [by apply as_u64_solution_of|]. by exists m.
  - apply wp_bind, wp_on_solver, wp_modify. cbn. apply wp_bind, wp_on_solver.
    destruct (btor_set_model_gen_law true (solver s)) as [L1 L2].
    eapply wp_mono; [apply wp_sat|]. intros [b|e|p|] sol2; cbn; [|done..]. intros ([E2 G2] & Hb & Hs2). cbn in E2, G2, Hs2.
    assert (b = true) as ->. { apply Hb. destruct Hsat as [m Hm]. exists m. unfold models. by rewrite L1. }
    specialize (Hs2 eq_refl). destruct (btor_get_a_solution_law bv _ _ Hs2 L2) as (m & Hm & Em).
    apply wp_bind, run_wp. intros r s' [= <- <-]. apply wp_bind, wp_on_solver, wp_modify, wp_ret. cbn.
    destruct (btor_set_model_gen_law false sol2) as [L3 L4]. split.
    + exists (btor_set_model_gen false sol2). split; [done|]. split; congruence.
    + exists (btor_get_a_solution bv sol2), (eval m bv). split; [done|]. split.
      * rewrite as_u64_disambiguates, <- (from_as_01x_str (disambiguate _)), Em. apply as_u64_solution_of; [done|apply eval_range].
      * exists m. split; [|done]. unfold models in *. by rewrite L1 in Hm.
Qed.

End solutions.
