(* ===== verification/SymexTheorems.v ===== *)
(** * SymexTheorems: branches explore exactly the feasible paths

    What the terminators promise about exploration: at a conditional branch or
    a switch, every assignment that satisfies the constraints is followed, now
    or from a saved backtrack point, into the block the program would enter,
    and no other. *)
From S2P Require Import Prelude Bits Backend ToySolver SolverUtils MemorySpec Memory Alloc LLVMIR ToyLLVM Project Layout VarMap Watchpoints FunctionHooks GlobalAllocations Config State Operands Hooks SymexInstr Symex StateTheorems.

Open Scope Z_scope.

Section branches.
Context `{Laws : BackendLaws} `{MOps : !MemoryOps} `{L : LLVM} `{CF : ConstFuel} `{UC : !UserCode}.
Implicit Types (s : State) (E : Engine) (P : Model -> Prop).

(** [l] is the start of the block [dest] of the function of [l0]. *)
Definition at_bb (l0 : Location) (dest : Name) (l : Location) : Prop :=
  module l = module l0 /\ func l = func l0 /\ instr l = Instr 0 /\
  get_bb_by_name (func l0) dest = Some (bb l).

(** [s'] goes on at [dest] with [P] added to the constraints of [s], and has
    the variables, memory, call stack and path of [s]. *)
Definition continues s (dest : Name) P s' : Prop :=
  at_bb (cur_loc s) dest (cur_loc s') /\
  (forall m, models (solver s') m <-> models (solver s) m /\ P m) /\
  varmap s' = varmap s /\ mem s' = mem s /\ stack s' = stack s /\ path s' = path s.

(** [bp] would do the same after backtracking. *)
Definition saved s (dest : Name) P (bp : BacktrackPoint) : Prop :=
  at_bb (cur_loc s) dest (bp_loc bp) /\
  get_width (bp_constraint bp) = 1 /\ (forall m, eval m (bp_constraint bp) = 1 <-> P m) /\
  bp_varmap bp = varmap s /\ bp_mem bp = mem s /\ bp_stack bp = stack s /\ bp_path_len bp = length (path s).

Lemma sat_extra_run s cs r s' :
  Forall (fun c => get_width c = 1) cs -> solver_ok (solver s) ->
  sat_with_extra_constraints cs s = (r, s') ->
  (exists e, r = Err e /\ query_failed e) \/
  exists b sol, r = Ok b /\ s' = set_solver sol s /\ same_solver (solver s) sol /\
    (b = true <-> feasible (solver s) (fun m => Forall (fun c => eval m c = 1) cs)).
Proof.
  intros Hc O Hr. pattern r, s'. apply (wp_run _ _ _ _ _ Hr). apply wp_on_solver.
  eapply wp_mono; [by apply wp_sat_with_extra_constraints|].
  intros [b|e|p|] sol; cbn; [|intros Hq; left; by exists e|done|done]. intros [Hs Hb]. right. by exists b, sol.
Qed.

Lemma feasible_single s (c : BV) :
  feasible (solver s) (fun m => Forall (fun c => eval m c = 1) [c]) <-> feasible (solver s) (fun m => eval m c = 1).
Proof.
  unfold feasible. split; intros (m & Hm & Hc); exists m; (split; [done|]).
  - by apply (proj1 (Forall_singleton _ _)) in Hc.
  - by apply Forall_singleton.
Qed.

Lemma goto_bb_eq s dest b :
  get_bb_by_name (func (cur_loc s)) dest = Some b ->
  goto_bb dest s = (Ok tt, set_cur_loc (move_to_start_of_bb (cur_loc s) b) s).
Proof.
  intros Hb. unfold goto_bb, mbind, M_bind, get, lift, move_to_start_of_bb_by_name. by rewrite Hb.
Qed.

Lemma save_point_eq s dest b c :
  get_bb_by_name (func (cur_loc s)) dest = Some b ->
  save_backtracking_point dest c s =
  save_backtracking_point_at_location
    {| module := module (cur_loc s); func := func (cur_loc s); bb := b; instr := Instr 0; source_loc := None |} c s.
Proof. intros Hb. unfold save_backtracking_point, mbind, M_bind, get, lift. by rewrite Hb. Qed.

(** Asserting a constraint and going to a block. *)
Lemma assert_goto_eq s c dest b (k : M State (option (ReturnValue BV))) :
  get_bb_by_name (func (cur_loc s)) dest = Some b ->
  (_ ← assert_bv c; _ ← goto_bb dest; k) s =
  k (set_cur_loc (move_to_start_of_bb (cur_loc s) b) (set_solver (btor_assert c (solver s)) s)).
Proof.
  intros Hb. unfold mbind at 1, M_bind at 1. unfold assert_bv, on_solver, zoom, bv_assert.
  cbn iota beta. unfold mbind, M_bind. rewrite (goto_bb_eq _ dest b) by done. done.
Qed.

Lemma continues_assert s s1 c dest b :
  get_width c = 1 -> get_bb_by_name (func (cur_loc s)) dest = Some b ->
  cur_loc s1 = cur_loc s -> varmap s1 = varmap s -> mem s1 = mem s -> stack s1 = stack s -> path s1 = path s ->
  solver_ok (solver s1) -> (forall m, models (solver s1) m <-> models (solver s) m) ->
  continues s dest (fun m => eval m c = 1)
    (set_cur_loc (move_to_start_of_bb (cur_loc s1) b) (set_solver (btor_assert c (solver s1)) s1)).
Proof.
  intros Wc Hb El Ev Em Es Ep O Hm. split; [by rewrite El|]. cbn. split; [|done].
  intros m. rewrite models_assert, Hm by done. tauto.
Qed.

Lemma push_same sol : (forall m, models (btor_push 1 sol) m <-> models sol m) /\ solver_ok (btor_push 1 sol).
Proof.
  unfold models, solver_ok. rewrite push_assertions. by split.
Qed.

(** Asking whether a condition can be true and whether it can be false. *)
Lemma query_both {A} s c (k : bool -> bool -> M State A) :
  get_width c = 1 -> solver_ok (solver s) ->
  let prog := (t ← sat_with_extra_constraints [c]; f ← sat_with_extra_constraints [bv_not c]; k t f) in
  (exists e s', prog s = (Err e, s') /\ query_failed e) \/
  exists t f sol, prog s = k t f (set_solver sol s) /\ same_solver (solver s) sol /\
    (t = true <-> feasible (solver s) (fun m => eval m c = 1)) /\
    (f = true <-> feasible (solver s) (fun m => eval m c = 0)).
Proof.
  intros Wc O prog. pose proof (not_width c) as Wn. rewrite Wc in Wn.
  assert (forall m, eval m (bv_not c) = 1 <-> eval m c = 0) as Hnot by (intros m; by apply not_bit).
  unfold prog. unfold mbind at 1 3, M_bind at 1 3. destruct (sat_with_extra_constraints [c] s) as [r1 s1] eqn:E1.
  apply sat_extra_run in E1; [|by apply Forall_singleton|done].
  destruct E1 as [(e & -> & Hq)|(t & sol1 & -> & -> & Hs1 & HT)]; [left; eauto|].
  unfold mbind at 1 2, M_bind at 1 2.
  destruct (sat_with_extra_constraints [bv_not c] (set_solver sol1 s)) as [r2 s2] eqn:E2.
  apply sat_extra_run in E2; [|by apply Forall_singleton|cbn; by rewrite <- Hs1].
  destruct E2 as [(e & -> & Hq)|(f & sol2 & -> & -> & Hs2 & HF)]; [left; eauto|].
  right. exists t, f, sol2. rewrite feasible_single in HT, HF. cbn [solver set_solver] in Hs2, HF.
  split; [done|]. split; [by rewrite Hs1|]. split; [done|]. rewrite HF. unfold feasible.
  setoid_rewrite <- Hs1. by setoid_rewrite Hnot.
Qed.

(** C7: a conditional branch.  Unless a solver query fails, [symex_condbr]
    continues into the true block when the condition can hold, with the
    condition added to the constraints; if it can also be false it first
    saves a point that resumes in the false block with the negated condition;
    if it can only be false it continues there; and if neither is possible it
    backtracks.  Together the continuation and the point cover every model of
    the constraints, and nothing else of the state changes. *)
Theorem condbr_explores E condbr s s1 c bt bf :
  operand_to_bv (condbr_condition condbr) s = (Ok c, s1) ->
  get_width c = 1 -> solver_ok (solver s1) ->
  get_bb_by_name (func (cur_loc s1)) (condbr_true_dest condbr) = Some bt ->
  get_bb_by_name (func (cur_loc s1)) (condbr_false_dest condbr) = Some bf ->
  let T := feasible (solver s1) (fun m => eval m c = 1) in
  let F := feasible (solver s1) (fun m => eval m c = 0) in
  (exists e s2, symex_condbr E condbr s = (Err e, s2) /\ query_failed e) \/
  exists s2,
    (T /\ F /\ symex_condbr E condbr s = symex_from_cur_loc_through_end_of_function E s2 /\
       continues s1 (condbr_true_dest condbr) (fun m => eval m c = 1) s2 /\
       exists bp, backtrack_points s2 = bp :: backtrack_points s1 /\
         saved s1 (condbr_false_dest condbr) (fun m => eval m c = 0) bp) \/
    (T /\ ~ F /\ symex_condbr E condbr s = symex_from_cur_loc_through_end_of_function E s2 /\
       continues s1 (condbr_true_dest condbr) (fun m => eval m c = 1) s2 /\
       backtrack_points s2 = backtrack_points s1) \/
    (~ T /\ F /\ symex_condbr E condbr s = symex_from_cur_loc_through_end_of_function E s2 /\
       continues s1 (condbr_false_dest condbr) (fun m => eval m c = 0) s2 /\
       backtrack_points s2 = backtrack_points s1) \/
    (~ T /\ ~ F /\ symex_condbr E condbr s = backtrack_and_continue E s2 /\ only_queried s1 s2).
Proof.
  intros Hop Wc O Ht Hf T F. pose proof (not_width c) as Wn. rewrite Wc in Wn.
  remember (symex_condbr E condbr s) as R eqn:HR. unfold symex_condbr in HR.
  unfold mbind at 1, M_bind at 1 in HR. rewrite Hop in HR.
  match type of HR with R = (_ ≫= (fun t => _ ≫= (fun f => @?k t f))) _ =>
    destruct (query_both s1 c k Wc O) as [(e & s' & He & Hq)|(bT & bF & sol & Hk & Hs & HT & HF)] end.
  { left. exists e, s'. split; [|done]. by rewrite HR. }
  rewrite Hk in HR. cbv beta in HR. clear Hk. right.
  assert (solver_ok sol) as O2 by by rewrite <- Hs.
  assert (forall m, models sol m <-> models (solver s1) m) as Hm by (intros m; by rewrite Hs).
  destruct bT, bF; cbn [andb] in HR.
  - unfold mbind at 1, M_bind at 1 in HR. rewrite (save_point_eq _ _ bf), save_eq in HR by done.
    cbn iota in HR. rewrite (assert_goto_eq _ _ _ bt) in HR by done. destruct (push_same sol) as [Hp Op].
    eexists. left. split; [by apply HT|]. split; [by apply HF|]. split; [exact HR|]. split.
    + apply continues_assert; try done. intros m. cbn. by rewrite Hp.
    + eexists. split; [reflexivity|]. repeat (split; [done|]). split; [|done]. intros m. by apply not_bit.
  - rewrite (assert_goto_eq _ _ _ bt) in HR by done. eexists. right; left.
    split; [by apply HT|]. split; [intros HFF; by apply HF in HFF|]. split; [exact HR|].
    split; [by apply continues_assert|done].
  - rewrite (assert_goto_eq _ _ _ bf) in HR by done. eexists. right; right; left.
    split; [intros HTT; by apply HT in HTT|]. split; [by apply HF|]. split; [exact HR|].
    split; [|done]. destruct (continues_assert s1 (set_solver sol s1) (bv_not c) _ bf Wn Hf) as (? & Hc & ?); try done.
    split; [done|]. split; [|done]. intros m. by rewrite Hc, not_bit.
  - eexists. right; right; right. split; [intros HTT; by apply HT in HTT|].
    split; [intros HFF; by apply HF in HFF|]. split; [exact HR|]. by exists sol.
Qed.

(** ** Switches *)

(** [s'] is [s] with the points [bps] saved and nothing else changed. *)
Definition branched s bps s' : Prop :=
  exists sol, s' = set_backtrack_points (bps ++ backtrack_points s) (set_solver sol s) /\
    solver_ok sol /\ forall m, models sol m <-> models (solver s) m.

Lemma branched_save s s' bps dest b c :
  branched s bps s' -> get_bb_by_name (func (cur_loc s)) dest = Some b -> get_width c = 1 ->
  exists bp s'', save_backtracking_point dest c s' = (Ok tt, s'') /\ branched s (bp :: bps) s'' /\
    saved s dest (fun m => eval m c = 1) bp.
Proof.
  intros (sol & -> & O & Hm) Hb Wc. rewrite (save_point_eq _ _ b), save_eq by done.
  eexists _, _. split; [reflexivity|].
  destruct (push_same sol) as [Hp Op]. split.
  - exists (btor_push 1 sol). split; [reflexivity|]. split; [done|]. intros m. by rewrite Hp.
  - by repeat (split; [done|]).
Qed.

Lemma branched_query s s' bps sol : branched s bps s' -> same_solver (solver s') sol -> branched s bps (set_solver sol s').
Proof.
  intros (sol' & -> & O & Hm) Hs. cbn in Hs. exists sol. split; [done|]. split; [by rewrite <- Hs|].
  intros m. by rewrite <- Hs.
Qed.

Definition equals (v switchval : BV) (m : Model) : Prop := eval m v = eval m switchval.

Lemma eq_bit m a b : get_width a = get_width b -> (eval m (bv_eq a b) = 1 <-> eval m a = eval m b).
Proof. intros W. by rewrite (pred_eval bv_eq _ _ _ m bv_eq_law W), b2z_1, Z.eqb_eq. Qed.

Lemma saved_iff s dest P Q bp : (forall m, P m <-> Q m) -> saved s dest P bp -> saved s dest Q bp.
Proof. intros HPQ (? & ? & Hp & ?). split; [done|]. split; [done|]. split; [|done]. intros m. by rewrite Hp. Qed.

(** A destination of a switch: its value can be compared and its block
    exists. *)
Definition dest_ok s (switchval : BV) (d : BV * Name) : Prop :=
  get_width d.1 = get_width switchval /\ is_Some (get_bb_by_name (func (cur_loc s)) d.2).

Lemma save_dests s switchval dests : forall s' bps,
  branched s bps s' -> Forall (dest_ok s switchval) dests ->
  exists bps' s'',
    forM dests (fun '(val, name) => save_backtracking_point name (bv_eq val switchval)) s' = (Ok tt, s'') /\
    branched s (bps' ++ bps) s'' /\
    (forall v n, (v, n) ∈ dests -> exists bp, bp ∈ bps' /\ saved s n (equals v switchval) bp) /\
    (forall bp, bp ∈ bps' -> exists v n, (v, n) ∈ dests /\ saved s n (equals v switchval) bp).
Proof.
  induction dests as [|[v n] dests IH]; intros s' bps Hbr Hd; cbn [forM].
  { exists [], s'. split; [done|]. split; [done|]. by split; [intros ? ? ?%elem_of_nil|intros ? ?%elem_of_nil]. }
  apply Forall_cons in Hd as [[W [b Hb]] Hd]. cbn in W, Hb.
  destruct (branched_save s s' bps n b (bv_eq v switchval)) as (bp & s1 & E1 & Hbr1 & Hsv); [done|done| |].
  { by apply (pred_width bv_eq _ _ _ bv_eq_law). }
  destruct (IH s1 (bp :: bps) Hbr1 Hd) as (bps' & s2 & E2 & Hbr2 & H1 & H2).
  apply (saved_iff _ _ _ (equals v switchval)) in Hsv; [|intros m; by apply eq_bit].
  exists (bps' ++ [bp]), s2. unfold mbind, M_bind. rewrite E1. split; [done|]. split; [by rewrite <- app_assoc|].
  split.
  - intros v' n' [[= -> ->]|Hin]%elem_of_cons.
    + exists bp. split; [|done]. by apply elem_of_app; right; left.
    + destruct (H1 _ _ Hin) as (bp' & Hb' & ?). exists bp'. split; [|done]. apply elem_of_app. by left.
  - intros bp' [Hin| ->%list_elem_of_singleton]%elem_of_app.
    + destruct (H2 _ Hin) as (v' & n' & ? & ?). exists v', n'. split; [by right|done].
    + exists v, n. split; [by left|done].
Qed.

Definition same_widths (switchval : BV) (dests : list (BV * Name)) : Prop :=
  Forall (fun d => get_width d.1 = get_width switchval) dests.
Lemma dests_widths s switchval dests :
  Forall (dest_ok s switchval) dests -> same_widths switchval dests.
Proof. intros Hd. eapply Forall_impl; [exact Hd|]. by intros d []. Qed.

Lemma query_dests s switchval dests : forall s' r sol,
  solver_ok sol -> same_solver (solver s) sol -> same_widths switchval dests ->
  mapMM (fun '(c, n) => b ← bvs_can_be_equal c switchval; mret (c, n, b)) dests (set_solver sol s) = (r, s') ->
  (exists e, r = Err e /\ query_failed e) \/
  exists checked sol, r = Ok checked /\ s' = set_solver sol s /\ same_solver (solver s) sol /\
    checked.*1 = dests /\
    Forall (fun cb => cb.2 = true <-> feasible (solver s) (equals cb.1.1 switchval)) checked.
Proof.
  induction dests as [|[v n] dests IH]; intros s' r sol O Hs Hd; cbn [mapMM].
  { intros [= <- <-]. right. exists [], sol. done. }
  apply Forall_cons in Hd as [W Hd]. cbn in W. intros Hr. pattern r, s'.
  apply (wp_run _ _ _ _ _ Hr). apply wp_bind, wp_bind, wp_on_solver. cbn [solver set_solver].
  eapply wp_mono; [by apply wp_bvs_can_be_equal|].
  intros [t|e|p|] sol1; cbn -[mapMM]; [|intros; left; eauto|done|done]. intros [Hs1 Ht]. apply wp_ret.
  apply wp_bind, run_wp. intros r' s1 Hr'. apply IH in Hr'; [|by rewrite <- Hs1|by rewrite Hs|done].
  destruct Hr' as [(e & -> & Hq)|(checked & sol2 & -> & -> & Hs2 & <- & Hc)]; [left; eauto|].
  apply wp_ret. right. exists ((v, n, t) :: checked), sol2. repeat (split; [done|]). constructor; [|done].
  cbn. rewrite Ht. unfold feasible. by setoid_rewrite <- Hs.
Qed.

Lemma fold_and_bits cs : forall c,
  get_width c = 1 -> Forall (fun c => get_width c = 1) cs ->
  get_width (foldl bv_and c cs) = 1 /\
  forall m, eval m (foldl bv_and c cs) = 1 <-> eval m c = 1 /\ Forall (fun c => eval m c = 1) cs.
Proof.
  induction cs as [|d cs IH]; intros c Wc Hcs; cbn [foldl].
  { split; [done|]. intros m. rewrite Forall_nil. tauto. }
  apply Forall_cons in Hcs as [Wd Hcs].
  destruct (IH (bv_and c d)) as [W H']; [by rewrite (bin_width bv_and _ _ _ bv_and_law), Wc by congruence|done|].
  split; [done|]. intros m. rewrite H', Forall_cons, and_bit by done. tauto.
Qed.

Lemma default_constraint_ok switchval dests :
  same_widths switchval dests ->
  get_width (default_dest_constraint switchval dests) = 1 /\
  forall m, eval m (default_dest_constraint switchval dests) = 1 <->
            Forall (fun d => ~ equals d.1 switchval m) dests.
Proof.
  intros Hd. unfold default_dest_constraint.
  assert (Forall (fun d : BV * Name => get_width (bv_not (bv_eq d.1 switchval)) = 1 /\ forall m,
            eval m (bv_not (bv_eq d.1 switchval)) = 1 <-> ~ equals d.1 switchval m) dests) as Hb.
  { eapply Forall_impl; [exact Hd|]. intros [v n] W. cbn in W |- *.
    pose proof (pred_width bv_eq _ _ _ bv_eq_law W) as We. split; [by rewrite not_width|].
    intros m. rewrite not_bit, (pred_eval bv_eq _ _ _ m bv_eq_law W) by done. unfold equals.
    destruct (Z.eqb_spec (eval m v) (eval m switchval)); cbn; intuition congruence. }
  destruct dests as [|[v n] dests]; cbn [fmap list_fmap].
  { destruct (from_bool_law true) as [W Ev]. split; [done|]. intros m. rewrite Ev, Forall_nil. done. }
  apply Forall_cons in Hb as [[Wv Hv] Hb]. cbn in Wv, Hv.
  destruct (fold_and_bits ((fun '(c, _) => bv_not (bv_eq c switchval)) <$> dests) _ Wv) as [W H'].
  { rewrite Forall_fmap. eapply Forall_impl; [exact Hb|]. by intros [v' n'] [? _]. }
  split; [done|]. intros m. rewrite H', Hv, Forall_cons, Forall_fmap. cbn. f_equiv.
  split; intros Hf; rewrite Forall_forall in Hf, Hb |- *; intros [v' n'] Hin; apply (proj2 (Hb _ Hin) m); by apply (Hf _ Hin).
Qed.

(** Where the program goes from a switch: to a destination whose value equals
    the operand's, or to the default destination if there is none. *)
Definition goes_to (switchval : BV) (dests : list (BV * Name)) (default : Name) (m : Model) (n : Name) : Prop :=
  (exists v, (v, n) ∈ dests /\ equals v switchval m) \/
  n = default /\ Forall (fun d => ~ equals d.1 switchval m) dests.

(** [s'] continues one of the paths from [s] in the block [n], under [P], and
    the points [bps] are saved for the others; [go m n'] says which paths there are.
    The path that is continued, like those that are saved, can be taken (if
    there is any way to go on at all). *)
Definition explores s (go : Model -> Name -> Prop) s' (n : Name) P bps : Prop :=
  continues s n P s' /\ (satisfiable (solver s) -> feasible (solver s) P) /\ backtrack_points s' = bps ++ backtrack_points s /\
  (forall m, models (solver s) m -> P m -> go m n) /\
  (forall bp, bp ∈ bps -> exists n P, saved s n P bp /\ feasible (solver s) P /\ forall m, P m -> go m n) /\
  (forall m n', models (solver s) m -> go m n' ->
     n' = n /\ P m \/ exists bp P', bp ∈ bps /\ saved s n' P' bp /\ P' m).

(** The default destination's point, if it is feasible. *)
Lemma save_default {A} s s' bps default b switchval dests (k : M State A) :
  branched s bps s' -> get_bb_by_name (func (cur_loc s)) default = Some b -> Forall (dest_ok s switchval) dests ->
  let c := default_dest_constraint switchval dests in
  let none m := Forall (fun d => ~ equals d.1 switchval m) dests in
  let prog := (ok ← sat_with_extra_constraints [c];
               _ ← (if (ok : bool) then save_backtracking_point default c else mret tt); k) in
  (exists e s'', prog s' = (Err e, s'') /\ query_failed e) \/
  exists bps' s'', prog s' = k s'' /\ branched s (bps' ++ bps) s'' /\
    (forall bp, bp ∈ bps' -> saved s default none bp /\ feasible (solver s) none) /\
    (feasible (solver s) none -> bps' <> []).
Proof.
  intros Hbr Hb Hd c none prog. destruct (default_constraint_ok _ _ (dests_widths _ _ _ Hd)) as [Wc Hc].
  change (forall m, eval m c = 1 <-> none m) in Hc. pose proof Hbr as (sol & -> & O & Hm).
  unfold prog. unfold mbind at 1 3, M_bind at 1 3.
  destruct (sat_with_extra_constraints _ _) as [r s1] eqn:E1.
  apply sat_extra_run in E1; [|by apply Forall_singleton|done].
  destruct E1 as [(e & -> & Hq)|(t & sol1 & -> & -> & Hs1 & HT)]; [left; eauto|]. right.
  assert (branched s bps (set_solver sol1 (set_backtrack_points (bps ++ backtrack_points s) (set_solver sol s)))) as Hbr1
    by by apply branched_query.
  assert (t = true <-> feasible (solver s) none) as HT'.
  { rewrite HT, feasible_single. unfold feasible. cbn. by setoid_rewrite Hm; setoid_rewrite Hc. }
  destruct t.
  - destruct (branched_save _ _ _ _ _ c Hbr1 Hb Wc) as (bp & s2 & E2 & Hbr2 & Hsv). exists [bp], s2.
    split; [unfold mbind, M_bind; by rewrite E2|]. split; [done|]. split; [|done]. intros bp' ->%list_elem_of_singleton.
    split; [exact (saved_iff _ _ _ none _ Hc Hsv)|]. by apply HT'.
  - eexists [], _. split; [reflexivity|]. split; [done|]. split; [by intros ? ?%elem_of_nil|]. by intros ?%HT'.
Qed.

Lemma branched_continues s s' bps c dest b :
  branched s bps s' -> get_width c = 1 -> get_bb_by_name (func (cur_loc s)) dest = Some b ->
  let s'' := set_cur_loc (move_to_start_of_bb (cur_loc s') b) (set_solver (btor_assert c (solver s')) s') in
  continues s dest (fun m => eval m c = 1) s'' /\ backtrack_points s'' = bps ++ backtrack_points s.
Proof. intros (sol & -> & O & Hm) Wc Hb. split; [by apply continues_assert|done]. Qed.

(** The destinations kept after the feasibility checks. *)
Lemma feasible_dests_spec (Q : BV -> Prop) (checked : list (BV * Name * bool)) v n :
  Forall (fun cb => cb.2 = true <-> Q cb.1.1) checked ->
  (v, n) ∈ fst <$> filter (fun '(_, _, b) => b = true) checked <-> (v, n) ∈ checked.*1 /\ Q v.
Proof.
  intros Hc. rewrite Forall_forall in Hc. rewrite !list_elem_of_fmap. split.
  - intros ([[v' n'] b] & [= -> ->] & [Hb Hin]%list_elem_of_filter).
    split; [by exists (v', n', b)|]. by apply (Hc _ Hin).
  - intros [([[v' n'] b] & [= -> ->] & Hin) Hf]. exists (v', n', b). split; [done|]. apply list_elem_of_filter.
    split; [|exact Hin]. by apply (Hc _ Hin).
Qed.

(** No destination is feasible: the default one is the only path. *)
Lemma explores_default s switchval dests default b sol :
  (forall v n, (v, n) ∈ dests -> ~ feasible (solver s) (equals v switchval)) ->
  get_bb_by_name (func (cur_loc s)) default = Some b -> same_solver (solver s) sol ->
  explores s (goes_to switchval dests default)
    (set_cur_loc (move_to_start_of_bb (cur_loc s) b) (set_solver sol s)) default (fun _ => True) [].
Proof.
  intros Hn Hb Hs. split.
  { split; [done|]. cbn. split; [|done]. intros m. rewrite <- Hs. tauto. }
  split; [by intros [m Hm]; exists m|]. split; [done|]. split; [|split; [by intros ? ?%elem_of_nil|]].
  - intros m Hm _. right. split; [done|]. apply Forall_forall. intros [v n] Hin He. apply (Hn v n Hin). by exists m.
  - intros m n Hm [(v & Hin & He)|[-> _]]; [|by left]. destruct (Hn v n Hin). by exists m.
Qed.

(** The first feasible destination is entered, the rest are saved. *)
Lemma explores_first s switchval dests default v n rest s' bps1 bps2 :
  (forall v' n', (v', n') ∈ (v, n) :: rest <-> (v', n') ∈ dests /\ feasible (solver s) (equals v' switchval)) ->
  let none m := Forall (fun d => ~ equals d.1 switchval m) dests in
  continues s n (equals v switchval) s' -> backtrack_points s' = (bps2 ++ bps1) ++ backtrack_points s ->
  (forall v' n', (v', n') ∈ rest -> exists bp, bp ∈ bps1 /\ saved s n' (equals v' switchval) bp) ->
  (forall bp, bp ∈ bps1 -> exists v' n', (v', n') ∈ rest /\ saved s n' (equals v' switchval) bp) ->
  (forall bp, bp ∈ bps2 -> saved s default none bp /\ feasible (solver s) none) ->
  (feasible (solver s) none -> bps2 <> []) ->
  explores s (goes_to switchval dests default) s' n (equals v switchval) (bps2 ++ bps1).
Proof.
  intros Hfd none Hc Hb H1 H2 H3 H4. split; [done|]. split; [intros _; apply (Hfd v n); left|]. split; [done|]. split; [|split].
  - intros m Hm Hv. left. exists v. split; [|done]. by apply Hfd; left.
  - intros bp [Hin|Hin]%elem_of_app.
    + destruct (H3 _ Hin) as [Hsv Hf]. exists default, none. split; [done|]. split; [done|]. intros m Hm. by right.
    + destruct (H2 _ Hin) as (v' & n' & Hr & Hsv). destruct (proj1 (Hfd v' n')) as [Hd Hf]; [by right|].
      exists n', (equals v' switchval). split; [done|]. split; [done|]. intros m Hm. left. by exists v'.
  - intros m n' Hm [(v' & Hin & He)|[-> Hn]].
    + assert ((v', n') ∈ (v, n) :: rest) as [[= -> ->]|Hr]%elem_of_cons by (apply Hfd; split; [done|by exists m]); [by left|].
      destruct (H1 _ _ Hr) as (bp & Hbp & Hsv). right. exists bp, (equals v' switchval).
      split; [|done]. apply elem_of_app. by right.
    + assert (bps2 <> []) as Hne by (apply H4; by exists m). destruct bps2 as [|bp bps2]; [done|].
      destruct (H3 bp) as [Hsv _]; [left|]. right. exists bp, none. split; [left|done].
Qed.

(** C8: a switch.  Unless a solver query fails, [symex_switch] continues in
    one destination and has saved a point for each other one, such that the
    paths taken and saved are exactly those the program can follow: each of
    them, the one continued included, can be taken and leads where the program
    goes under the values it stands for, and every model of the constraints is on
    one of them, the default destination included. *)
Theorem switch_explores E switch s s1 s2 switchval dests :
  operand_to_bv (switch_operand switch) s = (Ok switchval, s1) ->
  mapMM (fun '(c, n) => c ← const_to_bv c; mret (c, n)) (switch_dests switch) s1 = (Ok dests, s2) ->
  solver_ok (solver s2) -> Forall (dest_ok s2 switchval) dests ->
  is_Some (get_bb_by_name (func (cur_loc s2)) (switch_default_dest switch)) ->
  (exists e s3, symex_switch E switch s = (Err e, s3) /\ query_failed e) \/
  exists s3 n P bps,
    symex_switch E switch s = symex_from_cur_loc_through_end_of_function E s3 /\
    explores s2 (goes_to switchval dests (switch_default_dest switch)) s3 n P bps.
Proof.
  intros Hop Hmap O Hd [bd Hbd]. remember (symex_switch E switch s) as R eqn:HR. unfold symex_switch in HR.
  unfold mbind at 1, M_bind at 1 in HR. rewrite Hop in HR.
  unfold mbind at 1, M_bind at 1 in HR. rewrite Hmap in HR.
  unfold mbind at 1, M_bind at 1 in HR. destruct (mapMM _ dests s2) as [r s3] eqn:E3.
  rewrite <- (set_solver_id s2) in E3. apply query_dests in E3; [|done|done|by eapply dests_widths].
  destruct E3 as [(e & -> & Hq)|(checked & sol & -> & -> & Hs & Ed & Hc)]; [left; eauto|].
  cbn iota zeta in HR. set (fd := fst <$> filter _ checked) in HR.
  assert (forall v n, (v, n) ∈ fd <-> (v, n) ∈ dests /\ feasible (solver s2) (equals v switchval)) as Hfd.
  { intros v n. rewrite <- Ed. exact (feasible_dests_spec (fun v => feasible (solver s2) (equals v switchval)) checked v n Hc). }
  clearbody fd. assert (branched s2 [] (set_solver sol s2)) as Hbr0.
  { exists sol. split; [by destruct s2|]. split; [by rewrite <- Hs|]. intros m. by rewrite Hs. }
  destruct fd as [|[v n] rest].
  - unfold mbind, M_bind in HR. rewrite (goto_bb_eq _ _ bd) in HR by done.
    right. eexists _, (switch_default_dest switch), (fun _ => True), []. split; [exact HR|].
    change (cur_loc (set_solver sol s2)) with (cur_loc s2). apply explores_default; [|done..]. intros v n Hin Hf. by apply (elem_of_nil (v, n)), Hfd.
  - assert ((v, n) ∈ dests /\ feasible (solver s2) (equals v switchval)) as [Hin Hf] by (apply Hfd; left).
    pose proof Hd as Hd'. rewrite Forall_forall in Hd'. destruct (Hd' _ Hin) as [Wv [b Hb]]. cbn in Wv, Hb.
    destruct (save_dests s2 switchval rest _ _ Hbr0) as (bps1 & s3 & E3 & Hbr1 & H1 & H2).
    { apply Forall_forall. intros [v' n'] Hr. apply Hd'. by apply Hfd; right. }
    unfold mbind at 1, M_bind at 1 in HR. rewrite E3 in HR. rewrite app_nil_r in Hbr1.
    cbv beta iota zeta in HR. match type of HR with R = (_ ≫= (fun _ => _ ≫= (fun _ => ?k))) _ =>
      destruct (save_default s2 s3 bps1 _ bd switchval dests k Hbr1 Hbd Hd)
        as [(e & s4 & E4 & Hq)|(bps2 & s4 & E4 & Hbr2 & H3 & H4)] end; rewrite E4 in HR; [left; eauto|right].
    rewrite (assert_goto_eq _ _ _ b) in HR by by destruct Hbr2 as (? & -> & _).
    destruct (branched_continues _ _ _ (bv_eq v switchval) _ _ Hbr2 (pred_width bv_eq _ _ _ bv_eq_law Wv) Hb)
      as [Hcont Hbps].
    eexists _, n, (equals v switchval), (bps2 ++ bps1). split; [exact HR|].
    eapply explores_first; [exact Hfd| |exact Hbps|exact H1|exact H2|exact H3|exact H4].
    destruct Hcont as (? & Hmod & ?). split; [done|]. split; [|done]. intros m. by rewrite Hmod, eq_bit.
Qed.

End branches.
