(* ===== verification/LevelTheorems.v ===== *)
(** * LevelTheorems: queries and instructions leave the stacks alone

    The assertion stack of the solver has one level for each saved
    backtracking point.  Everything below the terminators keeps it so: the
    queries pop what they push, and an instruction, a hook or the evaluation of
    an operand changes neither the location nor the call stack, and saves at
    most points that re-execute the current instruction.  [calm] says this of
    a computation on the state; the database [calm] has it for each operation.
    Results of queries that Boolector gives up on are excluded: it is assumed
    that it decides every query (no timeout is set). *)
From S2P Require Import Prelude Bits Backend ToySolver SolverUtils MemorySpec.

Open Scope Z_scope.

(** ** Partial correctness *)

(** What holds when the computation returns a value or an [Err]. *)
Definition ends {S A} (c : M S A) (s : S) (Q : outcome A -> S -> Prop) : Prop :=
  match c s with
  | (Ok a, s') => Q (Ok a) s'
  | (Err e, s') => Q (Err e) s'
  | _ => True
  end.

Section ends_rules.
Context {S : Type}.

Lemma ends_bind {A B} (c : M S A) (f : A -> M S B) s Q :
  ends c s (fun r s' => match r with Ok a => ends (f a) s' Q | Err e => Q (Err e) s' | _ => True end) ->
  ends (c ≫= f) s Q.
Proof. unfold ends, mbind, M_bind. by destruct (c s) as [[a|e|p|] s']. Qed.

Lemma ends_ok {A B} (a : A) (f : A -> M S B) s Q : ends (f a) s Q -> ends (lift (Ok a) ≫= f) s Q.
Proof. exact id. Qed.

Lemma ends_mono {A} (c : M S A) s (Q R : outcome A -> S -> Prop) :
  ends c s Q -> (forall r s', Q r s' -> R r s') -> ends c s R.
Proof. unfold ends. destruct (c s) as [[a|e|p|] s']; auto. Qed.

Lemma ends_catch {A} (c : M S A) s (Q : outcome (outcome A) -> S -> Prop) :
  ends c s (fun r s' => Q (Ok r) s') -> ends (catch c) s Q.
Proof. unfold ends, catch. by destruct (c s) as [[a|e|p|] s']. Qed.

Lemma ends_run {A} (c : M S A) s r s' (Q : outcome A -> S -> Prop) :
  c s = (r, s') -> ends c s Q -> match r with Ok _ | Err _ => Q r s' | _ => True end.
Proof. unfold ends. intros ->. by destruct r. Qed.

(** A loop whose body keeps [J] and does not end with an [Err]. *)
Lemma ends_loopM {A B} (body : A -> M S (A + B)) (J : A -> S -> Prop) (F : B -> S -> Prop) :
  (forall a s, J a s ->
     ends (body a) s (fun r s' => match r with Ok (inl a') => J a' s' | Ok (inr b) => F b s' | _ => False end)) ->
  forall a s, J a s -> ends (loopM body a) s (fun r s' => match r with Ok b => F b s' | _ => False end).
Proof.
  intros Hb a s HJ. unfold loopM. apply ends_bind. eapply ends_mono.
  - revert a s HJ. generalize 65%nat. intros n. induction n as [|n IH]; intros a s HJ; [by apply Hb|].
    cbn [iterM]. apply ends_bind. eapply ends_mono; [by apply IH|]. intros [[a'|b]|e|p|] s'; try done. by apply IH.
  - intros [[a'|b]|e|p|] s'; done.
Qed.

End ends_rules.

(** ** The levels of the solver *)

(** The levels [a'], innermost first, are those of [a] under [k] more, with
    nothing removed and assertions added to the innermost level of [a] only. *)
Section above.
Context {A : Type}.
Implicit Types a : list (list A).

Definition grown a a' : Prop :=
  match a, a' with
  | l :: ls, l' :: ls' => ls' = ls /\ exists k, l' = k ++ l
  | [], [] => True
  | _, _ => False
  end.
Definition above (k : nat) a a' : Prop := exists tops b, a' = tops ++ b /\ length tops = k /\ grown a b.

Lemma grown_refl a : grown a a.
Proof. destruct a; [done|]. split; [done|]. by exists []. Qed.
Lemma grown_trans a b c : grown a b -> grown b c -> grown a c.
Proof.
  destruct a, b, c; cbn; try done. intros [-> [k ->]] [-> [k' ->]]. split; [done|]. exists (k' ++ k). by rewrite app_assoc.
Qed.
Lemma above_refl a : above 0 a a.
Proof. exists [], a. split; [done|]. split; [done|]. apply grown_refl. Qed.
Lemma above_grown a a' : above 0 a a' <-> grown a a'.
Proof.
  split; [|intros; by exists [], a']. intros (tops & b & -> & Hl & Hg). by destruct tops.
Qed.
Lemma above_trans k j a b c : above k a b -> above j b c -> above (j + k) a c.
Proof.
  intros (t & b' & -> & Ht & Hg) (t' & c' & -> & Ht' & Hg'). destruct t as [|l t].
  - cbn in Ht. subst. exists t', c'. split; [done|]. split; [lia|]. by eapply grown_trans.
  - destruct c' as [|l' c']; [done|]. destruct Hg' as [-> [x ->]]. exists (t' ++ (x ++ l) :: t), b'.
    split; [by rewrite <- app_assoc|]. split; [|done]. rewrite length_app. cbn in *. lia.
Qed.
Lemma above_eq k a b c : above k a b -> c = b -> above k a c.
Proof. by intros ? ->. Qed.
Lemma above_grow k a b c : above k a b -> grown b c -> above k a c.
Proof. intros Ha Hg. by apply (above_trans k 0 a b c); [|apply above_grown]. Qed.
Lemma above_push k n a b : above k a b -> above (n + k) a (replicate n [] ++ b).
Proof.
  intros (t & b' & -> & Ht & Hg). exists (replicate n [] ++ t), b'. rewrite length_app, length_replicate, Ht.
  split; [by rewrite app_assoc|done].
Qed.
Lemma above_pop k n a b : above (n + k) a b -> above k a (drop n b).
Proof.
  intros (t & b' & -> & Ht & Hg). exists (drop n t), b'. rewrite length_drop, Ht. split; [|split; [lia|done]].
  by rewrite drop_app_le by lia.
Qed.
Lemma above_length k a b : above k a b -> length b = (k + length a)%nat.
Proof.
  intros (t & b' & -> & <- & Hg). rewrite length_app. f_equal. destruct a, b'; try done. destruct Hg as [-> _]. done.
Qed.
(** Whatever is asserted stays asserted. *)
Lemma above_sublevels (P : A -> Prop) k a b : above k a b -> Forall P (concat b) -> Forall P (concat a).
Proof.
  intros (t & b' & -> & _ & Hg) Hb. rewrite concat_app in Hb. apply Forall_app in Hb as [_ Hb].
  destruct a as [|l a], b' as [|l' b']; try done. destruct Hg as [-> [x ->]].
  cbn in Hb |- *. rewrite <- app_assoc in Hb. by apply Forall_app in Hb as [_ Hb].
Qed.

End above.

(** Only [push] and [pop] change the number of assertion levels, and an
    assertion goes to the innermost level, whatever the widths of the terms
    are.  (Boolector aborts on a malformed term; a model of the run that goes
    on has to keep the levels.) *)
Class LevelLaws `{BVSemantics} : Prop := {
  levels_push n s : assertions (btor_push n s) = replicate (Z.to_nat n) [] ++ assertions s;
  levels_pop n s : assertions (btor_pop n s) = drop (Z.to_nat n) (assertions s);
  levels_assert b s : grown (assertions s) (assertions (btor_assert b s));
  levels_sat s : assertions (snd (btor_sat s)) = assertions s;
  levels_model_gen x s : assertions (btor_set_model_gen x s) = assertions s;
  levels_bv_new w name s : assertions (snd (bv_new w name s)) = assertions s;
  levels_array_new iw ew name s : assertions (snd (array_new iw ew name s)) = assertions s
}.

(** The solver answers every query. *)
Class Decides `{BackendOps} : Prop := decides s : fst (btor_sat s) <> SolverUnknown.

Section queries.
Context `{Levels : LevelLaws} `{Dec : !Decides}.
(** The computation leaves the levels as they were, but for assertions added to
    the innermost one. *)
Definition steady {A} (c : M SolverRef A) : Prop := forall s, ends c s (fun _ s' => above 0 (assertions s) (assertions s')).

Lemma steady_ret {A} (a : A) : steady (mret a).
Proof. intros s. apply above_refl. Qed.
Lemma steady_lift {A} (c : outcome A) : steady (lift c).
Proof. intros s. destruct c; [apply above_refl..|done|done]. Qed.
Lemma steady_err {A} e : steady (A:=A) (err e).
Proof. intros s. apply above_refl. Qed.
Lemma steady_panic {A} p : steady (A:=A) (panic p).
Proof. done. Qed.
Lemma steady_bind {A B} (c : M SolverRef A) (f : A -> M SolverRef B) :
  steady c -> (forall a, steady (f a)) -> steady (c ≫= f).
Proof.
  intros Hc Hf s. apply ends_bind. eapply ends_mono; [apply Hc|]. intros [a|e|p|] s' E; try done.
  eapply ends_mono; [apply Hf|]. intros r s'' E'. by apply (above_trans 0 0 _ (assertions s')).
Qed.
Lemma steady_assert b : steady (bv_assert b).
Proof. intros s. unfold ends, bv_assert. apply above_grown, levels_assert. Qed.
Lemma steady_model_gen x : steady (set_model_gen x).
Proof. intros s. unfold ends, set_model_gen, modify. rewrite levels_model_gen. apply above_refl. Qed.
Lemma steady_get_a_solution b : steady (get_a_solution b).
Proof. intros s. apply above_refl. Qed.
#[local] Hint Resolve steady_ret steady_lift steady_err steady_get_a_solution : core.
Lemma steady_forM {A} (xs : list A) f : (forall x, steady (f x)) -> steady (forM xs f).
Proof. intros Hf. induction xs as [|x xs IH]; cbn [forM]; [apply steady_ret|]. by apply steady_bind. Qed.
Lemma steady_mapMM {A B} (f : A -> M SolverRef B) xs : (forall x, steady (f x)) -> steady (mapMM f xs).
Proof. intros Hf. induction xs as [|x xs IH]; cbn [mapMM]; repeat (apply steady_bind; [done|intros]); apply steady_ret. Qed.

(** [sat] gives an answer. *)
Lemma ends_sat s : ends sat s (fun r s' => (exists b, r = Ok b) /\ assertions s' = assertions s).
Proof.
  pose proof (levels_sat s) as E. pose proof (decides s) as Hd. unfold ends, sat, mbind, M_bind.
  destruct (btor_sat s) as [r s']. destruct r; cbn in *; [eauto..|done].
Qed.
Lemma steady_sat : steady sat.
Proof. intros s. eapply ends_mono; [apply ends_sat|]. intros r s' [_ E]. rewrite E. apply above_refl. Qed.

(** A sequence of assertions. *)
Lemma ends_asserts {A} (xs : list A) (f : A -> M SolverRef unit) s (Q : outcome unit -> SolverRef -> Prop) :
  (forall x, exists b, f x = bv_assert b) -> (forall s', above 0 (assertions s) (assertions s') -> Q (Ok tt) s') -> ends (forM xs f) s Q.
Proof.
  intros Hf. revert s. induction xs as [|x xs IH]; intros s HQ; cbn [forM]; [apply HQ, above_refl|].
  destruct (Hf x) as [b ->]. apply ends_bind. unfold ends at 1, bv_assert. apply IH. intros s' E. apply HQ.
  apply (above_trans 0 0 _ (assertions (btor_assert b s))); [apply above_grown, levels_assert|done].
Qed.

Lemma ends_push {B} (f : unit -> M SolverRef B) n s Q : ends (f tt) (btor_push n s) Q -> ends (push n ≫= f) s Q.
Proof. exact id. Qed.
Lemma ends_pop {B} (f : unit -> M SolverRef B) n s Q : ends (f tt) (btor_pop n s) Q -> ends (pop n ≫= f) s Q.
Proof. exact id. Qed.

(** Working above [n] levels pushed for the time being. *)
Lemma above_pushed n s a : above 0 (assertions (btor_push n s)) a -> above (Z.to_nat n) (assertions s) a.
Proof.
  intros Ha. rewrite <- (Nat.add_0_l (Z.to_nat n)). eapply above_trans; [|exact Ha]. rewrite levels_push.
  rewrite <- (Nat.add_0_r (Z.to_nat n)) at 1. apply above_push, above_refl.
Qed.

Lemma steady_sat_extra cs : steady (sat_with_extra_constraints cs).
Proof.
  intros s. unfold sat_with_extra_constraints. apply ends_push, ends_bind. apply ends_asserts; [by eexists|].
  intros s1 E1. apply ends_bind, ends_catch. eapply ends_mono; [apply ends_sat|].
  intros r s2 [_ E2]. apply ends_pop. eapply ends_mono; [apply steady_lift|]. intros r3 s3 E3. cbn beta in E3.
  eapply (above_trans 0 0); [|exact E3]. rewrite levels_pop, E2. apply (above_pop 0). rewrite Nat.add_0_r. by apply above_pushed.
Qed.

Lemma steady_must_equal a b : steady (bvs_must_be_equal a b).
Proof. apply steady_bind; [apply steady_sat_extra|]. by intros []. Qed.
Lemma steady_can_equal a b : steady (bvs_can_be_equal a b).
Proof. apply steady_bind; [apply steady_sat_extra|]. by intros []. Qed.

(** One round of either binary search: as many levels more as pushes. *)
Definition search_inv (l : list (list BV)) (a : Z * Z * Z) (s : SolverRef) : Prop :=
  0 <= snd a /\ above (Z.to_nat (snd a)) l (assertions s).

(** A level is pushed for the assertion, and popped again if it fails. *)
Lemma search_step l c n s :
  0 <= n -> above (Z.to_nat n) l (assertions s) ->
  let s' := btor_assert c (btor_push 1 s) in
  above (Z.to_nat (n + 1)) l (assertions s') /\ forall s'', assertions s'' = assertions s' -> above (Z.to_nat n) l (assertions (btor_pop 1 s'')).
Proof.
  intros Hn Ha s'. assert (above (1 + Z.to_nat n) l (assertions s')) as Hs'.
  { eapply above_grow; [|apply levels_assert]. rewrite levels_push. by apply above_push. }
  split; [by rewrite Z2Nat.inj_add, Nat.add_comm by lia|]. intros s'' E. rewrite levels_pop, E. by apply above_pop.
Qed.

Lemma max_search_round l bv a s :
  search_inv l a s ->
  ends (max_search bv a) s (fun r s' => match r with Ok (inl a') | Ok (inr a') => search_inv l a' s' | _ => False end).
Proof.
  destruct a as [[lo hi] n]. intros [Hn E]. unfold max_search, search_inv in *. cbn [snd] in *.
  destruct (1 <? hi - lo); [|done]. apply ends_push, ends_bind. unfold ends at 1, bv_assert.
  match goal with |- context [btor_assert ?c _] => destruct (search_step l c n s Hn E) as [H1 H2] end.
  apply ends_bind. eapply ends_mono; [apply ends_sat|]. intros r s' [[b ->] E'].
  destruct b; [split; [cbn; lia|by rewrite E']|]. apply ends_pop. cbn. rewrite Z.add_simpl_r. split; [done|by apply H2].
Qed.

Lemma min_search_round l bv a s :
  search_inv l a s ->
  ends (min_search bv a) s (fun r s' => match r with Ok (inl a') | Ok (inr a') => search_inv l a' s' | _ => False end).
Proof.
  destruct a as [[lo hi] n]. intros [Hn E]. unfold min_search, search_inv in *. cbn [snd] in *.
  destruct (1 <? hi - lo); [|done]. apply ends_push, ends_bind. unfold ends at 1, bv_assert.
  match goal with |- context [btor_assert ?c _] => destruct (search_step l c n s Hn E) as [H1 H2] end.
  apply ends_bind. eapply ends_mono; [apply ends_sat|]. intros r s' [[b ->] E'].
  destruct b; [split; [cbn; lia|by rewrite E']|]. apply ends_pop. cbn. rewrite Z.add_simpl_r. split; [done|by apply H2].
Qed.

(** The levels of the rounds are popped after the loop. *)
Lemma steady_search {A} (body : Z * Z * Z -> M SolverRef (Z * Z * Z + Z * Z * Z)) lo hi (k : Z * Z -> M SolverRef A) :
  (forall l a s, search_inv l a s ->
     ends (body a) s (fun r s' => match r with Ok (inl a') | Ok (inr a') => search_inv l a' s' | _ => False end)) ->
  (forall p, steady (k p)) ->
  steady ('(min, max, pushes) ← loopM body (lo, hi, 0); _ ← pop pushes; k (min, max)).
Proof.
  intros Hb Hk s. apply ends_bind.
  eapply ends_mono; [apply (ends_loopM body (search_inv (assertions s)) (search_inv (assertions s)))|].
  - intros a s' Ha. eapply ends_mono; [by apply Hb|]. by intros [[a'|a']|e|p|] s''.
  - split; [done|apply above_refl].
  - intros [[[a b] n]|e|p|] s' Hr; try done. destruct Hr as [Hn E]. cbn in Hn, E. apply ends_pop.
    eapply ends_mono; [apply Hk|]. intros r'' s'' E'. cbn beta in E'. eapply (above_trans 0 0); [|exact E']. rewrite levels_pop.
    apply above_pop. by rewrite Nat.add_0_r.
Qed.

Lemma steady_max bv : steady (max_possible_solution_for_bv_as_u64 bv).
Proof.
  unfold max_possible_solution_for_bv_as_u64. destruct (64 <? get_width bv); [done|].
  apply steady_bind; [apply steady_sat|]. intros [|]; cbn [negb]; [|done]. destruct (as_u64 bv); [done|].
  apply steady_bind; [apply steady_can_equal|]. intros [|]; [done|].
  apply (steady_search _ _ _ (fun '(min, max) => _ ← lift (assert_ _ (max - min =? 1)); mret (Some min))).
  - intros l a s. apply max_search_round.
  - intros [min max]. apply steady_bind; [apply steady_lift|done].
Qed.

Lemma steady_min bv : steady (min_possible_solution_for_bv_as_u64 bv).
Proof.
  unfold min_possible_solution_for_bv_as_u64. destruct (64 <? get_width bv); [done|].
  apply steady_bind; [apply steady_sat|]. intros [|]; cbn [negb]; [|done]. destruct (as_u64 bv); [done|].
  apply steady_bind; [apply steady_can_equal|]. intros [|]; [done|].
  apply (steady_search _ _ _ (fun '(min, max) => _ ← lift (assert_ _ (max - min =? 1)); mret (Some max))).
  - intros l a s. apply min_search_round.
  - intros [min max]. apply steady_bind; [apply steady_lift|done].
Qed.

Lemma more_round k l bv n X s :
  above k l (assertions s) ->
  ends (more_solutions bv n X) s (fun r s' => match r with Ok _ => above k l (assertions s') | _ => False end).
Proof.
  intros E. unfold more_solutions. destruct (_ <=? n); [|done]. apply ends_bind.
  eapply ends_mono; [apply ends_sat|]. intros r s' [[b ->] E'].
  rewrite <- E' in E. destruct b; [|done]. apply ends_bind. unfold ends at 1, get_a_solution. apply ends_bind.
  unfold ends at 1, exclude_solution, bv_assert. unfold ends. cbn. eapply above_grow; [done|apply levels_assert].
Qed.

Lemma steady_common bv n g c str X : steady (common_solution bv n g c str X).
Proof.
  unfold common_solution. destruct (_ && g); [|done]. apply steady_bind; [apply steady_can_equal|]. by intros [].
Qed.

Lemma steady_check bv n X : steady (check_for_common_solutions bv n X).
Proof.
  unfold check_for_common_solutions. cbv zeta.
  repeat (apply steady_bind; [apply steady_common|intros]). apply steady_common.
Qed.

Lemma steady_possible bv n : steady (get_possible_solutions_for_bv bv n).
Proof.
  unfold get_possible_solutions_for_bv.
  apply steady_bind; [|intros; apply steady_bind; [apply steady_model_gen|done]].
  destruct (n =? 0).
  { apply steady_bind; [apply steady_model_gen|]. intros _. apply steady_bind; [apply steady_sat|].
    intros []; [|done]. by apply steady_bind. }
  destruct (as_binary_str bv); [done|]. apply steady_bind; [apply steady_check|]. intros X.
  destruct (n <? _); [done|]. intros s. apply ends_push, ends_bind. apply ends_asserts; [by eexists|].
  intros s1 E1. apply above_pushed in E1. apply ends_bind. unfold ends at 1, set_model_gen, modify.
  apply ends_bind. eapply ends_mono; [apply (ends_loopM _ (fun _ s' => above 1 (assertions s) (assertions s')) (fun _ s' => above 1 (assertions s) (assertions s')))|].
  - intros Y s' E. eapply ends_mono; [by apply more_round|]. by intros [[|]|e|p|] s''.
  - by rewrite levels_model_gen.
  - intros [Y|e|p|] s' E; try done. apply ends_pop. apply (above_pop 0 1) in E. rewrite <- (levels_pop 1 s') in E.
    by destruct (n <? _).
Qed.

Lemma steady_null_check d addr : steady (null_check d addr).
Proof.
  unfold null_check. destruct d; [|done]. apply steady_bind; [apply steady_can_equal|]. by intros [].
Qed.

End queries.

(** ** Memories *)

Class MemoryLevels `{BVSemantics} `{MOps : !MemoryOps} : Prop := {
  steady_mem_read m addr bits : steady (mem_read m addr bits);
  steady_mem_write m addr val : steady (mem_write m addr val);
  levels_new_memory d name s : assertions (snd (new_uninitialized d name s)) = assertions s
}.

From S2P Require Import Memory SimpleMemory.

#[export] Instance cell_memory_levels `{LevelLaws} `{!Decides} : MemoryLevels (MOps := CellBackend.cell_memory).
Proof.
  split.
  - intros m a b. apply steady_bind; [apply steady_lift|intros _].
    apply steady_bind; [apply steady_null_check|intros _; apply steady_lift].
  - intros m a b. apply steady_bind; [apply steady_lift|intros _].
    apply steady_bind; [apply steady_null_check|intros _; apply steady_lift].
  - intros d name s. cbn. unfold Memory.new_uninitialized.
    match goal with |- context [array_new ?iw ?ew ?n s] => pose proof (levels_array_new iw ew n s) as E end.
    by destruct (array_new _ _ _ s).
Qed.

#[export] Instance byte_memory_levels `{LevelLaws} `{!Decides} : MemoryLevels (MOps := ByteBackend.byte_memory).
Proof.
  split.
  - intros m a b. apply steady_bind; [apply steady_lift|intros _].
    apply steady_bind; [apply steady_null_check|intros _; apply steady_lift].
  - intros m a b. apply steady_bind; [apply steady_lift|intros _].
    apply steady_bind; [apply steady_null_check|intros _; apply steady_lift].
  - intros d name s. cbn. unfold SimpleMemory.new_uninitialized.
    match goal with |- context [array_new ?iw ?ew ?n s] => pose proof (levels_array_new iw ew n s) as E end.
    by destruct (array_new _ _ _ s).
Qed.

(** ** Computations on the state *)

From S2P Require Import Alloc LLVMIR Project Layout VarMap Watchpoints FunctionHooks GlobalAllocations Config State Operands HookUtils Hooks SymexInstr.

Section frame.
Context `{Levels : LevelLaws} `{Dec : !Decides} `{MOps : !MemoryOps} `{MLevels : !MemoryLevels} `{L : LLVM} `{CF : ConstFuel}.
Implicit Types s : State.
(** From [s] to [s'] the location, the call stack and the configuration are
    the same, and each point saved in between is at this location and has its
    level in the solver, above what was asserted. *)
Definition undisturbed s s' : Prop :=
  cur_loc s' = cur_loc s /\ stack s' = stack s /\ config s' = config s /\
  exists bps, backtrack_points s' = bps ++ backtrack_points s /\ above (length bps) (assertions (solver s)) (assertions (solver s')) /\
    Forall (fun bp => bp_loc bp = cur_loc s /\ bp_stack bp = stack s) bps.

#[export] Instance undisturbed_preorder : PreOrder undisturbed.
Proof.
  split.
  - intros s. split_and!; [done..|]. exists []. split; [done|]. split; [apply above_refl|done].
  - intros s1 s2 s3 (L1 & K1 & C1 & bps1 & B1 & N1 & F1) (L2 & K2 & C2 & bps2 & B2 & N2 & F2).
    unfold undisturbed. rewrite L2, K2, C2, L1, K1, C1. split_and!; [done..|]. exists (bps2 ++ bps1).
    rewrite B2, B1, length_app, L1, K1 in *. split_and!; [by rewrite app_assoc|by eapply above_trans|by apply Forall_app].
Qed.

(** Whatever the computation does is undisturbing, errors included. *)
Definition calm {A} (c : M State A) : Prop := forall s, ends c s (fun _ s' => undisturbed s s').

Lemma undisturbed_fields s s' :
  cur_loc s' = cur_loc s -> stack s' = stack s -> config s' = config s ->
  backtrack_points s' = backtrack_points s -> solver s' = solver s -> undisturbed s s'.
Proof. intros E1 E2 E3 E4 E5. split_and!; [done..|]. exists []. rewrite E4, E5. split; [done|]. split; [apply above_refl|done]. Qed.

Lemma calm_ret {A} (a : A) : calm (mret a).
Proof. intros s. change (undisturbed s s). reflexivity. Qed.
Lemma calm_lift {A} (c : outcome A) : calm (lift c).
Proof. intros s. destruct c; [change (undisturbed s s); reflexivity..|done|done]. Qed.
Lemma calm_err {A} e : calm (A:=A) (err e).
Proof. intros s. change (undisturbed s s). reflexivity. Qed.
Lemma calm_panic {A} p : calm (A:=A) (panic p).
Proof. done. Qed.
Lemma calm_out_of_fuel {A} : calm (A:=A) out_of_fuel.
Proof. done. Qed.
Lemma calm_get : calm get.
Proof. intros s. change (undisturbed s s). reflexivity. Qed.
Lemma calm_modify f :
  (forall s, cur_loc (f s) = cur_loc s /\ stack (f s) = stack s /\ config (f s) = config s /\
             backtrack_points (f s) = backtrack_points s /\ solver (f s) = solver s) -> calm (modify f).
Proof. intros Hf s. destruct (Hf s) as (? & ? & ? & ? & ?). by apply undisturbed_fields. Qed.
Lemma calm_bind {A B} (c : M State A) (f : A -> M State B) : calm c -> (forall a, calm (f a)) -> calm (c ≫= f).
Proof.
  intros Hc Hf s. apply ends_bind. eapply ends_mono; [apply Hc|]. intros [a|e|p|] s' E; try done.
  eapply ends_mono; [apply Hf|]. intros r s'' E'. by etrans.
Qed.
Lemma calm_fmap {A B} (f : A -> B) (c : M State A) : calm c -> calm (f <$> c).
Proof. intros Hc s. specialize (Hc s). unfold ends, fmap, M_fmap in *. by destruct (c s) as [[a|e|p|] s']. Qed.
Lemma calm_catch {A} (c : M State A) : calm c -> calm (catch c).
Proof. intros Hc s. by apply ends_catch. Qed.
Lemma calm_forM {A} (xs : list A) f : (forall x, calm (f x)) -> calm (forM xs f).
Proof. intros Hf. induction xs as [|x xs IH]; cbn [forM]; [apply calm_ret|]. by apply calm_bind. Qed.
Lemma calm_mapMM {A B} (f : A -> M State B) xs : (forall x, calm (f x)) -> calm (mapMM f xs).
Proof.
  intros Hf. induction xs as [|x xs IH]; cbn [mapMM]; repeat (apply calm_bind; [done|intros]); apply calm_ret.
Qed.
Lemma calm_on_solver {A} (c : M SolverRef A) : steady c -> calm (on_solver c).
Proof.
  intros Hc s. specialize (Hc (solver s)). unfold ends, on_solver, zoom in *.
  destruct (c (solver s)) as [[a|e|p|] sol]; [..|done|done]; (split_and!; [done..|]; exists []; by split).
Qed.
Lemma calm_on_varmap {A} (c : M VarMap A) : calm (on_varmap c).
Proof.
  intros s. unfold ends, on_varmap, zoom. destruct (c (varmap s)) as [[a|e|p|] vm]; [..|done|done]; by apply undisturbed_fields.
Qed.

End frame.

Create HintDb calm discriminated.
#[export] Hint Constants Opaque : calm.
#[export] Hint Variables Opaque : calm.
#[export] Hint Resolve calm_ret calm_lift calm_err calm_panic calm_out_of_fuel calm_get calm_on_varmap : calm.
#[export] Hint Resolve calm_forM calm_mapMM calm_fmap calm_catch : calm.
#[export] Hint Resolve steady_sat steady_sat_extra steady_must_equal steady_can_equal steady_max steady_min steady_possible
  steady_assert steady_model_gen steady_get_a_solution steady_mem_read steady_mem_write : calm.
#[export] Hint Extern 1 (calm (modify _)) => apply calm_modify; intros; done : calm.
#[export] Hint Extern 2 (calm (on_solver _)) => apply calm_on_solver : calm.
(** Walk down a computation; each step is in the database or a case analysis. *)
Ltac calm_step :=
  intros;
  lazymatch goal with
  | |- calm (mbind _ _) => apply calm_bind
  | |- calm (fmap _ _) => apply calm_fmap
  | |- calm (catch _) => apply calm_catch
  | |- calm (forM _ _) => apply calm_forM
  | |- calm (mapMM _ _) => apply calm_mapMM
  | |- calm (match ?x with _ => _ end) => destruct x
  | |- calm (let _ := _ in _) => cbv zeta
  end.
Ltac calm := repeat (first [solve [eauto 3 with calm nocore] | calm_step]).

(** ** The operations of the state *)

Section operations.
Context `{Levels : LevelLaws} `{Dec : !Decides} `{MOps : !MemoryOps} `{MLevels : !MemoryLevels} `{L : LLVM} `{CF : ConstFuel}.
Implicit Types s : State.

Lemma calm_get_a_solution bv : calm (get_a_solution_for_bv bv).
Proof. unfold get_a_solution_for_bv, State.sat. calm. Qed.
Lemma calm_sat : calm State.sat.
Proof. unfold State.sat. calm. Qed.
Lemma calm_sat_extra cs : calm (State.sat_with_extra_constraints cs).
Proof. unfold State.sat_with_extra_constraints. calm. Qed.
Lemma calm_must_equal a b : calm (State.bvs_must_be_equal a b).
Proof. unfold State.bvs_must_be_equal. calm. Qed.
Lemma calm_can_equal a b : calm (State.bvs_can_be_equal a b).
Proof. unfold State.bvs_can_be_equal. calm. Qed.
Lemma calm_possible bv n : calm (State.get_possible_solutions_for_bv bv n).
Proof. unfold State.get_possible_solutions_for_bv. calm. Qed.
Lemma calm_max bv : calm (State.max_possible_solution_for_bv_as_u64 bv).
Proof. unfold State.max_possible_solution_for_bv_as_u64. calm. Qed.
Lemma calm_min bv : calm (State.min_possible_solution_for_bv_as_u64 bv).
Proof. unfold State.min_possible_solution_for_bv_as_u64. calm. Qed.
Lemma calm_assert bv : calm (assert_bv bv).
Proof. unfold assert_bv. calm. Qed.
Lemma calm_assign n bv : calm (State.assign_bv_to_name n bv).
Proof. unfold State.assign_bv_to_name. calm. Qed.
#[local] Hint Resolve calm_assign : calm.
Lemma calm_record r bv : calm (record_bv_result r bv).
Proof. unfold record_bv_result. calm. Qed.
Lemma calm_new_bv n bits : calm (State.new_bv_with_name n bits).
Proof.
  unfold State.new_bv_with_name. apply calm_bind; [apply calm_get|]. intros s0 s. unfold ends, zoom.
  unfold VarMap.new_bv_with_name, mbind, M_bind, zoom, modify. cbn.
  destruct (new_version_of_name (cur_fn s0) n (varmap s)) as [[v|e|p|] vm]; cbn; [|by apply undisturbed_fields|done|done].
  pose proof (levels_bv_new bits (Some v) (solver s)) as E. destruct (bv_new bits (Some v) (solver s)) as [b sol]. cbn in *.
  split_and!; [done..|]. exists []. split; [done|]. split; [|done]. cbn. rewrite E. apply above_refl.
Qed.
Lemma calm_save c s0 :
  ends (save_backtracking_point_at_location (cur_loc s0) c) s0 (fun _ s' => undisturbed s0 s').
Proof.
  unfold save_backtracking_point_at_location, ends, mbind, M_bind, on_solver, zoom, push, modify. cbn.
  split_and!; [done..|]. eexists [_]. cbn. split_and!; [done|apply (above_pushed 1), above_refl|]. by repeat constructor.
Qed.
Lemma calm_split addr : calm (split_on_null addr).
Proof.
  intros s. unfold split_on_null. apply ends_bind. unfold ends at 1, get.
  destruct (null_pointer_checking (config s)); [|apply calm_save|]; apply calm_ret.
Qed.
#[local] Hint Resolve calm_split : calm.
Lemma calm_access {A} addr (c : M SolverRef A) : steady c -> calm (access_or_split addr c).
Proof. intros Hc. unfold access_or_split. calm. Qed.
Lemma steady_triggered ws addr bits : steady (get_triggered_watchpoints ws addr bits).
Proof.
  unfold get_triggered_watchpoints. cbv zeta. apply steady_bind; [|intros; apply steady_ret]. apply steady_mapMM.
  intros [name [w [|]]]; [|apply steady_ret]. apply steady_bind; [|intros []; apply steady_ret].
  unfold is_watchpoint_triggered. cbv zeta. apply steady_bind; [apply steady_lift|intros; apply steady_sat_extra].
Qed.
#[local] Hint Resolve calm_access steady_triggered : calm.
Lemma calm_read addr bits : calm (State.read addr bits).
Proof. unfold State.read. calm. Qed.
Lemma calm_write addr val : calm (State.write addr val).
Proof. unfold State.write, write_without_mut. calm. Qed.
Lemma calm_write_without_mut addr val : calm (write_without_mut addr val).
Proof. exact (calm_write addr val). Qed.
Lemma calm_raw_alloc bits : calm (raw_alloc bits).
Proof. unfold raw_alloc. calm. Qed.
#[local] Hint Resolve calm_raw_alloc : calm.
Lemma calm_allocate bits : calm (allocate bits).
Proof. unfold allocate. calm. Qed.
#[local] Hint Resolve calm_possible : calm.
Lemma calm_allocation_size addr : calm (State.get_allocation_size addr).
Proof. unfold State.get_allocation_size. calm. Qed.
Lemma calm_record_path : calm record_path_entry.
Proof. unfold record_path_entry. calm. Qed.
Lemma calm_demangle f : calm (demangle f).
Proof. unfold demangle. calm. Qed.

End operations.
#[export] Hint Resolve calm_get_a_solution calm_sat calm_sat_extra calm_must_equal calm_can_equal calm_possible calm_max
  calm_min calm_assert calm_assign calm_record calm_new_bv calm_read calm_write calm_write_without_mut calm_raw_alloc
  calm_allocate calm_allocation_size calm_record_path calm_demangle : calm.

(** ** Operands, hooks and instructions *)

Section instructions.
Context `{Levels : LevelLaws} `{Dec : !Decides} `{MOps : !MemoryOps} `{MLevels : !MemoryLevels} `{L : LLVM} `{CF : ConstFuel}.

Section constants.
Context (const_to_bv : Constant -> M State BV) (Hc : forall c, calm (const_to_bv c)).
#[local] Hint Resolve Hc : calm.

Lemma calm_offset_constants indices ty bits : calm (get_offset_recursive const_to_bv indices ty bits).
Proof. revert ty. induction indices as [|i indices IH]; intros ty; cbn [get_offset_recursive]; calm. Qed.
Lemma calm_concat acc elements : calm (concat_results const_to_bv acc elements).
Proof. revert acc. induction elements as [|c elements IH]; intros acc; cbn [concat_results]; calm. Qed.
#[local] Hint Resolve calm_concat : calm.
Lemma calm_aggregate elements : calm (aggregate_to_bv const_to_bv elements).
Proof. unfold aggregate_to_bv. calm. Qed.
Lemma calm_global name : calm (global_reference_to_bv const_to_bv name).
Proof. unfold global_reference_to_bv. calm. Qed.
End constants.

Lemma calm_const c : calm (const_to_bv c).
Proof.
  unfold const_to_bv. revert c. induction const_fuel as [|n IH]; intros c; [apply calm_out_of_fuel|].
  pose proof (calm_offset_constants _ IH). pose proof (calm_aggregate _ IH). pose proof (calm_global _ IH).
  destruct c; cbn [const_to_bv_at]; unfold const_binop, const_cast; calm.
Qed.
#[local] Hint Resolve calm_const : calm.
Lemma calm_operand op : calm (operand_to_bv op).
Proof. unfold operand_to_bv. calm. Qed.
#[local] Hint Resolve calm_operand : calm.
Lemma calm_function_ptr bv n : calm (interpret_as_function_ptr bv n).
Proof. unfold interpret_as_function_ptr. calm. Qed.
Lemma calm_func_by_name f : calm (Operands.get_func_by_name f).
Proof. unfold Operands.get_func_by_name. calm. Qed.

Lemma calm_memcpy_length bv c : calm (get_memcpy_length bv c).
Proof. induction c; cbn [get_memcpy_length]; calm. Qed.
#[local] Hint Resolve calm_memcpy_length : calm.
Lemma calm_memset_loop n val num addr written : calm (memset_loop n val num addr written).
Proof. revert addr written. induction n as [|n IH]; intros addr written; cbn [memset_loop]; calm. Qed.
Lemma calm_memcpy_loop n num src dest written : calm (memcpy_loop n num src dest written).
Proof. revert src dest written. induction n as [|n IH]; intros src dest written; cbn [memcpy_loop]; calm. Qed.
#[local] Hint Resolve calm_memset_loop calm_memcpy_loop : calm.
Lemma calm_memset addr val n : calm (memset addr val n).
Proof. unfold memset, memset_bv. calm. Qed.
Lemma calm_memcpy dest src n : calm (memcpy dest src n).
Proof. unfold memcpy, memcpy_bv. calm. Qed.
#[local] Hint Resolve calm_memset calm_memcpy : calm.

(** Every built-in hook, in one go. *)
Lemma calm_hook `{UC : !UserCode} h proj call :
  (forall k, calm (user_hook k proj call)) -> calm (call_hook h proj call).
Proof.
  intros Hu. unfold call_hook. destruct (FunctionHooks.hook h); try apply Hu;
    unfold malloc_hook, calloc_hook, realloc_hook, free_hook, cxa_allocate_exception, cxa_throw, cxa_begin_catch,
      cxa_end_catch, llvm_eh_typeid_for, abort_hook, generic_stub_hook, symex_memset, symex_memcpy, symex_bswap,
      symex_objectsize, symex_assume, symex_uadd_with_overflow, symex_sadd_with_overflow, symex_usub_with_overflow,
      symex_ssub_with_overflow, symex_umul_with_overflow, symex_smul_with_overflow, symex_uadd_sat, symex_sadd_sat,
      symex_usub_sat, symex_ssub_sat, with_overflow, saturating, same_type_args, pointer_or_void, malloc, calloc, zalloc,
      realloc, assert_args, arg, expect_type; calm.
Qed.

Lemma calm_gep_offset indices ty bits : calm (gep_offset_recursive indices ty bits).
Proof. revert ty. induction indices as [|i indices IH]; intros ty; cbn [gep_offset_recursive]; calm. Qed.
#[local] Hint Resolve calm_gep_offset : calm.
Lemma calm_phi p : calm (symex_phi p).
Proof. unfold symex_phi. calm. Qed.
Lemma calm_landing_pad lp p t : calm (symex_landing_pad lp p t).
Proof. unfold symex_landing_pad. calm. Qed.

Lemma calm_binop i : calm (symex_binop i).
Proof. unfold symex_binop. calm. Qed.
Lemma calm_icmp i : calm (symex_icmp i).
Proof. unfold symex_icmp. calm. Qed.
Lemma calm_zext u : calm (symex_zext u).
Proof. unfold symex_zext. calm. Qed.
Lemma calm_sext u : calm (symex_sext u).
Proof. unfold symex_sext. calm. Qed.
Lemma calm_trunc u : calm (symex_trunc u).
Proof. unfold symex_trunc. calm. Qed.
Lemma calm_cast_op i u : calm (symex_cast_op i u).
Proof. unfold symex_cast_op. calm. Qed.
Lemma calm_load i : calm (symex_load i).
Proof. unfold symex_load. calm. Qed.
Lemma calm_store i : calm (symex_store i).
Proof. unfold symex_store. calm. Qed.
Lemma calm_gep i : calm (symex_gep i).
Proof. unfold symex_gep. calm. Qed.
Lemma calm_alloca p i : calm (symex_alloca p i).
Proof. unfold symex_alloca. calm. Qed.
Lemma calm_extractelement i : calm (symex_extractelement i).
Proof. unfold symex_extractelement. calm. Qed.
Lemma calm_insertelement i : calm (symex_insertelement i).
Proof. unfold symex_insertelement. calm. Qed.
Lemma calm_shufflevector i : calm (symex_shufflevector i).
Proof. unfold symex_shufflevector. calm. Qed.
Lemma calm_extractvalue i : calm (symex_extractvalue i).
Proof. unfold symex_extractvalue. calm. Qed.
Lemma calm_insertvalue i : calm (symex_insertvalue i).
Proof. unfold symex_insertvalue. calm. Qed.
Lemma calm_select i : calm (symex_select i).
Proof. unfold symex_select. calm. Qed.
Lemma calm_cmpxchg i : calm (symex_cmpxchg i).
Proof. unfold symex_cmpxchg. calm. Qed.

End instructions.
#[export] Hint Resolve calm_const calm_operand calm_function_ptr calm_func_by_name calm_phi calm_landing_pad calm_binop
  calm_icmp calm_zext calm_sext calm_trunc calm_cast_op calm_load calm_store calm_gep calm_alloca calm_extractelement calm_insertelement calm_shufflevector
  calm_extractvalue calm_insertvalue calm_select calm_cmpxchg : calm.

(** ** The toy solver *)

Module ToyLevels.
Import ToyBackend Toy.

#[export] Instance toy_levels : LevelLaws.
Proof.
  split.
  - done.
  - done.
  - intros b s. cbn. unfold tassert. destruct (tassertions s) as [|l ls] eqn:E; cbn; [by rewrite E|].
    split; [done|]. by exists [b].
  - intros s. cbn. unfold tsat. by destruct (List.find _ _).
  - done.
  - done.
  - done.
Qed.

#[export] Instance toy_decides : Decides.
Proof. intros s. cbn. unfold tsat. by destruct (List.find _ _). Qed.

End ToyLevels.
