(* ===== verification/EngineTheorems.v ===== *)
(** * EngineTheorems: the exploration as a whole

    The engine of [Symex.engine] is the limit of its approximations: a result
    it gives with some fuel is its result with any larger amount, so a result
    other than [OutOfFuel] is the program's. *)
From S2P Require Import Prelude Bits Backend ToySolver SolverUtils MemorySpec Memory Alloc LLVMIR ToyLLVM Project Layout VarMap Watchpoints FunctionHooks GlobalAllocations Config State Operands Hooks SymexInstr Symex StateTheorems SymexTheorems.

Open Scope Z_scope.

Section fuel.
Context `{Ops : BackendOps} `{MOps : !MemoryOps} `{L : LLVM} `{CF : ConstFuel} `{UC : !UserCode}.
Context (project : Project) (squash_unsats : bool).
Implicit Types E : Engine.

Record engine_refines E1 E2 : Prop := {
  refines_through :
    refines (symex_from_cur_loc_through_end_of_function E1) (symex_from_cur_loc_through_end_of_function E2);
  refines_backtrack : refines (backtrack_and_continue E1) (backtrack_and_continue E2);
  refines_from : refines (symex_from_cur_loc E1) (symex_from_cur_loc E2)
}.

#[local] Hint Resolve refines_through refines_backtrack refines_from : refines.

Section handlers.
Context E1 E2 (HE : engine_refines E1 E2).

Lemma call_refines call : refines (symex_call project E1 call) (symex_call project E2 call).
Proof. unfold symex_call. solve_refines. Qed.

Lemma condbr_refines c : refines (symex_condbr E1 c) (symex_condbr E2 c).
Proof. unfold symex_condbr. solve_refines. Qed.

Lemma switch_refines sw : refines (symex_switch E1 sw) (symex_switch E2 sw).
Proof. unfold symex_switch. solve_refines. Qed.

Lemma landing_refines p t first insts : refines (landing_loop E1 p t first insts) (landing_loop E2 p t first insts).
Proof. revert first. induction insts as [|[n i] insts IH]; intros first; cbn [landing_loop]; solve_refines. Qed.
#[local] Hint Resolve landing_refines : refines.

Lemma catch_refines p bbname : refines (catch_at_exception_label E1 p bbname) (catch_at_exception_label E2 p bbname).
Proof. unfold catch_at_exception_label, catch_with_type_index. solve_refines. Qed.
#[local] Hint Resolve catch_refines : refines.

Lemma finish_invoke_refines i r k1 k2 :
  refines k1 k2 -> refines (finish_hooked_invoke E1 i r k1) (finish_hooked_invoke E2 i r k2).
Proof. intros. unfold finish_hooked_invoke. solve_refines. Qed.

Lemma invoke_refines i : refines (symex_invoke project E1 i) (symex_invoke project E2 i).
Proof.
  unfold symex_invoke. cbv zeta. solve_refines; intros; apply finish_invoke_refines; solve_refines.
Qed.

Lemma terminator_refines t : refines (symex_terminator project E1 t) (symex_terminator project E2 t).
Proof.
  destruct t; cbn [symex_terminator]; try apply refines_refl.
  - unfold symex_br. solve_refines.
  - apply condbr_refines.
  - apply switch_refines.
  - apply invoke_refines.
Qed.

Lemma instruction_refines i : refines (symex_instruction project E1 i) (symex_instruction project E2 i).
Proof. destruct i; cbn [symex_instruction]; first [apply call_refines | apply refines_refl]. Qed.
#[local] Hint Resolve instruction_refines terminator_refines : refines.

Lemma instr_loop_refines insts first k1 k2 :
  (forall b, refines (k1 b) (k2 b)) ->
  refines (instr_loop project squash_unsats E1 insts first k1) (instr_loop project squash_unsats E2 insts first k2).
Proof.
  intros Hk. revert first. induction insts as [|[n i] insts IH]; intros first; cbn [instr_loop]; solve_refines.
Qed.

Lemma through_refines :
  refines (through_end_of_function project squash_unsats E1) (through_end_of_function project squash_unsats E2).
Proof.
  unfold through_end_of_function. solve_refines. intros. apply instr_loop_refines. solve_refines.
Qed.

Lemma unwind_refines n p : refines (unwind E1 n p) (unwind E2 n p).
Proof. induction n as [|n IH]; cbn [unwind]; solve_refines. Qed.
#[local] Hint Resolve unwind_refines : refines.

Lemma from_cur_loc_refines : refines (from_cur_loc E1) (from_cur_loc E2).
Proof. unfold from_cur_loc, assign_or_backtrack. solve_refines. Qed.

Lemma backtrack_refines : refines (backtrack_and_continue_with E1) (backtrack_and_continue_with E2).
Proof. unfold backtrack_and_continue_with. solve_refines. Qed.

End handlers.

Abbreviation engine := (engine project squash_unsats).

Lemma engine_succ n : engine_refines (engine n) (engine (S n)).
Proof.
  induction n as [|n IH]; [split; apply refines_out_of_fuel|].
  split; [by apply through_refines|by apply backtrack_refines|by apply from_cur_loc_refines].
Qed.

Lemma engine_le n n' : (n <= n')%nat -> engine_refines (engine n) (engine n').
Proof.
  induction 1 as [|n' _ IH]; [split; apply refines_refl|]. destruct IH, (engine_succ n').
  split; eapply refines_trans; eassumption.
Qed.

End fuel.

(** Fuel.  What [ExecutionManager::next] returns with some fuel, when that
    is enough, it returns with any larger amount, and the state it leaves is
    the same: the model's bound on nested calls never changes a result. *)
Theorem next_fuel_independent `{Ops : BackendOps} `{MOps : !MemoryOps} `{L : LLVM} `{CF : ConstFuel} `{UC : !UserCode}
    (self : ExecutionManager) n n' :
  fst (next n self) <> OutOfFuel -> (n <= n')%nat -> next n' self = next n self.
Proof.
  intros Hr Hn. destruct (engine_le (em_project self) (em_squash_unsats self) n n' Hn) as [Ht Hb _].
  unfold next in *. destruct (em_fresh self).
  - destruct (Ht (em_state self)) as [E|E]; [|by rewrite E].
    destruct (symex_from_cur_loc_through_end_of_function _ _) as [r s]. cbn in E, Hr. by subst r.
  - destruct (Hb (em_state self)) as [E|E]; [|by rewrite E].
    destruct (backtrack_and_continue _ _) as [r s]. cbn in E, Hr. by subst r.
Qed.

(** ** Resolving the callee *)

Section resolution.
Context `{Ops : BackendOps} `{MOps : !MemoryOps} `{L : LLVM} `{CF : ConstFuel} `{UC : !UserCode}.

(** The functions with a built-in hook, by the beginning of their names (what
    follows names the types that an intrinsic is used at).  [llvm.smul.with.overflow]
    is not among them: it should be, but the code does not find its hook
    ([smul_with_overflow_unresolved] of Findings.v). *)
Definition builtin_prefixes : list (string * HookFn) :=
  ((fun op => ("llvm." ++ op.1 ++ ".with.overflow", op.2)%string) <$>
     [("uadd"%string, H_uadd_with_overflow); ("usub"%string, H_usub_with_overflow); ("umul"%string, H_umul_with_overflow);
      ("sadd"%string, H_sadd_with_overflow); ("ssub"%string, H_ssub_with_overflow)]) ++
  ((fun op => ("llvm." ++ op.1 ++ ".sat", op.2)%string) <$>
     [("uadd"%string, H_uadd_sat); ("usub"%string, H_usub_sat); ("sadd"%string, H_sadd_sat); ("ssub"%string, H_ssub_sat)]) ++
  [("llvm.bswap"%string, H_bswap); ("llvm.objectsize"%string, H_objectsize)] ++
  ((fun p => (p, H_memset)) <$> ["llvm.memset"; "__memset"]%string) ++
  ((fun p => (p, H_memcpy)) <$> ["llvm.memcpy"; "llvm.memmove"; "__memcpy"]%string) ++
  ((fun p => (("llvm." ++ p)%string, H_generic_stub)) <$>
     ["lifetime"; "dbg"; "invariant"; "launder.invariant"; "strip.invariant"; "read_register"; "write_register"]%string).
Definition begins (p name : string) : Prop := exists suffix, name = (p ++ suffix)%string.
(** The functions of the C library count as functions. *)
Definition hooked_as (f : HookFn) (name : string) : HookedThing :=
  match f with H_memset | H_memcpy => HTFunction name | _ => HTIntrinsic name end.

Lemma starts_with_spec p name : starts_with p name = true <-> begins p name.
Proof.
  unfold starts_with. revert name. induction p as [|c p IH]; intros name.
  - split; [by exists name|by destruct name].
  - split.
    + destruct name as [|d name]; cbn; [done|]. destruct (Ascii.ascii_dec c d) as [<-|]; [|done]. intros [suffix ->]%IH. by exists suffix.
    + intros [suffix ->]. unfold String.app. cbn. fold String.app. destruct (Ascii.ascii_dec c c); [|done]. apply IH. by exists suffix.
Qed.

(** The hooks are registered under the keys that [intrinsic_for] gives. *)
Definition registered : list (string * HookFn) :=
  [("intrinsic: llvm.memset", H_memset); ("intrinsic: llvm.memcpy/memmove", H_memcpy); ("intrinsic: llvm.bswap", H_bswap);
   ("intrinsic: llvm.objectsize", H_objectsize); ("intrinsic: llvm.assume", H_assume);
   ("intrinsic: llvm.uadd.with.overflow", H_uadd_with_overflow); ("intrinsic: llvm.sadd.with.overflow", H_sadd_with_overflow);
   ("intrinsic: llvm.usub.with.overflow", H_usub_with_overflow); ("intrinsic: llvm.ssub.with.overflow", H_ssub_with_overflow);
   ("intrinsic: llvm.umul.with.overflow", H_umul_with_overflow); ("intrinsic: llvm.uadd.sat", H_uadd_sat);
   ("intrinsic: llvm.sadd.sat", H_sadd_sat); ("intrinsic: llvm.usub.sat", H_usub_sat); ("intrinsic: llvm.ssub.sat", H_ssub_sat);
   ("intrinsic: generic_stub_hook", H_generic_stub)]%string.
Lemma hooks_registered :
  match intrinsic_hooks_new with
  | Ok h => (fun kf => hook <$> hooks h !! kf.1) <$> registered = (fun kf => Some kf.2) <$> registered
  | _ => False
  end.
Proof. vm_compute. reflexivity. Qed.
Lemma fmap_eq_elem {A B} (f g : A -> B) (xs : list A) x : f <$> xs = g <$> xs -> x ∈ xs -> f x = g x.
Proof. intros E Hx. induction Hx; injection E; auto. Qed.
Lemma registered_hook hs key f : intrinsic_hooks_new = Ok hs -> (key, f) ∈ registered ->
  exists h, hook h = f /\ get_hook_for hs key = Some h.
Proof.
  intros Hn Hin. pose proof hooks_registered as Hr. rewrite Hn in Hr. apply (fmap_eq_elem _ _ _ _ Hr) in Hin as Hf. clear Hr. cbn in Hf.
  destruct (hooks hs !! key) as [h|] eqn:E; [|discriminate Hf]. injection Hf as Hf. exists h. split; [exact Hf|]. unfold get_hook_for. by rewrite E.
Qed.

Definition finds (name : string) (f : HookFn) : Prop :=
  match intrinsic_for name with
  | Some (key, thing) => thing = hooked_as f name /\ (key, f) ∈ registered
  | None => False
  end.
Lemma starts_with_app p suffix : starts_with p (p ++ suffix) = true.
Proof. apply starts_with_spec. by exists suffix. Qed.
Lemma builtin_found p f name : (p, f) ∈ builtin_prefixes -> begins p name -> finds name f.
Proof.
  intros Hp [suffix ->]. let l := eval vm_compute in builtin_prefixes in change builtin_prefixes with l in Hp.
  repeat (apply elem_of_cons in Hp as [Hp|Hp];
    [injection Hp as -> ->; unfold finds, intrinsic_for; rewrite bool_decide_false by discriminate; rewrite starts_with_app; hnf;
     (split; [reflexivity|unfold registered; repeat constructor])|]).
  by apply not_elem_of_nil in Hp.
Qed.

Lemma not_builtin name : (forall p f, (p, f) ∈ builtin_prefixes -> ~ begins p name) -> name <> "llvm.assume"%string ->
  ~ begins "llvm.smul" name -> intrinsic_for name = None.
Proof.
  intros Hp Ha Hs.
  assert (Forall (fun pf => starts_with pf.1 name = false) builtin_prefixes) as Hf.
  { apply Forall_forall. intros [p f] Hin. destruct (starts_with p name) eqn:E; [|done].
    apply starts_with_spec in E. by destruct (Hp p f). }
  assert (starts_with "llvm.smul_with_overflow" name = false) as Hsm.
  { destruct (starts_with _ name) eqn:E; [|done]. apply starts_with_spec in E as [suffix ->]. destruct Hs. by eexists. }
  let l := eval vm_compute in builtin_prefixes in change builtin_prefixes with l in Hf.
  repeat match type of Hf with Forall _ (_ :: _) => let H := fresh in apply Forall_cons in Hf as [H Hf]; cbn in H end.
  unfold intrinsic_for. rewrite bool_decide_false by done.
  repeat match goal with H : starts_with _ name = false |- _ => rewrite ?H; clear H end. done.
Qed.

(** C38: finding the callee of a call by name.  A hook of the configuration has
    precedence; otherwise the memory functions, the arithmetic and the other
    intrinsics of [builtin_prefixes], and [llvm.assume], get their built-in hook,
    whatever types they are used at; any other name is left to the project's
    functions.  (Nothing is said of [llvm.smul.with.overflow]: its hook is not
    found, see [smul_with_overflow_unresolved] of Findings.v.)  The lookup
    never panics and does not change the state. *)
Theorem resolve_by_name s name ty hs :
  intrinsic_hooks_new = Ok hs -> intrinsic_hooks s = hs ->
  let resolved := resolve_function (inr (ConstantOperand (CGlobalReference (NameStr name) ty))) s in
  match get_hook_for (function_hooks (config s)) name with
  | Some h => resolved = (Ok (HookActive h (HTFunction name)), s)
  | None =>
      (forall p f, (p, f) ∈ builtin_prefixes -> begins p name ->
         exists h, hook h = f /\ resolved = (Ok (HookActive h (hooked_as f name)), s)) /\
      (name = "llvm.assume"%string -> exists h, hook h = H_assume /\ resolved = (Ok (HookActive h (HTIntrinsic name)), s)) /\
      ((forall p f, (p, f) ∈ builtin_prefixes -> ~ begins p name) -> name <> "llvm.assume"%string -> ~ begins "llvm.smul" name ->
         resolved = (Ok (NoHookActive name), s))
  end.
Proof.
  intros Hn Hs. cbv zeta. unfold resolve_function, mbind, M_bind, get. cbn -[begins].
  destruct (get_hook_for (function_hooks (config s)) name) as [h|]; [reflexivity|].
  assert (forall f, finds name f -> exists h, hook h = f /\
    match intrinsic_for name with
    | Some (key, thing) => (hook ← lift (expect "Failed to find LLVM intrinsic hook" (get_hook_for (intrinsic_hooks s) key)); mret (HookActive hook thing))
    | None => mret (NoHookActive name)
    end s = (Ok (HookActive h (hooked_as f name)), s)) as Hf.
  { intros f. unfold finds. destruct (intrinsic_for name) as [[key thing]|]; [|intros []].
    intros [-> Hk]. destruct (registered_hook hs key f Hn Hk) as (h & Eh & Hh). exists h. split; [exact Eh|]. rewrite Hs, Hh. reflexivity. }
  split; [|split].
  - intros p f Hp Hb. exact (Hf f (builtin_found p f name Hp Hb)).
  - intros ->. apply (Hf H_assume). hnf. split; [reflexivity|unfold registered; repeat constructor].
  - intros H1 H2 H3. rewrite not_builtin by assumption. reflexivity.
Qed.

End resolution.

(** ** Loops without assignments *)

Section divergence.
Context `{Ops : BackendOps} `{MOps : !MemoryOps} `{L : LLVM} `{CF : ConstFuel} `{UC : !UserCode}.

(** The loop bound counts assignments to a name, not executions of a
    block.  A block with no instructions that branches to itself is executed
    for ever, whatever [loop_bound] is: no amount of fuel gives a result. *)
Theorem empty_loop_diverges project squash n s b :
  bb (cur_loc s) = b -> instr (cur_loc s) = Instr 0 -> bb_instrs b = [] -> bb_term b = TBr (bb_name b) ->
  get_bb_by_name (func (cur_loc s)) (bb_name b) = Some b -> terminator_callbacks (callbacks (config s)) = [] ->
  fst (symex_from_cur_loc_through_end_of_function (engine project squash n) s) = OutOfFuel.
Proof.
  intros Hb Hi He Ht Hf Hc. revert s Hb Hi Hf Hc. induction n as [|n IH]; intros s Hb Hi Hf Hc; [done|].
  cbn [engine symex_from_cur_loc_through_end_of_function]. unfold through_end_of_function, insts_to_skip.
  unfold mbind, M_bind, get, lift, modify. rewrite Hi, Hb, He. cbn. unfold mbind, M_bind. change (Z.of_nat 0 =? 0) with true. cbn.
  rewrite Hc, Hb, Ht. cbn. unfold symex_br, mbind, M_bind. rewrite (goto_bb_eq _ _ b) by done. by apply IH.
Qed.

End divergence.
