(* ===== verification/Analyses.v ===== *)
(** * Analyses: the two analyses built on the engine (src/src/lib.rs)

    [find_zero_of_func] and [get_possible_return_values_of_func] drive an
    execution manager path by path.  [fuel] bounds the calls nested in one
    [next], [rounds] the number of paths. *)
From S2P Require Import Prelude Bits Backend SolverUtils MemorySpec Alloc LLVMIR Project Layout VarMap FunctionHooks GlobalAllocations Config State Operands HookUtils Hooks SymexInstr Symex StateTheorems.

Open Scope Z_scope.

Inductive SolutionValue :=
| I8 (i : Z)
| I16 (i : Z)
| I32 (i : Z)
| I64 (i : Z)
| Ptr (u : Z).

#[export] Instance SolutionValue_eq_dec : EqDecision SolutionValue.
Proof. solve_decision. Defined.
#[export] Instance ReturnValue_eq_dec {V} `{EqDecision V} : EqDecision (ReturnValue V).
Proof. solve_decision. Defined.

Definition unwrap_to_i8 (v : SolutionValue) : outcome Z := match v with I8 i => Ok i | _ => Panic "unwrap_to_i8" end.
Definition unwrap_to_i16 (v : SolutionValue) : outcome Z := match v with I16 i => Ok i | _ => Panic "unwrap_to_i16" end.
Definition unwrap_to_i32 (v : SolutionValue) : outcome Z := match v with I32 i => Ok i | _ => Panic "unwrap_to_i32" end.
Definition unwrap_to_i64 (v : SolutionValue) : outcome Z := match v with I64 i => Ok i | _ => Panic "unwrap_to_i64" end.
Definition unwrap_to_ptr (v : SolutionValue) : outcome Z := match v with Ptr u => Ok u | _ => Panic "unwrap_to_ptr" end.

(** [u as i8] and so on *)
Definition as_signed (w u : Z) : Z := sval w (u mod 2 ^ w).

(** A [HashSet<ReturnValue<u64>>], as a list without duplicates. *)
Definition Candidates : Type := list (ReturnValue Z).
Definition candidates_insert (c : Candidates) (x : ReturnValue Z) : Candidates :=
  if bool_decide (x ∈ c) then c else x :: c.

Section analyses.
Context `{Ops : BackendOps} `{MOps : !MemoryOps} `{L : LLVM} `{CF : ConstFuel} `{UC : !UserCode}.

(** A computation on the manager's state ([em.mut_state()]). *)
Definition set_em_state (s : State) (em : ExecutionManager) : ExecutionManager :=
  {| em_state := s; em_project := em_project em; em_bvparams := em_bvparams em; em_fresh := em_fresh em;
     em_squash_unsats := em_squash_unsats em |}.
Definition mut_state {A} (c : M State A) : M ExecutionManager A := zoom em_state set_em_state c.

(** ** [find_zero_of_func] *)

(** [while let Some(bvretval) = em.next() { .. }]: whether a zero was found. *)
Fixpoint zero_loop (rounds fuel : nat) (zero : BV) : M ExecutionManager bool :=
  match rounds with
  | O => out_of_fuel
  | S rounds =>
      bvretval ← next fuel;
      match bvretval with
      | None => mret false
      | Some (Ok ReturnVoid) => panic "Function shouldn't return void"
      | Some (Ok (Throw _)) => zero_loop rounds fuel zero
      | Some (Ok Abort) => zero_loop rounds fuel zero
      | Some (Ok (Return v)) =>
          _ ← mut_state (assert_bv (bv_eq v zero));
          b ← mut_state sat;
          if (b : bool) then mret true else zero_loop rounds fuel zero
      | Some (Err (LoopBoundExceeded _)) => zero_loop rounds fuel zero
      | Some r => lift (r ≫= fun _ => Panic "unreachable")
      end
  end.

Definition solution_value (ty : Type_) (u : Z) : outcome SolutionValue :=
  match ty with
  | IntegerType bits =>
      if bits =? 8 then Ok (I8 (as_signed 8 u))
      else if bits =? 16 then Ok (I16 (as_signed 16 u))
      else if bits =? 32 then Ok (I32 (as_signed 32 u))
      else if bits =? 64 then Ok (I64 (as_signed 64 u))
      else Panic "not implemented: Function parameter with type"
  | PointerType _ => Ok (Ptr u)
  | _ => Panic "not implemented: Function parameter with type"
  end.

(** The pointers among the parameters are not null. *)
Definition nonnull_pointers (params : list (Parameter_ * BV)) : M ExecutionManager unit :=
  forM params (fun '(param, bv) =>
    match param_ty param with
    | PointerType _ => mut_state (assert_bv (bv_ne bv (bv_zero (get_width bv))))
    | _ => mret tt
    end).

(** One value for each parameter. *)
Definition input_values (params : list (Parameter_ * BV)) : M ExecutionManager (list SolutionValue) :=
  mapMM (fun '(p, bv) =>
    sol ← mut_state (get_a_solution_for_bv bv);
    sol ← lift (expect "since state.sat() passed, expected a solution for each var" sol);
    u ← lift (expect "parameter more than 64 bits wide" (sol_as_u64 sol));
    lift (solution_value (param_ty p) u)) params.

Definition find_zero_of_func (rounds fuel : nat) (funcname : string) (project : Project) (cfg : Config)
    : outcome (option (list SolutionValue)) :=
  em ← symex_function funcname project cfg;
  r ← Project.get_func_by_name project funcname;
  '(func, _) ← expect "Failed to find function" r;
  let params := zip (func_parameters func) (param_bvs em) in
  let prog : M ExecutionManager (option (list SolutionValue)) :=
    _ ← nonnull_pointers params;
    returnwidth ← lift (size (func_return_type func));
    let zero := bv_zero (as_u32 returnwidth) in
    found ← zero_loop rounds fuel zero;
    if (found : bool) then values ← input_values params; mret (Some values) else mret None in
  fst (prog em).

(** ** [get_possible_return_values_of_func] *)

(** [.unwrap()] on a [Result] *)
Definition unwrap_result {S A} (c : M S A) : M S A :=
  r ← catch c;
  lift (match r with Err _ => Panic "called `Result::unwrap()` on an `Err` value" | r => r end).

(** Constrain [v] to differ from the candidates that [payload] selects. *)
Definition rule_out (payload : ReturnValue Z -> option Z) (candidates : Candidates) (v : BV) (width : Z) : M State unit :=
  forM candidates (fun candidate =>
    match payload candidate with
    | Some u => assert_bv (bv_ne v (from_u64 u width))
    | None => mret tt
    end).

Definition returned (r : ReturnValue Z) : option Z := match r with Return u => Some u | _ => None end.
Definition thrown (r : ReturnValue Z) : option Z := match r with Throw u => Some u | _ => None end.

(** The new values of [v], wrapped by [wrap]: the candidates extended with
    them, and whether the loop is left. *)
Definition new_values (payload : ReturnValue Z -> option Z) (wrap : Z -> ReturnValue Z)
    (candidates : Candidates) (v : BV) (return_width n : Z) : M State (Candidates * bool) :=
  _ ← rule_out payload candidates v (as_u32 return_width);
  ps ← unwrap_result (get_possible_solutions_for_bv v n);
  let extend (sols : gset BVSolution) : outcome Candidates :=
    foldO (fun c x => u ← expect "called `Option::unwrap()` on a `None` value" (sol_as_u64 x);
                      mret (candidates_insert c (wrap u))) candidates (elements sols) in
  match ps with
  | Exactly sols => c ← lift (extend sols); mret (c, n <? Z.of_nat (length c))
  | AtLeast sols => c ← lift (extend sols); mret (c, true)
  end.

(** One round: the candidates, [have_throw], and whether the loop is left. *)
Definition visit (thrown_size : option Z) (return_width n : Z) (candidates : Candidates) (have_throw : bool)
    (r : ReturnValue BV) : M State (Candidates * bool * bool) :=
  let add (x : ReturnValue Z) (have_throw : bool) : M State (Candidates * bool * bool) :=
    let c := candidates_insert candidates x in mret (c, have_throw, n <? Z.of_nat (length c)) in
  match r with
  | ReturnVoid => add ReturnVoid have_throw
  | Abort => add Abort have_throw
  | Return v =>
      '(c, leave) ← new_values returned Return candidates v return_width n;
      mret (c, have_throw, leave)
  | Throw bvptr =>
      match thrown_size with
      | None =>
          if have_throw then mret (candidates, have_throw, false)
          else
            u ← lift (expect "called `Option::unwrap()` on a `None` value" (as_u64 bvptr));
            add (Throw u) true
      | Some thrown_size =>
          thrown_value ← unwrap_result (read bvptr thrown_size);
          '(c, leave) ← new_values thrown Throw candidates thrown_value return_width n;
          mret (c, have_throw, leave)
      end
  end.

Fixpoint values_loop (rounds fuel : nat) (thrown_size : option Z) (return_width n : Z)
    (candidates : Candidates) (have_throw : bool) : M ExecutionManager Candidates :=
  match rounds with
  | O => out_of_fuel
  | S rounds =>
      bvretval ← next fuel;
      match bvretval with
      | None => mret candidates
      | Some (Ok r) =>
          '(c, have_throw, leave) ← mut_state (visit thrown_size return_width n candidates have_throw r);
          if (leave : bool) then mret c else values_loop rounds fuel thrown_size return_width n c have_throw
      | Some _ => panic "full_error_message_with_context"
      end
  end.

Inductive PossibleReturnValues := ExactlyRV (c : Candidates) | AtLeastRV (c : Candidates).

Definition get_possible_return_values_of_func (rounds fuel : nat) (funcname : string) (args : list (option Z))
    (project : Project) (cfg : Config) (thrown_size : option Z) (n : Z) : outcome PossibleReturnValues :=
  em ← symex_function funcname project cfg;
  r ← Project.get_func_by_name project funcname;
  '(func, _) ← expect "Failed to find function" r;
  let prog : M ExecutionManager Candidates :=
    _ ← forM (zip (func_parameters func) args) (fun '(param, a) =>
          match a with
          | Some val =>
              w ← lift (size (param_ty param));
              mut_state (overwrite_latest_version_of_bv (param_name param) (from_u64 val (as_u32 w)))
          | None => mret tt
          end);
    return_width ← lift (size (func_return_type func));
    values_loop rounds fuel thrown_size return_width n [] false in
  candidate_values ← fst (prog em);
  mret (if n <? Z.of_nat (length candidate_values) then AtLeastRV candidate_values else ExactlyRV candidate_values).

End analyses.
