(* ===== verification/EngineInvariant.v ===== *)
(** * EngineInvariant: what holds of the state all through an exploration

    Every state between two paths, and every state that a terminator hands to
    the engine, has one solver level for each saved point on top of the levels
    it started with, and all the locations it can resume from (the current
    one, those of the saved points and of all call sites) point at an
    instruction of their block or at its terminator. *)
From S2P Require Import Prelude Bits Backend ToySolver SolverUtils MemorySpec Memory Alloc LLVMIR Project Layout VarMap Watchpoints FunctionHooks GlobalAllocations Config State Operands HookUtils Hooks SymexInstr Symex LevelTheorems Analyses.

Open Scope Z_scope.

(** [Location::instr] is a valid index: instruction 0 of an empty block
    stands for the terminator. *)
Definition loc_ok (l : Location) : Prop :=
  match instr l with
  | Instr i => 0 <= i /\ (i < Z.of_nat (length (bb_instrs (bb l))) \/ i = 0 /\ bb_instrs (bb l) = [])
  | TerminatorIdx => True
  end.

(** User hooks and callbacks may query the solver and change variables and
    memory, but not move the location, the call stack or the saved points. *)
Class CalmUserCode `{BVSemantics} `{MOps : !MemoryOps} `{LLVM} `{UC : !UserCode} : Prop := {
  calm_user_hook k p call : calm (user_hook k p call);
  calm_instruction_callback k i : calm (instruction_callback k i);
  calm_terminator_callback k t : calm (terminator_callback k t)
}.
#[export] Hint Resolve calm_instruction_callback calm_terminator_callback : calm.

Section invariant.
Context `{Levels : LevelLaws} `{Dec : !Decides} `{MOps : !MemoryOps} `{MLevels : !MemoryLevels} `{L : LLVM} `{CF : ConstFuel}.
Implicit Types s : State.

Definition stack_ok (frames : list StackFrame) : Prop := Forall (fun f => loc_ok (callsite_loc (callsite f))) frames.

(** The levels that were there before any point was saved. *)
Context (base : list (list BV)).

Record inv s : Prop := {
  inv_levels : above (length (backtrack_points s)) base (assertions (solver s));
  inv_loc : loc_ok (cur_loc s);
  inv_stack : stack_ok (stack s);
  inv_points : Forall (fun bp => loc_ok (bp_loc bp) /\ stack_ok (bp_stack bp)) (backtrack_points s)
}.

(** The computation keeps the invariant, whether it returns or fails. *)
Definition keeps {A} (c : M State A) : Prop := forall s, inv s -> ends c s (fun _ s' => inv s').
(** It also stays in the block [b]. *)
Definition inside b s : Prop := inv s /\ bb (cur_loc s) = b.
Definition stays {A} (c : M State A) : Prop := forall b s, inside b s -> ends c s (fun _ s' => inside b s').

Lemma inv_undisturbed s s' : inv s -> undisturbed s s' -> inv s'.
Proof.
  intros [Hl Hc Hs Hp] (El & Es & _ & bps & Eb & En & F). split.
  - rewrite Eb, length_app. by eapply above_trans.
  - by rewrite El.
  - by rewrite Es.
  - rewrite Eb. apply Forall_app. split; [|done]. eapply Forall_impl; [done|]. intros bp [-> ->]. done.
Qed.

Lemma stays_calm {A} (c : M State A) : calm c -> stays c.
Proof.
  intros Hc b s [Hi Hb]. eapply ends_mono; [apply Hc|]. intros r s' U. split; [by eapply inv_undisturbed|].
  by rewrite (proj1 U).
Qed.
Lemma keeps_stays {A} (c : M State A) : stays c -> keeps c.
Proof. intros Hc s Hi. eapply ends_mono; [by apply (Hc (bb (cur_loc s)))|]. by intros r s' []. Qed.
Lemma keeps_calm {A} (c : M State A) : calm c -> keeps c.
Proof. intros. by apply keeps_stays, stays_calm. Qed.

Lemma keeps_bind {A B} (c : M State A) (f : A -> M State B) : keeps c -> (forall a, keeps (f a)) -> keeps (c ≫= f).
Proof.
  intros Hc Hf s Hi. apply ends_bind. eapply ends_mono; [by apply Hc|]. intros [a|e|p|] s' Hi'; try done. by apply Hf.
Qed.
Lemma stays_bind {A B} (c : M State A) (f : A -> M State B) : stays c -> (forall a, stays (f a)) -> stays (c ≫= f).
Proof.
  intros Hc Hf b s Hi. apply ends_bind. eapply ends_mono; [by apply Hc|]. intros [a|e|p|] s' Hi'; try done. by apply Hf.
Qed.
Lemma keeps_get {B} (f : State -> M State B) : (forall s, inv s -> keeps (f s)) -> keeps (get ≫= f).
Proof. intros Hf s Hi. apply ends_bind. by apply Hf. Qed.
Lemma keeps_modify f : (forall s, inv s -> inv (f s)) -> keeps (modify f).
Proof. intros Hf s Hi. by apply Hf. Qed.
Lemma keeps_catch {A} (c : M State A) : keeps c -> keeps (catch c).
Proof. intros Hc s Hi. apply ends_catch. by apply Hc. Qed.
Lemma keeps_fmap {A B} (f : A -> B) (c : M State A) : keeps c -> keeps (f <$> c).
Proof.
  intros Hc s Hi. specialize (Hc s Hi). unfold ends, fmap, M_fmap in *. by destruct (c s) as [[a|e|p|] s'].
Qed.
Lemma keeps_forM {A} (xs : list A) f : (forall x, keeps (f x)) -> keeps (forM xs f).
Proof. intros Hf. induction xs as [|x xs IH]; cbn [forM]; [intros s Hi; exact Hi|]. by apply keeps_bind. Qed.

(** ** Locations *)

Lemma inv_set_loc l s : inv s -> loc_ok l -> inv (set_cur_loc l s).
Proof. by intros [] ?. Qed.
Lemma loc_ok_start m f b d : loc_ok {| module := m; func := f; bb := b; instr := Instr 0; source_loc := d |}.
Proof. split; [done|]. cbn. destruct (bb_instrs b); [by right|left; cbn; lia]. Qed.
Lemma loc_ok_insts_to_skip l : loc_ok l -> exists n, insts_to_skip l = Ok n.
Proof.
  unfold loc_ok, insts_to_skip. destruct (instr l) as [i|]; [|eauto]. intros [Hi0 [Hi1|[-> ->]]]; [|eauto].
  destruct (_ && _); [eauto|]. rewrite (proj2 (Z.ltb_lt _ _)) by done. cbn. eauto.
Qed.

Lemma keeps_goto b : keeps (goto_bb b).
Proof.
  unfold goto_bb. apply keeps_get. intros s Hs. unfold move_to_start_of_bb_by_name. intros s' Hi.
  destruct (get_bb_by_name (func (cur_loc s)) b) as [bb|]; [|done]. apply inv_set_loc; [done|apply loc_ok_start].
Qed.
Lemma stays_inc : stays inc_loc.
Proof.
  intros b s [Hi Hb]. unfold inc_loc. apply ends_bind. unfold ends at 1, get. apply ends_bind. unfold inc.
  pose proof (inv_loc _ Hi) as Hl. unfold loc_ok in Hl.
  destruct (instr (cur_loc s)) as [i|]; [|done]. destruct (_ <=? i + 1) eqn:E; (split; [|done]);
    apply inv_set_loc; try done. split; [cbn; lia|]. left. cbn. apply Z.leb_gt in E. lia.
Qed.

(** ** The two stacks *)

Lemma keeps_save b c : keeps (save_backtracking_point b c).
Proof.
  unfold save_backtracking_point. apply keeps_get. intros s0 _ s [Hl Hc Hs Hp]. apply ends_bind.
  destruct (get_bb_by_name _ b) as [bb|]; [|done]. unfold ends, expect, lift at 1.
  cbn. split; cbn; [|done|done|].
  - rewrite levels_push. by apply (above_push _ 1).
  - constructor; [|done]. split; [apply loc_ok_start|done].
Qed.

Lemma keeps_revert : keeps revert_to_backtracking_point.
Proof.
  intros s [Hl Hc Hs Hp]. unfold revert_to_backtracking_point. apply ends_bind. unfold ends at 1, get.
  destruct (backtrack_points s) as [|bp bps] eqn:Eb; [by split; rewrite ?Eb|].
  apply Forall_cons in Hp as [[Hbl Hbs] Hp]. split; cbn; [|done|done|done].
  eapply above_grow; [|apply levels_assert]. rewrite levels_pop. by apply (above_pop _ 1).
Qed.

Lemma keeps_push i : keeps (push_generic_callsite i).
Proof. apply keeps_modify. intros s [Hl Hc Hs Hp]. split; [done|done| |done]. by constructor. Qed.

Lemma ends_pop_site {B} (f : option Callsite -> M State B) s (Q : outcome B -> State -> Prop) :
  inv s -> (forall e s', inv s' -> Q (Err e) s') ->
  (forall site s', (forall x, site = Some x -> loc_ok (callsite_loc x)) -> inv s' -> ends (f site) s' Q) ->
  ends (pop_callsite ≫= f) s Q.
Proof.
  intros [Hl Hc Hs Hp] He Hf. apply ends_bind. unfold pop_callsite. apply ends_bind. unfold ends at 1, get.
  destruct (stack s) as [|frame rest] eqn:Es; [by apply Hf; [|split; rewrite ?Es]|].
  apply Forall_cons in Hs as [Hframe Hs]. apply ends_bind. unfold ends at 1, modify. apply ends_bind.
  eapply ends_mono; [apply (keeps_calm _ (calm_on_varmap _)); by split|].
  intros [a|e|p|] s' Hi; try done; [|by apply He]. apply Hf; [|done]. by intros x [= <-].
Qed.
Lemma keeps_pop {B} (f : option Callsite -> M State B) :
  (forall site, (forall x, site = Some x -> loc_ok (callsite_loc x)) -> keeps (f site)) -> keeps (pop_callsite ≫= f).
Proof. intros Hf s Hi. apply ends_pop_site; [done|done|]. intros site s' Hs. by apply Hf. Qed.

Lemma keeps_goto_loc l : loc_ok l -> keeps (modify (set_cur_loc l)).
Proof. intros Hl. apply keeps_modify. intros s Hi. by apply inv_set_loc. Qed.


(** ** Calls and terminators *)

Context `{UC : !UserCode} `{CU : !CalmUserCode} (project : Project) (squash_unsats : bool).

Record keeps_engine (E : Engine) : Prop := {
  keeps_through : keeps (symex_from_cur_loc_through_end_of_function E);
  keeps_backtrack : keeps (backtrack_and_continue E);
  keeps_from : keeps (symex_from_cur_loc E)
}.

Lemma calm_resolve f : calm (resolve_function f).
Proof. unfold resolve_function. calm. Qed.
Lemma calm_symex_hook call h : calm (symex_hook project call h).
Proof. unfold symex_hook. apply calm_bind; [apply calm_hook; intros; apply calm_user_hook|]. calm. Qed.
Lemma calm_finish call r : calm (finish_hooked_call call r).
Proof. unfold finish_hooked_call. calm. Qed.
Lemma calm_skipped i f d : calm (skipped_result i f d).
Proof. unfold skipped_result. calm. Qed.
#[local] Hint Resolve calm_resolve calm_symex_hook calm_finish calm_skipped : calm.
#[local] Hint Resolve keeps_through keeps_backtrack keeps_from keeps_goto keeps_revert keeps_save : core.

Ltac keep :=
  repeat (intros;
    first [ solve [eauto 2]
          | solve [apply keeps_calm; calm]
          | lazymatch goal with
            | |- keeps (mbind _ pop_callsite) => apply keeps_pop
            | |- keeps (mbind _ get) => apply keeps_get
            | |- keeps (mbind _ _) => apply keeps_bind
            | |- keeps (fmap _ _) => apply keeps_fmap
            | |- keeps (catch _) => apply keeps_catch
            | |- keeps (match ?x with _ => _ end) => destruct x
            | |- keeps (let _ := _ in _) => cbv zeta
            | |- keeps (modify (set_cur_loc _)) => apply keeps_goto_loc
            end ]).

Lemma keeps_inc : keeps inc_loc.
Proof. apply keeps_stays, stays_inc. Qed.
#[local] Hint Resolve keeps_inc : core.

Lemma keeps_enter args site callee m : keeps (enter_callee args site callee m).
Proof.
  unfold enter_callee. destruct (negb _); [keep|]. apply keeps_bind; [keep|intros bvargs].
  apply keeps_bind; [apply keeps_push|intros _]. apply keeps_bind; [keep|intros entry].
  apply keeps_bind; [apply keeps_goto_loc, loc_ok_start|intros _]. apply keeps_forM. intros []. keep.
Qed.
#[local] Hint Resolve keeps_enter : core.

Section handlers.
Context E (HE : keeps_engine E).

(** What a call promises: the invariant, and when execution goes on after it,
    the location is in the caller's block. *)
Definition back_in b (r : outcome (option (ReturnValue BV))) s : Prop := inv s /\ (r = Ok None -> bb (cur_loc s) = b).

Lemma stays_back_in b (c : M State (option (ReturnValue BV))) s : stays c -> inside b s -> ends c s (back_in b).
Proof. intros Hc Hs. eapply ends_mono; [by apply Hc|]. by intros r s' []. Qed.

(** Going on in the caller. *)
Lemma resume_inside b l (k : M State (option (ReturnValue BV))) s :
  inv s -> loc_ok l -> bb l = b -> stays k ->
  ends (_ ← modify (set_cur_loc l); _ ← inc_loc; _ ← record_path_entry; k) s (back_in b).
Proof.
  intros Hs Hl Hb Hk. apply ends_bind. unfold ends at 1, modify. apply stays_back_in.
  - apply stays_bind; [apply stays_inc|intros _]. apply stays_bind; [apply stays_calm; calm|done].
  - split; [by apply inv_set_loc|done].
Qed.

Lemma call_inside call b s : inside b s -> ends (symex_call project E call) s (back_in b).
Proof.
  intros Hin. unfold symex_call. apply ends_bind.
  eapply ends_mono; [apply (stays_calm _ (calm_resolve _)), Hin|].
  intros [[h t|f]|e|p|] s1 Hin1; try done; [|..]; try (by split; [apply Hin1|]).
  { apply stays_back_in; [|done]. apply stays_calm. calm. }
  apply ends_bind. unfold ends at 1, get. destruct (at_max_callstack_depth s1).
  { apply stays_back_in; [|done]. apply stays_calm. calm. }
  apply ends_bind. eapply ends_mono; [apply (stays_calm _ (calm_func_by_name _)), Hin1|].
  intros [[[callee m]|]|e|p|] s2 Hin2; try done; try (by split; [apply Hin2|]).
  2: { apply stays_back_in; [|done]. apply stays_calm. calm. }
  apply ends_bind. eapply ends_mono; [apply keeps_enter, Hin2|]. intros [[]|e|p|] s3 Hi3; try done.
  apply ends_bind. eapply ends_mono; [apply (keeps_through _ HE), Hi3|]. intros [r|e|p|] s4 Hi4; try done.
  destruct r as [r|]; [|done]. apply (ends_ok r).
  apply ends_pop_site; [done|done|]. intros site s5 _ Hi5.
  destruct site as [[l [c|c]]|]; [|done|done]. destruct (loc_eqb l (cur_loc s1)); [|done].
  destruct Hin1 as [Hi1 Hb1]. apply resume_inside; [done|by apply inv_loc|done|]. apply stays_calm. calm.
Qed.

Lemma instruction_inside i b s : inside b s -> ends (symex_instruction project E i) s (back_in b).
Proof.
  intros Hin. destruct i; cbn [symex_instruction]; try by apply call_inside.
  all: apply stays_back_in; [apply stays_calm; calm|done].
Qed.

(** The instructions of a block, with their indices. *)
Definition indices_ok (b : BasicBlock) (insts : list (Z * Instruction)) : Prop :=
  Forall (fun p => 0 <= fst p < Z.of_nat (length (bb_instrs b))) insts.
Lemma enumerate_ok b n : indices_ok b (drop n (enumerate (bb_instrs b))).
Proof.
  apply Forall_forall. intros [i x] Hx. apply list_elem_of_lookup in Hx as [k Hk]. rewrite lookup_drop in Hk.
  unfold enumerate in Hk. rewrite list_lookup_imap in Hk. destruct (bb_instrs b !! (n + k)%nat) as [y|] eqn:Ey; [|done].
  apply lookup_lt_Some in Ey. injection Hk as <- <-. cbn. lia.
Qed.

(** The start of an instruction in either loop over a block. *)
Lemma ends_visit {B} (d : option DebugLoc) n (first : bool) b (k : M State B) s Q :
  inside b s -> 0 <= n < Z.of_nat (length (bb_instrs b)) ->
  (forall s', inside b s' -> ends k s' Q) ->
  ends (_ ← modify (fun s => set_cur_loc (set_source_loc d (set_instr (Instr n) (cur_loc s))) s);
        _ ← (if first then record_path_entry else mret tt); k) s Q.
Proof.
  intros [Hi Hb] Hn Hk. apply ends_bind. unfold ends at 1, modify. apply ends_bind.
  assert (inside b (set_cur_loc (set_source_loc d (set_instr (Instr n) (cur_loc s))) s)) as Hs.
  { split; [|done]. apply inv_set_loc; [done|]. split; [lia|]. left. cbn. rewrite Hb. lia. }
  destruct first; unfold ends at 1; cbn; apply Hk; [|done]. destruct Hs as [[] ?]. by split; [split|].
Qed.

(** A computation that depends on the block it starts in. *)
Lemma ends_get_inside {B} (f : State -> M State B) b s Q :
  inside b s -> (forall s', inside b s' -> s' = s -> ends (f s') s' Q) -> ends (get ≫= f) s Q.
Proof. intros Hs Hf. apply ends_bind. by apply Hf. Qed.

Lemma keeps_landing p t first insts b s :
  inside b s -> indices_ok b insts -> ends (landing_loop E p t first insts) s (fun _ s' => inv s').
Proof.
  revert first s. induction insts as [|[n i] insts IH]; intros first s Hs Hok; [by destruct Hs|].
  apply Forall_cons in Hok as [Hn Hok]. cbn [landing_loop]. apply (ends_visit _ _ _ b); [done..|]. clear s Hs. intros s Hs.
  apply ends_bind, ends_catch. eapply ends_mono; [apply stays_calm with (b := b); [|done]|].
  { destruct i; calm. }
  intros r s' Hs'. cbn beta iota. destruct r as [[|]|e|m|].
  - apply (keeps_bind inc_loc); [done|intros; by apply keeps_through|by apply Hs'].
  - by apply IH.
  - destruct e; try (by destruct Hs'); apply keeps_backtrack; by destruct Hs'.
  - done.
  - done.
Qed.

Lemma keeps_catch_at p n : keeps (catch_at_exception_label E p n).
Proof.
  unfold catch_at_exception_label, catch_with_type_index. apply keeps_bind; [keep|intros t].
  apply keeps_bind; [done|intros _]. intros s Hs. apply (ends_get_inside _ (bb (cur_loc s))); [done|].
  intros s' Hs' ->. apply keeps_landing with (b := bb (cur_loc s)); [done|]. apply (enumerate_ok _ 0).
Qed.
#[local] Hint Resolve keeps_catch_at : core.

Lemma keeps_condbr c : keeps (symex_condbr E c).
Proof. unfold symex_condbr. keep. Qed.
Lemma keeps_switch sw : keeps (symex_switch E sw).
Proof.
  unfold symex_switch. apply keeps_bind; [keep|intros v]. apply keeps_bind; [|intros dests].
  { apply keeps_calm, calm_mapMM. intros []. calm. }
  apply keeps_bind; [|intros checked]. { apply keeps_calm, calm_mapMM. intros []. calm. }
  cbv zeta. destruct (fst <$> _) as [|[val name] rest]; [keep|].
  apply keeps_bind; [|intros _]. { apply keeps_forM. intros []. done. }
  keep.
Qed.
Lemma keeps_finish i r k : keeps k -> keeps (finish_hooked_invoke E i r k).
Proof. intros Hk. unfold finish_hooked_invoke. keep. Qed.
#[local] Hint Resolve keeps_finish : core.
Lemma keeps_at_return i : keeps (_ ← goto_bb (invoke_return_label i); symex_from_cur_loc_through_end_of_function E).
Proof. keep. Qed.
#[local] Hint Resolve keeps_at_return : core.
Lemma keeps_invoke i : keeps (symex_invoke project E i).
Proof.
  unfold symex_invoke. cbv zeta. apply keeps_bind; [keep|]. intros [h t|f].
  { apply keeps_bind; [keep|intros r]. by apply keeps_finish. }
  apply keeps_get. intros s Hs. destruct (at_max_callstack_depth s); [apply keeps_bind; [keep|done]|].
  apply keeps_bind; [keep|]. intros [[callee m]|].
  - apply keeps_bind; [done|intros _]. apply keeps_bind; [by apply keeps_through|intros r].
    apply keeps_bind; [keep|intros v]. apply keeps_pop. intros [[l [c|c]]|] _; [keep| |keep].
    destruct (loc_eqb l (cur_loc s)); [|keep].
    apply keeps_bind; [by apply keeps_goto_loc, inv_loc|intros _]. destruct v; keep.
  - destruct (get_default_hook _); keep. intros r. apply keeps_finish. keep.
Qed.

Lemma keeps_terminator t : keeps (symex_terminator project E t).
Proof.
  destruct t; cbn [symex_terminator].
  - apply keeps_fmap. unfold symex_return. keep.
  - unfold symex_br. keep.
  - apply keeps_condbr.
  - apply keeps_switch.
  - apply keeps_invoke.
  - unfold symex_resume. keep.
  - keep.
  - keep.
Qed.

Lemma keeps_instr_loop insts first k b s :
  inside b s -> indices_ok b insts -> (forall f s', inside b s' -> ends (k f) s' (fun _ s' => inv s')) ->
  ends (instr_loop project squash_unsats E insts first k) s (fun _ s' => inv s').
Proof.
  intros Hs Hok Hk. revert first s Hs. induction insts as [|[n i] insts IH]; intros first s Hs; [by apply Hk|].
  apply Forall_cons in Hok as [Hn Hok]. cbn [instr_loop]. apply (ends_visit _ _ _ b); [done..|]. clear s Hs. intros s Hs.
  apply (ends_get_inside _ b); [done|]. intros s0 Hs0 _. apply ends_bind.
  eapply ends_mono; [apply (stays_calm (forM _ _)) with (b := b); [calm|done]|]. intros [[]|e|p|] s1 Hs1; try done; [|by destruct Hs1].
  apply ends_bind, ends_catch. eapply ends_mono; [by apply instruction_inside|]. intros r s2 [Hi2 Hb2]. cbn beta iota.
  destruct r as [[v|]|e|m|]; [done|apply IH; [done|]; split; [done|by apply Hb2]| |done|done].
  destruct e; try done. destruct squash_unsats; [by apply keeps_backtrack|done].
Qed.

Lemma through_keeps : keeps (through_end_of_function project squash_unsats E).
Proof.
  intros s Hs. unfold through_end_of_function. apply (ends_get_inside _ (bb (cur_loc s))); [done|]. intros s0 _ ->.
  destruct (loc_ok_insts_to_skip _ (inv_loc _ Hs)) as [n ->]. apply (ends_ok n).
  apply keeps_instr_loop with (b := bb (cur_loc s)); [done|apply enumerate_ok|].
  intros f s1 [Hi1 _]. revert s1 Hi1. apply keeps_get. intros s1 Hi1. apply keeps_bind; [|intros _].
  { apply keeps_modify. intros s2 Hi2. by apply inv_set_loc. }
  apply keeps_bind; [keep|intros _]. apply keeps_get. intros s2 Hs2. apply keeps_bind; [keep|intros _].
  apply keeps_terminator.
Qed.

Lemma unwind_keeps n p : keeps (unwind E n p).
Proof.
  induction n as [|n IH]; cbn [unwind]; [keep|]. apply keeps_pop. intros [site|] Hl; [|keep].
  destruct (callsite_instr site); [done|]. apply keeps_bind; [by apply keeps_goto_loc, Hl|done].
Qed.

Lemma keeps_assign d v k : keeps k -> keeps (assign_or_backtrack E d v k).
Proof. intros Hk. unfold assign_or_backtrack. keep. Qed.

Lemma from_cur_loc_keeps : keeps (from_cur_loc E).
Proof.
  unfold from_cur_loc. apply keeps_bind; [by apply keeps_through|]. intros [v|]; [|by apply keeps_backtrack].
  destruct v as [v| | |].
  - apply keeps_pop. intros [site|] Hl; [|keep]. destruct (callsite_instr site) as [c|i];
      (apply keeps_bind; [by apply keeps_goto_loc, Hl|intros _]); cbv zeta.
    + apply keeps_bind; [keep|intros d]. apply keeps_assign. keep.
    + apply keeps_assign. keep.
  - apply keeps_pop. intros [site|] Hl; [|keep]. destruct (callsite_instr site) as [c|i];
      (apply keeps_bind; [by apply keeps_goto_loc, Hl|intros _]); cbv zeta; keep.
  - apply keeps_get. intros s _. apply unwind_keeps.
  - keep.
Qed.

Lemma backtrack_keeps : keeps (backtrack_and_continue_with E).
Proof. unfold backtrack_and_continue_with. keep. Qed.

End handlers.

Lemma engine_keeps n : keeps_engine (engine project squash_unsats n).
Proof.
  induction n as [|n IH]; [by split|].
  split; [by apply through_keeps|by apply backtrack_keeps|by apply from_cur_loc_keeps].
Qed.

End invariant.

(** ** Explorations *)

Section exploration.
Context `{Levels : LevelLaws} `{Dec : !Decides} `{MOps : !MemoryOps} `{MLevels : !MemoryLevels} `{L : LLVM} `{CF : ConstFuel}.
Context `{UC : !UserCode} `{CU : !CalmUserCode} (funcname : string) (project : Project) (cfg : Config).

(** The managers that follow [em]: itself, that after a path (also one that
    ended in an error), and that after the caller has used the state in
    between, through [mut_state]. *)
Inductive later (em : ExecutionManager) : ExecutionManager -> Prop :=
| later_refl : later em em
| later_next n em1 r em2 : later em em1 -> next n em1 = (Ok r, em2) -> later em em2
| later_use em1 s : later em em1 -> undisturbed (em_state em1) s -> later em (set_em_state s em1).

(** Those that exist during the exploration of the function. *)
Definition reached (em : ExecutionManager) : Prop :=
  exists em0, symex_function funcname project cfg = Ok em0 /\ later em0 em.

Lemma later_inv base em em' : inv base (em_state em) -> later em em' -> inv base (em_state em').
Proof.
  intros Hi Hl. induction Hl as [|n em1 r em2 _ IH Hn|em1 s _ IH Hu]; [done| |by eapply inv_undisturbed].
  destruct (engine_keeps base (em_project em1) (em_squash_unsats em1) n) as [Ht Hb _].
  specialize (Ht _ IH). specialize (Hb _ IH). unfold next, ends in *.
  destruct (em_fresh em1);
    match type of Hn with match ?x with _ => _ end = _ => destruct x as [[[v|]|e|p|] s'] end; simplify_eq; done.
Qed.

Abbreviation levels_new := (assertions solver_new).

Lemma state_new_inv l c s : loc_ok l -> state_new project l c = Ok s -> inv levels_new s.
Proof.
  intros Hl. unfold state_new. destruct (varmap_new _) as [vm|e|p|]; [|done..]. cbn [mbind outcome_bind].
  match goal with |- context [MemorySpec.new_uninitialized ?d ?n solver_new] =>
    pose proof (levels_new_memory d n solver_new) as Em; destruct (MemorySpec.new_uninitialized d n solver_new) as [m sol]
  end. cbn [snd] in Em. destruct intrinsic_hooks_new as [ih|e|p|]; [|done..]. cbn [mbind outcome_bind].
  cbv zeta. match goal with |- match ?x with _ => _ end = _ -> _ =>
    match x with ?c ?s0 => set (init := s0); assert (calm c) as Hc end end.
  { apply calm_bind; [|intros; apply calm_bind; [|intros; apply calm_bind; [calm|intros]]]; apply calm_forM; intros []; calm. }
  specialize (Hc init). unfold ends in Hc.
  match type of Hc with match ?x with _ => _ end => destruct x as [[[]|e|p|] s'] end; [|done..]. intros [= <-].
  eapply inv_undisturbed; [|done]. split; [|done|constructor|constructor]. cbn. rewrite Em. apply above_refl.
Qed.

Lemma symex_function_inv em : symex_function funcname project cfg = Ok em -> inv levels_new (em_state em).
Proof.
  unfold symex_function. intros He. apply bind_ok in He as (r & _ & He). apply bind_ok in He as ([f m] & _ & He).
  apply bind_ok in He as (entry & _ & He). apply bind_ok in He as (s & Hs & He). apply state_new_inv in Hs; [|apply loc_ok_start].
  match type of He with context [mapMM ?g ?ps s] => assert (calm (mapMM g ps)) as Hc by calm; specialize (Hc s); unfold ends in Hc;
    destruct (mapMM g ps s) as [[bvs|e|p|] s'] end; cbn in He; [|done..].
  injection He as <-. by eapply inv_undisturbed.
Qed.

Lemma reached_inv em : reached em -> inv levels_new (em_state em).
Proof. intros (em0 & He & Hl). eapply later_inv; [by apply symex_function_inv|done]. Qed.

(** C11: the two stacks of backtracking, as long as the solver answers every query
    (class [Decides]: a query that fails, for example by the configured timeout,
    can leave levels behind) and the user's hooks and callbacks are calm (they do
    not touch the two stacks, and keep what they assert).  At every point of an
    exploration at which the caller can look at the state, after errors of the
    program too, the solver has
    exactly one assertion level for each saved point on top of those of a new
    solver; so reverting always pops the level that was pushed for the point,
    never one too many.  The current location, those of the saved points and
    those of all call sites, also of the saved call stacks, are valid indices
    into their blocks, so resuming never trips the assertion on it. *)
Theorem exploration_invariant em :
  reached em ->
  let s := em_state em in
  length (assertions (solver s)) = (length levels_new + length (backtrack_points s))%nat /\
  Forall loc_ok (cur_loc s :: map bp_loc (backtrack_points s)) /\
  Forall stack_ok (stack s :: map bp_stack (backtrack_points s)).
Proof.
  intros [Hl Hc Hs Hp]%reached_inv. apply above_length in Hl. split_and!; [by rewrite Hl, Nat.add_comm| |];
    constructor; try done; apply Forall_map; eapply Forall_impl; try done; by intros bp [].
Qed.

Lemma later_models em em' m :
  reached em -> backtrack_points (em_state em) = [] -> later em em' ->
  models (solver (em_state em')) m -> models (solver (em_state em)) m.
Proof.
  intros [_ Hc Hs Hp]%reached_inv Hb Hl. assert (inv (assertions (solver (em_state em))) (em_state em)) as Hi.
  { split; [|done..]. rewrite Hb. apply above_refl. }
  intros Hm. eapply above_sublevels; [|exact Hm]. by apply (later_inv _ _ _ Hi).
Qed.

(** C12: assumptions, under the same conditions on the solver and the user's code.
    What is asserted before the first path is explored (by the caller, such as that pointer arguments are not null) holds on every
    path: the constraints at the end of any later path, however many paths were
    explored and reverted in between, have no model but those of the
    assumptions. *)
Theorem assumptions_persist em em' m :
  reached em -> backtrack_points (em_state em) = [] -> later em em' ->
  models (solver (em_state em')) m -> models (solver (em_state em)) m.
Proof. apply later_models. Qed.

End exploration.
