(* ===== verification/AnalysesTheorems.v ===== *)
(** * AnalysesTheorems: what the two analyses report (src/src/lib.rs)

    The values of [get_possible_return_values_of_func] over the paths it
    visits, and the zero of [find_zero_of_func]. *)
From S2P Require Import Prelude Bits Backend SolverUtils MemorySpec Alloc LLVMIR Project Layout VarMap FunctionHooks GlobalAllocations Config State Operands HookUtils Hooks SymexInstr Symex StateTheorems LevelTheorems Analyses EngineInvariant.

Open Scope Z_scope.

(** ** Collecting the values of a path *)

Section values.
Context `{Laws : BackendLaws} `{MOps : !MemoryOps} `{L : LLVM}.
Implicit Types s : State.

Lemma elem_of_insert c x y : y ∈ candidates_insert c x <-> y = x \/ y ∈ c.
Proof.
  unfold candidates_insert. case_bool_decide; [|apply elem_of_cons]. split; [by right|]. intros [->|?]; done.
Qed.

Lemma NoDup_insert c x : NoDup c -> NoDup (candidates_insert c x).
Proof. intros Hc. unfold candidates_insert. case_bool_decide; [done|]. by constructor. Qed.

(** A path's possible values, even when a constant is left with no model. *)
Definition describes_or_constant (s : SolverRef) (v : BV) (n : Z) (ps : PossibleSolutions BVSolution) : Prop :=
  describes s v n ps \/ exists u, ps = Exactly {[ solution_of v u ]} /\ forall m, eval m v = u.

Lemma wp_solutions sol v n :
  solver_ok sol -> model_gen sol = false -> 0 <= n < 2 ^ 64 ->
  wp (SolverUtils.get_possible_solutions_for_bv v n) sol (returns (fun ps _ => describes_or_constant sol v n ps)).
Proof.
  intros O G Hn. destruct (as_binary_str v) as [str|] eqn:Ev, (decide (n = 0)) as [->|Hn0].
  1, 3, 4: eapply wp_mono; [apply possible_solutions_spec; [done..|tauto]|];
    intros [ps|e|p|] sol'; cbn; [by intros [_ ?]; left|done..].
  eapply wp_mono; [by eapply possible_solutions_constant|]. intros r sol' ->. cbn. right.
  destruct (as_binary_str_law v str Ev) as (u & -> & _ & Hu). by exists u.
Qed.

Section path_values.
(** [wrap] is [ReturnValue::Return] or [ReturnValue::Throw]. *)
Context (payload : ReturnValue Z -> option Z) (wrap : Z -> ReturnValue Z).
Context (payload_wrap : forall x u, payload x = Some u <-> x = wrap u).
Context (v : BV) (Wv : get_width v <= 64).

Definition in_width (u : Z) : Prop := 0 <= u < 2 ^ get_width v.
(** The values already found fit the width of the value. *)
Definition candidates_fit (c : Candidates) : Prop := forall u, wrap u ∈ c -> in_width u.

Lemma wrap_inj u u' : wrap u = wrap u' -> u = u'.
Proof.
  intros E. assert (payload (wrap u) = Some u) as H1 by by apply payload_wrap.
  assert (payload (wrap u') = Some u') as H2 by by apply payload_wrap. congruence.
Qed.

(** What is left of the solver after the known values are ruled out. *)
Definition ruled_out (sol : SolverRef) (c : Candidates) (sol' : SolverRef) : Prop :=
  solver_ok sol' /\ model_gen sol' = model_gen sol /\
  forall m, models sol' m <-> models sol m /\ forall u, wrap u ∈ c -> eval m v <> u.

Lemma models_ne sol u :
  solver_ok sol -> in_width u ->
  let sol' := btor_assert (bv_ne v (from_u64 u (get_width v))) sol in
  solver_ok sol' /\ model_gen sol' = model_gen sol /\ forall m, models sol' m <-> models sol m /\ eval m v <> u.
Proof.
  intros O Hu sol'. pose proof (width_pos v) as Wp. pose proof (Z.pow_le_mono_r 2 _ _ ltac:(lia) Wv) as Hp.
  destruct (from_u64_law u (get_width v)) as [Wc Ec]; [unfold in_width in Hu; lia..|].
  assert (get_width (bv_ne v (from_u64 u (get_width v))) = 1) as W1 by by apply (pred_width bv_ne _ _ _ bv_ne_law).
  unfold solver_ok in O. destruct (assertions sol) as [|l ls] eqn:El; [done|].
  destruct (btor_assert_law _ l ls sol W1 El) as [L1 L2]. split; [unfold solver_ok, sol'; by rewrite L1|]. split; [done|].
  intros m. unfold sol'. rewrite models_assert; [|done|unfold solver_ok; by rewrite El].
  rewrite (pred_eval bv_ne _ _ _ m bv_ne_law), Ec, b2z_1, negb_true_iff, Z.eqb_neq by done. tauto.
Qed.

Lemma wp_rule_out c : forall s (Q : outcome unit -> State -> Prop),
  solver_ok (solver s) -> candidates_fit c ->
  (forall sol', ruled_out (solver s) c sol' -> Q (Ok tt) (set_solver sol' s)) ->
  wp (rule_out payload c v (get_width v)) s Q.
Proof.
  unfold rule_out. induction c as [|x c IH]; intros s Q O Hf HQ; cbn [forM].
  { apply wp_ret. rewrite <- (set_solver_id s). apply HQ. split; [done|]. split; [done|]. intros m.
    split; [|tauto]. intros Hm. split; [done|]. by intros u Hu%elem_of_nil. }
  assert (candidates_fit c) as Hf' by (intros u Hu; apply Hf; by right).
  apply wp_bind. destruct (payload x) as [u|] eqn:Ex.
  - apply payload_wrap in Ex as ->. apply wp_on_solver, run_wp. intros r sol' [= <- <-]. cbn.
    destruct (models_ne (solver s) u O) as (O1 & G1 & M1); [apply Hf; left|].
    apply (IH (set_solver _ s)); [done|done|]. intros sol' (O2 & G2 & M2). cbn in M2, G2.
    apply HQ. split; [done|]. split; [congruence|]. intros m. rewrite M2, M1. split.
    + intros [[Hm Hu] Hc]. split; [done|]. intros u' [->%wrap_inj|Hin]%elem_of_cons; [done|by apply Hc].
    + intros [Hm Hc]. split; [split; [done|apply Hc; left]|]. intros u' Hin. apply Hc. by right.
  - apply wp_ret, IH; [done|done|]. intros sol' (O2 & G2 & M2). apply HQ. split; [done|]. split; [done|].
    intros m. rewrite M2. split; intros [Hm Hc]; (split; [done|]); intros u Hin; apply Hc; [|by right].
    apply elem_of_cons in Hin as [<-|]; [|done].
    assert (payload (wrap u) = Some u) as E by by apply payload_wrap. by rewrite E in Ex.
Qed.

(** *** Adding the solutions to the candidates *)

Definition add_all (c : Candidates) (us : list Z) : Candidates := foldl (fun c u => candidates_insert c (wrap u)) c us.

Lemma elem_of_add_all c us x : x ∈ add_all c us <-> x ∈ c \/ exists u, x = wrap u /\ u ∈ us.
Proof.
  revert c. induction us as [|u us IH]; intros c; cbn.
  - split; [by left|]. by intros [?|(u & _ & ?%elem_of_nil)].
  - rewrite IH, elem_of_insert. setoid_rewrite elem_of_cons. split.
    + intros [[->|Hx]|(u' & -> & Hu)]; [right; eauto|by left|right; eauto].
    + intros [Hx|(u' & -> & [->|Hu])]; [left; by right|by left; left|right; eauto].
Qed.
Lemma NoDup_add_all c us : NoDup c -> NoDup (add_all c us).
Proof. revert c. induction us as [|u us IH]; intros c Hc; cbn; [done|]. by apply IH, NoDup_insert. Qed.
Lemma length_add_all c us : NoDup us -> (length us <= length (add_all c us))%nat.
Proof.
  intros Hus. rewrite <- (length_map wrap us). apply submseteq_length, NoDup_submseteq.
  - apply NoDup_fmap_2_strong; [|done]. intros u u' _ _. apply wrap_inj.
  - intros x (u & -> & Hu)%list_elem_of_fmap. apply elem_of_add_all. right. by exists u.
Qed.

(** The solutions of a query, as numbers. *)
Lemma solutions_u64 (sols : gset BVSolution) :
  (forall x, x ∈ sols -> exists u, in_width u /\ x = solution_of v u) ->
  exists us, elements sols = map (solution_of v) us /\ NoDup us /\ length us = base.size sols /\
    (forall u, u ∈ us -> in_width u) /\ forall u, in_width u -> (u ∈ us <-> solution_of v u ∈ sols).
Proof.
  intros Hs. assert (forall l, (forall x, x ∈ l -> x ∈ sols) -> exists us, l = map (solution_of v) us /\ forall u, u ∈ us -> in_width u) as Hl.
  { intros l. induction l as [|x l IH]; intros Hin; [exists []; split; [done|]; by intros u Hu%elem_of_nil|].
    destruct (Hs x) as (u & Hu & ->); [apply Hin; left|]. destruct IH as (us & -> & Hus); [intros; apply Hin; by right|].
    exists (u :: us). split; [done|]. intros u' [->|?]%elem_of_cons; auto. }
  destruct (Hl (elements sols)) as (us & E & Hus); [by intros x ?%elem_of_elements|].
  pose proof (NoDup_elements sols) as Hnd. rewrite E in Hnd. exists us. split_and!; [done| | |done|].
  - by eapply NoDup_fmap_1.
  - unfold base.size, set_size. cbn. by rewrite E, length_map.
  - intros u Hu. rewrite <- (elem_of_elements sols), E, list_elem_of_fmap. split; [eauto|].
    intros (u' & Eu & Hu'). apply solution_of_inj in Eu as ->; [done|done|by apply Hus].
Qed.

Lemma extend_ok c us :
  (forall u, u ∈ us -> in_width u) ->
  foldO (fun c x => u ← expect "called `Option::unwrap()` on a `None` value" (sol_as_u64 x);
                    mret (candidates_insert c (wrap u))) c (map (solution_of v) us) = Ok (add_all c us).
Proof.
  pose proof (width_pos v). revert c. induction us as [|u us IH]; intros c Hus; [done|]. cbn.
  unfold solution_of. rewrite (sol_as_u64_law (get_width v) u) by (try apply Hus; try left; lia). cbn. apply IH.
  intros u' ?. apply Hus. by right.
Qed.

(** What one more path contributes. *)
Definition extended sol (n : Z) (c c' : Candidates) (leave : bool) : Prop :=
  NoDup c' /\ candidates_fit c' /\
  (forall x, x ∈ c -> x ∈ c') /\
  (forall x, x ∈ c' -> x ∈ c \/ exists u, x = wrap u /\ possible sol v u) /\
  if leave then n < Z.of_nat (length c')
  else Z.of_nat (length c') <= n /\ forall u, possible sol v u -> wrap u ∈ c'.

Lemma possible_ruled_out sol c sol' u :
  ruled_out sol c sol' -> possible sol' v u <-> possible sol v u /\ wrap u ∉ c.
Proof.
  intros (_ & _ & Hm). unfold possible. split.
  - intros (m & [Hs Hc]%Hm & Eu). split; [eauto|]. intros Hin. by apply (Hc u).
  - intros [(m & Hs & Eu) Hc]. exists m. split; [|done]. apply Hm. split; [done|]. intros u' Hin Eu'. by rewrite <- Eu, Eu' in Hc.
Qed.

Lemma extend_sols sol c (sols : gset BVSolution) :
  NoDup c -> candidates_fit c ->
  (forall x, x ∈ sols -> exists u, possible sol v u /\ x = solution_of v u) ->
  exists c', foldO (fun c x => u ← expect "called `Option::unwrap()` on a `None` value" (sol_as_u64 x);
                      mret (candidates_insert c (wrap u))) c (elements sols) = Ok c' /\
    NoDup c' /\ candidates_fit c' /\ (forall x, x ∈ c -> x ∈ c') /\
    (forall x, x ∈ c' -> x ∈ c \/ exists u, x = wrap u /\ possible sol v u) /\
    (base.size sols <= length c')%nat /\ (forall u, in_width u -> solution_of v u ∈ sols -> wrap u ∈ c').
Proof.
  intros Hnd Hfit Hsols. destruct (solutions_u64 sols) as (us & E & Hus & Hsize & Hin & Hel).
  { intros x Hx. destruct (Hsols x Hx) as (u & Hu & ->). exists u. split; [|done]. by eapply possible_range. }
  exists (add_all c us). rewrite E. split; [by apply extend_ok|]. split_and!.
  - by apply NoDup_add_all.
  - intros u [Hu|(u' & ->%wrap_inj & Hu)]%elem_of_add_all; [by apply Hfit|by apply Hin].
  - intros x Hx. apply elem_of_add_all. by left.
  - intros x [Hx|(u & -> & Hu)]%elem_of_add_all; [by left|right]. exists u. split; [done|].
    pose proof (Hin u Hu) as Hw. apply Hel in Hu; [|done]. destruct (Hsols _ Hu) as (u' & Hp & Eu).
    apply solution_of_inj in Eu as ->; [done|done|by eapply possible_range].
  - rewrite <- Hsize. by apply length_add_all.
  - intros u Hu Hs. apply elem_of_add_all. right. exists u. split; [done|]. by apply Hel.
Qed.

(** A query that failed is unwrapped: the analysis panics. *)
Definition step_result {A} (Q : A -> Prop) (r : outcome A) : Prop :=
  match r with Ok a => Q a | Panic _ => exists e, query_failed e | _ => False end.

Lemma wp_new_values s c return_width n :
  solver_ok (solver s) -> model_gen (solver s) = false -> satisfiable (solver s) -> 0 <= n < 2 ^ 64 ->
  as_u32 return_width = get_width v -> NoDup c -> candidates_fit c ->
  wp (new_values payload wrap c v return_width n) s
     (fun r _ => step_result (fun '(c', leave) => extended (solver s) n c c' leave) r).
Proof.
  intros O G Hsat Hn Hrw Hnd Hfit. unfold new_values. rewrite Hrw. apply wp_bind, wp_rule_out; [done|done|].
  intros sol' Hro. pose proof Hro as (O' & G' & Hm). unfold unwrap_result. apply wp_bind, wp_bind, wp_catch, wp_on_solver. cbn.
  eapply wp_mono; [apply wp_solutions; [done|congruence|done]|].
  intros [ps|e|p|] sol2; cbn; [|by intros; apply wp_lift; eexists|done|done]. intros Hps. apply wp_lift. cbn.
  assert (Forall (fun x => exists u, possible (solver s) v u /\ x = solution_of v u)
            (elements (match ps with Exactly X | AtLeast X => X end))) as Hsols.
  { apply Forall_forall. intros x Hx%elem_of_elements. destruct Hps as [Hps|(u & -> & Hu)].
    - assert (exists u, possible sol' v u /\ x = solution_of v u) as (u & Hp & ->)
        by (destruct ps; destruct Hps as [_ Hps]; by apply Hps).
      exists u. split; [|done]. by apply (possible_ruled_out _ _ _ _ Hro) in Hp as [].
    - apply elem_of_singleton in Hx as ->. exists u. split; [|done]. destruct Hsat as [m Hs]. exists m. auto. }
  rewrite Forall_forall in Hsols. setoid_rewrite elem_of_elements in Hsols.
  destruct ps as [X|X]; destruct (extend_sols (solver s) c X Hnd Hfit Hsols) as (c' & E & H1 & H2 & H3 & H4 & H5 & H6);
    rewrite E; apply wp_bind, wp_lift, wp_ret; refine (conj H1 (conj H2 (conj H3 (conj H4 _)))).
  - destruct (n <? Z.of_nat (length c')) eqn:El; [by apply Z.ltb_lt|]. apply Z.ltb_ge in El. split; [done|].
    intros u Hu. destruct (decide (wrap u ∈ c)) as [?|Hc]; [by apply H3|]. apply H6; [by eapply possible_range|].
    assert (possible sol' v u) as Hp by (by apply (possible_ruled_out _ _ _ _ Hro)). destruct Hps as [[_ Hps]|(u' & [= ->] & Hu')].
    + apply Hps. eauto.
    + apply elem_of_singleton. destruct Hu as (m & _ & <-). by rewrite Hu'.
  - destruct Hps as [[Hps _]|(u' & [=] & _)]. lia.
Qed.

End path_values.

End values.

(** ** The values of a function *)

Section loop.
Context `{Laws : BackendLaws} `{MOps : !MemoryOps} `{L : LLVM} `{CF : ConstFuel} `{UC : !UserCode}.
Context (fuel : nat) (return_width n : Z).

(** The paths that are visited from a manager, each with the state at its end
    and its result; the last argument says whether they are all the paths
    there are, or the loop was left early. *)
Inductive visits : ExecutionManager -> Candidates -> bool -> list (State * ReturnValue BV) -> bool -> Prop :=
| visits_none em em' c t : next fuel em = (Ok None, em') -> visits em c t [] true
| visits_last em em' c t r c' t' s' :
    next fuel em = (Ok (Some (Ok r)), em') ->
    visit None return_width n c t r (em_state em') = (Ok (c', t', true), s') ->
    visits em c t [(em_state em', r)] false
| visits_more em em' c t r c' t' s' paths all :
    next fuel em = (Ok (Some (Ok r)), em') ->
    visit None return_width n c t r (em_state em') = (Ok (c', t', false), s') ->
    visits (set_em_state s' em') c' t' paths all ->
    visits em c t ((em_state em', r) :: paths) all.

(** The paths, by running the loop. *)
Fixpoint visited (rounds : nat) (em : ExecutionManager) (c : Candidates) (t : bool) : option (list (State * ReturnValue BV) * bool) :=
  match rounds, next fuel em with
  | S _, (Ok None, _) => Some ([], true)
  | S rounds, (Ok (Some (Ok r)), em') =>
      match visit None return_width n c t r (em_state em') with
      | (Ok (_, _, true), _) => Some ([(em_state em', r)], false)
      | (Ok (c', t', false), s') =>
          '(paths, all) ← visited rounds (set_em_state s' em') c' t'; Some ((em_state em', r) :: paths, all)
      | _ => None
      end
  | _, _ => None
  end.

Lemma visited_visits rounds em c t paths all : visited rounds em c t = Some (paths, all) -> visits em c t paths all.
Proof.
  revert em c t paths. induction rounds as [|rounds IH]; intros em c t paths; cbn; [done|].
  destruct (next fuel em) as [[[[r|e|p|]|]|e|p|] em'] eqn:En; try done.
  - destruct (visit None return_width n c t r (em_state em')) as [[[[c' t'] [|]]|e|p|] s'] eqn:Ev; try done.
    + intros [= <- <-]. by eapply visits_last.
    + destruct (visited rounds _ c' t') as [[ps b]|] eqn:Er; [|done]. intros [= <- <-]. by eapply visits_more; [| |apply IH].
  - intros [= <- <-]. by eapply visits_none.
Qed.

(** At the end of a path the constraints can be met, and what it returns has
    the width of the function's type. *)
Definition path_ok (p : State * ReturnValue BV) : Prop :=
  match p with
  | (s, Return v) =>
      solver_ok (solver s) /\ model_gen (solver s) = false /\ satisfiable (solver s) /\
      get_width v = as_u32 return_width /\ get_width v <= 64
  | _ => True
  end.

(** [x] is a result of one of the paths under some values of the inputs. *)
Definition result_of (paths : list (State * ReturnValue BV)) (x : ReturnValue Z) : Prop :=
  match x with
  | Return u => exists s v, (s, Return v) ∈ paths /\ possible (solver s) v u
  | Throw u => exists s p, (s, Throw p) ∈ paths /\ as_u64 p = Some u
  | ReturnVoid => exists s, (s, ReturnVoid) ∈ paths
  | Abort => exists s, (s, Abort) ∈ paths
  end.

Definition fit (c : Candidates) : Prop := forall u, Return u ∈ c -> 0 <= u < 2 ^ as_u32 return_width.

(** What a round does to the candidates. *)
Definition round_correct (c c' : Candidates) (leave : bool) (p : State * ReturnValue BV) : Prop :=
  NoDup c' /\ fit c' /\ (forall x, x ∈ c -> x ∈ c') /\ (forall x, x ∈ c' -> x ∈ c \/ result_of [p] x) /\
  if leave then n < Z.of_nat (length c')
  else (Z.of_nat (length c) <= n -> Z.of_nat (length c') <= n) /\
       forall x, result_of [p] x -> match x with Throw _ => True | _ => x ∈ c' end.

(** Inserting the only result of a path. *)
Lemma insert_correct c x p :
  NoDup c -> fit c -> result_of [p] x -> (forall u, x <> Return u) ->
  (forall y, result_of [p] y -> match y with Throw _ => True | _ => y = x end) ->
  round_correct c (candidates_insert c x) (n <? Z.of_nat (length (candidates_insert c x))) p.
Proof.
  intros Hnd Hfit Hx Hr Hy. refine (conj (NoDup_insert _ _ Hnd) (conj _ (conj _ (conj _ _)))).
  - intros u [E|Hu]%elem_of_insert; [by destruct (Hr u)|by apply Hfit].
  - intros y Hc. apply elem_of_insert. by right.
  - intros y [->|Hc]%elem_of_insert; [by right|by left].
  - destruct (n <? _) eqn:El; [by apply Z.ltb_lt|]. apply Z.ltb_ge in El. split; [done|].
    intros y Hry. specialize (Hy y Hry). destruct y; [| |done|]; subst; apply elem_of_insert; by left.
Qed.

Lemma returned_wrap x u : returned x = Some u <-> x = Return u.
Proof. destruct x; cbn; split; congruence. Qed.
Lemma fit_candidates c v : get_width v = as_u32 return_width -> fit c -> candidates_fit Return v c.
Proof. intros Hw Hfit u Hu. unfold in_width. rewrite Hw. by apply Hfit. Qed.

Lemma visit_correct c t s r c' t' leave s' :
  0 <= n < 2 ^ 64 -> path_ok (s, r) -> NoDup c -> fit c ->
  visit None return_width n c t r s = (Ok (c', t', leave), s') ->
  round_correct c c' leave (s, r).
Proof.
  intros Hn Hok Hnd Hfit Hv.
  assert (forall y, result_of [(s, r)] y -> match y, r with
            | Return _, Return _ | Throw _, Throw _ | ReturnVoid, ReturnVoid | Abort, Abort => True | _, _ => False end) as Hkind.
  { intros [u| |u|]; cbn; [intros (s0 & v & [[= <- <-]|[]%elem_of_nil]%elem_of_cons & _)|intros (s0 & [[= <- <-]|[]%elem_of_nil]%elem_of_cons)
      |intros (s0 & p & [[= <- <-]|[]%elem_of_nil]%elem_of_cons & _)|intros (s0 & [[= <- <-]|[]%elem_of_nil]%elem_of_cons)]; done. }
  destruct r as [v| |p|]; cbn in Hv.
  - destruct Hok as (O & G & Hsat & Hw & Hle). unfold mbind, M_bind in Hv. 
    destruct (new_values _ _ _ _ _ _ s) as [[[c1 l1]|e|p|] s1] eqn:Ev; inversion Hv; subst; clear Hv.
    pose proof (wp_run _ _ _ _ _ Ev (wp_new_values returned Return returned_wrap v Hle s c return_width n
                  O G Hsat Hn (eq_sym Hw) Hnd (fit_candidates c v Hw Hfit))) as (H1 & H2 & H3 & H4 & H5).
    refine (conj H1 (conj _ (conj H3 (conj _ _)))).
    + intros u Hu. rewrite <- Hw. by apply H2.
    + intros x [Hx|(u & -> & Hu)]%H4; [by left|right]. exists s, v. split; [left|done].
    + destruct leave; [done|]. destruct H5 as [H5 H6]. split; [done|]. intros y Hy.
      specialize (Hkind y Hy). destruct y as [u| | |]; [|done..].
      destruct Hy as (s0 & v0 & [[= -> ->]|[]%elem_of_nil]%elem_of_cons & Hp). by apply H6.
  - injection Hv as <- <- <- <-. apply insert_correct; [done|done| |done|]; [exists s; left|].
    intros y Hy. specialize (Hkind y Hy). by destruct y.
  - destruct t; [injection Hv as <- <- <- <-|].
    + refine (conj Hnd (conj Hfit (conj _ (conj _ _)))); [auto..|]. split; [done|]. intros y Hy.
      specialize (Hkind y Hy). by destruct y.
    + unfold mbind, M_bind, lift in Hv. destruct (as_u64 p) as [u|] eqn:Eu; cbn in Hv; [|done].
      injection Hv as <- <- <- <-. apply insert_correct; [done|done| |done|]; [exists s, p; split; [left|done]|].
      intros y Hy. specialize (Hkind y Hy). by destruct y.
  - injection Hv as <- <- <- <-. apply insert_correct; [done|done| |done|]; [exists s; left|].
    intros y Hy. specialize (Hkind y Hy). by destruct y.
Qed.

(** [have_throw] says whether there is a [Throw] among the candidates, and there
    is never more than one. *)
Definition throws_ok (c : Candidates) (t : bool) : Prop :=
  (forall u u', Throw u ∈ c -> Throw u' ∈ c -> u = u') /\ (t = true <-> exists u, Throw u ∈ c).
Lemma visit_throws c t s r c' t' leave s' :
  0 <= n < 2 ^ 64 -> path_ok (s, r) -> NoDup c -> fit c -> throws_ok c t ->
  visit None return_width n c t r s = (Ok (c', t', leave), s') ->
  throws_ok c' t' /\ (t = true -> t' = true) /\ ((exists p, r = Throw p) -> t' = true).
Proof.
  intros Hn Hok Hnd Hfit [Hone Ht] Hv. destruct (visit_correct _ _ _ _ _ _ _ _ Hn Hok Hnd Hfit Hv) as (_ & _ & Hold & Hnew & _).
  assert ((exists p, r = Throw p) \/ t' = t /\ forall u, Throw u ∈ c' <-> Throw u ∈ c) as [[p ->]|[-> Hsame]].
  { destruct r as [v| |p|]; [right|right|by left; exists p|right]; cbn in Hv.
    1: unfold mbind, M_bind in Hv; destruct (new_values _ _ _ _ _ _ s) as [[[c1 l1]|e|p|] s1]; inversion Hv; subst; clear Hv.
    2, 3: injection Hv as <- <- <- <-.
    all: split; [done|]; intros u; split; [intros [?|(s0 & p & [[=]|[]%elem_of_nil]%elem_of_cons & _)]%Hnew; done|apply Hold]. }
  - cbn in Hv. destruct t.
    + injection Hv as <- <- <- <-. done.
    + unfold mbind, M_bind, lift in Hv. destruct (as_u64 p) as [u|] eqn:Eu; cbn in Hv; [|done]. injection Hv as <- <- <- <-.
      assert (forall u, Throw u ∉ c) as Hno by (intros u' Hu'; assert (false = true) by (apply Ht; eauto); done).
      split; [|done]. split; [|split; [intros _; exists u; apply elem_of_insert; by left|done]].
      by intros u1 u2 [[= ->]|[]%Hno]%elem_of_insert [[= ->]|[]%Hno]%elem_of_insert.
  - split; [|split; [done|]].
    + split; [intros u u'; rewrite !Hsame; apply Hone|]. by setoid_rewrite Hsame.
    + intros [p ->]. cbn in Hv. destruct t; [done|]. unfold mbind, M_bind, lift in Hv. destruct (as_u64 p); cbn in Hv; [|done]. by injection Hv.
Qed.

(** The candidates when the loop ends. *)
Definition collected (c : Candidates) (paths : list (State * ReturnValue BV)) (all : bool) (c' : Candidates) : Prop :=
  NoDup c' /\ (forall x, x ∈ c -> x ∈ c') /\ (forall x, x ∈ c' -> x ∈ c \/ result_of paths x) /\
  (forall u u', Throw u ∈ c' -> Throw u' ∈ c' -> u = u') /\
  if all then (Z.of_nat (length c) <= n -> Z.of_nat (length c') <= n) /\
              (forall x, result_of paths x -> match x with Throw _ => exists u, Throw u ∈ c' | _ => x ∈ c' end)
  else n < Z.of_nat (length c').

Lemma result_of_app p paths x : result_of (p :: paths) x <-> result_of [p] x \/ result_of paths x.
Proof.
  destruct x; cbn; setoid_rewrite elem_of_cons; setoid_rewrite elem_of_nil; naive_solver.
Qed.

Lemma values_loop_visits em c t paths all :
  visits em c t paths all -> forall rounds,
  0 <= n < 2 ^ 64 -> Forall path_ok paths -> NoDup c -> fit c -> throws_ok c t -> (length paths < rounds)%nat ->
  exists c', fst (values_loop rounds fuel None return_width n c t em) = Ok c' /\ collected c paths all c'.
Proof.
  intros Hvis. induction Hvis as [em em' c t Hn|em em' c t r c' t' s' Hn Hv|em em' c t r c' t' s' paths all Hn Hv Hvis IH];
    intros [|rounds] Hlim Hok Hnd Hfit Hth Hlt; try (cbn in Hlt; lia); cbn.
  - exists c. unfold mbind, M_bind. rewrite Hn. split; [done|]. split; [done|]. split; [done|]. split; [by left|]. split; [apply Hth|].
    split; [done|]. intros [u| |u|]; cbn; setoid_rewrite elem_of_nil; naive_solver.
  - apply Forall_cons_1 in Hok as [Hok _]. destruct (visit_correct _ _ _ _ _ _ _ _ Hlim Hok Hnd Hfit Hv) as (H1 & _ & H3 & H4 & H5).
    destruct (visit_throws _ _ _ _ _ _ _ _ Hlim Hok Hnd Hfit Hth Hv) as ([H6 _] & _). exists c'. unfold mbind, M_bind. rewrite Hn. unfold mut_state, zoom. rewrite Hv. split; [done|]. by split_and!.
  - apply Forall_cons_1 in Hok as [Hok Hoks].
    destruct (visit_correct _ _ _ _ _ _ _ _ Hlim Hok Hnd Hfit Hv) as (H1 & H2 & H3 & H4 & H5 & H6).
    destruct (visit_throws _ _ _ _ _ _ _ _ Hlim Hok Hnd Hfit Hth Hv) as (Hth' & _ & Hthr).
    destruct (IH rounds Hlim Hoks H1 H2 Hth') as (c2 & E & G1 & G2 & G3 & G6 & G4); [cbn in Hlt; lia|].
    exists c2. unfold mbind, M_bind. rewrite Hn. unfold mut_state, zoom. rewrite Hv. split; [done|]. split; [done|].
    split; [auto|]. split.
    + intros x Hx. setoid_rewrite result_of_app. destruct (G3 x Hx) as [Hc|?]; [destruct (H4 x Hc)|]; auto.
    + split; [done|]. destruct all; [|done]. destruct G4 as [G4 G5]. split; [auto|]. intros x [Hx|Hx]%result_of_app; [|by apply G5].
      specialize (H6 x Hx). destruct x as [u| |u|]; auto. destruct Hx as (s0 & p & [[= -> <-]|[]%elem_of_nil]%elem_of_cons & _).
      destruct Hth' as [_ [[u' Hu'] _]]; [apply Hthr; eauto|]. exists u'. by apply G2.
Qed.

(** C14: [get_possible_return_values_of_func] collects the right values: its
    loop, over paths whose constraints can be met, ends without panicking
    (given as many rounds as there are paths and one more) with a list
    without duplicates in which every value is a result of some path under
    some values of the inputs (the reported integers are exactly possible
    ones).  This is for a call without a size of thrown values, so that, as the
    documentation of [thrown_size] says, there is at most one thrown value, a
    possible pointer.  When all paths were visited the list has every returned
    value, also void and abort, and a thrown one if any path throws, and at most
    [n] elements; when the loop was left early it has more than [n]. *)
Theorem return_values_correct em paths all rounds :
  visits em [] false paths all -> Forall path_ok paths -> 0 <= n < 2 ^ 64 -> (length paths < rounds)%nat ->
  exists c, fst (values_loop rounds fuel None return_width n [] false em) = Ok c /\ NoDup c /\
    (forall x, x ∈ c -> result_of paths x) /\ (forall u u', Throw u ∈ c -> Throw u' ∈ c -> u = u') /\
    if all then Z.of_nat (length c) <= n /\ forall x, result_of paths x -> match x with Throw _ => exists u, Throw u ∈ c | _ => x ∈ c end
    else n < Z.of_nat (length c).
Proof.
  intros Hvis Hok Hn Hlt. destruct (values_loop_visits _ _ _ _ _ Hvis rounds Hn Hok) as (c & E & H1 & H2 & H3 & H6 & H4);
    [constructor|by intros u ?%elem_of_nil| |done|].
  { split; [by intros u u' ?%elem_of_nil|]. split; [done|by intros [u ?%elem_of_nil]]. }
  exists c. split; [done|]. split; [done|]. split; [by intros x [?%elem_of_nil|]%H3|]. split; [done|].
  destruct all; [|done]. destruct H4 as [H4 H5]. split; [apply H4; cbn; lia|done].
Qed.

End loop.

(** ** The zero of a function *)

Section zero.
Context `{Laws : BackendLaws} `{MOps : !MemoryOps} `{L : LLVM} `{CF : ConstFuel} `{UC : !UserCode}.
(** The documented behaviour of [BVSolution::as_u64]: arbitrary bits are 0. *)
Context (as_u64_disambiguates : forall x, sol_as_u64 x = sol_as_u64 (disambiguate x)).

(** The search along the paths: the paths that return a value, each with the
    state at its end, and the state in which a zero was found.  The number
    counts every path, those that throw, abort or exceed the loop bound too. *)
Context (fuel : nat) (zero : BV) (zero_val : forall m, eval m zero = 0).

Definition skipped (r : outcome (ReturnValue BV)) : bool :=
  match r with Ok (Throw _) | Ok Abort | Err (LoopBoundExceeded _) => true | _ => false end.
Definition returns_zero (v : BV) : M State bool := _ ← assert_bv (bv_eq v zero); State.sat.

Inductive searched : ExecutionManager -> nat -> list (State * BV) -> option State -> Prop :=
| searched_all em em' : next fuel em = (Ok None, em') -> searched em 0 [] None
| searched_skip em em' r k paths o :
    next fuel em = (Ok (Some r), em') -> skipped r = true ->
    searched em' k paths o -> searched em (S k) paths o
| searched_found em em' v s' :
    next fuel em = (Ok (Some (Ok (Return v))), em') ->
    returns_zero v (em_state em') = (Ok true, s') -> searched em 0 [(em_state em', v)] (Some s')
| searched_more em em' v s' k paths o :
    next fuel em = (Ok (Some (Ok (Return v))), em') ->
    returns_zero v (em_state em') = (Ok false, s') ->
    searched (set_em_state s' em') k paths o -> searched em (S k) ((em_state em', v) :: paths) o.

(** The same, by running the loop. *)
Fixpoint search (rounds : nat) (em : ExecutionManager) : option (nat * list (State * BV) * option State) :=
  match rounds with
  | O => None
  | S rounds =>
      match next fuel em with
      | (Ok None, _) => Some (0%nat, [], None)
      | (Ok (Some (Ok (Return v))), em') =>
          match returns_zero v (em_state em') with
          | (Ok true, s') => Some (0%nat, [(em_state em', v)], Some s')
          | (Ok false, s') =>
              '(k, paths, o) ← search rounds (set_em_state s' em'); Some (S k, (em_state em', v) :: paths, o)
          | _ => None
          end
      | (Ok (Some r), em') =>
          if skipped r then '(k, paths, o) ← search rounds em'; Some (S k, paths, o) else None
      | _ => None
      end
  end.

Lemma search_searched rounds em k paths o : search rounds em = Some (k, paths, o) -> searched em k paths o.
Proof.
  revert em k paths o. induction rounds as [|rounds IH]; intros em k paths o; cbn [search]; [done|].
  destruct (next fuel em) as [[[r|]|e|p|] em'] eqn:En; try done; [|intros [= <- <- <-]; by eapply searched_all].
  assert ((if skipped r then '(k, paths, o) ← search rounds em'; Some (S k, paths, o) else None) = Some (k, paths, o) ->
          searched em k paths o) as Hskip.
  { destruct (skipped r) eqn:Er; [|done]. destruct (search rounds em') as [[[k2 ps2] o2]|] eqn:E2; [|done].
    intros [= <- <- <-]. eapply searched_skip; eauto. }
  destruct r as [[v| |u|]|e|p|]; try exact Hskip. clear Hskip.
  destruct (returns_zero v (em_state em')) as [[[|]|e|p|] s'] eqn:Ez; try done.
  - intros [= <- <- <-]. by eapply searched_found.
  - destruct (search rounds (set_em_state s' em')) as [[[k2 ps2] o2]|] eqn:E2; [|done].
    intros [= <- <- <-]. eapply searched_more; eauto.
Qed.

Definition end_ok (p : State * BV) : Prop :=
  solver_ok (solver p.1) /\ model_gen (solver p.1) = false /\ get_width p.2 = get_width zero.
Definition can_return_zero (p : State * BV) : Prop := possible (solver p.1) p.2 0.

(** In [s'] the path [p] has returned zero. *)
Definition zero_returned (p : State * BV) (s' : State) : Prop :=
  satisfiable (solver s') /\ model_gen (solver s') = false /\
  forall m, models (solver s') m <-> models (solver p.1) m /\ eval m p.2 = 0.

Lemma returns_zero_correct p s' b :
  end_ok p -> returns_zero p.2 p.1 = (Ok b, s') ->
  if b then zero_returned p s' else ~ can_return_zero p.
Proof.
  destruct p as [s v]. intros (O & G & W) Hr. cbn in *.
  set (sol1 := btor_assert (bv_eq v zero) (solver s)).
  assert (model_gen sol1 = false /\ forall m, models sol1 m <-> models (solver s) m /\ eval m v = 0) as [G1 M1].
  { assert (get_width (bv_eq v zero) = 1) as W1 by by apply (pred_width bv_eq _ _ _ bv_eq_law). split.
    - unfold solver_ok in O. destruct (assertions (solver s)) as [|l ls] eqn:El; [done|].
      destruct (btor_assert_law _ l ls (solver s) W1 El) as [_ L2]. by rewrite <- G.
    - intros m. unfold sol1. rewrite models_assert, (pred_eval bv_eq _ _ _ m bv_eq_law), b2z_1, Z.eqb_eq, zero_val by done. tauto. }
  assert (wp (returns_zero v) s (fun r s' => match r with Ok b => (b = true <-> satisfiable sol1) /\ same_solver sol1 (solver s') | _ => True end)) as Hw.
  { unfold returns_zero. apply wp_bind, wp_on_solver, run_wp. intros r sol [= <- <-]. apply wp_on_solver.
    eapply wp_mono; [apply wp_sat|]. intros [b'|e|p'|] sol2; cbn; [|done..]. intros (Hs & Hb & _). done. }
  apply (wp_run _ _ _ _ _ Hr) in Hw as [Hb Hs]. destruct b.
  - unfold zero_returned. cbn. split; [rewrite <- Hs; by apply Hb|]. split; [destruct Hs; congruence|]. intros m. by rewrite <- Hs.
  - intros (m & Hm & Ev). assert (satisfiable sol1) as Hsat by (exists m; by apply M1). by apply Hb in Hsat.
Qed.

(** What the search found. *)
Definition search_result (paths : list (State * BV)) (o : option State) : Prop :=
  match o with
  | Some s' => exists p, p ∈ paths /\ zero_returned p s'
  | None => forall p, p ∈ paths -> ~ can_return_zero p
  end.

Lemma zero_loop_searched em k paths o : searched em k paths o -> Forall end_ok paths ->
  forall rounds, (k < rounds)%nat ->
  search_result paths o /\
  exists em', zero_loop rounds fuel zero em = (Ok (bool_decide (is_Some o)), em') /\ forall s', o = Some s' -> em_state em' = s'.
Proof.
  intros Hs. induction Hs as [em em' Hn|em em' r k paths o Hn Hk Hs IH|em em' v s' Hn Hz|em em' v s' k paths o Hn Hz Hs IH];
    intros Hok [|rounds] Hlt; try lia; cbn; unfold mbind at 1, M_bind at 1; rewrite Hn.
  - split; [by intros p ?%elem_of_nil|]. by exists em'.
  - destruct (IH Hok rounds ltac:(lia)) as [H1 H2]. split; [done|].
    destruct r as [[v| |p|]|[]|p|]; try discriminate Hk; exact H2.
  - apply Forall_cons_1 in Hok as [Hok _]. pose proof (returns_zero_correct _ _ _ Hok Hz) as Hr. cbn in Hr. split.
    + exists (em_state em', v). split; [left|done].
    + unfold returns_zero, mbind, M_bind in Hz. unfold mbind, M_bind, mut_state, zoom.
      destruct (assert_bv (bv_eq v zero) (em_state em')) as [[[]|e|p|] s1]; try done. cbn. rewrite Hz.
      eexists. split; [done|]. by intros ? [= <-].
  - apply Forall_cons_1 in Hok as [Hok Hoks]. pose proof (returns_zero_correct _ _ _ Hok Hz) as Hr. cbn in Hr.
    destruct (IH Hoks rounds ltac:(lia)) as [H1 H2]. split.
    + destruct o; [destruct H1 as (p & Hp & Hzr); exists p; split; [by right|done]|].
      intros p [->|Hp]%elem_of_cons; [done|by apply H1].
    + unfold returns_zero, mbind, M_bind in Hz. unfold mbind, M_bind, mut_state, zoom.
      destruct (assert_bv (bv_eq v zero) (em_state em')) as [[[]|e|p|] s1]; try done. cbn. by rewrite Hz.
Qed.

(** The parameters whose types the analysis can report. *)
Definition param_ok (p : Parameter_ * BV) : Prop :=
  get_width p.2 <= 64 /\
  match param_ty p.1 with
  | IntegerType bits => bits = 8 \/ bits = 16 \/ bits = 32 \/ bits = 64
  | PointerType _ => True
  | _ => False
  end.

(** The value reported for a parameter is one it can have in [s]. *)
Definition reported (s : State) (p : Parameter_ * BV) (x : SolutionValue) : Prop :=
  exists u, possible (solver s) p.2 u /\ solution_value (param_ty p.1) u = Ok x.

Lemma solution_value_total p u : param_ok p -> exists x, solution_value (param_ty p.1) u = Ok x.
Proof. intros [_ Hty]. destruct (param_ty p.1); try done; [|by eexists]. destruct Hty as [->|[->|[->| ->]]]; by eexists. Qed.

Lemma wp_input_values params em :
  Forall param_ok params -> satisfiable (solver (em_state em)) -> model_gen (solver (em_state em)) = false ->
  wp (input_values params) em (fun r _ =>
    match r with
    | Ok xs => Forall2 (reported (em_state em)) params xs
    | Err e => query_failed e
    | _ => False
    end).
Proof.
  intros Hp. revert em. induction Hp as [|[p bv] params Hp _ IH]; intros em Hsat G; cbn [input_values mapMM].
  { apply wp_ret. constructor. }
  apply wp_bind. unfold mut_state at 1. apply wp_bind, run_wp. unfold zoom at 1. intros r em1.
  destruct (get_a_solution_for_bv bv (em_state em)) as [r0 s1] eqn:Eg. intros [= <- <-].
  pose proof (wp_run _ _ _ _ _ Eg (wp_get_a_solution as_u64_disambiguates _ bv Hsat (proj1 Hp) G)) as Hg.
  destruct r0 as [x|e|pp|]; cbn in Hg |- *; [|done..]. destruct Hg as [(sol & -> & Hs) (y & u & -> & Eu & Hu)].
  apply wp_bind, wp_lift. cbn. apply wp_bind, wp_lift. rewrite Eu. cbn. apply wp_lift.
  destruct (solution_value_total (p, bv) u Hp) as [x Ex]. cbn in Ex. rewrite Ex. cbn. apply wp_bind.
  eapply wp_mono; [apply IH; cbn; [by rewrite <- Hs|destruct Hs; congruence]|].
  intros [xs|e|pp|] em2; cbn; [|done..]. intros Hxs. apply wp_ret. constructor; [by exists u|].
  eapply Forall2_impl; [exact Hxs|]. intros q x' (u' & Hu' & Ex'). exists u'. split; [|done]. by rewrite Hs.
Qed.

End zero.

(** C13: [find_zero_of_func] finds a zero exactly when there is one: with more
    rounds than paths, over paths whose results have the width of the
    function's type, the answer [None] means that no path can return zero, and
    [Some] reports for every parameter, in order and with its signed
    interpretation, a value it can have in some model of the constraints of one
    path in which that path returns zero; the only other way to end is a query
    that the solver gives up. *)
Theorem find_zero_correct `{Laws : BackendLaws} `{MOps : !MemoryOps} `{L : LLVM} `{CF : ConstFuel} `{UC : !UserCode}
    rounds fuel funcname project cfg em0 func module em width k paths o :
  (forall x, sol_as_u64 x = sol_as_u64 (disambiguate x)) ->
  symex_function funcname project cfg = Ok em0 ->
  Project.get_func_by_name project funcname = Ok (Some (func, module)) ->
  let params := zip (func_parameters func) (param_bvs em0) in
  nonnull_pointers params em0 = (Ok tt, em) ->
  size (func_return_type func) = Ok width -> 0 < as_u32 width ->
  searched fuel (bv_zero (as_u32 width)) em k paths o -> (k < rounds)%nat ->
  Forall (end_ok (bv_zero (as_u32 width))) paths -> Forall param_ok params ->
  let r := find_zero_of_func rounds fuel funcname project cfg in
  match o with
  | None => r = Ok None /\ forall p, p ∈ paths -> ~ can_return_zero p
  | Some _ =>
      (exists e, r = Err e /\ query_failed e) \/
      exists xs p s', r = Ok (Some xs) /\ p ∈ paths /\ zero_returned p s' /\ Forall2 (reported s') params xs
  end.
Proof.
  intros Hdis Hem Hf params Hnn Hsz Hw Hs Hk Hok Hp r. subst r. unfold find_zero_of_func.
  rewrite Hem. cbn [mbind outcome_bind]. rewrite Hf. cbn - [nonnull_pointers zero_loop input_values params]. fold params.
  destruct (zero_loop_searched fuel (bv_zero (as_u32 width)) (fun m => zero_eval _ m Hw) em k paths o Hs Hok rounds Hk) as [Hres (em' & Hz & He)].
  rewrite (bind_run _ _ _ _ _ Hnn), Hsz, (bind_run _ _ _ _ _ (eq_refl : lift (Ok width) em = _)), (bind_run _ _ _ _ _ Hz).
  destruct o as [s'|]; cbn - [input_values params]; [|split; [done|exact Hres]].
  destruct Hres as (p & Hin & Hzr). specialize (He s' eq_refl). destruct Hzr as (Hsat & G & Hm).
  destruct (input_values params em') as [r em2] eqn:Ei. pose proof (wp_input_values Hdis params em' Hp) as Hi.
  rewrite He in Hi. specialize (Hi Hsat G). apply (wp_run _ _ _ _ _ Ei) in Hi. unfold mbind, M_bind. rewrite Ei. destruct r as [xs|e|pp|]; cbn; [|left; by exists e|done|done].
  right. exists xs, p, s'. exact (conj eq_refl (conj Hin (conj (conj Hsat (conj G Hm)) Hi))).
Qed.

(** ** The assumptions of [find_zero_of_func] *)

Section assumptions.
Context `{Laws : BackendLaws} `{Levels : !LevelLaws} `{Dec : !Decides} `{MOps : !MemoryOps} `{MLevels : !MemoryLevels} `{L : LLVM}
  `{CF : ConstFuel} `{UC : !UserCode} `{CU : !CalmUserCode}.

Definition nonnull_in (m : Model) (p : Parameter_ * BV) : Prop :=
  match param_ty p.1 with PointerType _ => eval m p.2 <> 0 | _ => True end.

Lemma undisturbed_assert b (s : State) : undisturbed s (set_solver (btor_assert b (solver s)) s).
Proof. split_and!; [done..|]. exists []. split; [done|]. split; [apply above_grown, levels_assert|done]. Qed.

Lemma nonnull_pointers_correct params em :
  solver_ok (solver (em_state em)) ->
  exists s, nonnull_pointers params em = (Ok tt, set_em_state s em) /\ undisturbed (em_state em) s /\
    backtrack_points s = backtrack_points (em_state em) /\ solver_ok (solver s) /\
    forall m, models (solver s) m -> Forall (nonnull_in m) params.
Proof.
  assert (forall s em, em_state (set_em_state s em) = s) as Hset by done.
  revert em. induction params as [|[p bv] params IH]; intros em O; cbn [nonnull_pointers forM].
  { exists (em_state em). split; [by destruct em|]. split; [reflexivity|]. by repeat split. }
  destruct (param_ty p) eqn:Ety; try (destruct (IH em O) as (s & E & U & B & O' & Hm);
    exists s; cbn; split; [exact E|]; split; [exact U|]; split; [exact B|]; split; [exact O'|]; intros m Hmod; constructor;
    [unfold nonnull_in; cbn; by rewrite Ety|by apply Hm]).
  set (c := bv_ne bv (bv_zero (get_width bv))). set (s1 := set_solver (btor_assert c (solver (em_state em))) (em_state em)).
  pose proof (width_pos bv) as Wp. destruct (bv_zero_law (get_width bv) Wp) as [Wz Ez].
  assert (get_width c = 1) as Wc by by apply (pred_width bv_ne _ _ _ bv_ne_law).
  assert (solver_ok (solver s1)) as O1.
  { unfold solver_ok in *. destruct (assertions (solver (em_state em))) as [|l ls] eqn:El; [done|]. cbn.
    by destruct (btor_assert_law c l ls _ Wc El) as [-> _]. }
  destruct (IH (set_em_state s1 em) O1) as (s & E & U & B & O' & Hm). exists s. split; [|split; [|split; [|split; [done|]]]].
  - exact E.
  - etrans; [apply undisturbed_assert|exact U].
  - exact B.
  - intros m Hmod. constructor; [|by apply Hm]. unfold nonnull_in. cbn. rewrite Ety.
    assert (models (solver s1) m) as Hm1. { destruct U as (_ & _ & _ & bps & _ & Ha & _). by eapply above_sublevels. }
    apply models_assert in Hm1 as [Hc _]; [|done|done].
    unfold c in Hc. by rewrite (pred_eval bv_ne _ _ _ m bv_ne_law), Ez, b2z_1, negb_true_iff, Z.eqb_neq in Hc.
Qed.

(** The states at the ends of the paths are later ones. *)
Lemma calm_returns_zero zero v : calm (returns_zero zero v).
Proof. unfold returns_zero. calm. Qed.

Lemma searched_later fuel zero em0 em k paths o :
  later em0 em -> searched fuel zero em k paths o ->
  Forall (fun p => exists em', later em0 em' /\ em_state em' = p.1) paths.
Proof.
  intros Hl Hs. induction Hs as [em em' Hn|em em' r k paths o Hn Hk Hs IH|em em' v s' Hn Hz|em em' v s' k paths o Hn Hz Hs IH].
  - constructor.
  - apply IH. by eapply later_next.
  - constructor; [|constructor]. exists em'. split; [by eapply later_next|done].
  - assert (later em0 em') as Hl' by by eapply later_next. constructor; [by exists em'|]. apply IH, later_use; [done|].
    pose proof (calm_returns_zero zero v (em_state em')) as Hc. unfold ends in Hc. by rewrite Hz in Hc.
Qed.

(** C33: the search of [find_zero_of_func] never proposes a null pointer: in
    every model of the constraints at the end of any path it visits, after any
    number of reverts, every pointer argument differs from null. *)
Theorem inputs_not_null funcname project cfg fuel zero em0 em params k paths o :
  symex_function funcname project cfg = Ok em0 -> backtrack_points (em_state em0) = [] -> solver_ok (solver (em_state em0)) ->
  nonnull_pointers params em0 = (Ok tt, em) -> searched fuel zero em k paths o ->
  Forall (fun p => forall m, models (solver p.1) m -> Forall (nonnull_in m) params) paths.
Proof.
  intros Hem Hb O Hnn Hs. destruct (nonnull_pointers_correct params em0 O) as (s & E & U & B & _ & Hm).
  rewrite Hnn in E. injection E as ->.
  eapply Forall_impl; [eapply searched_later; [apply later_refl|exact Hs]|]. intros p (em' & Hl & <-) m Hmod.
  apply Hm, (later_models funcname project cfg (set_em_state s em0) em'); [|cbn; by rewrite B|done..].
  exists em0. split; [done|]. apply later_use; [apply later_refl|done].
Qed.

End assumptions.
