(* ===== verification/InstrTheorems.v ===== *)
(** * InstrTheorems: what the instructions compute

    Vector operations work lane by lane, [overwrite_bv_segment] replaces
    exactly one segment of bits, [llvm.bswap] reverses the bytes, and the
    memory instructions read and write what they should.  A lane of a vector
    is a slice of the bit-vector that holds it, the first element lowest. *)
From S2P Require Import Prelude Bits Backend ToySolver SolverUtils MemorySpec Memory Alloc LLVMIR ToyLLVM Project Layout VarMap Watchpoints FunctionHooks GlobalAllocations Config State Operands HookUtils Hooks SymexInstr StateTheorems.

Open Scope Z_scope.

(** The [i]-th [w]-bit lane of [v]. *)
Definition lane (w v i : Z) : Z := slice_val v ((i + 1) * w - 1) (i * w).

Section lanes.
Implicit Types w v i j k : Z.

Lemma lane_range w v i : 0 < w -> 0 <= lane w v i < 2 ^ w.
Proof.
  intros Hw. pose proof (slice_val_range v ((i + 1) * w - 1) (i * w) ltac:(lia)) as R.
  by replace ((i + 1) * w - 1 - i * w + 1) with w in R by lia.
Qed.

Lemma testbit_lane w v i j : 0 < w -> 0 <= i -> 0 <= j < w -> Z.testbit (lane w v i) j = Z.testbit v (j + i * w).
Proof.
  intros Hw Hi Hj. unfold lane. rewrite testbit_slice by nia. rewrite (proj2 (Z.leb_le _ _)) by lia. done.
Qed.

Lemma lane_ext w v v' i i' :
  0 < w -> 0 <= i -> 0 <= i' -> (forall j, 0 <= j < w -> Z.testbit v (j + i * w) = Z.testbit v' (j + i' * w)) ->
  lane w v i = lane w v' i'.
Proof.
  intros Hw Hi Hi' Hb. apply (bits_ext w); [lia|by apply lane_range..|].
  intros j Hj. rewrite !testbit_lane by lia. by apply Hb.
Qed.

(** A value of one lane. *)
Lemma lane_0 w v : 0 <= v < 2 ^ w -> lane w v 0 = v.
Proof.
  intros Hv. unfold lane, slice_val. rewrite Z.div_1_r. replace ((0 + 1) * w - 1 - 0 * w + 1) with w by lia.
  by apply Z.mod_small.
Qed.

Lemma lane_concat_low w a k b i :
  0 < w -> 0 <= i < k -> 0 <= b < 2 ^ (k * w) -> lane w (concat_val a (k * w) b) i = lane w b i.
Proof.
  intros Hw Hi Hb. apply lane_ext; [lia..|]. intros j Hj. rewrite testbit_concat by nia.
  rewrite (proj2 (Z.ltb_lt _ _)) by nia. done.
Qed.

Lemma lane_concat_high w a k b i :
  0 < w -> 0 <= k <= i -> 0 <= b < 2 ^ (k * w) -> lane w (concat_val a (k * w) b) i = lane w a (i - k).
Proof.
  intros Hw Hi Hb. apply lane_ext; [lia..|]. intros j Hj. rewrite testbit_concat by nia.
  rewrite (proj2 (Z.ltb_ge _ _)) by nia. f_equal. lia.
Qed.

End lanes.

Lemma mapO_ok {A B} (f : A -> outcome B) (g : A -> B) xs :
  (forall x, x ∈ xs -> f x = Ok (g x)) -> mapO f xs = Ok (g <$> xs).
Proof.
  induction xs as [|x xs IH]; intros Hf; [done|]. cbn. rewrite (Hf x) by left. cbn.
  rewrite IH by (intros; apply Hf; by right). done.
Qed.

Lemma range_lookup n i : 0 <= i < n -> range n !! Z.to_nat i = Some i.
Proof.
  intros Hi. unfold range. rewrite list_lookup_fmap, (lookup_seq_lt 0 (Z.to_nat n)) by lia. cbn. f_equal. lia.
Qed.
Lemma elem_of_range n i : i ∈ range n -> 0 <= i < n.
Proof. unfold range. intros (k & -> & Hk%elem_of_seq)%list_elem_of_fmap. lia. Qed.
Lemma length_range n : length (range n) = Z.to_nat n.
Proof. unfold range. by rewrite length_fmap, length_seq. Qed.

Section vectors.
Context `{Laws : BackendLaws}.

(** Concatenating scalars of one width, the first lowest. *)
Lemma foldl_concat_lanes w (xs : list BV) : forall x k,
  0 < w -> 0 < k -> get_width x = k * w -> Forall (fun y => get_width y = w) xs ->
  let r := foldl (fun a b => bv_concat b a) x xs in
  get_width r = (k + Z.of_nat (length xs)) * w /\
  (forall m i, 0 <= i < k -> lane w (eval m r) i = lane w (eval m x) i) /\
  forall m i y, xs !! i = Some y -> lane w (eval m r) (k + Z.of_nat i) = eval m y.
Proof.
  induction xs as [|y xs IH]; intros x k Hw Hk Wx Hxs; cbn [foldl].
  { split; [cbn; lia|]. by split. }
  apply Forall_cons in Hxs as [Wy Hxs].
  assert (get_width (bv_concat y x) = (k + 1) * w) as Wc by (rewrite concat_width; lia).
  destruct (IH (bv_concat y x) (k + 1) Hw ltac:(lia) Wc Hxs) as (W & Hlow & Hhigh).
  split; [cbn; rewrite W; lia|].
  split; intros m; pose proof (eval_range m x) as Rx; pose proof (eval_range m y) as Ry; rewrite Wx in Rx; rewrite Wy in Ry.
  - intros i Hi. rewrite Hlow, concat_eval, Wx, lane_concat_low by lia. done.
  - intros [|i] z Hz; cbn in Hz.
    + injection Hz as <-. rewrite Z.add_0_r, Hlow, concat_eval, Wx, lane_concat_high by lia.
      rewrite Z.sub_diag. by apply lane_0.
    + rewrite <- (Hhigh m i z Hz). f_equal. lia.
Qed.

Lemma reduce_concat_lanes w (xs : list BV) :
  0 < w -> xs <> [] -> Forall (fun y => get_width y = w) xs ->
  exists r, reduce_concat xs = Some r /\ get_width r = Z.of_nat (length xs) * w /\
    forall m i y, xs !! i = Some y -> lane w (eval m r) (Z.of_nat i) = eval m y.
Proof.
  intros Hw Hne Hxs. destruct xs as [|x xs]; [done|]. apply Forall_cons in Hxs as [Wx Hxs].
  assert (get_width x = 1 * w) as Wx' by lia.
  destruct (foldl_concat_lanes w xs x 1 Hw ltac:(lia) Wx' Hxs) as (W & Hlow & Hhigh).
  eexists. split; [reflexivity|]. split; [rewrite W; cbn; lia|].
  intros m [|i] y Hy; cbn in Hy.
  - injection Hy as <-. rewrite Hlow by lia. apply lane_0. rewrite <- Wx. apply eval_range.
  - rewrite <- (Hhigh m i y Hy). f_equal. lia.
Qed.

(** The scalars are extracted without overflow. *)
Lemma element_ok v w n i :
  0 < w -> 0 <= i < n -> get_width v = n * w -> n * w < 2 ^ 32 ->
  exists x, element v w i = Ok x /\ get_width x = w /\ forall m, eval m x = lane w (eval m v) i.
Proof.
  intros Hw Hi Wv Hlt. unfold element, u32_add, u32_mul, u32_sub.
  rewrite (proj2 (Z.ltb_lt (i + 1) _)) by nia. cbn. rewrite (proj2 (Z.ltb_lt ((i + 1) * w) _)) by nia. cbn.
  rewrite (proj2 (Z.leb_le 1 _)) by nia. cbn. rewrite (proj2 (Z.ltb_lt (i * w) _)) by nia. cbn.
  eexists. split; [reflexivity|]. destruct (slice_law v ((i + 1) * w - 1) (i * w)) as [W Ev]; [nia..|].
  split; [lia|done].
Qed.

(** [op] computes [f] on scalars of [w] bits, with results of [w'] bits. *)
Definition scalar_op2 (op : BV -> BV -> BV) (w w' : Z) (f : Z -> Z -> Z) : Prop :=
  forall a b, get_width a = w -> get_width b = w ->
    get_width (op a b) = w' /\ forall m, eval m (op a b) = f (eval m a) (eval m b).

Lemma mapO_lanes w n (f : Z -> outcome BV) (Q : Z -> BV -> Prop) :
  0 < n -> (forall i, 0 <= i < n -> exists x, f i = Ok x /\ get_width x = w /\ Q i x) ->
  exists xs, mapO f (range n) = Ok xs /\ Z.of_nat (length xs) = n /\ Forall (fun x => get_width x = w) xs /\
    forall i, 0 <= i < n -> exists x, xs !! Z.to_nat i = Some x /\ Q i x.
Proof.
  intros Hn Hf.
  assert (forall l, (forall i, i ∈ l -> 0 <= i < n) -> exists xs, mapO f l = Ok xs /\
    Forall2 (fun i x => get_width x = w /\ Q i x) l xs) as Hl.
  { induction l as [|i l IH]; intros Hin; [by exists []|].
    destruct (Hf i) as (x & E & Hx); [apply Hin; left|].
    destruct IH as (xs & E' & Hxs); [intros j Hj; apply Hin; by right|].
    exists (x :: xs). cbn. rewrite E. cbn. rewrite E'. cbn. split; [done|]. by constructor. }
  destruct (Hl (range n)) as (xs & E & Hxs); [apply elem_of_range|]. exists xs. split; [done|].
  pose proof (Forall2_length _ _ _ Hxs) as Hlen. rewrite length_range in Hlen. split; [lia|]. split.
  - apply Forall_forall. intros x (k & Hk)%list_elem_of_lookup. by destruct (Forall2_lookup_r _ _ _ _ _ Hxs Hk) as (? & _ & ? & _).
  - intros i Hi. destruct (Forall2_lookup_l _ _ _ _ _ Hxs (range_lookup n i Hi)) as (x & Hx & _ & HQ). by exists x.
Qed.

Lemma finish_lanes w n (f : Z -> outcome BV) (Q : Model -> Z -> Z) what :
  0 < w -> 0 < n ->
  (forall i, 0 <= i < n -> exists x, f i = Ok x /\ get_width x = w /\ forall m, eval m x = Q m i) ->
  exists r, (xs ← mapO f (range n); ok_or (MalformedInstruction what) (reduce_concat xs)) = Ok r /\
    get_width r = n * w /\ forall m i, 0 <= i < n -> lane w (eval m r) i = Q m i.
Proof.
  intros Hw Hn Hf.
  destruct (mapO_lanes w n f (fun i x => forall m, eval m x = Q m i) Hn Hf) as (xs & -> & Hlen & Hxs & HQ).
  destruct (reduce_concat_lanes w xs Hw) as (r & Er & Wr & Hr); [by intros ->; cbn in Hlen; lia|done|].
  exists r. cbn. rewrite Er. split; [done|]. split; [by rewrite <- Hlen|].
  intros m i Hi. destruct (HQ i Hi) as (x & Hx & <-). rewrite <- (Hr m _ _ Hx). f_equal. lia.
Qed.

Lemma binary_lanes v0 v1 n w w' op f :
  0 < w -> 0 < w' -> 0 < n -> n * w < 2 ^ 32 -> get_width v0 = n * w -> get_width v1 = n * w ->
  scalar_op2 op w w' f ->
  exists r, binary_on_vector v0 v1 n op = Ok r /\ get_width r = n * w' /\
    forall m i, 0 <= i < n -> lane w' (eval m r) i = f (lane w (eval m v0) i) (lane w (eval m v1) i).
Proof.
  intros Hw Hw' Hn Hlt W0 W1 Hop. unfold binary_on_vector, assert_divides. rewrite W0, W1, Z.eqb_refl. cbn [negb].
  rewrite (proj2 (Z.eqb_neq n 0)) by lia. rewrite (Z.mul_comm n w), Z.mod_mul, Z.div_mul by lia.
  change (assert_ _ (0 =? 0)) with (Ok tt). unfold mbind at 1, outcome_bind at 1.
  apply finish_lanes; [done..|]. intros i Hi.
  destruct (element_ok v0 w n i) as (x0 & -> & Wx0 & E0); [done..|].
  destruct (element_ok v1 w n i) as (x1 & -> & Wx1 & E1); [done..|].
  destruct (Hop x0 x1 Wx0 Wx1) as [W E]. eexists. split; [reflexivity|]. split; [done|].
  intros m. by rewrite E, E0, E1.
Qed.

Lemma unary_lanes v n w w' op f :
  0 < w -> 0 < w' -> 0 < n -> n * w < 2 ^ 32 -> get_width v = n * w ->
  (forall a, get_width a = w -> exists x, op a = Ok x /\ get_width x = w' /\ forall m, eval m x = f (eval m a)) ->
  exists r, unary_on_vector v n op = Ok r /\ get_width r = n * w' /\
    forall m i, 0 <= i < n -> lane w' (eval m r) i = f (lane w (eval m v) i).
Proof.
  intros Hw Hw' Hn Hlt Wv Hop. unfold unary_on_vector, assert_divides. rewrite Wv.
  rewrite (proj2 (Z.eqb_neq n 0)) by lia. rewrite (Z.mul_comm n w), Z.mod_mul, Z.div_mul by lia.
  change (assert_ _ (0 =? 0)) with (Ok tt). unfold mbind at 1, outcome_bind at 1.
  apply finish_lanes; [done..|]. intros i Hi.
  destruct (element_ok v w n i) as (x & -> & Wx & E0); [done..|].
  destruct (Hop x Wx) as (y & Ey & Wy & E). exists y. split; [done|]. split; [done|].
  intros m. by rewrite E, E0.
Qed.

End vectors.

(** ** Arithmetic and comparisons *)

Section arithmetic.
Context `{Laws : BackendLaws} `{MOps : !MemoryOps} `{L : LLVM} `{CF : ConstFuel}.

(** What the integer operations of LLVM compute on [w]-bit values; division
    by zero, which LLVM leaves undefined, as SMT-LIB fixes it. *)
Definition binop_val (kind : BinOpKind) : option (Z -> Z -> Z -> Z) :=
  match kind with
  | OpAdd => Some (fun w a b => (a + b) mod 2 ^ w)
  | OpSub => Some (fun w a b => (a - b) mod 2 ^ w)
  | OpMul => Some (fun w a b => (a * b) mod 2 ^ w)
  | OpUDiv => Some (fun w a b => if b =? 0 then 2 ^ w - 1 else a / b)
  | OpURem => Some (fun w a b => if b =? 0 then a else a mod b)
  | OpSDiv => Some sdiv_val
  | OpSRem => Some srem_val
  | OpAnd => Some (fun _ => Z.land)
  | OpOr => Some (fun _ => Z.lor)
  | OpXor => Some (fun _ => Z.lxor)
  | OpShl => Some (fun w a b => (a * 2 ^ b) mod 2 ^ w)
  | OpLShr => Some (fun _ a b => a / 2 ^ b)
  | OpAShr => Some (fun w a b => (sval w a / 2 ^ b) mod 2 ^ w)
  | _ => None
  end.

Definition icmp_val (pred : IntPredicate) (w a b : Z) : bool :=
  match pred with
  | EQ => a =? b
  | NE => negb (a =? b)
  | UGT => b <? a
  | UGE => b <=? a
  | ULT => a <? b
  | ULE => a <=? b
  | SGT => sval w b <? sval w a
  | SGE => sval w b <=? sval w a
  | SLT => sval w a <? sval w b
  | SLE => sval w a <=? sval w b
  end.

(** The number of lanes and the width of each of an integer or a vector of
    integers. *)
Definition int_shape (ty : Type_) : option (Z * Z) :=
  match ty with
  | IntegerType bits => Some (1, bits)
  | VectorType (IntegerType bits) num_elements => Some (num_elements, bits)
  | _ => None
  end.

Lemma binop_law kind f : binop_val kind = Some f -> exists op, binop_to_bvbinop kind = Ok op /\ bin_law op f.
Proof.
  destruct kind; cbn; try discriminate; intros [= <-]; eexists; (split; [reflexivity|]).
  - apply bv_add_law.
  - apply bv_sub_law.
  - apply bv_mul_law.
  - apply bv_udiv_law.
  - apply bv_sdiv_law.
  - apply bv_urem_law.
  - apply bv_srem_law.
  - apply bv_and_law.
  - apply bv_or_law.
  - apply bv_xor_law.
  - apply sll_law.
  - apply srl_law.
  - apply sra_law.
Qed.

Lemma icmp_law pred : pred_law (intpred_to_bvpred pred) (icmp_val pred).
Proof.
  destruct pred; [apply bv_eq_law|apply bv_ne_law|apply ugt_law|apply ugte_law|apply ult_law
    |apply ulte_law|apply sgt_law|apply sgte_law|apply slt_law|apply slte_law].
Qed.

Lemma int_shape_inv ty n w :
  int_shape ty = Some (n, w) -> ty = IntegerType w /\ n = 1 \/ ty = VectorType (IntegerType w) n.
Proof.
  destruct ty as [|?| | | |el ?| | | | | | |]; cbn; try done; [intros [= <- <-]; by left|].
  destruct el; try done. intros [= <- <-]. by right.
Qed.

Lemma lane_whole m v w : get_width v = 1 * w -> lane w (eval m v) 0 = eval m v.
Proof. intros W. apply lane_0. pose proof (eval_range m v) as R. by rewrite W, Z.mul_1_l in R. Qed.

Lemma vector_count n w : 0 < n -> 0 < w -> n * w < 2 ^ 32 -> as_u32 n = n.
Proof. intros. unfold as_u32. apply Z.mod_small. nia. Qed.

(** C28: Arithmetic.  A binary operation on integers or on vectors of integers
    records as its result a value of the operands' width of which each lane is
    the operation on the operands' lanes, for every one of LLVM's thirteen
    integer operations; floating-point operations are rejected before
    anything is recorded. *)
Theorem binop_correct bop s s1 s2 v0 v1 n w :
  type_eqb (operand_type (bop_operand0 bop)) (operand_type (bop_operand1 bop)) = true ->
  operand_to_bv (bop_operand0 bop) s = (Ok v0, s1) -> operand_to_bv (bop_operand1 bop) s1 = (Ok v1, s2) ->
  int_shape (operand_type (bop_operand0 bop)) = Some (n, w) ->
  0 < n -> 0 < w -> n * w < 2 ^ 32 -> get_width v0 = n * w -> get_width v1 = n * w ->
  match binop_val (bop_kind bop) with
  | Some f =>
      exists r, symex_binop bop s = record_bv_result (result (IBinaryOp bop) (bop_dest bop)) r s2 /\
        get_width r = n * w /\
        forall m i, 0 <= i < n -> lane w (eval m r) i = f w (lane w (eval m v0) i) (lane w (eval m v1) i)
  | None => exists e, symex_binop bop s = (Err e, s2)
  end.
Proof.
  intros Hty E0 E1 Hsh Hn Hw Hlt W0 W1. unfold symex_binop. rewrite Hty. cbn [negb].
  unfold mbind at 1 5, M_bind at 1 5. rewrite E0. unfold mbind at 1 4, M_bind at 1 4. rewrite E1.
  destruct (binop_val (bop_kind bop)) as [f|] eqn:Hf.
  - destruct (binop_law _ _ Hf) as (op & Hop & Hlaw). unfold mbind at 1, M_bind at 1, lift at 1. rewrite Hop.
    destruct (int_shape_inv _ _ _ Hsh) as [[-> ->]| ->].
    + destruct (Hlaw v0 v1 ltac:(congruence)) as [W E]. eexists. split; [reflexivity|]. split; [congruence|].
      intros m i Hi. replace i with 0 by lia. rewrite !lane_whole by congruence. rewrite E, W0. by rewrite Z.mul_1_l.
    + destruct (binary_lanes v0 v1 n w w op (f w)) as (r & Er & Wr & Hr); [done..| |].
      { intros a b Wa Wb. destruct (Hlaw a b ltac:(congruence)) as [W E]. by rewrite W, Wa in *. }
      exists r. rewrite (vector_count n w) by done. unfold mbind, M_bind, lift. by rewrite Er.
  - assert (exists e, binop_to_bvbinop (bop_kind bop) = Err e) as [e He] by (destruct (bop_kind bop); try done; by eexists).
    exists e. unfold mbind, M_bind, lift. by rewrite He.
Qed.

(** C29: Comparisons.  An [icmp] on integers, on pointers or on vectors of
    integers records one bit per lane, the comparison of the operands' lanes,
    signed or unsigned as the predicate says. *)
Theorem icmp_correct icmp s s1 s2 v0 v1 n w :
  operand_to_bv (icmp_operand0 icmp) s = (Ok v0, s1) -> operand_to_bv (icmp_operand1 icmp) s1 = (Ok v1, s2) ->
  type_eqb (operand_type (icmp_operand0 icmp)) (operand_type (icmp_operand1 icmp)) = true ->
  icmp_operands_ok (operand_type (icmp_operand0 icmp)) = true ->
  int_shape (instr_type (IICmp icmp)) = Some (n, 1) ->
  0 < n -> 0 < w -> n * w < 2 ^ 32 -> get_width v0 = n * w -> get_width v1 = n * w ->
  exists r, symex_icmp icmp s = record_bv_result (result (IICmp icmp) (icmp_dest icmp)) r s2 /\
    get_width r = n /\
    forall m i, 0 <= i < n ->
      Z.testbit (eval m r) i = icmp_val (icmp_predicate icmp) w (lane w (eval m v0) i) (lane w (eval m v1) i).
Proof.
  intros E0 E1 Hty Hok Hsh Hn Hw Hlt W0 W1. unfold symex_icmp.
  unfold mbind at 1, M_bind at 1. rewrite E0. unfold mbind at 1, M_bind at 1. rewrite E1. rewrite Hty, Hok. cbn [negb].
  pose proof (icmp_law (icmp_predicate icmp)) as Hlaw.
  assert (forall b, Z.testbit (Z.b2z b) 0 = b) as Hb2z by by intros [].
  destruct (int_shape_inv _ _ _ Hsh) as [[-> ->]| ->]; cbn [Z.eqb Pos.eqb].
  - destruct (Hlaw v0 v1 ltac:(congruence)) as [W E]. eexists. split; [reflexivity|]. split; [done|].
    intros m i Hi. replace i with 0 by lia. rewrite !lane_whole by done. by rewrite E, Hb2z, W0, Z.mul_1_l.
  - destruct (binary_lanes v0 v1 n w 1 (fun a b => cond_bv (intpred_to_bvpred (icmp_predicate icmp) a b) (bv_one 1) (bv_zero 1))
      (fun a b => Z.b2z (icmp_val (icmp_predicate icmp) w a b))) as (r & Er & Wr & Hr); [done..| |].
    { intros a b Wa Wb. destruct (Hlaw a b ltac:(congruence)) as [W E]. split; [by bv_widths|].
      intros m. bv_evals. rewrite E, b2z_eqb_1, Wa. by destruct (icmp_val _ _ _ _). }
    exists r. rewrite (vector_count n w) by done. unfold mbind, M_bind, lift. rewrite Er. split; [done|]. split; [lia|].
    intros m i Hi. specialize (Hr m i Hi). rewrite <- Hb2z, <- Hr, testbit_lane by lia. f_equal. lia.
Qed.

End arithmetic.

(** ** Segments of bits *)

Section segments.
Context `{Laws : BackendLaws}.

(** Appending [lo] low bits that are all [b], if there are any. *)
Lemma append_low (x c : BV) lo (b : bool) :
  0 <= lo -> (0 < lo -> get_width c = lo /\ forall m, eval m c = if b then ones_val lo else 0) ->
  let r := if lo =? 0 then x else bv_concat x c in
  get_width r = get_width x + lo /\
  forall m j, 0 <= j -> Z.testbit (eval m r) j = if j <? lo then b else Z.testbit (eval m x) (j - lo).
Proof.
  intros Hlo Hc. cbv zeta. destruct (Z.eqb_spec lo 0) as [->|].
  - split; [lia|]. intros m j Hj. rewrite (proj2 (Z.ltb_ge _ _)) by lia. by rewrite Z.sub_0_r.
  - destruct (Hc ltac:(lia)) as [Wc Ec]. split; [rewrite concat_width; lia|]. intros m j Hj.
    pose proof (eval_range m c) as R. rewrite Wc in R. rewrite concat_eval, Wc, testbit_concat by done.
    destruct (Z.ltb_spec j lo); [|done]. rewrite Ec. destruct b; [|apply Z.bits_0].
    rewrite testbit_ones_val by lia. by apply Z.ltb_lt.
Qed.

(** The mask that clears the bits from [lo] to [hi] of [w] bits. *)
Definition clear_mask (w lo hi k : Z) : BV :=
  if hi =? w - 1 then if lo =? 0 then bv_zero k else bv_concat (bv_zero k) (bv_ones lo)
  else
    let top := bv_concat (bv_ones (w - 1 - hi)) (bv_zero k) in
    if lo =? 0 then top else bv_concat top (bv_ones lo).

Lemma clear_mask_bits w lo hi :
  0 <= lo <= hi -> hi < w ->
  get_width (clear_mask w lo hi (hi - lo + 1)) = w /\
  forall m j, 0 <= j < w ->
    Z.testbit (eval m (clear_mask w lo hi (hi - lo + 1))) j = negb ((lo <=? j) && (j <=? hi)).
Proof.
  intros Hlo Hhi. unfold clear_mask.
  assert (forall x, let r := if lo =? 0 then x else bv_concat x (bv_ones lo) in
    get_width r = get_width x + lo /\
    forall m j, 0 <= j -> Z.testbit (eval m r) j = if j <? lo then true else Z.testbit (eval m x) (j - lo)) as Hlow.
  { intros x. apply append_low; [lia|]. intros Hp. destruct (bv_ones_law lo Hp). done. }
  destruct (bv_zero_law (hi - lo + 1) ltac:(lia)) as [Wz Ez]. destruct (Z.eqb_spec hi (w - 1)) as [->|].
  - destruct (Hlow (bv_zero (w - 1 - lo + 1))) as [W B]. split; [lia|]. intros m j Hj. rewrite B, Ez, Z.bits_0 by lia.
    destruct (Z.ltb_spec j lo), (Z.leb_spec lo j), (Z.leb_spec j (w - 1)); try lia; done.
  - cbv zeta. destruct (bv_ones_law (w - 1 - hi) ltac:(lia)) as [Wo Eo].
    destruct (Hlow (bv_concat (bv_ones (w - 1 - hi)) (bv_zero (hi - lo + 1)))) as [W B].
    rewrite concat_width, Wo, Wz in W. split; [lia|]. intros m j Hj. rewrite B by lia.
    destruct (Z.ltb_spec j lo), (Z.leb_spec lo j); try lia. pose proof (pow2_pos (hi - lo + 1) ltac:(lia)).
    rewrite concat_eval, Wz, Ez, testbit_concat, Eo, Z.bits_0 by lia.
    destruct (Z.ltb_spec (j - lo) (hi - lo + 1)), (Z.leb_spec j hi); try lia.
    rewrite testbit_ones_val by lia. by rewrite (proj2 (Z.ltb_lt _ _)) by lia.
Qed.

Lemma zero_extended a w : get_width a <= w ->
  exists r, zero_extend_to_bits a w = Ok r /\ get_width r = w /\ forall m, eval m r = eval m a.
Proof.
  intros Hw. unfold zero_extend_to_bits. destruct (Z.compare_spec (get_width a) w) as [<-|Hlt|]; [| |lia].
  - by exists a.
  - destruct (zext_law a (w - get_width a) ltac:(lia)) as [W E]. eexists. split; [reflexivity|]. split; [lia|done].
Qed.

Lemma overwrite_bits a d lo hi :
  0 <= lo <= hi -> hi < get_width a -> get_width d = hi - lo + 1 ->
  exists r, overwrite_bv_segment a d lo hi = Ok r /\ get_width r = get_width a /\
    forall m j, 0 <= j < get_width a ->
      Z.testbit (eval m r) j = if (lo <=? j) && (j <=? hi) then Z.testbit (eval m d) (j - lo) else Z.testbit (eval m a) j.
Proof.
  intros Hlo Hhi Wd. destruct (clear_mask_bits (get_width a) lo hi Hlo Hhi) as [Wm Bm].
  destruct (zero_extended d (get_width a - lo)) as (top & Et & Wt & Vt); [lia|].
  destruct (append_low top (bv_zero lo) lo false) as [Wo Bo]; [lia|by apply bv_zero_law|].
  eexists. split.
  { unfold overwrite_bv_segment. rewrite (proj2 (Z.leb_le hi _)), (proj2 (Z.leb_le lo hi)), (proj2 (Z.eqb_eq (get_width d) _)), Et by lia.
    rewrite Wd. reflexivity. }
  fold (clear_mask (get_width a) lo hi (hi - lo + 1)). split; [bv_widths; lia|].
  intros m j Hj. bv_evals. rewrite Z.lor_spec, Z.land_spec, Bm, Bo, Vt by lia.
  destruct (Z.leb_spec lo j), (Z.leb_spec j hi), (Z.ltb_spec j lo); try lia; cbn [andb negb].
  - by rewrite andb_false_r.
  - pose proof (eval_range m d) as R. rewrite Wd in R. rewrite (testbit_high (eval m d) (hi - lo + 1)) by lia.
    by rewrite andb_true_r, orb_false_r.
  - by rewrite andb_true_r, orb_false_r.
Qed.

End segments.

(** ** Vector elements and byte order *)

Section elements.
Context `{Laws : BackendLaws} `{MOps : !MemoryOps} `{L : LLVM} `{CF : ConstFuel}.

Lemma overwrite_lane v e n w k :
  0 < w -> 0 <= k < n -> get_width v = n * w -> get_width e = w ->
  exists r, overwrite_bv_segment v e (k * w) ((k + 1) * w - 1) = Ok r /\ get_width r = n * w /\
    forall m i, 0 <= i < n -> lane w (eval m r) i = if i =? k then eval m e else lane w (eval m v) i.
Proof.
  intros Hw Hk Wv We.
  destruct (overwrite_bits v e (k * w) ((k + 1) * w - 1)) as (r & Er & Wr & Br); [nia..|].
  exists r. split; [done|]. split; [congruence|]. intros m i Hi. rewrite Wv in Br.
  assert (forall j, 0 <= j < w -> Z.testbit (eval m r) (j + i * w) =
    if i =? k then Z.testbit (eval m e) j else Z.testbit (eval m v) (j + i * w)) as Hb.
  { intros j Hj. rewrite Br by nia. destruct (Z.eqb_spec i k) as [->|].
    - rewrite (proj2 (Z.leb_le _ _)), (proj2 (Z.leb_le _ _)) by lia. cbn. f_equal. lia.
    - destruct (Z.leb_spec (k * w) (j + i * w)), (Z.leb_spec (j + i * w) ((k + 1) * w - 1)); try done. nia. }
  destruct (Z.eqb_spec i k) as [->|].
  - pose proof (eval_range m e) as R. rewrite We in R. apply (bits_ext w); [lia|by apply lane_range|done|].
    intros j Hj. rewrite testbit_lane by lia. by apply Hb.
  - apply lane_ext; [lia..|]. done.
Qed.

(** [insertelement].  With a constant index inside the vector, the result
    is the vector with that one element replaced; with an index outside, the
    instruction is rejected and nothing is recorded. *)
Theorem insertelement_correct ie s s1 s2 v e bits k el n w :
  operand_to_bv (ie_vector ie) s = (Ok v, s1) -> operand_to_bv (ie_element ie) s1 = (Ok e, s2) ->
  ie_index ie = ConstantOperand (CInt bits k) -> operand_type (ie_vector ie) = VectorType el n -> size el = Ok w ->
  0 < n -> 0 < w -> n * w < 2 ^ 32 -> get_width v = n * w -> get_width e = w -> 0 <= k < 2 ^ 32 ->
  if k <? n then
    exists r, symex_insertelement ie s = record_bv_result (result (IInsertElement ie) (ie_dest ie)) r s2 /\
      get_width r = n * w /\
      forall m i, 0 <= i < n -> lane w (eval m r) i = if i =? k then eval m e else lane w (eval m v) i
  else exists msg, symex_insertelement ie s = (Err (MalformedInstruction msg), s2).
Proof.
  intros Ev Ee Hi Ht Hs Hn Hw Hlt Wv We Hk. remember (symex_insertelement ie s) as R eqn:HR.
  unfold symex_insertelement, mbind at 1, M_bind at 1 in HR. rewrite Ev in HR.
  unfold mbind at 1, M_bind at 1 in HR. rewrite Ee, Hi, Ht in HR.
  assert (as_u32 k = k) as Hk' by by apply Z.mod_small.
  rewrite Hk', (vector_count n w) in HR by done. destruct (Z.ltb_spec k n) as [Hkn|Hkn].
  - rewrite (proj2 (Z.leb_gt _ _)), Hs in HR by lia.
    assert (as_u32 w = w) as Hw' by (apply Z.mod_small; nia).
    destruct (overwrite_lane v e n w k) as (r & Er & Wr & Hr); [done|lia|done|done|]. exists r. split; [|done].
    rewrite HR. unfold mbind, M_bind, lift. rewrite Hw'. unfold u32_mul, u32_add, u32_sub.
    rewrite (proj2 (Z.ltb_lt (w * n) _)), (proj2 (Z.eqb_eq (get_width v) _)) by lia. cbn [assert_].
    rewrite (proj2 (Z.ltb_lt (k * w) _)), (proj2 (Z.ltb_lt (k + 1) _)) by nia.
    rewrite (proj2 (Z.ltb_lt ((k + 1) * w) _)), (proj2 (Z.leb_le 1 _)) by nia. by rewrite Er.
  - rewrite (proj2 (Z.leb_le _ _)) in HR by lia. by eexists.
Qed.

Lemma shuffle_element_ok v0 v1 n w idx :
  0 < w -> 0 <= idx < 2 * n -> n * w < 2 ^ 32 -> get_width v0 = n * w -> get_width v1 = n * w ->
  exists x, shuffle_element v0 v1 w n idx = Ok x /\ get_width x = w /\
    forall m, eval m x = if idx <? n then lane w (eval m v0) idx else lane w (eval m v1) (idx - n).
Proof.
  intros Hw Hi Hlt W0 W1. unfold shuffle_element.
  destruct (Z.ltb_spec idx n); [apply (element_ok v0 w n)|apply (element_ok v1 w n)]; (assumption || lia).
Qed.

Lemma mapO_exists {A B} (f : A -> outcome B) (Q : A -> B -> Prop) xs :
  Forall (fun x => exists y, f x = Ok y /\ Q x y) xs -> exists ys, mapO f xs = Ok ys /\ Forall2 Q xs ys.
Proof.
  induction 1 as [|x xs (y & E & HQ) _ (ys & E' & HQ')]; [by exists []|].
  exists (y :: ys). cbn. rewrite E. cbn. rewrite E'. split; [done|]. by constructor.
Qed.

(** C34: [shufflevector].  Each lane of the result is the lane of the two
    operands, taken one after the other, that the mask names. *)
Theorem shufflevector_correct sv s s1 s2 v0 v1 el n w mask :
  type_eqb (operand_type (sv_operand0 sv)) (operand_type (sv_operand1 sv)) = true ->
  operand_type (sv_operand0 sv) = VectorType el n -> size el = Ok w -> shuffle_mask (sv_mask sv) = Ok mask ->
  operand_to_bv (sv_operand0 sv) s = (Ok v0, s1) -> operand_to_bv (sv_operand1 sv) s1 = (Ok v1, s2) ->
  0 < n -> 0 < w -> n * w < 2 ^ 32 -> get_width v0 = n * w -> get_width v1 = n * w ->
  mask <> [] -> Forall (fun idx => 0 <= idx < 2 * n) mask ->
  exists r, symex_shufflevector sv s = record_bv_result (result (IShuffleVector sv) (sv_dest sv)) r s2 /\
    get_width r = Z.of_nat (length mask) * w /\
    forall m j idx, mask !! j = Some idx ->
      lane w (eval m r) (Z.of_nat j) = if idx <? n then lane w (eval m v0) idx else lane w (eval m v1) (idx - n).
Proof.
  intros Hty Ht Hs Hm E0 E1 Hn Hw Hlt W0 W1 Hne Hmask.
  destruct (mapO_exists (shuffle_element v0 v1 w n) (fun idx x => get_width x = w /\ forall m,
    eval m x = if idx <? n then lane w (eval m v0) idx else lane w (eval m v1) (idx - n)) mask) as (xs & Exs & Hxs).
  { eapply Forall_impl; [exact Hmask|]. intros idx Hidx. by apply shuffle_element_ok. }
  pose proof (Forall2_length _ _ _ Hxs) as Hlen.
  destruct (reduce_concat_lanes w xs Hw) as (r & Er & Wr & Hr); [by intros ->; destruct mask| |].
  { apply Forall_forall. intros x (j & Hj)%list_elem_of_lookup. by destruct (Forall2_lookup_r _ _ _ _ _ Hxs Hj) as (? & _ & ? & _). }
  exists r. rewrite Hlen. split; [|split; [done|]].
  - unfold symex_shufflevector. rewrite Hty, Ht, Hs, Hm. cbn [negb]. unfold mbind, M_bind, lift. rewrite E0, E1.
    rewrite (proj2 (Z.eqb_eq (get_width v0) _)) by congruence. cbn [negb].
    assert (as_u32 w = w) as -> by (apply Z.mod_small; nia). rewrite (vector_count n w) by done. unfold u32_mul.
    rewrite (proj2 (Z.ltb_lt (w * n) _)), (proj2 (Z.eqb_eq _ _)) by lia. cbn [assert_]. by rewrite Exs, Er.
  - intros m j idx Hj. destruct (Forall2_lookup_l _ _ _ _ _ Hxs Hj) as (x & Hx & _ & <-). by apply Hr.
Qed.

(** Concatenating scalars of one width, the first highest. *)
Lemma foldl_concat_reversed w (xs : list BV) : forall x k,
  0 < w -> 0 < k -> get_width x = k * w -> Forall (fun y => get_width y = w) xs ->
  let r := foldl bv_concat x xs in
  let len := Z.of_nat (length xs) in
  get_width r = (k + len) * w /\
  (forall m i, 0 <= i < k -> lane w (eval m r) (len + i) = lane w (eval m x) i) /\
  forall m i y, xs !! i = Some y -> lane w (eval m r) (len - 1 - Z.of_nat i) = eval m y.
Proof.
  induction xs as [|y xs IH]; intros x k Hw Hk Wx Hxs; cbn [foldl].
  { split; [cbn; lia|]. by split. }
  apply Forall_cons in Hxs as [Wy Hxs].
  assert (get_width (bv_concat x y) = (k + 1) * w) as Wc by (rewrite concat_width; lia).
  destruct (IH (bv_concat x y) (k + 1) Hw ltac:(lia) Wc Hxs) as (W & Hhigh & Hlow). cbn [length].
  assert (forall m, 0 <= eval m y < 2 ^ (1 * w)) as Ry by (intros m; rewrite Z.mul_1_l, <- Wy; apply eval_range).
  assert (forall m, eval m (bv_concat x y) = concat_val (eval m x) (1 * w) (eval m y)) as Ec
    by (intros m; by rewrite concat_eval, Wy, Z.mul_1_l).
  split; [rewrite W; lia|]. split.
  - intros m i Hi. replace (Z.of_nat (S (length xs)) + i) with (Z.of_nat (length xs) + (i + 1)) by lia.
    rewrite Hhigh, Ec, lane_concat_high by (done || lia). f_equal. lia.
  - intros m [|i] z Hz; cbn in Hz.
    + injection Hz as <-. replace (Z.of_nat (S (length xs)) - 1 - Z.of_nat 0) with (Z.of_nat (length xs) + 0) by lia.
      rewrite Hhigh, Ec, lane_concat_low by (done || lia). apply lane_0. by rewrite <- (Z.mul_1_l w).
    + rewrite <- (Hlow m i z Hz). f_equal. lia.
Qed.

Lemma bswap_bytes_ok a k :
  (0 < k)%nat -> get_width a = 8 * Z.of_nat k ->
  exists r, bswap_bytes a k = Ok r /\ get_width r = 8 * Z.of_nat k /\
    forall m i, 0 <= i < Z.of_nat k -> lane 8 (eval m r) i = lane 8 (eval m a) (Z.of_nat k - 1 - i).
Proof.
  intros Hk Wa. unfold bswap_bytes.
  set (byte i := slice a (8 * Z.of_nat i + 7) (8 * Z.of_nat i)).
  assert (forall i, (i < k)%nat -> get_width (byte i) = 8 /\ forall m, eval m (byte i) = lane 8 (eval m a) (Z.of_nat i)) as Hb.
  { intros i Hi. destruct (slice_law a (8 * Z.of_nat i + 7) (8 * Z.of_nat i)) as [W E]; [lia..|].
    split; [unfold byte; rewrite W; lia|]. intros m. unfold byte, lane. rewrite E. f_equal; lia. }
  clearbody byte. destruct k as [|k]; [lia|]. cbn [seq fmap list_fmap reduceO].
  destruct (Hb 0%nat) as [W0 E0]; [lia|].
  destruct (foldl_concat_reversed 8 (byte <$> seq 1 k) (byte 0%nat) 1) as (W & H1 & H2); [lia..| |].
  { apply Forall_fmap, Forall_forall. intros i Hi%elem_of_seq. cbn. apply Hb. lia. }
  rewrite length_fmap, length_seq in W, H1, H2. eexists. split; [reflexivity|]. split; [rewrite W; lia|].
  intros m i Hi. destruct (decide (i = Z.of_nat k)) as [->|].
  - replace (Z.of_nat k) with (Z.of_nat k + 0) at 1 by lia. rewrite H1, lane_0, E0 by (try lia; rewrite <- W0; apply eval_range).
    f_equal. lia.
  - set (j := (k - 1 - Z.to_nat i)%nat). specialize (H2 m j (byte (S j))).
    replace (Z.of_nat k - 1 - Z.of_nat j) with i in H2 by lia. rewrite H2, (proj2 (Hb (S j) ltac:(lia))).
    + f_equal. lia.
    + rewrite list_lookup_fmap, lookup_seq_lt by lia. done.
Qed.

(** [llvm.bswap].  For the four widths the hook supports it returns the
    argument with its bytes in the opposite order. *)
Theorem bswap_correct call s s' a arg bits :
  get_arguments call = [arg] -> operand_type arg = IntegerType bits ->
  type_eqb (operand_type arg) (call_type call) = true ->
  operand_to_bv arg s = (Ok a, s') -> get_width a = bits -> bits ∈ [16; 32; 48; 64] ->
  exists r, symex_bswap call s = (Ok (Return r), s') /\ get_width r = bits /\
    forall m i, 0 <= i < bits / 8 -> lane 8 (eval m r) i = lane 8 (eval m a) (bits / 8 - 1 - i).
Proof.
  intros Ha Ht Hr Eo Wa Hin.
  assert (exists k, (0 < k)%nat /\ bits = 8 * Z.of_nat k /\ bits / 8 = Z.of_nat k /\
    ((bits =? 16) || (bits =? 32) || (bits =? 48) || (bits =? 64)) = true) as (k & Hk & Hbits & Hdiv & Hok).
  { repeat (apply elem_of_cons in Hin as [->|Hin]); [exists 2%nat|exists 4%nat|exists 6%nat|exists 8%nat|by apply elem_of_nil in Hin];
      (split; [lia|done]). }
  destruct (bswap_bytes_ok a k Hk ltac:(congruence)) as (r & Er & Wr & Hl). exists r. rewrite Hdiv.
  split; [|split; [congruence|done]]. unfold symex_bswap, assert_args, Hooks.arg. rewrite Ha. cbn -[operand_to_bv symex_bswap bswap_bytes].
  unfold mbind, M_bind, lift, fmap, M_fmap. rewrite Hr. cbn [negb]. rewrite Eo, Ht, Hok, (proj2 (Z.eqb_eq _ _)) by done.
  cbn [assert_]. by rewrite Hdiv, Nat2Z.id, Er.
Qed.

End elements.
