(* ===== verification/DataTheorems.v ===== *)
(** * DataTheorems: conversions, selection, aggregates and addresses (src/src/symex.rs)

    The instructions that move data about: [zext], [sext] and [trunc],
    [select], [extractvalue] and [insertvalue], [getelementptr]. *)
From S2P Require Import Prelude Bits Backend SolverUtils MemorySpec LLVMIR Project Layout VarMap GlobalAllocations Config State Operands HookUtils SymexInstr StateTheorems InstrTheorems.

Open Scope Z_scope.

(** ** Conversions of integers *)

Section conversions.
Context `{Laws : BackendLaws} `{MOps : !MemoryOps} `{L : LLVM} `{CF : ConstFuel}.

Lemma size_integer w : size (IntegerType w) = Ok w.
Proof. unfold size. by destruct (length struct_types). Qed.

Inductive Conversion := ZExt | SExt | Trunc.

Definition conversion_instr (c : Conversion) : UnaryOp -> Instruction :=
  match c with ZExt => IZExt | SExt => ISExt | Trunc => ITrunc end.
Definition symex_conversion (c : Conversion) : UnaryOp -> M State unit :=
  match c with ZExt => symex_zext | SExt => symex_sext | Trunc => symex_trunc end.

(** What the conversions compute from [w] to [w'] bits. *)
Definition conversion_val (c : Conversion) (w w' a : Z) : Z :=
  match c with
  | ZExt => a
  | SExt => sval w a mod 2 ^ w'
  | Trunc => a mod 2 ^ w'
  end.
(** An extension makes the value wider, a truncation narrower. *)
Definition conversion_ok (c : Conversion) (w w' : Z) : Prop := if c is Trunc then w' < w else w < w'.

(** The operand and the result are integers, or vectors of as many integers. *)
Inductive conversion_types (w w' : Z) : Z -> Type_ -> Type_ -> Prop :=
| convert_integer : conversion_types w w' 1 (IntegerType w) (IntegerType w')
| convert_vector n : conversion_types w w' n (VectorType (IntegerType w) n) (VectorType (IntegerType w') n).

(** The operation of the code on a scalar. *)
Definition convert (c : Conversion) (w w' : Z) (a : BV) : outcome BV :=
  match c with
  | ZExt => d ← u32_sub w' w; mret (zext a d)
  | SExt => d ← u32_sub w' w; mret (sext a d)
  | Trunc => hi ← u32_sub w' 1; mret (slice a hi 0)
  end.

Lemma convert_ok c w w' a :
  0 < w -> 0 < w' -> conversion_ok c w w' -> get_width a = w ->
  exists x, convert c w w' a = Ok x /\ get_width x = w' /\ forall m, eval m x = conversion_val c w w' (eval m a).
Proof.
  intros Hw Hw' Hc Wa. destruct c; cbn in *; unfold u32_sub; rewrite (proj2 (Z.leb_le _ _)) by lia; cbn; eexists;
    (split; [reflexivity|]).
  - split; [bv_widths; lia|]. intros m. by rewrite zext_eval by lia.
  - split; [bv_widths; lia|]. intros m. rewrite sext_eval by lia. by rewrite Wa, Zplus_minus.
  - split; [bv_widths; lia|]. intros m. rewrite slice_eval by lia. unfold slice_val.
    by rewrite Z.div_1_r, Z.sub_0_r, Z.sub_add.
Qed.

(** C30: conversions.  [zext], [sext] and [trunc] on integers or on vectors of
    integers record as their result a value of the destination's width of which
    each lane is the zero extension, the sign extension or the remainder of the
    operand's lane. *)
Theorem conversion_correct c z s s1 v n w w' :
  operand_to_bv (un_operand z) s = (Ok v, s1) ->
  conversion_types w w' n (operand_type (un_operand z)) (instr_type (conversion_instr c z)) ->
  0 < n -> 0 < w -> 0 < w' -> conversion_ok c w w' -> n * w < 2 ^ 32 -> n * w' < 2 ^ 32 -> get_width v = n * w ->
  exists r, symex_conversion c z s = record_bv_result (result (conversion_instr c z) (un_dest z)) r s1 /\
    get_width r = n * w' /\
    forall m i, 0 <= i < n -> lane w' (eval m r) i = conversion_val c w w' (lane w (eval m v) i).
Proof.
  intros Ev Hty Hn Hw Hw' Hc Hlt Hlt' Wv.
  assert (as_u32 w = w /\ as_u32 w' = w') as [Ew Ew'] by (split; apply Z.mod_small; nia).
  pose proof (vector_count n w Hn Hw Hlt) as En. remember (operand_type (un_operand z)) as ty eqn:Et.
  remember (instr_type (conversion_instr c z)) as ty' eqn:Et'. destruct Hty as [|n].
  - destruct (convert_ok c w w' v) as (r & Er & Wr & Hr); [done..|by rewrite Wv; lia|].
    exists r. split; [|split; [lia|]].
    + destruct c; cbn in *; unfold symex_zext, symex_sext, symex_trunc; rewrite <- Et, <- Et', (bind_run _ _ _ _ _ Ev), size_integer;
        unfold mbind, M_bind, lift; rewrite Ew'; apply bind_ok in Er as (d & -> & [= <-]); reflexivity.
    + intros m i Hi. replace i with 0 by lia. rewrite !lane_whole by lia. apply Hr.
  - destruct (unary_lanes v n w w' (convert c w w') (conversion_val c w w')) as (r & Er & Wr & Hr); [done..| |].
    { intros a Wa. by apply convert_ok. }
    exists r. split; [|done]. destruct c; cbn in *; unfold symex_zext, symex_sext, symex_trunc;
      rewrite <- Et, <- Et', (bind_run _ _ _ _ _ Ev); unfold out_element_size; rewrite Z.eqb_refl, ?size_integer;
      cbn [negb fmap outcome_fmap]; unfold mbind at 1, M_bind at 1, lift at 1; rewrite ?size_integer, ?Ew', ?Ew, En;
      unfold convert in Er; unfold mbind at 1, M_bind at 1, lift at 1.
    all: try (unfold mbind at 1, M_bind at 1, lift at 1); by rewrite Er.
Qed.

End conversions.

(** ** Selection *)

Section selection.
Context `{Laws : BackendLaws} `{MOps : !MemoryOps} `{L : LLVM} `{CF : ConstFuel}.

(** A condition selects between whole values, a vector of conditions between
    the elements of vectors. *)
Inductive select_types : Z -> Z -> Type_ -> Type_ -> Prop :=
| select_whole w ty : select_types 1 w (IntegerType 1) ty
| select_elements n w el : size el = Ok w -> select_types n w (VectorType (IntegerType 1) n) (VectorType el n).

Lemma slice_bit c n i : 0 <= i < n -> get_width c = n ->
  get_width (slice c i i) = 1 /\ forall m, eval m (slice c i i) = Z.b2z (Z.testbit (eval m c) i).
Proof.
  intros Hi Wc. split; [bv_widths; lia|]. intros m. rewrite slice_eval by lia. unfold slice_val.
  replace (i - i + 1) with 1 by lia. by rewrite <- Z.shiftr_div_pow2, <- Z.bit0_mod, Z.shiftr_spec, Z.add_0_l by lia.
Qed.

(** C40: [select] of two operands of one type.  The result has, in every lane, the
    value of the first operand where the condition's bit is set, of the second
    where it is not; a condition that is not a vector has one bit, and the whole
    value is its lane. *)
Theorem select_correct sel s s1 s2 s3 c a b n w :
  let cty := operand_type (select_condition sel) in let ty := operand_type (select_true_value sel) in
  type_eqb ty (operand_type (select_false_value sel)) = true -> select_types n w cty ty ->
  operand_to_bv (select_condition sel) s = (Ok c, s1) -> operand_to_bv (select_true_value sel) s1 = (Ok a, s2) ->
  operand_to_bv (select_false_value sel) s2 = (Ok b, s3) ->
  0 < n -> 0 < w -> n * w < 2 ^ 32 -> get_width c = n -> get_width a = n * w -> get_width b = n * w ->
  exists r, symex_select sel s = record_bv_result (result (ISelect sel) (select_dest sel)) r s3 /\
    get_width r = n * w /\
    forall m i, 0 <= i < n ->
      lane w (eval m r) i = if Z.testbit (eval m c) i then lane w (eval m a) i else lane w (eval m b) i.
Proof.
  intros cty ty Hty Hsh Ec Ea Eb Hn Hw Hlt Wc Wa Wb. unfold symex_select. fold ty. rewrite Hty. cbn [negb]. fold cty.
  rename cty into cty', ty into ty'. generalize (eq_refl : ty' = operand_type (select_true_value sel)).
  destruct Hsh as [w ty|n w el Hel]; intros Ety.
  - change (1 =? 1) with true. cbv iota. rewrite (bind_run _ _ _ _ _ Ec), (bind_run _ _ _ _ _ Ea), (bind_run _ _ _ _ _ Eb).
    destruct (cond_bv_law c a b) as [W E]; [done|congruence|]. eexists. split; [reflexivity|]. split; [congruence|].
    intros m i Hi. replace i with 0 by lia. rewrite !lane_whole, E by congruence.
    pose proof (eval_range m c) as R. rewrite Wc in R. assert (eval m c = 0 \/ eval m c = 1) as [-> | ->] by lia; done.
  - cbn [Z.eqb Pos.eqb]. unfold mbind at 1, M_bind at 1, mret at 1, M_ret at 1. rewrite Z.eqb_refl. cbn [negb]. rewrite Hel.
    cbn [fmap outcome_fmap]. unfold mbind at 1, M_bind at 1, lift at 1.
    rewrite (bind_run _ _ _ _ _ Ec), (bind_run _ _ _ _ _ Ea), (bind_run _ _ _ _ _ Eb).
    assert (as_u32 w = w) as -> by (apply Z.mod_small; nia). rewrite (vector_count n w) by done.
    destruct (finish_lanes w n (fun idx => t ← element a w idx; f ← element b w idx; mret (cond_bv (slice c idx idx) t f))
      (fun m i => if Z.testbit (eval m c) i then lane w (eval m a) i else lane w (eval m b) i)
      "Select with vectors of 0 elements") as (r & Er & Wr & Hr); [done|done| |].
    { intros i Hi. destruct (element_ok a w n i) as (x & -> & Wx & Ex); [done..|].
      destruct (element_ok b w n i) as (y & -> & Wy & Ey); [done..|]. destruct (slice_bit c n i Hi Wc) as [Wl El].
      destruct (cond_bv_law (slice c i i) x y) as [W E]; [done|congruence|]. eexists. split; [reflexivity|].
      split; [congruence|]. intros m. rewrite E, El, Ex, Ey. by destruct (Z.testbit (eval m c) i). }
    exists r. split; [|done]. unfold mbind, M_bind, lift, outcome_bind in *.
    destruct (mapO _ (range n)) as [xs|e|p|]; try discriminate Er. by rewrite Er.
Qed.

End selection.

(** ** Elements of aggregates *)

Section aggregates.
Context `{Laws : BackendLaws} `{MOps : !MemoryOps} `{L : LLVM} `{CF : ConstFuel}.
Context (Hstructs : Forall unsigned_ty struct_types).
Implicit Types (ty el : Type_).

(** The element of an aggregate that a list of indices leads to, and its
    offset in bytes. *)
Inductive selects : list Z -> Type_ -> Z -> Type_ -> Prop :=
| selects_here ty : selects [] ty 0 ty
| selects_in i idx ty off el off' el' :
    0 <= i -> index_in_range ty i -> get_offset_constant_index ty i = Ok (off, el) ->
    selects idx el off' el' -> selects (i :: idx) ty (off + off') el'.

Lemma element_unsigned ty i off el : unsigned_ty ty -> get_offset_constant_index ty i = Ok (off, el) -> unsigned_ty el.
Proof.
  intros U Ho%constant_index_ok. destruct (struct_elements ty) as [tys|] eqn:E.
  - apply struct_offset_ok in Ho as [Hl _]. pose proof (unsigned_elements Hstructs _ _ U E) as Ut.
    rewrite Forall_forall in Ut. apply Ut. by eapply list_elem_of_lookup_2.
  - destruct Ho as ([->|(n & [-> | ->])] & _); cbn in U; tauto.
Qed.

Lemma sum_sizes_element (acc : Z) (tys : list Type_) t k el :
  sum_sizes acc tys = Ok t -> tys !! k = Some el -> exists s, size el = Ok s.
Proof.
  revert acc k. induction tys as [|ty tys IH]; intros acc k; cbn; [done|].
  intros (a & (y & Ey & _)%bind_ok & E)%bind_ok. destruct k as [|k]; cbn; [intros [= <-]; by exists y|by apply (IH a)].
Qed.

Lemma element_size ty i off el total :
  size ty = Ok total -> get_offset_constant_index ty i = Ok (off, el) -> exists s, size el = Ok s.
Proof.
  intros Ht Ho%constant_index_ok. destruct (struct_elements ty) as [tys|] eqn:E.
  - apply struct_offset_ok in Ho as [Hl _]. eapply sum_sizes_element; [|exact Hl]. by eapply size_elements.
  - destruct Ho as (_ & s & Hs & _). by exists s.
Qed.

Lemma const_indices_cons i idx ty off el :
  get_offset_constant_index ty i = Ok (off, el) ->
  get_offset_recursive_const_indices (i :: idx) ty =
    ('(val, s) ← get_offset_recursive_const_indices idx el; v ← u64_add val off; mret (v, s)).
Proof.
  intros Ho. destruct ty; try discriminate Ho; cbn [get_offset_recursive_const_indices]; [by rewrite Ho..|].
  destruct ty as [r|]; [|discriminate Ho]. cbn in Ho |- *. destruct (upgrade r) as [t|]; [|discriminate Ho]. cbn in Ho |- *.
  destruct t; try discriminate Ho. cbn. by rewrite Ho.
Qed.

(** The element lies within the aggregate, so that its offset is computed
    without overflow. *)
Lemma selects_ok idx ty off el sz total :
  selects idx ty off el -> unsigned_ty ty -> size el = Ok sz -> size ty = Ok total -> total < 2 ^ 64 ->
  get_offset_recursive_const_indices idx ty = Ok (off, sz) /\ 0 <= off /\ 8 * off + sz <= total.
Proof.
  intros Hs. revert total. induction Hs as [ty|i idx ty off el off' el' Hi Hr Ho Hs IH]; intros total U Hsz Ht Hlt.
  { rewrite Ht in Hsz. injection Hsz as ->. cbn. rewrite Ht. split; [done|lia]. }
  pose proof (element_unsigned _ _ _ _ U Ho) as Ue.
  destruct (element_size _ _ _ _ _ Ht Ho) as [s1 Hs1]. destruct (offset_within ty i off el s1 total) as [H1 H2]; [done..|].
  assert (0 <= s1) as Hs1p by by eapply size_nonneg.
  destruct (IH s1 Ue Hsz Hs1) as (Ei & H3 & H4); [lia|].
  assert (0 <= sz) as Hnn. { eapply size_nonneg; [done| |exact Hsz]. clear -Hs Ue Hstructs. induction Hs; [done|]. apply IHHs. by eapply element_unsigned. }
  rewrite (const_indices_cons _ _ _ _ _ Ho), Ei. cbn. unfold u64_add, u64_max. rewrite (proj2 (Z.leb_le _ _)) by lia.
  cbn. split; [by rewrite Z.add_comm|lia].
Qed.

(** The operand is an aggregate of a known size below 2^32 bits. *)
Definition aggregate_ok ty (a : BV) (total : Z) : Prop :=
  unsigned_ty ty /\ size ty = Ok total /\ total < 2 ^ 32 /\ get_width a = total.

(** C32: [extractvalue].  For indices that lead to an element inside the
    aggregate, through any nesting of structs, named structs and arrays, the
    assertion that it lies within the value passes, and the result is exactly
    the element's bits. *)
Theorem extractvalue_correct ev s s1 a total off el sz :
  operand_to_bv (ev_aggregate ev) s = (Ok a, s1) -> aggregate_ok (operand_type (ev_aggregate ev)) a total ->
  selects (ev_indices ev) (operand_type (ev_aggregate ev)) off el -> size el = Ok sz -> 0 < sz ->
  exists r, symex_extractvalue ev s = record_bv_result (result (IExtractValue ev) (ev_dest ev)) r s1 /\
    get_width r = sz /\ forall m j, 0 <= j < sz -> Z.testbit (eval m r) j = Z.testbit (eval m a) (j + 8 * off).
Proof.
  intros Ea (U & Ht & Hlt & Wa) Hs Hsz Hpos. destruct (selects_ok _ _ _ _ _ _ Hs U Hsz Ht) as (Eo & H1 & H2); [lia|].
  assert (symex_extractvalue ev s = record_bv_result (result (IExtractValue ev) (ev_dest ev))
            (slice a (off * 8 + sz - 1) (off * 8)) s1) as ->.
  { unfold symex_extractvalue. rewrite (bind_run _ _ _ _ _ Ea), Eo. unfold mbind, M_bind, lift, u64_mul, u64_add, u64_sub, u64_max, as_u32, assert_.
    rewrite (proj2 (Z.leb_le (off * 8) _)), (proj2 (Z.leb_le (off * 8 + sz) _)) by lia.
    rewrite !(Z.mod_small _ (2 ^ 32)), (proj2 (Z.leb_le (off * 8 + sz) (get_width a))), (proj2 (Z.leb_le 1 _)) by lia. cbn.
    by rewrite !(Z.mod_small _ (2 ^ 32)) by lia. }
  destruct (slice_law a (off * 8 + sz - 1) (off * 8)) as [W E]; [lia..|]. eexists. split; [reflexivity|]. split; [lia|].
  intros m j Hj. rewrite E, testbit_slice by lia. rewrite (proj2 (Z.leb_le _ _)) by lia. cbn. f_equal. lia.
Qed.

(** [insertvalue].  The result is the aggregate with the bits of the
    element that the indices lead to replaced by those of the operand, and
    every other bit as it was. *)
Theorem insertvalue_correct iv s s1 s2 a e total off el sz :
  operand_to_bv (iv_aggregate iv) s = (Ok a, s1) -> operand_to_bv (iv_element iv) s1 = (Ok e, s2) ->
  aggregate_ok (operand_type (iv_aggregate iv)) a total ->
  selects (iv_indices iv) (operand_type (iv_aggregate iv)) off el -> size el = Ok sz -> 0 < sz -> get_width e = sz ->
  exists r, symex_insertvalue iv s = record_bv_result (result (IInsertValue iv) (iv_dest iv)) r s2 /\
    get_width r = total /\
    forall m j, 0 <= j < total -> Z.testbit (eval m r) j =
      if (8 * off <=? j) && (j <? 8 * off + sz) then Z.testbit (eval m e) (j - 8 * off) else Z.testbit (eval m a) j.
Proof.
  intros Ea Ee (U & Ht & Hlt & Wa) Hs Hsz Hpos We. destruct (selects_ok _ _ _ _ _ _ Hs U Hsz Ht) as (Eo & H1 & H2); [lia|].
  destruct (overwrite_bits a e (off * 8) (off * 8 + sz - 1)) as (r & Er & Wr & Hr); [lia..|].
  assert (symex_insertvalue iv s = record_bv_result (result (IInsertValue iv) (iv_dest iv)) r s2) as ->.
  { unfold symex_insertvalue. rewrite (bind_run _ _ _ _ _ Ea), (bind_run _ _ _ _ _ Ee), Eo.
    unfold mbind, M_bind, lift, u64_mul, u64_add, u64_sub, u64_max, as_u32, assert_.
    rewrite (proj2 (Z.leb_le (off * 8) _)), (proj2 (Z.leb_le (off * 8 + sz) _)), (proj2 (Z.leb_le 1 _)) by lia.
    rewrite !(Z.mod_small _ (2 ^ 32)), (proj2 (Z.leb_le (off * 8 + sz - 1) (get_width a))) by lia. by rewrite Er. }
  exists r. split; [done|]. split; [lia|]. intros m j Hj. rewrite Hr by lia.
  replace (8 * off) with (off * 8) by lia. destruct (Z.leb_spec j (off * 8 + sz - 1)), (Z.ltb_spec j (off * 8 + sz)); try lia; done.
Qed.

End aggregates.

(** ** Addresses *)

Section addresses.
Context `{Laws : BackendLaws} `{MOps : !MemoryOps} `{L : LLVM} `{CF : ConstFuel}.

(** What a pointer, an array or a vector consists of. *)
Definition sequence_element (ty : Type_) : option Type_ :=
  match ty with
  | PointerType el | ArrayType el _ | VectorType el _ => Some el
  | _ => None
  end.

(** The byte offset that the operands of a [getelementptr] describe: for a
    pointer or an array a multiple of the element's size, with an index that is
    signed and may be symbolic; for a struct, named or not, the offset of the
    field.  The states are those between which the operands are evaluated; [vs]
    are the indices into pointers and arrays. *)
Inductive offset_of (bits : Z) : list Operand -> Type_ -> State -> State -> list BV -> (Model -> Z) -> Prop :=
| offset_here ty s : offset_of bits [] ty s s [] (fun _ => 0)
| offset_index op ops ty el s s1 s2 v vs sz f :
    sequence_element ty = Some el -> size el = Ok sz -> sz mod 8 = 0 -> 0 <= sz -> sz / 8 < 2 ^ 64 -> sz / 8 < 2 ^ bits ->
    operand_to_bv op s = (Ok v, s1) -> get_width v <= bits ->
    offset_of bits ops el s1 s2 vs f ->
    offset_of bits (op :: ops) ty s s2 (v :: vs) (fun m => sval (get_width v) (eval m v) * (sz / 8) + f m)
| offset_field w i ops ty el s s2 off vs f :
    is_Some (struct_elements ty) -> get_offset_constant_index ty i = Ok (off, el) -> 0 <= off < 2 ^ 32 -> off < 2 ^ bits ->
    offset_of bits ops el s s2 vs f ->
    offset_of bits (ConstantOperand (CInt w i) :: ops) ty s s2 vs (fun m => off + f m).

(** The code extends an index that is narrower than the pointer with zeros,
    which is right if it is not negative. *)
Definition index_extends (bits : Z) (m : Model) (v : BV) : Prop :=
  get_width v = bits \/ 0 <= sval (get_width v) (eval m v).

Lemma index_value bits m v : index_extends bits m v ->
  eval m v mod 2 ^ bits = sval (get_width v) (eval m v) mod 2 ^ bits.
Proof.
  intros [<-|Hs].
  - pose proof (width_pos v). unfold sval. case_match; [done|]. rewrite Zminus_mod, Z_mod_same_full, Z.sub_0_r. symmetry. by apply Zmod_mod.
  - unfold sval in *. case_match; [done|]. pose proof (eval_range m v). lia.
Qed.

Lemma add_offset bits a b (m : Model) x y :
  get_width a = bits -> get_width b = bits ->
  eval m a = x mod 2 ^ bits -> eval m b = y mod 2 ^ bits -> eval m (bv_add a b) = (x + y) mod 2 ^ bits.
Proof.
  intros Wa Wb Ea Eb. destruct (bv_add_law a b) as [_ E]; [congruence|]. by rewrite E, Ea, Eb, Wa, <- Zplus_mod.
Qed.
Lemma add_width (a b : BV) : get_width a = get_width b -> get_width (bv_add a b) = get_width a.
Proof. apply bv_add_law. Qed.

Lemma gep_offset_correct bits ops ty s s' vs f :
  0 < bits -> offset_of bits ops ty s s' vs f ->
  exists r, gep_offset_recursive ops ty bits s = (Ok r, s') /\ get_width r = bits /\
    forall m, Forall (index_extends bits m) vs -> eval m r = f m mod 2 ^ bits.
Proof.
  intros Hb Ho. induction Ho as [ty s|op ops ty el s s1 s2 v vs sz f Hel Hsz Hmod Hpos H64 Hlt Ev Wv Ho IH|w i ops ty el s s2 off vs f Hst Hoff H32 Hlt Ho IH].
  - destruct (bv_zero_law bits Hb) as [W E]. eexists. split; [reflexivity|]. split; [done|]. intros m _. by rewrite E, Z.mod_0_l by lia.
  - destruct IH as (r & Er & Wr & Hr). destruct (zero_extended v bits Wv) as (x & Ex & Wx & Vx).
    assert (get_offset_bv_index ty x = Ok (bv_mul x (from_u64 (sz / 8) (get_width x)), el)) as Hg.
    { assert (get_offset_bv_index (PointerType el) x = Ok (bv_mul x (from_u64 (sz / 8) (get_width x)), el)) as Hg
        by (cbn; rewrite Hsz; cbn; rewrite Hmod; done). destruct ty; cbn in Hel; try done; by injection Hel as ->. }
    destruct (from_u64_law (sz / 8) bits Hb) as [Wc Ec]; [split; [apply Z.div_pos; lia|lia]|done|].
    destruct (bv_mul_law x (from_u64 (sz / 8) bits)) as [Wm Em]; [congruence|].
    exists (bv_add r (bv_mul x (from_u64 (sz / 8) bits))). split; [|split; [rewrite add_width; congruence|]].
    + assert (gep_offset_recursive (op :: ops) ty bits s =
        (i ← operand_to_bv op; i ← lift (zero_extend_to_bits i bits);
         '(offset, nested_ty) ← lift (get_offset_bv_index ty i);
         bv ← gep_offset_recursive ops nested_ty bits; mret (bv_add bv offset)) s) as -> by by destruct ty.
      rewrite (bind_run _ _ _ _ _ Ev), Ex. unfold lift. rewrite (bind_run _ _ s1 x s1 eq_refl), Hg, (bind_run _ _ s1 _ s1 eq_refl).
      by rewrite Wx, (bind_run _ _ _ _ _ Er).
    + intros m [Hv Hvs]%Forall_cons. rewrite Z.add_comm. apply add_offset; [done|congruence|by apply Hr|].
      by rewrite Em, Ec, Vx, Wx, <- Zmult_mod_idemp_l, (index_value bits m v Hv), Zmult_mod_idemp_l.
  - destruct IH as (r & Er & Wr & Hr). destruct (from_u32_law off bits Hb) as [Wc Ec]; [lia|done|].
    exists (bv_add r (from_u32 off bits)). split; [|split; [rewrite add_width; congruence|]].
    2: { intros m Hvs. rewrite Z.add_comm. apply add_offset; [done|done|by apply Hr|]. rewrite Ec. symmetry. apply Z.mod_small; lia. }
    destruct ty; try (by destruct Hst); cbn [gep_offset_recursive operand_struct_index].
    + unfold lift. rewrite (bind_run _ _ s i s eq_refl), Hoff, (bind_run _ _ s _ s eq_refl), (bind_run _ _ _ _ _ Er).
      unfold as_u32. by rewrite Z.mod_small.
    + destruct Hst as [tys Hst]. destruct ty as [n|]; [|done]. cbn in Hst. destruct (upgrade n) as [t|] eqn:Eu; [|done].
      destruct t as [| | | | | | |tys' p| | | | |]; try done. cbn in Hoff. rewrite Eu in Hoff. cbn in Hoff.
      unfold lift. cbn [ok_or]. rewrite (bind_run _ _ s n s eq_refl), Eu. cbn [expect]. rewrite (bind_run _ _ s (StructType tys' p) s eq_refl).
      rewrite (bind_run _ _ s i s eq_refl). cbn [get_offset_constant_index].
      rewrite Hoff, (bind_run _ _ s _ s eq_refl), (bind_run _ _ _ _ _ Er). unfold as_u32. by rewrite Z.mod_small.
Qed.

(** C31: [getelementptr].  The address is the base plus the offset that the
    indices describe, modulo the pointer width: multiples of the element size
    for pointers and arrays (the index is signed and may be symbolic), field
    offsets for structs, through any nesting.  This is for the models in which
    every index into a pointer or an array has the width of a pointer or is not
    negative: the code extends a narrower one with zeros
    ([negative_index_is_extended_with_zeros] of Findings.v). *)
Theorem gep_correct gep s s1 s2 base ty vs f :
  instr_type (IGetElementPtr gep) = PointerType ty ->
  operand_to_bv (gep_address gep) s = (Ok base, s1) ->
  offset_of (get_width base) (gep_indices gep) (operand_type (gep_address gep)) s1 s2 vs f ->
  exists r, symex_gep gep s = record_bv_result (result (IGetElementPtr gep) (gep_dest gep)) r s2 /\
    get_width r = get_width base /\
    forall m, Forall (index_extends (get_width base) m) vs -> eval m r = (eval m base + f m) mod 2 ^ get_width base.
Proof.
  intros Hty Eb Ho. pose proof (width_pos base) as Hb. destruct (gep_offset_correct _ _ _ _ _ _ _ Hb Ho) as (r & Er & Wr & Hr).
  exists (bv_add base r). split; [|split; [by apply add_width|]].
  - unfold symex_gep. rewrite Hty, (bind_run _ _ _ _ _ Eb). by rewrite (bind_run _ _ _ _ _ Er).
  - intros m Hvs. apply add_offset; [done|done| |by apply Hr]. symmetry. apply Z.mod_small, eval_range.
Qed.

End addresses.
