(* ===== verification/ConstTheorems.v ===== *)
(** * ConstTheorems: the value of a constant (src/src/state.rs, [const_to_bv])

    [denotes] gives constant expressions without references to globals a type
    and a value by rules of their own, after the LLVM language reference;
    [const_to_bv] is shown to compute that value at the width of that type. *)
From S2P Require Import Prelude Bits Backend SolverUtils MemorySpec LLVMIR Project Layout State Operands HookUtils SymexInstr InstrTheorems DataTheorems.

Open Scope Z_scope.

Section constants.
Context `{Laws : BackendLaws} `{MOps : !MemoryOps} `{L : LLVM} `{CF : ConstFuel}.
Implicit Types (c : Constant) (ty : Type_).

(** The constants that are all zeroes ([undef] is taken to be zero). *)
Definition zero_constant c : option Type_ :=
  match c with CNull ty | CAggregateZero ty | CUndef ty => Some ty | _ => None end.

Definition binop_constant (kind : BinOpKind) (a b : Constant) : option Constant :=
  match kind with
  | OpAdd => Some (CAdd a b)
  | OpSub => Some (CSub a b)
  | OpMul => Some (CMul a b)
  | OpUDiv => Some (CUDiv a b)
  | OpSDiv => Some (CSDiv a b)
  | OpURem => Some (CURem a b)
  | OpSRem => Some (CSRem a b)
  | OpAnd => Some (CAnd a b)
  | OpOr => Some (COr a b)
  | OpXor => Some (CXor a b)
  | OpShl => Some (CShl a b)
  | OpLShr => Some (CLShr a b)
  | OpAShr => Some (CAShr a b)
  | _ => None
  end.
Definition conversion_constant (cv : Conversion) (c : Constant) (ty : Type_) : Constant :=
  match cv with ZExt => CZExt c ty | SExt => CSExt c ty | Trunc => CTrunc c ty end.
Definition cast_constant c : option (Constant * Type_) :=
  match c with
  | CPtrToInt a ty | CIntToPtr a ty | CBitCast a ty | CAddrSpaceCast a ty => Some (a, ty)
  | _ => None
  end.

(** The member of a constant struct at a path, and the struct with another
    constant there. *)
Inductive member_at : Constant -> list Z -> Constant -> Prop :=
| member_here c : member_at c [] c
| member_in name cs p i idx c c' :
    cs !! Z.to_nat i = Some c -> member_at c idx c' -> member_at (CStruct name cs p) (i :: idx) c'.
Inductive replaced_at (new : Constant) : Constant -> list Z -> Constant -> Prop :=
| replaced_here c : replaced_at new c [] new
| replaced_in name cs p i idx c c' :
    cs !! Z.to_nat i = Some c -> replaced_at new c idx c' ->
    replaced_at new (CStruct name cs p) (i :: idx) (CStruct name (<[Z.to_nat i := c']> cs) p).

(** The types that [icmp] compares as a whole. *)
Definition scalar_type (ty : Type_) : bool := match ty with IntegerType _ | PointerType _ => true | _ => false end.

(** The type and the value of a constant, and of a row of constants laid out
    one after the other, the first lowest, with its width. *)
Inductive denotes : Constant -> Type_ -> Z -> Prop :=
| denotes_int w v : 0 < w < 2 ^ 32 -> 0 <= v < 2 ^ 64 -> v < 2 ^ w -> denotes (CInt w v) (IntegerType w) v
| denotes_zero c ty w : zero_constant c = Some ty -> size ty = Ok w -> 0 < w < 2 ^ 32 -> denotes c ty 0
| denotes_struct name cs p tys w v :
    row cs tys w v -> cs <> [] -> w < 2 ^ 32 -> denotes (CStruct name cs p) (StructType tys p) v
| denotes_array ty cs w v :
    row cs (replicate (length cs) ty) w v -> cs <> [] -> w < 2 ^ 32 ->
    denotes (CArray ty cs) (ArrayType ty (Z.of_nat (length cs))) v
| denotes_vector ty cs w v :
    row cs (replicate (length cs) ty) w v -> cs <> [] -> w < 2 ^ 32 ->
    denotes (CVector cs) (VectorType ty (Z.of_nat (length cs))) v
| denotes_binop kind a b c w x y f :
    denotes a (IntegerType w) x -> denotes b (IntegerType w) y ->
    binop_constant kind a b = Some c -> binop_val kind = Some f -> denotes c (IntegerType w) (f w x y)
| denotes_icmp pred a b ty w x y :
    denotes a ty x -> denotes b ty y -> scalar_type ty = true -> size ty = Ok w ->
    denotes (CICmp pred a b) (IntegerType 1) (Z.b2z (icmp_val pred w x y))
| denotes_convert cv a w w' x :
    denotes a (IntegerType w) x -> 0 < w' < 2 ^ 32 -> conversion_ok cv w w' ->
    denotes (conversion_constant cv a (IntegerType w')) (IntegerType w') (conversion_val cv w w' x)
| denotes_cast c a ty ty' w x :
    cast_constant c = Some (a, ty') -> denotes a ty x -> size ty = Ok w -> size ty' = Ok w -> denotes c ty' x
| denotes_extractelement cs k w i c ty v :
    cs !! Z.to_nat i = Some c -> k = CInt w i -> denotes c ty v -> denotes (CExtractElement (CVector cs) k) ty v
| denotes_insertelement cs new k w i ty v :
    (Z.to_nat i < length cs)%nat -> k = CInt w i -> denotes (CVector (<[Z.to_nat i := new]> cs)) ty v ->
    denotes (CInsertElement (CVector cs) new k) ty v
| denotes_extractvalue c idx c' ty v : member_at c idx c' -> denotes c' ty v -> denotes (CExtractValue c idx) ty v
| denotes_insertvalue c new idx c' ty v :
    replaced_at new c idx c' -> denotes c' ty v -> denotes (CInsertValue c new idx) ty v
with row : list Constant -> list Type_ -> Z -> Z -> Prop :=
| row_nil : row [] [] 0 0
| row_cons c cs ty tys w v w' v' :
    denotes c ty v -> size ty = Ok w -> row cs tys w' v' -> row (c :: cs) (ty :: tys) (w + w') (v + v' * 2 ^ w).

Scheme denotes_mut := Induction for denotes Sort Prop
  with row_mut := Induction for row Sort Prop.
Combined Scheme denotes_row_ind from denotes_mut, row_mut.

Lemma member_at_simplifies c idx c' : member_at c idx c' -> simplify_const_ev c idx = Ok c'.
Proof. induction 1 as [|name cs p i idx c c' Hl _ IH]; cbn; [done|]. by rewrite Hl. Qed.
Lemma replaced_at_simplifies new c idx c' : replaced_at new c idx c' -> simplify_const_iv c new idx = Ok c'.
Proof. induction 1 as [|name cs p i idx c c' Hl _ IH]; cbn; [done|]. rewrite Hl. cbn. by rewrite IH. Qed.

(** [c] is converted to a vector of [w] bits with the value [v] by any large
    enough fuel, and the state stays as it is. *)
Definition converts c (w v : Z) : Prop :=
  0 < w < 2 ^ 32 /\
  exists n, forall s fuel, (n <= fuel)%nat ->
    exists b, const_to_bv_at fuel c s = (Ok b, s) /\ get_width b = w /\ forall m, eval m b = v.

(** A conversion that takes one step more. *)
Lemma converts_step c w v n :
  0 < w < 2 ^ 32 ->
  (forall s fuel, (n <= fuel)%nat -> exists b, const_to_bv_at (S fuel) c s = (Ok b, s) /\ get_width b = w /\ forall m, eval m b = v) ->
  converts c w v.
Proof.
  intros Hw Hn. split; [done|]. exists (S n). intros s [|fuel] Hf; [lia|]. apply Hn. lia.
Qed.

Lemma converts_same c c' w v :
  converts c' w v -> (forall fuel s, const_to_bv_at (S fuel) c s = const_to_bv_at fuel c' s) -> converts c w v.
Proof. intros (Hw & n & Hn) Hs. apply (converts_step c w v n); [done|]. intros s fuel Hf. rewrite Hs. by apply Hn. Qed.

Lemma converts_binop c a b w x y w' v (op : BV -> BV -> BV) :
  converts a w x -> converts b w y -> 0 < w' < 2 ^ 32 ->
  (forall fuel s, const_to_bv_at (S fuel) c s = const_binop (const_to_bv_at fuel) op a b s) ->
  (forall p q, get_width p = w -> get_width q = w -> (forall m, eval m p = x) -> (forall m, eval m q = y) ->
     get_width (op p q) = w' /\ forall m, eval m (op p q) = v) ->
  converts c w' v.
Proof.
  intros (Hw & n & Hn) (_ & k & Hk) Hw' Hs Hop. apply (converts_step c w' v (n + k)); [done|].
  intros s fuel Hf. destruct (Hn s fuel ltac:(lia)) as (p & Ep & Wp & Vp), (Hk s fuel ltac:(lia)) as (q & Eq & Wq & Vq).
  rewrite Hs. unfold const_binop. rewrite (bind_run _ _ _ _ _ Ep), (bind_run _ _ _ _ _ Eq). eexists. split; [reflexivity|]. by apply Hop.
Qed.

(** *** Aggregates *)

Inductive row_converts : list Constant -> Z -> Z -> Prop :=
| row_converts_nil : row_converts [] 0 0
| row_converts_cons c cs w v w' v' :
    converts c w v -> row_converts cs w' v' -> row_converts (c :: cs) (w + w') (v + v' * 2 ^ w).

Lemma row_converts_width cs w v : row_converts cs w v -> 0 <= w /\ (cs <> [] -> 0 < w).
Proof. induction 1 as [|c cs w v w' v' [Hw _] _ [Hw' _]]; [done|]. split; [lia|]. intros _. lia. Qed.

Lemma concat_results_ok cs w v : row_converts cs w v ->
  exists n, forall s fuel a, (n <= fuel)%nat -> exists b,
    concat_results (const_to_bv_at fuel) (Ok a) cs s = (Ok b, s) /\ get_width b = get_width a + w /\
    forall m, eval m b = eval m a + v * 2 ^ get_width a.
Proof.
  induction 1 as [|c cs w v w' v' (Hw & n & Hn) _ (k & Hk)].
  - exists 0%nat. intros s fuel a _. exists a. split; [done|]. split; [lia|]. intros m. lia.
  - exists (n + k)%nat. intros s fuel a Hf. destruct (Hn s fuel ltac:(lia)) as (x & Ex & Wx & Vx).
    destruct (Hk s fuel (bv_concat x a) ltac:(lia)) as (b & Eb & Wb & Vb). exists b. cbn [concat_results]. split.
    + assert (catch (const_to_bv_at fuel c) s = (Ok (Ok x), s)) as Ec by (unfold catch; by rewrite Ex).
      by rewrite (bind_run _ _ _ _ _ Ec).
    + rewrite concat_width, Wx in Wb. split; [lia|]. intros m. pose proof (width_pos a).
      rewrite Vb, concat_width, concat_eval, Wx, Vx. unfold concat_val. rewrite (Z.pow_add_r 2 w) by lia. lia.
Qed.

Lemma aggregate_converts c cs w v :
  row_converts cs w v -> cs <> [] -> w < 2 ^ 32 ->
  (forall fuel s, const_to_bv_at (S fuel) c s = aggregate_to_bv (const_to_bv_at fuel) cs s) -> converts c w v.
Proof.
  intros Hr Hne Hlt Hs. pose proof (row_converts_width _ _ _ Hr) as [_ Hp].
  destruct Hr as [|c1 cs w1 v1 w' v' (Hw & n & Hn) Hr]; [done|]. destruct (concat_results_ok _ _ _ Hr) as (k & Hk).
  apply (converts_step c _ _ (n + k)); [split; [by apply Hp|done]|]. intros s fuel Hf.
  destruct (Hn s fuel ltac:(lia)) as (x & Ex & Wx & Vx), (Hk s fuel x ltac:(lia)) as (b & Eb & Wb & Vb).
  exists b. rewrite Hs. cbn [aggregate_to_bv]. split.
  - assert (catch (const_to_bv_at fuel c1) s = (Ok (Ok x), s)) as Ec by (unfold catch; by rewrite Ex).
    by rewrite (bind_run _ _ _ _ _ Ec).
  - split; [lia|]. intros m. by rewrite Vb, Vx, Wx.
Qed.

Lemma u64_add_fits a b : a + b < 2 ^ 64 -> u64_add a b = Ok (a + b).
Proof. intros Hlt. unfold u64_add, u64_max. by rewrite (proj2 (Z.leb_le (a + b) _)) by lia. Qed.
Lemma u64_mul_fits a b : a * b < 2 ^ 64 -> u64_mul a b = Ok (a * b).
Proof. intros Hlt. unfold u64_mul, u64_max. by rewrite (proj2 (Z.leb_le (a * b) _)) by lia. Qed.

(** The sizes of the types of a row. *)
Definition row_sizes (tys : list Type_) (w : Z) : Prop :=
  (forall acc, 0 <= acc -> acc + w < 2 ^ 64 -> sum_sizes acc tys = Ok (acc + w)) /\
  forall n ty s, tys = replicate n ty -> size ty = Ok s -> w = Z.of_nat n * s.

Lemma row_sizes_cons ty tys w w' :
  size ty = Ok w -> 0 < w -> 0 <= w' -> row_sizes tys w' -> row_sizes (ty :: tys) (w + w').
Proof.
  intros Hs Hw Hw' [H1 H2]. split.
  - intros acc Ha Hlt. unfold sum_sizes. cbn. rewrite Hs. cbn. rewrite (u64_add_fits acc w) by lia. cbn.
    specialize (H1 (acc + w) ltac:(lia) ltac:(lia)). unfold sum_sizes in H1. rewrite H1. f_equal. lia.
  - intros [|n] ty' s; cbn; [done|]. intros [= <- ->] Hs'. rewrite Hs in Hs'. injection Hs' as ->.
    rewrite (H2 n ty s eq_refl Hs). lia.
Qed.

(** A row of elements of one type: the size of an array or of a vector. *)
Lemma row_total ty (cs : list Constant) w :
  row_sizes (replicate (length cs) ty) w -> cs <> [] -> 0 <= w < 2 ^ 32 -> (exists s, size ty = Ok s) ->
  (s ← size ty; u64_mul (Z.of_nat (length cs)) s) = Ok w.
Proof.
  intros [_ Hr] Hne Hw [s Hs]. rewrite Hs. cbn. rewrite (Hr _ ty s eq_refl Hs) in Hw |- *.
  apply u64_mul_fits. lia.
Qed.

(** *** Scalars *)

Lemma constant_icmp_ok pred p q w x y :
  get_width p = w -> get_width q = w -> (forall m, eval m p = x) -> (forall m, eval m q = y) ->
  get_width (intpred_to_bvpred pred p q) = 1 /\ forall m, eval m (intpred_to_bvpred pred p q) = Z.b2z (icmp_val pred w x y).
Proof.
  intros Wp Wq Vp Vq. destruct (icmp_law pred p q) as [W E]; [congruence|]. split; [done|]. intros m. by rewrite E, Vp, Vq, Wp.
Qed.

Lemma conversion_converts cv a w w' x :
  converts a w x -> 0 < w' < 2 ^ 32 -> conversion_ok cv w w' ->
  converts (conversion_constant cv a (IntegerType w')) w' (conversion_val cv w w' x).
Proof.
  intros (Hw & n & Hn) Hw' Hc.
  assert (as_u32 w' = w') as Ew by (apply Z.mod_small; lia).
  apply (converts_step _ _ _ n); [done|].
  intros s fuel Hf. destruct (Hn s fuel Hf) as (p & Ep & Wp & Vp).
  destruct (convert_ok cv w w' p) as (q & Eq & Wq & Vq); [lia|lia|done|done|]. exists q.
  split; [|split; [done|intros m; by rewrite Vq, Vp]].
  destruct cv; cbn [conversion_constant const_to_bv_at]; rewrite (bind_run _ _ _ _ _ Ep), size_integer;
    unfold lift; rewrite (bind_run _ _ s w' s eq_refl), Ew; unfold convert in Eq.
  - cbn in Hc. apply bind_ok in Eq as (d & Hd & [= <-]). unfold zero_extend_to_bits. rewrite Wp.
    unfold u32_sub in Hd. case_match; [|done]. injection Hd as <-. by rewrite (proj2 (Z.compare_lt_iff w w')).
  - cbn in Hc. apply bind_ok in Eq as (d & Hd & [= <-]). unfold sign_extend_to_bits. rewrite Wp.
    unfold u32_sub in Hd. case_match; [|done]. injection Hd as <-. by rewrite (proj2 (Z.compare_lt_iff w w')).
  - apply bind_ok in Eq as (d & -> & [= <-]). reflexivity.
Qed.

Lemma cast_converts c a ty w x :
  cast_constant c = Some (a, ty) -> converts a w x -> size ty = Ok w -> converts c w x.
Proof.
  intros Hc (Hw & n & Hn) Hs. apply (converts_step c w x n); [done|]. intros s fuel Hf.
  destruct (Hn s fuel Hf) as (p & Ep & Wp & Vp). exists p. split; [|done].
  assert (const_to_bv_at (S fuel) c s = const_cast (const_to_bv_at fuel) a ty s) as ->.
  { destruct c; try discriminate Hc; injection Hc as -> ->; reflexivity. }
  unfold const_cast. rewrite (bind_run _ _ _ _ _ Ep), Hs. unfold lift. rewrite (bind_run _ _ s w s eq_refl).
  assert (as_u32 w = w) as -> by (apply Z.mod_small; lia). by rewrite Wp, Z.eqb_refl.
Qed.

Lemma binop_converts kind a b c w x y f :
  converts a w x -> converts b w y -> binop_constant kind a b = Some c -> binop_val kind = Some f -> converts c w (f w x y).
Proof.
  intros Ha Hb Hc Hf. destruct (binop_law _ _ Hf) as (op & Hop & Hlaw).
  apply (converts_binop c a b w x y w (f w x y) op Ha Hb); [by destruct Ha| |].
  - intros fuel s. destruct kind; try discriminate Hf; injection Hc as <-; injection Hop as <-; reflexivity.
  - intros p q Wp Wq Vp Vq. destruct (Hlaw p q) as [W E]; [congruence|]. split; [congruence|]. intros m. by rewrite E, Vp, Vq, Wp.
Qed.

Lemma icmp_converts pred a b w x y :
  converts a w x -> converts b w y -> converts (CICmp pred a b) 1 (Z.b2z (icmp_val pred w x y)).
Proof.
  intros Ha Hb. apply (converts_binop _ a b w x y 1 _ (intpred_to_bvpred pred) Ha Hb); [lia|done|].
  intros p q Wp Wq Vp Vq. by apply constant_icmp_ok.
Qed.

Lemma int_converts w v : 0 < w < 2 ^ 32 -> 0 <= v < 2 ^ 64 -> v < 2 ^ w -> converts (CInt w v) w v.
Proof.
  intros Hw Hv Hlt. apply (converts_step _ _ _ 0); [done|]. intros s fuel _. destruct (from_u64_law v w) as [W E]; [lia..|].
  by exists (from_u64 v w).
Qed.

Lemma zero_converts c ty w : zero_constant c = Some ty -> size ty = Ok w -> 0 < w < 2 ^ 32 -> converts c w 0.
Proof.
  intros Hc Hs Hw. apply (converts_step _ _ _ 0); [done|]. intros s fuel _. destruct (bv_zero_law w) as [W E]; [lia|].
  exists (bv_zero w). split; [|done].
  assert (const_to_bv_at (S fuel) c s = (sz ← lift (size ty); mret (bv_zero (as_u32 sz))) s) as ->
    by (destruct c; try discriminate Hc; injection Hc as ->; reflexivity).
  rewrite Hs. unfold lift. rewrite (bind_run _ _ s w s eq_refl). assert (as_u32 w = w) as -> by (apply Z.mod_small; lia). done.
Qed.

(** *** All constants *)

Lemma denotes_converts :
  (forall c ty v, denotes c ty v -> exists w, size ty = Ok w /\ converts c w v) /\
  forall cs tys w v, row cs tys w v -> row_converts cs w v /\ row_sizes tys w /\
    forall n ty, tys = replicate n ty -> cs <> [] -> exists s, size ty = Ok s.
Proof.
  apply denotes_row_ind.
  - intros w v Hw Hv Hlt. exists w. split; [apply size_integer|by apply int_converts].
  - intros c ty w Hc Hs Hw. exists w. split; [done|by eapply zero_converts].
  - intros name cs p tys w v _ (Hr & [Hs _] & _) Hne Hlt. exists w. pose proof (row_converts_width _ _ _ Hr) as [Hw _]. split.
    + rewrite size_struct, Hs by lia. done.
    + by apply (aggregate_converts _ cs).
  - intros ty cs w v _ (Hr & Hs & Hel) Hne Hlt. exists w. pose proof (row_converts_width _ _ _ Hr) as [Hw _]. split.
    + rewrite size_array. apply row_total; [done..|by eapply Hel].
    + by apply (aggregate_converts _ cs).
  - intros ty cs w v _ (Hr & Hs & Hel) Hne Hlt. exists w. pose proof (row_converts_width _ _ _ Hr) as [Hw _]. split.
    + rewrite size_vector. apply row_total; [done..|by eapply Hel].
    + by apply (aggregate_converts _ cs).
  - intros kind a b c w x y f _ (w1 & Hs1 & Ha) _ (w2 & Hs2 & Hb) Hc Hf. rewrite size_integer in Hs1, Hs2.
    injection Hs1 as <-. injection Hs2 as <-. exists w. split; [apply size_integer|by eapply binop_converts].
  - intros pred a b ty w x y _ (w1 & Hs1 & Ha) _ (w2 & Hs2 & Hb) _ Hs. rewrite Hs in Hs1, Hs2. injection Hs1 as <-.
    injection Hs2 as <-. exists 1. split; [apply size_integer|by apply icmp_converts].
  - intros cv a w w' x _ (w1 & Hs1 & Ha) Hw' Hc. rewrite size_integer in Hs1. injection Hs1 as <-.
    exists w'. split; [apply size_integer|by apply conversion_converts].
  - intros c a ty ty' w x Hc _ (w1 & Hs1 & Ha) Hs Hs'. rewrite Hs in Hs1. injection Hs1 as <-.
    exists w. split; [done|by eapply cast_converts].
  - intros cs k w i c ty v Hl -> _ (w1 & Hs & Hc). exists w1. split; [done|]. apply (converts_same _ c); [done|].
    intros fuel s. cbn [const_to_bv_at]. by rewrite Hl.
  - intros cs new k w i ty v Hi -> _ (w1 & Hs & Hc). exists w1. split; [done|]. apply (converts_same _ (CVector (<[Z.to_nat i := new]> cs))); [done|].
    intros fuel s. cbn [const_to_bv_at]. destruct (lookup_lt_is_Some_2 _ _ Hi) as [el Hel]. by rewrite Hel.
  - intros c idx c' ty v Hm _ (w1 & Hs & Hc). exists w1. split; [done|]. apply (converts_same _ c'); [done|].
    intros fuel s. cbn [const_to_bv_at]. by rewrite (member_at_simplifies _ _ _ Hm).
  - intros c new idx c' ty v Hm _ (w1 & Hs & Hc). exists w1. split; [done|]. apply (converts_same _ c'); [done|].
    intros fuel s. cbn [const_to_bv_at]. by rewrite (replaced_at_simplifies _ _ _ _ Hm).
  - split; [constructor|]. split; [|done]. split; [intros acc _ _; by rewrite Z.add_0_r|]. intros [|n] ty s; done.
  - intros c cs ty tys w v w' v' _ (w1 & Hs1 & Hc) Hs _ (Hr & Hsz & _). rewrite Hs in Hs1. injection Hs1 as <-.
    split; [by constructor|]. pose proof (row_converts_width _ _ _ Hr) as [Hw' _]. split; [apply row_sizes_cons; [done|by destruct Hc as [[? ?] _]|done..]|].
    intros [|n] ty'; [done|]. intros [= <- _] _. by exists w.
Qed.

End constants.

(** C21: constants.  The bit-vector of a constant expression without references
    to globals (integers, zeroes, structs, arrays and vectors laid out from the
    lowest bits up, arithmetic, comparisons, conversions, casts, and members
    taken from or replaced in aggregates) has the width of the constant's type
    and its value, whatever the model, and leaves the state as it is; any
    large enough fuel gives it.  Left out of [denotes], and so of the theorem, are
    references to globals (which can change the state), [getelementptr],
    [select], and arithmetic, comparisons and conversions of vectors (which the
    code does not do lane by lane, see [constant_vector_add_carries] of
    Findings.v). *)
Theorem constant_correct `{Laws : BackendLaws} `{MOps : !MemoryOps} `{L : LLVM} (c : Constant) (ty : Type_) (v : Z) :
  denotes c ty v ->
  exists w n, size ty = Ok w /\ 0 < w < 2 ^ 32 /\
    forall s fuel, (n <= fuel)%nat ->
      exists b, const_to_bv_at fuel c s = (Ok b, s) /\ get_width b = w /\ forall m, eval m b = v.
Proof. intros (w & Hs & Hw & n & Hn)%(proj1 denotes_converts). by exists w, n. Qed.
