(* ===== verification/MemInstrTheorems.v ===== *)
(** * MemInstrTheorems: instructions that use the memory

    Null pointers are reported when they are possible, a load after a store to
    the same address gives the stored value, and [cmpxchg] compares and
    exchanges. *)
From S2P Require Import Prelude Bits Backend ToySolver SolverUtils MemorySpec Memory Alloc LLVMIR ToyLLVM Project Layout VarMap Watchpoints FunctionHooks GlobalAllocations Config State Operands HookUtils Hooks SymexInstr StateTheorems InstrTheorems.

Open Scope Z_scope.

(** ** Loads, stores and exchanges *)

Section accesses.
Context `{Laws : BackendLaws} `{MOps : !MemoryOps} `{MLaws : !MemoryLaws} `{L : LLVM} `{CF : ConstFuel}.
Implicit Types s : State.

(** The hypotheses of an access to memory. *)
Definition access_ok s addr : Prop :=
  mem_wf (mem s) /\ solver_ok (solver s) /\ watch_ok s /\ get_width addr = 64.

Lemma access_ok_queried s s' addr : access_ok s addr -> only_queried s s' -> access_ok s' addr.
Proof. intros (Hm & O & Hw & W) (sol & Hs & ->). split; [done|]. split; [cbn; by rewrite <- Hs|]. by split. Qed.

(** A second access at the same address is not a null access. *)
Lemma no_null_after {A} s s' addr e s'' :
  (mem_null_detection (mem s) = true -> ~ possible (solver s) addr 0) ->
  mem_null_detection (mem s') = mem_null_detection (mem s) ->
  (forall m, models (solver s') m <-> models (solver s) m) ->
  state_access s' addr (fun _ _ => False) (Err e : outcome A) s'' -> query_failed e.
Proof.
  intros Hn Hnd Hm [?|(_ & Hnd' & (m & Hmod & Hv) & _)]; [done|]. rewrite Hnd in Hnd'.
  destruct (Hn Hnd'). exists m. split; [by apply Hm|done].
Qed.

Lemma pred_law_at op f (a b : BV) : pred_law op f -> get_width a = get_width b ->
  get_width (op a b) = 1 /\ forall m, eval m (op a b) = Z.b2z (f (get_width a) (eval m a) (eval m b)).
Proof. intros Hl. apply Hl. Qed.

(** Going back to the point that the check saved. *)
Lemma revert_null_split s addr s' :
  solver_ok (solver s) -> null_pointer_checking (config s) = NPSplitPath -> null_split s addr s' ->
  exists sol, revert_to_backtracking_point s' = (Ok true, set_solver sol s) /\
    forall m, models sol m <-> models (solver s) m /\ eval m addr <> 0.
Proof.
  intros O Hc Hn. unfold null_split in Hn. rewrite Hc in Hn.
  destruct Hn as (sol & bp & Hs & -> & Eloc & Emem & Evm & Est & Elen & Wc & Ec).
  set (sol1 := btor_pop 1 (btor_push 1 sol)).
  assert (same_solver sol sol1) as Hs1.
  { destruct (btor_push_law 1 sol ltac:(lia)) as [L1 L2]. apply (push_pop_same _ _ []); [done|done|]. by rewrite <- Hs. }
  exists (btor_assert (bp_constraint bp) sol1). split.
  - unfold revert_to_backtracking_point. destruct s; cbn in *. unfold mbind, M_bind, get, modify, on_solver, assert_bv, zoom; cbn.
    rewrite Eloc, Emem, Evm, Est, Elen, firstn_all. reflexivity.
  - intros m. rewrite models_assert, Ec, <- Hs1, <- Hs by (done || by rewrite <- Hs1, <- Hs). tauto.
Qed.

(** What the null-pointer check adds to an access: it succeeds only if the
    address cannot be null, and fails with [NullPointerDereference] only if it
    can.  When paths are split and the address can also be another one, going
    back to the point that was saved resumes the access from the same state with
    the null address excluded; otherwise no point is saved. *)
Definition null_checked s addr {A} (r : outcome A) (s' : State) : Prop :=
  match r with
  | Ok _ => mem_null_detection (mem s) = true -> ~ possible (solver s) addr 0
  | Err e =>
      query_failed e \/
      e = NullPointerDereference /\ mem_null_detection (mem s) = true /\ possible (solver s) addr 0 /\
      match null_pointer_checking (config s) with
      | NPSplitPath =>
          feasible (solver s) (fun m => eval m addr <> 0) ->
          exists sol, revert_to_backtracking_point s' = (Ok true, set_solver sol s) /\
            forall m, models sol m <-> models (solver s) m /\ eval m addr <> 0
      | _ => backtrack_points s' = backtrack_points s
      end
  | _ => False
  end.

Lemma access_null_checked {A} s addr (Q : A -> State -> Prop) r s' :
  solver_ok (solver s) -> state_access s addr Q r s' -> null_checked s addr r s'.
Proof.
  intros O. destruct r as [a|e|p|]; cbn; [by intros [? _]|intros [?|(-> & Hd & Hp & Hn)]; [by left|right]|done..].
  split; [done|]. split; [done|]. split; [done|]. destruct (null_pointer_checking (config s)) eqn:Hc.
  - unfold null_split in Hn. rewrite Hc in Hn. by destruct Hn as (sol & _ & ->).
  - intros _. by apply revert_null_split.
  - unfold null_split in Hn. rewrite Hc in Hn. by destruct Hn as (sol & _ & ->).
Qed.

(** C22: null pointers.  When the memory detects null pointers, a read or a write
    of the execution state succeeds only if its address cannot be null under the
    constraints, and otherwise ends in [NullPointerDereference] (or a query that
    the solver gives up).  Under [SplitPath], if the address can be null and can
    be something else, the point it saves leads back to the very same state with
    exactly the models in which the address is not null, so no behaviour of the
    program is lost; under [Simple] no point is saved.  (A null address that is
    the only one is split as well, against the documentation:
    [null_only_address_is_split] of Findings.v.)  Without detection there is no
    such error. *)
Theorem null_pointer_checked s addr :
  access_ok s addr ->
  (forall bits, read_size bits -> wp (read addr bits) s (null_checked s addr)) /\
  (forall v, byte_size (get_width v) -> wp (write addr v) s (null_checked s addr)).
Proof.
  intros (Hm & O & Hw & W). split.
  - intros bits Hb. eapply wp_mono; [by apply wp_state_read|]. intros r s'. by apply access_null_checked.
  - intros v Hv. eapply wp_mono; [by apply wp_state_write|]. intros r s'. by apply access_null_checked.
Qed.

(** C23: loading what was stored.  A [State::write] of a byte-sized value and
    then a [State::read] of the same width at the same address gives the value
    that was written, under every model; a failure is a failed query or the
    write's null-pointer check. *)
Theorem state_store_load s addr v :
  access_ok s addr -> byte_size (get_width v) ->
  wp (_ ← write addr v; read addr (get_width v)) s (state_access s addr (fun r s' =>
    get_width r = get_width v /\ (forall m, models (solver s') m <-> models (solver s) m) /\
    forall m, eval m r = eval m v)).
Proof.
  intros (Hm & O & Hw & W) Hv. apply wp_bind. eapply wp_mono; [by apply wp_state_write|].
  intros [[]|e|p|] s1; cbn; [|done|done|done].
  intros (Hn & mem' & (sol & Hs & ->) & Hm' & Hnd & Hwr). cbn in Hs.
  eapply wp_mono; [apply wp_state_read; [done|cbn; by rewrite <- Hs|done|done|]|].
  { destruct Hv as [Hv1 Hv2]. split; [done|by right]. }
  intros [r|e|p|] s2; cbn; [|intros He; left|done|done].
  - intros [_ ((sol' & Hs' & ->) & Wr & Hr)]. cbn in *. split; [done|]. split; [done|]. split.
    { intros m. by rewrite <- Hs', <- Hs. }
    intros m. specialize (Hr m). specialize (Hwr m).
    apply (reads_unique (mem_bit mem' m) (8 * eval m addr) (get_width v)); [destruct Hv; lia|done|].
    eapply reads_after_write; [|apply eval_range|exact Hwr]. destruct Hv as [Hv _]. unfold space. lia.
  - apply (no_null_after (A := BV) s (set_solver sol (set_mem mem' s)) addr e s2 Hn Hnd); [|exact He].
    intros m. cbn. by rewrite <- Hs.
Qed.

(** C27: [cmpxchg].  Unless the access fails, the instruction writes the
    replacement where the memory held the expected value and writes back the
    value it read otherwise, and records that value with the flag above it. *)
Theorem cmpxchg_correct cx s s1 s2 s3 addr expected replacement w ty0 ty1 packed :
  type_eqb (operand_type (cx_expected cx)) (operand_type (cx_replacement cx)) = true ->
  instr_type (ICmpXchg cx) = StructType [ty0; ty1] packed ->
  type_eqb ty0 (operand_type (cx_expected cx)) = true -> type_eqb ty1 (IntegerType 1) = true ->
  operand_to_bv (cx_address cx) s = (Ok addr, s1) -> operand_to_bv (cx_expected cx) s1 = (Ok expected, s2) ->
  operand_to_bv (cx_replacement cx) s2 = (Ok replacement, s3) ->
  access_ok s3 addr -> byte_size w -> get_width expected = w -> get_width replacement = w ->
  (exists e s4, symex_cmpxchg cx s = (Err e, s4) /\
     state_access s3 addr (fun _ _ => False) (Err e : outcome BV) s4) \/
  exists old r mem' s4,
    symex_cmpxchg cx s = record_bv_result (result (ICmpXchg cx) (cx_dest cx)) r s4 /\
    only_queried (set_mem mem' s3) s4 /\ get_width old = w /\ get_width r = w + 1 /\
    forall m, reads (mem_bit (mem s3) m) (8 * eval m addr) w (eval m old) /\
      writes (mem_bit (mem s3) m) (mem_bit mem' m) (8 * eval m addr) w
        (if eval m old =? eval m expected then eval m replacement else eval m old) /\
      eval m r = concat_val (Z.b2z (eval m old =? eval m expected)) w (eval m old).
Proof.
  intros Hty Hit Hty0 Hty1 E0 E1 E2 Hok Hw We Wr. pose proof Hok as (Hm & O & Hwa & W).
  remember (symex_cmpxchg cx s) as R eqn:HR. unfold symex_cmpxchg in HR. rewrite Hty, Hit, Hty0, Hty1 in HR. cbn [negb] in HR.
  unfold mbind at 1, M_bind at 1 in HR. unfold mret at 1, M_ret at 1 in HR.
  unfold mbind at 1, M_bind at 1 in HR. rewrite E0 in HR. unfold mbind at 1, M_bind at 1 in HR. rewrite E1 in HR.
  unfold mbind at 1, M_bind at 1 in HR. rewrite E2, We in HR.
  unfold mbind at 1, M_bind at 1 in HR. destruct (read addr w s3) as [r1 s4] eqn:Er.
  assert (read_size w) as Hrs by (destruct Hw; split; [done|by right]).
  pose proof (wp_run _ _ _ _ _ Er (wp_state_read s3 addr w Hm O Hwa W Hrs)) as Hread.
  destruct r1 as [old|e|p|]; cbn in Hread; [|left; by exists e, s4|done|done].
  destruct Hread as (Hn & (sol & Hs & ->) & Wo & Hr). cbv zeta in HR.
  destruct (pred_law_at bv_eq _ old expected bv_eq_law ltac:(congruence)) as [Wf Ef].
  destruct (cond_bv_law (bv_eq old expected) replacement old Wf ltac:(congruence)) as [Wc Ec].
  unfold mbind at 1, M_bind at 1 in HR. destruct (write _ _ (set_solver sol s3)) as [r2 s5] eqn:Ewr.
  assert (access_ok (set_solver sol s3) addr) as (Hm' & O' & Hwa' & _) by (eapply access_ok_queried; [done|by exists sol]).
  assert (byte_size (get_width (cond_bv (bv_eq old expected) replacement old))) as Hbs by by rewrite Wc, Wr.
  pose proof (wp_run _ _ _ _ _ Ewr (wp_state_write _ _ _ Hm' O' Hwa' W Hbs)) as Hwrite.
  destruct r2 as [[]|e|p|]; cbn in Hwrite; [| |done|done].
  - right. destruct Hwrite as (_ & mem' & (sol' & Hs' & ->) & _ & _ & Hwr). cbn in Hs'.
    exists old, (bv_concat (bv_eq old expected) old), mem', (set_solver sol' (set_mem mem' s3)). split; [done|].
    split; [exists sol'; split; [by rewrite Hs|done]|]. split; [done|]. split; [rewrite concat_width, Wf; lia|].
    intros m. split; [apply Hr|]. rewrite concat_eval, Wo, Ef. split; [|done].
    specialize (Hwr m). rewrite Wc, Wr, Ec, Ef, b2z_eqb_1 in Hwr. done.
  - left. exists e, s5. split; [done|]. left.
    apply (no_null_after (A := unit) s3 (set_solver sol s3) addr e s5 Hn eq_refl); [|exact Hwrite].
    intros m. cbn. by rewrite <- Hs.
Qed.

End accesses.
