(* ===== verification/CopyTheorems.v ===== *)
(** * CopyTheorems: [memcpy], [memmove] and [memset]

    The length of a copy is chosen within the constraints, by each of the
    policies of [Concretize], and then exactly the bytes that should change do:
    in one access when the length is concrete, byte by byte when it is
    symbolic. *)
From S2P Require Import Prelude Bits Backend ToySolver SolverUtils MemorySpec Memory Alloc LLVMIR ToyLLVM Project Layout VarMap Watchpoints FunctionHooks GlobalAllocations Config State Operands HookUtils Hooks SymexInstr StateTheorems InstrTheorems MemInstrTheorems.

Open Scope Z_scope.

(** ** Choosing a length *)

Section lengths.
Context `{Laws : BackendLaws} `{MOps : !MemoryOps} `{L : LLVM} `{CF : ConstFuel}.
(** The documented behaviour of [BVSolution::as_u64]: arbitrary bits are 0. *)
Context (as_u64_disambiguates : forall x, sol_as_u64 x = sol_as_u64 (disambiguate x)).
Implicit Types (s : State) (num_bytes : BV).

(** The configured maximum, if there is one. *)
Definition within_max s (len : Z) : Prop := forall mx, max_memcpy_length (config s) = Some mx -> len <= mx.

(** What [get_memcpy_length] promises: a length it returns is the only value
    the length argument has from then on, and within the maximum; the error is
    raised only if every possible length is too large. *)
Definition length_chosen s num_bytes (r : outcome MemcpyLength) (s' : State) : Prop :=
  match r with
  | Ok (ConcreteLen len) =>
      exists sol, s' = set_solver sol s /\ solver_ok sol /\ satisfiable sol /\ within_max s len /\
        forall m, models sol m <-> models (solver s) m /\ eval m num_bytes = len
  | Ok SymbolicLen =>
      exists sol, s' = set_solver sol s /\ solver_ok sol /\ satisfiable sol /\
        forall m, models sol m <-> models (solver s) m /\ within_max s (eval m num_bytes)
  | Err e =>
      query_failed e \/ e = Unsat /\ ~ satisfiable (solver s) \/
      (exists msg, e = OtherError msg) /\ forall m, models (solver s) m -> ~ within_max s (eval m num_bytes)
  | _ => False
  end.

(** The preferred values are values that the length argument can hold. *)
Fixpoint prefers_fit (w : Z) (c : Concretize) : Prop :=
  match c with
  | Prefer val backup => 0 <= val < 2 ^ w /\ prefers_fit w backup
  | _ => True
  end.

(** Hypotheses on the length argument. *)
Definition length_ok s num_bytes : Prop :=
  solver_ok (solver s) /\ model_gen (solver s) = false /\ get_width num_bytes <= 64 /\
  (as_binary_str num_bytes = None \/ satisfiable (solver s)) /\
  forall mx, max_memcpy_length (config s) = Some mx -> 0 <= mx < 2 ^ get_width num_bytes.

(** [s'] is [s] with the maximum imposed. *)
Definition bounded s num_bytes (s' : State) : Prop :=
  exists sol, s' = set_solver sol s /\ solver_ok sol /\ satisfiable sol /\ model_gen sol = model_gen (solver s) /\
    forall m, models sol m <-> models (solver s) m /\ within_max s (eval m num_bytes).

Lemma bounded_ok s num_bytes s' : length_ok s num_bytes -> bounded s num_bytes s' -> length_ok s' num_bytes.
Proof.
  intros (O & G & W & _ & Hmx) (sol & -> & O' & Hs & G' & _). split; [done|]. split; [by rewrite <- G|].
  split; [done|]. split; [by right|done].
Qed.

(** The choice made after the maximum was imposed is a choice from [s]. *)
Lemma length_chosen_bounded s num_bytes s1 r s' :
  bounded s num_bytes s1 -> length_chosen s1 num_bytes r s' -> length_chosen s num_bytes r s'.
Proof.
  intros (sol & -> & O & (m0 & Hm0) & _ & Hm) Hr. destruct r as [[len|]|e|p|]; cbn in Hr |- *; [| | |done|done].
  - destruct Hr as (sol' & -> & O' & Hs & Hw & Hm'). exists sol'. repeat (split; [done|]). intros m.
    rewrite Hm', Hm. split; [tauto|]. intros [H1 <-]. done.
  - destruct Hr as (sol' & -> & O' & Hs & Hm'). exists sol'. repeat (split; [done|]). intros m.
    rewrite Hm', Hm. change (within_max (set_solver sol s)) with (within_max s). tauto.
  - destruct Hr as [?|[[-> Hn]|[Hmsg Hn]]]; [by left| |]; exfalso.
    + apply Hn. by exists m0.
    + apply (Hn m0 Hm0). by apply (Hm m0).
Qed.

Lemma wp_assert_state {A} s b (k : M State A) Q :
  wp k (set_solver (btor_assert b (solver s)) s) Q -> wp (_ ← assert_bv b; k) s Q.
Proof. intros Hk. apply wp_bind, wp_on_solver, run_wp. by intros r sol [= <- <-]. Qed.

Lemma model_gen_assert b sol : get_width b = 1 -> solver_ok sol -> model_gen (btor_assert b sol) = model_gen sol.
Proof.
  intros W O. unfold solver_ok in O. destruct (assertions sol) as [|l ls] eqn:E; [done|].
  by destruct (btor_assert_law b l ls sol W E).
Qed.
Lemma solver_ok_assert b sol : get_width b = 1 -> solver_ok sol -> solver_ok (btor_assert b sol).
Proof.
  intros W O. unfold solver_ok in *. destruct (assertions sol) as [|l ls] eqn:E; [done|].
  by destruct (btor_assert_law b l ls sol W E) as [-> _].
Qed.

(** Fixing the length to a possible value. *)
Lemma wp_fix_length s s1 num_bytes val :
  length_ok s num_bytes -> bounded s num_bytes s1 -> possible (solver s1) num_bytes val ->
  wp (_ ← assert_bv (bv_eq num_bytes (from_u64 val (get_width num_bytes))); mret (ConcreteLen val)) s1
     (length_chosen s num_bytes).
Proof.
  intros (O & G & W & _) (sol & -> & O1 & Hs & G1 & Hm) (m0 & Hm0 & Hv). cbn in Hm0.
  pose proof (eval_range m0 num_bytes) as R. rewrite Hv in R. pose proof (width_pos num_bytes) as Wp.
  pose proof (Z.pow_le_mono_r 2 _ _ ltac:(lia) W) as Hp.
  destruct (from_u64_law val (get_width num_bytes)) as [Wc Ec]; [lia..|].
  assert (get_width (bv_eq num_bytes (from_u64 val (get_width num_bytes))) = 1) as We
    by (by apply (pred_width bv_eq _ _ _ bv_eq_law)).
  assert (forall m, models (btor_assert (bv_eq num_bytes (from_u64 val (get_width num_bytes))) sol) m <->
    models (solver s) m /\ eval m num_bytes = val) as Hm'.
  { intros m. rewrite models_assert by done.
    rewrite (pred_eval bv_eq _ _ _ m bv_eq_law), Ec, b2z_1, Z.eqb_eq, Hm by done.
    split; [tauto|]. intros [H1 H2]. split; [done|]. split; [done|]. rewrite H2, <- Hv. by apply (Hm m0). }
  apply wp_assert_state, wp_ret. cbn. eexists. split; [reflexivity|]. split; [by apply solver_ok_assert|].
  split; [exists m0; apply Hm'; split; [by apply Hm|done]|]. split; [|done].
  rewrite <- Hv. by apply (Hm m0).
Qed.

Lemma wp_sat_extra_state s c (Q : outcome bool -> State -> Prop) :
  get_width c = 1 -> solver_ok (solver s) ->
  (forall e s', query_failed e -> Q (Err e) s') ->
  (forall b sol, same_solver (solver s) sol -> (b = true <-> feasible (solver s) (fun m => eval m c = 1)) ->
     Q (Ok b) (set_solver sol s)) ->
  wp (sat_with_extra_constraints [c]) s Q.
Proof.
  intros Wc O HErr HOk. apply wp_on_solver. eapply wp_mono; [apply wp_sat_with_extra_constraints; [by apply Forall_singleton|done]|].
  intros [b|e|p|] sol; cbn; [|by apply HErr|done|done]. intros [Hs Hb]. apply HOk; [done|]. rewrite Hb.
  unfold feasible. split; intros (m & Hm & Hc); exists m; (split; [done|]).
  - by apply (proj1 (Forall_singleton _ _)) in Hc.
  - by apply Forall_singleton.
Qed.

(** Imposing the maximum when there are several possible lengths. *)
Lemma wp_impose_max s num_bytes (v : gset BVSolution) (k : M State MemcpyLength) :
  length_ok s num_bytes -> satisfiable (solver s) ->
  (exists x, head (elements v) = Some x /\ exists n, possible (solver s) num_bytes n /\ x = solution_of num_bytes n) ->
  (forall s', bounded s num_bytes s' -> wp k s' (length_chosen s num_bytes)) ->
  wp (_ ← match max_memcpy_length (config s) with
          | Some max_len =>
              let max_len_bv := from_u64 max_len (get_width num_bytes) in
              b ← sat_with_extra_constraints [ulte num_bytes max_len_bv];
              if negb b then
                sol ← lift (unwrap (head (elements v)));
                _ ← lift (unwrap (sol_as_u64 sol));
                err (OtherError "Encountered a memcpy/memset/memmove with multiple possible lengths, but all of them are larger than max_memcpy_length")
              else
                b ← sat_with_extra_constraints [ugt num_bytes max_len_bv];
                if (b : bool) then assert_bv (ulte num_bytes max_len_bv) else mret tt
          | None => mret tt
          end; k) s (length_chosen s num_bytes).
Proof.
  intros (O & G & W & Hb & Hmx) Hsat (x & Hx & n & Hn & ->) Hk. pose proof (width_pos num_bytes) as Wp.
  destruct (max_memcpy_length (config s)) as [mx|] eqn:Emx.
  2:{ apply wp_bind, wp_ret, Hk. exists (solver s). split; [by rewrite set_solver_id|]. repeat (split; [done|]).
      intros m. unfold within_max. rewrite Emx. split; [by split|by intros [? _]]. }
  specialize (Hmx mx eq_refl). pose proof (Z.pow_le_mono_r 2 _ _ ltac:(lia) W) as Hp.
  destruct (from_u64_law mx (get_width num_bytes)) as [Wc Ec]; [lia..|].
  assert (forall m, within_max s (eval m num_bytes) <-> eval m num_bytes <= mx) as Hwm.
  { intros m. unfold within_max. rewrite Emx. split; [intros Hw; by apply Hw|intros ? ? [= <-]; done]. }
  assert (get_width (ulte num_bytes (from_u64 mx (get_width num_bytes))) = 1 /\ forall m,
    eval m (ulte num_bytes (from_u64 mx (get_width num_bytes))) = 1 <-> within_max s (eval m num_bytes)) as [Wu Eu].
  { split; [by apply (pred_width ulte _ _ _ ulte_law)|]. intros m.
    by rewrite (pred_eval ulte _ _ _ m ulte_law), Ec, b2z_1, Z.leb_le, Hwm by done. }
  cbv zeta. apply wp_bind, wp_bind, wp_sat_extra_state; [done|done|by left|].
  intros t sol Hs Ht. destruct t; cbn [negb].
  - assert (feasible sol (fun m => within_max s (eval m num_bytes))) as (m0 & Hm0 & Hw0).
    { destruct Ht as [Ht _]. destruct (Ht eq_refl) as (m & Hm & He). exists m. split; [by rewrite <- Hs|by apply Eu]. }
    apply wp_bind, wp_sat_extra_state; [by apply (pred_width ugt _ _ _ ugt_law)|cbn; by rewrite <- Hs|by left|].
    cbn [solver set_solver]. intros t' sol' Hs' Ht'.
    assert (same_solver (solver s) sol') as Hs2 by (by rewrite Hs).
    change (set_solver sol' (set_solver sol s)) with (set_solver sol' s).
    assert (solver_ok sol') as O' by by rewrite <- Hs2. rewrite Hs' in Hm0. destruct t'.
    + apply wp_on_solver, run_wp. intros r sol2 [= <- <-]. cbn. apply Hk. eexists. split; [reflexivity|].
      split; [by apply solver_ok_assert|]. cbn. split; [exists m0; apply models_assert; [done|done|]; split; [by apply Eu|done]|].
      split; [rewrite model_gen_assert by done; apply Hs2|]. intros m. rewrite models_assert, Eu, <- Hs2 by done. tauto.
    + apply wp_ret, Hk. exists sol'. split; [done|]. split; [done|]. split; [by exists m0|]. split; [apply Hs2|].
      intros m. rewrite <- Hs2. split; [|tauto]. intros Hm. split; [done|]. apply Hwm. apply Z.nlt_ge. intros Hlt.
      cut (false = true); [done|]. apply Ht'. exists m. split; [by rewrite <- Hs|].
      rewrite (pred_eval ugt _ _ _ m ugt_law), Ec, b2z_1 by done. by apply Z.ltb_lt.
  - rewrite Hx. wp_step. unfold solution_of. rewrite sol_as_u64_law; [|lia|by eapply possible_range].
    wp_step. apply wp_lift. cbn. right; right. split; [by eexists|]. intros m Hm Hw.
    cut (false = true); [done|]. apply Ht. exists m. split; [done|]. by apply Eu.
Qed.

(** The first of the solutions that were found. *)
Lemma first_solution (s : SolverRef) num_bytes n (X : gset BVSolution) :
  describes s num_bytes n (AtLeast X) -> 0 <= n ->
  satisfiable s /\ exists x, head (elements X) = Some x /\ exists v, possible s num_bytes v /\ x = solution_of num_bytes v.
Proof.
  intros [Hsz HX] Hn. destruct (elements X) as [|x xs] eqn:Ex.
  { apply elements_empty_inv in Ex. rewrite Ex, size_empty in Hsz. cbn in Hsz. lia. }
  destruct (HX x) as (v & Hv & ->). { apply elem_of_elements. rewrite Ex. left. }
  split; [by destruct Hv as (m & Hm & _); exists m|]. eexists. split; [reflexivity|]. by exists v.
Qed.

(** The minimum, the maximum and the preferred value. *)
Lemma wp_extreme s s1 num_bytes (search : BV -> M SolverRef (option Z)) (is_ext : SolverRef -> BV -> Z -> Prop) :
  length_ok s num_bytes -> bounded s num_bytes s1 ->
  (forall v, is_ext (solver s1) num_bytes v -> possible (solver s1) num_bytes v) ->
  wp (search num_bytes) (solver s1) (returns (fun r sol' => same_solver (solver s1) sol' /\
    match r with Some v => is_ext (solver s1) num_bytes v | None => ~ satisfiable (solver s1) end)) ->
  wp (r ← on_solver (search num_bytes); val ← lift (unwrap r);
      _ ← assert_bv (bv_eq num_bytes (from_u64 val (get_width num_bytes))); mret (ConcreteLen val)) s1
     (length_chosen s num_bytes).
Proof.
  intros Hl Hb Hp Hw. apply wp_bind, wp_on_solver. eapply wp_mono; [exact Hw|].
  pose proof Hb as (sol & -> & O & Hs & G & Hm).
  intros [[v|]|e|p|] sol'; cbn; [| |by left|done|done].
  - intros [Hss He]. wp_step. apply wp_fix_length; [done| |cbn; rewrite <- Hss; by apply Hp].
    exists sol'. split; [done|]. split; [by rewrite <- Hss|]. split; [by rewrite <- Hss|].
    split; [rewrite <- G; apply Hss|]. intros m. by rewrite <- Hss.
  - by intros [_ []].
Qed.

Lemma length_chosen_same s num_bytes s1 r s' :
  only_queried s s1 -> length_chosen s1 num_bytes r s' -> length_chosen s num_bytes r s'.
Proof.
  intros (sol & Hs & ->). destruct r as [[len|]|e|p|]; cbn; [| | |done|done].
  - intros (sol' & -> & O' & Hsat & Hw & Hm'). exists sol'. repeat (split; [done|]). intros m. by rewrite Hm', <- Hs.
  - change (within_max (set_solver sol s)) with (within_max s).
    intros (sol' & -> & O' & Hsat & Hm'). exists sol'. repeat (split; [done|]). intros m. by rewrite Hm', <- Hs.
  - intros [?|[[-> Hn]|[Hmsg Hn]]]; [by left| |]; right.
    + left. split; [done|]. by rewrite Hs.
    + right. split; [done|]. intros m Hm. apply (Hn m). by rewrite <- Hs.
Qed.

(** The length is a constant, or there are several. *)
Lemma wp_one_or_many s num_bytes (k : State -> gset BVSolution -> M State MemcpyLength) :
  length_ok s num_bytes ->
  (forall s1 X, length_ok s1 num_bytes -> config s1 = config s ->
     describes (solver s1) num_bytes 1 (AtLeast X) -> wp (k s1 X) s1 (length_chosen s1 num_bytes)) ->
  wp (ps ← get_possible_solutions_for_bv num_bytes 1;
      s ← get;
      match ps with
      | Exactly v =>
          sol ← lift (ok_or Unsat (head (elements v)));
          single_val ← lift (unwrap (sol_as_u64 sol));
          match max_memcpy_length (config s) with
          | Some max_len =>
              if max_len <? single_val
              then err (OtherError "Encountered a memcpy/memset/memmove larger than max_memcpy_length")
              else mret (ConcreteLen single_val)
          | None => mret (ConcreteLen single_val)
          end
      | AtLeast v => k s v
      end) s (length_chosen s num_bytes).
Proof.
  intros Hl Hk. pose proof Hl as (O & G & W & Hb & Hmx). pose proof (width_pos num_bytes) as Wp.
  apply wp_bind, wp_on_solver. eapply wp_mono; [apply possible_solutions_spec; [done..|lia|by right]|].
  intros [ps|e|p|] sol; cbn -[describes]; [|by left|done|done]. intros [Hs Hd]. wp_step. cbn [config set_solver].
  assert (solver_ok sol) as O' by by rewrite <- Hs.
  destruct ps as [X|X].
  - destruct Hd as [Hsz Hd]. destruct (elements X) as [|x xs] eqn:Ex; cbn [head].
    { apply wp_bind, wp_lift. cbn. right; left. split; [done|]. intros (m & Hm).
      assert (solution_of num_bytes (eval m num_bytes) ∈ elements X) as Hin.
      { apply elem_of_elements, Hd. eexists. split; [by exists m|done]. }
      rewrite Ex in Hin. by apply elem_of_nil in Hin. }
    assert (x ∈ X) as Hx by (apply elem_of_elements; rewrite Ex; left). pose proof Hx as (v & Hv & ->)%Hd.
    assert (forall m, models (solver s) m -> eval m num_bytes = v) as Hall.
    { intros m Hm. apply (solution_of_inj num_bytes); [apply eval_range|by eapply possible_range|].
      assert (base.size X <> 0%nat) by (intros E0%size_empty_inv; by apply (E0 (solution_of num_bytes v)), not_elem_of_empty in Hx).
      assert (base.size X = 1%nat) as Hs1 by lia.
      apply (size_singleton_inv X); [exact Hs1|apply Hd; eexists; split; [by exists m|done]|exact Hx]. }
    wp_step. unfold solution_of. rewrite sol_as_u64_law; [|lia|by eapply possible_range]. wp_step.
    assert (within_max s v -> wp (mret (ConcreteLen v)) (set_solver sol s) (length_chosen s num_bytes)) as Hok.
    { intros Hw. apply wp_ret. exists sol. split; [done|]. split; [done|]. pose proof Hv as (m & Hm & Em).
      split; [exists m; by rewrite <- Hs|]. split; [done|]. intros m'. rewrite <- Hs. split; [|tauto].
      intros Hm'. split; [done|]. by apply Hall. }
    destruct (max_memcpy_length (config s)) as [mx|] eqn:Emx.
    + destruct (Z.ltb_spec mx v).
      * apply wp_lift. right; right. split; [by eexists|]. intros m Hm Hw. rewrite (Hall m Hm) in Hw.
        specialize (Hw mx Emx). lia.
      * apply Hok. intros mx' Hmx'. rewrite Emx in Hmx'. injection Hmx' as <-. lia.
    + apply Hok. intros mx' Hmx'. by rewrite Emx in Hmx'.
  - eapply wp_mono; [apply (Hk (set_solver sol s) X); [|done|]|].
    + split; [done|]. split; [rewrite <- G; apply Hs|]. split; [done|]. split; [|done]. cbn. by rewrite <- Hs.
    + destruct Hd as [Hsz Hd]. split; [done|]. intros x (v & Hv & ->)%Hd. exists v. split; [|done]. cbn. by rewrite <- Hs.
    + intros r s'. apply length_chosen_same. by exists sol.
Qed.

(** A preferred value, or the backup policy. *)
Lemma wp_prefer s s1 num_bytes val (backup : M State MemcpyLength) :
  length_ok s num_bytes -> bounded s num_bytes s1 -> 0 <= val < 2 ^ get_width num_bytes ->
  (forall s2, bounded s num_bytes s2 -> wp backup s2 (length_chosen s2 num_bytes)) ->
  wp (b ← bvs_can_be_equal num_bytes (from_u64 val (get_width num_bytes));
      if (b : bool) then
        _ ← assert_bv (bv_eq num_bytes (from_u64 val (get_width num_bytes))); mret (ConcreteLen val)
      else
        b ← sat;
        if negb b then err Unsat else backup) s1 (length_chosen s num_bytes).
Proof.
  intros Hl Hb Hval Hbackup. pose proof Hl as (O & G & W & _). pose proof (width_pos num_bytes) as Wp.
  pose proof (Z.pow_le_mono_r 2 _ _ ltac:(lia) W) as Hp.
  destruct (from_u64_law val (get_width num_bytes)) as [Wc Ec]; [lia..|].
  assert (forall s2 sol, bounded s num_bytes s2 -> same_solver (solver s2) sol -> bounded s num_bytes (set_solver sol s2)) as Hsame.
  { intros s2 sol (sol2 & -> & O2 & Hs2 & G2 & Hm2) Hs. cbn in Hs. exists sol. split; [done|]. split; [by rewrite <- Hs|].
    split; [by rewrite <- Hs|]. split; [rewrite <- G2; apply Hs|]. intros m. by rewrite <- Hs. }
  pose proof Hb as (sol1 & -> & O1 & Hs1 & G1 & Hm1).
  apply wp_bind, wp_on_solver. eapply wp_mono; [by apply wp_bvs_can_be_equal|].
  intros [b|e|p|] sol; cbn; [|by left|done|done]. intros [Hs Hr]. specialize (Hsame _ sol Hb Hs).
  destruct b.
  - apply wp_fix_length; [done|done|]. destruct Hr as [Hr _]. destruct (Hr eq_refl) as (m & Hm & E).
    exists m. cbn. by rewrite <- Hs, E, Ec.
  - apply wp_bind, wp_on_solver. eapply wp_mono; [apply wp_sat|]. cbn.
    intros [b|e|p|] sol'; cbn; [|by left|done|done]. intros (Hs' & Hb' & _).
    assert (b = true) as -> by (apply Hb'; by rewrite <- Hs). cbn [negb].
    assert (bounded s num_bytes (set_solver sol' (set_solver sol (set_solver sol1 s)))) as Hbd.
    { exists sol'. split; [done|]. split; [by rewrite <- Hs', <- Hs|]. split; [by rewrite <- Hs', <- Hs|].
      split; [rewrite <- G1; destruct Hs', Hs; congruence|]. intros m. by rewrite <- Hs', <- Hs. }
    eapply wp_mono; [by apply Hbackup|]. intros r s'. by apply length_chosen_bounded.
Qed.

(** The first of the solutions found that is within the maximum. *)
Lemma find_at_most_spec (s : SolverRef) num_bytes mx (xs : list BVSolution) :
  get_width num_bytes <= 64 -> (forall x, x ∈ xs -> exists v, possible s num_bytes v /\ x = solution_of num_bytes v) ->
  exists o, find_at_most mx xs = Ok o /\ forall v, o = Some v -> possible s num_bytes v /\ v <= mx.
Proof.
  intros W. pose proof (width_pos num_bytes) as Wp. induction xs as [|x xs IH]; intros Hxs; cbn [find_at_most]; [by exists None|].
  destruct (Hxs x) as (v & Hv & ->); [left|]. unfold solution_of at 1. rewrite sol_as_u64_law; [|lia|by eapply possible_range].
  cbn. destruct (Z.leb_spec v mx) as [Hle|_]; [|apply IH; intros x Hx; apply Hxs; by right].
  exists (Some v). split; [done|]. by intros v' [= <-].
Qed.

Lemma wp_arbitrary s1 s2 num_bytes X :
  length_ok s1 num_bytes -> bounded s1 num_bytes s2 -> describes (solver s1) num_bytes 1 (AtLeast X) ->
  wp (val ← match max_memcpy_length (config s1) with
            | None => sol ← lift (unwrap (head (elements X))); lift (unwrap (sol_as_u64 sol))
            | Some max_len =>
                r ← lift (find_at_most max_len (elements X));
                match r with
                | Some val => mret val
                | None => sol ← get_a_solution_for_bv num_bytes; sol ← lift (unwrap sol); lift (unwrap (sol_as_u64 sol))
                end
            end;
      _ ← assert_bv (bv_eq num_bytes (from_u64 val (get_width num_bytes))); mret (ConcreteLen val)) s2
     (length_chosen s1 num_bytes).
Proof.
  intros Hl1 Hb2 Hdesc. pose proof Hl1 as (O & G & W & _). pose proof (width_pos num_bytes) as Wp.
  destruct (first_solution _ _ _ _ Hdesc ltac:(lia)) as [_ (x & Hx & v & Hv & ->)].
  pose proof Hb2 as (sol & -> & O2 & Hs2 & G2 & Hm). apply wp_bind.
  assert (forall u, possible (solver s1) num_bytes u -> within_max s1 u -> possible sol num_bytes u) as Hfits.
  { intros u (m & Hmod & Eu) Hu. exists m. split; [|done]. apply Hm. split; [done|]. by rewrite Eu. }
  destruct (max_memcpy_length (config s1)) as [mx|] eqn:Emx.
  - destruct Hdesc as [_ HX]. destruct (find_at_most_spec (solver s1) num_bytes mx (elements X)) as (o & Eo & Ho); [done| |].
    { intros y Hy. apply HX. by apply elem_of_elements. }
    apply wp_bind. rewrite Eo. apply wp_lift. destruct o as [u|].
    + destruct (Ho u eq_refl) as [Hu Hle]. apply wp_ret, wp_fix_length; [done..|]. apply Hfits; [done|].
      intros mx' Emx'. by assert (mx' = mx) as -> by congruence.
    + apply wp_bind. eapply wp_mono; [apply wp_get_a_solution; [done..|cbn; congruence]|].
      intros [y|e|p|] s3; cbn; [|by left|done|done]. intros [(sol3 & -> & Hs3) (y' & u & -> & Eu & Hu)]. cbn in Hs3.
      apply wp_bind, wp_lift. cbn. rewrite Eu. apply wp_lift. cbn.
      change (set_solver sol3 (set_solver sol s1)) with (set_solver sol3 s1). apply wp_fix_length; [done| |].
      * exists sol3. split; [done|]. split; [by rewrite <- Hs3|]. split; [by rewrite <- Hs3|].
        split; [rewrite <- G2; apply Hs3|]. intros m. by rewrite <- Hs3.
      * cbn in Hu |- *. destruct Hu as (m & Hmod & Ev). exists m. by rewrite <- Hs3.
  - rewrite Hx. apply wp_bind, wp_lift. cbn. unfold solution_of. rewrite sol_as_u64_law; [|lia|by eapply possible_range]. apply wp_lift.
    apply wp_fix_length; [done..|]. apply Hfits; [done|]. intros mx Hmx. by rewrite Emx in Hmx.
Qed.

Lemma wp_memcpy_length num_bytes c : forall s,
  length_ok s num_bytes -> prefers_fit (get_width num_bytes) c ->
  wp (get_memcpy_length num_bytes c) s (length_chosen s num_bytes).
Proof.
  induction c as [| |val backup IH| |]; intros s Hl Hd; cbn [get_memcpy_length];
    apply (wp_one_or_many s num_bytes (fun s v => _)); try done; intros s1 X Hl1 Hcfg Hdesc;
    destruct (first_solution _ _ _ _ Hdesc) as [Hsat Hfirst]; try lia;
    apply wp_impose_max; try done; intros s2 Hb2; cbv zeta; pose proof Hl1 as (O & G & W & _).
  - apply wp_ret. destruct Hb2 as (sol & -> & O2 & Hs2 & _ & Hm). by exists sol.
  - by apply wp_arbitrary.
  - destruct Hd as [Hval Hd]. apply wp_prefer; [done..|]. intros s3 Hb3. apply IH; [by eapply bounded_ok|done].
  - apply (wp_extreme s1 s2 num_bytes _ is_max); [done|done|by intros v [? _]|].
    apply max_u64_spec; [by destruct Hb2 as (? & -> & ? & _)|done].
  - apply (wp_extreme s1 s2 num_bytes _ is_min); [done|done|by intros v [? _]|].
    apply min_u64_spec; [by destruct Hb2 as (? & -> & ? & _)|done].
Qed.

(** C24: the length of a [memcpy], [memmove] or [memset], for every policy.  The
    concrete length that [get_memcpy_length] returns is a possible one, within
    the configured maximum, and the only one left afterwards; asking for a
    symbolic length leaves exactly the lengths within the maximum; it is an
    error only if all possible lengths are too large or there is none.  (The
    length argument has at most 64 bits, and the maximum and the preferred
    values are among its values.) *)
Theorem memcpy_length_correct s num_bytes c :
  length_ok s num_bytes -> prefers_fit (get_width num_bytes) c ->
  wp (get_memcpy_length num_bytes c) s (length_chosen s num_bytes).
Proof. apply wp_memcpy_length. Qed.

End lengths.

(** ** Copies and fills *)

Section copies.
Context `{Laws : BackendLaws} `{MOps : !MemoryOps} `{MLaws : !MemoryLaws} `{L : LLVM} `{CF : ConstFuel}.
Context (as_u64_disambiguates : forall x, sol_as_u64 x = sol_as_u64 (disambiguate x)).
Implicit Types s : State.

(** ** [memcpy] and [memset] of a concrete length *)

(** The policies that end in a concrete length. *)
Fixpoint concrete (c : Concretize) : bool :=
  match c with Symbolic => false | Prefer _ backup => concrete backup | _ => true end.

Definition not_symbolic (c : M State MemcpyLength) : Prop := forall s, fst (c s) <> Ok SymbolicLen.

Lemma not_symbolic_bind {A} (c : M State A) f : (forall a, not_symbolic (f a)) -> not_symbolic (c ≫= f).
Proof. intros Hf s. unfold mbind, M_bind. destruct (c s) as [[a| | |] s']; [apply Hf|done..]. Qed.

Lemma memcpy_length_concrete num_bytes c : concrete c = true -> not_symbolic (get_memcpy_length num_bytes c).
Proof.
  assert (forall len, not_symbolic (mret (ConcreteLen len))) as Hret by done.
  induction c as [| |val backup IH| |]; intros Hc; [done| | | |]; cbn [get_memcpy_length]; cbv zeta;
    repeat first [apply not_symbolic_bind; intros ? | apply Hret | by apply IH | case_match | done].
Qed.

(** What a failed copy or fill reports. *)
Definition copy_failed (e : Error) : Prop :=
  query_failed e \/ e = Unsat \/ e = NullPointerDereference \/ exists msg, e = OtherError msg.

(** The state after a copy or fill: only memory and constraints change, and
    the constraints either fix the length, or, when the policy leaves it
    symbolic, keep all the lengths within the maximum. *)
Definition copied s num_bytes mem' (s' : State) : Prop :=
  exists sol, s' = set_solver sol (set_mem mem' s) /\ mem_wf mem' /\ solver_ok sol /\ satisfiable sol /\
    (forall m, models sol m -> within_max s (eval m num_bytes)) /\
    ((exists len, forall m, models sol m <-> models (solver s) m /\ eval m num_bytes = len) \/
     concrete (concretize_memcpy_lengths (config s)) = false /\
     forall m, models sol m <-> models (solver s) m /\ within_max s (eval m num_bytes)).

(** The hypotheses of a copy: the bits of a length within the maximum can be
    counted in a [u32]. *)
Definition copy_ok s num_bytes : Prop :=
  length_ok s num_bytes /\ prefers_fit (get_width num_bytes) (concretize_memcpy_lengths (config s)) /\
  forall m, models (solver s) m -> within_max s (eval m num_bytes) -> 8 * eval m num_bytes < 2 ^ 32.

Lemma wp_copy_length {A} s num_bytes (k : MemcpyLength -> M State A) (Q : outcome A -> State -> Prop) :
  copy_ok s num_bytes -> mem_wf (mem s) ->
  (forall e s', copy_failed e -> Q (Err e) s') ->
  (forall len sol, 0 <= len -> 8 * len < 2 ^ 32 -> copied s num_bytes (mem s) (set_solver sol s) ->
     (forall m, models sol m -> eval m num_bytes = len) ->
     wp (k (ConcreteLen len)) (set_solver sol s) Q) ->
  (forall sol, concrete (concretize_memcpy_lengths (config s)) = false -> copied s num_bytes (mem s) (set_solver sol s) ->
     wp (k SymbolicLen) (set_solver sol s) Q) ->
  wp (len ← get_memcpy_length num_bytes (concretize_memcpy_lengths (config s)); k len) s Q.
Proof.
  intros (Hl & Hd & Hbits) Hwf HErr HOk HSym. apply wp_bind, run_wp. intros r s' Hr.
  pose proof (wp_run _ _ _ _ _ Hr (wp_memcpy_length as_u64_disambiguates num_bytes _ s Hl Hd)) as Hch.
  assert (forall sol, set_solver sol s = set_solver sol (set_mem (mem s) s)) as Hmem by by intros; destruct s.
  destruct r as [[len|]|e|p|]; cbn in Hch; [| | |done|done].
  - destruct Hch as (sol & -> & O & (m0 & Hm0) & Hw & Hm). pose proof Hm0 as [Hmod0 E0]%Hm. apply HOk.
    + rewrite <- E0. apply eval_range.
    + rewrite <- E0. apply (Hbits m0); [done|by rewrite E0].
    + exists sol. split; [apply Hmem|]. split; [done|].
      split; [done|]. split; [by exists m0|]. split; [by intros m [_ ->]%Hm|]. left. by exists len.
    + by intros m [_ ?]%Hm.
  - destruct Hch as (sol & -> & O & Hs & Hm). destruct (concrete (concretize_memcpy_lengths (config s))) eqn:Ec.
    { exfalso. apply (memcpy_length_concrete num_bytes _ Ec s). by rewrite Hr. }
    apply HSym; [done|]. exists sol. split; [apply Hmem|]. split; [done|].
    split; [done|]. split; [done|]. split; [by intros m [_ ?]%Hm|]. by right.
  - apply HErr. destruct Hch as [?|[[-> _]|[[msg ->] _]]]; [by left|by right; left|].
    right; right; right. by eexists.
Qed.

Lemma state_access_failed e (P : Prop) : query_failed e \/ e = NullPointerDereference /\ P -> copy_failed e.
Proof. intros [?|(-> & _)]; [by left|by right; right; left]. Qed.

Lemma copied_mem s num_bytes mem' sol sol' mem'' :
  copied s num_bytes mem' (set_solver sol s) -> same_solver sol sol' -> mem_wf mem'' ->
  copied s num_bytes mem'' (set_solver sol' (set_mem mem'' s)).
Proof.
  intros (sol0 & E & Hwf & O & Hs & Hw & Hc) Hsame Hwf''. assert (sol0 = sol) as -> by (by injection E).
  exists sol'. split; [done|]. split; [done|]. split; [by rewrite <- Hsame|]. split; [by rewrite <- Hsame|].
  split; [intros m; rewrite <- Hsame; apply Hw|].
  destruct Hc as [[len Hc]|[Hp Hc]]; [left; exists len|right; split; [done|]]; intros m; by rewrite <- Hsame.
Qed.

(** Bytes of a fill value. *)
Definition filled (v b len : Z) : Prop := 0 <= v < 2 ^ (8 * len) /\ forall i, 0 <= i < len -> lane 8 v i = b.

Lemma filled_ones len : 0 < len -> filled (ones_val (8 * len)) 255 len.
Proof.
  intros Hl. split; [apply ones_val_range; lia|]. intros i Hi.
  apply (bits_ext 8); [lia|by apply lane_range|lia|]. intros j Hj.
  rewrite testbit_lane, testbit_ones_val by lia. change 255 with (ones_val 8). rewrite testbit_ones_val by lia.
  rewrite !(proj2 (Z.ltb_lt _ _)) by lia. done.
Qed.

Lemma filled_zero len : 0 < len -> filled 0 0 len.
Proof.
  intros Hl. split; [split; [lia|]; apply pow2_pos; lia|]. intros i Hi.
  apply (bits_ext 8); [lia|by apply lane_range|lia|]. intros j Hj. by rewrite testbit_lane, !Z.bits_0 by lia.
Qed.

Lemma repeated_byte val n : (0 < n)%nat -> get_width val = 8 ->
  exists r, reduceO bv_concat (replicate n val) = Ok r /\ get_width r = 8 * Z.of_nat n /\
    forall m, filled (eval m r) (eval m val) (Z.of_nat n).
Proof.
  intros Hn Wv. destruct n as [|n]; [lia|]. cbn [replicate reduceO].
  destruct (foldl_concat_reversed 8 (replicate n val) val 1) as (W & H1 & H2); [lia..|by apply Forall_replicate|].
  rewrite length_replicate in W, H1, H2. eexists. split; [reflexivity|].
  assert (get_width (foldl bv_concat val (replicate n val)) = 8 * Z.of_nat (S n)) as W' by (rewrite W; lia).
  split; [done|]. intros m. split; [rewrite <- W'; apply eval_range|]. intros i Hi.
  destruct (decide (i = Z.of_nat n)) as [->|].
  - replace (Z.of_nat n) with (Z.of_nat n + 0) by lia. rewrite H1 by lia. apply lane_0. rewrite <- Wv. apply eval_range.
  - specialize (H2 m (n - 1 - Z.to_nat i)%nat val). rewrite <- H2.
    + f_equal. lia.
    + apply lookup_replicate. split; [done|lia].
Qed.

(** The byte that [memset] stores. *)
Lemma fill_byte val : 8 <= get_width val ->
  let val' := if 8 <? get_width val then slice val 7 0 else val in
  get_width val' = 8 /\ forall m, eval m val' = eval m val mod 256.
Proof.
  intros Hw. cbv zeta. destruct (Z.ltb_spec 8 (get_width val)).
  - destruct (slice_law val 7 0) as [W E]; [lia..|]. split; [done|]. intros m. rewrite E. unfold slice_val. by rewrite Z.div_1_r.
  - assert (get_width val = 8) as W by lia. split; [done|]. intros m. pose proof (eval_range m val) as R. rewrite W in R.
    symmetry. by apply Z.mod_small.
Qed.

Lemma wp_must_equal s a b (Q : outcome bool -> State -> Prop) :
  get_width a = get_width b -> solver_ok (solver s) -> (forall e s', query_failed e -> Q (Err e) s') ->
  (forall r sol, same_solver (solver s) sol ->
     (r = true <-> forall m, models (solver s) m -> eval m a = eval m b) -> Q (Ok r) (set_solver sol s)) ->
  wp (bvs_must_be_equal a b) s Q.
Proof.
  intros W O HErr HOk. apply wp_on_solver. eapply wp_mono; [by apply must_be_equal_spec|].
  intros [r|e|p|] sol; cbn; [|by apply HErr|done|done]. intros [Hs Hr]. by apply HOk.
Qed.

(** The value [memset] writes: zeroes, ones or the byte repeated. *)
Lemma wp_fill_value s val len (k : BV -> M State unit) (Q : outcome unit -> State -> Prop) :
  get_width val = 8 -> solver_ok (solver s) -> 0 < len -> 8 * len < 2 ^ 32 ->
  (forall e s', query_failed e -> Q (Err e) s') ->
  (forall big sol, same_solver (solver s) sol -> get_width big = 8 * len ->
     (forall m, models (solver s) m -> filled (eval m big) (eval m val) len) -> wp (k big) (set_solver sol s) Q) ->
  wp (is_zero ← bvs_must_be_equal val (bv_zero 8);
      big_val ← (if (is_zero : bool) then w ← lift (memset_width len); mret (bv_zero w)
                 else
                   is_ones ← bvs_must_be_equal val (bv_ones 8);
                   if (is_ones : bool) then w ← lift (memset_width len); mret (bv_ones w)
                   else lift (reduceO bv_concat (replicate (Z.to_nat len) val)));
      k big_val) s Q.
Proof.
  intros Wv O Hlen Hbits HErr HOk. unfold memset_width, u32_mul.
  rewrite (proj2 (Z.ltb_lt len _)), (proj2 (Z.ltb_lt (8 * len) _)) by lia.
  destruct (bv_zero_law 8 ltac:(lia)) as [W0 E0]. destruct (bv_ones_law 8 ltac:(lia)) as [W1 E1].
  apply wp_bind, wp_must_equal; [congruence|done|done|]. intros r sol Hs Hr. destruct r.
  - apply wp_bind. wp_step. apply wp_ret. destruct (bv_zero_law (8 * len) ltac:(lia)) as [W E].
    apply HOk; [done|done|]. intros m Hm. rewrite E. destruct Hr as [Hr _]. rewrite (Hr eq_refl m Hm), E0. by apply filled_zero.
  - apply wp_bind, wp_bind, wp_must_equal; [congruence|cbn; by rewrite <- Hs|done|].
    cbn [solver set_solver]. intros r' sol' Hs' Hr'. change (set_solver sol' (set_solver sol s)) with (set_solver sol' s).
    assert (same_solver (solver s) sol') as Hs2 by by rewrite Hs. destruct r'.
    + wp_step. apply wp_ret. destruct (bv_ones_law (8 * len) ltac:(lia)) as [W E].
      apply HOk; [done|done|]. intros m Hm. rewrite E. destruct Hr' as [Hr' _].
      rewrite (Hr' eq_refl m), E1 by by rewrite <- Hs. by apply filled_ones.
    + destruct (repeated_byte val (Z.to_nat len)) as (big & -> & Wb & Hb); [lia|done|]. apply wp_lift.
      rewrite Z2Nat.id in Wb, Hb by lia. by apply HOk.
Qed.

(** *** Accesses in a row *)

(** The hypotheses of the accesses to come, at a state that differs from the
    start in its memory and by queries. *)
Definition running s (s' : State) : Prop :=
  exists mem' sol, s' = set_solver sol (set_mem mem' s) /\ mem_wf mem' /\ same_solver (solver s) sol.

Lemma wp_running_read {A} s s1 addr bits (k : BV -> M State A) (Q : outcome A -> State -> Prop) :
  solver_ok (solver s) -> watch_ok s -> running s s1 -> get_width addr = 64 -> read_size bits ->
  (forall e s', copy_failed e -> Q (Err e) s') ->
  (forall v s2, running s s2 -> mem s2 = mem s1 -> get_width v = bits ->
     (forall m, reads (mem_bit (mem s1) m) (8 * eval m addr) bits (eval m v)) -> wp (k v) s2 Q) ->
  wp (v ← read addr bits; k v) s1 Q.
Proof.
  intros O Hw (mem' & sol & -> & Hm & Hs) W Hb HErr HOk. apply wp_bind.
  eapply wp_mono; [apply wp_state_read; [done|cbn; by rewrite <- Hs|done..]|].
  intros [v|e|p|] s2; cbn; [|intros He; by eapply HErr, state_access_failed|done|done].
  intros (_ & (sol2 & Hs2 & ->) & Wv & Hv). cbn in Hs2. apply HOk; [|done..].
  exists mem', sol2. split; [done|]. split; [done|]. by etrans.
Qed.
Lemma wp_running_write s s1 addr v (Q : outcome unit -> State -> Prop) :
  solver_ok (solver s) -> watch_ok s -> running s s1 -> get_width addr = 64 -> byte_size (get_width v) ->
  (forall e s', copy_failed e -> Q (Err e) s') ->
  (forall s2, running s s2 ->
     (forall m, writes (mem_bit (mem s1) m) (mem_bit (mem s2) m) (8 * eval m addr) (get_width v) (eval m v)) -> Q (Ok tt) s2) ->
  wp (write addr v) s1 Q.
Proof.
  intros O Hw (mem' & sol & -> & Hm & Hs) W Hb HErr HOk.
  eapply wp_mono; [apply wp_state_write; [done|cbn; by rewrite <- Hs|done..]|].
  intros [[]|e|p|] s2; cbn; [|intros He; by eapply HErr, state_access_failed|done|done].
  intros (_ & mem2 & (sol2 & Hs2 & ->) & Hm2 & _ & Hwr). cbn in Hs2, Hwr. apply HOk; [|exact Hwr].
  exists mem2, sol2. split; [done|]. split; [done|]. by etrans.
Qed.

(** Writing back what is there changes nothing. *)
Lemma writes_same f g start size v : periodic f -> reads f start size v -> writes f g start size v -> forall p, g p = f p.
Proof.
  intros P [_ B] W p. rewrite W. pose proof (Z.mod_pos_bound (p - start) space eq_refl) as R.
  destruct (Z.ltb_spec ((p - start) mod space) size); [|done]. rewrite B by lia. apply periodic_eq; [done|].
  rewrite Zplus_mod_idemp_r. f_equal. lia.
Qed.
(** What is read outside of what was written was there before. *)
Lemma reads_unframe f g start size v a n x :
  size <= space -> disjoint_ranges start size a n -> writes f g start size v -> reads g a n x -> reads f a n x.
Proof.
  intros Hs D W [R B]. split; [done|]. intros j Hj. rewrite B by done. rewrite W.
  pose proof (Z.mod_pos_bound (a + j - start) space eq_refl) as Rm.
  destruct (Z.ltb_spec ((a + j - start) mod space) size) as [Hlt|]; [|done].
  exfalso. apply (D ((a + j - start) mod space) j); [lia|done|].
  rewrite Z.add_comm, Zplus_mod_idemp_l. f_equal. lia.
Qed.
Lemma byte_address a k : 8 * ((a + k) mod 2 ^ 64) mod space = (8 * a + 8 * k) mod space.
Proof.
  unfold space. change (2 ^ 67) with (8 * 2 ^ 64). rewrite <- Z.mul_mod_distr_l, Z.mod_mod by lia. f_equal. lia.
Qed.

(** *** A copy of a symbolic length *)

(** Copying from the front, the destination does not run over bytes of the
    source that are still to be read. *)
Definition clear_ahead (dest src len : Z) : Prop := (dest - src) mod 2 ^ 64 = 0 \/ len <= (dest - src) mod 2 ^ 64.
Lemma clear_disjoint dest src len k :
  0 <= k < len -> len <= 2 ^ 64 -> clear_ahead dest src len -> disjoint_ranges (8 * dest) (8 * k) (8 * src + 8 * k) 8.
Proof.
  intros Hk Hlen Hc i j Hi Hj E. unfold space in E. change (2 ^ 67) with (2 ^ 64 * 8) in E. 
  assert (((8 * dest + i) - (8 * src + 8 * k + j)) mod (2 ^ 64 * 8) = 0) as E1 by (rewrite Zminus_mod, E, Z.sub_diag; done).
  apply Z.mod_divide in E1 as [q Eq]; [|lia].
  assert (dest - src = (k - i / 8) + q * 2 ^ 64) as E2.
  { pose proof (Z.div_mod i 8 ltac:(lia)). pose proof (Z.mod_pos_bound i 8 ltac:(lia)). lia. }
  assert (0 <= i / 8 < k) as Hd by (split; [apply Z.div_pos; lia|apply Z.div_lt_upper_bound; lia]).
  unfold clear_ahead in Hc. rewrite E2, Z.mod_add, Z.mod_small in Hc by lia. lia.
Qed.

(** The first [k] bytes were copied, or fewer if the length is less. *)
Definition copied_upto (mem mem' : Z -> bool) (dest src k len : Z) : Prop :=
  exists v, reads mem (8 * src) (8 * Z.min k len) v /\ writes mem mem' (8 * dest) (8 * Z.min k len) v.

Lemma copy_byte mem mem1 mem2 dest src k len vs vd :
  periodic mem -> 0 <= k -> 0 <= len < 2 ^ 64 -> clear_ahead dest src len -> copied_upto mem mem1 dest src k len ->
  reads mem1 (8 * ((src + k) mod 2 ^ 64)) 8 vs -> reads mem1 (8 * ((dest + k) mod 2 ^ 64)) 8 vd ->
  writes mem1 mem2 (8 * ((dest + k) mod 2 ^ 64)) 8 (if k <? len then vs else vd) ->
  copied_upto mem mem2 dest src (k + 1) len.
Proof.
  intros Hper Hk Hlen Hc (v & Hr & Hw) Hs Hd. pose proof (writes_periodic _ _ _ _ _ Hper Hw) as Hper1.
  destruct (Z.ltb_spec k len); intros Hw2.
  - unfold copied_upto. rewrite !Z.min_l in * by lia. exists (concat_val vs (8 * k) v).
    assert (reads mem (8 * src + 8 * k) 8 vs) as Hs'.
    { eapply reads_unframe; [| |exact Hw|].
      - unfold space. lia.
      - apply (clear_disjoint dest src len); [lia|lia|done].
      - eapply reads_congr; [done|apply byte_address|done]. }
    replace (8 * (k + 1)) with (8 * k + 8) by lia. split; [apply reads_concat; [lia|lia|done..]|].
    eapply (writes_concat _ mem1 _ _ _ _ v vs); [lia|lia|unfold space; lia| | |exact Hw|].
    + intros j Hj. destruct Hr as [Rv _]. by rewrite testbit_concat, (proj2 (Z.ltb_lt _ _)) by lia.
    + intros j Hj. destruct Hr as [Rv _]. rewrite testbit_concat, (proj2 (Z.ltb_ge _ _)) by lia. f_equal. lia.
    + eapply writes_congr; [apply byte_address|done].
  - unfold copied_upto. rewrite !Z.min_r in * by lia. exists v. split; [done|]. intros p.
    rewrite (writes_same _ _ _ _ _ Hper1 Hd Hw2 p). apply Hw.
Qed.

Lemma wp_memcpy_loop s num_bytes src dest n : forall k s1 src1 dest1 written,
  solver_ok (solver s) -> watch_ok s -> get_width num_bytes <= 64 -> get_width src = 64 -> get_width dest = 64 ->
  running s s1 -> get_width src1 = 64 -> get_width dest1 = 64 -> get_width written = get_width num_bytes ->
  (forall m, eval m src1 = (eval m src + k) mod 2 ^ 64) -> (forall m, eval m dest1 = (eval m dest + k) mod 2 ^ 64) ->
  (forall m, eval m written = k mod 2 ^ get_width num_bytes) -> 0 <= k -> k + Z.of_nat n <= 2 ^ get_width num_bytes ->
  (forall m, clear_ahead (eval m dest) (eval m src) (eval m num_bytes) ->
     copied_upto (mem_bit (mem s) m) (mem_bit (mem s1) m) (eval m dest) (eval m src) k (eval m num_bytes)) ->
  wp (memcpy_loop n num_bytes src1 dest1 written) s1 (fun r s' =>
    match r with
    | Ok _ => running s s' /\ forall m, clear_ahead (eval m dest) (eval m src) (eval m num_bytes) ->
        copied_upto (mem_bit (mem s) m) (mem_bit (mem s') m) (eval m dest) (eval m src) (k + Z.of_nat n) (eval m num_bytes)
    | Err e => copy_failed e
    | _ => False
    end).
Proof.
  induction n as [|n IH]; intros k s1 src1 dest1 written O Hwa Wn Ws Wd Hrun Ws1 Wd1 Ww Es Ed Ew Hk Hkn Hinv; cbn [memcpy_loop].
  { apply wp_ret. split; [done|]. intros m Hm. rewrite Z.add_0_r. by apply Hinv. }
  pose proof (width_pos num_bytes) as Wp. pose proof (Z.pow_le_mono_r 2 _ _ ltac:(lia) Wn) as Hpow.
  assert (read_size 8) as Hb by (split; [lia|by right]).
  apply (wp_running_read s); [done..|]. intros sv s2 Hrun2 Em2 Wsv Hsv.
  apply (wp_running_read s); [done..|]. intros dv s3 Hrun3 Em3 Wdv Hdv. rewrite Em2 in Hdv. cbv zeta.
  destruct (pred_law_at ugt _ num_bytes written ugt_law ltac:(congruence)) as [Wc Ec].
  destruct (cond_bv_law (ugt num_bytes written) sv dv Wc ltac:(congruence)) as [Wv Ev].
  apply wp_bind, (wp_running_write s); [done..| |done|].
  { rewrite Wv, Wsv. split; [lia|done]. }
  intros s4 Hrun4 Hwr. rewrite Em3, Em2 in Hwr.
  destruct (bv_inc_law src1) as [Wis Eis], (bv_inc_law dest1) as [Wid Eid], (bv_inc_law written) as [Wiw Eiw].
  replace (k + Z.of_nat (S n)) with (k + 1 + Z.of_nat n) by lia.
  apply IH; [done|done|done|done|done|done|congruence|congruence|congruence| | | |lia|lia|].
  - intros m. rewrite Eis, Es, Ws1, Zplus_mod_idemp_l. f_equal. lia.
  - intros m. rewrite Eid, Ed, Wd1, Zplus_mod_idemp_l. f_equal. lia.
  - intros m. rewrite Eiw, Ew, Ww, Zplus_mod_idemp_l. done.
  - intros m Hm. pose proof (eval_range m num_bytes) as Rn. eapply (copy_byte _ (mem_bit (mem s1) m)); [apply mem_periodic|lia|lia|done|by apply Hinv| | |].
    + rewrite <- Es. apply Hsv.
    + rewrite <- Ed. apply Hdv.
    + rewrite <- Ed. specialize (Hwr m). rewrite Wv, Wsv, Ev, Ec, Ew, Z.mod_small in Hwr by lia.
      replace (k <? eval m num_bytes) with (Z.b2z (k <? eval m num_bytes) =? 1) by by destruct (k <? eval m num_bytes). done.
Qed.

(** *** A fill of a symbolic length *)

Definition filled_upto (mem mem' : Z -> bool) (addr b k len : Z) : Prop :=
  exists v, filled v b (Z.min k len) /\ writes mem mem' (8 * addr) (8 * Z.min k len) v.

Lemma filled_nothing b : filled 0 b 0.
Proof. split; [done|]. intros i Hi. lia. Qed.
Lemma filled_snoc v b len : 0 <= len -> 0 <= b < 2 ^ 8 -> filled v b len -> filled (concat_val b (8 * len) v) b (len + 1).
Proof.
  intros Hl Hb [R Hv]. split.
  - replace (8 * (len + 1)) with (8 + 8 * len) by lia. apply concat_val_range; [lia|lia|done..].
  - intros i Hi. apply (bits_ext 8); [lia|by apply lane_range|done|]. intros j Hj. rewrite testbit_lane, testbit_concat by lia.
    destruct (Z.ltb_spec (j + i * 8) (8 * len)).
    + rewrite <- (Hv i) by lia. by rewrite testbit_lane by lia.
    + assert (i = len) as -> by lia. f_equal. lia.
Qed.

Lemma fill_byte_at mem mem1 mem2 addr b k len vo :
  periodic mem -> 0 <= k -> 0 <= len < 2 ^ 64 -> 0 <= b < 2 ^ 8 -> filled_upto mem mem1 addr b k len ->
  reads mem1 (8 * ((addr + k) mod 2 ^ 64)) 8 vo ->
  writes mem1 mem2 (8 * ((addr + k) mod 2 ^ 64)) 8 (if k <? len then b else vo) ->
  filled_upto mem mem2 addr b (k + 1) len.
Proof.
  intros Hper Hk Hlen Hb (v & Hf & Hw) Ho. pose proof (writes_periodic _ _ _ _ _ Hper Hw) as Hper1.
  destruct (Z.ltb_spec k len); intros Hw2.
  - unfold filled_upto. rewrite !Z.min_l in * by lia. exists (concat_val b (8 * k) v). split; [by apply filled_snoc|].
    replace (8 * (k + 1)) with (8 * k + 8) by lia. destruct Hf as [Rv _].
    eapply (writes_concat _ mem1 _ _ _ _ v b); [lia|lia|unfold space; lia| | |exact Hw|].
    + intros j Hj. by rewrite testbit_concat, (proj2 (Z.ltb_lt _ _)) by lia.
    + intros j Hj. rewrite testbit_concat, (proj2 (Z.ltb_ge _ _)) by lia. f_equal. lia.
    + eapply writes_congr; [apply byte_address|done].
  - unfold filled_upto. rewrite !Z.min_r in * by lia. exists v. split; [done|]. intros p.
    rewrite (writes_same _ _ _ _ _ Hper1 Ho Hw2 p). apply Hw.
Qed.

Lemma wp_memset_loop s val num_bytes addr n : forall k s1 addr1 written,
  solver_ok (solver s) -> watch_ok s -> get_width num_bytes <= 64 -> get_width addr = 64 -> get_width val = 8 ->
  running s s1 -> get_width addr1 = 64 -> get_width written = get_width num_bytes ->
  (forall m, eval m addr1 = (eval m addr + k) mod 2 ^ 64) -> (forall m, eval m written = k mod 2 ^ get_width num_bytes) ->
  0 <= k -> k + Z.of_nat n <= 2 ^ get_width num_bytes ->
  (forall m, filled_upto (mem_bit (mem s) m) (mem_bit (mem s1) m) (eval m addr) (eval m val) k (eval m num_bytes)) ->
  wp (memset_loop n val num_bytes addr1 written) s1 (fun r s' =>
    match r with
    | Ok _ => running s s' /\ forall m,
        filled_upto (mem_bit (mem s) m) (mem_bit (mem s') m) (eval m addr) (eval m val) (k + Z.of_nat n) (eval m num_bytes)
    | Err e => copy_failed e
    | _ => False
    end).
Proof.
  induction n as [|n IH]; intros k s1 addr1 written O Hwa Wn Wa Wval Hrun Wa1 Ww Ea Ew Hk Hkn Hinv; cbn [memset_loop].
  { apply wp_ret. split; [done|]. intros m. rewrite Z.add_0_r. by apply Hinv. }
  pose proof (width_pos num_bytes) as Wp. pose proof (Z.pow_le_mono_r 2 _ _ ltac:(lia) Wn) as Hpow.
  assert (read_size 8) as Hb by (split; [lia|by right]).
  apply (wp_running_read s); [done..|]. intros ov s2 Hrun2 Em2 Wov Hov. cbv zeta.
  destruct (pred_law_at ugt _ num_bytes written ugt_law ltac:(congruence)) as [Wc Ec].
  destruct (cond_bv_law (ugt num_bytes written) val ov Wc ltac:(congruence)) as [Wv Ev].
  apply wp_bind, (wp_running_write s); [done..| |done|].
  { rewrite Wv, Wval. split; [lia|done]. }
  intros s4 Hrun4 Hwr. rewrite Em2 in Hwr.
  destruct (bv_inc_law addr1) as [Wia Eia], (bv_inc_law written) as [Wiw Eiw].
  replace (k + Z.of_nat (S n)) with (k + 1 + Z.of_nat n) by lia.
  apply IH; [done|done|done|done|done|done|congruence|congruence| | |lia|lia|].
  - intros m. rewrite Eia, Ea, Wa1, Zplus_mod_idemp_l. f_equal. lia.
  - intros m. rewrite Eiw, Ew, Ww, Zplus_mod_idemp_l. done.
  - intros m. pose proof (eval_range m num_bytes) as Rn. pose proof (eval_range m val) as Rb. rewrite Wval in Rb.
    eapply (fill_byte_at _ (mem_bit (mem s1) m)); [apply mem_periodic|lia|lia|done|by apply Hinv| |].
    + rewrite <- Ea. apply Hov.
    + rewrite <- Ea. specialize (Hwr m). rewrite Wv, Wval, Ev, Ec, Ew, Z.mod_small in Hwr by lia. by rewrite b2z_eqb_1 in Hwr.
Qed.

Lemma wp_max_bytes {A} s num_bytes (k : Z -> M State A) (Q : outcome A -> State -> Prop) :
  solver_ok (solver s) -> satisfiable (solver s) -> get_width num_bytes <= 64 ->
  (forall e s', query_failed e -> Q (Err e) s') ->
  (forall mx sol, same_solver (solver s) sol -> is_max (solver s) num_bytes mx -> wp (k mx) (set_solver sol s) Q) ->
  wp (r ← max_possible_solution_for_bv_as_u64 num_bytes; mx ← lift (unwrap r); k mx) s Q.
Proof.
  intros O Hsat W HErr HOk. apply wp_bind, wp_on_solver. eapply wp_mono; [by apply max_u64_spec|].
  intros [[mx|]|e|p|] sol; cbn; [| |by apply HErr|done|done]; [intros [Hs Hmx]|by intros [_ []]].
  apply wp_bind, wp_lift. cbn. by apply HOk.
Qed.

(** *** The two functions *)

(** From the choice of the length on. *)
Lemma copied_start s num_bytes sol :
  copied s num_bytes (mem s) (set_solver sol s) -> running (set_solver sol s) (set_solver sol s) /\ solver_ok sol /\ satisfiable sol.
Proof.
  intros (sol0 & E & Hwf & O & Hs & _). assert (sol0 = sol) as -> by by injection E. split; [|done].
  exists (mem s), sol. split; [by destruct s|]. by split.
Qed.
Lemma copied_end s num_bytes sol s' :
  copied s num_bytes (mem s) (set_solver sol s) -> running (set_solver sol s) s' ->
  copied s num_bytes (mem s') s' /\ forall m, models (solver s') m <-> models sol m.
Proof.
  intros Hc (mem' & sol' & -> & Hwf & Hs). cbn in Hs |- *. split; [|intros m; by rewrite <- Hs].
  change (set_solver sol' (set_mem mem' (set_solver sol s))) with (set_solver sol' (set_mem mem' s)). by eapply copied_mem.
Qed.

Lemma copied_sub s num_bytes mem' sol : copied s num_bytes mem' (set_solver sol s) ->
  forall m, models sol m -> models (solver s) m /\ within_max s (eval m num_bytes).
Proof.
  intros (sol0 & E & _ & _ & _ & Hw & Hc) m Hm. assert (sol0 = sol) as -> by by injection E.
  split; [|by apply Hw]. destruct Hc as [[len Hc]|[_ Hc]]; by apply Hc in Hm as [? _].
Qed.

(** C25: [memcpy] and [memmove].  The destination is returned; the length argument
    is fixed, or, when the policy leaves it symbolic, only bounded; and under
    every model of the constraints the memory is the one before with as many
    bytes as the length argument says, as they were in the source before,
    written to the destination.  This is for lengths (within the configured
    maximum, if there is one) whose bits can be counted in a [u32].  A concrete
    length is copied in one piece, whether or not source and destination overlap;
    a symbolic one byte by byte from the front, so that then the destination must
    not start in the middle of the source. *)
Theorem memcpy_correct s dest src num_bytes :
  copy_ok s num_bytes -> access_ok s dest -> get_width src = 64 ->
  (concrete (concretize_memcpy_lengths (config s)) = false ->
   forall m, models (solver s) m -> within_max s (eval m num_bytes) -> clear_ahead (eval m dest) (eval m src) (eval m num_bytes)) ->
  wp (memcpy_bv dest src num_bytes) s (fun r s' =>
    match r with
    | Ok d => d = dest /\ exists mem', copied s num_bytes mem' s' /\
        forall m, models (solver s') m ->
          exists v, reads (mem_bit (mem s) m) (8 * eval m src) (8 * eval m num_bytes) v /\
            writes (mem_bit (mem s) m) (mem_bit mem' m) (8 * eval m dest) (8 * eval m num_bytes) v
    | Err e => copy_failed e
    | _ => False
    end).
Proof.
  intros Hc (Hm & O & Hw & Wd) Ws Hclear. pose proof Hc as ((_ & _ & Wn & _) & _). unfold memcpy_bv. wp_step.
  apply wp_copy_length; [done|done|done|intros len sol Hlen Hbits Hcop Hfix|intros sol Hpol Hcop];
    destruct (copied_start s num_bytes sol Hcop) as (Hrun & O' & Hsat).
  - destruct (Z.eqb_spec len 0) as [->|Hne].
    { apply wp_bind, wp_ret, wp_ret. split; [done|]. exists (mem s). split; [done|]. intros m Hmod.
      rewrite (Hfix m Hmod). exists 0. split; [|apply writes_nothing]. split; [done|]. intros j Hj. lia. }
    unfold as_u32. rewrite Z.mod_small by lia. unfold u32_mul. rewrite (proj2 (Z.ltb_lt _ _)) by lia.
    apply wp_bind. wp_step. rewrite (Z.mul_comm len 8).
    assert (byte_size (8 * len)) as Hbs by (split; [lia|]; by rewrite Z.mul_comm, Z.mod_mul).
    apply (wp_running_read (set_solver sol s)); [done..|destruct Hbs; split; [done|by right]|done|]. intros v s2 Hrun2 Em2 Wv Hv.
    apply (wp_running_write (set_solver sol s)); [done..|by rewrite Wv|done|]. intros s3 Hrun3 Hwr. rewrite Em2 in Hwr. setoid_rewrite Wv in Hwr.
    apply wp_ret. split; [done|]. destruct (copied_end _ _ _ _ Hcop Hrun3) as [Hcop3 Hmod3]. exists (mem s3). split; [done|].
    intros m Hmod. apply Hmod3 in Hmod. rewrite (Hfix m Hmod). exists (eval m v). split; [apply Hv|apply Hwr].
  - apply wp_bind, wp_max_bytes; [done|done|done|by left|]. intros mx sol2 Hs2 Hmx. cbn in Hs2, Hmx.
    assert (0 <= mx < 2 ^ get_width num_bytes) as Rmx by (destruct Hmx as [Hp _]; by eapply possible_range).
    destruct (bv_zero_law (get_width num_bytes) (width_pos _)) as [Wz Ez].
    eapply wp_mono; [apply (wp_memcpy_loop (set_solver sol s) num_bytes src dest _ 0)|]; try done.
    + exists (mem s), sol2. split; [by destruct s|]. by split.
    + intros m. rewrite Z.add_0_r, Z.mod_small; [done|]. rewrite <- Ws. apply eval_range.
    + intros m. rewrite Z.add_0_r, Z.mod_small; [done|]. rewrite <- Wd. apply eval_range.
    + lia.
    + intros m _. pose proof (eval_range m num_bytes). exists 0. rewrite Z.min_l by lia. split; [|apply writes_nothing].
      split; [done|]. intros j Hj. lia.
    + intros [[]|e|p|] s3; cbn -[running]; [|done..]. intros [Hrun3 Hall]. apply wp_ret. split; [done|].
      destruct (copied_end _ _ _ _ Hcop Hrun3) as [Hcop3 Hmod3]. exists (mem s3). split; [done|]. intros m Hmod%Hmod3.
      destruct (copied_sub _ _ _ _ Hcop m Hmod) as [Hmod0 Hmax]. destruct (Hall m (Hclear Hpol m Hmod0 Hmax)) as (v & Hr & Hwv). exists v.
      assert (eval m num_bytes <= mx) as Hle by (apply Hmx; by exists m). rewrite Z.min_r in Hr, Hwv by lia. done.
Qed.

(** C26: [memset].  The address is returned; the length argument is fixed, or,
    when the policy leaves it symbolic, only bounded; and under every model of
    the constraints exactly as many bytes from the address on as the length
    argument says hold the low byte of the value, and nothing else in memory
    changed.  This is for lengths (within the configured maximum, if there is
    one) whose bits can be counted in a [u32]. *)
Theorem memset_correct s addr val num_bytes :
  copy_ok s num_bytes -> access_ok s addr -> 8 <= get_width val ->
  wp (memset_bv addr val num_bytes) s (fun r s' =>
    match r with
    | Ok a => a = addr /\ exists mem', copied s num_bytes mem' s' /\
        forall m, models (solver s') m -> exists v, filled v (eval m val mod 256) (eval m num_bytes) /\
          writes (mem_bit (mem s) m) (mem_bit mem' m) (8 * eval m addr) (8 * eval m num_bytes) v
    | Err e => copy_failed e
    | _ => False
    end).
Proof.
  intros Hc (Hm & O & Hw & Wd) Hval. pose proof Hc as ((_ & _ & Wn & _) & _). unfold memset_bv. destruct (fill_byte val Hval) as [Wv Ev].
  revert Wv Ev. cbv zeta. set (val' := if 8 <? get_width val then slice val 7 0 else val). intros Wv Ev. wp_step.
  apply wp_copy_length; [done|done|done|intros len sol Hlen Hbits Hcop Hfix|intros sol Hpol Hcop];
    destruct (copied_start s num_bytes sol Hcop) as (Hrun & O' & Hsat).
  - destruct (Z.eqb_spec len 0) as [->|Hne].
    { apply wp_bind, wp_ret, wp_ret. split; [done|]. exists (mem s). split; [done|]. intros m Hmod.
      rewrite (Hfix m Hmod). exists 0. split; [apply filled_nothing|apply writes_nothing]. }
    rewrite Wv. change (8 =? 8) with true. cbn [assert_]. apply wp_bind. wp_step.
    apply wp_fill_value; [done|done|lia|lia|by left|]. intros big sol2 Hs2 Wb Hb. cbn in Hs2, Hb.
    assert (byte_size (8 * len)) as Hbs by (split; [lia|]; by rewrite Z.mul_comm, Z.mod_mul).
    apply (wp_running_write (set_solver sol s)); [done|done| |done|by rewrite Wb|done|].
    { exists (mem s), sol2. split; [by destruct s|]. by split. }
    intros s3 Hrun3 Hwr. setoid_rewrite Wb in Hwr. apply wp_ret. split; [done|].
    destruct (copied_end _ _ _ _ Hcop Hrun3) as [Hcop3 Hmod3]. exists (mem s3). split; [done|].
    intros m Hmod%Hmod3. rewrite (Hfix m Hmod). exists (eval m big). rewrite <- Ev. split; [by apply Hb|apply Hwr].
  - apply wp_bind, wp_max_bytes; [done|done|done|by left|]. intros mx sol2 Hs2 Hmx. cbn in Hs2, Hmx.
    assert (0 <= mx < 2 ^ get_width num_bytes) as Rmx by (destruct Hmx as [Hp _]; by eapply possible_range).
    destruct (bv_zero_law (get_width num_bytes) (width_pos _)) as [Wz Ez].
    eapply wp_mono; [apply (wp_memset_loop (set_solver sol s) val' num_bytes addr _ 0)|]; try done.
    + exists (mem s), sol2. split; [by destruct s|]. by split.
    + intros m. rewrite Z.add_0_r, Z.mod_small; [done|]. rewrite <- Wd. apply eval_range.
    + lia.
    + intros m. pose proof (eval_range m num_bytes). exists 0. rewrite Z.min_l by lia. split; [apply filled_nothing|apply writes_nothing].
    + intros [[]|e|p|] s3; cbn -[running]; [|done..]. intros [Hrun3 Hall]. apply wp_ret. split; [done|].
      destruct (copied_end _ _ _ _ Hcop Hrun3) as [Hcop3 Hmod3]. exists (mem s3). split; [done|]. intros m Hmod%Hmod3.
      destruct (Hall m) as (v & Hf & Hwv). exists v. rewrite Ev in Hf.
      assert (eval m num_bytes <= mx) as Hle by (apply Hmx; by exists m). rewrite Z.min_r in Hf, Hwv by lia. done.
Qed.

End copies.
