(* ===== verification/Concrete.v ===== *)
(** * Concrete: what LLVM does with the integers and pointers of a program

    A reference semantics, independent of the engine: arithmetic, comparisons,
    conversions, [select], [phi], loads, stores, [getelementptr] and casts of
    pointers, branches, [switch], calls (also recursive ones) and [ret].  A
    configuration steps to the next one; the values of the local names are
    integers, not terms, and every call has its own; the memory is bits, and a
    pointer is the number of a byte.  As the language reference has it, the
    phis of a block are all evaluated on entry of the block, with the values
    that the names had before any of them.  A configuration also counts how
    often each name was bound, which is what the loop bound of the engine
    limits.

    [function_ok] checks that a function is in this part of the language: the
    types of its operands agree with the width of each name, every name is
    bound before it is used, and the phis of a block do not read each other.
    Where LLVM leaves a result undefined (division by zero, shifts beyond the
    width, any address that is not an object) the result is the one that
    SMT-LIB fixes or the flat memory has, as everywhere in this library. *)
From S2P Require Import Prelude Bits Backend MemorySpec LLVMIR Layout State InstrTheorems DataTheorems.

Open Scope Z_scope.

(** The values of the local names, and how often each name of each function
    was bound. *)
Abbreviation Env := (gmap Name Z).
Abbreviation Counts := (gmap (string * Name) nat).
Definition count (k : Counts) (fn : string) (n : Name) : nat := default 0%nat (k !! (fn, n)).

(** A memory: a bit for each bit address. *)
Definition Mem : Type := Z -> bool.
(** The [n] bits from an address on, as a number, the lowest first; and a
    memory with [size] bits replaced. *)
Fixpoint load_bits (mem : Mem) (start : Z) (n : nat) : Z :=
  match n with O => 0 | S n => Z.b2z (mem start) + 2 * load_bits mem (start + 1) n end.
Definition store_bits (mem : Mem) (start size v : Z) : Mem :=
  fun p => if (p - start) mod space <? size then Z.testbit v ((p - start) mod space) else mem p.

(** A call that has not returned: the caller is to go on at an instruction of
    a block, with the result bound to a name. *)
Record Frame := {
  fr_mod : Module_;
  fr_func : Function_;
  fr_block : BasicBlock;
  fr_next : nat;
  fr_env : Env;
  fr_dest : option Name
}.

(** Where a function is: about to enter a block from another one (from none,
    for the entry block), or at an instruction of a block (or the terminator). *)
Inductive Point :=
| Enter (prev : option Name) (b : BasicBlock)
| At (b : BasicBlock) (i : nat).
Inductive Conf :=
| Running (md : Module_) (f : Function_) (p : Point) (env : Env) (mem : Mem) (frames : list Frame) (k : Counts)
| Returning (v : option Z) (mem : Mem) (frames : list Frame) (k : Counts).
Definition conf_counts (c : Conf) : Counts := match c with Running _ _ _ _ _ _ k | Returning _ _ _ k => k end.

(** Binding a name of the function [fn]. *)
Definition bump (fn : string) (n : Name) (k : Counts) : Counts := <[(fn, n) := S (count k fn n)]> k.
Definition bind (fn : string) (st : Env * Counts) (b : Name * Z) : Env * Counts :=
  (<[b.1 := b.2]> st.1, bump fn b.1 st.2).
Definition bind_all (fn : string) (st : Env * Counts) (bs : list (Name * Z)) : Env * Counts := foldl (bind fn) st bs.

Lemma count_bump (fn : string) (n : Name) (k : Counts) (fn' : string) (n' : Name) : count (bump fn n k) fn' n' = (if decide ((fn, n) = (fn', n')) then S (count k fn n) else count k fn' n').
Proof. unfold count, bump. destruct (decide _) as [[= -> ->]|Hne]; [by rewrite lookup_insert_eq|by rewrite lookup_insert_ne]. Qed.
Lemma count_le_bump (fn : string) (n : Name) (k : Counts) (fn' : string) (n' : Name) : (count k fn' n' <= count (bump fn n k) fn' n')%nat.
Proof. rewrite count_bump. case_decide as E; [injection E as -> ->; lia|done]. Qed.
Lemma count_le_bind_all (fn : string) (st : Env * Counts) bs (fn' : string) (n' : Name) : (count st.2 fn' n' <= count (bind_all fn st bs).2 fn' n')%nat.
Proof.
  revert st. induction bs as [|b bs IH]; intros st; [done|]. etrans; [|apply (IH (bind fn st b))]. apply count_le_bump.
Qed.

(** The phis at the head of a block. *)
Fixpoint head_phis (insts : list Instruction) : list Phi :=
  match insts with IPhi p :: insts => p :: head_phis insts | _ => [] end.
Definition phis (b : BasicBlock) : list Phi := head_phis (bb_instrs b).

Section semantics.
Context `{L : LLVM}.

Definition val_of (env : Env) (op : Operand) : option Z :=
  match op with
  | LocalOperand n _ => env !! n
  | ConstantOperand (CInt _ v) => Some v
  | ConstantOperand (CNull _) => Some 0
  | _ => None
  end.
Definition int_width (ty : Type_) : option Z := match ty with IntegerType w => Some w | _ => None end.
(** The width of a value, an integer or a pointer. *)
Definition value_width (ty : Type_) : option Z :=
  match ty with IntegerType w => Some w | PointerType _ => Some 64 | _ => None end.

Definition converted (env : Env) (c : Conversion) (u : UnaryOp) : option (Name * Z) :=
  w ← int_width (operand_type (un_operand u));
  w' ← int_width (instr_type (conversion_instr c u));
  a ← val_of env (un_operand u);
  Some (un_dest u, conversion_val c w w' a).

(** The offset in bytes that the operands of a [getelementptr] describe; the
    indices of pointers and arrays are signed. *)
Fixpoint gep_offset (env : Env) (ops : list Operand) (ty : Type_) : option Z :=
  match ops with
  | [] => Some 0
  | op :: ops =>
      match sequence_element ty with
      | Some el =>
          match size el with
          | Ok sz =>
              w ← value_width (operand_type op);
              i ← val_of env op;
              r ← gep_offset env ops el;
              Some (sval w i * (sz / 8) + r)
          | _ => None
          end
      | None =>
          match op with
          | ConstantOperand (CInt _ i) =>
              match get_offset_constant_index ty i with
              | Ok (off, el) => r ← gep_offset env ops el; Some (off + r)
              | _ => None
              end
          | _ => None
          end
      end
  end.

(** The name that an instruction binds, and its value. *)
Definition inst_val (env : Env) (mem : Mem) (i : Instruction) : option (Name * Z) :=
  match i with
  | IBinaryOp bop =>
      w ← int_width (operand_type (bop_operand0 bop));
      f ← binop_val (bop_kind bop);
      a ← val_of env (bop_operand0 bop);
      b ← val_of env (bop_operand1 bop);
      Some (bop_dest bop, f w a b)
  | IICmp icmp =>
      w ← value_width (operand_type (icmp_operand0 icmp));
      a ← val_of env (icmp_operand0 icmp);
      b ← val_of env (icmp_operand1 icmp);
      Some (icmp_dest icmp, Z.b2z (icmp_val (icmp_predicate icmp) w a b))
  | IZExt u => converted env ZExt u
  | ISExt u => converted env SExt u
  | ITrunc u => converted env Trunc u
  | IPtrToInt u | IIntToPtr u | IBitCast u =>
      a ← val_of env (un_operand u);
      Some (un_dest u, a)
  | ISelect sel =>
      c ← val_of env (select_condition sel);
      a ← val_of env (select_true_value sel);
      b ← val_of env (select_false_value sel);
      Some (select_dest sel, if c =? 1 then a else b)
  | IGetElementPtr gep =>
      a ← val_of env (gep_address gep);
      off ← gep_offset env (gep_indices gep) (operand_type (gep_address gep));
      Some (gep_dest gep, (a + off) mod 2 ^ 64)
  | ILoad load =>
      w ← value_width (instr_type (ILoad load));
      a ← val_of env (load_address load);
      Some (load_dest load, load_bits mem (8 * a) (Z.to_nat w))
  | _ => None
  end.
(** The memory after a store. *)
Definition stored (env : Env) (mem : Mem) (store : Store) : option Mem :=
  w ← value_width (operand_type (store_value store));
  a ← val_of env (store_address store);
  v ← val_of env (store_value store);
  Some (store_bits mem (8 * a) w v).

(** The operand a phi selects on entry from [prev], and its value. *)
Definition phi_operand (prev : Name) (p : Phi) : option Operand :=
  fst <$> List.find (fun '(_, bbname) => bool_decide (bbname = prev)) (phi_incoming_values p).
Definition phi_val (env : Env) (prev : option Name) (p : Phi) : option (Name * Z) :=
  prev ← prev;
  op ← phi_operand prev p;
  v ← val_of env op;
  Some (phi_dest p, v).

(** The block a terminator goes to. *)
Definition const_is (v : Z) (c : Constant) : bool := match c with CInt _ v' => v' =? v | _ => false end.
Definition next_block (env : Env) (term : Terminator) : option Name :=
  match term with
  | TBr dest => Some dest
  | TCondBr br =>
      c ← val_of env (condbr_condition br);
      Some (if c =? 1 then condbr_true_dest br else condbr_false_dest br)
  | TSwitch sw =>
      v ← val_of env (switch_operand sw);
      Some (match List.find (fun '(c, _) => const_is v c) (switch_dests sw) with
            | Some (_, n) => n
            | None => switch_default_dest sw
            end)
  | _ => None
  end.
Definition returned_val (env : Env) (term : Terminator) : option (option Z) :=
  match term with
  | TRet (Some op) => Some <$> val_of env op
  | TRet None => Some None
  | _ => None
  end.

(** The name of the function that is called. *)
Definition callee_name (call : Call) : option string :=
  match call_function call with
  | inr (ConstantOperand (CGlobalReference (NameStr name) _)) => Some name
  | _ => None
  end.

(** The function that a name refers to in a module. *)
Context (link : Module_ -> string -> option (Function_ * Module_)).

(** A function with its arguments. *)
Definition called (md : Module_) (f : Function_) (args : list Z) (mem : Mem) (frames : list Frame) (k : Counts) : option Conf :=
  b ← func_basic_blocks f !! 0%nat;
  let '(env, k) := bind_all (func_name f) (∅, k) (zip (param_name <$> func_parameters f) args) in
  Some (Running md f (Enter None b) env mem frames k).

(** The result of a call is bound, if there is one. *)
Definition bind_result (fn : string) (st : Env * Counts) (dest : option Name) (v : option Z) : option (Env * Counts) :=
  match dest, v with
  | Some n, Some x => Some (bind fn st (n, x))
  | None, None => Some st
  | _, _ => None
  end.

Inductive step : Conf -> Conf -> Prop :=
| step_enter md f prev b env mem frames k vs env' k' :
    mapM (phi_val env prev) (phis b) = Some vs -> bind_all (func_name f) (env, k) vs = (env', k') ->
    step (Running md f (Enter prev b) env mem frames k) (Running md f (At b (length (phis b))) env' mem frames k')
| step_inst md f b i inst env mem frames k nv :
    bb_instrs b !! i = Some inst -> inst_val env mem inst = Some nv ->
    step (Running md f (At b i) env mem frames k)
         (Running md f (At b (S i)) (bind (func_name f) (env, k) nv).1 mem frames (bind (func_name f) (env, k) nv).2)
| step_store md f b i store env mem frames k mem' :
    bb_instrs b !! i = Some (IStore store) -> stored env mem store = Some mem' ->
    step (Running md f (At b i) env mem frames k) (Running md f (At b (S i)) env mem' frames k)
| step_call md f b i call env mem frames k name g md' args c :
    bb_instrs b !! i = Some (ICall call) -> callee_name call = Some name -> link md name = Some (g, md') ->
    mapM (val_of env) (call_arguments call) = Some args ->
    called md' g args mem ({| fr_mod := md; fr_func := f; fr_block := b; fr_next := S i; fr_env := env;
                          fr_dest := call_dest call |} :: frames) k = Some c ->
    step (Running md f (At b i) env mem frames k) c
| step_jump md f b i env mem frames k dest b' :
    i = length (bb_instrs b) -> next_block env (bb_term b) = Some dest -> get_bb_by_name f dest = Some b' ->
    step (Running md f (At b i) env mem frames k) (Running md f (Enter (Some (bb_name b)) b') env mem frames k)
| step_ret md f b i env mem frames k v :
    i = length (bb_instrs b) -> returned_val env (bb_term b) = Some v ->
    step (Running md f (At b i) env mem frames k) (Returning v mem frames k)
| step_return v fr mem frames k env' k' :
    bind_result (func_name (fr_func fr)) (fr_env fr, k) (fr_dest fr) v = Some (env', k') ->
    step (Returning v mem (fr :: frames) k)
         (Running (fr_mod fr) (fr_func fr) (At (fr_block fr) (fr_next fr)) env' mem frames k').

(** The same, as a function. *)
Definition next_conf (c : Conf) : option Conf :=
  match c with
  | Running md f (Enter prev b) env mem frames k =>
      vs ← mapM (phi_val env prev) (phis b);
      Some (Running md f (At b (length (phis b))) (bind_all (func_name f) (env, k) vs).1 mem frames (bind_all (func_name f) (env, k) vs).2)
  | Running md f (At b i) env mem frames k =>
      match bb_instrs b !! i with
      | Some (ICall call) =>
          name ← callee_name call;
          '(g, md') ← link md name;
          args ← mapM (val_of env) (call_arguments call);
          called md' g args mem ({| fr_mod := md; fr_func := f; fr_block := b; fr_next := S i; fr_env := env;
                                fr_dest := call_dest call |} :: frames) k
      | Some (IStore store) => mem' ← stored env mem store; Some (Running md f (At b (S i)) env mem' frames k)
      | Some inst =>
          nv ← inst_val env mem inst;
          Some (Running md f (At b (S i)) (bind (func_name f) (env, k) nv).1 mem frames (bind (func_name f) (env, k) nv).2)
      | None =>
          if bool_decide (i = length (bb_instrs b)) then
            match returned_val env (bb_term b) with
            | Some v => Some (Returning v mem frames k)
            | None =>
                dest ← next_block env (bb_term b);
                b' ← get_bb_by_name f dest;
                Some (Running md f (Enter (Some (bb_name b)) b') env mem frames k)
            end
          else None
      end
  | Returning v mem (fr :: frames) k =>
      '(env', k') ← bind_result (func_name (fr_func fr)) (fr_env fr, k) (fr_dest fr) v;
      Some (Running (fr_mod fr) (fr_func fr) (At (fr_block fr) (fr_next fr)) env' mem frames k')
  | Returning _ _ [] _ => None
  end.

Lemma end_no_inst (b : BasicBlock) i : i = length (bb_instrs b) -> bb_instrs b !! i = None.
Proof. intros ->. by apply lookup_ge_None_2. Qed.
Lemma next_returns_nothing env term dest : next_block env term = Some dest -> returned_val env term = None.
Proof. by destruct term. Qed.

Lemma step_next c c' : step c c' <-> next_conf c = Some c'.
Proof.
  split.
  - intros Hs. inversion Hs as [??????????? Hvs Hb|?????????? Hi Hv|?????????? Hi Hm|?????????????? Hi Hn Hl Ha Hc|?????????? Hi Hn Hg|????????? Hi Hr|??????? Hb]; subst; cbn [next_conf].
    + rewrite Hvs. cbn. by rewrite Hb.
    + rewrite Hi. destruct inst; try done; by rewrite Hv.
    + by rewrite Hi, Hm.
    + rewrite Hi, Hn. cbn. rewrite Hl. cbn. by rewrite Ha.
    + rewrite end_no_inst, bool_decide_eq_true_2, (next_returns_nothing _ _ _ Hn), Hn by done. cbn. by rewrite Hg.
    + by rewrite end_no_inst, bool_decide_eq_true_2, Hr by done.
    + by rewrite Hb.
  - destruct c as [md f [prev b|b i] env mem frames k|v mem [|fr frames] k]; cbn [next_conf]; [| |done|].
    + destruct (mapM _ _) as [vs|] eqn:Hvs; [|done]. intros [= <-]. eapply step_enter; [exact Hvs|]. by destruct (bind_all _ _ _).
    + destruct (bb_instrs b !! i) as [inst|] eqn:Hi.
      * assert ((nv ← inst_val env mem inst;
                 Some (Running md f (At b (S i)) (bind (func_name f) (env, k) nv).1 mem frames (bind (func_name f) (env, k) nv).2)) = Some c' ->
                step (Running md f (At b i) env mem frames k) c') as Hplain.
        { destruct (inst_val env mem inst) as [nv|] eqn:Hv; [|done]. intros [= <-]. by eapply step_inst. }
        destruct inst as [ | | |store| | | | | | | | | | | | | | | | | |call| ]; try exact Hplain.
        { destruct (stored env mem store) as [mem'|] eqn:Hm; [|done]. intros [= <-]. by eapply step_store. }
        destruct (callee_name call) as [name|] eqn:Hn; [|done]. cbn.
        destruct (link md name) as [[g md']|] eqn:Hl; [|done]. cbn. destruct (mapM _ _) as [args|] eqn:Ha; [|done]. cbn.
        intros Hc. by eapply step_call.
      * case_bool_decide as Hend; [|done]. destruct (returned_val env (bb_term b)) as [v|] eqn:Hr; [intros [= <-]; by apply step_ret|].
        destruct (next_block env (bb_term b)) as [dest|] eqn:Hn; [|done]. cbn. destruct (get_bb_by_name f dest) as [b'|] eqn:Hg; [|done].
        intros [= <-]. by eapply step_jump.
    + destruct (bind_result _ _ _ _) as [[env' k']|] eqn:Hb; [|done]. intros [= <-]. by apply step_return.
Qed.

(** Execution is deterministic: the inputs determine the result. *)
Lemma step_det c c1 c2 : step c c1 -> step c c2 -> c1 = c2.
Proof. rewrite !step_next. congruence. Qed.

Lemma run_det c v v' mem mem' k k' : rtc step c (Returning v mem [] k) -> rtc step c (Returning v' mem' [] k') -> v = v'.
Proof.
  intros H1. remember (Returning v mem [] k) as r eqn:Hr. revert Hr. induction H1 as [c|c c1 r Hs _ IH]; intros ->.
  - intros H2. inversion H2 as [|? c' ? Hs]; subst; [done|]. inversion Hs.
  - intros H2. inversion H2 as [? E|? c2 ? Hs' H2']; subst; [inversion Hs|].
    rewrite (step_det _ _ _ Hs Hs') in IH. by apply IH.
Qed.

(** Running until the first call returns. *)
Fixpoint run (fuel : nat) (c : Conf) : option (option Z * Counts) :=
  match c, fuel with
  | Returning v _ [] k, _ => Some (v, k)
  | _, S fuel => next_conf c ≫= run fuel
  | _, O => None
  end.
Lemma run_step fuel c r : run (S fuel) c = Some r -> (exists v mem k, c = Returning v mem [] k /\ r = (v, k)) \/ exists c', step c c' /\ run fuel c' = Some r.
Proof.
  assert (next_conf c ≫= run fuel = Some r -> exists c', step c c' /\ run fuel c' = Some r) as Hn.
  { destruct (next_conf c) as [c'|] eqn:E; [|done]. intros Hr. exists c'. split; [by apply step_next|done]. }
  destruct c as [|v mem [|] k]; cbn [run]; [by auto| |by auto]. intros [= <-]. left. by exists v, mem, k.
Qed.
Lemma run_returns fuel c v k : run fuel c = Some (v, k) -> exists mem, rtc step c (Returning v mem [] k).
Proof.
  revert c. induction fuel as [|fuel IH]; intros c.
  - destruct c as [|v' mem [|] k']; try done. intros [= <- <-]. exists mem. apply rtc_refl.
  - intros [(v' & mem & k' & -> & [= -> ->])|(c' & Hs & Hr)]%run_step; [exists mem; apply rtc_refl|].
    destruct (IH _ Hr) as [mem Hm]. exists mem. by eapply rtc_l.
Qed.

(** The counts grow; when the program returns, it was within the bound if the
    final ones are. *)
Lemma count_le_step c c' fn n : step c c' -> (count (conf_counts c) fn n <= count (conf_counts c') fn n)%nat.
Proof.
  destruct 1 as [md f prev b env mem frames k vs env' k' _ Hb| | |md f b i call env mem frames k name g md' args c _ _ _ _ Hc| | |v fr mem frames k env' k' Hb]; cbn; try done.
  - pose proof (count_le_bind_all (func_name f) (env, k) vs fn n) as Hle. by rewrite Hb in Hle.
  - apply count_le_bump.
  - unfold called in Hc. destruct (_ !! _) as [b'|]; [|done]. cbn in Hc.
    pose proof (count_le_bind_all (func_name g) (∅, k) (zip (param_name <$> func_parameters g) args) fn n) as Hle.
    destruct (bind_all _ _ _). by injection Hc as <-.
  - unfold bind_result in Hb. destruct (fr_dest fr) as [d|], v as [x|]; simplify_eq; [|done]. injection Hb as _ <-. apply count_le_bump.
Qed.
Lemma returns_last c c' v mem k : rtc step c (Returning v mem [] k) -> rtc step c c' -> rtc step c' (Returning v mem [] k).
Proof.
  intros Hr Hc. revert Hr. induction Hc as [|c c1 c' Hs _ IH]; [done|]. intros Hr. apply IH.
  inversion Hr as [? E|? c2 ? Hs' Hr']; subst; [inversion Hs|]. by rewrite (step_det _ _ _ Hs Hs').
Qed.
Lemma count_le_steps c c' fn n : rtc step c c' -> (count (conf_counts c) fn n <= count (conf_counts c') fn n)%nat.
Proof. induction 1 as [|c c1 c' Hs _ IH]; [done|]. etrans; [by eapply count_le_step|done]. Qed.

(** [f] on some arguments and some memory returns [v]; it binds some name more
    than [bound] times. *)
Definition returns_on (md : Module_) (f : Function_) (args : list Z) (mem : Mem) (v : option Z) : Prop :=
  exists c mem' k, called md f args mem [] ∅ = Some c /\ rtc step c (Returning v mem' [] k).
Definition loops_beyond (bound : Z) (md : Module_) (f : Function_) (args : list Z) (mem : Mem) : Prop :=
  exists c c' fn n, called md f args mem [] ∅ = Some c /\ rtc step c c' /\ bound < Z.of_nat (count (conf_counts c') fn n).

Lemma returns_det md f args mem v v' : returns_on md f args mem v -> returns_on md f args mem v' -> v = v'.
Proof. intros (c & mem1 & k & E & H1) (c' & mem2 & k' & E' & H2). simplify_eq. by eapply run_det. Qed.

(** Running the program on some arguments, to a result with small counts. *)
Definition runs_within (fuel : nat) (bound : Z) (md : Module_) (f : Function_) (args : list Z) (mem : Mem) (v : Z) : bool :=
  match called md f args mem [] ∅ ≫= run fuel with
  | Some (Some v', k) => (v' =? v) && forallb (fun p => Z.of_nat p.2 <=? bound) (map_to_list k)
  | _ => false
  end.
Lemma run_within fuel bound md f args mem v :
  runs_within fuel bound md f args mem v = true -> 0 <= bound ->
  returns_on md f args mem (Some v) /\ ~ loops_beyond bound md f args mem.
Proof.
  unfold runs_within. destruct (called md f args mem [] ∅) as [c|] eqn:Hc; [|done]. cbn [mbind option_bind].
  destruct (run fuel c) as [[[v'|] k]|] eqn:Hr; try done. rewrite andb_true_iff, Z.eqb_eq, forallb_forall. intros [-> Hk] Hb.
  apply run_returns in Hr as [mem' Hr]. split; [by exists c, mem', k|]. intros (c0 & c' & fn & n & Hc0 & Hs & Hlt). simplify_eq.
  pose proof (count_le_steps _ _ fn n (returns_last _ _ _ _ _ Hr Hs)) as Hle. cbn in Hle. unfold count at 2 in Hle.
  destruct (k !! (fn, n)) as [x|] eqn:Ex; cbn in Hle; [|lia].
  apply elem_of_map_to_list, list_elem_of_In, Hk, Z.leb_le in Ex. cbn in Ex. lia.
Qed.

(** ** The programs it covers *)

(** For each function, the width of its names and, for each block, names that
    are bound whenever its phis were evaluated. *)
Context (widths : string -> gmap Name Z) (bound_in : string -> Name -> gset Name).

Section function.
Context (md : Module_) (f : Function_).
Let ws := widths (func_name f).

Definition width_ok (w : Z) : bool := (0 <? w) && (w <? 2 ^ 32).
(** The width of an operand that is a constant or one of the names [D]. *)
Definition operand_width (D : gset Name) (op : Operand) : option Z :=
  match value_width (operand_type op) with
  | Some w =>
      match op with
      | LocalOperand n _ => if bool_decide (ws !! n = Some w) && width_ok w && bool_decide (n ∈ D) then Some w else None
      | ConstantOperand (CInt bits v) =>
          if (bits =? w) && width_ok w && (0 <=? v) && (v <? 2 ^ 64) && (v <? 2 ^ w) then Some w else None
      | ConstantOperand (CNull (PointerType _)) => if w =? 64 then Some w else None
      | _ => None
      end
  | None => None
  end.
(** It is an integer. *)
Definition integer_width (D : gset Name) (op : Operand) : option Z := _ ← int_width (operand_type op); operand_width D op.

(** The instruction binds a name of width [w]. *)
Definition binds (i : Instruction) (dest : Name) (w : Z) : bool :=
  bool_decide (value_width (instr_type i) = Some w) && bool_decide (ws !! dest = Some w) && width_ok w.

Definition conversion_ok_dec (c : Conversion) (w w' : Z) : bool := if c is Trunc then w' <? w else w <? w'.
Definition converts (D : gset Name) (c : Conversion) (u : UnaryOp) : bool :=
  match integer_width D (un_operand u), int_width (instr_type (conversion_instr c u)) with
  | Some w, Some w' => conversion_ok_dec c w w' && binds (conversion_instr c u) (un_dest u) w'
  | _, _ => false
  end.

(** The casts that do not change the value. *)
Definition casts (D : gset Name) (i : Instruction) (u : UnaryOp) : bool :=
  match operand_width D (un_operand u) with Some w => binds i (un_dest u) w | None => false end.

(** An index of a pointer or array is as wide as a pointer, or a constant that
    is not negative. *)
Definition index_ok (D : gset Name) (op : Operand) : bool :=
  match operand_width D op with
  | Some w => (w =? 64) || match op with ConstantOperand (CInt _ v) => (w <=? 64) && (v <? 2 ^ (w - 1)) | _ => false end
  | None => false
  end.
Fixpoint indices_ok (D : gset Name) (ops : list Operand) (ty : Type_) : bool :=
  match ops with
  | [] => true
  | op :: ops =>
      match sequence_element ty with
      | Some el =>
          index_ok D op &&
          match size el with Ok sz => (sz mod 8 =? 0) && (0 <=? sz) && (sz / 8 <? 2 ^ 64) && indices_ok D ops el | _ => false end
      | None =>
          match op with
          | ConstantOperand (CInt _ i) =>
              bool_decide (is_Some (struct_elements ty)) &&
              match get_offset_constant_index ty i with
              | Ok (off, el) => (0 <=? off) && (off <? 2 ^ 32) && indices_ok D ops el
              | _ => false
              end
          | _ => false
          end
      end
  end.
Definition pointer_ok (D : gset Name) (op : Operand) : bool := bool_decide (operand_width D op = Some 64).
Definition gep_ok (D : gset Name) (gep : GetElementPtr) : bool :=
  pointer_ok D (gep_address gep) && indices_ok D (gep_indices gep) (operand_type (gep_address gep)) &&
  match instr_type (IGetElementPtr gep) with PointerType _ => binds (IGetElementPtr gep) (gep_dest gep) 64 | _ => false end.
(** The sizes that the memory has. *)
Definition load_ok (D : gset Name) (load : Load) : bool :=
  pointer_ok D (load_address load) &&
  match value_width (instr_type (ILoad load)) with
  | Some w => ((w <? 8) || (w mod 8 =? 0)) && binds (ILoad load) (load_dest load) w
  | None => false
  end.
Definition store_ok (D : gset Name) (store : Store) : bool :=
  pointer_ok D (store_address store) &&
  match operand_width D (store_value store) with Some w => w mod 8 =? 0 | None => false end.

(** The arguments of a call have the widths of the parameters, and its result
    is bound to a name of the width that the function returns. *)
Definition arg_ok (D : gset Name) (arg : Operand) (p : Parameter_) : bool :=
  bool_decide (is_Some (operand_width D arg)) && bool_decide (operand_width D arg = value_width (param_ty p)).
Fixpoint args_ok (D : gset Name) (args : list Operand) (ps : list Parameter_) : bool :=
  match args, ps with
  | [], [] => true
  | arg :: args, p :: ps => arg_ok D arg p && args_ok D args ps
  | _, _ => false
  end.
Definition dest_ok (dest : option Name) (ret : Type_) : bool :=
  match dest with
  | Some n => match value_width ret with Some w => bool_decide (ws !! n = Some w) | None => false end
  | None => if ret is VoidType then true else false
  end.
Definition call_ok (D : gset Name) (call : Call) : bool :=
  match callee_name call with
  | Some name =>
      match link md name with
      | Some (g, _) => args_ok D (call_arguments call) (func_parameters g) && dest_ok (call_dest call) (func_return_type g)
      | None => false
      end
  | None => false
  end.

Definition inst_ok (D : gset Name) (i : Instruction) : bool :=
  match i with
  | IBinaryOp bop =>
      match integer_width D (bop_operand0 bop), integer_width D (bop_operand1 bop) with
      | Some w, Some w' =>
          (w =? w') && type_eqb (operand_type (bop_operand0 bop)) (operand_type (bop_operand1 bop)) &&
          bool_decide (is_Some (binop_val (bop_kind bop))) && binds i (bop_dest bop) w
      | _, _ => false
      end
  | IICmp icmp =>
      match operand_width D (icmp_operand0 icmp), operand_width D (icmp_operand1 icmp) with
      | Some w, Some w' =>
          (w =? w') && type_eqb (operand_type (icmp_operand0 icmp)) (operand_type (icmp_operand1 icmp)) &&
          binds i (icmp_dest icmp) 1
      | _, _ => false
      end
  | IZExt u => converts D ZExt u
  | ISExt u => converts D SExt u
  | ITrunc u => converts D Trunc u
  | ISelect sel =>
      match operand_width D (select_condition sel), operand_width D (select_true_value sel), operand_width D (select_false_value sel) with
      | Some c, Some w, Some w' =>
          (c =? 1) && (w =? w') && type_eqb (operand_type (select_true_value sel)) (operand_type (select_false_value sel)) &&
          binds i (select_dest sel) w
      | _, _, _ => false
      end
  | IPtrToInt u | IIntToPtr u | IBitCast u => casts D i u
  | IGetElementPtr gep => gep_ok D gep
  | ILoad load => load_ok D load
  | IStore store => store_ok D store
  | ICall call => call_ok D call
  | _ => false
  end.

(** The names that the instructions up to one have bound. *)
Definition inst_dest (i : Instruction) : option Name :=
  match i with
  | IBinaryOp bop => Some (bop_dest bop)
  | IICmp icmp => Some (icmp_dest icmp)
  | IZExt u | ISExt u | ITrunc u | IPtrToInt u | IIntToPtr u | IBitCast u => Some (un_dest u)
  | IGetElementPtr gep => Some (gep_dest gep)
  | ILoad load => Some (load_dest load)
  | ISelect sel => Some (select_dest sel)
  | IPhi p => Some (phi_dest p)
  | ICall call => call_dest call
  | _ => None
  end.
Definition bound_at (b : BasicBlock) (i : nat) : gset Name :=
  bound_in (func_name f) (bb_name b) ∪ list_to_set (omap inst_dest (take i (bb_instrs b))).

(** The operand is not one of the names. *)
Definition reads_none (names : list Name) (op : Operand) : bool :=
  match op with LocalOperand n _ => bool_decide (n ∉ names) | _ => true end.
(** The phis of a block can be evaluated on entry from [prev], where the names
    [D] are bound: each has an operand, which is not one of the earlier phis. *)
Definition phi_ok (D : gset Name) (prev : option Name) (earlier : list Name) (p : Phi) : bool :=
  match prev ≫= fun prev => phi_operand prev p with
  | Some op =>
      match operand_width D op with Some w => binds (IPhi p) (phi_dest p) w && reads_none earlier op | None => false end
  | None => false
  end.
Fixpoint phis_ok (D : gset Name) (prev : option Name) (earlier : list Name) (ps : list Phi) : bool :=
  match ps with
  | [] => true
  | p :: ps => phi_ok D prev earlier p && phis_ok D prev (phi_dest p :: earlier) ps
  end.
Definition edge_ok (D : gset Name) (prev : option Name) (b : BasicBlock) : bool :=
  phis_ok D prev [] (phis b) &&
  bool_decide (bound_in (func_name f) (bb_name b) ⊆ D ∪ list_to_set (phi_dest <$> phis b)).
Definition leads_ok (D : gset Name) (b : BasicBlock) (dest : Name) : bool :=
  match get_bb_by_name f dest with Some b' => edge_ok D (Some (bb_name b)) b' | None => false end.

Definition const_val (c : Constant) : option Z := match c with CInt _ v => Some v | _ => None end.
Definition const_of_width (w : Z) (c : Constant) : bool :=
  bool_decide (is_Some (const_val c)) && bool_decide (operand_width ∅ (ConstantOperand c) = Some w).
Definition term_ok (D : gset Name) (b : BasicBlock) : bool :=
  match bb_term b with
  | TRet None => if func_return_type f is VoidType then true else false
  | TRet (Some op) => bool_decide (is_Some (operand_width D op)) && bool_decide (operand_width D op = value_width (func_return_type f))
  | TBr dest => leads_ok D b dest
  | TCondBr br =>
      bool_decide (operand_width D (condbr_condition br) = Some 1) &&
      leads_ok D b (condbr_true_dest br) && leads_ok D b (condbr_false_dest br)
  | TSwitch sw =>
      match operand_width D (switch_operand sw) with
      | Some w => forallb (fun '(c, n) => const_of_width w c && leads_ok D b n) (switch_dests sw) &&
                  bool_decide (NoDup ((fun '(c, _) => const_val c) <$> switch_dests sw)) &&
                  leads_ok D b (switch_default_dest sw)
      | None => false
      end
  | TUnreachable => true
  | _ => false
  end.

(** Phis first, then the other instructions, then the terminator. *)
Definition block_ok (b : BasicBlock) : bool :=
  forallb (fun i => match bb_instrs b !! i with Some inst => inst_ok (bound_at b i) inst | None => false end)
    (seq (length (phis b)) (length (bb_instrs b) - length (phis b))) &&
  term_ok (bound_at b (length (bb_instrs b))) b.
Definition param_ok (p : Parameter_) : bool :=
  match value_width (param_ty p) with Some w => bool_decide (ws !! param_name p = Some w) && width_ok w | None => false end.
(** The parameters have different names, and the first block is entered with
    them. *)
Definition function_ok : bool :=
  forallb param_ok (func_parameters f) && forallb block_ok (func_basic_blocks f) &&
  match func_basic_blocks f with b :: _ => edge_ok (list_to_set (param_name <$> func_parameters f)) None b | [] => false end &&
  bool_decide (NoDup (param_name <$> func_parameters f)).

(** The names of the functions it calls. *)
Definition calls : list string :=
  func_basic_blocks f ≫= fun b => omap (fun i => match i with ICall call => callee_name call | _ => None end) (bb_instrs b).

End function.

(** Every function is in the part of the language, and the functions they call
    are in the program. *)
Definition program_ok (program : list (Function_ * Module_)) : Prop :=
  Forall (fun '(f, md) => function_ok md f = true /\
    Forall (fun name => forall g, link md name = Some g -> g ∈ program) (calls f)) program.

(** *** Programs that cannot go on without binding names

    A rank for each block, from 1 to [top], that is less in the next block when
    a block only stores; [arity] is greater than the number of blocks that any
    block can go to, by two. *)
Record Ranking := { rank : string -> Name -> nat; top : nat; arity : nat }.
Definition idle (insts : list Instruction) : bool := forallb (fun i => match i with IStore _ => true | _ => false end) insts.
Definition successors (term : Terminator) : list Name :=
  match term with
  | TBr dest => [dest]
  | TCondBr br => [condbr_true_dest br; condbr_false_dest br]
  | TSwitch sw => switch_default_dest sw :: (snd <$> switch_dests sw)
  | _ => []
  end.
Definition rank_decreases (rk : Ranking) (f : Function_) (b : BasicBlock) (dest : Name) : bool :=
  match get_bb_by_name f dest with
  | Some b' => (rank rk (func_name f) (bb_name b') <? rank rk (func_name f) (bb_name b))%nat
  | None => true
  end.
(** A call binds the parameters. *)
Definition call_binds (md : Module_) (i : Instruction) : bool :=
  match i with
  | ICall call =>
      match callee_name call ≫= link md with
      | Some (g, _) => match func_parameters g with [] => false | _ => true end
      | None => true
      end
  | _ => true
  end.
Definition block_ranked (rk : Ranking) (md : Module_) (f : Function_) (b : BasicBlock) : bool :=
  (1 <=? rank rk (func_name f) (bb_name b))%nat && (rank rk (func_name f) (bb_name b) <=? top rk)%nat &&
  (length (successors (bb_term b)) + 2 <=? arity rk)%nat &&
  (negb (idle (bb_instrs b)) || forallb (rank_decreases rk f b) (successors (bb_term b))) &&
  forallb (call_binds md) (bb_instrs b).
Definition program_ranked (rk : Ranking) (program : list (Function_ * Module_)) : bool :=
  forallb (fun '(f, md) => forallb (block_ranked rk md f) (func_basic_blocks f)) program.

End semantics.
