(* ===== verification/PathVariables.v ===== *)
(** * PathVariables: the variables of the engine and those of the program

    The first part of the proof that an exploration is the executions of the
    program: the terms that the engine binds to the names of a function have,
    in every model, the values of the reference semantics (Concrete.v).  The
    engine may have more bindings than the program, those left behind by other
    calls of the same function.  An instruction that fails exceeds the loop
    bound in the program too. *)
From S2P Require Import Prelude Bits Backend ToySolver SolverUtils MemorySpec Memory Alloc LLVMIR Project Layout VarMap Watchpoints FunctionHooks GlobalAllocations Config State Operands HookUtils Hooks SymexInstr Symex StateTheorems SymexTheorems LevelTheorems InstrTheorems DataTheorems Concrete.
From Stdlib Require Import FunctionalExtensionality.

Open Scope Z_scope.

(** ** Bits of the memory *)

Lemma load_bits_range mem start n : 0 <= load_bits mem start n < 2 ^ Z.of_nat n.
Proof.
  revert start. induction n as [|n IH]; intros start; [done|]. rewrite Nat2Z.inj_succ, Z.pow_succ_r by lia. cbn [load_bits].
  specialize (IH (start + 1)). destruct (mem start); cbn [Z.b2z]; lia.
Qed.
Lemma load_bits_testbit mem start n j : 0 <= j < Z.of_nat n -> Z.testbit (load_bits mem start n) j = mem (start + j).
Proof.
  revert start j. induction n as [|n IH]; intros start j Hj; [lia|]. cbn [load_bits].
  destruct (decide (j = 0)) as [->|]; [rewrite Z.add_comm, Z.mul_comm, Z.add_0_r, (Z.mul_comm _ 2); apply Z.testbit_0_r|].
  replace j with (Z.succ (j - 1)) at 1 by lia. rewrite Z.add_comm, Z.testbit_succ_r by lia. rewrite IH by lia. f_equal. lia.
Qed.
Lemma reads_load mem start size v : 0 <= size -> reads mem start size v -> v = load_bits mem start (Z.to_nat size).
Proof.
  intros Hs [Hv Hb]. pose proof (load_bits_range mem start (Z.to_nat size)) as Hl. rewrite Z2Nat.id in Hl by done. apply Z.bits_inj'. intros j Hj.
  destruct (Z.ltb_spec j size); [rewrite load_bits_testbit by lia; by apply Hb|].
  by rewrite <- (Z.mod_small v (2 ^ size)), <- (Z.mod_small (load_bits _ _ _) (2 ^ size)), !Z.mod_pow2_bits_high by done.
Qed.
Lemma writes_store mem mem' start size v : writes mem mem' start size v -> mem' = store_bits mem start size v.
Proof. intros Hw. apply functional_extensionality. exact Hw. Qed.

Lemma size_value `{L : LLVM} ty w : value_width ty = Some w -> size ty = Ok w.
Proof. destruct ty; try done; intros [= <-]; [apply size_integer|unfold size; by destruct (length struct_types)]. Qed.

(** ** Computations that do not panic *)

(** What holds at the end of a computation, which is not a panic. *)
Definition runs {S A} (c : M S A) (s : S) (Q : outcome A -> S -> Prop) : Prop :=
  match c s with
  | (Panic _, _) => False
  | (r, s') => Q r s'
  end.

Section runs_rules.
Context {S : Type}.

Lemma runs_bind {A B} (c : M S A) (f : A -> M S B) s Q :
  runs c s (fun r s' => match r with Ok a => runs (f a) s' Q | Err e => Q (Err e) s' | OutOfFuel => Q OutOfFuel s' | _ => False end) ->
  runs (c ≫= f) s Q.
Proof. unfold runs, mbind, M_bind. by destruct (c s) as [[a|e|p|] s']. Qed.
Lemma runs_ok {A B} (a : A) (f : A -> M S B) s Q : runs (f a) s Q -> runs (lift (Ok a) ≫= f) s Q.
Proof. exact id. Qed.
Lemma runs_mono {A} (c : M S A) s (Q R : outcome A -> S -> Prop) :
  runs c s Q -> (forall r s', Q r s' -> R r s') -> runs c s R.
Proof. unfold runs. destruct (c s) as [[a|e|p|] s']; auto. Qed.
Lemma runs_catch {A} (c : M S A) s (Q : outcome (outcome A) -> S -> Prop) :
  runs c s (fun r s' => match r with OutOfFuel => Q OutOfFuel s' | _ => Q (Ok r) s' end) -> runs (catch c) s Q.
Proof. unfold runs, catch. by destruct (c s) as [[a|e|p|] s']. Qed.
Lemma runs_wp {A} (c : M S A) s (Q : outcome A -> S -> Prop) : wp c s Q -> (forall p s', ~ Q (Panic p) s') -> runs c s Q.
Proof.
  intros Hc Hp. unfold runs. destruct (c s) as [r s'] eqn:Er. apply (wp_run _ _ _ _ _ Er) in Hc. destruct r; try done. by destruct (Hp msg s').
Qed.

Lemma runs_cases {A} (c : M S A) s (Q R : outcome A -> S -> Prop) :
  runs c s Q -> (forall a s', Q (Ok a) s' -> R (Ok a) s') -> (forall e s', Q (Err e) s' -> R (Err e) s') ->
  (forall s', Q OutOfFuel s' -> R OutOfFuel s') -> runs c s R.
Proof. unfold runs. destruct (c s) as [[a|e|p|] s']; auto. Qed.

End runs_rules.

(** Constants can be evaluated, and versions do not overflow. *)
Class EnoughFuel `{CF : ConstFuel} : Prop := enough_fuel : (0 < const_fuel)%nat.
Class VersionsFit (mx : Z) : Prop := versions_fit : mx < u64_max.

Section variables.
Context `{Laws : BackendLaws} `{Dec : !Decides} `{MOps : !MemoryOps} `{MLaws : !MemoryLaws} `{L : LLVM} `{CF : ConstFuel} `{EF : !EnoughFuel} `{UC : !UserCode}.
Implicit Types (s : State) (vm : VarMap) (m : Model) (D : gset Name) (env : Env) (k : Counts).
(** The width of each name of each function, and the greatest version. *)
Context (widths : string -> gmap Name Z) (mx : Z).

(** ** Variables *)

Definition binding vm (fn : string) (n : Name) : option BV := active_version vm !! (fn, n).
(** The terms have the width of their names, and the versions are in range. *)
Definition versions_ok vm : Prop := forall fn n v, version_num vm !! (fn, n) = Some v -> 0 <= v <= mx.
Definition vars_ok vm : Prop :=
  (forall fn n bv, binding vm fn n = Some bv -> widths fn !! n = Some (get_width bv)) /\ max_version_num vm = mx /\ versions_ok vm.
(** The values of the program are those of the terms in [m]. *)
Definition env_ok m vm fn env : Prop := forall n v, env !! n = Some v -> exists bv, binding vm fn n = Some bv /\ eval m bv = v.
(** The versions are less than the number of times the names were bound. *)
Definition counts_ok vm k : Prop := forall fn n v, version_num vm !! (fn, n) = Some v -> v < Z.of_nat (count k fn n).
Definition defined D env : Prop := D ⊆ dom env.

(** [vm'] is [vm] with a name bound to [bv]. *)
Record assigned vm fn (n : Name) bv vm' : Prop := {
  assigned_active : active_version vm' = <[(fn, n) := bv]> (active_version vm);
  assigned_max : max_version_num vm' = max_version_num vm;
  assigned_version : exists v, version_num vm' = <[(fn, n) := v]> (version_num vm) /\ v <= mx /\
    v = match version_num vm !! (fn, n) with Some v => v + 1 | None => 0 end;
  assigned_counts k : counts_ok vm k -> counts_ok vm' (bump fn n k)
}.
(** Binding the name once more exceeds the bound. *)
Definition overflows vm fn (n : Name) : Prop := forall k, counts_ok vm k -> mx + 1 < Z.of_nat (count (bump fn n k) fn n).

Lemma assigned_binding vm fn n bv vm' fn' n' :
  assigned vm fn n bv vm' -> binding vm' fn' n' = if decide ((fn, n) = (fn', n')) then Some bv else binding vm fn' n'.
Proof.
  intros [Ha _ _ _]. unfold binding. rewrite Ha. destruct (decide _) as [->|Hn]; [by rewrite lookup_insert_eq|].
  by rewrite lookup_insert_ne.
Qed.
Lemma assigned_vars vm fn n bv vm' : assigned vm fn n bv vm' -> widths fn !! n = Some (get_width bv) -> vars_ok vm -> vars_ok vm'.
Proof.
  intros Ha Hw (Ht & Hm & Hv). split; [|split; [by rewrite (assigned_max _ _ _ _ _ Ha)|]].
  - intros fn' n' bv'. rewrite (assigned_binding _ _ _ _ _ _ _ Ha). case_decide as E; [injection E as -> ->; by intros [= <-]|apply Ht].
  - destruct (assigned_version _ _ _ _ _ Ha) as (v & Ev & Hle & Hnew). intros fn' n' v'. rewrite Ev, lookup_insert.
    case_decide; [intros [= <-]|apply Hv]. destruct (version_num vm !! (fn, n)) as [w|] eqn:Ew; [|lia]. specialize (Hv _ _ _ Ew). lia.
Qed.
Lemma assigned_env m vm fn n bv vm' env v :
  assigned vm fn n bv vm' -> eval m bv = v -> env_ok m vm fn env -> env_ok m vm' fn (<[n := v]> env).
Proof.
  intros Ha Hv He n' v' Hl. rewrite (assigned_binding _ _ _ _ _ _ _ Ha). destruct (decide (n = n')) as [->|Hn].
  - rewrite lookup_insert_eq in Hl. injection Hl as <-. rewrite decide_True by done. eauto.
  - rewrite lookup_insert_ne in Hl by done. rewrite decide_False by congruence. by apply He.
Qed.
Lemma defined_insert D env n v : defined D env -> defined (D ∪ {[n]}) (<[n := v]> env).
Proof. unfold defined. rewrite dom_insert_L. set_solver. Qed.
Lemma defined_mono D D' env : D' ⊆ D -> defined D env -> defined D' env.
Proof. unfold defined. set_solver. Qed.

(** [bv] has the width [w] and is the value of the operand in every model. *)
Definition denotes D fn vm (op : Operand) (w : Z) bv : Prop :=
  get_width bv = w /\ forall m env, env_ok m vm fn env -> defined D env -> val_of env op = Some (eval m bv).

Lemma width_ok_inv w : width_ok w = true <-> 0 < w < 2 ^ 32.
Proof. unfold width_ok. rewrite andb_true_iff, !Z.ltb_lt. done. Qed.

Section function.
Context (f : Function_).

Lemma operand_width_inv D op w :
  operand_width widths f D op = Some w -> value_width (operand_type op) = Some w /\ 0 < w /\ w < 2 ^ 32.
Proof.
  unfold operand_width. destruct (value_width (operand_type op)) as [w'|]; [|done].
  destruct op as [n ty|c|]; [| |done].
  - destruct (_ && _) eqn:E; [|done]. intros [= <-]. rewrite !andb_true_iff in E. by destruct E as [[_ E%width_ok_inv] _].
  - destruct c as [bits v|ty| | | | | | | | | | | | | | | | | | | | | | | | | | | | | | | | | |]; try done.
    + destruct (_ && _) eqn:E; [|done]. intros [= <-]. rewrite !andb_true_iff in E. destruct E as [[[[_ E%width_ok_inv] _] _] _]. done.
    + destruct ty; try done. destruct (Z.eqb_spec w' 64) as [->|]; [|done]. by intros [= <-].
Qed.
Lemma integer_width_inv D op w :
  integer_width widths f D op = Some w -> operand_type op = IntegerType w /\ operand_width widths f D op = Some w /\ 0 < w /\ w < 2 ^ 32.
Proof.
  unfold integer_width. destruct (int_width (operand_type op)) as [w'|] eqn:E; [|done]. cbn. intros Hw.
  destruct (operand_width_inv _ _ _ Hw) as (Hv & Hr). destruct (operand_type op); try done. by injection Hv as ->.
Qed.

(** In the function, with the variables in order, and the names [D] bound. *)
Definition in_func s : Prop := func (cur_loc s) = f /\ vars_ok (varmap s).
Definition in_f D s : Prop := in_func s /\ forall n, n ∈ D -> is_Some (binding (varmap s) (func_name f) n).

Lemma operand_denotes D op w s :
  operand_width widths f D op = Some w -> in_f D s ->
  runs (operand_to_bv op) s (fun r s' => s' = s /\ exists bv, r = Ok bv /\ denotes D (func_name f) (varmap s) op w bv).
Proof.
  intros Hw [[Hf [Ht _]] HDb]. pose proof (operand_width_inv _ _ _ Hw) as (Ety & Hpos & Hlt).
  unfold operand_width in Hw. rewrite Ety in Hw. destruct op as [n ty|c|]; [| |done].
  - destruct (_ && _) eqn:E in Hw; [|done]. apply andb_prop in E as [[E%bool_decide_eq_true _]%andb_prop HD%bool_decide_eq_true].
    unfold runs, operand_to_bv, mbind, M_bind, get, lift, lookup_var, DoubleKeyedMap.get, expect.
    destruct (active_version (varmap s) !! (cur_fn s, n)) as [bv|] eqn:Eb.
    2: { destruct (HDb n HD) as [bv Hbv]. unfold binding in Hbv. unfold cur_fn in Eb. rewrite Hf in Eb. congruence. }
    split; [done|]. exists bv. split; [done|].
    assert (binding (varmap s) (func_name f) n = Some bv) as Hb by (unfold binding; rewrite <- Eb, <- Hf; done).
    split; [pose proof (Ht _ _ _ Hb); congruence|]. intros m env He Hd. cbn.
    assert (n ∈ dom env) as [v Hv]%elem_of_dom by set_solver. destruct (He n v Hv) as (bv' & Hb' & <-). congruence.
  - destruct c as [bits v|ty| | | | | | | | | | | | | | | | | | | | | | | | | | | | | | | | | |]; try done.
    2: { destruct ty; try done. destruct (Z.eqb_spec w 64) as [->|]; [|done]. unfold runs, operand_to_bv, const_to_bv.
         pose proof enough_fuel. destruct const_fuel as [|n]; [lia|]. cbn [const_to_bv_at]. rewrite (size_value _ 64) by done. cbn.
         destruct (bv_zero_law (as_u32 64)) as [W Ev]; [done|]. split; [done|]. eexists. split; [done|]. split; [done|].
         intros m env _ _. cbn. by rewrite Ev. }
    destruct (_ && _) eqn:E in Hw; [|done].
    assert (bits = w /\ 0 <= v < 2 ^ 64 /\ v < 2 ^ w) as (-> & Hv & Hvw).
    { rewrite !andb_true_iff, Z.eqb_eq, Z.leb_le, !Z.ltb_lt in E. by destruct E as [[[[-> _] ?] ?] ?]. }
    unfold runs, operand_to_bv, const_to_bv. pose proof enough_fuel. destruct const_fuel as [|n]; [lia|].
    cbn [const_to_bv_at]. destruct (from_u64_law v w Hpos Hv Hvw) as [W Ev].
    split; [done|]. eexists. split; [done|]. split; [done|]. intros m env _ _. cbn. by rewrite Ev.
Qed.
Lemma runs_operand {B} D op w (k : BV -> M State B) s Q :
  operand_width widths f D op = Some w -> in_f D s ->
  (forall bv, denotes D (func_name f) (varmap s) op w bv -> runs (k bv) s Q) -> runs (operand_to_bv op ≫= k) s Q.
Proof.
  intros Hw Hs Hk. apply runs_bind. eapply runs_mono; [by eapply operand_denotes|].
  intros r s' (-> & bv & -> & Hbv). by apply Hk.
Qed.

(** ** Binding a name *)

Context {mx_fits : VersionsFit mx}.

Lemma runs_bump fn n vm (Q : outcome Z -> VarMap -> Prop) :
  versions_ok vm ->
  (forall v vm', active_version vm' = active_version vm -> max_version_num vm' = max_version_num vm ->
     version_num vm' = <[(fn, n) := v]> (version_num vm) -> v = match version_num vm !! (fn, n) with Some v => v + 1 | None => 0 end ->
     (forall k, counts_ok vm k -> counts_ok vm' (bump fn n k) /\ v < Z.of_nat (count (bump fn n k) fn n)) -> Q (Ok v) vm') ->
  runs (bump_version fn n) vm Q.
Proof.
  intros Hvs HQ. unfold bump_version. apply runs_bind. unfold runs at 1, get.
  assert (forall v vm', version_num vm' = <[(fn, n) := v]> (version_num vm) ->
    (forall k, counts_ok vm k -> v < Z.of_nat (count (bump fn n k) fn n)) ->
    forall k, counts_ok vm k -> counts_ok vm' (bump fn n k) /\ v < Z.of_nat (count (bump fn n k) fn n)) as Hins.
  { intros v vm' Ev Hv k Hk. split; [|by apply Hv]. intros fn' n' v'. rewrite Ev. destruct (decide ((fn, n) = (fn', n'))) as [[= <- <-]|Hne].
    - rewrite lookup_insert_eq. intros [= <-]. by apply Hv.
    - rewrite lookup_insert_ne by done. intros Hl%Hk. pose proof (count_le_bump fn n k fn' n'). lia. }
  unfold DoubleKeyedMap.get. destruct (version_num vm !! (fn, n)) as [v|] eqn:Ev.
  - apply runs_bind. unfold u64_add. specialize (Hvs _ _ _ Ev). unfold VersionsFit in mx_fits. rewrite (proj2 (Z.leb_le _ _)) by lia.
    apply HQ; [done|done|done|done|]. apply Hins; [done|].
    intros k Hk. specialize (Hk _ _ _ Ev). rewrite count_bump, decide_True by done. lia.
  - apply HQ; [done|done|done|done|]. apply Hins; [done|]. intros k _. rewrite count_bump, decide_True by done. lia.
Qed.
Lemma runs_assign fn n bv vm (Q : outcome unit -> VarMap -> Prop) :
  max_version_num vm = mx -> versions_ok vm ->
  (forall vm', assigned vm fn n bv vm' -> Q (Ok tt) vm') ->
  (forall vm', overflows vm fn n -> Q (Err (LoopBoundExceeded mx)) vm') -> runs (VarMap.assign_bv_to_name fn n bv) vm Q.
Proof.
  intros Hmx Hvs Hok He. unfold VarMap.assign_bv_to_name. apply runs_bind, runs_bump; [done|]. intros v vm' Ea Em Ev Hv Hk.
  apply runs_bind. unfold runs at 1, get. rewrite Em, Hmx. destruct (Z.ltb_spec mx v).
  - apply He. intros k Hc%Hk. lia.
  - apply Hok. split; [unfold DoubleKeyedMap.insert; cbn; by rewrite Ea|done|by exists v|]. intros k Hc. by apply (Hk k).
Qed.

(** What an assignment in [f] does to the state. *)
Definition assigns n bv s (r : outcome unit) vm' : Prop :=
  match r with
  | Ok _ => assigned (varmap s) (func_name f) n bv vm'
  | Err e => e = LoopBoundExceeded mx /\ overflows (varmap s) (func_name f) n
  | _ => False
  end.
Lemma runs_assign_state n bv s :
  in_func s -> runs (State.assign_bv_to_name n bv) s (fun r s' => exists vm', s' = set_varmap vm' s /\ assigns n bv s r vm').
Proof.
  intros (Hf & _ & Hm & Hvs). unfold State.assign_bv_to_name. apply runs_bind. unfold runs at 1, get.
  assert (cur_fn s = func_name f) as -> by (unfold cur_fn; by rewrite Hf). unfold runs, on_varmap, zoom.
  pose proof (runs_assign (func_name f) n bv (varmap s) (fun r vm' => assigns n bv s r vm') Hm Hvs) as Ha.
  unfold runs in Ha. destruct (VarMap.assign_bv_to_name _ _ _ _) as [[[]|e|p|] vm'];
    (first [by apply Ha|eexists; split; [reflexivity|]; by apply Ha]).
Qed.

Lemma binds_inv i dest w :
  binds widths f i dest w = true -> value_width (instr_type i) = Some w /\ widths (func_name f) !! dest = Some w /\ 0 < w < 2 ^ 32.
Proof. unfold binds. rewrite !andb_true_iff, !bool_decide_eq_true, width_ok_inv. tauto. Qed.

(** The instruction changes the variables only: it binds its name to a term
    that has the value of the reference semantics, or exceeds the bound. *)
Definition result_ok D (i : Instruction) s (r : outcome unit) vm' : Prop :=
  exists n bv, inst_dest i = Some n /\ widths (func_name f) !! n = Some (get_width bv) /\
    (forall m env, env_ok m (varmap s) (func_name f) env -> defined D env -> inst_val env (mem_bit (mem s) m) i = Some (n, eval m bv)) /\
    assigns n bv s r vm'.
Definition executes D (i : Instruction) (c : M State unit) : Prop :=
  forall s, in_f D s -> runs c s (fun r s' => exists vm', s' = set_varmap vm' s /\ result_ok D i s r vm').

Lemma runs_assigns_record i dest w bv s :
  binds widths f i dest w = true -> get_width bv = w -> in_func s ->
  runs (record_bv_result (result i dest) bv) s (fun r s' => exists vm', s' = set_varmap vm' s /\ assigns dest bv s r vm').
Proof.
  intros (Ety & _ & Hw)%binds_inv W Hs. unfold record_bv_result. cbn [result_type result result_name].
  rewrite (size_value _ _ Ety). apply (runs_ok w). unfold as_u32. rewrite Z.mod_small, W, Z.eqb_refl by lia. cbn [negb].
  by apply runs_assign_state.
Qed.
Lemma runs_record D i dest w bv s :
  binds widths f i dest w = true -> get_width bv = w -> inst_dest i = Some dest -> in_f D s ->
  (forall m env, env_ok m (varmap s) (func_name f) env -> defined D env -> inst_val env (mem_bit (mem s) m) i = Some (dest, eval m bv)) ->
  runs (record_bv_result (result i dest) bv) s (fun r s' => exists vm', s' = set_varmap vm' s /\ result_ok D i s r vm').
Proof.
  intros Hb W Hd [Hs _] Hv. eapply runs_mono; [by eapply runs_assigns_record|]. intros r s' (vm' & -> & Ha). exists vm'. split; [done|].
  exists dest, bv. split; [done|]. apply binds_inv in Hb as (_ & Hw & _). split; [congruence|]. done.
Qed.

(** ** Instructions *)

Lemma executes_binop link md D bop : inst_ok link widths md f D (IBinaryOp bop) = true -> executes D (IBinaryOp bop) (symex_binop bop).
Proof.
  cbn [inst_ok]. destruct (integer_width widths f D (bop_operand0 bop)) as [w|] eqn:E0; [|done].
  destruct (integer_width widths f D (bop_operand1 bop)) as [w'|] eqn:E1; [|done].
  rewrite !andb_true_iff, Z.eqb_eq, bool_decide_eq_true. intros [[[<- Hty] [op Hop]] Hb] s Hs.
  apply integer_width_inv in E0 as (Ety & E0 & Hw & _). apply integer_width_inv in E1 as (_ & E1 & _). destruct (binop_law _ _ Hop) as (bvop & Ebop & Hlaw).
  unfold symex_binop. rewrite Hty, Ety, Ebop. cbn [negb].
  apply (runs_operand D _ w); [done..|]. intros a [Wa Da]. apply (runs_operand D _ w); [done..|]. intros b [Wb Db].
  apply (runs_ok bvop). destruct (Hlaw a b ltac:(congruence)) as [W E]. rewrite Wa in W.
  apply (runs_record _ _ _ w); [done..|]. intros m env He Hd. cbn. rewrite Ety. cbn. rewrite Hop. cbn.
  rewrite (Da _ _ He Hd). cbn. rewrite (Db _ _ He Hd). cbn. by rewrite E, Wa.
Qed.

Lemma executes_icmp link md D icmp : inst_ok link widths md f D (IICmp icmp) = true -> executes D (IICmp icmp) (symex_icmp icmp).
Proof.
  cbn [inst_ok]. destruct (operand_width widths f D (icmp_operand0 icmp)) as [w|] eqn:E0; [|done].
  destruct (operand_width widths f D (icmp_operand1 icmp)) as [w'|] eqn:E1; [|done].
  rewrite !andb_true_iff, Z.eqb_eq. intros [[<- Hty] Hb] s Hs. pose proof (binds_inv _ _ _ Hb) as (Eres & _).
  assert (instr_type (IICmp icmp) = IntegerType 1) as Eres1 by (destruct (instr_type (IICmp icmp)); try done; by injection Eres as ->).
  destruct (operand_width_inv _ _ _ E0) as (Ety & Hw & _). pose proof (icmp_law (icmp_predicate icmp)) as Hlaw.
  unfold symex_icmp. apply (runs_operand D _ w); [done..|]. intros a [Wa Da].
  apply (runs_operand D _ w); [done..|]. intros b [Wb Db].
  rewrite Hty, Eres1. assert (icmp_operands_ok (operand_type (icmp_operand0 icmp)) = true) as -> by by destruct (operand_type (icmp_operand0 icmp)).
  cbn [negb Z.eqb Pos.eqb]. destruct (Hlaw a b ltac:(congruence)) as [W E].
  apply (runs_record _ _ _ 1); [done..|]. intros m env He Hd. cbn. rewrite Ety. cbn.
  rewrite (Da _ _ He Hd). cbn. rewrite (Db _ _ He Hd). cbn. by rewrite E, Wa.
Qed.

Lemma executes_select link md D sel : inst_ok link widths md f D (ISelect sel) = true -> executes D (ISelect sel) (symex_select sel).
Proof.
  cbn [inst_ok]. destruct (operand_width widths f D (select_condition sel)) as [c|] eqn:Ec; [|done].
  destruct (operand_width widths f D (select_true_value sel)) as [w|] eqn:E0; [|done].
  destruct (operand_width widths f D (select_false_value sel)) as [w'|] eqn:E1; [|done].
  rewrite !andb_true_iff, !Z.eqb_eq. intros [[[-> <-] Hty] Hb] s Hs.
  destruct (operand_width_inv _ _ _ Ec) as (Ety1 & _ & _).
  assert (operand_type (select_condition sel) = IntegerType 1) as Ety by (destruct (operand_type (select_condition sel)); try done; by injection Ety1 as ->).
  unfold symex_select. rewrite Hty, Ety. cbn [negb Z.eqb Pos.eqb].
  apply (runs_operand D _ 1); [done..|]. intros bc [Wc Dc]. apply (runs_operand D _ w); [done..|]. intros a [Wa Da].
  apply (runs_operand D _ w); [done..|]. intros b [Wb Db]. destruct (cond_bv_law bc a b Wc ltac:(congruence)) as [W E].
  apply (runs_record _ _ _ w); [done|congruence|done..|]. intros m env He Hd. cbn.
  rewrite (Dc _ _ He Hd). cbn. rewrite (Da _ _ He Hd). cbn. rewrite (Db _ _ He Hd). cbn. by rewrite E.
Qed.

Lemma conversion_ok_dec_iff c w w' : conversion_ok_dec c w w' = true <-> conversion_ok c w w'.
Proof. destruct c; cbn; apply Z.ltb_lt. Qed.

(** The conversions of the code on a single integer. *)
Lemma symex_conversion_eq c u w w' s :
  operand_type (un_operand u) = IntegerType w -> instr_type (conversion_instr c u) = IntegerType w' -> 0 < w' < 2 ^ 32 ->
  symex_conversion c u s = (bv ← operand_to_bv (un_operand u); r ← lift (convert c w w' bv);
                            record_bv_result (result (conversion_instr c u) (un_dest u)) r) s.
Proof.
  intros Ety Eres Hw'. assert (as_u32 w' = w') as Ew' by (apply Z.mod_small; lia).
  unfold mbind at 1, M_bind at 1.
  destruct c; cbn [symex_conversion conversion_instr] in *; unfold symex_zext, symex_sext, symex_trunc, convert; rewrite Ety, Eres, size_integer;
    unfold mbind at 1, M_bind at 1; destruct (operand_to_bv _ s) as [[bv|e|p|] s']; try done;
    unfold mbind, M_bind, lift, outcome_bind; rewrite Ew'; by destruct (u32_sub _ _).
Qed.

Lemma executes_conversion D c u : converts widths f D c u = true -> executes D (conversion_instr c u) (symex_conversion c u).
Proof.
  unfold converts. destruct (integer_width widths f D (un_operand u)) as [w|] eqn:E0; [|done].
  destruct (int_width (instr_type (conversion_instr c u))) as [w'|] eqn:Ew'; [|done].
  rewrite andb_true_iff, conversion_ok_dec_iff. intros [Hc Hb] s Hs. pose proof (binds_inv _ _ _ Hb) as (_ & _ & Hw').
  assert (instr_type (conversion_instr c u) = IntegerType w') as Eres by (destruct (instr_type (conversion_instr c u)); try done; by injection Ew' as ->).
  apply integer_width_inv in E0 as (Ety & E0 & Hw & _). unfold runs. rewrite (symex_conversion_eq c u w w') by done.
  change (runs (bv ← operand_to_bv (un_operand u); r ← lift (convert c w w' bv);
                record_bv_result (result (conversion_instr c u) (un_dest u)) r) s
    (fun r s' => exists vm', s' = set_varmap vm' s /\ result_ok D (conversion_instr c u) s r vm')).
  apply (runs_operand D _ w); [done..|]. intros a [Wa Da]. destruct (convert_ok c w w' a Hw) as (r & Er & W & E); [lia|done..|].
  rewrite Er. apply (runs_ok r). apply (runs_record _ _ _ w'); [done|done|by destruct c|done|]. intros m env He Hd. rewrite E.
  destruct c; cbn in *; unfold converted; cbn; rewrite Ety, Eres; cbn; rewrite (Da _ _ He Hd); done.
Qed.

(** Casts of pointers. *)
Definition cast_of (i : Instruction) : option UnaryOp := match i with IPtrToInt u | IIntToPtr u | IBitCast u => Some u | _ => None end.
Lemma executes_cast D i u : cast_of i = Some u -> casts widths f D i u = true -> executes D i (symex_cast_op i u).
Proof.
  intros Hi. unfold casts. destruct (operand_width widths f D (un_operand u)) as [w|] eqn:E0; [|done]. intros Hb s Hs. unfold symex_cast_op.
  apply (runs_operand D _ w); [done..|]. intros a [Wa Da]. apply (runs_record _ _ _ w); [done|done|by destruct i; try done; injection Hi as ->|done|].
  intros m env He Hd. destruct i; try done; injection Hi as ->; cbn; by rewrite (Da _ _ He Hd).
Qed.

(** Addresses. *)
Lemma index_inv D op : index_ok widths f D op = true ->
  exists w, operand_width widths f D op = Some w /\ value_width (operand_type op) = Some w /\ w <= 64 /\
    forall vm bv m env i, denotes D (func_name f) vm op w bv -> env_ok m vm (func_name f) env -> defined D env ->
      val_of env op = Some i -> i = eval m bv /\ sval w i mod 2 ^ 64 = i mod 2 ^ 64.
Proof.
  unfold index_ok. destruct (operand_width widths f D op) as [w|] eqn:Ew; [|done]. intros Hi.
  destruct (operand_width_inv _ _ _ Ew) as (Ety & Hw & _). exists w. split; [done|]. split; [done|].
  assert (forall vm bv m env i, denotes D (func_name f) vm op w bv -> env_ok m vm (func_name f) env -> defined D env ->
    val_of env op = Some i -> i = eval m bv /\ 0 <= i < 2 ^ w) as Hval.
  { intros vm bv m env i [W Hd] He HD Hv. rewrite (Hd _ _ He HD) in Hv. injection Hv as <-. split; [done|]. rewrite <- W. apply eval_range. }
  apply orb_prop in Hi as [->%Z.eqb_eq|Hc].
  - split; [done|]. intros vm bv m env i Hd He HD Hv. destruct (Hval _ _ _ _ _ Hd He HD Hv) as [? Hr]. split; [done|].
    unfold sval. destruct (_ <? _); [done|]. replace (i - 2 ^ 64) with (i + (-1) * 2 ^ 64) by lia. apply Z_mod_plus_full.
  - destruct op as [|c|]; try done. destruct c as [bits v| | | | | | | | | | | | | | | | | | | | | | | | | | | | | | | | | | | ]; try done.
    apply andb_prop in Hc as [Hle%Z.leb_le Hlt]. split; [done|]. intros vm bv m env i Hd He HD Hv.
    destruct (Hval _ _ _ _ _ Hd He HD Hv) as [? Hr]. split; [done|]. injection Hv as <-. unfold sval. by rewrite Hlt.
Qed.

Definition gives_offset D ops ty s (r : outcome BV) s' : Prop :=
  s' = s /\ exists bv, r = Ok bv /\ get_width bv = 64 /\
    forall m env, env_ok m (varmap s) (func_name f) env -> defined D env ->
      exists x, gep_offset env ops ty = Some x /\ eval m bv = x mod 2 ^ 64.
Lemma runs_gep_offset D ops : forall ty s, indices_ok widths f D ops ty = true -> in_f D s ->
  runs (gep_offset_recursive ops ty 64) s (gives_offset D ops ty s).
Proof.
  induction ops as [|op ops IH]; intros ty s Hok Hs; cbn [gep_offset_recursive].
  { destruct (bv_zero_law 64) as [W E]; [done|]. split; [done|]. eexists. split; [done|]. split; [done|].
    intros m env _ _. exists 0. split; [done|]. by rewrite E. }
  cbn [indices_ok] in Hok. destruct (sequence_element ty) as [el|] eqn:Eel.
  - apply andb_prop in Hok as [(w & Hw & Ety & Hle & Hidx)%index_inv Hok]. destruct (size el) as [sz|e|p|] eqn:Esz; try done.
    rewrite !andb_true_iff, Z.eqb_eq, Z.leb_le, Z.ltb_lt in Hok. destruct Hok as [[[Hmod Hpos] Hlt] Hok].
    assert (runs (i ← operand_to_bv op; i ← lift (zero_extend_to_bits i 64); '(offset, nested_ty) ← lift (get_offset_bv_index ty i);
              bv ← gep_offset_recursive ops nested_ty 64; mret (bv_add bv offset)) s (gives_offset D (op :: ops) ty s)) as Hgo.
    2: { destruct ty; try done. }
    apply (runs_operand D _ w); [done..|]. intros v [Wv Dv]. destruct (zero_extended v 64) as (x & Ex & Wx & Vx); [lia|].
    rewrite Ex. apply (runs_ok x). assert (get_offset_bv_index ty x = Ok (bv_mul x (from_u64 (sz / 8) 64), el)) as Hg.
    { assert (get_offset_bv_index (PointerType el) x = Ok (bv_mul x (from_u64 (sz / 8) (get_width x)), el)) as Hg
        by (cbn; rewrite Esz; cbn; rewrite Hmod; done). rewrite Wx in Hg. destruct ty; cbn in Eel; try done; by injection Eel as ->. }
    rewrite Hg. apply (runs_ok (bv_mul x (from_u64 (sz / 8) 64), el)). apply runs_bind. eapply runs_mono; [by apply IH|].
    intros r s' (-> & bv & -> & W & Hbv). split; [done|]. eexists. split; [done|].
    destruct (from_u64_law (sz / 8) 64) as [Wc Ec]; [done|split; [by apply Z.div_pos|done]|done|].
    destruct (bv_mul_law x (from_u64 (sz / 8) 64)) as [Wm Em]; [congruence|]. destruct (bv_add_law bv (bv_mul x (from_u64 (sz / 8) 64))) as [Wa Ea]; [congruence|].
    split; [congruence|]. intros m env He HD. destruct (Hbv m env He HD) as (y & Hy & Ey). cbn [gep_offset]. rewrite Eel, Esz, Ety. cbn.
    rewrite (Dv _ _ He HD). cbn. rewrite Hy. cbn. eexists. split; [done|].
    destruct (Hidx _ _ _ _ _ (conj Wv Dv) He HD (Dv _ _ He HD)) as [_ Hsv].
    rewrite Ea, Em, Ec, Vx, Ey, W, Wx, <- Zplus_mod. rewrite (Zplus_mod y), (Zplus_mod (_ * _) y), (Zmult_mod (sval _ _)), Hsv, <- Zmult_mod. f_equal. lia.
  - destruct op as [|c|]; try done. destruct c as [bits i| | | | | | | | | | | | | | | | | | | | | | | | | | | | | | | | | | | ]; try done.
    apply andb_prop in Hok as [Hst%bool_decide_eq_true Hok]. destruct (get_offset_constant_index ty i) as [[off el]|e|p|] eqn:Eoff; try done.
    rewrite !andb_true_iff, Z.leb_le, Z.ltb_lt in Hok. destruct Hok as [[Hpos Hlt] Hok].
    assert (runs (bv ← gep_offset_recursive ops el 64; mret (bv_add bv (from_u32 off 64))) s (gives_offset D (ConstantOperand (CInt bits i) :: ops) ty s)) as Hgo.
    { apply runs_bind. eapply runs_mono; [by apply IH|]. intros r s' (-> & bv & -> & W & Hbv). split; [done|]. eexists. split; [done|].
      destruct (from_u32_law off 64) as [Wc Ec]; [done|done|lia|]. destruct (bv_add_law bv (from_u32 off 64)) as [Wa Ea]; [congruence|].
      split; [congruence|]. intros m env He HD. destruct (Hbv m env He HD) as (y & Hy & Ey). cbn [gep_offset]. rewrite Eel, Eoff, Hy. cbn.
      eexists. split; [done|]. rewrite Ea, Ec, Ey, W, Zplus_mod_idemp_l. f_equal. lia. }
    assert (as_u32 off = off) as Eu by (apply Z.mod_small; lia).
    destruct ty; try (by destruct Hst); cbn [operand_struct_index].
    + apply (runs_ok i). rewrite Eoff. apply (runs_ok (off, el)). by rewrite Eu.
    + destruct Hst as [tys Hst]. destruct ty as [n|]; [|done]. cbn in Hst. destruct (upgrade n) as [t|] eqn:Eu'; [|done].
      destruct t as [| | | | | | |tys' p| | | | |]; try done. cbn in Eoff. rewrite Eu' in Eoff. cbn in Eoff.
      apply (runs_ok n). rewrite Eu'. apply (runs_ok (StructType tys' p)). apply (runs_ok i). cbn [get_offset_constant_index].
      rewrite Eoff. apply (runs_ok (off, el)). by rewrite Eu.
Qed.
Lemma executes_gep D gep : gep_ok widths f D gep = true -> executes D (IGetElementPtr gep) (symex_gep gep).
Proof.
  unfold gep_ok, pointer_ok. rewrite !andb_true_iff, bool_decide_eq_true. intros [[Ha Hi] Hb] s Hs. unfold symex_gep.
  destruct (instr_type (IGetElementPtr gep)) eqn:Ety; try done.
  apply (runs_operand D _ 64); [done..|]. intros a [Wa Da]. rewrite Wa. apply runs_bind. eapply runs_mono; [by apply runs_gep_offset|].
  intros r s' (-> & off & -> & Wo & Ho). destruct (bv_add_law a off) as [W E]; [congruence|].
  apply (runs_record _ _ _ 64); [done|congruence|done|done|]. intros m env He Hd. cbn. rewrite (Da _ _ He Hd). cbn.
  destruct (Ho m env He Hd) as (x & -> & Ex). cbn. rewrite E, Wa, Ex, Zplus_mod_idemp_r. done.
Qed.

(** The instructions that are not calls or phis, and leave the memory alone. *)
Definition plain (i : Instruction) : bool := match i with ICall _ | IPhi _ | ILoad _ | IStore _ => false | _ => true end.
Lemma instruction_executes link md project E D i s :
  inst_ok link widths md f D i = true -> plain i = true -> in_f D s ->
  runs (symex_instruction project E i) s (fun r s' => exists vm' r', s' = set_varmap vm' s /\ result_ok D i s r' vm' /\
    match r with Ok None => r' = Ok tt | Ok (Some _) => False | Err e => r' = Err e | _ => False end).
Proof.
  intros Hi Hp Hs.
  assert (forall c, executes D i c -> runs (_ ← c; mret (None : option (ReturnValue BV))) s
    (fun r s' => exists vm' r', s' = set_varmap vm' s /\ result_ok D i s r' vm' /\
       match r with Ok None => r' = Ok tt | Ok (Some _) => False | Err e => r' = Err e | _ => False end)) as Hgo.
  { intros c Hc. apply runs_bind. eapply runs_mono; [by apply Hc|]. intros [[]|e|p|] s' (vm' & -> & Hr); [| |by destruct Hr as (? & ? & _ & _ & _ & [])..];
      (exists vm'; eexists; split; [done|]; split; [exact Hr|done]). }
  destruct i; try done; cbn [symex_instruction]; apply Hgo.
  - by eapply executes_binop.
  - by eapply executes_icmp.
  - by apply executes_gep.
  - by apply (executes_conversion _ ZExt).
  - by apply (executes_conversion _ SExt).
  - by apply (executes_conversion _ Trunc).
  - by apply executes_cast.
  - by apply executes_cast.
  - by apply executes_cast.
  - by eapply executes_select.
Qed.

(** ** Phis *)

(** The block before the last visit. *)
Definition prev_of (p : list PathEntry) : option Name := (fun e => bb_name (bb e)) <$> last p.

Lemma previous_entry (p : list PathEntry) x e : ((p ++ [x]) ++ [e]) !! (length ((p ++ [x]) ++ [e]) - 2)%nat = Some x.
Proof.
  rewrite !length_app. cbn [length]. rewrite lookup_app_l by (rewrite length_app; cbn; lia).
  replace (length p + 1 + 1 - 2)%nat with (length p) by lia. by rewrite lookup_app_r, Nat.sub_diag by lia.
Qed.

(** The phi binds its name to the operand for the previous block, which is
    none of the names bound earlier in the block. *)
Lemma phi_executes project E D phi earlier p e s :
  phi_ok widths f D (prev_of p) earlier phi = true -> in_f D s -> path s = p ++ [e] ->
  exists prev op w, prev_of p = Some prev /\ phi_operand prev phi = Some op /\ reads_none earlier op = true /\
    runs (symex_instruction project E (IPhi phi)) s (fun r s' => exists vm' r' bv,
      s' = set_varmap vm' s /\ assigns (phi_dest phi) bv s r' vm' /\ denotes D (func_name f) (varmap s) op w bv /\
      widths (func_name f) !! phi_dest phi = Some (get_width bv) /\
      match r with Ok None => r' = Ok tt | Ok (Some _) => False | Err e => r' = Err e | _ => False end).
Proof.
  unfold phi_ok. destruct (prev_of p) as [prev|] eqn:Eprev; [|done]. cbn [mbind option_bind].
  destruct (phi_operand prev phi) as [op|] eqn:Eop; [|done]. destruct (operand_width widths f D op) as [w|] eqn:Ew; [|done].
  rewrite andb_true_iff. intros [Hb Hr] Hs Hp. exists prev, op, w. do 3 (split; [done|]).
  cbn [symex_instruction]. unfold symex_phi. apply runs_bind, runs_bind. unfold runs at 1, get. cbv zeta. rewrite Hp.
  destruct p as [|x p _] using rev_ind; [done|]. rewrite previous_entry.
  rewrite (proj2 (Nat.leb_gt _ _)) by (rewrite !length_app; cbn; lia). unfold prev_of in Eprev. rewrite last_snoc in Eprev. injection Eprev as <-.
  change (fst <$> List.find _ (phi_incoming_values phi)) with (phi_operand (bb_name (bb x)) phi). rewrite Eop.
  apply (runs_ok op). apply (runs_operand D _ w); [done..|]. intros bv Hd.
  eapply runs_mono; [eapply (runs_assigns_record _ _ w); [done|apply Hd|apply Hs]|].
  assert (widths (func_name f) !! phi_dest phi = Some (get_width bv)) as Hwd.
  { apply binds_inv in Hb as (_ & Hw & _). destruct Hd. congruence. }
  intros [[]|e'|q|] s' (vm' & -> & Ha); [| |done..]; (exists vm'; eexists; exists bv; do 4 (split; [done|]); done).
Qed.

End function.


End variables.
