(* ===== verification/PathMeasure.v ===== *)
(** * PathMeasure: an exploration, and how long it can take

    What the proofs about explorations are about: a program, the function that
    is explored, and its inputs ([Setting]).  A measure of what a path can still
    do: each binding takes one of the versions that are left, and where nothing
    is bound the rank of the block decreases ([Ranking]).  The weight of a path
    is exponential in this, so that it is more than that of all paths that it
    splits into. *)
From S2P Require Import Prelude Bits Backend ToySolver SolverUtils MemorySpec Memory Alloc LLVMIR Project Layout VarMap Watchpoints FunctionHooks GlobalAllocations Config State Operands HookUtils Hooks SymexInstr Symex StateTheorems SymexTheorems LevelTheorems InstrTheorems DataTheorems Concrete PathVariables.

Open Scope Z_scope.

(** The function that a name refers to in a module, by the addresses that were
    given to the globals. *)
Definition linked `{BackendOps} (ga : GlobalAllocations) (md : Module_) (name : string) : option (Function_ * Module_) :=
  match get_global_allocation ga (NameStr name) md with
  | Some (GAFunction g md' _) => Some (g, md')
  | _ => None
  end.

(** The functions of the program are in the part of the language of Concrete.v,
    and their calls are neither hooked nor cut off.  Paths are not split on
    null pointers (with [SplitPath] the engine explores paths that no input is
    on), and the watchpoints are ones that [Watchpoint::new] makes. *)
Record program_fits `{BackendOps} `{L : LLVM} (ga : GlobalAllocations) (cfg : Config)
    (widths : string -> gmap Name Z) (bound_in : string -> Name -> gset Name) (program : list (Function_ * Module_)) : Prop := {
  fits_ok : program_ok (linked ga) widths bound_in program;
  fits_blocks f md n b : (f, md) ∈ program -> get_bb_by_name f n = Some b -> b ∈ func_basic_blocks f;
  fits_depth : max_callstack_depth cfg = None;
  fits_null : null_pointer_checking cfg <> NPSplitPath;
  fits_watch name w : initial_mem_watchpoints cfg !! name = Some w ->
    wf_watchpoint w /\ 0 < low w /\ 8 * (high w - low w + 1) < 2 ^ 32;
  fits_hooks f md name : (f, md) ∈ program -> name ∈ calls f ->
    get_hook_for (function_hooks cfg) name = None /\ intrinsic_for name = None
}.

(** A program and the function of it that is explored: the addresses of the
    globals, the configuration, the greatest version of a name, what
    [program_fits] is about, the values of the parameters and the memory at the
    start in a model, what was assumed of the models, and the ranks of the
    blocks. *)
Class Setting `{BVSemantics} : Type := {
  globals : GlobalAllocations;
  settings : Config;
  max_version : Z;
  widths : string -> gmap Name Z;
  bound_in : string -> Name -> gset Name;
  program : list (Function_ * Module_);
  main : Function_;
  main_module : Module_;
  inputs : Model -> list Z;
  initial : Model -> Mem;
  assumes : Model -> Prop;
  ranking : Ranking
}.
Class Fits `{BVSemantics} `{L : LLVM} (X : Setting) : Prop := {
  fits : program_fits globals settings widths bound_in program;
  #[global] fits_versions :: VersionsFit max_version
}.

Section measure.
Context `{BackendOps} `{!BVSemantics} `{MOps : !MemoryOps} `{L : LLVM} `{CF : ConstFuel}.
Context {X : Setting}.
Implicit Types (vm : VarMap) (s : State).

(** The blocks are ranked; without this nothing is said about the fuel. *)
Definition ranked : Prop := program_ranked (linked globals) ranking program = true.

(** ** Versions that are left *)

Definition all_names : list (string * Name) :=
  program ≫= fun '(f, _) => (fun n => (func_name f, n)) <$> elements (dom (widths (func_name f))).
Definition uses vm (x : string * Name) : nat := match version_num vm !! x with Some v => Z.to_nat (v + 1) | None => 0 end.
Definition left_for vm (x : string * Name) : nat := Z.to_nat (max_version + 1) - uses vm x.
Definition budget vm : nat := sum_list_with (left_for vm) all_names.

Lemma all_names_in f md n w : (f, md) ∈ program -> widths (func_name f) !! n = Some w -> (func_name f, n) ∈ all_names.
Proof.
  intros Hf Hn. unfold all_names. apply list_elem_of_bind. exists (f, md). split; [|done]. apply list_elem_of_fmap. exists n. split; [done|].
  apply elem_of_elements, elem_of_dom. by exists w.
Qed.
Lemma sum_list_le {A} (g h : A -> nat) xs : (forall x, (g x <= h x)%nat) -> (sum_list_with g xs <= sum_list_with h xs)%nat.
Proof. intros Hle. induction xs as [|x xs IH]; [done|]. cbn. specialize (Hle x). lia. Qed.
Lemma sum_list_lt {A} (g h : A -> nat) xs y :
  (forall x, (g x <= h x)%nat) -> y ∈ xs -> (g y < h y)%nat -> (sum_list_with g xs < sum_list_with h xs)%nat.
Proof.
  intros Hle Hy Hlt. induction Hy as [y xs|y x xs _ IH]; cbn; [pose proof (sum_list_le g h xs Hle); lia|]. specialize (IH Hlt). specialize (Hle x). lia.
Qed.

Lemma budget_same vm vm' : version_num vm' = version_num vm -> budget vm' = budget vm.
Proof. intros E. unfold budget, left_for, uses. by rewrite E. Qed.
Lemma assigned_budget f md n w bv vm vm' :
  (f, md) ∈ program -> widths (func_name f) !! n = Some w -> versions_ok max_version vm -> assigned max_version vm (func_name f) n bv vm' ->
  (budget vm' < budget vm)%nat.
Proof.
  intros Hf Hn Hvs Ha. destruct (assigned_version _ _ _ _ _ _ Ha) as (v & Ev & Hle & Hv). apply (sum_list_lt _ _ _ (func_name f, n)).
  - intros x. unfold left_for, uses. rewrite Ev, lookup_insert. case_decide as E; [|done]. subst x.
    destruct (version_num vm !! _) as [v0|] eqn:E0; [|lia]. specialize (Hvs _ _ _ E0). lia.
  - by eapply all_names_in.
  - unfold left_for, uses. rewrite Ev, lookup_insert_eq. destruct (version_num vm !! _) as [v0|] eqn:E0; [|lia]. specialize (Hvs _ _ _ E0). lia.
Qed.

(** ** Weights *)

(** In the middle of a block the position is [cap], more than every rank. *)
Definition cap : nat := S (top ranking).
Definition weight (pos : nat) vm (depth : nat) : nat := arity ranking ^ ((2 * cap + 1) * budget vm + pos + cap * depth).
Definition block_rank (f : Function_) (b : BasicBlock) : nat := rank ranking (func_name f) (bb_name b).
Definition point_weight (bp : BacktrackPoint) : nat :=
  weight (block_rank (func (bp_loc bp)) (bb (bp_loc bp))) (bp_varmap bp) (length (bp_stack bp)).
(** Of the saved points, of a state, and of one whose function returned. *)
Definition points_weight s : nat := sum_list_with point_weight (backtrack_points s).
Definition position (l : Location) : nat := match instr l with Instr 0 => block_rank (func l) (bb l) | _ => cap end.
Definition state_weight s : nat := weight (position (cur_loc s)) (varmap s) (length (stack s)) + points_weight s.
Definition caller_share s : nat := match stack s with [] => 0 | _ :: frames => weight cap (varmap s) (length frames) end.
Definition caller_weight s : nat := caller_share s + points_weight s.

(** Fuel [n] is less than [k]. *)
Definition short (n k : nat) : Prop := ranked -> (n < k)%nat.
Lemma short_mono n k k' : (k <= k')%nat -> short n k -> short n k'.
Proof. intros Hk Hs Hr. specialize (Hs Hr). lia. Qed.

Section weights.
Context (Hr : ranked).

Lemma block_ranks f md b : (f, md) ∈ program -> b ∈ func_basic_blocks f -> block_ranked (linked globals) ranking md f b = true.
Proof.
  intros Hf Hb. unfold ranked, program_ranked in Hr. rewrite forallb_forall in Hr. specialize (Hr (f, md) (proj1 (list_elem_of_In _ _) Hf)). cbn in Hr.
  rewrite forallb_forall in Hr. by apply Hr, list_elem_of_In.
Qed.
Lemma rank_bounds f md b : (f, md) ∈ program -> b ∈ func_basic_blocks f -> (1 <= block_rank f b < cap)%nat.
Proof.
  intros Hf Hb. pose proof (block_ranks f md b Hf Hb) as Hok. unfold block_ranked in Hok. rewrite !andb_true_iff, !Nat.leb_le in Hok. unfold block_rank, cap. lia.
Qed.
Lemma arity_bound f md b : (f, md) ∈ program -> b ∈ func_basic_blocks f -> (length (successors (bb_term b)) + 2 <= arity ranking)%nat.
Proof. intros Hf Hb. pose proof (block_ranks f md b Hf Hb) as Hok. unfold block_ranked in Hok. rewrite !andb_true_iff, !Nat.leb_le in Hok. lia. Qed.
Lemma idle_decreases f md b dest b' :
  (f, md) ∈ program -> b ∈ func_basic_blocks f -> idle (bb_instrs b) = true -> dest ∈ successors (bb_term b) -> get_bb_by_name f dest = Some b' ->
  (block_rank f b' < block_rank f b)%nat.
Proof.
  intros Hf Hb Hi Hd Hb'. pose proof (block_ranks f md b Hf Hb) as Hok. unfold block_ranked in Hok. rewrite !andb_true_iff, Hi in Hok.
  destruct Hok as [[_ Hok] _]. cbn in Hok. rewrite forallb_forall in Hok. specialize (Hok _ (proj1 (list_elem_of_In _ _) Hd)).
  unfold rank_decreases in Hok. rewrite Hb' in Hok. by apply Nat.ltb_lt.
Qed.

Context (f : Function_) (md : Module_) (b : BasicBlock) (Hf : (f, md) ∈ program) (Hb : b ∈ func_basic_blocks f).

Definition exponent (pos : nat) vm (depth : nat) : nat := (2 * cap + 1) * budget vm + pos + cap * depth.
Lemma weight_le p p' vm vm' d d' : (exponent p vm d <= exponent p' vm' d')%nat -> (weight p vm d <= weight p' vm' d')%nat.
Proof. intros He. pose proof (arity_bound f md b Hf Hb). unfold weight. apply Nat.pow_le_mono_r; [lia|exact He]. Qed.
Lemma weight_pos p vm d : (1 <= weight p vm d)%nat.
Proof. pose proof (arity_bound f md b Hf Hb). unfold weight. pose proof (Nat.pow_nonzero (arity ranking)) as Hp. specialize (Hp ((2 * cap + 1) * budget vm + p + cap * d)%nat). lia. Qed.
(** A path can split into as many lighter ones as a block has successors, and one more. *)
Lemma weight_split k p p' vm vm' d d' :
  (exponent p vm d < exponent p' vm' d')%nat -> (k < arity ranking)%nat -> (k * weight p vm d < weight p' vm' d')%nat.
Proof.
  intros He Hk. pose proof (arity_bound f md b Hf Hb). pose proof (weight_pos p vm d) as Hp. unfold weight in *. fold (exponent p vm d) (exponent p' vm' d') in *.
  assert (arity ranking ^ (S (exponent p vm d)) <= arity ranking ^ exponent p' vm' d')%nat as Hle by (apply Nat.pow_le_mono_r; lia).
  rewrite Nat.pow_succ_r' in Hle. nia.
Qed.
End weights.

End measure.
#[global] Arguments weight : simpl never.
#[global] Arguments cap : simpl never.
