(* ===== verification/PathState.v ===== *)
(** * PathState: what relates a state of the engine to the program

    The state that the engine is in stands for the executions of the program
    on the models of its constraints: each comes to the current location, with
    the current variables and call stack; and each saved point stands for the
    executions that come to it.  The rest of the file shows that reverting to
    a point and returning to a caller keep this up. *)
From S2P Require Import Prelude Bits Backend ToySolver SolverUtils MemorySpec Memory Alloc LLVMIR Project Layout VarMap Watchpoints FunctionHooks GlobalAllocations Config State Operands HookUtils Hooks SymexInstr Symex StateTheorems SymexTheorems LevelTheorems InstrTheorems DataTheorems Concrete PathVariables PathMeasure.

Open Scope Z_scope.

Section states.
Context `{Laws : BackendLaws} `{Dec : !Decides} `{MOps : !MemoryOps} `{MLaws : !MemoryLaws} `{L : LLVM} `{CF : ConstFuel} `{EF : !EnoughFuel} `{UC : !UserCode}.
Implicit Types (s : State) (vm : VarMap) (m : Model) (D : gset Name) (env : Env) (k : Counts).
Context {X : Setting} {Hfits : Fits X}.

Abbreviation link := (linked globals).

Lemma function_in_program f md : (f, md) ∈ program ->
  function_ok link widths bound_in md f = true /\ forall name g, name ∈ calls f -> link md name = Some g -> g ∈ program.
Proof.
  intros Hin. pose proof (fits_ok _ _ _ _ _ fits) as Hok. unfold program_ok in Hok. rewrite Forall_forall in Hok.
  destruct (Hok _ Hin) as [Hf Hc]. split; [done|]. intros name g Hn. rewrite Forall_forall in Hc. by apply Hc.
Qed.
Lemma block_in_function f md b : (f, md) ∈ program -> b ∈ func_basic_blocks f -> block_ok link widths bound_in md f b = true.
Proof.
  intros [Hok _]%function_in_program Hb. unfold function_ok in Hok. rewrite !andb_true_iff in Hok.
  destruct Hok as [[[_ Hbs] _] _]. rewrite forallb_forall in Hbs. apply Hbs. by apply list_elem_of_In.
Qed.
Lemma inst_in_block f md b i inst :
  (f, md) ∈ program -> b ∈ func_basic_blocks f -> bb_instrs b !! i = Some inst -> (length (phis b) <= i)%nat ->
  inst_ok link widths md f (bound_at bound_in f b i) inst = true.
Proof.
  intros Hf Hb Hi Hge. pose proof (block_in_function _ _ _ Hf Hb) as Hok. unfold block_ok in Hok. apply andb_prop in Hok as [Hok _].
  rewrite forallb_forall in Hok. specialize (Hok i). rewrite Hi in Hok. apply Hok.
  apply lookup_lt_Some in Hi. apply List.in_seq. lia.
Qed.

(** ** Executions *)

(** The program comes to [c] on the inputs of the model, which are as assumed. *)
Definition reach m (c : Conf) : Prop := assumes m /\ exists c1, called main_module main (inputs m) (initial m) [] ∅ = Some c1 /\ rtc (step link) c1 c.
(** It binds some name more often than there are versions. *)
Definition exceeds m : Prop := exists c fn n, reach m c /\ max_version + 1 < Z.of_nat (count (conf_counts c) fn n).

Lemma reach_step m c c' : reach m c -> step link c c' -> reach m c'.
Proof. intros (Hm & c1 & E & Hr) Hs. split; [done|]. exists c1. split; [done|]. by eapply rtc_r. Qed.

(** ** The call stack *)

(** A frame was pushed at a call in its function of one that returns what [g] does. *)
Record site_ok (g : Function_) (sf : StackFrame) (call : Call) (i : nat) : Prop := {
  site_instr : callsite_instr (callsite sf) = LeftCall call;
  site_program : (func (callsite_loc (callsite sf)), module (callsite_loc (callsite sf))) ∈ program;
  site_block : bb (callsite_loc (callsite sf)) ∈ func_basic_blocks (func (callsite_loc (callsite sf)));
  site_index : instr (callsite_loc (callsite sf)) = Instr (Z.of_nat i);
  site_call : bb_instrs (bb (callsite_loc (callsite sf))) !! i = Some (ICall call);
  site_phis : (length (phis (bb (callsite_loc (callsite sf)))) <= i)%nat;
  site_dest : dest_ok widths (func (callsite_loc (callsite sf))) (call_dest call) (func_return_type g) = true;
  site_name : ri_funcname (restore_info sf) = func_name (func (callsite_loc (callsite sf)));
  site_nodup : NoDup (pairs_to_restore (restore_info sf)).*1;
  site_widths n bv : (n, bv) ∈ pairs_to_restore (restore_info sf) ->
    widths (func_name (func (callsite_loc (callsite sf)))) !! n = Some (get_width bv)
}.
(** The frames of the running function [g], up to the explored one. *)
Fixpoint chain (g : Function_) (frames : list StackFrame) : Prop :=
  match frames with
  | [] => func_return_type g = func_return_type main
  | sf :: frames => (exists call i, site_ok g sf call i) /\ chain (func (callsite_loc (callsite sf))) frames
  end.

(** The frame of the program: the variables are those that will be restored. *)
Record frame_ok m (sf : StackFrame) (fr : Frame) : Prop := {
  frame_mod : fr_mod fr = module (callsite_loc (callsite sf));
  frame_func : fr_func fr = func (callsite_loc (callsite sf));
  frame_block : fr_block fr = bb (callsite_loc (callsite sf));
  frame_site : exists call i, callsite_instr (callsite sf) = LeftCall call /\
    instr (callsite_loc (callsite sf)) = Instr (Z.of_nat i) /\ fr_next fr = S i /\ fr_dest fr = call_dest call /\
    defined (bound_at bound_in (fr_func fr) (fr_block fr) i) (fr_env fr);
  frame_env n v : fr_env fr !! n = Some v -> exists bv, (n, bv) ∈ pairs_to_restore (restore_info sf) /\ eval m bv = v
}.

(** The function that is running, its variables, the memory and the call stack. *)
Record Ctx := { c_mod : Module_; c_func : Function_; c_vars : VarMap; c_mem : Memory; c_stack : list StackFrame }.
Definition ctx_of s : Ctx :=
  {| c_mod := module (cur_loc s); c_func := func (cur_loc s); c_vars := varmap s; c_mem := mem s; c_stack := stack s |}.
Definition ctx_of_point (bp : BacktrackPoint) : Ctx :=
  {| c_mod := module (bp_loc bp); c_func := func (bp_loc bp); c_vars := bp_varmap bp; c_mem := bp_mem bp; c_stack := bp_stack bp |}.

(** The variables of a frame can be restored. *)
Definition restorable vm (sf : StackFrame) : Prop :=
  forall n bv, (n, bv) ∈ pairs_to_restore (restore_info sf) -> is_Some (binding vm (ri_funcname (restore_info sf)) n).
Definition ctx_ok (c : Ctx) : Prop :=
  (c_func c, c_mod c) ∈ program /\ vars_ok widths max_version (c_vars c) /\ chain (c_func c) (c_stack c) /\
  Forall (restorable (c_vars c)) (c_stack c).
(** The program comes to the point, with the variables, the memory and the
    frames of the context, and the names [D] bound. *)
Definition at_conf m (c : Ctx) D (p : Point) : Prop :=
  exists env frames k, env_ok m (c_vars c) (func_name (c_func c)) env /\ defined D env /\ counts_ok (c_vars c) k /\
    Forall2 (frame_ok m) (c_stack c) frames /\ reach m (Running (c_mod c) (c_func c) p env (mem_bit (c_mem c) m) frames k).

(** It comes to [b] from the block before the last visit of the path. *)
Definition arrives (models : Model -> Prop) (p : list PathEntry) (c : Ctx) (b : BasicBlock) : Prop :=
  exists prev D, (prev = None \/ prev = prev_of p) /\ edge_ok widths bound_in (c_func c) D prev b = true /\
    forall m, models m -> at_conf m c D (Enter prev b).

(** ** Saved points *)

Definition holds (levels : list (list BV)) m : Prop := Forall (fun b => eval m b = 1) (concat levels).

(** A saved point: every model of its constraints, of which there are some, is
    an execution that comes to its block.  [p] is the path at present, which
    that of the point is a prefix of. *)
Record point_ok (p : list PathEntry) (bp : BacktrackPoint) (levels : list (list BV)) : Prop := {
  point_loc : instr (bp_loc bp) = Instr 0 /\ bb (bp_loc bp) ∈ func_basic_blocks (func (bp_loc bp));
  point_ctx : ctx_ok (ctx_of_point bp);
  point_width : get_width (bp_constraint bp) = 1;
  point_mem : mem_wf (bp_mem bp);
  point_path : (bp_path_len bp <= length p)%nat;
  point_levels : levels <> [];
  point_feasible : exists m, holds levels m /\ eval m (bp_constraint bp) = 1;
  point_arrives : arrives (fun m => holds levels m /\ eval m (bp_constraint bp) = 1)
                    (take (bp_path_len bp) p) (ctx_of_point bp) (bb (bp_loc bp))
}.
(** The saved points with the levels of the solver, the innermost first; the
    level of a point is popped when it is reverted to. *)
Fixpoint points_ok (p : list PathEntry) (bps : list BacktrackPoint) (levels : list (list BV)) : Prop :=
  match bps, levels with
  | [], _ => True
  | bp :: bps, _ :: levels => point_ok p bp levels /\ points_ok (take (bp_path_len bp) p) bps levels
  | _, _ => False
  end.
(** [m] is a model of one of the points. *)
Fixpoint in_points (bps : list BacktrackPoint) (levels : list (list BV)) m : Prop :=
  match bps, levels with
  | bp :: bps, _ :: levels => holds levels m /\ eval m (bp_constraint bp) = 1 \/ in_points bps levels m
  | _, _ => False
  end.

Lemma points_ok_top p bps l l' levels : points_ok p bps (l :: levels) -> points_ok p bps (l' :: levels).
Proof. by destruct bps. Qed.
Lemma in_points_top bps l l' levels m : in_points bps (l :: levels) m <-> in_points bps (l' :: levels) m.
Proof. by destruct bps. Qed.
Lemma point_ok_snoc p e bp levels : point_ok p bp levels -> point_ok (p ++ [e]) bp levels.
Proof.
  intros [? ? ? ? Hp ? ? Ha]. split; try done; [rewrite length_app; lia|]. by rewrite take_app_le.
Qed.
Lemma points_ok_snoc p e bps levels : points_ok p bps levels -> points_ok (p ++ [e]) bps levels.
Proof.
  destruct bps as [|bp bps], levels as [|l levels]; try done. intros [Hp Hps]. split; [by apply point_ok_snoc|].
  rewrite take_app_le; [done|apply Hp].
Qed.

(** ** States *)

(** What holds at all times. *)
Record saved s : Prop := {
  saved_config : config s = settings;
  saved_globals : global_allocations s = globals;
  saved_solver : solver_ok (solver s);
  saved_gen : model_gen (solver s) = false;
  saved_points : points_ok (path s) (backtrack_points s) (assertions (solver s));
  saved_mem : mem_wf (mem s);
  saved_watch : watch_ok s
}.
(** What holds when the program is running. *)
Record base s : Prop := {
  base_saved : saved s;
  base_ctx : ctx_ok (ctx_of s);
  base_block : bb (cur_loc s) ∈ func_basic_blocks (func (cur_loc s))
}.
Definition pending s m : Prop := in_points (backtrack_points s) (assertions (solver s)) m.
(** A model is one of the path, or of a saved point, or the program exceeds
    the loop bound on it. *)
Definition covered s m : Prop := models (solver s) m \/ pending s m \/ exceeds m.

(** At the start of a block, or after a call in it. *)
Definition alive s : Prop :=
  base s /\ satisfiable (solver s) /\
  (instr (cur_loc s) = Instr 0 /\ arrives (models (solver s)) (path s) (ctx_of s) (bb (cur_loc s)) \/
   exists i, insts_to_skip (cur_loc s) = Ok i /\ (length (phis (bb (cur_loc s))) <= i)%nat /\
     forall m, models (solver s) m ->
       at_conf m (ctx_of s) (bound_at bound_in (func (cur_loc s)) (bb (cur_loc s)) i) (At (bb (cur_loc s)) i)).

(** The value that a result has in a model, and its type. *)
Definition ret_val m (v : ReturnValue BV) : option (option Z) :=
  match v with Return bv => Some (Some (eval m bv)) | ReturnVoid => Some None | _ => None end.
Definition ret_ok (ty : Type_) (v : ReturnValue BV) : Prop :=
  match v with Return bv => value_width ty = Some (get_width bv) | ReturnVoid => ty = VoidType | _ => False end.

(** The function has returned: every model is an execution that returns its
    result to the frames. *)
Definition returned (f : Function_) (frames : list StackFrame) (v : ReturnValue BV) s : Prop :=
  stack s = frames /\ vars_ok widths max_version (varmap s) /\ Forall (restorable (varmap s)) frames /\ ret_ok (func_return_type f) v /\
  forall m, models (solver s) m -> exists x φ k, ret_val m v = Some x /\ counts_ok (varmap s) k /\
    Forall2 (frame_ok m) frames φ /\ reach m (Returning x (mem_bit (mem s) m) φ k).
Definition finished (v : ReturnValue BV) s : Prop :=
  stack s = [] /\ ret_ok (func_return_type main) v /\
  forall m, models (solver s) m -> exists x M k, ret_val m v = Some x /\ reach m (Returning x M [] k).

Lemma returned_finished f v s : chain f [] -> returned f [] v s -> finished v s.
Proof.
  intros Hc (Hs & _ & _ & Hr & Hm). split; [done|]. split; [by rewrite <- Hc|]. intros m (x & φ & k & Hx & _ & Hf & Hreach)%Hm.
  apply Forall2_nil_inv_l in Hf as ->. by exists x, (mem_bit (mem s) m), k.
Qed.

(** How an exploration ends: no model of [cov] is lost, and a result is right.
    [Ok None] and [Err Unsat] both say that there are no more paths; otherwise
    the saved points weigh less than [W].  It can only run out of fuel when the
    fuel was short, [sh]. *)
Definition post (sh : Prop) (W : nat) (good : ReturnValue BV -> State -> Prop) (cov : Model -> Prop) (r : outcome (option (ReturnValue BV))) s' : Prop :=
  r = OutOfFuel /\ sh \/
  saved s' /\ (forall m, cov m -> match r with Ok None | Err Unsat => exceeds m | _ => covered s' m end) /\
  match r with
  | Ok (Some v) => (ranked -> (points_weight s' < W)%nat) /\ satisfiable (solver s') /\ good v s'
  | Ok None | Err Unsat => backtrack_points s' = []
  | Err (LoopBoundExceeded _) => (ranked -> (points_weight s' < W)%nat) /\ forall m, models (solver s') m -> exceeds m
  | Err _ => ranked -> (points_weight s' < W)%nat
  | _ => False
  end.
Definition explores sh W good (cov : Model -> Prop) (c : M State (option (ReturnValue BV))) s : Prop := runs c s (post sh W good cov).

Lemma post_weaken (sh sh' : Prop) (W W' : nat) (good good' : ReturnValue BV -> State -> Prop) (cov cov' : Model -> Prop) r s :
  (sh -> sh') -> (ranked -> (W <= W')%nat) -> (forall v s, good v s -> good' v s) -> (forall m, cov' m -> cov m) ->
  post sh W good cov r s -> post sh' W' good' cov' r s.
Proof.
  intros Hsh HW Hg Hc [[-> ?]|(Hs & Hcov & Hr)]; [left; auto|right]. split; [done|]. split; [intros m Hm; by apply Hcov, Hc|].
  assert ((ranked -> (points_weight s < W)%nat) -> ranked -> (points_weight s < W')%nat) as Hlt by (intros Hl Hrk; specialize (HW Hrk); specialize (Hl Hrk); lia).
  destruct r as [[v|]|e| |]; [destruct Hr as (? & ? & ?); auto|done| |done..]. destruct e; auto. destruct Hr; auto.
Qed.
Lemma explores_mono (sh sh' : Prop) (W W' : nat) (good good' : ReturnValue BV -> State -> Prop) (cov cov' : Model -> Prop) c s :
  (sh -> sh') -> (ranked -> (W <= W')%nat) -> (forall v s, good v s -> good' v s) -> (forall m, cov' m -> cov m) ->
  explores sh W good cov c s -> explores sh' W' good' cov' c s.
Proof. intros Hsh HW Hg Hc He. eapply runs_mono; [exact He|]. intros r s'. by apply post_weaken. Qed.
Lemma explores_weaken sh W good (cov cov' : Model -> Prop) c s : (forall m, cov' m -> cov m) -> explores sh W good cov c s -> explores sh W good cov' c s.
Proof. intros Hc. by apply explores_mono. Qed.

(** What the three entry points of the engine promise, with fuel [n]. *)
Record engine_ok (n : nat) (E : Engine) : Prop := {
  ok_through s : alive s ->
    explores (short n (3 * state_weight s)) (state_weight s)
      (fun v s' => returned (func (cur_loc s)) (stack s) v s' /\ (ranked -> (caller_weight s' < state_weight s)%nat) \/ finished v s') (covered s)
      (symex_from_cur_loc_through_end_of_function E) s;
  ok_backtrack s : saved s ->
    explores (short n (3 * points_weight s + 2)) (points_weight s) finished (fun m => pending s m \/ exceeds m) (backtrack_and_continue E) s;
  ok_from s : alive s -> explores (short n (3 * state_weight s + 1)) (state_weight s) finished (covered s) (symex_from_cur_loc E) s
}.

(** ** Backtracking *)

(** An assertion goes to the top level. *)
Lemma assert_top c sol : get_width c = 1 -> solver_ok sol ->
  exists l ls, assertions sol = l :: ls /\ assertions (btor_assert c sol) = (c :: l) :: ls /\ model_gen (btor_assert c sol) = model_gen sol.
Proof.
  intros Wc O. destruct (assertions sol) as [|l ls] eqn:Es; [by destruct O|]. exists l, ls. split; [done|].
  by apply btor_assert_law.
Qed.

Lemma explores_revert n E s : engine_ok n E -> saved s ->
  explores (short (S n) (3 * points_weight s + 2)) (points_weight s) finished (fun m => pending s m \/ exceeds m) (backtrack_and_continue_with E) s.
Proof.
  intros HE Hs. pose proof Hs as [Hcfg Hga O G Hp Hmem Hwatch]. unfold explores, backtrack_and_continue_with, pending. apply runs_bind.
  destruct (backtrack_points s) as [|bp bps] eqn:Eb.
  { unfold revert_to_backtracking_point. apply runs_bind. unfold runs at 1, get. rewrite Eb.
    right. split; [done|]. split; [|done]. by intros m [|]. }
  unfold runs at 1. rewrite (revert_eq _ _ _ Eb).
  destruct (assertions (solver s)) as [|l [|l' ls]] eqn:Ea; [done|by destruct Hp as [[] _]|].
  destruct Hp as [[Hloc Hctx Hw Hbm Hlen _ (m0 & Hm0) Harr] Hps].
  pose proof (pop_assertions _ _ _ _ Ea) as Ep. assert (solver_ok (btor_pop 1 (solver s))) as Op by (unfold solver_ok; by rewrite Ep).
  assert (model_gen (btor_pop 1 (solver s)) = false) as Gp by (rewrite <- G; apply btor_pop_law; rewrite Ea; cbn [length]; lia).
  destruct (assert_top (bp_constraint bp) _ Hw Op) as (l1 & ls1 & E1 & E2 & G2). rewrite Ep in E1. injection E1 as <- <-.
  match goal with |- runs _ ?x _ => set (s' := x) end.
  assert (forall m, models (solver s') m <-> holds (l' :: ls) m /\ eval m (bp_constraint bp) = 1) as Hm.
  { intros m. unfold s'. cbn [solver]. rewrite models_assert by done. unfold models. rewrite Ep. unfold holds. tauto. }
  assert (state_weight s' = points_weight s) as Hweight.
  { unfold state_weight, points_weight. rewrite Eb. cbn. unfold point_weight, position. by rewrite (proj1 Hloc). }
  eapply (explores_mono (short n (3 * state_weight s' + 1)) _ (state_weight s')); [| | | |apply (ok_from _ _ HE)]; [| |done| |].
  - rewrite Hweight. intros Hsh Hr. specialize (Hsh Hr). lia.
  - intros _. by rewrite Hweight.
  - intros m [[Hh|Hin]|?]; [left; by apply Hm| |by right; right]. right; left. unfold pending, s'. cbn [solver backtrack_points].
    rewrite E2. by eapply in_points_top.
  - destruct Hloc as (? & ?). split; [|split].
    + split; [|done|done]. split; try done; unfold s'; cbn [solver backtrack_points path]; [unfold solver_ok; by rewrite E2|congruence|].
      rewrite E2. by eapply points_ok_top.
    + exists m0. by apply Hm.
    + left. split; [done|]. destruct Harr as (prev & D & Hprev & Hedge & Harr). exists prev, D. split; [done|]. split; [done|].
      intros m Hm'%Hm. by apply Harr.
Qed.

(** ** Returning to the caller *)

(** The variables of a frame are restored. *)
Record restored (ri : RestoreInfo) vm vm' : Prop := {
  restored_active : active_version vm' = foldl (fun av p => <[(ri_funcname ri, fst p) := snd p]> av) (active_version vm) (pairs_to_restore ri);
  restored_version : version_num vm' = version_num vm;
  restored_max : max_version_num vm' = max_version_num vm
}.
Lemma runs_restore ri vm (Q : outcome unit -> VarMap -> Prop) :
  (forall n bv, (n, bv) ∈ pairs_to_restore ri -> is_Some (binding vm (ri_funcname ri) n)) ->
  (forall vm', restored ri vm vm' -> Q (Ok tt) vm') -> runs (restore_fn_vars ri) vm Q.
Proof.
  destruct ri as [fn pairs]. unfold restore_fn_vars. cbn [pairs_to_restore ri_funcname]. revert vm.
  induction pairs as [|[n v] pairs IH]; intros vm Hin HQ; cbn [forM]; [by apply HQ|].
  apply runs_bind, runs_bind. unfold runs at 1, get. destruct (Hin n v) as [bv Hbv]; [left|]. unfold DoubleKeyedMap.get. unfold binding in Hbv. rewrite Hbv.
  unfold runs at 1, modify. apply IH; [|intros vm' [Ha Hv Hm]; apply HQ; by split].
  intros n' bv' Hn. unfold binding, DoubleKeyedMap.insert. cbn. rewrite lookup_insert. case_decide; [done|]. apply (Hin n' bv'). by right.
Qed.
Lemma restored_vars ri vm vm' :
  restored ri vm vm' -> NoDup (pairs_to_restore ri).*1 -> vars_ok widths max_version vm ->
  (forall n bv, (n, bv) ∈ pairs_to_restore ri -> widths (ri_funcname ri) !! n = Some (get_width bv)) -> vars_ok widths max_version vm'.
Proof.
  intros [Ha Hv Hmx] Hnd (Ht & Hm & Hvs) Hw. split; [|split; [congruence|unfold versions_ok; by rewrite Hv]]. intros fn n bv. unfold binding. rewrite Ha, foldl_insert_lookup by done.
  destruct (decide (fn = ri_funcname ri)) as [->|]; [|apply Ht].
  destruct (list_to_map _ !! n) as [bv'|] eqn:Ev; [|apply Ht]. intros [= <-]. apply Hw. by apply elem_of_list_to_map_2.
Qed.
Lemma restored_binding ri vm vm' n bv :
  restored ri vm vm' -> NoDup (pairs_to_restore ri).*1 -> (n, bv) ∈ pairs_to_restore ri -> binding vm' (ri_funcname ri) n = Some bv.
Proof.
  intros [Ha _ _] Hnd Hin. unfold binding. rewrite Ha, foldl_insert_lookup by done. rewrite decide_True by done.
  by rewrite (elem_of_list_to_map_1 _ n bv).
Qed.
Lemma restored_counts ri vm vm' k : restored ri vm vm' -> counts_ok vm k -> counts_ok vm' k.
Proof. intros [_ Hv _] Hk fn n v. rewrite Hv. apply Hk. Qed.

Lemma restored_some ri vm vm' fn n : restored ri vm vm' -> is_Some (binding vm fn n) -> is_Some (binding vm' fn n).
Proof.
  intros [Ha _ _]. unfold binding. rewrite Ha. clear Ha. generalize (active_version vm). induction (pairs_to_restore ri) as [|p ps IH]; intros av Hs; [done|].
  cbn. apply IH. rewrite lookup_insert. by case_decide.
Qed.
Lemma restored_restorable ri vm vm' frames : restored ri vm vm' -> Forall (restorable vm) frames -> Forall (restorable vm') frames.
Proof. intros Hr Hf. eapply Forall_impl; [exact Hf|]. intros sf Hs n bv Hin. eapply restored_some; [done|by eapply Hs]. Qed.
Lemma assigned_restorable vm fn n bv vm' frames : assigned max_version vm fn n bv vm' -> Forall (restorable vm) frames -> Forall (restorable vm') frames.
Proof.
  intros Ha Hf. eapply Forall_impl; [exact Hf|]. intros sf Hs n' bv' Hin. rewrite (assigned_binding _ _ _ _ _ _ _ _ Ha). case_decide; [done|by eapply Hs].
Qed.
Lemma runs_pop_frame {B} sf frames (k : option Callsite -> M State B) s Q :
  stack s = sf :: frames -> restorable (varmap s) sf ->
  (forall vm, restored (restore_info sf) (varmap s) vm -> runs (k (Some (callsite sf))) (set_varmap vm (set_stack frames s)) Q) ->
  runs (pop_callsite ≫= k) s Q.
Proof.
  intros Es Hrs Hk. unfold pop_callsite. apply runs_bind, runs_bind. unfold runs at 1, get. rewrite Es.
  apply runs_bind. unfold runs at 1, modify. apply runs_bind. unfold runs at 1, on_varmap, zoom.
  pose proof (runs_restore (restore_info sf) (varmap s) (fun r vm => r = Ok tt /\ restored (restore_info sf) (varmap s) vm) Hrs ltac:(done)) as Hr.
  unfold runs in Hr. cbn [varmap set_stack]. destruct (restore_fn_vars _ _) as [[[]|e|p|] vm]; [|by destruct Hr..].
  by apply Hk, Hr.
Qed.
Lemma runs_pop_none {B} (k : option Callsite -> M State B) s Q : stack s = [] -> runs (k None) s Q -> runs (pop_callsite ≫= k) s Q.
Proof. intros Es Hk. unfold pop_callsite. apply runs_bind, runs_bind. unfold runs at 1, get. by rewrite Es. Qed.

(** The caller, when its result is bound: [dest] and [v] are the name and the
    value, or neither. *)
Definition ctx_of_frame (sf : StackFrame) vm (M : Memory) frames : Ctx :=
  {| c_mod := module (callsite_loc (callsite sf)); c_func := func (callsite_loc (callsite sf)); c_vars := vm; c_mem := M; c_stack := frames |}.
Section frame.
Context (g : Function_) (sf : StackFrame) (call : Call) (i : nat) (Hsite : site_ok g sf call i).
Let l := callsite_loc (callsite sf).

Lemma frame_index m fr : frame_ok m sf fr ->
  fr_next fr = S i /\ fr_dest fr = call_dest call /\ defined (bound_at bound_in (func l) (bb l) i) (fr_env fr).
Proof.
  intros [_ Hf Hb (call' & i' & Hc & Hi & Hn & Hd & HD) _]. rewrite (site_instr _ _ _ _ Hsite) in Hc. injection Hc as <-.
  rewrite (site_index _ _ _ _ Hsite) in Hi. injection Hi as Hi%Nat2Z.inj. subst i'. by rewrite Hf, Hb in HD.
Qed.
Lemma bound_at_call : bound_at bound_in (func l) (bb l) (S i) =
  bound_at bound_in (func l) (bb l) i ∪ match call_dest call with Some n => {[n]} | None => ∅ end.
Proof.
  unfold bound_at, l. rewrite (take_S_r _ _ _ (site_call _ _ _ _ Hsite)), omap_app, list_to_set_app_L. cbn.
  destruct (call_dest call); cbn; set_solver.
Qed.

(** The returning step of the program. *)
Lemma frame_returns m M fr φ k x st :
  frame_ok m sf fr -> reach m (Returning x M (fr :: φ) k) ->
  bind_result (func_name (func l)) (fr_env fr, k) (call_dest call) x = Some st ->
  reach m (Running (module l) (func l) (At (bb l) (S i)) st.1 M φ st.2).
Proof.
  intros Hfr Hr Hb. destruct (frame_index m fr Hfr) as (Hn & Hd & _). destruct Hfr as [Hmod Hf Hbb _ _]. destruct st as [env' k'].
  eapply reach_step; [exact Hr|]. fold l in Hmod, Hf, Hbb. rewrite <- Hmod, <- Hf, <- Hbb, <- Hn. apply step_return. by rewrite Hf, Hd.
Qed.

Lemma frame_env_ok m fr vm vm' : frame_ok m sf fr -> restored (restore_info sf) vm vm' -> env_ok m vm' (func_name (func l)) (fr_env fr).
Proof.
  intros Hfr Hr n v (bv & Hin & Hv)%(frame_env _ _ _ Hfr). exists bv. split; [|done]. unfold l. rewrite <- (site_name _ _ _ _ Hsite).
  eapply restored_binding; [done|apply (site_nodup _ _ _ _ Hsite)|done].
Qed.

Lemma frame_resumes_void m M vm vm' frames φ k :
  restored (restore_info sf) vm vm' -> counts_ok vm k -> Forall2 (frame_ok m) (sf :: frames) φ -> reach m (Returning None (mem_bit M m) φ k) ->
  call_dest call = None ->
  at_conf m (ctx_of_frame sf vm' M frames) (bound_at bound_in (func l) (bb l) (S i)) (At (bb l) (S i)).
Proof.
  intros Hr Hk Hfs Hreach Hd. apply Forall2_cons_inv_l in Hfs as (fr & φ' & Hfr & Hfs & ->).
  exists (fr_env fr), φ', k. split; [by eapply frame_env_ok|]. split; [|split; [by eapply restored_counts|]].
  - rewrite bound_at_call, Hd. eapply defined_mono; [|apply (frame_index m fr Hfr)]. fold l. set_solver.
  - split; [done|]. apply (frame_returns m _ fr φ' k None (fr_env fr, k) Hfr Hreach). by rewrite Hd.
Qed.
Lemma frame_resumes_value m M vm vm' vm'' frames φ k n bv :
  restored (restore_info sf) vm vm' -> counts_ok vm k -> Forall2 (frame_ok m) (sf :: frames) φ ->
  reach m (Returning (Some (eval m bv)) (mem_bit M m) φ k) -> call_dest call = Some n -> assigned max_version vm' (func_name (func l)) n bv vm'' ->
  at_conf m (ctx_of_frame sf vm'' M frames) (bound_at bound_in (func l) (bb l) (S i)) (At (bb l) (S i)).
Proof.
  intros Hr Hk Hfs Hreach Hd Ha. apply Forall2_cons_inv_l in Hfs as (fr & φ' & Hfr & Hfs & ->).
  exists (<[n := eval m bv]> (fr_env fr)), φ', (bump (func_name (func l)) n k).
  split; [eapply assigned_env; [done..|by eapply frame_env_ok]|]. split; [|split; [|split; [done|]]].
  - rewrite bound_at_call, Hd. apply defined_insert, (frame_index m fr Hfr).
  - eapply assigned_counts; [done|by eapply restored_counts].
  - apply (frame_returns m _ fr φ' k _ (bind (func_name (func l)) (fr_env fr, k) (n, eval m bv)) Hfr Hreach). by rewrite Hd.
Qed.
Lemma frame_overflows m M vm vm' frames φ k n z :
  restored (restore_info sf) vm vm' -> counts_ok vm k -> Forall2 (frame_ok m) (sf :: frames) φ ->
  reach m (Returning (Some z) M φ k) -> call_dest call = Some n -> overflows max_version vm' (func_name (func l)) n -> exceeds m.
Proof.
  intros Hr Hk Hfs Hreach Hd Ho. apply Forall2_cons_inv_l in Hfs as (fr & φ' & Hfr & Hfs & ->).
  eexists _, (func_name (func l)), n. split; [apply (frame_returns m _ fr φ' k _ (bind (func_name (func l)) (fr_env fr, k) (n, z)) Hfr Hreach); by rewrite Hd|].
  cbn. apply Ho. by eapply restored_counts.
Qed.

End frame.

Lemma inc_past (l : Location) i :
  instr l = Instr (Z.of_nat i) -> (i < length (bb_instrs (bb l)))%nat ->
  exists l', inc l = Ok l' /\ module l' = module l /\ func l' = func l /\ bb l' = bb l /\ position l' = cap /\ insts_to_skip l' = Ok (S i).
Proof.
  intros Hi Hlt. unfold inc. rewrite Hi. destruct (Z.leb_spec (Z.of_nat (length (bb_instrs (bb l)))) (Z.of_nat i + 1)).
  - eexists. do 5 (split; [done|]). cbn. f_equal. lia.
  - eexists. do 4 (split; [done|]). split; [unfold position; cbn; destruct (Z.of_nat i + 1) eqn:E; [lia|done..]|].
    cbn. rewrite (proj2 (Z.eqb_neq _ _)) by lia. cbn [andb].
    rewrite (proj2 (Z.ltb_lt _ _)) by lia. cbn. f_equal. lia.
Qed.

Lemma saved_varmap vm s : saved s -> saved (set_varmap vm s).
Proof. by intros []. Qed.
Lemma saved_stack frames s : saved s -> saved (set_stack frames s).
Proof. by intros []. Qed.
Lemma saved_loc l s : saved s -> saved (set_cur_loc l s).
Proof. by intros []. Qed.

(** The state that goes on in the caller. *)
Definition back_in (l : Location) vm (frames : list StackFrame) s : State := set_cur_loc l (set_varmap vm (set_stack frames s)).
Lemma saved_back l vm frames s : saved s -> saved (back_in l vm frames s).
Proof. intros. by apply saved_loc, saved_varmap, saved_stack. Qed.
Lemma alive_back g sf call i (l : Location) vm frames s :
  site_ok g sf call i -> chain (func (callsite_loc (callsite sf))) frames -> saved s -> satisfiable (solver s) -> vars_ok widths max_version vm ->
  module l = module (callsite_loc (callsite sf)) -> func l = func (callsite_loc (callsite sf)) -> bb l = bb (callsite_loc (callsite sf)) ->
  insts_to_skip l = Ok (S i) -> Forall (restorable vm) frames ->
  (forall m, models (solver s) m -> at_conf m (ctx_of_frame sf vm (mem s) frames) (bound_at bound_in (func l) (bb l) (S i)) (At (bb l) (S i))) ->
  alive (back_in l vm frames s).
Proof.
  intros Hsite Hch Hs Hsat Hvm Em Ef Eb Hskip Hrs Hconf.
  split; [split|split; [done|right; exists (S i); split; [done|]; split]].
  - by apply saved_back.
  - unfold ctx_ok. cbn. rewrite Em, Ef. split; [apply (site_program _ _ _ _ Hsite)|done].
  - cbn. rewrite Ef, Eb. apply (site_block _ _ _ _ Hsite).
  - cbn. rewrite Eb. pose proof (site_phis _ _ _ _ Hsite). lia.
  - intros m Hm. specialize (Hconf m Hm). unfold ctx_of_frame in Hconf. by rewrite <- Em, <- Ef in Hconf.
Qed.

(** The type of a result is that of the call. *)
Lemma site_result g sf call i v : site_ok g sf call i -> ret_ok (func_return_type g) v ->
  match v with
  | Return bv => exists n, call_dest call = Some n /\
      widths (func_name (func (callsite_loc (callsite sf)))) !! n = Some (get_width bv)
  | ReturnVoid => call_dest call = None
  | _ => False
  end.
Proof.
  intros Hsite Hr. pose proof (site_dest _ _ _ _ Hsite) as Hd. unfold dest_ok, ret_ok in *.
  destruct v as [bv| | |]; [| |done..]; rewrite Hr in Hd; destruct (call_dest call) as [n|]; try done.
  - exists n. split; [done|]. by apply bool_decide_eq_true in Hd.
  - by destruct (func_return_type g).
Qed.

(** In the caller, with its variables [vm], after the call that [sf] is of. *)
Definition after_call m sf vm (M : Memory) frames i : Prop :=
  at_conf m (ctx_of_frame sf vm M frames) (bound_at bound_in (func (callsite_loc (callsite sf))) (bb (callsite_loc (callsite sf))) (S i))
    (At (bb (callsite_loc (callsite sf))) (S i)).

(** Binding the result in the caller: it goes on, or exceeds the bound. *)
Lemma runs_bind_result g sf call i frames bv n vm s s1 :
  site_ok g sf call i -> returned g (sf :: frames) (Return bv) s -> call_dest call = Some n ->
  restored (restore_info sf) (varmap s) vm ->
  func (cur_loc s1) = func (callsite_loc (callsite sf)) -> varmap s1 = vm ->
  runs (State.assign_bv_to_name n bv) s1 (fun r s' => exists vm', s' = set_varmap vm' s1 /\
    match r with
    | Ok _ => vars_ok widths max_version vm' /\ Forall (restorable vm') frames /\ (budget vm' <= budget (varmap s))%nat /\
        forall m, models (solver s) m -> after_call m sf vm' (mem s) frames i
    | Err e => e = LoopBoundExceeded max_version /\ forall m, models (solver s) m -> exceeds m
    | _ => False
    end).
Proof.
  intros Hsite (_ & Hvars & Hrs & Hty & Hm) Hd Hr Hl Ev. apply Forall_cons in Hrs as [_ Hrs].
  assert (vars_ok widths max_version vm) as Hvm.
  { eapply restored_vars; [done|apply (site_nodup _ _ _ _ Hsite)|done|]. rewrite (site_name _ _ _ _ Hsite). apply (site_widths _ _ _ _ Hsite). }
  eapply runs_mono; [apply (runs_assign_state widths max_version (func (callsite_loc (callsite sf))))|].
  { split; [done|by rewrite Ev]. }
  intros r s' (vm' & -> & Ha). exists vm'. split; [done|]. unfold assigns in Ha. rewrite Ev in Ha. destruct r as [[]|e|p|]; [| |done..].
  - destruct (site_result _ _ _ _ _ Hsite Hty) as (n' & Hd' & Hw). simplify_eq. split; [by eapply assigned_vars|].
    split; [eapply assigned_restorable; [done|by eapply restored_restorable]|]. split.
    { rewrite <- (budget_same _ _ (restored_version _ _ _ Hr)). apply Nat.lt_le_incl. eapply assigned_budget; [apply (site_program _ _ _ _ Hsite)|done|apply Hvm|done]. }
    intros m (x & φ & c & [= <-] & Hc & Hfs & Hreach)%Hm. by eapply frame_resumes_value.
  - destruct Ha as [-> Ho]. split; [done|]. intros m (x & φ & c & [= <-] & Hc & Hfs & Hreach)%Hm. by eapply frame_overflows.
Qed.

Lemma returned_void g sf call i frames vm s :
  site_ok g sf call i -> returned g (sf :: frames) ReturnVoid s -> restored (restore_info sf) (varmap s) vm ->
  vars_ok widths max_version vm /\ Forall (restorable vm) frames /\ (budget vm <= budget (varmap s))%nat /\
  forall m, models (solver s) m -> after_call m sf vm (mem s) frames i.
Proof.
  intros Hsite (_ & Hvars & Hrs & Hret & Hm) Hr. apply Forall_cons in Hrs as [_ Hrs].
  split; [|split; [by eapply restored_restorable|split; [by rewrite (budget_same _ _ (restored_version _ _ _ Hr))|]]].
  - eapply restored_vars; [done|apply (site_nodup _ _ _ _ Hsite)|done|]. rewrite (site_name _ _ _ _ Hsite). apply (site_widths _ _ _ _ Hsite).
  - intros m (x & φ & c & [= <-] & Hc & Hfs & Hreach)%Hm. eapply frame_resumes_void; try done. by apply (site_result _ _ _ _ _ Hsite Hret).
Qed.

(** From a point on, back to the end of the explored function. *)
Lemma caller_weighs g sf call i l frames vm s s0 :
  site_ok g sf call i -> stack s = sf :: frames -> position l = cap -> (budget vm <= budget (varmap s))%nat ->
  (ranked -> (caller_weight s < state_weight s0)%nat) -> ranked -> (state_weight (back_in l vm frames s) < state_weight s0)%nat.
Proof.
  intros Hsite Es Hl Hb Hlt Hr. eapply Nat.le_lt_trans; [|exact (Hlt Hr)]. unfold state_weight, caller_weight, caller_share, points_weight. cbn. rewrite Es, Hl.
  apply Nat.add_le_mono_r. apply (weight_le Hr _ _ _ (site_program _ _ _ _ Hsite) (site_block _ _ _ _ Hsite)). unfold exponent. nia.
Qed.
Lemma state_weight_pos s : base s -> ranked -> (1 <= state_weight s)%nat.
Proof.
  intros [_ [Hf _] Hb] Hr. pose proof (weight_pos Hr _ _ _ Hf Hb (position (cur_loc s)) (varmap s) (length (stack s))). unfold state_weight. lia.
Qed.
Lemma explores_from n E s : engine_ok n E -> alive s ->
  explores (short (S n) (3 * state_weight s + 1)) (state_weight s) finished (covered s) (from_cur_loc E) s.
Proof.
  intros HE Hs. pose proof Hs as [[_ (_ & _ & Hch & _) _] _]. cbn in Hch. pose proof (state_weight_pos s (proj1 Hs)) as Hpos.
  unfold explores, from_cur_loc. apply runs_bind.
  eapply runs_mono; [by apply (ok_through _ _ HE)|]. intros r s' [[-> Hsh]|(Hsv & Hc & Hr)].
  { left. split; [done|]. intros Hrk. specialize (Hsh Hrk). lia. }
  destruct r as [[v|]|e|p|]; [| |by right|done..].
  2: { eapply (explores_mono (short n (3 * points_weight s' + 2)) _ (points_weight s')); [| | | |by apply (ok_backtrack _ _ HE)];
         [|unfold points_weight; rewrite Hr; cbn; lia|done|intros m Hm; right; by apply Hc].
       intros Hsh Hrk. specialize (Hsh Hrk). specialize (Hpos Hrk). unfold points_weight in Hsh. rewrite Hr in Hsh. cbn in Hsh. lia. }
  destruct Hr as (Hw & Hsat & Hr).
  assert (finished v s' -> post (short (S n) (3 * state_weight s + 1)) (state_weight s) finished (covered s) (Ok (Some v)) s') as Hfin by (intros Hf; by right).
  assert (finished v s' \/ exists sf frames, stack s = sf :: frames /\ returned (func (cur_loc s)) (sf :: frames) v s' /\
    (ranked -> (caller_weight s' < state_weight s)%nat)) as [Hf|(sf & frames & Es & Hret & Hcw)].
  { destruct Hr as [[Hr Hcw]|Hr]; [|by left]. destruct (stack s) as [|sf frames] eqn:Es; [left; by eapply returned_finished|right; eauto]. }
  - assert (ret_ok (func_return_type main) v) as Hv by apply Hf. destruct v as [bv| |bv|]; try done; (apply runs_pop_none; [apply Hf|]; by apply Hfin).
  - clear Hfin Hr. rewrite Es in Hch. destruct Hch as [(call & i & Hsite) Hch]. pose proof Hret as (Est & _ & Hrs & Hty & _).
    apply Forall_cons in Hrs as [Hrs _]. pose proof (site_result _ _ _ _ _ Hsite Hty) as Hres.
    destruct (inc_past (callsite_loc (callsite sf)) i) as (l' & El' & Em & Ef & Eb & Hcap & Hskip);
      [apply (site_index _ _ _ _ Hsite)|eapply lookup_lt_Some, (site_call _ _ _ _ Hsite)|].
    assert (forall vm, vars_ok widths max_version vm -> Forall (restorable vm) frames -> (budget vm <= budget (varmap s'))%nat ->
      (forall m, models (solver s') m -> after_call m sf vm (mem s') frames i) ->
      explores (short (S n) (3 * state_weight s + 1)) (state_weight s) finished (covered s) (_ ← inc_loc; symex_from_cur_loc E)
        (back_in (callsite_loc (callsite sf)) vm frames s')) as Hgo.
    { intros vm Hvm Hrs' Hbud Hconf. unfold explores, inc_loc. apply runs_bind, runs_bind. unfold runs at 1, get. cbn [cur_loc back_in set_cur_loc].
      rewrite El'. apply (runs_ok l'). unfold runs at 1, modify.
      pose proof (caller_weighs _ _ _ _ l' frames vm s' s Hsite Est Hcap Hbud Hcw) as Hless. set (s2 := back_in l' vm frames s') in *.
      eapply (explores_mono (short n (3 * state_weight s2 + 1)) _ (state_weight s2)); [| | | |apply (ok_from _ _ HE s2); eapply alive_back; try done; by rewrite Ef, Eb];
        [|intros Hrk; specialize (Hless Hrk); lia|done|done].
      intros Hsh Hrk. specialize (Hsh Hrk). specialize (Hless Hrk). lia. }
    destruct v as [bv| |bv|]; [| |done..].
    + destruct Hres as (n0 & Hd & Hwd). apply (runs_pop_frame _ _ _ _ _ Est Hrs). intros vm Hvm.
      rewrite (site_instr _ _ _ _ Hsite). apply runs_bind. unfold runs at 1, modify. cbv zeta. unfold call_dest_unwrap. rewrite Hd.
      apply (runs_ok n0). unfold assign_or_backtrack. apply runs_bind, runs_catch.
      eapply runs_cases; [by eapply (runs_bind_result _ sf _ _ frames)| | |by intros s2 (? & _ & [])].
      { intros [] s2 (vm' & -> & Hvars & Hrs' & Hbud & Hconf). by apply (Hgo vm'). }
      intros e s2 (vm' & -> & _ & Hexc).
      match goal with |- runs _ ?x _ => pose proof (ok_backtrack _ _ HE x (saved_varmap _ _ (saved_back _ _ _ _ Hsv))) as Hbt; change (points_weight x) with (points_weight s') in Hbt end.
      eapply explores_mono; [| | | |exact Hbt]; [|intros Hrk; specialize (Hw Hrk); lia|done|].
      * intros Hsh Hrk. specialize (Hsh Hrk). specialize (Hw Hrk). lia.
      * intros m Hm. destruct (Hc m Hm) as [Hmod|[Hp|?]]; [right; by apply Hexc|by left|by right].
    + apply (runs_pop_frame _ _ _ _ _ Est Hrs). intros vm Hvm. rewrite (site_instr _ _ _ _ Hsite). apply runs_bind. unfold runs at 1, modify. cbv zeta.
      destruct (returned_void _ _ _ _ _ _ _ Hsite Hret Hvm) as (Hvars & Hrs' & Hbud & Hconf). by apply Hgo.
Qed.

End states.
