(* ===== verification/PathTerminators.v ===== *)
(** * PathTerminators: branches and returns follow the program

    A terminator of the engine: the models of the constraints are divided
    among the block that is gone to and the points that are saved, each with
    some, and none is lost; the program goes to the same block in each. *)
From S2P Require Import Prelude Bits Backend ToySolver SolverUtils MemorySpec Memory Alloc LLVMIR Project Layout VarMap Watchpoints FunctionHooks GlobalAllocations Config State Operands HookUtils Hooks SymexInstr Symex StateTheorems SymexTheorems LevelTheorems InstrTheorems DataTheorems Concrete PathVariables PathMeasure PathState.

Open Scope Z_scope.

Section terminators.
Context `{Laws : BackendLaws} `{Dec : !Decides} `{MOps : !MemoryOps} `{MLaws : !MemoryLaws} `{L : LLVM} `{CF : ConstFuel} `{EF : !EnoughFuel} `{UC : !UserCode}.
Context {X : Setting} {Hfits : Fits X}.
Implicit Types (s : State) (vm : VarMap) (m : Model) (D : gset Name) (env : Env) (k : Counts).

(** What is left of the weight [W] of a visit at the terminator of [b]: enough
    for [j] blocks that it goes to, or for the caller. *)
Definition room (f : Function_) (b : BasicBlock) (frames : list StackFrame) (W j : nat) s : Prop :=
  exists q, (j * q + points_weight s < W)%nat /\ (caller_share s <= q)%nat /\
    forall dest b', dest ∈ successors (bb_term b) -> get_bb_by_name f dest = Some b' ->
      (weight (block_rank f b') (varmap s) (length frames) <= q)%nat.

(** At the terminator of [b] in the function [f] with the frames [frames]; the
    last entry of the path is a visit of the block. *)
Record at_end (md : Module_) (f : Function_) (b : BasicBlock) (frames : list StackFrame) (W j : nat) s : Prop := {
  end_base : base s;
  end_satisfiable : satisfiable (solver s);
  end_mod : module (cur_loc s) = md;
  end_func : func (cur_loc s) = f;
  end_block : bb (cur_loc s) = b;
  end_stack : stack s = frames;
  end_path : exists p e, path s = p ++ [e] /\ bb e = b;
  end_models m : models (solver s) m ->
    at_conf m (ctx_of s) (bound_at bound_in f b (length (bb_instrs b))) (At b (length (bb_instrs b)));
  end_room : ranked -> room f b frames W j s
}.

(** The names that the program has bound are bound. *)
Lemma conf_bound f D s (pt : Point) : func (cur_loc s) = f -> satisfiable (solver s) -> (forall m, models (solver s) m -> at_conf m (ctx_of s) D pt) ->
  forall n, n ∈ D -> is_Some (binding (varmap s) (func_name f) n).
Proof.
  intros <- [m Hm] Hat n Hn. destruct (Hat m Hm) as (env & φ & k & He & HD & _). assert (n ∈ dom env) as [v Hv]%elem_of_dom by by apply HD.
  destruct (He n v Hv) as (bv & Hb & _). by exists bv.
Qed.

Section block.
Context (md : Module_) (f : Function_) (b : BasicBlock) (frames : list StackFrame) (fuel W : nat).
Context (Hf : (f, md) ∈ program).
Let D := bound_at bound_in f b (length (bb_instrs b)).
Abbreviation at_end := (at_end md f b frames W).
Abbreviation explores := (explores (short (S fuel) (3 * W)) W).
(** The function returned, or an execution of the explored function did. *)
Definition good (v : ReturnValue BV) s : Prop := returned f frames v s /\ (ranked -> (caller_weight s < W)%nat) \/ finished v s.
Definition leads vm (dest : Name) m : Prop :=
  forall env, env_ok m vm (func_name f) env -> defined D env -> next_block env (bb_term b) = Some dest.
Definition leads_to (dest : Name) : Prop := leads_ok widths bound_in f D b dest = true /\ dest ∈ successors (bb_term b).

Lemma end_in_f j s : at_end j s -> in_f widths max_version f D s.
Proof.
  intros Hs. split; [split; [apply Hs|]|].
  - destruct (base_ctx _ (end_base _ _ _ _ _ _ _ Hs)) as (_ & Hv & _). exact Hv.
  - eapply conf_bound; [apply Hs..|]. intros m. apply (end_models _ _ _ _ _ _ _ Hs).
Qed.
Lemma at_end_fewer j j' s : (j' <= j)%nat -> at_end j s -> at_end j' s.
Proof.
  intros Hj [? ? ? ? ? ? ? ? Hr]. split; try done. intros Hrk. destruct (Hr Hrk) as (q & Hq & Hqs). exists q. split; [nia|done].
Qed.
Lemma points_lighter j s : at_end j s -> ranked -> (points_weight s < W)%nat.
Proof. intros Hs Hrk. destruct (end_room _ _ _ _ _ _ _ Hs Hrk) as (q & Hq & _). lia. Qed.

Lemma at_end_solver j s sol :
  at_end j s -> solver_ok sol -> model_gen sol = false -> satisfiable sol ->
  points_ok (path s) (backtrack_points s) (assertions sol) ->
  (forall m, models sol m -> models (solver s) m) -> at_end j (set_solver sol s).
Proof.
  intros [[[] ? ?] ? ? ? ? ? ? Hm Hr] O G Hsat Hp Hs. split; [split; [by split|done|done]|done..| |].
  - intros m Hsol. by apply Hm, Hs.
  - exact Hr.
Qed.
Lemma at_end_same j s sol : at_end j s -> same_solver (solver s) sol -> at_end j (set_solver sol s).
Proof.
  intros Hs [Ea Eg]. destruct (base_saved _ (end_base _ _ _ _ _ _ _ Hs)), (end_satisfiable _ _ _ _ _ _ _ Hs) as [m Hm].
  apply at_end_solver; try done; unfold solver_ok, models, satisfiable in *; rewrite ?Ea, ?Eg; try done. exists m. unfold models. by rewrite Ea.
Qed.
Lemma pending_same s sol m : same_solver (solver s) sol -> pending (set_solver sol s) m <-> pending s m.
Proof. intros [Ea _]. unfold pending. cbn. by rewrite Ea. Qed.
Lemma covered_same s sol m : same_solver (solver s) sol -> covered (set_solver sol s) m <-> covered s m.
Proof. intros [Ea _]. unfold covered, pending, models. cbn. by rewrite Ea. Qed.

(** Going to a block that the terminator leads to. *)
Lemma block_arrives j s p e dest b' :
  at_end j s -> path s = p ++ [e] -> bb e = b -> leads_ok widths bound_in f D b dest = true -> get_bb_by_name f dest = Some b' ->
  forall P : Model -> Prop, (forall m, P m -> models (solver s) m /\ leads (varmap s) dest m) -> arrives P (path s) (ctx_of s) b'.
Proof.
  intros Hs Hp He Hl Hb' P HP. unfold leads_ok in Hl. rewrite Hb' in Hl. exists (Some (bb_name b)), D. split; [|split].
  - right. rewrite Hp. unfold prev_of. by rewrite last_snoc, <- He.
  - cbn. by rewrite (end_func _ _ _ _ _ _ _ Hs).
  - intros m [Hm Hlead]%HP. destruct (end_models _ _ _ _ _ _ _ Hs m Hm) as (env & φ & k & Henv & HD & Hk & Hfs & Hr).
    exists env, φ, k. split; [done|]. split; [done|]. split; [done|]. split; [done|]. eapply reach_step; [done|].
    cbn in Henv. rewrite (end_func _ _ _ _ _ _ _ Hs) in Henv. cbn. rewrite (end_func _ _ _ _ _ _ _ Hs). eapply step_jump; [done| |done].
    by apply Hlead.
Qed.

Lemma explores_goto j E dest s (cov : Model -> Prop) :
  engine_ok fuel E -> at_end (S j) s -> leads_to dest -> (forall m, models (solver s) m -> leads (varmap s) dest m) ->
  (forall m, cov m -> covered s m) ->
  explores good cov (_ ← goto_bb dest; symex_from_cur_loc_through_end_of_function E) s.
Proof.
  intros HE Hs Hl Hlead Hcov. pose proof (end_path _ _ _ _ _ _ _ Hs) as (p & e & Hpath & Hbe). unfold explores, goto_bb, move_to_start_of_bb_by_name.
  apply runs_bind, runs_bind. unfold runs at 1, get. rewrite (end_func _ _ _ _ _ _ _ Hs).
  destruct (get_bb_by_name f dest) as [b'|] eqn:Eb; [|by destruct Hl as [Hl _]; unfold leads_ok in Hl; rewrite Eb in Hl].
  apply (runs_ok (move_to_start_of_bb (cur_loc s) b')).
  unfold runs at 1, modify. set (s' := set_cur_loc (move_to_start_of_bb (cur_loc s) b') s).
  pose proof (end_base _ _ _ _ _ _ _ Hs) as [Hsv Hctx Hb].
  assert (alive s') as Ha.
  { split; [split|split; [by apply Hs|left; split; [done|]]].
    - by apply saved_loc.
    - exact Hctx.
    - unfold s'. cbn. rewrite (end_func _ _ _ _ _ _ _ Hs). by eapply (fits_blocks _ _ _ _ _ fits).
    - apply (block_arrives (S j) s p e dest b' Hs Hpath Hbe (proj1 Hl) Eb). intros m Hm. split; [exact Hm|by apply Hlead]. }
  assert (ranked -> (state_weight s' < W)%nat) as Hless.
  { intros Hrk. destruct (end_room _ _ _ _ _ _ _ Hs Hrk) as (q & Hq & _ & Hqs). specialize (Hqs dest b' (proj2 Hl) Eb).
    unfold state_weight, s', position. cbn. rewrite (end_func _ _ _ _ _ _ _ Hs), (end_stack _ _ _ _ _ _ _ Hs). unfold points_weight in *. cbn. nia. }
  eapply (explores_mono (short fuel (3 * state_weight s')) _ (state_weight s')); [| | |exact Hcov|apply (ok_through _ _ HE s' Ha)].
  - intros Hsh Hrk. specialize (Hsh Hrk). specialize (Hless Hrk). lia.
  - intros Hrk. specialize (Hless Hrk). lia.
  - intros v s2. unfold good, s'. cbn. rewrite (end_func _ _ _ _ _ _ _ Hs), (end_stack _ _ _ _ _ _ _ Hs). intros [[Hr Hw]|?]; [left|by right].
    split; [done|]. intros Hrk. specialize (Hless Hrk). specialize (Hw Hrk). unfold s' in Hless. lia.
Qed.

Lemma explores_assert_goto j E c dest s (cov : Model -> Prop) :
  engine_ok fuel E -> at_end (S j) s -> get_width c = 1 -> leads_to dest -> feasible (solver s) (fun m => eval m c = 1) ->
  (forall m, models (solver s) m -> eval m c = 1 -> leads (varmap s) dest m) ->
  (forall m, cov m -> models (solver s) m /\ eval m c = 1 \/ pending s m \/ exceeds m) ->
  explores good cov (_ ← assert_bv c; _ ← goto_bb dest; symex_from_cur_loc_through_end_of_function E) s.
Proof.
  intros HE Hs Wc Hl (m0 & Hm0 & Hc0) Hlead Hcov. unfold explores. apply runs_bind. unfold runs at 1, assert_bv, on_solver, zoom, bv_assert.
  destruct (base_saved _ (end_base _ _ _ _ _ _ _ Hs)) as [_ _ O G Hp _ _]. destruct (assert_top c _ Wc O) as (l & ls & E1 & E2 & E3).
  pose proof (fun m => models_assert (solver s) c m Wc O) as Hm.
  apply (explores_goto j); [done| |done| |].
  - apply at_end_solver; [done|unfold solver_ok; by rewrite E2|congruence|exists m0; by apply Hm| |by intros m []%Hm].
    rewrite E2. rewrite E1 in Hp. by eapply points_ok_top.
  - intros m Hsol. cbn in Hsol. apply Hm in Hsol as [Hc Hsol]. by apply Hlead.
  - intros m Hm'. destruct (Hcov m Hm') as [[Hsol Hc]|[Hpend|?]]; [left; by apply Hm| |by right; right]. right; left.
    unfold pending in *. cbn. rewrite E2. rewrite E1 in Hpend. by eapply in_points_top.
Qed.

(** Saving a point for the models of a constraint. *)
Lemma runs_save {B} j dest c (k : unit -> M State B) s Q :
  at_end (S j) s -> get_width c = 1 -> leads_to dest -> feasible (solver s) (fun m => eval m c = 1) ->
  (forall m, models (solver s) m -> eval m c = 1 -> leads (varmap s) dest m) ->
  (forall s1, at_end j s1 -> varmap s1 = varmap s -> (forall m, models (solver s1) m <-> models (solver s) m) ->
     (forall m, pending s1 m <-> models (solver s) m /\ eval m c = 1 \/ pending s m) -> runs (k tt) s1 Q) ->
  runs (save_backtracking_point dest c ≫= k) s Q.
Proof.
  intros Hs Wc Hl (m0 & Hm0 & Hc0) Hlead Hk. pose proof (end_path _ _ _ _ _ _ _ Hs) as (p & e & Hpath & Hbe).
  pose proof (end_base _ _ _ _ _ _ _ Hs) as [[Hcfg Hga O G Hp Hmem Hwatch] Hctx Hb]. apply runs_bind. unfold save_backtracking_point.
  apply runs_bind. unfold runs at 1, get. destruct (get_bb_by_name (func (cur_loc s)) dest) as [b'|] eqn:Eb; rewrite (end_func _ _ _ _ _ _ _ Hs) in Eb;
    [|by destruct Hl as [Hl _]; unfold leads_ok in Hl; rewrite Eb in Hl]. apply (runs_ok b'). unfold runs. rewrite save_eq. pose proof (push_assertions (solver s)) as Ep.
  assert (model_gen (btor_push 1 (solver s)) = false) as Gp by (rewrite <- G; by apply btor_push_law).
  assert (forall m, models (btor_push 1 (solver s)) m <-> models (solver s) m) as Hpush by (intros m; unfold models; by rewrite Ep).
  apply Hk; [|done|done|intros m; unfold pending; cbn; by rewrite Ep].
  assert (forall m, models (btor_push 1 (solver s)) m -> models (solver s) m) as Hpush' by (intros m; apply Hpush).
  split; try apply Hs; [split; [split|done|done]|by exists m0; apply Hpush|intros m Hsol; apply (end_models _ _ _ _ _ _ _ Hs); by apply Hpush|]; try done.
  - unfold solver_ok. cbn. by rewrite Ep.
  - cbn. rewrite Ep. split; [|by rewrite firstn_all]. split; try done.
    + split; [done|]. cbn. rewrite (end_func _ _ _ _ _ _ _ Hs). by eapply (fits_blocks _ _ _ _ _ fits).
    + by exists m0.
    + cbn. rewrite firstn_all. apply (block_arrives (S j) s p e dest b' Hs Hpath Hbe (proj1 Hl) Eb). intros m [Hh Hc]. split; [exact Hh|by apply Hlead].
  - intros Hrk. destruct (end_room _ _ _ _ _ _ _ Hs Hrk) as (q & Hq & Hc & Hqs). exists q. split; [|done]. specialize (Hqs dest b' (proj2 Hl) Eb).
    rewrite <- (end_stack _ _ _ _ _ _ _ Hs), <- (end_func _ _ _ _ _ _ _ Hs) in Hqs. unfold points_weight in *. cbn. unfold point_weight at 1. cbn. nia.
Qed.

Lemma runs_query {B} c (k : bool -> M State B) s Q :
  get_width c = 1 -> solver_ok (solver s) ->
  (forall (t : bool) sol, same_solver (solver s) sol -> (t = true <-> feasible (solver s) (fun m => eval m c = 1)) ->
     runs (k t) (set_solver sol s) Q) ->
  runs (sat_with_extra_constraints [c] ≫= k) s Q.
Proof.
  intros Wc O Hk. apply runs_bind. unfold runs. destruct (sat_with_extra_constraints [c] s) as [r s'] eqn:Er.
  apply sat_extra_run in Er; [|by apply Forall_singleton|done].
  destruct Er as [(e & _ & _ & sol & Hsol)|(t & sol & -> & -> & Hs & Ht)]; [by destruct (decides sol)|].
  apply Hk; [done|]. by rewrite <- feasible_single.
Qed.

Lemma feasible_not (sol : SolverRef) (P : Model -> Prop) m : ~ feasible sol P -> models sol m -> ~ P m.
Proof. intros Hn Hm HP. apply Hn. by exists m. Qed.
Lemma feasible_same sol sol' (P P' : Model -> Prop) :
  same_solver sol sol' -> (forall m, P m <-> P' m) -> feasible sol' P <-> feasible sol P'.
Proof. intros [Ea _] HP. unfold feasible, models. rewrite Ea. by setoid_rewrite HP. Qed.

Lemma end_solver j s : at_end j s -> solver_ok (solver s).
Proof. intros Hs. apply (base_saved _ (end_base _ _ _ _ _ _ _ Hs)). Qed.

Lemma explores_condbr j E br s :
  engine_ok fuel E -> at_end (S (S j)) s -> bb_term b = TCondBr br -> term_ok widths bound_in f D b = true ->
  explores good (covered s) (symex_condbr E br) s.
Proof.
  intros HE Hs Hterm Hok. unfold term_ok in Hok. rewrite Hterm, !andb_true_iff, bool_decide_eq_true in Hok.
  destruct Hok as [[Hw Hlt] Hlf]. assert (leads_to (condbr_true_dest br) /\ leads_to (condbr_false_dest br)) as [Hlt' Hlf'].
  { unfold leads_to. rewrite Hterm. cbn. split; (split; [done|]); [left|right; left]. }
  unfold explores, symex_condbr.
  apply (runs_operand widths max_version f D _ 1); [done|by eapply end_in_f|]. intros c [Wc Dc].
  pose proof (not_width c) as Wn. rewrite Wc in Wn.
  assert (forall m, eval m (bv_not c) = 1 <-> eval m c = 0) as Hnot by (intros m; by apply not_bit).
  assert (forall m, eval m c = 1 \/ eval m c = 0) as Hbit.
  { intros m. pose proof (eval_range m c) as R. rewrite Wc in R. lia. }
  assert (forall m, eval m c = 1 -> leads (varmap s) (condbr_true_dest br) m) as Ht.
  { intros m Hc env He HD. rewrite Hterm. cbn. rewrite (Dc _ _ He HD). cbn. by rewrite Hc. }
  assert (forall m, eval m c = 0 -> leads (varmap s) (condbr_false_dest br) m) as Hfa.
  { intros m Hc env He HD. rewrite Hterm. cbn. rewrite (Dc _ _ He HD). cbn. by rewrite Hc. }
  pose proof (end_solver _ s Hs) as O. apply runs_query; [done|done|]. intros t sol1 Hs1 HT.
  apply runs_query; [done|unfold solver_ok; cbn; by destruct Hs1 as [-> _]|]. intros t' sol2 Hs2 HF.
  change (set_solver sol2 (set_solver sol1 s)) with (set_solver sol2 s). cbn [solver set_solver] in Hs2, HF.
  assert (same_solver (solver s) sol2) as Hss by (destruct Hs1, Hs2; split; congruence).
  rewrite (feasible_same _ _ _ (fun m => eval m c = 0) Hs1 Hnot) in HF.
  pose proof (at_end_same _ _ _ Hs Hss) as Hs'. pose proof (fun m => covered_same s sol2 m Hss) as Hcov.
  eapply explores_weaken; [intros m; apply Hcov|]. clear Hcov.
  rewrite <- (feasible_same _ _ _ _ Hss (fun m => reflexivity (eval m c = 1))) in HT.
  rewrite <- (feasible_same _ _ _ _ Hss Hnot) in HF. set (s' := set_solver sol2 s) in *. change sol2 with (solver s') in HT, HF.
  assert (forall m, models (solver s') m -> t = false -> eval m c = 0) as Hnt.
  { intros m Hm ->. destruct (Hbit m) as [H1|]; [|done]. cut (false = true); [done|]. apply HT. by exists m. }
  assert (forall m, models (solver s') m -> t' = false -> eval m c = 1) as Hnf.
  { intros m Hm ->. destruct (Hbit m) as [|H0']; [done|]. cut (false = true); [done|]. apply HF. exists m. by rewrite Hnot. }
  destruct t, t'; cbn [andb].
  - unfold explores. apply (runs_save (S j)); [done..|by apply HF|intros m _ Hc; by apply Hfa, Hnot|]. intros s1 Hs1' Ev Hm1 Hp1.
    apply (explores_assert_goto j); [done..| |intros m _ Hc; rewrite Ev; by apply Ht|].
    + destruct (proj1 HT eq_refl) as (m & Hm & Hc). exists m. by rewrite Hm1.
    + intros m [Hm|[Hp|He]]; [|right; left; apply Hp1; by right|by right; right].
      destruct (Hbit m) as [Hc|Hc]; [left; by rewrite Hm1|right; left; apply Hp1; left; by rewrite Hnot].
  - apply (explores_assert_goto (S j)); [done..|by apply HT|intros m _ Hc; by apply Ht|]. intros m [Hm|?]; [left|by right]. split; [done|by apply Hnf].
  - apply (explores_assert_goto (S j)); [done..|by apply HF|intros m _ Hc; by apply Hfa, Hnot|].
    intros m [Hm|?]; [left|by right]. split; [done|]. by apply Hnot, Hnt.
  - exfalso. destruct (end_satisfiable _ _ _ _ _ _ _ Hs') as [m Hm]. pose proof (Hnt m Hm eq_refl). pose proof (Hnf m Hm eq_refl). lia.
Qed.

(** *** Switches *)

(** The constants of the destinations as terms. *)
Definition dest_terms (w : Z) : list (Constant * Name) -> list (BV * Name) -> Prop :=
  Forall2 (fun d t => d.2 = t.2 /\ get_width t.1 = w /\ forall m, const_val d.1 = Some (eval m t.1)).

Lemma runs_dests {B} w dests (k : list (BV * Name) -> M State B) s Q :
  Forall (fun d => const_of_width widths f w d.1 = true) dests -> in_f widths max_version f ∅ s ->
  (forall terms, dest_terms w dests terms -> runs (k terms) s Q) ->
  runs (mapMM (fun '(c, n) => c ← const_to_bv c; mret (c, n)) dests ≫= k) s Q.
Proof.
  intros Hd Hs Hk. apply runs_bind.
  eapply runs_mono with (Q := fun r s' => s' = s /\ exists terms, r = Ok terms /\ dest_terms w dests terms);
    [|by intros r s' (-> & terms & -> & Ht); apply Hk].
  clear Hk. induction dests as [|[c n] dests IH]; cbn [mapMM]; [by split; [|by exists []; split; [|constructor]]|].
  apply Forall_cons in Hd as [[Hint%bool_decide_eq_true Hc%bool_decide_eq_true]%andb_prop Hd].
  apply runs_bind, runs_bind. eapply runs_mono; [apply (operand_denotes widths max_version f ∅ (ConstantOperand c) w _ Hc Hs)|].
  intros r s' (-> & bv & -> & Hbv). apply (runs_ok (bv, n)), runs_bind.
  eapply runs_mono; [by apply IH|]. intros r s' (-> & terms & -> & Ht). split; [done|].
  exists ((bv, n) :: terms). split; [done|]. constructor; [|done]. split; [done|]. split; [apply Hbv|]. intros m. cbn [fst].
  assert (val_of ∅ (ConstantOperand c) = Some (eval m bv)) as <- by (apply (proj2 Hbv); [intros ? ?; by rewrite lookup_empty|done]).
  by destruct c, Hint.
Qed.

Lemma const_is_iff x c : const_is x c = true <-> const_val c = Some x.
Proof. destruct c; cbn; try done. rewrite Z.eqb_eq. naive_solver. Qed.

Lemma find_dest x (ds : list (Constant * Name)) c n :
  NoDup ((fun '(c, _) => const_val c) <$> ds) -> (c, n) ∈ ds -> const_val c = Some x ->
  List.find (fun '(c, _) => const_is x c) ds = Some (c, n).
Proof.
  intros Hnd Hin Hc. induction ds as [|[c' n'] ds IH]; [by apply elem_of_nil in Hin|]. cbn.
  cbn in Hnd. apply NoDup_cons in Hnd as [Hni Hnd]. destruct (const_is x c') eqn:E.
  - apply elem_of_cons in Hin as [[= -> ->]|Hin]; [done|]. destruct Hni. apply list_elem_of_fmap. exists (c, n).
    split; [|done]. apply const_is_iff in E. congruence.
  - apply elem_of_cons in Hin as [[= -> ->]|Hin]; [|by apply IH]. apply const_is_iff in Hc. congruence.
Qed.
Lemma find_no_dest x (ds : list (Constant * Name)) :
  (forall c n, (c, n) ∈ ds -> const_val c <> Some x) -> List.find (fun '(c, _) => const_is x c) ds = None.
Proof.
  induction ds as [|[c n] ds IH]; intros Hn; [done|]. cbn. destruct (const_is x c) eqn:E.
  - apply const_is_iff in E. destruct (Hn c n); [left|done].
  - apply IH. intros c' n' Hin. apply (Hn c' n'). by right.
Qed.

Lemma switch_leads sw w vm sv terms :
  bb_term b = TSwitch sw -> NoDup ((fun '(c, _) => const_val c) <$> switch_dests sw) ->
  denotes D (func_name f) vm (switch_operand sw) w sv -> dest_terms w (switch_dests sw) terms ->
  (forall v n m, (v, n) ∈ terms -> equals v sv m -> leads vm n m) /\
  (forall m, Forall (fun d => ~ equals d.1 sv m) terms -> leads vm (switch_default_dest sw) m).
Proof.
  intros Hterm Hnd [_ Dsv] Hts. split.
  - intros v n m [i Hi]%list_elem_of_lookup Heq env He HD. destruct (Forall2_lookup_r _ _ _ _ _ Hts Hi) as ([c n'] & Hi' & Hn & _ & Hd).
    cbn in Hn, Hd. subst n'. rewrite Hterm. cbn. rewrite (Dsv _ _ He HD). cbn.
    rewrite (find_dest _ _ c n Hnd); [done|by eapply list_elem_of_lookup_2|]. by rewrite <- Heq.
  - intros m Hne env He HD. rewrite Hterm. cbn. rewrite (Dsv _ _ He HD). cbn. rewrite find_no_dest; [done|].
    intros c n [i Hi]%list_elem_of_lookup Hc. destruct (Forall2_lookup_l _ _ _ _ _ Hts Hi) as ([v n'] & Hi' & _ & Hd).
    rewrite Forall_forall in Hne. apply (Hne (v, n')); [by eapply list_elem_of_lookup_2|].
    destruct Hd as [_ Hd]. cbn in Hd. rewrite (Hd m) in Hc. by injection Hc.
Qed.

(** A destination that can be saved: what it is compared with, and where it goes. *)
Definition dest_saves sv s (d : BV * Name) : Prop :=
  get_width d.1 = get_width sv /\ leads_to d.2 /\ feasible (solver s) (equals d.1 sv) /\
  forall m, equals d.1 sv m -> leads (varmap s) d.2 m.

(** A point for each of the other destinations. *)
Lemma runs_saves j sv rest s (Q : outcome unit -> State -> Prop) :
  at_end (length rest + j) s -> Forall (dest_saves sv s) rest ->
  (forall s1, at_end j s1 -> varmap s1 = varmap s -> (forall m, models (solver s1) m <-> models (solver s) m) ->
     (forall m, pending s1 m <-> (models (solver s) m /\ Exists (fun d => equals d.1 sv m) rest) \/ pending s m) -> Q (Ok tt) s1) ->
  runs (forM rest (fun '(val, name) => save_backtracking_point name (bv_eq val sv))) s Q.
Proof.
  revert s. induction rest as [|[v n] rest IH]; intros s Hs Hd HQ; cbn [forM].
  { apply (HQ s); try done. intros m. rewrite Exists_nil. tauto. }
  apply Forall_cons in Hd as [(Wv & Hok & (m0 & Hm0 & Hv0) & Hl) Hd]. cbn in Wv, Hok, Hv0, Hl.
  apply (runs_save (length rest + j)); [done|by apply (pred_width bv_eq _ _ _ bv_eq_law)|done|exists m0; split; [done|by apply eq_bit]|intros m _ Hc; by apply Hl, eq_bit|].
  intros s1 Hs1 Ev Hm1 Hp1. apply IH; [done| |].
  { eapply Forall_impl; [exact Hd|]. intros d (? & ? & (m' & Hm' & ?) & ?). unfold dest_saves. rewrite Ev. split_and!; try done.
    exists m'. by rewrite Hm1. }
  intros s2 Hs2 Ev2 Hm2 Hp2. apply HQ; [done|congruence| |].
  - intros m. by rewrite Hm2.
  - intros m. rewrite Hp2, Hm1, Hp1, Exists_cons, eq_bit by done. unfold equals. cbn. tauto.
Qed.

(** Which destinations are possible. *)
Lemma runs_checks {B} sv terms (k : list (BV * Name * bool) -> M State B) s Q :
  same_widths sv terms -> solver_ok (solver s) ->
  (forall checked sol, same_solver (solver s) sol ->
     (forall v n, (v, n) ∈ fst <$> filter (fun '(_, _, b) => b = true) checked <-> (v, n) ∈ terms /\ feasible (solver s) (equals v sv)) ->
     (length (fst <$> filter (fun '(_, _, b) => b = true) checked) <= length terms)%nat ->
     runs (k checked) (set_solver sol s) Q) ->
  runs (mapMM (fun '(c, n) => b ← bvs_can_be_equal c sv; mret (c, n, b)) terms ≫= k) s Q.
Proof.
  intros Hw O Hk. apply runs_bind. unfold runs. destruct (mapMM _ terms s) as [r s'] eqn:Er.
  rewrite <- (set_solver_id s) in Er. apply query_dests in Er; [|done..].
  destruct Er as [(e & _ & _ & sol & Hsol)|(checked & sol & -> & -> & Hs & <- & Hc)]; [by destruct (decides sol)|].
  apply Hk; [done| |].
  - intros v n. exact (feasible_dests_spec (fun v => feasible (solver s) (equals v sv)) checked v n Hc).
  - rewrite !length_fmap. apply length_filter.
Qed.

(** After the destinations were checked: [fd] are those that are possible. *)
Record checked_switch (sw : Switch) (sv : BV) (terms fd : list (BV * Name)) s : Prop := {
  checked_widths : same_widths sv terms;
  checked_leads v n m : (v, n) ∈ terms -> equals v sv m -> leads (varmap s) n m;
  checked_default m : Forall (fun d => ~ equals d.1 sv m) terms -> leads (varmap s) (switch_default_dest sw) m;
  checked_ok v n : (v, n) ∈ terms -> leads_to n;
  checked_default_ok : leads_to (switch_default_dest sw);
  checked_feasible v n : (v, n) ∈ fd <-> (v, n) ∈ terms /\ feasible (solver s) (equals v sv)
}.

Lemma checked_saves sw sv terms fd s v n : checked_switch sw sv terms fd s -> (v, n) ∈ fd -> dest_saves sv s (v, n).
Proof.
  intros [Hw Hl _ Hok _ Hfs] [Hin Hfe]%Hfs. unfold same_widths in Hw. rewrite Forall_forall in Hw.
  split; [exact (Hw _ Hin)|]. split; [by eapply Hok|]. split; [done|]. intros m. by apply Hl.
Qed.
(** Every model is one of a possible destination or of the default one. *)
Lemma checked_cases sw sv terms v n rest s m :
  checked_switch sw sv terms ((v, n) :: rest) s -> models (solver s) m ->
  eval m (bv_eq v sv) = 1 \/ Exists (fun d => equals d.1 sv m) rest \/ eval m (default_dest_constraint sv terms) = 1.
Proof.
  intros Hc Hm. pose proof (checked_widths _ _ _ _ _ Hc) as Hw. destruct (default_constraint_ok sv terms Hw) as [_ Hdef].
  destruct (checked_saves _ _ _ _ _ v n Hc ltac:(left)) as [Wv _]. rewrite eq_bit, Hdef by done. rewrite List.Forall_Exists_neg.
  destruct (decide (Exists (fun d => eval m d.1 = eval m sv) terms)) as [He|Hn]; [|by auto].
  apply Exists_exists in He as ([v' n'] & Hi & Heq).
  assert ((v', n') ∈ (v, n) :: rest) as Hfd by (apply (checked_feasible _ _ _ _ _ Hc); split; [done|by exists m]).
  apply elem_of_cons in Hfd as [[= -> ->]|Hr]; [by left|]. right; left. apply Exists_exists. by exists (v', n').
Qed.

Lemma explores_checked j E sw sv terms v d rest s :
  engine_ok fuel E -> at_end (length rest + S (S j)) s -> checked_switch sw sv terms ((v, d) :: rest) s ->
  explores good (covered s)
    (_ ← forM rest (fun '(val, name) => save_backtracking_point name (bv_eq val sv));
     default_feasible ← sat_with_extra_constraints [default_dest_constraint sv terms];
     _ ← (if (default_feasible : bool) then save_backtracking_point (switch_default_dest sw) (default_dest_constraint sv terms) else mret tt);
     _ ← assert_bv (bv_eq v sv);
     _ ← goto_bb d;
     symex_from_cur_loc_through_end_of_function E) s.
Proof.
  intros HE Hs Hc. destruct (checked_saves _ _ _ _ _ v d Hc ltac:(left)) as (Wv & Hok & (m0 & Hm0 & Hv0) & Hl). cbn in Wv, Hok, Hv0, Hl.
  destruct (default_constraint_ok sv terms (checked_widths _ _ _ _ _ Hc)) as [Wdef Hdef].
  assert (get_width (bv_eq v sv) = 1) as Weq by by apply (pred_width bv_eq _ _ _ bv_eq_law).
  unfold explores. apply runs_bind, (runs_saves (S (S j)) sv); [done| |].
  { apply Forall_forall. intros [v' n'] Hi. eapply checked_saves; [done|by right]. }
  intros s1 Hs1 Ev1 Hm1 Hp1. apply runs_query; [done|by eapply end_solver|]. intros t sol1 Hsol1 HT.
  pose proof (at_end_same _ _ _ Hs1 Hsol1) as Hs1'. set (s1' := set_solver sol1 s1) in *.
  assert (forall m, models (solver s1') m <-> models (solver s) m) as Hm1'.
  { intros m. rewrite <- Hm1. unfold s1', models. cbn. by destruct Hsol1 as [-> _]. }
  assert (forall m, pending s1' m <-> (models (solver s) m /\ Exists (fun d => equals d.1 sv m) rest) \/ pending s m) as Hp1'.
  { intros m. rewrite <- Hp1. by apply pending_same. }
  assert (feasible (solver s1') (fun m => eval m (bv_eq v sv) = 1)) as Hfe by (exists m0; split; [by apply Hm1'|by apply eq_bit]).
  assert (forall m, models (solver s) m -> eval m (bv_eq v sv) = 1 \/ pending s1' m \/ eval m (default_dest_constraint sv terms) = 1) as Hcases.
  { intros m Hm. rewrite Hp1'. destruct (checked_cases _ _ _ _ _ _ _ m Hc Hm) as [?|[?|?]]; tauto. }
  destruct t.
  - assert (feasible (solver s1') (fun m => eval m (default_dest_constraint sv terms) = 1)) as Hfd.
    { destruct (proj1 HT eq_refl) as (m & Hm & Hd). exists m. split; [by apply Hm1', Hm1|done]. }
    apply (runs_save (S j)); [done|done|apply (checked_default_ok _ _ _ _ _ Hc)|done| |].
    { intros m _ Hd. cbn. rewrite Ev1. by apply (checked_default _ _ _ _ _ Hc), Hdef. }
    intros s2 Hs2 Ev2 Hm2 Hp2. apply (explores_assert_goto j); [done..| | |].
    + destruct Hfe as (m & Hm & He). exists m. by rewrite Hm2.
    + intros m _ He. rewrite Ev2. cbn. rewrite Ev1. by apply Hl, eq_bit.
    + intros m [Hm|[Hp|?]]; [|right; left; apply Hp2; right; apply Hp1'; by right|by right; right].
      destruct (Hcases m Hm) as [?|[?|?]]; [left; split; [by apply Hm2, Hm1'|done]|right; left; apply Hp2; by right|].
      right; left. apply Hp2. left. split; [by apply Hm1'|done].
  - apply (runs_ok tt). apply (explores_assert_goto (S j)); [done..| |].
    + intros m _ He. cbn. rewrite Ev1. by apply Hl, eq_bit.
    + intros m [Hm|[Hp|?]]; [|right; left; apply Hp1'; by right|by right; right].
      destruct (Hcases m Hm) as [?|[?|Hd]]; [left; split; [by apply Hm1'|done]|by right; left|].
      exfalso. cut (false = true); [done|]. apply HT. exists m. split; [by apply Hm1|done].
Qed.

Lemma explores_switch E sw s :
  engine_ok fuel E -> at_end (S (length (switch_dests sw))) s -> bb_term b = TSwitch sw -> term_ok widths bound_in f D b = true ->
  explores good (covered s) (symex_switch E sw) s.
Proof.
  intros HE Hs Hterm Hok. unfold term_ok in Hok. rewrite Hterm in Hok.
  destruct (operand_width widths f D (switch_operand sw)) as [w|] eqn:Ew; [|done].
  rewrite !andb_true_iff, forallb_forall, bool_decide_eq_true in Hok. destruct Hok as [[Hdests Hnd] Hdef].
  assert (forall c n, (c, n) ∈ switch_dests sw -> const_of_width widths f w c = true /\ leads_to n) as Hd.
  { intros c n Hin. pose proof (Hdests _ (proj1 (list_elem_of_In _ _) Hin)) as [? ?]%andb_prop. split; [done|]. split; [done|].
    rewrite Hterm. right. apply list_elem_of_fmap. by exists (c, n). }
  assert (leads_to (switch_default_dest sw)) as Hdl by (split; [done|]; rewrite Hterm; left).
  unfold explores, symex_switch. apply (runs_operand widths max_version f D _ w); [done|by eapply end_in_f|]. intros sv Dsv.
  apply (runs_dests w); [|split; [by eapply end_in_f|set_solver]|].
  { apply Forall_forall. intros [c n] Hi. by apply (Hd c n). }
  intros terms Hts. destruct (switch_leads sw w (varmap s) sv terms Hterm Hnd Dsv Hts) as [Hl Hld].
  assert (forall v n, (v, n) ∈ terms -> get_width v = get_width sv /\ leads_to n) as Hterms.
  { intros v n [i Hi]%list_elem_of_lookup. destruct (Forall2_lookup_r _ _ _ _ _ Hts Hi) as ([c n'] & Hi' & Hn & [Wv _]). cbn in Hn, Wv. subst n'.
    destruct (Hd c n) as [_ ?]; [by eapply list_elem_of_lookup_2|]. split; [|done]. rewrite Wv. symmetry. apply Dsv. }
  assert (same_widths sv terms) as Hw by (apply Forall_forall; intros [v n] Hi; by apply (Hterms v n)).
  apply runs_checks; [done|by eapply end_solver|]. intros checked sol Hsol Hfd Hlen. rewrite <- (Forall2_length _ _ _ Hts) in Hlen. cbv zeta. set (fd := fst <$> filter _ checked) in *. clearbody fd.
  pose proof (at_end_same _ _ _ Hs Hsol) as Hs'. eapply (explores_weaken _ _ _ (covered (set_solver sol s))); [intros m; by apply covered_same|].
  assert (checked_switch sw sv terms fd (set_solver sol s)) as Hc.
  { split; try done; [intros; by eapply Hterms|]. intros v n. rewrite Hfd. by rewrite (feasible_same _ _ _ _ Hsol (fun m => reflexivity _)). }
  destruct fd as [|[v n] rest]; [|apply (explores_checked 0); [done| |done]; eapply at_end_fewer; [|done]; cbn [length] in Hlen; lia].
  apply (explores_goto (length (switch_dests sw))); [done..| |by intros m]. intros m Hm. apply (checked_default _ _ _ _ _ Hc), Forall_forall. intros [v n] Hi Heq.
  destruct (proj1 (elem_of_nil (v, n))). apply (checked_feasible _ _ _ _ _ Hc). split; [done|by exists m].
Qed.

Lemma explores_return j op s :
  at_end (S j) s -> bb_term b = TRet op -> term_ok widths bound_in f D b = true ->
  explores good (covered s) (Some <$> symex_return op) s.
Proof.
  intros Hs Hterm Hok. unfold term_ok in Hok. rewrite Hterm in Hok.
  pose proof (end_base _ _ _ _ _ _ _ Hs) as [Hsv (_ & Hv & _ & Hrs) _]. cbn in Hv, Hrs.
  assert (ranked -> (caller_weight s < W)%nat) as Hcw.
  { intros Hrk. destruct (end_room _ _ _ _ _ _ _ Hs Hrk) as (q & Hq & Hc & _). unfold caller_weight. nia. }
  assert (forall v, ret_ok (func_return_type f) v ->
    (forall m env, env_ok m (varmap s) (func_name f) env -> defined D env ->
       exists x, ret_val m v = Some x /\ returned_val env (bb_term b) = Some x) ->
    post (short (S fuel) (3 * W)) W good (covered s) (Ok (Some v)) s) as Hret.
  { intros v Hty Hval. right. split; [done|]. split; [by intros m|]. split; [by eapply points_lighter|]. split; [apply Hs|]. left. split; [|done].
    split; [apply Hs|]. split; [done|]. split; [by rewrite <- (end_stack _ _ _ _ _ _ _ Hs)|]. split; [done|].
    intros m Hm. destruct (end_models _ _ _ _ _ _ _ Hs m Hm) as (env & φ & k & Henv & HD & Hk & Hfs & Hr). cbn in Henv, Hfs.
    rewrite (end_func _ _ _ _ _ _ _ Hs) in Henv. rewrite (end_stack _ _ _ _ _ _ _ Hs) in Hfs.
    destruct (Hval m env Henv HD) as (x & Hx & Hx'). exists x, φ, k. split; [done|]. split; [done|]. split; [done|].
    eapply reach_step; [done|]. by apply step_ret. }
  unfold explores, symex_return, runs, fmap, M_fmap. destruct op as [op|].
  - apply andb_prop in Hok as [[w Hw]%bool_decide_eq_true Hty%bool_decide_eq_true]. rewrite Hw in Hty.
    pose proof (operand_denotes widths max_version f D op w s Hw (end_in_f _ s Hs)) as Ho.
    unfold runs in Ho. unfold mbind, M_bind, mret, M_ret. destruct (operand_to_bv op s) as [[bv|e|p|] s']; try done.
    2: { destruct Ho as (_ & bv & [=] & _). }
    2: { destruct Ho as (_ & bv & [=] & _). }
    destruct Ho as (-> & bv' & [= <-] & [Wv Hd]). apply Hret.
    + cbn. by rewrite Wv.
    + intros m env He HD. exists (Some (eval m bv)). rewrite Hterm. cbn. by rewrite (Hd _ _ He HD).
  - apply Hret; [cbn; by destruct (func_return_type f)|]. intros m env _ _. exists None. by rewrite Hterm.
Qed.

Lemma explores_terminator project E s :
  engine_ok fuel E -> at_end (S (length (successors (bb_term b)))) s -> term_ok widths bound_in f D b = true ->
  explores good (covered s) (symex_terminator project E (bb_term b)) s.
Proof.
  intros HE Hs Hok. destruct (bb_term b) as [op|dest|br|sw| | | |] eqn:Hterm; cbn [symex_terminator]; cbn [successors length] in Hs.
  - by eapply explores_return.
  - apply (explores_goto 1); [done|done| | |by intros m].
    + unfold term_ok in Hok. rewrite Hterm in Hok. split; [done|]. rewrite Hterm. left.
    + intros m _ env _ _. by rewrite Hterm.
  - by apply (explores_condbr 1).
  - rewrite length_fmap in Hs. apply explores_switch; try done. eapply at_end_fewer; [|done]. lia.
  - unfold term_ok in Hok. by rewrite Hterm in Hok.
  - unfold term_ok in Hok. by rewrite Hterm in Hok.
  - right. split; [apply (end_base _ _ _ _ _ _ _ Hs)|]. split; [by intros m|]. by eapply points_lighter.
  - unfold term_ok in Hok. by rewrite Hterm in Hok.
Qed.

End block.

End terminators.
