(* ===== verification/PathBlocks.v ===== *)
(** * PathBlocks: the instructions of a block, and calls

    The engine goes through a block as the program does: the phis, one after
    the other, bind what the program binds at once; an instruction that is not
    a call binds its name; a load reads and a store writes the memory that the
    program has in each model, unless the address may be null, which ends the
    path; and a call enters the callee, comes back to the caller with its
    result, or ends the whole path (when the engine backtracked within the
    callee).  Together with the terminators this shows that the engine, with
    any fuel, keeps its promises ([engine_explores]). *)
From S2P Require Import Prelude Bits Backend ToySolver SolverUtils MemorySpec Memory Alloc LLVMIR Project Layout VarMap Watchpoints FunctionHooks GlobalAllocations Config State Operands HookUtils Hooks SymexInstr Symex StateTheorems SymexTheorems LevelTheorems InstrTheorems DataTheorems Concrete PathVariables PathMeasure PathState PathTerminators.

Open Scope Z_scope.

(** User callbacks look at the state, and may end the path with an error of
    their own, but change nothing. *)
Definition own_error {A} (r : outcome A) : Prop :=
  match r with Ok _ => True | Err Unsat | Err (LoopBoundExceeded _) => False | Err _ => True | _ => False end.
Class ObservingCallbacks `{BackendOps} `{MOps : !MemoryOps} `{LLVM} `{UC : !UserCode} : Prop := {
  instruction_observes k i s : runs (instruction_callback k i) s (fun r s' => s' = s /\ own_error r);
  terminator_observes k t s : runs (terminator_callback k t) s (fun r s' => s' = s /\ own_error r)
}.

(** ** Lists *)

Lemma drop_enumerate {A} (xs : list A) i :
  drop i (enumerate xs) = match xs !! i with Some x => (Z.of_nat i, x) :: drop (S i) (enumerate xs) | None => [] end.
Proof.
  assert (enumerate xs !! i = (fun x => (Z.of_nat i, x)) <$> xs !! i) as E by (unfold enumerate; by rewrite list_lookup_imap).
  destruct (xs !! i) as [x|] eqn:Ex; cbn in E; [by apply drop_S|].
  apply drop_ge. by apply lookup_ge_None_1.
Qed.
Lemma head_phis_lookup (insts : list Instruction) i p : head_phis insts !! i = Some p -> insts !! i = Some (IPhi p).
Proof.
  revert i. induction insts as [|inst insts IH]; intros i; [done|]. destruct inst; cbn; try done. destruct i as [|i]; cbn; [by intros [= ->]|apply IH].
Qed.
Lemma head_phis_dests (insts : list Instruction) :
  omap inst_dest (take (length (head_phis insts)) insts) = phi_dest <$> head_phis insts.
Proof. induction insts as [|inst insts IH]; [done|]. destruct inst; cbn; try done. by rewrite IH. Qed.

Section evaluation.
Context `{L : LLVM}.
Implicit Types (env : Env) (k : Counts).

Lemma bind_all_snoc fn st bs b : bind_all fn st (bs ++ [b]) = bind fn (bind_all fn st bs) b.
Proof. unfold bind_all. by rewrite foldl_app. Qed.
Lemma bind_all_dom fn st bs : dom (bind_all fn st bs).1 = dom st.1 ∪ list_to_set bs.*1.
Proof.
  revert st. induction bs as [|[n v] bs IH]; intros st; cbn; [set_solver|]. unfold bind_all in *. cbn. rewrite IH. cbn. rewrite dom_insert_L. set_solver.
Qed.
Lemma bind_all_other fn st bs n : n ∉ bs.*1 -> (bind_all fn st bs).1 !! n = st.1 !! n.
Proof.
  revert st. induction bs as [|[n' v] bs IH]; intros st; cbn; [done|]. intros [Hne Hn]%not_elem_of_cons.
  unfold bind_all in *. cbn. rewrite IH by done. cbn. by rewrite lookup_insert_ne.
Qed.
Lemma bind_all_app fn st bs bs' : bind_all fn st (bs ++ bs') = bind_all fn (bind_all fn st bs) bs'.
Proof. unfold bind_all. by rewrite foldl_app. Qed.

(** The phis of a block can be evaluated. *)
Lemma operand_has_value widths f D op w env :
  operand_width widths f D op = Some w -> defined D env -> is_Some (val_of env op).
Proof.
  unfold operand_width. destruct (value_width _); [|done]. destruct op as [n ty|c|]; [| |done].
  - destruct (_ && bool_decide (n ∈ D)) eqn:E; [|done]. apply andb_prop in E as [_ HD%bool_decide_eq_true]. intros _ Hd. apply elem_of_dom, Hd, HD.
  - by destruct c.
Qed.
Lemma phi_val_some widths f D prev earlier p env : phi_ok widths f D prev earlier p = true -> defined D env ->
  exists v, phi_val env prev p = Some (phi_dest p, v).
Proof.
  unfold phi_ok, phi_val. destruct prev as [prev|]; [|done]. cbn. destruct (phi_operand prev p) as [op|]; [|done]. cbn.
  destruct (operand_width widths f D op) as [w|] eqn:Ew; [|done]. intros _ Hd.
  destruct (operand_has_value _ _ _ _ _ _ Ew Hd) as [v ->]. by exists v.
Qed.
Lemma phis_evaluated widths f D prev earlier ps env : phis_ok widths f D prev earlier ps = true -> defined D env ->
  exists vs, mapM (phi_val env prev) ps = Some vs /\ vs.*1 = phi_dest <$> ps.
Proof.
  revert earlier. induction ps as [|p ps IH]; intros earlier; cbn; [by exists []|]. intros [Hp Hps]%andb_prop Hd.
  destruct (phi_val_some _ _ _ _ _ _ _ Hp Hd) as [v ->]. destruct (IH _ Hps Hd) as (vs & -> & Hvs). cbn. exists ((phi_dest p, v) :: vs).
  split; [done|]. cbn. by rewrite Hvs.
Qed.

End evaluation.

Section calls.
Context `{Laws : BackendLaws} `{Dec : !Decides} `{MOps : !MemoryOps} `{MLaws : !MemoryLaws} `{L : LLVM} `{CF : ConstFuel} `{EF : !EnoughFuel} `{UC : !UserCode}.
Context {X : Setting} {Hfits : Fits X}.
Implicit Types (s : State) (vm : VarMap) (m : Model) (D : gset Name) (env : Env) (k : Counts).

(** ** Entering a callee *)

Definition args_denote D fn vm (args : list Operand) (bvs : list BV) : Prop :=
  forall m env, env_ok m vm fn env -> defined D env -> mapM (val_of env) args = Some (eval m <$> bvs).
Definition args_fit (ps : list Parameter_) (bvs : list BV) : Prop :=
  Forall2 (fun p bv => value_width (param_ty p) = Some (get_width bv)) ps bvs.

Lemma runs_args f D args ps s :
  args_ok widths f D args ps = true -> in_f widths max_version f D s ->
  runs (mapMM operand_to_bv args) s (fun r s' => s' = s /\ exists bvs, r = Ok bvs /\ args_fit ps bvs /\ args_denote D (func_name f) (varmap s) args bvs).
Proof.
  intros Ha Hs. revert ps Ha. induction args as [|arg args IH]; intros [|p ps] Ha; try done; cbn [mapMM].
  { split; [done|]. exists []. split; [done|]. split; [constructor|done]. }
  cbn in Ha. apply andb_prop in Ha as [Hp Ha]. unfold arg_ok in Hp. apply andb_prop in Hp as [[w Hw]%bool_decide_eq_true Hty%bool_decide_eq_true].
  apply runs_bind. eapply runs_mono; [by eapply operand_denotes|]. intros r s' (-> & bv & -> & [W Hd]).
  apply runs_bind. eapply runs_mono; [by eapply IH|]. intros r s' (-> & bvs & -> & Hfit & Hds). split; [done|].
  exists (bv :: bvs). split; [done|]. split.
  - constructor; [|done]. rewrite Hw in Hty. by rewrite W.
  - intros m env He HD. cbn. rewrite (Hd m env He HD). cbn. by rewrite (Hds m env He HD).
Qed.

Definition bindings m (ps : list Parameter_) (bvs : list BV) : list (Name * Z) := zip (param_name <$> ps) (eval m <$> bvs).

(** The parameters are bound to the arguments, or exceed the bound. *)
Definition binds_params g ps bvs s (r : outcome unit) vm' : Prop :=
  match r with
  | Ok _ => vars_ok widths max_version vm' /\ (budget vm' + length ps <= budget (varmap s))%nat /\
      (forall frames, Forall (restorable (varmap s)) frames -> Forall (restorable vm') frames) /\ forall m env k, env_ok m (varmap s) (func_name g) env -> counts_ok (varmap s) k ->
      let st := bind_all (func_name g) (env, k) (bindings m ps bvs) in env_ok m vm' (func_name g) st.1 /\ counts_ok vm' st.2
  | Err e => e = LoopBoundExceeded max_version /\ forall m env k, counts_ok (varmap s) k ->
      exists n, max_version + 1 < Z.of_nat (count (bind_all (func_name g) (env, k) (bindings m ps bvs)).2 (func_name g) n)
  | _ => False
  end.
Lemma runs_bind_params g md ps bvs s :
  (g, md) ∈ program -> args_fit ps bvs -> Forall (fun p => param_ok widths g p = true) ps -> in_func widths max_version g s ->
  runs (forM (zip bvs ps) (fun '(bvarg, param) => State.assign_bv_to_name (param_name param) bvarg)) s
    (fun r s' => exists vm', s' = set_varmap vm' s /\ binds_params g ps bvs s r vm').
Proof.
  intros Hg Hfit. revert s. induction Hfit as [|p bv ps bvs Hty Hfit IH]; intros s Hps Hs; cbn [zip zip_with forM].
  { exists (varmap s). split; [by destruct s|]. split; [apply Hs|]. split; [cbn; lia|]. split; [done|]. intros m env k He Hk. by split. }
  apply Forall_cons in Hps as [Hp Hps]. apply runs_bind.
  eapply runs_cases; [by apply (runs_assign_state widths max_version g)| | |by intros s1 (? & _ & [])].
  - intros [] s1 (vm1 & -> & Ha). cbn in Ha. unfold param_ok in Hp. rewrite Hty in Hp. apply andb_prop in Hp as [Hp%bool_decide_eq_true _].
    assert (vars_ok widths max_version vm1) as Hvm1 by (eapply assigned_vars; [done|done|apply Hs]).
    pose proof (assigned_budget _ _ _ _ _ _ _ Hg Hp (proj2 (proj2 (proj2 Hs))) Ha) as Hbud.
    eapply runs_mono; [apply IH; [done|split; [apply Hs|done]]|].
    intros r s2 (vm2 & -> & Hr). exists vm2. split; [done|]. unfold binds_params in *. cbn [varmap set_varmap] in Hr.
    destruct r as [[]|e|q|]; [|destruct Hr as [-> Hr]; split; [done|]|done..].
    + destruct Hr as (Hv & Hb & Hrs & Hr). split; [done|]. split; [cbn [length]; lia|].
      split; [intros frames Hfr; by eapply Hrs, assigned_restorable|]. intros m env k He Hk. apply Hr; [by eapply assigned_env|by eapply assigned_counts].
    + intros m env k Hk. apply Hr. by eapply assigned_counts.
  - intros e s1 (vm1 & -> & -> & Ho). exists vm1. split; [done|]. split; [done|]. intros m env k Hk.
    exists (param_name p). specialize (Ho k Hk). eapply Z.lt_le_trans; [exact Ho|]. apply Nat2Z.inj_le.
    apply (count_le_bind_all _ (bind (func_name g) (env, k) (param_name p, eval m bv))).
Qed.

(** ** A call in a block *)

Section caller.
Context (md : Module_) (f : Function_) (b : BasicBlock) (frames : list StackFrame) (fuel W : nat).
Context (Hf : (f, md) ∈ program) (Hb : b ∈ func_basic_blocks f).

(** In the block, which was entered with the path [p]; the visit is an entry of
    the path from its first instruction on. *)
Record ready (first : bool) (p : list PathEntry) s : Prop := {
  ready_base : base s;
  ready_satisfiable : satisfiable (solver s);
  ready_mod : module (cur_loc s) = md;
  ready_func : func (cur_loc s) = f;
  ready_block : bb (cur_loc s) = b;
  ready_stack : stack s = frames;
  ready_path : if first then path s = p else exists e, path s = p ++ [e] /\ bb e = b
}.
Lemma ready_in_func first p s : ready first p s -> in_func widths max_version f s.
Proof. intros Hs. split; [apply Hs|]. by destruct (base_ctx _ (ready_base _ _ _ Hs)) as (_ & Hv & _). Qed.
Lemma ready_assigned first p n bv w vm s :
  widths (func_name f) !! n = Some w -> w = get_width bv -> assigned max_version (varmap s) (func_name f) n bv vm ->
  ready first p s -> ready first p (set_varmap vm s).
Proof.
  intros Hn -> Ha [[? (? & ? & ? & ?) ?] ? ? ? ? ? ?]. split; try done. split; [by apply saved_varmap| |done].
  split; [done|]. split; [by eapply assigned_vars|]. split; [done|]. by eapply assigned_restorable.
Qed.

(** What is left of the weight of the visit at an instruction: until a name is
    bound, only what the rank of the block allows. *)
Definition light (i : nat) s : Prop := ranked -> exists pos, (pos = cap \/ pos = block_rank f b /\ idle (take i (bb_instrs b)) = true) /\
  (weight pos (varmap s) (length frames) + points_weight s <= W)%nat.
Lemma light_points i s : light i s -> ranked -> (points_weight s < W)%nat.
Proof. intros Hl Hr. destruct (Hl Hr) as (pos & _ & Hw). pose proof (weight_pos Hr f md b Hf Hb pos (varmap s) (length frames)). lia. Qed.
Lemma light_assigned i j n bv w vm s :
  widths (func_name f) !! n = Some w -> vars_ok widths max_version (varmap s) -> assigned max_version (varmap s) (func_name f) n bv vm ->
  light i s -> light j (set_varmap vm s).
Proof.
  intros Hn (_ & _ & Hvs) Ha Hl Hr. destruct (Hl Hr) as (pos & _ & Hw). exists cap. split; [by left|]. etrans; [|exact Hw].
  pose proof (assigned_budget _ _ _ _ _ _ _ Hf Hn Hvs Ha). apply Nat.add_le_mono_r. cbn. apply (weight_le Hr f md b Hf Hb). unfold exponent. nia.
Qed.
Lemma light_store i store s s' :
  bb_instrs b !! i = Some (IStore store) -> varmap s' = varmap s -> backtrack_points s' = backtrack_points s -> light i s -> light (S i) s'.
Proof.
  intros Hi Ev Eb Hl Hr. destruct (Hl Hr) as (pos & Hpos & Hw). exists pos. unfold points_weight in *. rewrite Ev, Eb. split; [|done].
  destruct Hpos as [?|[? Hi0]]; [by left|right]. split; [done|]. rewrite (take_S_r _ _ _ Hi). unfold idle in *. by rewrite forallb_app, Hi0.
Qed.
Lemma light_same i s s' : varmap s' = varmap s -> backtrack_points s' = backtrack_points s -> light i s -> light i s'.
Proof. intros Ev Eb Hl Hr. destruct (Hl Hr) as (pos & Hpos & Hw). exists pos. unfold points_weight in *. by rewrite Ev, Eb. Qed.
(** At the terminator there is enough for the blocks that come next. *)
Lemma light_room s : stack s = frames -> light (length (bb_instrs b)) s -> ranked -> room f b frames W (S (length (successors (bb_term b)))) s.
Proof.
  intros Es Hl Hr. destruct (Hl Hr) as (pos & Hpos & Hw). pose proof (rank_bounds Hr f md b Hf Hb) as Hrank. pose proof (arity_bound Hr f md b Hf Hb) as Hari.
  rewrite take_ge in Hpos by done. assert (1 <= pos)%nat as Hp by (destruct Hpos as [->|[-> _]]; lia).
  set (e := exponent pos (varmap s) (length frames)). assert (0 < e)%nat as He by (unfold e, exponent; lia).
  exists (arity ranking ^ (e - 1))%nat. split; [|split].
  - assert (weight pos (varmap s) (length frames) = arity ranking * arity ranking ^ (e - 1))%nat as Ew.
    { rewrite <- Nat.pow_succ_r'. unfold weight. f_equal. unfold e, exponent in *. lia. }
    pose proof (Nat.pow_nonzero (arity ranking) (e - 1)). nia.
  - unfold caller_share. rewrite Es. destruct frames as [|sf fr]; [lia|]. unfold weight. apply Nat.pow_le_mono_r; [lia|].
    unfold e, exponent in *. cbn [length] in *. lia.
  - intros dest b' Hd Hb'. assert (b' ∈ func_basic_blocks f) as Hin by by eapply (fits_blocks _ _ _ _ _ fits).
    pose proof (rank_bounds Hr f md b' Hf Hin) as Hrank'. unfold weight. apply Nat.pow_le_mono_r; [lia|].
    assert (block_rank f b' < pos)%nat as Hlt.
    { destruct Hpos as [->|[-> Hi]]; [lia|]. by eapply (idle_decreases Hr). }
    unfold e, exponent. lia.
Qed.

(** The program is at an instruction of the block. *)
Definition at_inst (i : nat) s : Prop := forall m, models (solver s) m -> at_conf m (ctx_of s) (bound_at bound_in f b i) (At b i).
Lemma inst_in_f i first p s : ready first p s -> at_inst i s -> in_f widths max_version f (bound_at bound_in f b i) s.
Proof. intros Hs Ha. split; [by eapply ready_in_func|]. eapply conf_bound; [by eapply ready_func|by eapply ready_satisfiable|exact Ha]. Qed.

(** How an instruction ends: execution goes on, or the path is at an end.
    [Unsat] says that there are no more paths. *)
Definition next_inst (i : nat) s' : Prop := (exists p, ready false p s') /\ at_inst (S i) s' /\ light (S i) s'.
Definition inst_post (next : State -> Prop) (cov : Model -> Prop) (r : outcome (option (ReturnValue BV))) s' : Prop :=
  r = OutOfFuel /\ short (S fuel) (3 * W) \/
  saved s' /\
  match r with
  | Ok None => next s' /\ forall m, cov m -> covered s' m
  | Ok (Some v) => (ranked -> (points_weight s' < W)%nat) /\ satisfiable (solver s') /\ finished v s' /\ forall m, cov m -> covered s' m
  | Err Unsat => backtrack_points s' = [] /\ forall m, cov m -> exceeds m
  | Err e => (ranked -> (points_weight s' < W)%nat) /\ (forall m, cov m -> covered s' m) /\
      match e with LoopBoundExceeded _ => forall m, models (solver s') m -> exceeds m | _ => True end
  | _ => False
  end.

Section call.
Context (i : nat) (call : Call) (p : list PathEntry) (s : State).
Context (Hi : bb_instrs b !! i = Some (ICall call)) (Hphis : (length (phis b) <= i)%nat).
Context (Hs : ready false p s) (Hloc : instr (cur_loc s) = Instr (Z.of_nat i)) (Hat : at_inst i s) (Hlight : light i s).
Let D := bound_at bound_in f b i.

Lemma call_resolves : exists name g md', callee_name call = Some name /\ linked globals md name = Some (g, md') /\ (g, md') ∈ program /\
  args_ok widths f D (call_arguments call) (func_parameters g) = true /\ dest_ok widths f (call_dest call) (func_return_type g) = true /\
  resolve_function (call_function call) s = (Ok (NoHookActive name), s) /\ Operands.get_func_by_name name s = (Ok (Some (g, md')), s) /\
  at_max_callstack_depth s = false.
Proof.
  pose proof (inst_in_block _ _ _ _ _ Hf Hb Hi Hphis) as Hok. cbn in Hok. unfold call_ok in Hok.
  destruct (callee_name call) as [name|] eqn:En; [|done]. destruct (linked globals md name) as [[g md']|] eqn:El; [|done].
  apply andb_prop in Hok as [Hargs Hdest]. destruct (function_in_program _ _ Hf) as [_ Hcalls].
  assert (name ∈ calls f) as Hname.
  { unfold calls. apply list_elem_of_bind. exists b. split; [|done]. apply list_elem_of_omap. exists (ICall call).
    split; [by eapply list_elem_of_lookup_2|done]. }
  destruct (fits_hooks _ _ _ _ _ fits f md name Hf Hname) as [Hh Hint].
  destruct (base_saved _ (ready_base _ _ _ Hs)) as [Hcfg Hga _ _ _ _ _].
  exists name, g, md'. split; [done|]. split; [done|]. split; [by eapply Hcalls|]. split; [done|]. split; [done|]. split; [|split].
  - unfold callee_name in En. destruct (call_function call) as [|[|[]|]]; try done. destruct name0; [|done]. injection En as ->.
    unfold resolve_function, mbind, M_bind, get. cbn. rewrite Hcfg, Hh, Hint. done.
  - unfold Operands.get_func_by_name, mbind, M_bind, get. rewrite Hga, (ready_mod _ _ _ Hs). unfold linked in El.
    destruct (get_global_allocation globals (NameStr name) md) as [[]|]; try done. by injection El as -> ->.
  - unfold at_max_callstack_depth. by rewrite Hcfg, (fits_depth _ _ _ _ _ fits).
Qed.

(** The frame of the call. *)
Definition call_frame : StackFrame :=
  {| callsite := {| callsite_loc := cur_loc s; callsite_instr := LeftCall call |};
     restore_info := get_restore_info_for_fn (varmap s) (cur_fn s) |}.
Lemma call_site g : dest_ok widths f (call_dest call) (func_return_type g) = true -> site_ok g call_frame call i.
Proof.
  intros Hd. pose proof (ready_func _ _ _ Hs) as Ef. pose proof (ready_mod _ _ _ Hs) as Em. pose proof (ready_block _ _ _ Hs) as Eb.
  split; cbn; rewrite ?Ef, ?Em, ?Eb; try done.
  - unfold cur_fn. by rewrite Ef.
  - apply restore_info_nodup.
  - intros n bv Hin%restore_info_spec. apply (ready_in_func _ _ _ Hs). unfold cur_fn in Hin. by rewrite Ef in Hin.
Qed.

Lemma call_restorable : restorable (varmap s) call_frame.
Proof. intros n bv Hin%restore_info_spec. by exists bv. Qed.

(** The calling step of the program. *)
Lemma call_steps m g md' name bvs entry :
  callee_name call = Some name -> linked globals md name = Some (g, md') -> func_basic_blocks g !! 0%nat = Some entry ->
  args_denote D (func_name f) (varmap s) (call_arguments call) bvs -> models (solver s) m ->
  exists fr φ k, Forall2 (frame_ok m) (call_frame :: frames) (fr :: φ) /\ counts_ok (varmap s) k /\
    let st := bind_all (func_name g) (∅, k) (bindings m (func_parameters g) bvs) in
    reach m (Running md' g (Enter None entry) st.1 (mem_bit (mem s) m) (fr :: φ) st.2).
Proof.
  intros En El Eb Hargs Hm. destruct (Hat m Hm) as (env & φ & k & He & HD & Hk & Hfs & Hr). cbn in He, Hfs, Hr.
  rewrite (ready_func _ _ _ Hs) in He, Hr. rewrite (ready_mod _ _ _ Hs) in Hr. rewrite (ready_stack _ _ _ Hs) in Hfs.
  exists {| fr_mod := md; fr_func := f; fr_block := b; fr_next := S i; fr_env := env; fr_dest := call_dest call |}, φ, k.
  split; [|split; [done|]].
  - constructor; [|done]. split; cbn; [symmetry; apply (ready_mod _ _ _ Hs)|symmetry; apply (ready_func _ _ _ Hs)|symmetry; apply (ready_block _ _ _ Hs)| |].
    + exists call, i. by split_and!.
    + intros n v (bv & Hbv & Hv)%He. exists bv. split; [|done]. apply restore_info_spec. unfold cur_fn. by rewrite (ready_func _ _ _ Hs).
  - cbv zeta. eapply reach_step; [exact Hr|]. eapply step_call; [exact Hi|exact En|exact El|by apply Hargs|].
    unfold called. rewrite Eb. cbn. unfold bindings. by destruct (bind_all _ _ _).
Qed.

Lemma args_ok_length D' args ps : args_ok widths f D' args ps = true -> length args = length ps.
Proof. revert ps. induction args as [|arg args IH]; intros [|p' ps]; try done. cbn. intros [_ Ha]%andb_prop. f_equal. by apply IH. Qed.

(** The callee is lighter: its parameters were bound. *)
Lemma entered_weight name g md' entry s1 :
  callee_name call = Some name -> linked globals md name = Some (g, md') -> (g, md') ∈ program -> entry ∈ func_basic_blocks g ->
  func (cur_loc s1) = g -> bb (cur_loc s1) = entry -> instr (cur_loc s1) = Instr 0 -> stack s1 = call_frame :: frames ->
  points_weight s1 = points_weight s -> (budget (varmap s1) + length (func_parameters g) <= budget (varmap s))%nat ->
  ranked -> (state_weight s1 < W)%nat.
Proof.
  intros En El Hg Hin Ef Ebb Ei Est Ep Hbud Hr. destruct (Hlight Hr) as (pos & Hpos & Hw). pose proof (block_ranks Hr f md b Hf Hb) as Hok.
  unfold block_ranked in Hok. apply andb_prop in Hok as [_ Hok]. rewrite forallb_forall in Hok.
  specialize (Hok (ICall call) (proj1 (list_elem_of_In _ _) (list_elem_of_lookup_2 _ _ _ Hi))). cbn in Hok. rewrite En in Hok. cbn in Hok. rewrite El in Hok.
  assert (1 <= length (func_parameters g))%nat as Hps by (destruct (func_parameters g); [done|cbn; lia]).
  pose proof (rank_bounds Hr g md' entry Hg Hin) as Hrank. pose proof (arity_bound Hr f md b Hf Hb) as Hari.
  eapply Nat.lt_le_trans; [|exact Hw]. unfold state_weight, position. rewrite Ei, Est, Ep, Ef, Ebb. apply Nat.add_lt_mono_r.
  pose proof (weight_split Hr f md b Hf Hb 1 (block_rank g entry) pos (varmap s1) (varmap s) (length (call_frame :: frames)) (length frames)) as Hs1.
  rewrite Nat.mul_1_l in Hs1. apply Hs1; [|lia]. unfold exponent. cbn [length]. nia.
Qed.
Lemma runs_enter g md' name :
  callee_name call = Some name -> linked globals md name = Some (g, md') -> (g, md') ∈ program ->
  args_ok widths f D (call_arguments call) (func_parameters g) = true -> dest_ok widths f (call_dest call) (func_return_type g) = true ->
  runs (enter_callee (call_arguments call) (LeftCall call) g md') s (fun r s' =>
    saved s' /\ (forall m, covered s m -> covered s' m) /\
    match r with
    | Ok _ => alive s' /\ func (cur_loc s') = g /\ stack s' = call_frame :: frames /\ (ranked -> (state_weight s' < W)%nat)
    | Err e => e = LoopBoundExceeded max_version /\ points_weight s' = points_weight s /\ forall m, models (solver s') m -> exceeds m
    | _ => False
    end).
Proof.
  intros En El Hg Hargs Hdest. unfold enter_callee. rewrite (args_ok_length _ _ _ Hargs), Nat.eqb_refl. cbn [negb].
  apply runs_bind. eapply runs_mono; [eapply runs_args; [done|by eapply inst_in_f]|]. intros r s' (-> & bvs & -> & Hfit & Hden).
  apply runs_bind. unfold runs at 1, push_generic_callsite, modify. destruct (function_in_program g md' Hg) as [Hok _]. unfold function_ok in Hok. rewrite !andb_true_iff in Hok. destruct Hok as [[[Hps Hbs] Hentry] _].
  destruct (func_basic_blocks g !! 0%nat) as [entry|] eqn:Eb; [|by destruct (func_basic_blocks g)].
  apply (runs_ok entry), runs_bind. unfold runs at 1, modify.
  match goal with |- runs _ ?x _ => set (s1 := x) end.
  rewrite forallb_forall in Hps. pose proof (ready_base _ _ _ Hs) as [Hsv (_ & Hvars & Hch & Hrs) _].
  cbn in Hch, Hrs. rewrite (ready_stack _ _ _ Hs) in Hrs. rewrite (ready_func _ _ _ Hs), (ready_stack _ _ _ Hs) in Hch.
  assert (saved s1) as Hsv1 by by destruct Hsv.
  eapply runs_mono; [apply (runs_bind_params g md' (func_parameters g) bvs s1 Hg Hfit)|].
  { apply Forall_forall. intros q Hq. by apply Hps, list_elem_of_In. }
  { by split. }
  intros r s' (vm & -> & Hr). split; [by apply saved_varmap|]. split; [by intros m|]. unfold binds_params in Hr.
  destruct r as [[]|e|q|]; [|destruct Hr as [-> Hr]; split; [done|]; split; [done|]|done..].
  - destruct Hr as (Hvm & Hbud & Hrs' & Hr). assert (stack s1 = call_frame :: frames) as Est.
    { unfold s1. cbn. unfold call_frame. by rewrite (ready_stack _ _ _ Hs). }
    assert (entry ∈ func_basic_blocks g) as Hin by by eapply list_elem_of_lookup_2.
    split; [|split; [done|split; [done|]]]; [|by eapply (entered_weight name g md' entry)].
    destruct (func_basic_blocks g) as [|entry' blocks] eqn:Eg; [done|]. injection Eb as ->.
    split; [split; [by apply saved_varmap| |]|split; [apply (ready_satisfiable _ _ _ Hs)|left; split; [done|]]].
    + split; [done|]. split; [done|]. cbn. rewrite (ready_stack _ _ _ Hs). split; [split; [exists call, i; by apply (call_site g)|cbn; by rewrite (ready_func _ _ _ Hs)]|].
      apply Hrs'. constructor; [apply call_restorable|done].
    + cbn. rewrite Eg. left.
    + exists None, (list_to_set (param_name <$> func_parameters g)). split; [by left|]. split; [done|]. intros m Hm.
      destruct (call_steps m g md' name bvs entry En El ltac:(by rewrite Eg) Hden Hm) as (fr & φ & k & Hfs & Hk & Hreach).
      assert (env_ok m (varmap s1) (func_name g) ∅) as Hempty by (intros n v; by rewrite lookup_empty).
      destruct (Hr m ∅ k Hempty Hk) as [He Hk']. eexists _, (fr :: φ), _. split; [exact He|]. split; [|split; [exact Hk'|split; [|exact Hreach]]].
      * unfold defined. rewrite bind_all_dom. unfold bindings. rewrite fst_zip; [set_solver|].
        rewrite !length_fmap. apply Forall2_length in Hfit. lia.
      * cbn. unfold call_frame in Hfs. by rewrite (ready_stack _ _ _ Hs).
  - intros m Hm. destruct (call_steps m g md' name bvs entry En El Eb Hden Hm) as (fr & φ & k & Hfs & Hk & Hreach).
    destruct (Hr m ∅ k Hk) as (n & Hn). eexists _, _, n. split; [exact Hreach|]. exact Hn.
Qed.

(** Going on in the caller, after the callee returned. *)
Lemma ready_back g vm s1 (l : Location) :
  site_ok g call_frame call i -> saved s1 -> satisfiable (solver s1) -> vars_ok widths max_version vm -> Forall (restorable vm) frames ->
  (budget vm <= budget (varmap s1))%nat -> stack s1 = call_frame :: frames -> (ranked -> (caller_weight s1 < W)%nat) ->
  module l = module (cur_loc s) -> func l = func (cur_loc s) -> bb l = bb (cur_loc s) ->
  (forall m, models (solver s1) m -> after_call m call_frame vm (mem s1) frames i) ->
  let s2 := set_varmap vm (set_path (path s1 ++ [l]) (set_cur_loc l (set_stack frames s1))) in
  ready false (path s1) s2 /\ at_inst (S i) s2 /\ light (S i) s2.
Proof.
  intros Hsite [Hcfg Hga O G Hp Hmem Hwatch] Hsat Hvm Hrs Hbud Est Hcw Em Ef Eb Hconf s2. rewrite (ready_mod _ _ _ Hs) in Em. rewrite (ready_func _ _ _ Hs) in Ef.
  rewrite (ready_block _ _ _ Hs) in Eb. destruct (ready_base _ _ _ Hs) as [_ (_ & _ & Hch & _) _]. cbn in Hch.
  rewrite (ready_func _ _ _ Hs), (ready_stack _ _ _ Hs) in Hch. split; [|split].
  - split; try done; [split|by exists l].
    + split; try done. by apply points_ok_snoc.
    + unfold ctx_ok. cbn. by rewrite Em, Ef.
    + cbn. by rewrite Ef, Eb.
  - intros m Hm. specialize (Hconf m Hm). unfold after_call, ctx_of_frame, call_frame in Hconf. cbn in Hconf.
    rewrite (ready_mod _ _ _ Hs), (ready_func _ _ _ Hs), (ready_block _ _ _ Hs) in Hconf. unfold ctx_of. cbn. by rewrite Em, Ef.
  - intros Hr. exists cap. split; [by left|]. apply Nat.lt_le_incl. eapply Nat.le_lt_trans; [|exact (Hcw Hr)]. unfold caller_weight, caller_share. rewrite Est.
    apply Nat.add_le_mono_r. cbn. apply (weight_le Hr f md b Hf Hb). unfold exponent. nia.
Qed.

Lemma loc_eqb_refl (l : Location) : loc_eqb l l = true.
Proof. unfold loc_eqb. by apply bool_decide_eq_true. Qed.

Lemma explores_call project E : engine_ok fuel E -> runs (symex_call project E call) s (inst_post (next_inst i) (covered s)).
Proof.
  intros HE. destruct call_resolves as (name & g & md' & En & El & Hg & Hargs & Hdest & Hres & Hget & Hdepth). pose proof (light_points _ _ Hlight) as Hpw.
  unfold symex_call. apply runs_bind. unfold runs at 1. rewrite Hres. apply runs_bind. unfold runs at 1, get. rewrite Hdepth.
  apply runs_bind. unfold runs at 1. rewrite Hget. cbv zeta. apply runs_bind. eapply runs_mono; [by eapply runs_enter|].
  intros r s1 (Hsv1 & Hc1 & Hr). destruct r as [[]|e|q|]; [|destruct Hr as (-> & Ep & Hr); right; by rewrite Ep|done..].
  destruct Hr as (Ha & Efg & Est & Hlt). apply runs_bind. pose proof (ok_through _ _ HE s1 Ha) as Ht. rewrite Efg, Est in Ht.
  eapply runs_mono; [exact Ht|]. intros r s2 [[-> Hsh]|(Hsv2 & Hc2 & Hr)].
  { left. split; [done|]. intros Hrk. specialize (Hsh Hrk). specialize (Hlt Hrk). lia. }
  assert ((ranked -> (points_weight s2 < state_weight s1)%nat) -> ranked -> (points_weight s2 < W)%nat) as Hless.
  { intros Hl Hrk. specialize (Hl Hrk). specialize (Hlt Hrk). lia. }
  destruct r as [[v|]|e|q|]; [| | |done..].
  2: { right. split; [done|]. split; [done|]. intros m Hm. by apply Hc2, Hc1. }
  2: { right. split; [done|]. destruct e; (split; [by (apply Hless; apply Hr) || done|]); try (split; [intros m Hm; by apply Hc2, Hc1|]); try done; [intros m Hm; by apply Hc2, Hc1|apply Hr]. }
  destruct Hr as (Hpw2 & Hsat & Hr). apply (runs_ok v). assert (forall m, covered s m -> covered s2 m) as Hc by (intros m Hm; by apply Hc2, Hc1).
  destruct Hr as [[Hret Hcw]|Hfin]; [|apply runs_pop_none; [apply Hfin|]; right; split; [done|]; split; [by apply Hless|done]].
  pose proof (call_site g Hdest) as Hsite. pose proof Hret as (Est2 & _ & Hrs & Hty & _). pose proof (site_result _ _ _ _ _ Hsite Hty) as Hval.
  apply Forall_cons in Hrs as [Hrs _].
  assert (ranked -> (caller_weight s2 < W)%nat) as Hcw' by (intros Hrk; specialize (Hcw Hrk); specialize (Hlt Hrk); lia).
  apply (runs_pop_frame _ _ _ _ _ Est2 Hrs). intros vm Hvm. cbn [callsite call_frame callsite_instr callsite_loc]. rewrite loc_eqb_refl.
  destruct (inc_past (cur_loc s) i Hloc) as (l & El' & Em & Ef & Eb & _).
  { rewrite (ready_block _ _ _ Hs). by eapply lookup_lt_Some. }
  apply runs_bind. unfold runs at 1, modify. apply runs_bind. unfold runs at 1, inc_loc, mbind, M_bind, get. cbn [cur_loc set_cur_loc].
  rewrite El'. cbn [lift]. apply runs_bind. unfold runs at 1, record_path_entry, modify.
  match goal with |- runs _ ?x _ => set (s3 := x) end.
  assert (forall vm', saved (set_varmap vm' s3)) as Hsv3.
  { intros vm'. destruct Hsv2. split; try done. by apply points_ok_snoc. }
  assert (forall vm', vars_ok widths max_version vm' -> Forall (restorable vm') frames -> (budget vm' <= budget (varmap s2))%nat ->
    (forall m, models (solver s2) m -> after_call m call_frame vm' (mem s2) frames i) ->
    inst_post (next_inst i) (covered s) (Ok None) (set_varmap vm' s3)) as Hgo.
  { intros vm' Hvm' Hrs' Hbud Hconf. right. split; [done|].
    destruct (ready_back g vm' s2 l Hsite Hsv2 Hsat Hvm' Hrs' Hbud Est2 Hcw' Em Ef Eb Hconf) as [Hrd Hati].
    split; [split; [by eexists|done]|]. intros m Hm. by apply Hc. }
  destruct v as [bv| |bv|]; [| |done..].
  - destruct Hval as (n & Hd & Hw). unfold call_dest_unwrap. rewrite Hd. apply runs_bind.
    eapply runs_cases; [eapply (runs_bind_result g call_frame call i frames bv n vm s2 s3)| | |by intros s4 (? & _ & [])]; try done.
    + intros [] s4 (vm' & -> & Hvm' & Hrs' & Hbud & Hconf). by apply (Hgo vm').
    + intros e s4 (vm' & -> & -> & Hexc). right. split; [apply Hsv3|]. split; [by apply Hless|]. split; [|done]. intros m Hm. by apply Hc.
  - rewrite Hval, bool_decide_true by done. destruct (returned_void _ _ _ _ _ _ _ Hsite Hret Hvm) as (Hvm' & Hrs' & Hbud & Hconf).
    exact (Hgo vm Hvm' Hrs' Hbud Hconf).
Qed.

End call.

(** ** The other instructions *)

Lemma covered_varmap vm s m : covered s m -> covered (set_varmap vm s) m.
Proof. done. Qed.

(** Binding a name that the program binds too. *)
Lemma plain_post (cov : Model -> Prop) (r : outcome (option (ReturnValue BV))) i inst p s vm' r' :
  bb_instrs b !! i = Some inst -> ready false p s -> at_inst i s -> light i s -> (forall m, cov m -> covered s m) ->
  result_ok widths max_version f (bound_at bound_in f b i) inst s r' vm' ->
  match r with Ok None => r' = Ok tt | Ok (Some _) => False | Err e => r' = Err e | _ => False end ->
  inst_post (next_inst i) cov r (set_varmap vm' s).
Proof.
  intros Hi Hs Hat Hl Hcov (n & bv & Hdest & Hw & Hval & Ha) Hr. pose proof (ready_func _ _ _ Hs) as Ef. pose proof (ready_mod _ _ _ Hs) as Em.
  assert (saved (set_varmap vm' s)) as Hsv by apply saved_varmap, (ready_base _ _ _ Hs).
  assert (forall m, models (solver s) m -> exists env φ k, env_ok m (varmap s) (func_name f) env /\ defined (bound_at bound_in f b i) env /\
    counts_ok (varmap s) k /\ Forall2 (frame_ok m) (stack s) φ /\
    reach m (Running md f (At b (S i)) (<[n := eval m bv]> env) (mem_bit (mem s) m) φ (bump (func_name f) n k))) as Hstep.
  { intros m (env & φ & k & He & HD & Hk & Hfs & Hr0)%Hat. cbn in He, Hfs, Hr0. rewrite Ef in He, Hr0. rewrite Em in Hr0.
    exists env, φ, k. split_and!; try done. eapply reach_step; [exact Hr0|].
    exact (step_inst _ md f b i inst env _ φ k (n, eval m bv) Hi (Hval m env He HD)). }
  destruct r as [[v|]|e| |]; try done; subst r'; cbn in Ha.
  - right. split; [done|]. split; [|done]. split; [|split].
    + exists p. by eapply ready_assigned.
    + intros m (env & φ & k & He & HD & Hk & Hfs & Hr0)%Hstep. exists (<[n := eval m bv]> env), φ, (bump (func_name f) n k).
      cbn. rewrite Ef, Em. split; [by eapply assigned_env|]. split; [|split; [by eapply assigned_counts|done]].
      unfold bound_at. rewrite (take_S_r _ _ _ Hi), omap_app, list_to_set_app_L. cbn. rewrite Hdest.
      eapply defined_mono; [|apply defined_insert, HD]. unfold bound_at. cbn. set_solver.
    + eapply light_assigned; [done|apply (ready_in_func _ _ _ Hs)|done|done].
  - destruct Ha as [-> Ho]. right. split; [done|]. split; [by apply (light_points i s)|]. split; [done|]. intros m (env & φ & k & He & HD & Hk & Hfs & Hr0)%Hstep.
    eexists _, (func_name f), n. split; [exact Hr0|]. by apply Ho.
Qed.

(** A query leaves everything as it was. *)
Lemma saved_same s sol : saved s -> same_solver (solver s) sol -> saved (set_solver sol s).
Proof. intros [? ? O G Hp ? ?] [Ea Eg]. split; try done; cbn; [unfold solver_ok; by rewrite Ea|by rewrite Eg|by rewrite Ea]. Qed.
Lemma ready_same first p s sol : ready first p s -> same_solver (solver s) sol -> ready first p (set_solver sol s).
Proof.
  intros [[] [m Hm] ? ? ? ? ?] Hsol. split; try done; [split; [by apply saved_same|done|done]|]. exists m. unfold models in *. cbn. by destruct Hsol as [-> _].
Qed.
Lemma at_inst_models i s s' : ctx_of s' = ctx_of s -> (forall m, models (solver s') m -> models (solver s) m) -> at_inst i s -> at_inst i s'.
Proof. intros Hc Hm Ha m Hs. rewrite Hc. by apply Ha, Hm. Qed.

(** An access to the memory: it succeeds, or the address may be null. *)
Lemma runs_access {A} addr (c : M State A) s P (Q : outcome A -> State -> Prop) :
  saved s -> wp c s (state_access s addr P) -> (forall a s', P a s' -> Q (Ok a) s') ->
  (forall sol, same_solver (solver s) sol -> Q (Err NullPointerDereference) (set_solver sol s)) -> runs c s Q.
Proof.
  intros Hs Hc Hk Hnull. unfold runs. destruct (c s) as [r s'] eqn:Er. apply (wp_run _ _ _ _ _ Er) in Hc.
  destruct r as [a|e|q|]; cbn in Hc; try done.
  - apply Hk, Hc.
  - destruct Hc as [[_ [sol Hsol]]|(-> & _ & _ & Hsplit)]; [by destruct (decides sol)|]. unfold null_split in Hsplit.
    rewrite (saved_config _ Hs) in Hsplit. pose proof (fits_null _ _ _ _ _ fits) as Hn.
    destruct (null_pointer_checking settings); [|done|]; destruct Hsplit as (sol & Hsol & ->); by apply Hnull.
Qed.
Lemma null_post i s sol : saved s -> light i s -> same_solver (solver s) sol ->
  inst_post (next_inst i) (covered s) (Err NullPointerDereference) (set_solver sol s).
Proof.
  intros Hs Hl Hsol. right. split; [by apply saved_same|]. split; [by apply (light_points i s)|]. split; [|done]. intros m. by apply covered_same.
Qed.

Lemma explores_load load i p s :
  bb_instrs b !! i = Some (ILoad load) -> load_ok widths f (bound_at bound_in f b i) load = true -> ready false p s -> at_inst i s -> light i s ->
  runs (_ ← symex_load load; mret None) s (inst_post (next_inst i) (covered s)).
Proof.
  unfold load_ok, pointer_ok. rewrite andb_true_iff, bool_decide_eq_true. intros Hi [Ha Hw] Hs Hat Hl.
  destruct (value_width _) as [w|] eqn:Ety; [|done]. rewrite andb_true_iff, orb_true_iff, Z.ltb_lt, Z.eqb_eq in Hw. destruct Hw as [Hsz Hb'].
  pose proof (base_saved _ (ready_base _ _ _ Hs)) as Hsv. destruct (binds_inv _ _ _ _ _ Hb') as (_ & _ & Hw).
  unfold symex_load. apply runs_bind. apply (runs_operand widths max_version f (bound_at bound_in f b i) _ 64); [done|by eapply inst_in_f|]. intros addr [Wa Da].
  rewrite (size_value _ _ Ety). apply (runs_ok w). unfold as_u32. rewrite Z.mod_small by lia.
  apply runs_bind. eapply runs_access; [done|apply wp_state_read; [apply Hsv..|done|by split]| |].
  2: { intros sol Hsol. by apply null_post. }
  intros v s' ((sol & Hsol & ->) & Wv & Hv). pose proof (ready_same _ _ _ _ Hs Hsol) as Hs'.
  assert (at_inst i (set_solver sol s)) as Hat' by (eapply (at_inst_models _ s); [done|intros m; cbn; unfold models; by destruct Hsol as [-> _]|done]).
  eapply runs_mono; [eapply (runs_record widths max_version f (bound_at bound_in f b i) (ILoad load)); [done..|by eapply inst_in_f|]|].
  { intros m env He HD. cbn [inst_val]. rewrite Ety. cbn. rewrite (Da _ _ He HD). cbn. do 2 f_equal. symmetry. apply reads_load; [lia|]. apply Hv. }
  intros r s2 (vm' & -> & Hr). assert (forall m, covered s m -> covered (set_solver sol s) m) as Hcov by (intros m; by apply covered_same).
  destruct r as [[]|e|q|]; [by eapply (plain_post _ (Ok None))|by eapply (plain_post _ (Err e))|by destruct Hr as (? & ? & _ & _ & _ & [])..].
Qed.

Lemma explores_store store i p s :
  bb_instrs b !! i = Some (IStore store) -> store_ok widths f (bound_at bound_in f b i) store = true -> ready false p s -> at_inst i s -> light i s ->
  runs (_ ← symex_store store; mret None) s (inst_post (next_inst i) (covered s)).
Proof.
  unfold store_ok, pointer_ok. rewrite andb_true_iff, bool_decide_eq_true. intros Hi [Ha Hw] Hs Hat Hl.
  destruct (operand_width widths f (bound_at bound_in f b i) (store_value store)) as [w|] eqn:Ew; [|done]. apply Z.eqb_eq in Hw. destruct (operand_width_inv _ _ _ _ _ Ew) as (Ety & Hpos & Hlt).
  pose proof (base_saved _ (ready_base _ _ _ Hs)) as Hsv. pose proof (inst_in_f _ _ _ _ Hs Hat) as Hin.
  unfold symex_store. apply runs_bind. apply (runs_operand widths max_version f (bound_at bound_in f b i) _ w); [done..|]. intros v [Wv Dv].
  apply (runs_operand widths max_version f (bound_at bound_in f b i) _ 64); [done..|]. intros addr [Wa Da].
  assert (byte_size (get_width v)) as Hsz by (by rewrite Wv).
  eapply runs_access; [done|exact (wp_state_write s addr v (saved_mem _ Hsv) (saved_solver _ Hsv) (saved_watch _ Hsv) Wa Hsz)| |].
  2: { intros sol Hsol. by apply null_post. }
  intros [] s' (mem' & (sol & Hsol & ->) & Hm' & _ & Hwr).
  assert (saved (set_solver sol (set_mem mem' s))) as Hsv' by (apply saved_same; [by destruct Hsv|done]).
  right. split; [done|]. split; [|intros m Hm; by apply (covered_same (set_mem mem' s))]. split; [|split; [|by eapply light_store]].
  - exists p. destruct Hs as [[_ Hctx Hbl] [m Hm] ? ? ? ? ?]. split; try done. exists m. unfold models in *. cbn. by destruct Hsol as [-> _].
  - intros m Hm. assert (models (solver s) m) as Hm0 by (unfold models in *; cbn in Hm; by destruct Hsol as [Ea _]; cbn in Ea; rewrite <- Ea).
    destruct (Hat m Hm0) as (env & φ & k & He & HD & Hk & Hfs & Hr). exists env, φ, k. split; [done|]. split; [|split; [done|split; [done|]]].
    { unfold bound_at in *. rewrite (take_S_r _ _ _ Hi), omap_app, list_to_set_app_L. cbn. eapply defined_mono; [|exact HD]. set_solver. }
    cbn in He, Hr |- *. rewrite (ready_func _ _ _ Hs) in He, Hr |- *. rewrite (ready_mod _ _ _ Hs) in Hr |- *. eapply reach_step; [exact Hr|]. eapply step_store; [exact Hi|].
    unfold stored. rewrite Ety. cbn. rewrite (Da _ _ He HD). cbn. rewrite (Dv _ _ He HD). cbn. f_equal. symmetry. rewrite <- Wv. apply writes_store, Hwr.
Qed.

Lemma explores_plain project E i inst p s :
  engine_ok fuel E -> bb_instrs b !! i = Some inst -> (length (phis b) <= i)%nat -> ready false p s ->
  instr (cur_loc s) = Instr (Z.of_nat i) -> at_inst i s -> light i s ->
  runs (symex_instruction project E inst) s (inst_post (next_inst i) (covered s)).
Proof.
  intros HE Hi Hge Hs Hloc Hat Hl. pose proof (inst_in_block _ _ _ _ _ Hf Hb Hi Hge) as Hok.
  destruct (plain inst) eqn:Hp.
  - pose proof (instruction_executes widths max_version f _ md project E _ inst s Hok Hp (inst_in_f _ _ _ _ Hs Hat)) as He.
    eapply runs_mono; [exact He|]. intros r s' (vm' & r' & -> & Hres & Hr). by eapply plain_post.
  - destruct inst; try done; [by eapply explores_load|by eapply explores_store|by eapply explores_call].
Qed.

(** ** Phis *)

Section phis.
Context (prev : option Name) (D : gset Name) (p : list PathEntry).
Context (Hprev : prev = None \/ prev = prev_of p).

(** The first [i] phis were evaluated. *)
Definition phis_done (i : nat) s : Prop := forall m, models (solver s) m ->
  exists env k φ vs, mapM (phi_val env prev) (phis b) = Some vs /\ vs.*1 = phi_dest <$> phis b /\
    reach m (Running md f (Enter prev b) env (mem_bit (mem s) m) φ k) /\ defined D env /\ Forall2 (frame_ok m) frames φ /\
    let st := bind_all (func_name f) (env, k) (take i vs) in env_ok m (varmap s) (func_name f) st.1 /\ counts_ok (varmap s) st.2.

Lemma phis_start s first :
  ready first p s -> edge_ok widths bound_in f D prev b = true ->
  (forall m, models (solver s) m -> at_conf m (ctx_of s) D (Enter prev b)) -> phis_done 0 s.
Proof.
  intros Hs [Hps _]%andb_prop Harr m (env & φ & k & He & HD & Hk & Hfs & Hr)%Harr. cbn in He, Hfs, Hr.
  rewrite (ready_func _ _ _ Hs) in He, Hr. rewrite (ready_mod _ _ _ Hs) in Hr. rewrite (ready_stack _ _ _ Hs) in Hfs.
  destruct (phis_evaluated _ _ _ _ _ _ _ Hps HD) as (vs & Hvs & Hns). exists env, k, φ, vs. by split_and!.
Qed.

Lemma phis_end s first : ready first p s -> edge_ok widths bound_in f D prev b = true -> phis_done (length (phis b)) s -> at_inst (length (phis b)) s.
Proof.
  intros Hs [_ Hsub%bool_decide_eq_true]%andb_prop Hd m (env & k & φ & vs & Hvs & Hns & Hr & HD & Hfs & He & Hk)%Hd.
  rewrite take_ge in He, Hk by (rewrite <- (length_fmap fst vs), Hns, length_fmap; done).
  exists (bind_all (func_name f) (env, k) vs).1, φ, (bind_all (func_name f) (env, k) vs).2. cbn.
  rewrite (ready_func _ _ _ Hs), (ready_mod _ _ _ Hs), (ready_stack _ _ _ Hs). split; [done|]. split; [|split; [done|split; [done|]]].
  - unfold defined, bound_at, phis in *. rewrite head_phis_dests, bind_all_dom, Hns. cbn. set_solver.
  - eapply reach_step; [exact Hr|]. econstructor; [done|]. by destruct (bind_all _ _ _).
Qed.

Lemma phis_in_f i first s : ready first p s -> phis_done i s -> in_f widths max_version f D s.
Proof.
  intros Hs Hd. split; [by eapply ready_in_func|]. intros n Hn. destruct (ready_satisfiable _ _ _ Hs) as [m Hm].
  destruct (Hd m Hm) as (env & k & φ & vs & _ & _ & _ & HD & _ & He & _).
  assert (n ∈ dom (bind_all (func_name f) (env, k) (take i vs)).1) as [v Hv]%elem_of_dom by (rewrite bind_all_dom; unfold defined in HD; set_solver).
  destruct (He n v Hv) as (bv & Hb' & _). by exists bv.
Qed.
Lemma phis_lookup (vs : list (Name * Z)) env i phi : mapM (phi_val env prev) (phis b) = Some vs -> phis b !! i = Some phi ->
  exists nv, vs !! i = Some nv /\ phi_val env prev phi = Some nv.
Proof.
  intros Hvs%mapM_Some Hi. destruct (Forall2_lookup_l _ _ _ _ _ Hvs Hi) as (nv & Hnv & Hv). by exists nv.
Qed.

Lemma explores_phi project E i phi earlier s :
  phis b !! i = Some phi -> ready false p s -> phi_ok widths f D prev earlier phi = true ->
  (forall n, n ∈ phi_dest <$> take i (phis b) -> n ∈ earlier) -> phis_done i s -> light i s ->
  runs (symex_instruction project E (IPhi phi)) s
    (inst_post (fun s' => ready false p s' /\ phis_done (S i) s' /\ light (S i) s') (covered s)).
Proof.
  intros Hi Hs Hok Hearlier Hd Hl. assert (vars_ok widths max_version (varmap s)) as Hvars by apply (ready_in_func _ _ _ Hs). assert (prev = prev_of p) as Ep by (destruct Hprev as [->|?]; [done|done]).
  rewrite Ep in Hok. destruct (ready_path _ _ _ Hs) as (e & Hpath & _).
  destruct (phi_executes widths max_version f project E D phi earlier p e s Hok (phis_in_f _ _ _ Hs Hd) Hpath) as (pn & op & w & Epn & Hop & Hread & He).
  assert (forall m bv, models (solver s) m -> denotes D (func_name f) (varmap s) op w bv ->
    exists env k φ vs, mapM (phi_val env prev) (phis b) = Some vs /\ vs.*1 = phi_dest <$> phis b /\
      reach m (Running md f (Enter prev b) env (mem_bit (mem s) m) φ k) /\ defined D env /\ Forall2 (frame_ok m) frames φ /\
      vs !! i = Some (phi_dest phi, eval m bv) /\
      let st := bind_all (func_name f) (env, k) (take i vs) in env_ok m (varmap s) (func_name f) st.1 /\ counts_ok (varmap s) st.2) as Hval.
  { intros m bv (env & k & φ & vs & Hvs & Hns & Hr & HD & Hfs & Henv & Hk)%Hd [_ Hbv]. exists env, k, φ, vs. do 5 (split; [done|]). split; [|done].
    destruct (phis_lookup vs env i phi Hvs Hi) as (nv & Hnv & Hv). rewrite Hnv. rewrite Ep, Epn in Hv. cbn in Hv. rewrite Hop in Hv. cbn in Hv.
    assert (val_of (bind_all (func_name f) (env, k) (take i vs)).1 op = val_of env op) as Esame.
    { destruct op as [n ty| |]; [|done..]. cbn. apply bind_all_other. rewrite fmap_take, Hns, <- fmap_take. intros Hn%Hearlier.
      cbn in Hread. by apply bool_decide_eq_true in Hread. }
    rewrite <- Esame, (Hbv m _ Henv) in Hv; [by cbn in Hv|]. unfold defined. rewrite bind_all_dom. set_solver. }
  assert (forall (vs : list (Name * Z)) nv, vs !! i = Some nv -> forall st, bind_all (func_name f) st (take (S i) vs) = bind (func_name f) (bind_all (func_name f) st (take i vs)) nv) as Hsnoc.
  { intros vs nv Hnv st. by rewrite (take_S_r _ _ _ Hnv), bind_all_snoc. }
  eapply runs_cases; [exact He| | |by intros s' (? & ? & ? & _ & _ & _ & _ & [])].
  - intros o s' (vm' & r' & bv & -> & Ha & Hbv & Hw & Hr). destruct o; [done|]. subst r'. cbn in Ha.
    right. split; [apply saved_varmap, (ready_base _ _ _ Hs)|]. split; [|by intros m]. split; [by eapply ready_assigned|].
    split; [|by eapply light_assigned]. intros m Hm. destruct (Hval m bv Hm Hbv) as (env & k & φ & vs & Hvs & Hns & Hreach & HD & Hfs & Hnv & Henv & Hk).
      exists env, k, φ, vs. do 5 (split; [done|]). cbv zeta. rewrite (Hsnoc _ _ Hnv). split; [by eapply assigned_env|by eapply assigned_counts].
  - intros e' s' (vm' & r' & bv & -> & Ha & Hbv & Hw & ->). destruct Ha as [-> Ho].
    right. split; [apply saved_varmap, (ready_base _ _ _ Hs)|]. split; [by apply (light_points i s)|]. split; [by intros m|]. intros m Hm.
    destruct (Hval m bv Hm Hbv) as (env & k & φ & vs & Hvs & Hns & Hreach & HD & Hfs & Hnv & Henv & Hk).
    eexists _, (func_name f), (phi_dest phi). split.
    + eapply reach_step; [exact Hreach|]. exact (step_enter _ md f prev b env _ φ k vs _ _ Hvs (surjective_pairing _)).
    + cbn. specialize (Ho _ Hk). rewrite <- (take_drop (S i) vs), bind_all_app, (Hsnoc _ _ Hnv). eapply Z.lt_le_trans; [exact Ho|].
      apply Nat2Z.inj_le. apply (count_le_bind_all _ (bind (func_name f) (bind_all (func_name f) (env, k) (take i vs)) (phi_dest phi, eval m bv))).
Qed.

End phis.

(** ** The block *)

Section loop.
Context `{CB : !ObservingCallbacks} (project : Project) (squash_unsats : bool) (E : Engine) (HE : engine_ok fuel E).
Abbreviation good := (good f frames W).
Abbreviation explores := (explores (short (S fuel) (3 * W)) W).

Lemma explores_observe {A} (xs : list A) (g : A -> M State unit) (cov : Model -> Prop) (k : M State (option (ReturnValue BV))) s :
  (forall x s, runs (g x) s (fun r s' => s' = s /\ own_error r)) -> saved s -> (forall m, cov m -> covered s m) -> (ranked -> (points_weight s < W)%nat) ->
  explores good cov k s -> explores good cov (_ ← forM xs g; k) s.
Proof.
  intros Hg Hs Hc Hw Hk. unfold explores. apply runs_bind. induction xs as [|x xs IH]; cbn [forM]; [exact Hk|].
  apply runs_bind. eapply runs_mono; [apply Hg|]. intros [[]|e|p|] s' [-> Hown]; try done.
  right. split; [done|]. by destruct e.
Qed.

(** The location moves within the block, and the first visit is recorded. *)
Lemma runs_visited {B} j d (first : bool) p (k : M State B) s Q :
  ready first p s ->
  (forall s1, ready false p s1 -> instr (cur_loc s1) = j -> ctx_of s1 = ctx_of s -> solver s1 = solver s -> backtrack_points s1 = backtrack_points s ->
     (forall m, covered s1 m <-> covered s m) -> runs k s1 Q) ->
  runs (_ ← modify (fun s => set_cur_loc (set_source_loc d (set_instr j (cur_loc s))) s);
        _ ← (if first then record_path_entry else mret tt); k) s Q.
Proof.
  intros [[[Hcfg Hga O G Hp Hmem Hwatch] Hctx Hbl] Hsat Em Ef Eb Est Hpath] Hk. apply runs_bind. unfold runs at 1, modify. apply runs_bind.
  destruct first; unfold runs at 1; cbn; apply Hk; try done.
  split; try done; [split; try done; split; try done; by apply points_ok_snoc|]. rewrite <- Hpath. eexists. by split.
Qed.

(** One instruction of the block, after which [next] holds. *)
Lemma explores_step inst i insts first p s next (k : bool -> M State (option (ReturnValue BV))) :
  ready first p s -> light i s ->
  (forall s1, ready false p s1 -> instr (cur_loc s1) = Instr (Z.of_nat i) -> ctx_of s1 = ctx_of s -> solver s1 = solver s -> light i s1 ->
     runs (symex_instruction project E inst) s1 (inst_post next (covered s1))) ->
  (forall s2, next s2 -> explores good (covered s2) (instr_loop project squash_unsats E insts false k) s2) ->
  explores good (covered s) (instr_loop project squash_unsats E ((Z.of_nat i, inst) :: insts) first k) s.
Proof.
  intros Hs Hl Hi Hk. cbn [instr_loop]. unfold explores. apply (runs_visited _ _ _ p); [done|].
  intros s1 Hs1 Hloc Hctx Hsol Hbps Hcov. assert (light i s1) as Hl1.
  { eapply (light_same i s); [by injection Hctx|done|done]. }
  pose proof (light_points _ _ Hl1) as Hw1. eapply (explores_weaken _ _ _ (covered s1)); [intros m; apply Hcov|]. unfold explores.
  apply runs_bind. unfold runs at 1, get. apply explores_observe; [intros; apply instruction_observes|apply (ready_base _ _ _ Hs1)|done|done|].
  unfold explores. apply runs_bind, runs_catch. eapply runs_mono; [by apply Hi|].
  intros r s2 [[-> Hsh]|[Hsv Hr]]; [by left|]. destruct r as [[v|]|e|q|]; [| | |done..].
  - destruct Hr as (Hw & Hsat & Hfin & Hc). right. split; [done|]. split; [done|]. split; [done|]. split; [done|by right].
  - destruct Hr as [Hn Hc]. eapply explores_weaken; [exact Hc|]. by apply Hk.
  - destruct e; try (right; split; [done|]; destruct Hr as (? & ? & ?); by split).
    destruct Hr as [Hnone Hexc]. destruct squash_unsats; [|by right].
    assert (points_weight s2 = 0%nat) as Hz by (unfold points_weight; by rewrite Hnone).
    eapply (explores_mono (short fuel (3 * points_weight s2 + 2)) _ (points_weight s2)); [| | | |by apply (ok_backtrack _ _ HE)].
    + intros Hsh Hrk. specialize (Hsh Hrk). specialize (Hw1 Hrk). lia.
    + lia.
    + intros v s' Hfin. by right.
    + intros m Hm. right. by apply Hexc.
Qed.

Section body.
Context (k : bool -> M State (option (ReturnValue BV))).
Context (Hk : forall first p s, ready first p s -> at_inst (length (bb_instrs b)) s -> light (length (bb_instrs b)) s -> explores good (covered s) (k first) s).

Lemma explores_body n : forall i first p s,
  (length (bb_instrs b) - i = n)%nat -> (length (phis b) <= i)%nat -> (i <= length (bb_instrs b))%nat -> ready first p s -> at_inst i s -> light i s ->
  explores good (covered s) (instr_loop project squash_unsats E (drop i (enumerate (bb_instrs b))) first k) s.
Proof.
  induction n as [|n IH]; intros i first p s Hn Hge Hle Hs Ha Hl; rewrite drop_enumerate.
  - assert (i = length (bb_instrs b)) as -> by lia. rewrite (proj2 (lookup_ge_None _ _)) by done. cbn [instr_loop]. by eapply Hk.
  - destruct (bb_instrs b !! i) as [inst|] eqn:Ei; [|apply lookup_ge_None_1 in Ei; lia]. apply lookup_lt_Some in Ei as Hlt.
    apply (explores_step _ _ _ _ p _ (next_inst i)); [done|done| |].
    + intros s1 Hs1 Hloc Hctx Hsol Hl1. eapply explores_plain; try done. eapply (at_inst_models _ s); [done|by rewrite Hsol|done].
    + intros s2 ((p' & Hs2) & Ha2 & Hl2). eapply IH; try done; lia.
Qed.

Lemma explores_phis prev D p n : (prev = None \/ prev = prev_of p) -> edge_ok widths bound_in f D prev b = true ->
  forall i earlier first s,
  (length (phis b) - i = n)%nat -> (i <= length (phis b))%nat -> phis_ok widths f D prev earlier (drop i (phis b)) = true ->
  (forall n, n ∈ phi_dest <$> take i (phis b) -> n ∈ earlier) ->
  ready first p s -> phis_done prev D i s -> light i s ->
  explores good (covered s) (instr_loop project squash_unsats E (drop i (enumerate (bb_instrs b))) first k) s.
Proof.
  intros Hprev Hedge. induction n as [|n IH]; intros i earlier first s Hn Hle Hps Hearlier Hs Hd Hl.
  - assert (i = length (phis b)) as -> by lia. eapply explores_body; try done; [|by eapply phis_end].
    unfold phis. clear. induction (bb_instrs b) as [|inst insts IH]; [done|]. destruct inst; cbn; lia.
  - destruct (phis b !! i) as [phi|] eqn:Ei; [|apply lookup_ge_None_1 in Ei; lia]. apply lookup_lt_Some in Ei as Hlt.
    rewrite drop_enumerate, (head_phis_lookup _ _ _ Ei). rewrite (drop_S _ _ _ Ei) in Hps. cbn in Hps. apply andb_prop in Hps as [Hphi Hps].
    apply (explores_step _ _ _ _ p _ (fun s' => ready false p s' /\ phis_done prev D (S i) s' /\ light (S i) s')); [done|done| |].
    + intros s1 Hs1 Hloc Hctx Hsol Hl1. eapply explores_phi; try done. intros m Hm. rewrite Hsol in Hm. destruct (Hd m Hm) as (env & kk & φ & vs & Hrest).
      exists env, kk, φ, vs. assert (varmap s1 = varmap s /\ mem s1 = mem s) as [-> ->] by (by injection Hctx). exact Hrest.
    + intros s2 (Hs2 & Hd2 & Hl2). apply (IH (S i) (phi_dest phi :: earlier)); try done; [lia..|]. intros x.
      rewrite (take_S_r _ _ _ Ei), fmap_app, elem_of_app, elem_of_cons. cbn. rewrite list_elem_of_singleton. intros [?|?]; auto.
Qed.

End body.

Lemma explores_end s first p :
  ready first p s -> at_inst (length (bb_instrs b)) s -> light (length (bb_instrs b)) s ->
  explores good (covered s) (
    s ← get;
    let term := bb_term (bb (cur_loc s)) in
    _ ← modify (fun s => set_cur_loc (set_source_loc (term_debug_loc term) (set_instr TerminatorIdx (cur_loc s))) s);
    _ ← (if first then record_path_entry else mret tt);
    s ← get;
    _ ← forM (terminator_callbacks (callbacks (config s))) (fun cb => terminator_callback cb term);
    symex_terminator project E term) s.
Proof.
  intros Hs Ha Hl. unfold explores. apply runs_bind. unfold runs at 1, get. cbv zeta. rewrite (ready_block _ _ _ Hs).
  apply (runs_visited _ _ _ p); [done|]. intros s1 Hs1 Hloc Hctx Hsol Hbps Hcov.
  assert (light (length (bb_instrs b)) s1) as Hl1 by (eapply (light_same _ s); [by injection Hctx|done|done]). pose proof (light_points _ _ Hl1) as Hw1.
  eapply (explores_weaken _ _ _ (covered s1)); [intros m; apply Hcov|].
  unfold explores. apply runs_bind. unfold runs at 1, get.
  apply explores_observe; [intros; apply terminator_observes|apply (ready_base _ _ _ Hs1)|done|done|].
  eapply (explores_terminator md f b frames fuel W); [done..| |].
  - pose proof (light_room s1 (ready_stack _ _ _ Hs1) Hl1) as Hroom. destruct Hs1 as [? ? ? ? ? ? (e & Hp & He)]. split; try done; [by exists p, e|]. eapply (at_inst_models _ s); [done|by rewrite Hsol|done].
  - pose proof (block_in_function _ _ _ Hf Hb) as Hok. unfold block_ok in Hok. by apply andb_prop in Hok as [_ Hok].
Qed.

End loop.

End caller.

(** ** The engine *)

Lemma insts_to_skip_start (l : Location) : instr l = Instr 0 -> insts_to_skip l = Ok 0%nat.
Proof.
  unfold insts_to_skip. intros ->. cbn [Z.eqb andb]. destruct (Z.eqb_spec (Z.of_nat (length (bb_instrs (bb l)))) 0); [done|].
  by rewrite (proj2 (Z.ltb_lt _ _)) by lia.
Qed.
Lemma insts_to_skip_le (l : Location) i : insts_to_skip l = Ok i -> (i <= length (bb_instrs (bb l)))%nat.
Proof.
  unfold insts_to_skip. destruct (instr l) as [j|]; [|by intros [= <-]]. destruct (_ && _); [intros [= <-]; lia|].
  destruct (Z.ltb_spec j (Z.of_nat (length (bb_instrs (bb l))))); [|done]. cbn. intros [= <-]. lia.
Qed.

Lemma start_light s i : insts_to_skip (cur_loc s) = Ok i ->
  light (func (cur_loc s)) (bb (cur_loc s)) (stack s) (state_weight s) i s.
Proof.
  intros Hi _. exists (position (cur_loc s)). split; [|done]. unfold position. destruct (instr (cur_loc s)) as [[|j|j]|] eqn:Ei; try by left.
  right. split; [done|]. rewrite (insts_to_skip_start _ Ei) in Hi. by injection Hi as <-.
Qed.

Lemma explores_through `{CB : !ObservingCallbacks} project squash_unsats n E s : engine_ok n E -> alive s ->
  explores (short (S n) (3 * state_weight s)) (state_weight s) (good (func (cur_loc s)) (stack s) (state_weight s)) (covered s)
    (through_end_of_function project squash_unsats E) s.
Proof.
  intros HE (Hb & Hsat & Hpos). pose proof Hb as [Hsv (Hprog & _ & _) Hblock]. cbn in Hprog. pose proof (start_light s) as Hlight.
  unfold explores, through_end_of_function. apply runs_bind. unfold runs at 1, get. set (W := state_weight s) in *. clearbody W.
  assert (ready (module (cur_loc s)) (func (cur_loc s)) (bb (cur_loc s)) (stack s) true (path s) s) as Hs by by split.
  pose proof (explores_end (module (cur_loc s)) (func (cur_loc s)) (bb (cur_loc s)) (stack s) n W Hprog Hblock project E HE) as Hend.
  destruct Hpos as [[Hi (prev & D & Hprev & Hedge & Harr)]|(i & Hskip & Hge & Ha)].
  - rewrite (insts_to_skip_start _ Hi) in Hlight |- *. apply (runs_ok 0%nat).
    apply (explores_phis (module (cur_loc s)) (func (cur_loc s)) (bb (cur_loc s)) (stack s) n W Hprog Hblock project squash_unsats E HE _
             (fun first p s' Hr Ha Hl => Hend s' first p Hr Ha Hl) prev D (path s) (length (phis (bb (cur_loc s))) - 0) Hprev Hedge 0 []); try done; [lia|..].
    + rewrite drop_0. by apply andb_prop in Hedge as [? _].
    + by eapply phis_start.
    + by apply Hlight.
  - rewrite Hskip. apply (runs_ok i).
    eapply (explores_body (module (cur_loc s)) (func (cur_loc s)) (bb (cur_loc s)) (stack s) n W Hprog Hblock project squash_unsats E HE _
             (fun first p s' Hr Ha Hl => Hend s' first p Hr Ha Hl)); try done; [by apply insts_to_skip_le|by apply Hlight].
Qed.

Lemma engine_explores `{CB : !ObservingCallbacks} project squash_unsats n : engine_ok n (engine project squash_unsats n).
Proof.
  induction n as [|n IH].
  - split; intros s Hs; cbn; left; (split; [done|]); intros Hr; [|lia..]. pose proof (state_weight_pos s (proj1 Hs) Hr). lia.
  - split; cbn; intros s.
    + by apply explores_through.
    + by apply explores_revert.
    + by apply explores_from.
Qed.

End calls.
