(* ===== verification/PathStart.v ===== *)
(** * PathStart: the start of an exploration

    What [symex_function] makes: a new state, in which nothing is asserted or
    saved and only the parameters are bound.  Before the first path the caller
    may give values to parameters and assert what it assumes of the inputs
    ([prepared]), and between the paths it may query and assert ([used]). *)
From S2P Require Import Prelude Bits Backend ToySolver SolverUtils MemorySpec Memory Alloc LLVMIR Project Layout VarMap Watchpoints FunctionHooks GlobalAllocations Config State Operands HookUtils Hooks SymexInstr Symex StateTheorems SymexTheorems LevelTheorems InstrTheorems DataTheorems Analyses Concrete PathVariables PathMeasure PathState PathTerminators PathBlocks.

Open Scope Z_scope.

(** ** The start of an exploration *)

Section start.
Context `{Laws : BackendLaws} `{Dec : !Decides} `{MOps : !MemoryOps} `{MLaws : !MemoryLaws} `{L : LLVM}.
Context `{CF : ConstFuel} `{UC : !UserCode}.
Implicit Types (s : State) (vm : VarMap) (m : Model) (env : Env) (k : Counts).

(** Making a state allocates globals, functions and hooks, and does nothing
    else to it. *)
Definition allocates {A} (c : M State A) : Prop :=
  forall s, ends c s (fun _ s' => exists a ga, s' = set_allocator a (set_global_allocations ga s)).

Lemma allocates_ret {A} (a : A) : allocates (mret a).
Proof. intros s. exists (allocator s), (global_allocations s). by destruct s. Qed.
Lemma allocates_lift {A} (c : outcome A) : allocates (lift c).
Proof. intros s. destruct c; [apply (allocates_ret a)|apply (allocates_ret tt s)|done|done]. Qed.
Lemma allocates_get : allocates get.
Proof. intros s. apply (allocates_ret s s). Qed.
Lemma allocates_bind {A B} (c : M State A) (g : A -> M State B) : allocates c -> (forall a, allocates (g a)) -> allocates (c ≫= g).
Proof.
  intros Hc Hg s. apply ends_bind. eapply ends_mono; [apply Hc|]. intros r s' (a & ga & ->). destruct r as [x|e|p|]; try done; [|eauto].
  eapply ends_mono; [apply Hg|]. intros r s'' (a' & ga' & ->). by exists a', ga'.
Qed.
Lemma allocates_forM {A} (xs : list A) g : (forall x, allocates (g x)) -> allocates (forM xs g).
Proof. intros Hg. induction xs as [|x xs IH]; cbn [forM]; [apply allocates_ret|]. by apply allocates_bind. Qed.
Lemma allocates_raw bits : allocates (raw_alloc bits).
Proof.
  unfold raw_alloc. apply allocates_bind; [apply allocates_get|]. intros s0. apply allocates_bind; [apply allocates_lift|].
  intros [addr a]. apply allocates_bind; [|intros; apply allocates_ret]. intros s. exists a, (global_allocations s). by destruct s.
Qed.
Lemma allocates_set g : (forall s, exists ga, g s = set_global_allocations ga s) -> allocates (modify g).
Proof. intros Hg s. destruct (Hg s) as [ga E]. exists (allocator s), ga. cbn. rewrite E. by destruct s. Qed.
Lemma allocates_allocate bits : allocates (allocate bits).
Proof. unfold allocate. apply allocates_bind; [apply allocates_raw|intros]. apply allocates_ret. Qed.

Lemma from_iter_in l name w e : from_iter l !! name = Some (w, e) -> (name, w) ∈ l.
Proof.
  unfold from_iter. induction l as [|[n w'] l IH] using rev_ind; [done|]. rewrite foldl_app, elem_of_app, list_elem_of_singleton. cbn.
  rewrite lookup_insert. case_decide; [intros [= <- <-]; subst; by right|]. intros. left. by apply IH.
Qed.

(** A new state: nothing is asserted, bound or saved. *)
Record fresh_state (l : Location) (cfg : Config) s : Prop := {
  fresh_loc : cur_loc s = l;
  fresh_stack : stack s = [];
  fresh_points : backtrack_points s = [];
  fresh_path : path s = [];
  fresh_solver : same_solver solver_new (solver s);
  fresh_active : active_version (varmap s) = ∅;
  fresh_version : version_num (varmap s) = ∅;
  fresh_max : max_version_num (varmap s) = loop_bound cfg - 1;
  fresh_mem : mem_wf (mem s);
  fresh_watch name w e : mem_watchpoints s !! name = Some (w, e) -> initial_mem_watchpoints cfg !! name = Some w;
  fresh_config : function_hooks (config s) = function_hooks cfg /\ max_callstack_depth (config s) = max_callstack_depth cfg /\
    null_pointer_checking (config s) = null_pointer_checking cfg /\ initial_mem_watchpoints (config s) = initial_mem_watchpoints cfg
}.
Lemma state_new_fresh project l cfg s : state_new project l cfg = Ok s -> fresh_state l cfg s.
Proof.
  unfold state_new. unfold varmap_new. destruct (u64_sub _ 1) as [mx|e|p|] eqn:Emx; [|done..]. cbn [mbind outcome_bind].
  assert (mx = loop_bound cfg - 1) as ->.
  { unfold u64_sub in Emx. destruct (1 <=? _); [|done]. injection Emx as <-. by destruct (demangling cfg). }
  pose proof (new_uninitialized_law (match null_pointer_checking (match demangling cfg with
                 | None => set_demangling (Some (autodetect project)) cfg | Some _ => cfg end) with
    | NPSimple => true | NPSplitPath => true | NPNone => false end) None solver_new) as Hmem.
  destruct (MemorySpec.new_uninitialized _ None solver_new) as [m sol]. destruct Hmem as (Hwf & _ & Hsol).
  destruct intrinsic_hooks_new as [ih|e|p|]; [|done..]. cbn [mbind outcome_bind mret outcome_ret].
  cbv zeta. match goal with |- match ?x with _ => _ end = _ -> _ =>
    match x with ?c ?s0 => set (init := s0); assert (allocates c) as Hc end end.
  { apply allocates_bind; [|intros _; apply allocates_bind; [|intros _; apply allocates_bind; [apply allocates_get|intros s0]]];
      apply allocates_forM.
    - intros [var md]. destruct (gv_ty var); try done.
      repeat (apply allocates_bind; [first [apply allocates_lift|apply allocates_allocate|apply allocates_get]|intros]).
      apply allocates_set. eauto.
    - intros [fn md].
      repeat (apply allocates_bind; [first [apply allocates_lift|apply allocates_raw|apply allocates_get]|intros]).
      apply allocates_set. eauto.
    - intros [n h]. apply allocates_bind; [apply allocates_raw|intros]. apply allocates_set. eauto. }
  specialize (Hc init). unfold ends in Hc.
  match type of Hc with match ?x with _ => _ end => destruct x as [[[]|e|p|] s'] end; [|done..]. intros [= <-].
  destruct Hc as (a & ga & ->). split; try done; cbn; [|by destruct (demangling cfg)].
  intros name w e Hw%from_iter_in. apply elem_of_map_to_list in Hw. cbn in Hw. by destruct (demangling cfg).
Qed.

Context (widths : string -> gmap Name Z) (mx : Z) (f : Function_) {mx_fits : VersionsFit mx}.
Abbreviation fn := (func_name f).

Lemma ends_new_bv n w s (Q : outcome BV -> State -> Prop) :
  0 < w -> func (cur_loc s) = f -> versions_ok mx (varmap s) ->
  (forall bv vm sol, get_width bv = w -> assigned mx (varmap s) fn n bv vm -> same_solver (solver s) sol ->
     Q (Ok bv) (set_solver sol (set_varmap vm s))) ->
  (forall e s', Q (Err e) s') -> max_version_num (varmap s) = mx -> ends (State.new_bv_with_name n w) s Q.
Proof.
  intros Hw Hf Hvs HQ He Hmx. unfold State.new_bv_with_name. apply ends_bind. unfold ends at 1, get.
  assert (cur_fn s = fn) as -> by (unfold cur_fn; by rewrite Hf).
  assert (ends (VarMap.new_bv_with_name fn n w) (varmap s, solver s) (fun r vs =>
    match r with Ok bv => get_width bv = w /\ assigned mx (varmap s) fn n bv vs.1 /\ same_solver (solver s) vs.2 | _ => True end)) as Hn.
  { unfold VarMap.new_bv_with_name, new_version_of_name.
    pose proof (runs_bump mx fn n (varmap s) (fun r vm =>
      match r with
      | Ok v => active_version vm = active_version (varmap s) /\ max_version_num vm = max_version_num (varmap s) /\
          version_num vm = <[(fn, n) := v]> (version_num (varmap s)) /\
          v = match version_num (varmap s) !! (fn, n) with Some v => v + 1 | None => 0 end /\
          forall k, counts_ok (varmap s) k -> counts_ok vm (bump fn n k)
      | _ => True end) Hvs) as Hb.
    unfold runs, ends, mbind, M_bind, zoom, modify, get in *. cbn [fst snd].
    specialize (Hb ltac:(intros v vm Ea Em Ev Hv Hk; split_and!; [done..|]; intros k Hc; by apply Hk)).
    destruct (bump_version _ _ _) as [[v|e|p|] vm]; try done. destruct Hb as (Hba & Hbm & Ev & Hv & Hbk).
    destruct (Z.ltb_spec (max_version_num vm) v) as [|Hle]; [done|].
    cbn. pose proof (bv_new_law w (Some (build_versioned_name fn n v)) (solver s) Hw) as Hl.
    destruct (bv_new w _ (solver s)) as [bv sol]. destruct Hl as (W & Ha & Hg). cbn. split; [done|].
    split; [|done]. split; [unfold DoubleKeyedMap.insert; cbn; by rewrite Hba|done| |done]. exists v. split; [done|]. split; [lia|done]. }
  unfold ends, zoom in *. destruct (VarMap.new_bv_with_name _ _ _ _) as [[bv|e|p|] [vm sol]]; [|apply He|done|done].
  cbn. by apply HQ; apply Hn.
Qed.

Lemma size_opaque_value project ty w : value_width ty = Some w -> size_opaque_aware ty project = Ok (Some w).
Proof. intros Hw. unfold size_opaque_aware. destruct ty; try done; destruct (length struct_types); cbn; by rewrite (size_value _ _ Hw). Qed.

(** The parameters are bound to new variables. *)
Record params_new s (ps : list Parameter_) (bvs : list BV) vm sol : Prop := {
  new_fit : args_fit ps bvs;
  new_solver : same_solver (solver s) sol;
  new_vars : vars_ok widths mx vm;
  new_bound m env k : env_ok m (varmap s) fn env -> counts_ok (varmap s) k ->
    let st := bind_all fn (env, k) (bindings m ps bvs) in env_ok m vm fn st.1 /\ counts_ok vm st.2
}.
Lemma ends_params project ps : forall s,
  func (cur_loc s) = f -> vars_ok widths mx (varmap s) -> forallb (param_ok widths f) ps = true ->
  ends (mapMM (fun param =>
      sz ← lift (size_opaque_aware (param_ty param) project);
      param_size ← lift (expect "Parameter type is a struct opaque in the entire Project" sz);
      r ← catch (State.new_bv_with_name (param_name param) (as_u32 param_size));
      lift (match r with Err _ => Panic "called `Result::unwrap()` on an `Err` value" | r => r end)) ps) s
    (fun r s' => match r with
       | Ok bvs => exists vm sol, s' = set_solver sol (set_varmap vm s) /\ params_new s ps bvs vm sol
       | _ => True end).
Proof.
  induction ps as [|p ps IH]; intros s Hf Hvars Hps; cbn [mapMM].
  { exists (varmap s), (solver s). split; [by destruct s|]. by split; [constructor| | |]. }
  cbn in Hps. apply andb_prop in Hps as [Hp Hps]. unfold param_ok in Hp.
  destruct (value_width (param_ty p)) as [w|] eqn:Ety; [|done].
  apply andb_prop in Hp as [Hw%bool_decide_eq_true Hok%width_ok_inv].
  apply ends_bind, ends_bind. rewrite (size_opaque_value _ _ _ Ety). unfold ends at 1, lift. apply (ends_ok w), ends_bind, ends_catch.
  unfold as_u32. rewrite Z.mod_small by lia. apply ends_new_bv; [lia|done|apply Hvars| |done|apply Hvars].
  intros bv vm sol W Hb Hsol. unfold ends at 1. cbn. assert (vars_ok widths mx vm) as Hvm by (eapply assigned_vars; [done|congruence|done]).
  apply ends_bind. eapply ends_mono; [by apply IH|].
  intros [bvs|e|msg|] s'; try done. intros (vm' & sol' & -> & [Hfit Hsol' Hv He]). cbn. exists vm', sol'. split; [done|]. split.
  - constructor; [|done]. by rewrite W.
  - cbn in Hsol'. by etrans.
  - done.
  - intros m env k Henv Hk. apply He; [by eapply assigned_env|by apply Hb].
Qed.

End start.

(** ** What the caller does *)

Section callers.
Context `{Laws : BackendLaws} `{MOps : !MemoryOps} `{L : LLVM}.

(** What a caller may do with the state of a path it was given: query the
    solver and assert in its innermost level, which [next] pops before it goes
    on. *)
Definition used `{MOps : !MemoryOps} `{L : LLVM} (s s' : State) : Prop :=
  exists sol, s' = set_solver sol s /\ model_gen sol = model_gen (solver s) /\
    exists l l' ls, assertions (solver s) = l :: ls /\ assertions sol = l' :: ls.

(** Before the first path it may bind parameters to other terms and assert in
    the same way. *)
Definition fixes (f : Function_) (s s' : State) : Prop :=
  exists p bv, p ∈ func_parameters f /\ value_width (param_ty p) = Some (get_width bv) /\
    State.overwrite_latest_version_of_bv (param_name p) bv s = (Ok tt, s').
Definition prepared (f : Function_) (em0 em : ExecutionManager) : Prop :=
  exists s1 s, rtc (fixes f) (em_state em0) s1 /\ used s1 s /\ satisfiable (solver s) /\ em = set_em_state s em0.

Lemma overwrite_inv n bv s s' :
  State.overwrite_latest_version_of_bv n bv s = (Ok tt, s') <->
  is_Some (binding (varmap s) (cur_fn s) n) /\
  s' = set_varmap (set_active (<[(cur_fn s, n) := bv]> (active_version (varmap s))) (varmap s)) s.
Proof.
  unfold State.overwrite_latest_version_of_bv, VarMap.overwrite_latest_version_of_bv, on_varmap, zoom, binding, DoubleKeyedMap.get, DoubleKeyedMap.insert.
  unfold mbind, M_bind, get, modify. cbn. destruct (active_version (varmap s) !! (cur_fn s, n)) eqn:E; cbn.
  - split; [intros [= <-]; by eauto|by intros [_ ->]].
  - split; [done|by intros [[? ?] _]].
Qed.

(** The values of the parameters in a model. *)
Definition param_value vm (f : Function_) (m : Model) (p : Parameter_) : Z :=
  match binding vm (func_name f) (param_name p) with Some bv => eval m bv | None => 0 end.

(** [vm'] is [vm] with other terms for names that are bound. *)
Record rebound (ws : string -> gmap Name Z) vm vm' : Prop := {
  rebound_version : version_num vm' = version_num vm;
  rebound_max : max_version_num vm' = max_version_num vm;
  rebound_bound fn n : is_Some (binding vm fn n) -> is_Some (binding vm' fn n);
  rebound_width fn n bv : binding vm' fn n = Some bv -> binding vm fn n = Some bv \/ ws fn !! n = Some (get_width bv)
}.
Lemma rebound_refl ws vm : rebound ws vm vm.
Proof. split; auto. Qed.
Lemma rebound_vars ws mx vm vm' : rebound ws vm vm' -> vars_ok ws mx vm -> vars_ok ws mx vm'.
Proof.
  intros [Hv Hm _ Hw] (Ht & Hmx & Hver). split; [|split; [by rewrite Hm|by intros fn n; rewrite Hv; apply Hver]].
  intros fn n bv [?|?]%Hw; [by apply Ht|done].
Qed.

(** The program starts with these values. *)
Lemma bind_all_values fn (val : Name -> Z) ns env k : (forall n v, env !! n = Some v -> v = val n) ->
  forall n v, (bind_all fn (env, k) (zip ns (val <$> ns))).1 !! n = Some v -> v = val n.
Proof.
  revert env k. induction ns as [|n0 ns IH]; intros env k He; [exact He|]. apply IH. intros n v. rewrite lookup_insert.
  case_decide as E; [intros [= <-]; by rewrite <- E|apply He].
Qed.
Lemma bind_all_lookup fn st ns vs i n v : NoDup ns -> ns !! i = Some n -> vs !! i = Some v -> (bind_all fn st (zip ns vs)).1 !! n = Some v.
Proof.
  revert st vs i. induction ns as [|n0 ns IH]; intros st [|v0 vs] i Hnd Hn Hv; try done. apply NoDup_cons in Hnd as [Hn0 Hnd].
  destruct i as [|i]; [|by apply (IH _ vs i)]. injection Hn as ->. injection Hv as ->. cbn [zip]. unfold bind_all. cbn [foldl zip_with].
  fold (bind_all fn (bind fn st (n, v)) (zip ns vs)). rewrite bind_all_other; [by cbn; rewrite lookup_insert_eq|].
  intros (y & -> & Hy)%list_elem_of_fmap. destruct y. by apply elem_of_zip_l in Hy.
Qed.
Lemma bind_all_counts fn bs bs' env env' k : bs.*1 = bs'.*1 -> (bind_all fn (env, k) bs).2 = (bind_all fn (env', k) bs').2.
Proof.
  revert bs' env env' k. induction bs as [|[n v] bs IH]; intros [|[n' v'] bs'] env env' k; try done. cbn. intros [= -> E]. by apply IH.
Qed.
Lemma starts_with_values ws mx f s ps bvs vm sol vm1 m :
  params_new ws mx f s ps bvs vm sol -> rebound ws vm vm1 -> version_num (varmap s) = ∅ ->
  let st := bind_all (func_name f) (∅, ∅) (zip (param_name <$> ps) (param_value vm1 f m <$> ps)) in
  env_ok m vm1 (func_name f) st.1 /\ counts_ok vm1 st.2 /\ dom st.1 = list_to_set (param_name <$> ps).
Proof.
  intros [Hfit _ _ Hb] [Hv _ Hbd _] Hv0. cbn zeta.
  set (val := fun n => match binding vm1 (func_name f) n with Some bv => eval m bv | None => 0 end).
  assert (param_value vm1 f m <$> ps = val <$> (param_name <$> ps)) as -> by (rewrite <- list_fmap_compose; by apply list_fmap_ext).
  assert ((bindings m ps bvs).*1 = param_name <$> ps) as Hn1.
  { unfold bindings. apply fst_zip. rewrite !length_fmap. by rewrite (Forall2_length _ _ _ Hfit). }
  assert ((zip (param_name <$> ps) (val <$> (param_name <$> ps))).*1 = param_name <$> ps) as Hn2 by (apply fst_zip; by rewrite !length_fmap).
  destruct (Hb m ∅ ∅) as [He Hk]; [by intros n v Hn; rewrite lookup_empty in Hn|by intros fn' n v; rewrite Hv0|]. cbn in He, Hk.
  assert (dom (bind_all (func_name f) (∅, ∅) (zip (param_name <$> ps) (val <$> (param_name <$> ps)))).1 = list_to_set (param_name <$> ps)) as Hdom.
  { rewrite bind_all_dom, Hn2. cbn. set_solver. }
  split_and!; [| |done].
  - intros n v Hn. pose proof (bind_all_values (func_name f) val _ ∅ ∅ ltac:(by intros n' v' Hl; rewrite lookup_empty in Hl) n v Hn) as ->.
    assert (n ∈ dom (bind_all (func_name f) (∅, ∅) (bindings m ps bvs)).1) as [v Hv']%elem_of_dom.
    { rewrite bind_all_dom, Hn1. apply elem_of_union_r. rewrite <- Hdom. by apply elem_of_dom. }
    destruct (He n v Hv') as (bv & Hbv & _). destruct (Hbd (func_name f) n ltac:(by exists bv)) as [bv' E]. exists bv'. unfold val. by rewrite E.
  - intros fn n v. rewrite Hv, (bind_all_counts _ _ (bindings m ps bvs) ∅ ∅) by by rewrite Hn1. apply Hk.
Qed.

Lemma new_values_of ws mx f s ps bvs vm sol m :
  params_new ws mx f s ps bvs vm sol -> version_num (varmap s) = ∅ -> NoDup (param_name <$> ps) -> param_value vm f m <$> ps = eval m <$> bvs.
Proof.
  intros [Hfit _ _ Hb] Hv0 Hnd. destruct (Hb m ∅ ∅) as [He _]; [by intros n v Hn; rewrite lookup_empty in Hn|by intros fn' n v; rewrite Hv0|].
  apply list_eq_Forall2, Forall2_fmap, Forall2_same_length_lookup. pose proof (Forall2_length _ _ _ Hfit) as Hlen. split; [done|].
  intros i p bv Hp Hbv. destruct (He (param_name p) (eval m bv)) as (bv' & Hl & <-).
  - apply (bind_all_lookup _ _ _ _ i); [done|by rewrite list_lookup_fmap, Hp|by rewrite list_lookup_fmap, Hbv].
  - unfold param_value. by rewrite Hl.
Qed.

Lemma fixes_rebound ws f s s1 :
  forallb (param_ok ws f) (func_parameters f) = true -> func (cur_loc s) = f -> rtc (fixes f) s s1 ->
  exists vm, s1 = set_varmap vm s /\ rebound ws (varmap s) vm.
Proof.
  intros Hps Hf Hs. induction Hs as [s|s s2 s3 (p & bv & Hp & Hw & [[bv0 Hb] ->]%overwrite_inv) _ IH].
  { exists (varmap s). split; [by destruct s|apply rebound_refl]. }
  destruct (IH Hf) as (vm & -> & [Hv Hm Hbd Hwd]). exists vm. split; [done|]. cbn in *.
  assert (cur_fn s = func_name f) as Efn by (unfold cur_fn; by rewrite Hf). rewrite Efn in *. split; [done|done|..].
  - intros fn n [bv' Hn]. apply Hbd. unfold binding. cbn. rewrite lookup_insert. case_decide; eauto.
  - intros fn n bv' [Hn|?]%Hwd; [|by right]. unfold binding in Hn |- *. cbn in Hn. rewrite lookup_insert in Hn. case_decide as E; [|by left].
    injection E as <- <-. injection Hn as <-. right. rewrite forallb_forall in Hps. specialize (Hps p (proj1 (list_elem_of_In _ _) Hp)).
    unfold param_ok in Hps. rewrite Hw in Hps. apply andb_prop in Hps as [Hps%bool_decide_eq_true _]. exact Hps.
Qed.

End callers.
