(* ===== verification/PathTheorems.v ===== *)
(** * PathTheorems: an exploration is the executions of the program

    Once [symex_function] has made the state, and the engine keeps its promises
    (PathBlocks.v), what [next] returns is what the program does.  A path that
    ends with a result can be taken, and each model of its constraints is an
    execution of the reference semantics (Concrete.v) with this result; and
    when there are no more paths, each choice of inputs was on one of them,
    unless the program goes beyond the loop bound on it.  The programs may call
    functions, also themselves, and read and write memory.  The caller may
    fix parameters and assume something of the inputs before the first path
    ([prepared] of PathStart.v): then all this is about the inputs it assumes. *)
From S2P Require Import Prelude Bits Backend ToySolver SolverUtils MemorySpec Memory Alloc LLVMIR Project Layout VarMap Watchpoints FunctionHooks GlobalAllocations Config State Operands HookUtils Hooks SymexInstr Symex StateTheorems SymexTheorems LevelTheorems InstrTheorems DataTheorems Analyses EngineTheorems Concrete PathVariables PathMeasure PathState PathTerminators PathBlocks PathStart.

Open Scope Z_scope.

(** ** The managers of an exploration *)

Section managers.
Context `{Laws : BackendLaws}.

Context `{Dec : !Decides} `{MOps : !MemoryOps} `{L : LLVM} `{CF : ConstFuel} `{UC : !UserCode}.

(** The paths that were explored from [em] on, each with its result and the
    state at its end; an error is a result. *)
Inductive visits (em : ExecutionManager) : list (outcome (ReturnValue BV) * State) -> ExecutionManager -> Prop :=
| visits_none : visits em [] em
| visits_path vs em1 n r em2 :
    visits em vs em1 -> next n em1 = (Ok (Some r), em2) -> visits em (vs ++ [(r, em_state em2)]) em2
| visits_use vs em1 s : visits em vs em1 -> em_fresh em1 = false -> used (em_state em1) s -> visits em vs (set_em_state s em1).

(** The paths one after the other, until there are no more. *)
Fixpoint all_paths (rounds n : nat) (em : ExecutionManager) : outcome (list (outcome (ReturnValue BV) * State)) * ExecutionManager :=
  match rounds with
  | O => (OutOfFuel, em)
  | S rounds =>
      match next n em with
      | (Ok (Some r), em1) => let '(vs, em2) := all_paths rounds n em1 in (vs ← vs; Ok ((r, em_state em1) :: vs), em2)
      | (Ok None, em1) => (Ok [], em1)
      | (Err e, em1) => (Err e, em1)
      | (Panic p, em1) => (Panic p, em1)
      | (OutOfFuel, em1) => (OutOfFuel, em1)
      end
  end.
Lemma all_paths_more n n' rounds rounds' : forall em vs em',
  (n <= n')%nat -> (rounds <= rounds')%nat -> all_paths rounds n em = (Ok vs, em') -> all_paths rounds' n' em = (Ok vs, em').
Proof.
  revert rounds'. induction rounds as [|rounds IH]; intros [|rounds'] em vs em' Hn Hle; try done; [lia|]. cbn [all_paths].
  destruct (next n em) as [r em1] eqn:En. assert (r <> OutOfFuel -> next n' em = (r, em1)) as Hmore.
  { intros Hr. rewrite <- En. apply next_fuel_independent; [by rewrite En|done]. }
  destruct r as [[r|]|e|p|]; try done; rewrite Hmore by done; [|done]. destruct (all_paths rounds n em1) as [[vs1|e|p|] em2] eqn:Ea; try done.
  intros [= <- <-]. rewrite (IH rounds' em1 vs1 em2); [done..|lia|done].
Qed.

End managers.

(** ** Explorations *)

(** The exploration of the function [f] of a program whose functions are those
    of Concrete.v, from the manager [em] that [symex_function] returns, after
    the caller has fixed parameters and asserted its assumptions. *)
Record explored `{Laws : BackendLaws} `{MOps : !MemoryOps} `{L : LLVM} `{CF : ConstFuel} `{UC : !UserCode}
    (funcname : string) (project : Project) (cfg : Config) (f : Function_) (md : Module_)
    (widths : string -> gmap Name Z) (bound_in : string -> Name -> gset Name) (program : list (Function_ * Module_))
    (em : ExecutionManager) : Prop := {
  explored_start : exists em0, symex_function funcname project cfg = Ok em0 /\ prepared f em0 em;
  explored_function : Project.get_func_by_name project funcname = Ok (Some (f, md));
  explored_main : (f, md) ∈ program;
  explored_bound : loop_bound cfg <= u64_max;
  explored_fits : program_fits (global_allocations (em_state em)) cfg widths bound_in program
}.

Section explorations.
Context `{Laws : BackendLaws} `{Dec : !Decides} `{MOps : !MemoryOps} `{MLaws : !MemoryLaws} `{L : LLVM}.
Context `{CF : ConstFuel} `{EF : !EnoughFuel} `{UC : !UserCode} `{CB : !ObservingCallbacks}.
Context (funcname : string) (project : Project) (cfg : Config) (f : Function_) (md : Module_).
Context (widths : string -> gmap Name Z) (bound_in : string -> Name -> gset Name) (program : list (Function_ * Module_)).
Implicit Types (s : State) (m : Model) (em : ExecutionManager).
Abbreviation explored_from := (explored funcname project cfg f md widths bound_in program).

(** The functions that the names refer to, and the inputs of the function in a
    model: the values of what its parameters are bound to, and the memory at
    the start. *)
Definition linked_in em : Module_ -> string -> option (Function_ * Module_) := linked (global_allocations (em_state em)).
Definition inputs_of em m : list Z := param_value (varmap (em_state em)) f m <$> func_parameters f.
Definition memory_of em m : Mem := mem_bit (mem (em_state em)) m.
Definition returns_in em m (v : option Z) : Prop := returns_on (linked_in em) md f (inputs_of em m) (memory_of em m) v.
Definition loops_in em m : Prop := loops_beyond (linked_in em) (loop_bound cfg) md f (inputs_of em m) (memory_of em m).

Definition setting_of (rk : Ranking) em : Setting := {|
  globals := global_allocations (em_state em);
  settings := config (em_state em);
  max_version := loop_bound cfg - 1;
  PathMeasure.widths := widths;
  PathMeasure.bound_in := bound_in;
  PathMeasure.program := program;
  main := f;
  main_module := md;
  inputs := inputs_of em;
  initial := memory_of em;
  assumes := models (solver (em_state em));
  PathMeasure.ranking := rk
|}.

Lemma exceeds_loops rk em m : exceeds (X := setting_of rk em) m <-> models (solver (em_state em)) m /\ loops_in em m.
Proof.
  unfold exceeds, loops_in, loops_beyond, reach. cbn. replace (loop_bound cfg - 1 + 1) with (loop_bound cfg) by lia. naive_solver.
Qed.

(** The manager that [symex_function] makes. *)
Lemma new_manager em0 :
  symex_function funcname project cfg = Ok em0 -> Project.get_func_by_name project funcname = Ok (Some (f, md)) ->
  loop_bound cfg <= u64_max -> forallb (param_ok widths f) (func_parameters f) = true ->
  exists entry s0 bvs vm sol, func_basic_blocks f !! 0%nat = Some entry /\
    em0 = em_new (set_solver sol (set_varmap vm s0)) project bvs (squash_unsats cfg) /\
    fresh_state {| module := md; func := f; bb := entry; instr := Instr 0; source_loc := None |} cfg s0 /\
    params_new widths (loop_bound cfg - 1) f s0 (func_parameters f) bvs vm sol.
Proof.
  unfold symex_function. intros He Hfunc Hbound Hps. rewrite Hfunc in He. cbn [mbind outcome_bind expect] in He.
  apply bind_ok in He as (entry & Hentry & He). apply bind_ok in He as (s0 & Hs0 & He).
  destruct (func_basic_blocks f !! 0%nat) as [entry'|] eqn:Eb; [|done]. injection Hentry as ->. apply state_new_fresh in Hs0.
  assert (func (cur_loc s0) = f) as Hf0 by by rewrite (fresh_loc _ _ _ Hs0).
  assert (VersionsFit (loop_bound cfg - 1)) as Hfit by (unfold VersionsFit; lia).
  assert (vars_ok widths (loop_bound cfg - 1) (varmap s0)) as Hvars.
  { destruct Hs0 as [_ _ _ _ _ Hact Hver Hmx _ _ _]. split; [|split; [done|]]; intros fn' n x; unfold binding; by rewrite ?Hact, ?Hver. }
  pose proof (ends_params widths (loop_bound cfg - 1) f project (func_parameters f) s0 Hf0 Hvars Hps) as Hparams.
  unfold ends in Hparams. destruct (mapMM _ _ s0) as [[bvs|e|p|] s'] eqn:Em in He, Hparams; try done.
  injection He as <-. destruct Hparams as (vm & sol & -> & Hnew). by exists entry, s0, bvs, vm, sol.
Qed.
Lemma new_solver_ok em0 entry s0 bvs vm sol : em0 = em_new (set_solver sol (set_varmap vm s0)) project bvs (squash_unsats cfg) ->
  fresh_state entry cfg s0 -> params_new widths (loop_bound cfg - 1) f s0 (func_parameters f) bvs vm sol ->
  model_gen (solver (em_state em0)) = false /\ solver_ok (solver (em_state em0)) /\ forall m, models (solver (em_state em0)) m.
Proof.
  intros -> Hs0 Hnew. assert (same_solver solver_new sol) as [Ea Eg] by (etrans; [apply (fresh_solver _ _ _ Hs0)|apply (new_solver _ _ _ _ _ _ _ _ Hnew)]).
  destruct solver_new_law as [En Gn]. rewrite En in Ea. rewrite Gn in Eg. cbn. split; [done|]. split; [unfold solver_ok; by rewrite Ea|].
  intros m. unfold models. rewrite Ea. constructor.
Qed.

(** Nothing has to be assumed. *)
Lemma explored_new `{Inh : !Inhabited Model} em0 :
  symex_function funcname project cfg = Ok em0 -> Project.get_func_by_name project funcname = Ok (Some (f, md)) -> (f, md) ∈ program ->
  loop_bound cfg <= u64_max -> program_fits (global_allocations (em_state em0)) cfg widths bound_in program -> explored_from em0.
Proof.
  intros He Hfunc Hmain Hbound Hfits. split; try done. exists em0. split; [done|].
  pose proof (fits_ok _ _ _ _ _ Hfits) as Hok. unfold program_ok in Hok. rewrite Forall_forall in Hok. destruct (Hok _ Hmain) as [Hf _].
  unfold function_ok in Hf. rewrite !andb_true_iff in Hf. destruct Hf as [[[Hps _] _] _].
  destruct (new_manager _ He Hfunc Hbound Hps) as (entry & s0 & bvs & vm & sol & _ & E & Hs0 & Hp).
  destruct (new_solver_ok _ _ _ _ _ _ E Hs0 Hp) as (_ & O & Hall).
  exists (em_state em0), (em_state em0). split; [done|]. split; [|split; [by exists inhabitant|by destruct em0]].
  unfold used, solver_ok in *. destruct (em_state em0); cbn in *. exists solver. split; [done|]. split; [done|].
  destruct (assertions solver) as [|l ls]; [done|]. by exists l, l, ls.
Qed.

Lemma explored_alive rk em :
  explored_from em ->
  Fits (setting_of rk em) /\ alive (X := setting_of rk em) (em_state em) /\ em_fresh em = true /\
  func (cur_loc (em_state em)) = f /\ stack (em_state em) = [] /\ args_fit (func_parameters f) (em_bvparams em) /\
  backtrack_points (em_state em) = [].
Proof.
  intros [(em0 & He' & s1 & s2 & Hfix & Huse & Hsat & ->) Hfunc Hmain Hbound [Hok Hblocks Hdepth Hnull Hwatch Hhooks]]. cbn [em_state set_em_state] in *.
  assert (function_ok (linked (global_allocations s2)) widths bound_in md f = true) as Hf.
  { unfold program_ok in Hok. rewrite Forall_forall in Hok. by destruct (Hok _ Hmain). }
  unfold function_ok in Hf. rewrite !andb_true_iff in Hf. destruct Hf as [[[Hps _] Hedge] _].
  destruct (new_manager em0 He' Hfunc Hbound Hps) as (entry & s0 & bvs & vm & sol0 & Eb & -> & Hs0 & Hnew).
  destruct (new_solver_ok _ _ _ _ _ _ eq_refl Hs0 Hnew) as (Eg & _ & _).
  assert (func (cur_loc s0) = f) as Hf0 by by rewrite (fresh_loc _ _ _ Hs0).
  destruct (fixes_rebound widths f (set_solver sol0 (set_varmap vm s0)) _ Hps Hf0 Hfix) as (vm1 & -> & Hre). cbn in Hre, Huse, Eg.
  pose proof (fun m => starts_with_values _ _ _ _ _ _ _ _ _ m Hnew Hre (fresh_version _ _ _ Hs0)) as Hstart.
  pose proof (rebound_vars _ _ _ _ Hre (new_vars _ _ _ _ _ _ _ _ Hnew)) as Hvm. pose proof (new_fit _ _ _ _ _ _ _ _ Hnew) as Hargs.
  destruct Hs0 as [Hl Hst Hbt Hp Hsol Hact Hver Hmx Hmem Hwt (Hfh & Hcd & Hnp & Hiw)].
  destruct Huse as (sol & -> & Hg & l0 & l & ls & _ & Ea). cbn in Hg, Hsat. rewrite Eg in Hg.
  cbn [em_state em_bvparams em_new em_fresh cur_loc stack set_solver set_varmap backtrack_points solver em_state set_em_state]. rewrite Hl.
  split; [|split; [|by split_and!]].
  { split; [|unfold VersionsFit; cbn; lia]. split; try done; cbn; [by rewrite Hcd|by rewrite Hnp|by rewrite Hiw|by rewrite Hfh]. }
  assert (entry ∈ func_basic_blocks f) as Hin by by eapply list_elem_of_lookup_2.
  destruct (func_basic_blocks f) as [|b0 bs] eqn:Ebs; [done|]. cbn in Eb. injection Eb as ->.
  split; [|split].
  - split; cbn; rewrite ?Hl; cbn; [|unfold ctx_ok; cbn; by rewrite Hl, Hst|by rewrite Ebs].
    split; try done; cbn; [unfold solver_ok; by rewrite Ea|by rewrite Hp, Hbt|]. intros name w e Hw%Hwt. by apply (Hwatch name).
  - exact Hsat.
  - left. cbn. rewrite Hl. split; [done|]. exists None, (list_to_set (param_name <$> func_parameters f)).
    split; [by left|]. split; [cbn; rewrite Hl; exact Hedge|]. intros m Hm. unfold at_conf. cbn. rewrite Hl, Hst. cbn.
    destruct (Hstart m) as (Henv & Hk & Hdom).
    set (st := bind_all (func_name f) (∅, ∅) (zip (param_name <$> func_parameters f) (param_value vm1 f m <$> func_parameters f))) in *.
    exists st.1, [], st.2. split; [done|]. split; [|split; [done|split; [constructor|]]].
    + unfold defined. by rewrite Hdom.
    + split; [exact Hm|]. eexists. split; [|apply rtc_refl]. unfold called. cbn. rewrite Ebs. cbn. unfold inputs_of. cbn.
      fold st. by destruct st.
Qed.

Section exploration.
Context (rk : Ranking) (em : ExecutionManager) (Hem : explored_from em).
#[local] Instance setting : Setting := setting_of rk em.

(** What a manager has before it: everything, or the saved points.  The inputs
    on which the program goes beyond the loop bound do not count. *)
Definition ahead em' m : Prop :=
  (em_fresh em' = true /\ models (solver (em_state em')) m) \/ pending (em_state em') m \/ exceeds m.
(** A visited path is right when it can be taken, its result has the type of
    the function, and each model of its constraints is an execution with it. *)
Definition visit_ok (v : outcome (ReturnValue BV) * State) : Prop :=
  match v.1 with
  | Ok r => satisfiable (solver v.2) /\ ret_ok (func_return_type f) r /\
      forall m, models (solver v.2) m -> models (solver (em_state em)) m /\ exists x, ret_val m r = Some x /\ returns_in em m x
  | Err (LoopBoundExceeded _) => forall m, models (solver v.2) m -> exceeds m
  | _ => True
  end.
(** How much it weighs. *)
Definition left_of em' : nat := if em_fresh em' then state_weight (em_state em') else points_weight (em_state em').

(** What holds of a manager between the paths. *)
Record resting em' : Prop := {
  resting_saved : saved (em_state em');
  resting_fresh : em_fresh em' = true -> alive (em_state em') /\ func (cur_loc (em_state em')) = f /\ stack (em_state em') = []
}.
Record visited vs em' : Prop := {
  visited_resting : resting em';
  visited_ok : Forall visit_ok vs;
  visited_all m : models (solver (em_state em)) m -> ahead em' m \/ exists r s, (r, s) ∈ vs /\ models (solver s) m;
  visited_left : ranked -> (length vs + left_of em' <= left_of em)%nat
}.

(** The call of the engine that [next] makes. *)
Lemma next_engine n em1 : resting em1 ->
  explores (short n (3 * left_of em1 + 2)) (left_of em1) finished (ahead em1)
    (if em_fresh em1 then symex_from_cur_loc_through_end_of_function (engine (em_project em1) (em_squash_unsats em1) n)
     else backtrack_and_continue (engine (em_project em1) (em_squash_unsats em1) n)) (em_state em1).
Proof.
  intros [Hs Ha]. destruct (explored_alive rk _ Hem) as (Hfits & _). pose proof (engine_explores (em_project em1) (em_squash_unsats em1) n) as [Ht Hbk _].
  unfold ahead, left_of. destruct (em_fresh em1).
  - destruct (Ha eq_refl) as (Hal & Hfn & Hst). eapply explores_mono; [| | | |by apply Ht].
    + intros Hsh Hr. specialize (Hsh Hr). lia.
    + done.
    + rewrite Hfn, Hst. intros v s [[Hr _]|Hr]; [|done]. by eapply returned_finished.
    + unfold covered. tauto.
  - eapply explores_mono; [| | | |by apply Hbk]; [done..|]. intros m [[? _]|?]; [done|]. unfold pending in *. tauto.
Qed.

(** [next] does not panic, and runs out of fuel only when it is short. *)
Lemma next_returns n em1 : resting em1 ->
  match (next n em1).1 with Ok _ => True | OutOfFuel => short n (3 * left_of em1 + 2) | _ => False end.
Proof.
  intros Hr. pose proof (next_engine n em1 Hr) as He. unfold next, explores, runs in *.
  match type of He with match ?x with _ => _ end => destruct x as [[[v|]|e|p|] s'] end; cbn; try done.
  by destruct He as [[_ ?]|(_ & _ & [])].
Qed.

(** With no point there is no path; a point has a weight. *)
Lemma next_left n em1 v em2 : resting em1 -> next n em1 = (Ok (Some v), em2) -> ranked -> (1 <= left_of em1)%nat.
Proof.
  intros [Hs Ha] Hn Hr. unfold left_of, next in *. destruct (em_fresh em1).
  - destruct (Ha eq_refl) as ((Hb & _) & _). by apply state_weight_pos.
  - destruct Hs as [_ _ _ _ Hp _ _]. unfold points_weight. destruct (backtrack_points (em_state em1)) as [|bp bps] eqn:Eb.
    + exfalso. destruct n as [|n]; [done|]. cbn in Hn. unfold backtrack_and_continue_with, revert_to_backtracking_point in Hn.
      unfold mbind, M_bind, get in Hn. rewrite Eb in Hn. cbn in Hn. by injection Hn.
    + destruct (assertions (solver (em_state em1))) as [|l ls]; [done|]. destruct Hp as [[[_ Hb] (Hf & _) _ _ _ _ _ _] _].
      pose proof (weight_pos Hr _ _ _ Hf Hb (block_rank (func (bp_loc bp)) (bb (bp_loc bp))) (bp_varmap bp) (length (bp_stack bp))). cbn. unfold point_weight. lia.
Qed.

Lemma next_explores n em1 r em2 :
  resting em1 -> next n em1 = (Ok r, em2) ->
  em_fresh em2 = false /\ resting em2 /\
  match r with
  | None => forall m, ahead em1 m -> exceeds m
  | Some v => visit_ok (v, em_state em2) /\ (forall m, ahead em1 m -> models (solver (em_state em2)) m \/ ahead em2 m) /\
      (ranked -> (left_of em2 < left_of em1)%nat)
  end.
Proof.
  intros Hrest Hn. pose proof (next_engine n em1 Hrest) as He. pose proof (fun v em' => next_left n em1 v em' Hrest) as Hleft.
  unfold next in Hn, Hleft. unfold explores, runs in He.
  match type of He with match ?x with _ => _ end => destruct x as [[[v|]|e|p|] s'] end; cbn in Hn; simplify_eq; cbn;
    (destruct He as [[[=] _]|(Hsv & Hc & He)]; split; [done|]; split; [by split|]).
  - destruct He as (Hw & Hsat & _ & Hty & Hfin). split; [split; [done|split; [done|]]|split; [|done]].
    + intros m (x & M & k & Hx & (Hm & c & Hcall & Hr))%Hfin. split; [done|]. exists x. split; [done|]. by exists c, M, k.
    + intros m Hm%Hc. unfold ahead, covered in *. tauto.
  - done.
  - split; [by destruct e; try done; destruct He|]. split.
    + intros m Hm%Hc. unfold ahead, covered in *. destruct e; tauto.
    + intros Hr. specialize (Hleft _ _ eq_refl Hr). change (points_weight s' < left_of em1)%nat.
      destruct e; try (by apply He). unfold points_weight. rewrite He. cbn. lia.
Qed.

Lemma used_saved s s' : used s s' -> saved s -> saved s' /\ forall m, pending s' m <-> pending s m.
Proof.
  intros (sol & -> & Hg & l & l' & ls & E & E') [Hc Hga O G Hp Hmem Hwatch]. split; [split; cbn; try done|].
  - unfold solver_ok. by rewrite E'.
  - congruence.
  - rewrite E'. rewrite E in Hp. by eapply points_ok_top.
  - intros m. unfold pending. cbn. rewrite E, E'. apply in_points_top.
Qed.

Lemma visits_visited vs em' : visits em vs em' -> visited vs em'.
Proof.
  destruct (explored_alive rk _ Hem) as (Hfits & Ha & Hfresh & Hfn & Hst & _).
  induction 1 as [|vs em1 n r em2 _ [Hs Hvs Hall Hleft] Hn|vs em1 s _ [Hs Hvs Hall Hleft] Hfr Hu].
  - split; [split; [apply Ha|done]|done| |done]. intros m Hm. left. by left.
  - destruct (next_explores _ _ _ _ Hs Hn) as (Hf2 & Hs2 & Hp & Hc & Hl). split; [done| | |].
    + apply Forall_app. split; [done|]. by apply Forall_singleton.
    + intros m Hm0. setoid_rewrite elem_of_app. setoid_rewrite list_elem_of_singleton.
      destruct (Hall m Hm0) as [[Hm|?]%Hc|(r' & s' & Hin & Hm)]; [right|by left|right].
      * exists r, (em_state em2). by auto.
      * exists r', s'. by auto.
    + intros Hr. specialize (Hleft Hr). specialize (Hl Hr). rewrite length_app. cbn. lia.
  - destruct (used_saved _ _ Hu (resting_saved _ Hs)) as [Hs2 Hpend]. split; [split; [done|cbn; by rewrite Hfr]|done| |].
    + intros m Hm0. destruct (Hall m Hm0) as [Hm|?]; [left|by right]. unfold ahead in *. cbn. rewrite Hpend. rewrite Hfr in *. naive_solver.
    + unfold left_of in *. cbn. rewrite Hfr in *. destruct Hu as (sol & -> & _). exact Hleft.
Qed.

(** *** How long it takes *)

Lemma visits_bounded vs em' n : ranked -> visits em vs em' -> (3 * left_of em + 2 <= n)%nat -> (length vs <= left_of em)%nat /\ is_ok (next n em').1 = true.
Proof.
  intros Hr [Hs _ _ Hleft]%visits_visited Hn. specialize (Hleft Hr). split; [lia|]. pose proof (next_returns n em' Hs) as Ho.
  destruct (next n em').1 as [o|e|p|]; try done. specialize (Ho Hr). lia.
Qed.
Lemma all_paths_run n rounds : forall vs em', ranked -> visits em vs em' -> (3 * left_of em + 2 <= n)%nat -> (left_of em' < rounds)%nat ->
  exists vs' em1 em2, all_paths rounds n em' = (Ok vs', em2) /\ visits em (vs ++ vs') em1 /\ next n em1 = (Ok None, em2).
Proof.
  induction rounds as [|rounds IH]; intros vs em' Hr Hv Hn Hlt; [lia|]. cbn [all_paths]. destruct (visits_bounded _ _ _ Hr Hv Hn) as [_ Hok].
  destruct (next n em') as [[[r|]|e|p|] em1] eqn:En; try done.
  - pose proof (visited_resting _ _ (visits_visited _ _ Hv)) as Hrest. destruct (next_explores _ _ _ _ Hrest En) as (_ & _ & _ & _ & Hl). specialize (Hl Hr).
    destruct (IH (vs ++ [(r, em_state em1)]) em1 Hr) as (vs' & em2 & em3 & Ha & Hv' & Hend); [by eapply visits_path|done|lia|].
    rewrite Ha. exists ((r, em_state em1) :: vs'), em2, em3. rewrite <- app_assoc in Hv'. by split_and!.
  - exists [], em', em1. by rewrite app_nil_r.
Qed.

Lemma visited_complete vs em' n em'' m :
  visits em vs em' -> next n em' = (Ok None, em'') -> models (solver (em_state em)) m -> exceeds m \/ exists r s, (r, s) ∈ vs /\ models (solver s) m.
Proof.
  intros [Hs _ Hall _]%visits_visited Hn Hm0. destruct (next_explores _ _ _ _ Hs Hn) as (_ & _ & Hnone).
  destruct (Hall m Hm0) as [?%Hnone|?]; auto.
Qed.

End exploration.

(** For what does not depend on the ranks. *)
Definition unranked : Ranking := {| rank := fun _ _ => 0%nat; top := 0; arity := 0 |}.
Lemma visit_sound em vs em' r s : explored_from em -> visits em vs em' -> (r, s) ∈ vs -> visit_ok unranked em (r, s).
Proof. intros He Hv Hin. pose proof (visited_ok _ _ _ _ (visits_visited unranked _ He _ _ Hv)) as Hok. rewrite Forall_forall in Hok. by apply Hok. Qed.

(** C1: every path is an execution, in programs with loads, stores and calls,
    also recursive ones.  Along any path that [next] returns with a result,
    after any number of errors, reverts (also into functions that had returned)
    and queries of the caller in between: its constraints can be met, the result
    has the type of the function, and for every model of the constraints the
    inputs are among those that the caller assumed at the start, and the program, run by the reference semantics on the values that the parameters
    have in the model, from the memory that the model gives, terminates, and
    returns the value that the result has in the model.  A path that ends with
    the loop bound exceeded is right too: on every model of it the program binds
    some name more often. *)
Theorem paths_sound em vs em' r s :
  explored_from em -> visits em vs em' -> (r, s) ∈ vs ->
  match r with
  | Ok r => satisfiable (solver s) /\ ret_ok (func_return_type f) r /\
      forall m, models (solver s) m -> models (solver (em_state em)) m /\ exists v, ret_val m r = Some v /\ returns_in em m v
  | Err (LoopBoundExceeded _) => forall m, models (solver s) m -> models (solver (em_state em)) m /\ loops_in em m
  | _ => True
  end.
Proof.
  intros He Hv Hin. pose proof (visit_sound _ _ _ _ _ He Hv Hin) as Hok. destruct r as [r|e|p|]; try done.
  destruct e; try done. intros m Hm%Hok. by apply (exceeds_loops unranked).
Qed.

Lemma returns_in_det em m v v' : returns_in em m v -> returns_in em m v' -> v = v'.
Proof. apply returns_det. Qed.

(** C2: no execution is missed.  When [next] says that there are no more paths,
    every model, that is every choice of inputs and of a memory, that the caller
    assumed at the start is a model of one of the paths (it may be one that ended
    with an error), or the program exceeds the loop bound on it.  If no path ended with an error, the results are exactly those
    of the paths: on every input within the loop bound the program terminates,
    and it returns [v] just if [v] is the value of the result of a path that
    the input is on. *)
Theorem paths_complete em vs em' n em'' m :
  explored_from em -> visits em vs em' -> next n em' = (Ok None, em'') -> models (solver (em_state em)) m -> ~ loops_in em m ->
  (exists r s, (r, s) ∈ vs /\ models (solver s) m) /\
  (Forall (fun p => is_ok p.1 = true) vs ->
     (exists v, returns_in em m v) /\
     forall v, returns_in em m v <-> exists r s, (Ok r, s) ∈ vs /\ models (solver s) m /\ ret_val m r = Some v).
Proof.
  intros He Hv Hn Hm0 Hl. destruct (visited_complete unranked em He _ _ _ _ m Hv Hn Hm0) as [[_ ?]%(exceeds_loops unranked)|(r & s & Hin & Hm)]; [done|].
  split; [eauto|]. intros Hoks. rewrite Forall_forall in Hoks. pose proof (Hoks _ Hin) as Hr. cbn in Hr. destruct r as [r|e|p|]; try done.
  destruct (visit_sound _ _ _ _ _ He Hv Hin) as (_ & _ & Hsound). destruct (Hsound m Hm) as (_ & x & Hx & Hret). split; [eauto|]. intros v. split.
  - intros Hret'. exists r, s. split; [done|]. split; [done|]. by rewrite (returns_in_det _ _ _ _ Hret' Hret).
  - intros (r' & s' & Hin' & Hm' & Hr'). destruct (visit_sound _ _ _ _ _ He Hv Hin') as (_ & _ & Hsound').
    destruct (Hsound' m Hm') as (_ & v' & Hv' & Hret'). by assert (v = v') as -> by congruence.
Qed.

(** C3: explorations do not panic and always end.  [next] has no panic on any
    way through an exploration.  And if the program cannot go on for ever without
    binding names (each block has a rank, less in the next block when the block
    binds none, and functions that are called have parameters), there is a bound
    [N], whatever the caller does between the paths, on the number of paths and
    on the fuel that [next] takes.  So the loop over the paths ends by itself,
    and with this the two theorems above are unconditional: it gives a list of
    paths, the same with any more fuel and rounds, such that every assumed input
    within the loop bound is on one of them, and what the program returns on the inputs
    of a path is its result. *)
Theorem exploration_total rk em :
  explored_from em ->
  (forall vs em' n, visits em vs em' -> match (next n em').1 with Ok _ | OutOfFuel => True | _ => False end) /\
  (program_ranked (linked_in em) rk program = true ->
   exists N,
     (forall vs em' n, visits em vs em' -> (N <= n)%nat -> (length vs <= N)%nat /\ is_ok (next n em').1 = true) /\
     exists vs em', (forall rounds n, (N <= rounds)%nat -> (N <= n)%nat -> all_paths rounds n em = (Ok vs, em')) /\
       (forall m, models (solver (em_state em)) m -> ~ loops_in em m -> exists r s, (r, s) ∈ vs /\ models (solver s) m) /\
       forall r s m, (Ok r, s) ∈ vs -> models (solver s) m -> models (solver (em_state em)) m /\ exists v, ret_val m r = Some v /\ returns_in em m v).
Proof.
  intros He. split.
  { intros vs em' n Hv. pose proof (next_returns unranked em He n em' (visited_resting _ _ _ _ (visits_visited unranked em He _ _ Hv))) as Hn.
    by destruct (next n em').1. }
  intros Hr. set (W := left_of rk em em). exists (3 * W + 2)%nat. split.
  { intros vs em' n Hv Hn. destruct (visits_bounded rk em He _ _ n Hr Hv Hn) as [Hlen Hok]. split; [unfold W; lia|done]. }
  destruct (all_paths_run rk em He (3 * W + 2) (3 * W + 2) [] em Hr (visits_none em)) as (vs & em1 & em2 & Ha & Hv & Hend); [done|unfold W; lia|].
  exists vs, em2. split; [|split].
  - intros rounds n Hrounds Hn. by eapply all_paths_more.
  - intros m Hm0 Hl. destruct (visited_complete unranked em He _ _ _ _ m Hv Hend Hm0) as [[_ ?]%(exceeds_loops unranked)|?]; done.
  - intros r s m Hin Hm. destruct (visit_sound _ _ _ _ _ He Hv Hin) as (_ & _ & Hs). by apply Hs.
Qed.

End explorations.
