(* ===== verification/ProgramAnalyses.v ===== *)
(** * ProgramAnalyses: what the two analyses say about the program

    The analyses of src/src/lib.rs are loops over the paths of an exploration,
    which query and constrain the solver between them.  For the programs of
    Concrete.v the paths are the executions (PathTheorems.v), so the answers
    are about these: no zero was found when the program returns none on inputs
    whose pointers are not null, and the possible values are the values that it
    returns when the given arguments are fixed.  And on programs whose explorations end, both always answer. *)
From S2P Require Import Prelude Bits Backend SolverUtils MemorySpec Memory Alloc LLVMIR Project Layout VarMap Watchpoints FunctionHooks GlobalAllocations Config State Operands HookUtils Hooks SymexInstr Symex StateTheorems SymexTheorems LevelTheorems InstrTheorems DataTheorems Analyses EngineInvariant AnalysesTheorems Concrete PathVariables PathMeasure PathState PathTerminators PathBlocks PathStart PathTheorems.

Open Scope Z_scope.

(** ** What a round does to the solver *)

Section rounds.
Context `{Laws : BackendLaws} `{Dec : !Decides} `{MOps : !MemoryOps} `{L : LLVM}.
Implicit Types s : State.

(** Only the innermost level of the solver changes. *)
Definition same_below (sol sol' : SolverRef) : Prop :=
  model_gen sol' = model_gen sol /\ exists l l' ls, assertions sol = l :: ls /\ assertions sol' = l' :: ls.
Lemma same_below_used s sol : same_below (solver s) sol -> used s (set_solver sol s).
Proof. intros [Hg Hl]. by exists sol. Qed.
Lemma same_below_trans sol1 sol2 sol3 : same_below sol1 sol2 -> same_below sol2 sol3 -> same_below sol1 sol3.
Proof.
  intros [G1 (l1 & l2 & ls & E1 & E2)] [G2 (l2' & l3 & ls' & E2' & E3)]. split; [congruence|].
  rewrite E2 in E2'. injection E2' as <- <-. by exists l1, l3, ls.
Qed.
Lemma same_below_same sol sol' : solver_ok sol -> same_solver sol sol' -> same_below sol sol'.
Proof. intros O [E G]. split; [done|]. unfold solver_ok in O. rewrite E. destruct (assertions sol) as [|l ls]; [done|]. by exists l, l, ls. Qed.
Lemma same_below_assert c sol : get_width c = 1 -> solver_ok sol -> same_below sol (btor_assert c sol).
Proof. intros W O. destruct (assert_top c sol W O) as (l & ls & E & E' & G). split; [done|]. by exists l, (c :: l), ls. Qed.
Lemma same_below_ok sol sol' : same_below sol sol' -> solver_ok sol'.
Proof. intros [_ (l & l' & ls & _ & E)]. unfold solver_ok. by rewrite E. Qed.

Lemma solutions_same sol v n : solver_ok sol -> model_gen sol = false -> 0 <= n < 2 ^ 64 ->
  wp (SolverUtils.get_possible_solutions_for_bv v n) sol (returns (fun _ sol' => same_solver sol sol')).
Proof.
  intros O G Hn. destruct (as_binary_str v) as [str|] eqn:Ev, (decide (n = 0)) as [->|Hn0].
  1, 3, 4: eapply wp_mono; [apply possible_solutions_spec; [done..|tauto]|]; intros [ps|e|p|] sol'; cbn; [by intros [? _]|done..].
  unfold SolverUtils.get_possible_solutions_for_bv. rewrite (proj2 (Z.eqb_neq _ _) Hn0), Ev. wp_step. wp_step. apply wp_ret.
  destruct (btor_set_model_gen_law false sol) as [L1 L2]. split; congruence.
Qed.

Section values.
Context (payload : ReturnValue Z -> option Z) (wrap : Z -> ReturnValue Z) (payload_wrap : forall x u, payload x = Some u <-> x = wrap u).
Context (v : BV) (Wv : get_width v <= 64).

Lemma rule_out_below c : forall s r s', solver_ok (solver s) -> candidates_fit wrap v c ->
  rule_out payload c v (get_width v) s = (r, s') -> exists sol, s' = set_solver sol s /\ same_below (solver s) sol.
Proof.
  unfold rule_out. induction c as [|x c IH]; intros s r s' O Hf; cbn [forM].
  { intros [= <- <-]. exists (solver s). split; [by rewrite set_solver_id|]. by apply same_below_same. }
  assert (candidates_fit wrap v c) as Hf' by (intros u Hu; apply Hf; by right). destruct (payload x) as [u|] eqn:Ex.
  - apply payload_wrap in Ex as ->. unfold mbind, M_bind, assert_bv, on_solver, zoom. cbn. intros Hr.
    assert (get_width (bv_ne v (from_u64 u (get_width v))) = 1) as W1.
    { apply (pred_width bv_ne _ _ _ bv_ne_law). pose proof (width_pos v) as Wp. pose proof (Z.pow_le_mono_r 2 _ _ ltac:(lia) Wv) as Hp.
      assert (in_width v u) as Hu by (apply Hf; left). unfold in_width in Hu. symmetry. apply from_u64_law; lia. }
    pose proof (same_below_assert _ _ W1 O) as Hb.
    destruct (IH (set_solver _ s) r s' (same_below_ok _ _ Hb) Hf' Hr) as (sol & -> & Hb'). exists sol. split; [done|].
    by eapply same_below_trans.
  - by apply IH.
Qed.

Lemma new_values_below s c rw n x s' :
  as_u32 rw = get_width v ->
  solver_ok (solver s) -> model_gen (solver s) = false -> 0 <= n < 2 ^ 64 -> candidates_fit wrap v c ->
  new_values payload wrap c v rw n s = (Ok x, s') -> exists sol, s' = set_solver sol s /\ same_below (solver s) sol.
Proof.
  intros Hrw O G Hn Hf. unfold new_values, mbind, M_bind. rewrite Hrw.
  destruct (rule_out payload c v (get_width v) s) as [[[]|e|p|] s1] eqn:Er; try done.
  destruct (rule_out_below _ _ _ _ O Hf Er) as (sol1 & -> & Hb1). unfold unwrap_result, mbind, M_bind, catch, State.get_possible_solutions_for_bv, on_solver, zoom.
  cbn [solver set_solver]. assert (model_gen sol1 = false) as G1 by (destruct Hb1; congruence).
  destruct (SolverUtils.get_possible_solutions_for_bv v n sol1) as [[ps|e|p|] sol2] eqn:Ep; try done.
  pose proof (wp_run _ _ _ _ _ Ep (solutions_same _ v n (same_below_ok _ _ Hb1) G1 Hn)) as Hs. cbn in Hs.
  assert (same_below (solver s) sol2) as Hb2.
  { eapply same_below_trans; [done|]. apply same_below_same; [by eapply same_below_ok|done]. }
  cbn. intros Hx. exists sol2. split; [|done].
  unfold lift in Hx. destruct ps as [X|X]; destruct (foldO _ _ _) in Hx; simplify_eq; by injection Hx as _ <-.
Qed.
End values.

Lemma used_refl s : solver_ok (solver s) -> used s s.
Proof. intros O. rewrite <- (set_solver_id s) at 2. apply same_below_used, same_below_same; done. Qed.

Lemma visit_used rw n c t r s x s' :
  0 <= n < 2 ^ 64 -> solver_ok (solver s) -> path_ok rw (s, r) -> fit rw c ->
  visit None rw n c t r s = (Ok x, s') -> used s s'.
Proof.
  intros Hn O Hok Hfit. destruct r as [v| |p|]; cbn [visit].
  - destruct Hok as (_ & G & _ & W & Wv). unfold mbind, M_bind.
    destruct (new_values _ _ _ _ _ _ s) as [[[c1 l1]|e|p|] s1] eqn:En; try done. intros [= _ <-].
    destruct (new_values_below Analyses.returned Return returned_wrap v Wv s c rw n _ _ (eq_sym W) O G Hn (fit_candidates rw c v W Hfit) En)
      as (sol & -> & Hb). by apply same_below_used.
  - intros [= _ <-]. by apply used_refl.
  - destruct t; [intros [= _ <-]; by apply used_refl|]. unfold mbind, M_bind, lift. destruct (expect _ _); try done.
    intros [= _ <-]. by apply used_refl.
  - intros [= _ <-]. by apply used_refl.
Qed.

Lemma returns_zero_used zero v s b s' :
  get_width v = get_width zero -> solver_ok (solver s) -> returns_zero zero v s = (Ok b, s') -> used s s'.
Proof.
  intros W O. unfold returns_zero, mbind, M_bind, assert_bv, State.sat, on_solver, zoom. cbn.
  assert (get_width (bv_eq v zero) = 1) as W1 by by apply (pred_width bv_eq _ _ _ bv_eq_law).
  pose proof (same_below_assert _ _ W1 O) as Hb. pose proof (wp_sat (btor_assert (bv_eq v zero) (solver s))) as Hsat.
  destruct (SolverUtils.sat _) as [r sol] eqn:Es. apply (wp_run _ _ _ _ _ Es) in Hsat. intros [= -> <-]. destruct Hsat as [Hs _].
  apply (same_below_used s sol). eapply same_below_trans; [done|]. apply same_below_same; [by eapply same_below_ok|done].
Qed.

End rounds.

(** ** The analyses of a program *)

Section programs.
Context `{Laws : BackendLaws} `{Dec : !Decides} `{MOps : !MemoryOps} `{MLaws : !MemoryLaws} `{L : LLVM} `{Inh : !Inhabited Model}.
Context `{CF : ConstFuel} `{EF : !EnoughFuel} `{UC : !UserCode} `{CB : !ObservingCallbacks}.
Context (funcname : string) (project : Project) (cfg : Config) (f : Function_) (md : Module_).
Context (widths : string -> gmap Name Z) (bound_in : string -> Name -> gset Name) (program : list (Function_ * Module_)).
Context (em0 : ExecutionManager) (Hem : explored funcname project cfg f md widths bound_in program em0).
Implicit Types (s : State) (m : Model) (em : ExecutionManager) (vs : list (outcome (ReturnValue BV) * State)).

(** The inputs of the model are as the caller assumed; on them the program
    returns [v], or binds some name more often than the loop bound. *)
Abbreviation allowed m := (models (solver (em_state em0)) m).
Abbreviation program_returns m v := (returns_in f md em0 m v).
Abbreviation program_loops m := (loops_in cfg f md em0 m).
Abbreviation visits_to := (PathTheorems.visits em0).

Lemma mut_state_bind_assert {A} zero v (k : bool -> M ExecutionManager A) em :
  (mut_state (returns_zero zero v) ≫= k) em = (_ ← mut_state (assert_bv (bv_eq v zero)); b ← mut_state State.sat; k b) em.
Proof.
  unfold returns_zero, mut_state, mbind, M_bind, zoom. destruct (assert_bv _ _) as [[[]|e|p|] s1]; [|done..]. cbn.
  by destruct (State.sat s1) as [[b|e|p|] s2].
Qed.
Lemma path_sound vs em r s : visits_to vs em -> (Ok r, s) ∈ vs ->
  satisfiable (solver s) /\ ret_ok (func_return_type f) r /\
  forall m, models (solver s) m -> allowed m /\ exists v, ret_val m r = Some v /\ program_returns m v.
Proof. intros Hv Hin. exact (visit_sound _ _ _ _ _ _ _ _ _ _ _ _ _ Hem Hv Hin). Qed.
Lemma path_exceeds vs em n s m : visits_to vs em -> (Err (LoopBoundExceeded n), s) ∈ vs -> models (solver s) m -> program_loops m.
Proof. intros Hv Hin Hm. eapply (exceeds_loops funcname cfg f md widths bound_in program unranked). exact (visit_sound _ _ _ _ _ _ _ _ _ _ _ _ _ Hem Hv Hin m Hm). Qed.
Lemma none_missed vs em n em' m : visits_to vs em -> next n em = (Ok None, em') -> allowed m -> ~ program_loops m ->
  exists r s, (r, s) ∈ vs /\ models (solver s) m.
Proof.
  intros Hv Hn Ha Hl. destruct (visited_complete _ _ _ _ _ _ _ _ unranked em0 Hem vs em n em' m Hv Hn Ha) as [He|?]; [|done].
  destruct Hl. by eapply (exceeds_loops funcname cfg f md widths bound_in program unranked).
Qed.
Lemma path_returned vs em v s m x : visits_to vs em -> (Ok (Return v), s) ∈ vs -> models (solver s) m -> program_returns m x -> x = Some (eval m v).
Proof.
  intros Hv Hin Hm Hr. destruct (path_sound _ _ _ _ Hv Hin) as (_ & _ & Hs). destruct (Hs m Hm) as (_ & x' & [= <-] & Hr').
  exact (returns_in_det _ _ _ _ _ _ Hr Hr').
Qed.
Lemma visits_snoc vs em n r em' : visits_to vs em -> next n em = (Ok (Some r), em') ->
  visits_to (vs ++ [(r, em_state em')]) em' /\ em_fresh em' = false /\ solver_ok (solver (em_state em')) /\ model_gen (solver (em_state em')) = false.
Proof.
  intros Hv Hn. assert (visits_to (vs ++ [(r, em_state em')]) em') as Hv' by by eapply visits_path. split; [done|].
  destruct (visits_visited _ _ _ _ _ _ _ _ unranked em0 Hem _ _ Hv') as [[[_ _ O G _ _ _] _] _ _ _]. split; [|done].
  unfold next in Hn. match type of Hn with match ?x with _ => _ end = _ => destruct x as [[[v|]|e|p|] s'] end; by simplify_eq.
Qed.

(** *** [find_zero_of_func] *)

Section zero.
Context (zero : BV) (zero_val : forall m, eval m zero = 0) (Hzero : func_return_type f = IntegerType (get_width zero)).

(** No execution on the paths returns zero. *)
Definition no_zero vs : Prop :=
  Forall (fun p => forall m, models (solver p.2) m -> ~ program_loops m -> ~ program_returns m (Some 0)) vs.

Lemma skipped_no_zero vs em r s : visits_to (vs ++ [(r, s)]) em -> skipped r = true -> no_zero vs -> no_zero (vs ++ [(r, s)]).
Proof.
  intros Hv Hs Hno. apply Forall_app. split; [done|]. apply Forall_singleton. intros m Hm Hl.
  assert ((r, s) ∈ vs ++ [(r, s)]) as Hin by (apply elem_of_app; right; left). destruct r as [[v| |p|]|[]|p|]; try done.
  - by destruct (path_sound _ _ _ _ Hv Hin) as (_ & [] & _).
  - by destruct (path_sound _ _ _ _ Hv Hin) as (_ & [] & _).
  - destruct Hl. by eapply path_exceeds.
Qed.

(** What an answer of the search says. *)
Definition zero_answer (found : bool) em : Prop :=
  if found then satisfiable (solver (em_state em)) /\ model_gen (solver (em_state em)) = false /\
                forall m, models (solver (em_state em)) m -> allowed m /\ program_returns m (Some 0)
  else forall m, allowed m -> ~ program_loops m -> ~ program_returns m (Some 0).

Lemma zero_loop_program rounds fuel : forall em vs found em',
  visits_to vs em -> no_zero vs -> zero_loop rounds fuel zero em = (Ok found, em') -> zero_answer found em'.
Proof.
  induction rounds as [|rounds IH]; intros em vs found em' Hv Hno; [done|]. cbn [zero_loop]. unfold mbind at 1, M_bind at 1.
  destruct (next fuel em) as [[[r|]|e|p|] em1] eqn:En; try done.
  2: { intros [= <- <-] m Hall Hl Hr. destruct (none_missed _ _ _ _ _ Hv En Hall Hl) as (r & s & Hin & Hm). unfold no_zero in Hno.
       rewrite Forall_forall in Hno. exact (Hno _ Hin m Hm Hl Hr). }
  destruct (visits_snoc _ _ _ _ _ Hv En) as (Hv1 & Hfr & O & G). assert ((r, em_state em1) ∈ vs ++ [(r, em_state em1)]) as Hin by (apply elem_of_app; right; left).
  assert (skipped r = true -> zero_loop rounds fuel zero em1 = (Ok found, em') -> zero_answer found em') as Hskip.
  { intros Hs. apply (IH em1 (vs ++ [(r, em_state em1)])); [done|]. by eapply skipped_no_zero. }
  destruct r as [[v| |p|]|[]|p|]; try done; try (by apply Hskip). clear Hskip.
  destruct (path_sound _ _ _ _ Hv1 Hin) as (_ & Hty & Hs). cbn in Hty. rewrite Hzero in Hty. injection Hty as Hw.
  rewrite <- mut_state_bind_assert. unfold mbind, M_bind, mut_state at 1, zoom. destruct (returns_zero zero v (em_state em1)) as [[b|e|p|] s'] eqn:Ez; try done.
  pose proof (returns_zero_correct zero zero_val (em_state em1, v) s' b (conj O (conj G (eq_sym Hw))) Ez) as Hc. destruct b.
  - intros [= <- <-]. destruct Hc as (Hsat & G' & Hm). split; [done|]. split; [done|]. intros m [Hm1 He]%Hm.
    destruct (Hs m Hm1) as (Hall & x & [= <-] & Hr). cbn in He. by rewrite He in Hr.
  - intros Hz. refine (IH (set_em_state s' em1) (vs ++ [(Ok (Return v), em_state em1)]) found em' _ _ Hz).
    + apply visits_use; [done|done|]. exact (returns_zero_used zero v _ _ _ (eq_sym Hw) O Ez).
    + apply Forall_app. split; [done|]. apply Forall_singleton. intros m Hm _ Hr. destruct Hc. exists m. split; [done|].
      pose proof (path_returned _ _ _ _ _ _ Hv1 Hin Hm Hr) as E. cbn. congruence.
Qed.

End zero.

(** *** [get_possible_return_values_of_func] *)

Section values.
Context (w n : Z) (Hty : func_return_type f = IntegerType w) (Hw : 0 < w <= 64) (Hn : 0 <= n < 2 ^ 64).

(** Each candidate is a value that the program returns. *)
Definition all_returned (c : Candidates) : Prop := forall x, x ∈ c -> exists u m, x = Return u /\ program_returns m (Some u).
(** The values that it returns on the paths are candidates. *)
Definition all_found vs (c : Candidates) : Prop :=
  Forall (fun p => forall m u, models (solver p.2) m -> program_returns m (Some u) -> Return u ∈ c) vs.

Lemma visit_return ts c t v s : visit ts w n c t (Return v) s = visit None w n c t (Return v) s.
Proof. done. Qed.

Lemma path_fits vs em v s : visits_to vs em -> (Ok (Return v), s) ∈ vs -> solver_ok (solver s) -> model_gen (solver s) = false -> path_ok w (s, Return v).
Proof.
  intros Hv Hin O G. destruct (path_sound _ _ _ _ Hv Hin) as (Hsat & Hrt & _). cbn in Hrt. rewrite Hty in Hrt. injection Hrt as Hwv.
  split; [done|]. split; [done|]. split; [done|]. rewrite <- Hwv. split; [symmetry; apply Z.mod_small; lia|lia].
Qed.
Lemma round_program vs em v c t c' t' leave s' ts :
  visits_to vs em -> (Ok (Return v), em_state em) ∈ vs ->
  solver_ok (solver (em_state em)) -> model_gen (solver (em_state em)) = false ->
  NoDup c -> fit w c -> all_returned c -> visit ts w n c t (Return v) (em_state em) = (Ok (c', t', leave), s') ->
  used (em_state em) s' /\ NoDup c' /\ fit w c' /\ all_returned c' /\ (forall x, x ∈ c -> x ∈ c') /\
  if leave then n < Z.of_nat (length c') else forall m u, models (solver (em_state em)) m -> program_returns m (Some u) -> Return u ∈ c'.
Proof.
  intros Hv Hin O G Hnd Hfit Hret. rewrite visit_return. intros Hvis.
  destruct (path_sound _ _ _ _ Hv Hin) as (_ & _ & Hs). pose proof (path_fits _ _ _ _ Hv Hin O G) as Hok.
  destruct (visit_correct _ _ _ _ _ _ _ _ _ _ Hn Hok Hnd Hfit Hvis) as (H1 & H2 & H3 & H4 & H5).
  split; [exact (visit_used _ _ _ _ _ _ _ _ Hn O Hok Hfit Hvis)|]. split; [done|]. split; [done|]. split; [|split; [done|]].
  - intros x [Hx|Hx]%H4; [by apply Hret|]. destruct x as [u| |u|]; cbn in Hx.
    + destruct Hx as (s & v' & [[= -> ->]|[]%elem_of_nil]%elem_of_cons & m & Hm & <-). exists (eval m v), m. split; [done|].
      by destruct (Hs m Hm) as (_ & x & [= <-] & Hr).
    + by destruct Hx as (s & [[=]|[]%elem_of_nil]%elem_of_cons).
    + by destruct Hx as (s & q & [[=]|[]%elem_of_nil]%elem_of_cons & _).
    + by destruct Hx as (s & [[=]|[]%elem_of_nil]%elem_of_cons).
  - destruct leave; [done|]. intros m u Hm Hr. apply (proj2 H5 (Return u)). exists (em_state em), v. split; [left|].
    exists m. split; [done|]. pose proof (path_returned _ _ _ _ _ _ Hv Hin Hm Hr) as E. congruence.
Qed.

Lemma values_loop_program ts fuel : forall rounds em vs c t c' em',
  visits_to vs em -> NoDup c -> fit w c -> all_returned c -> all_found vs c ->
  values_loop rounds fuel ts w n c t em = (Ok c', em') ->
  NoDup c' /\ all_returned c' /\
  (Z.of_nat (length c') <= n -> forall m u, allowed m -> ~ program_loops m -> program_returns m (Some u) -> Return u ∈ c').
Proof.
  induction rounds as [|rounds IH]; intros em vs c t c' em' Hv Hnd Hfit Hret Hfound; [done|]. cbn [values_loop]. unfold mbind at 1, M_bind at 1.
  destruct (next fuel em) as [[[r|]|e|p|] em1] eqn:En; try done.
  2: { intros [= <- <-]. split; [done|]. split; [done|]. intros _ m u Hall Hl Hr. destruct (none_missed _ _ _ _ _ Hv En Hall Hl) as (r & s & Hin & Hm).
       unfold all_found in Hfound. rewrite Forall_forall in Hfound. exact (Hfound _ Hin m u Hm Hr). }
  destruct (visits_snoc _ _ _ _ _ Hv En) as (Hv1 & Hfr & O & G). assert ((r, em_state em1) ∈ vs ++ [(r, em_state em1)]) as Hin by (apply elem_of_app; right; left).
  destruct r as [r|e|p|]; try done. destruct (path_sound _ _ _ _ Hv1 Hin) as (_ & Hrt & _). rewrite Hty in Hrt. destruct r as [v| |p|]; try done.
  unfold mbind, M_bind, mut_state, zoom. destruct (visit ts w n c t (Return v) (em_state em1)) as [[[[c1 t1] leave]|e|p|] s1] eqn:Evis; try done.
  destruct (round_program _ _ _ _ _ _ _ _ _ _ Hv1 Hin O G Hnd Hfit Hret Evis) as (Hu & Hnd1 & Hfit1 & Hret1 & Hsub & Hround). destruct leave.
  - intros [= <- <-]. split; [done|]. split; [done|]. lia.
  - apply (IH _ (vs ++ [(Ok (Return v), em_state em1)])); [by apply visits_use|done..|].
    apply Forall_app. split; [|by apply Forall_singleton]. eapply Forall_impl; [exact Hfound|]. intros p Hp m u Hm Hr. by eapply Hsub, Hp.
Qed.

End values.

(** *** The analyses always answer *)

Lemma never_failed e : ~ query_failed e.
Proof. intros [_ [s Hs]]. by destruct (decides s). Qed.
Lemma returns_zero_total zero v s : exists b s', returns_zero zero v s = (Ok b, s').
Proof.
  unfold returns_zero, mbind, M_bind, assert_bv, State.sat, on_solver, zoom. cbn. pose proof (wp_sat (btor_assert (bv_eq v zero) (solver s))) as Hs.
  destruct (SolverUtils.sat _) as [[b|e|p|] sol] eqn:Es; apply (wp_run _ _ _ _ _ Es) in Hs; cbn in Hs; [eauto|by destruct (never_failed e)|done..].
Qed.

(** [N] bounds the paths and the fuel of every exploration from [em0]; an
    error is that of a path. *)
Definition bounded (N : nat) : Prop :=
  forall vs em n, visits_to vs em -> (N <= n)%nat -> (length vs <= N)%nat /\ is_ok (next n em).1 = true.
Definition path_error (e : Error) : Prop := exists vs em s, visits_to vs em /\ (Err e, s) ∈ vs.
Lemma ranked_bounded rk : program_ranked (linked_in em0) rk program = true -> exists N, bounded N.
Proof.
  intros Hr. exists (3 * left_of cfg f md widths bound_in program rk em0 em0 + 2)%nat. intros vs em n Hv Hn.
  destruct (visits_bounded _ _ _ _ _ _ _ _ rk em0 Hem vs em n Hr Hv Hn). split; [lia|done].
Qed.
(** A round visits one more path. *)
Lemma bounded_next N vs em n : bounded N -> visits_to vs em -> (N <= n)%nat ->
  exists o em', next n em = (Ok o, em') /\ (length vs <= N)%nat.
Proof.
  intros HN Hv Hn. destruct (HN _ _ _ Hv Hn) as [Hlen Hok]. destruct (next n em) as [[o|e|p|] em']; try done. by exists o, em'.
Qed.

Lemma zero_loop_total N zero rounds fuel : bounded N -> func_return_type f = IntegerType (get_width zero) -> (N <= fuel)%nat ->
  forall em vs, visits_to vs em -> (N < rounds + length vs)%nat ->
  match (zero_loop rounds fuel zero em).1 with Ok _ => True | Err e => path_error e | _ => False end.
Proof.
  intros HN Hzero Hfuel. induction rounds as [|rounds IH]; intros em vs Hv Hlt; destruct (bounded_next _ _ _ _ HN Hv Hfuel) as (o & em1 & En & Hlen); [lia|].
  cbn [zero_loop]. unfold mbind at 1, M_bind at 1. rewrite En. destruct o as [r|]; [|done].
  destruct (visits_snoc _ _ _ _ _ Hv En) as (Hv1 & Hfr & O & G). assert ((r, em_state em1) ∈ vs ++ [(r, em_state em1)]) as Hin by (apply elem_of_app; right; left).
  assert (forall s', visits_to (vs ++ [(r, em_state em1)]) (set_em_state s' em1) -> match (zero_loop rounds fuel zero (set_em_state s' em1)).1 with Ok _ => True | Err e => path_error e | _ => False end) as Hnext.
  { intros s' Hv2. eapply IH; [exact Hv2|]. rewrite length_app. cbn. lia. }
  assert (set_em_state (em_state em1) em1 = em1) as Eid by by destruct em1.
  destruct r as [r|e|p|]; [|by destruct e; try (by eexists _, _, _); rewrite <- Eid; apply Hnext; rewrite Eid|..].
  2, 3: unfold next in En; match type of En with match ?x with _ => _ end = _ => destruct x as [[[v|]|e|q|] s'] end; by simplify_eq.
  destruct (path_sound _ _ _ _ Hv1 Hin) as (_ & Hty & _). rewrite Hzero in Hty. destruct r as [v| |q|]; try done. injection Hty as Hw.
  destruct (returns_zero_total zero v (em_state em1)) as (b & s' & Ez). pose proof (returns_zero_used zero v _ _ _ (eq_sym Hw) O Ez) as Hu.
  rewrite <- mut_state_bind_assert. unfold mbind, M_bind, mut_state, zoom. rewrite Ez. destruct b; [done|]. apply Hnext. by apply visits_use.
Qed.

Lemma visit_total w n c t v s ts : 0 <= n < 2 ^ 64 -> path_ok w (s, Return v) -> NoDup c -> fit w c ->
  exists c' t' leave s', visit ts w n c t (Return v) s = (Ok (c', t', leave), s').
Proof.
  intros Hn (O & G & Hsat & Hw & Hle) Hnd Hfit. cbn [visit]. unfold mbind, M_bind.
  destruct (new_values _ _ _ _ _ _ s) as [[[c1 l1]|e|p|] s1] eqn:Ev; [by exists c1, t, l1, s1|..];
    pose proof (wp_run _ _ _ _ _ Ev (wp_new_values Analyses.returned Return returned_wrap v Hle s c w n O G Hsat Hn (eq_sym Hw) Hnd (fit_candidates w c v Hw Hfit))) as He; cbn in He; try done.
  destruct He as [e He]. by destruct (never_failed e).
Qed.

Lemma values_loop_total N ts w n rounds fuel : bounded N -> func_return_type f = IntegerType w -> 0 < w <= 64 -> 0 <= n < 2 ^ 64 -> (N <= fuel)%nat ->
  forall em vs c t, visits_to vs em -> NoDup c -> fit w c -> all_returned c -> (N < rounds + length vs)%nat ->
  match (values_loop rounds fuel ts w n c t em).1 with Ok _ => True | Panic _ => exists e, path_error e | _ => False end.
Proof.
  intros HN Hty Hw Hn Hfuel. induction rounds as [|rounds IH]; intros em vs c t Hv Hnd Hfit Hret Hlt; destruct (bounded_next _ _ _ _ HN Hv Hfuel) as (o & em1 & En & Hlen); [lia|].
  cbn [values_loop]. unfold mbind at 1, M_bind at 1. rewrite En. destruct o as [r|]; [|done].
  destruct (visits_snoc _ _ _ _ _ Hv En) as (Hv1 & Hfr & O & G). assert ((r, em_state em1) ∈ vs ++ [(r, em_state em1)]) as Hin by (apply elem_of_app; right; left).
  destruct r as [r|e|p|]; [|by exists e; eexists _, _, _|..].
  2, 3: unfold next in En; match type of En with match ?x with _ => _ end = _ => destruct x as [[[v|]|e|q|] s'] end; by simplify_eq.
  destruct (path_sound _ _ _ _ Hv1 Hin) as (_ & Hrt & _). rewrite Hty in Hrt. destruct r as [v| |p|]; try done.
  pose proof (path_fits w Hty Hw _ _ _ _ Hv1 Hin O G) as Hok. destruct (visit_total w n c t v (em_state em1) ts Hn Hok Hnd Hfit) as (c' & t' & leave & s' & Evis).
  unfold mbind, M_bind, mut_state, zoom. rewrite Evis. destruct leave; [done|].
  destruct (round_program w n Hty Hw Hn _ _ _ _ _ _ _ _ _ _ Hv1 Hin O G Hnd Hfit Hret Evis) as (Hu & Hnd1 & Hfit1 & Hret1 & _).
  eapply IH; [by apply visits_use|done..|]. rewrite length_app. cbn. lia.
Qed.

End programs.

(** ** From the start *)

Section answers.
Context `{Laws : BackendLaws} `{Dec : !Decides} `{MOps : !MemoryOps} `{MLaws : !MemoryLaws} `{L : LLVM} `{Inh : !Inhabited Model}.
Context `{CF : ConstFuel} `{EF : !EnoughFuel} `{UC : !UserCode} `{CB : !ObservingCallbacks}.
Context (funcname : string) (project : Project) (cfg : Config) (f : Function_) (md : Module_).
Context (widths : string -> gmap Name Z) (bound_in : string -> Name -> gset Name) (program : list (Function_ * Module_)).
Context (em0 : ExecutionManager) (Hnew : symex_function funcname project cfg = Ok em0).
Implicit Types (s : State) (m : Model) (em : ExecutionManager) (vs : list (outcome (ReturnValue BV) * State)).
Abbreviation explored_from := (explored funcname project cfg f md widths bound_in program).
Context (Hem : explored_from em0).
Abbreviation program_returns m v := (returns_in f md em0 m v).
Abbreviation program_loops m := (loops_in cfg f md em0 m).

(** The parameters of the function, with their variables. *)
Definition params_of em : list (Parameter_ * BV) := zip (func_parameters f) (param_bvs em).
Lemma params_fit em : explored_from em -> Forall (fun p => value_width (param_ty p.1) = Some (get_width p.2)) (params_of em).
Proof.
  intros He. destruct (explored_alive _ _ _ _ _ _ _ _ unranked _ He) as (_ & _ & _ & _ & _ & Hfit & _). unfold params_of, param_bvs, args_fit in *.
  induction Hfit; cbn; [constructor|]. by constructor.
Qed.
(** The types whose values the analysis can report. *)
Definition reportable (p : Parameter_) : Prop :=
  match param_ty p with IntegerType bits => bits = 8 \/ bits = 16 \/ bits = 32 \/ bits = 64 | PointerType _ => True | _ => False end.
Lemma params_reportable em : explored_from em -> Forall reportable (func_parameters f) -> Forall AnalysesTheorems.param_ok (params_of em).
Proof.
  intros He Hr. pose proof (proj1 (Forall_forall _ _) (params_fit em He)) as Hfit. rewrite Forall_forall in Hr. apply Forall_forall. intros [p bv] Hin.
  specialize (Hfit _ Hin). pose proof (Hr p (elem_of_zip_l _ _ _ _ Hin)) as Hp. unfold reportable, AnalysesTheorems.param_ok in *. cbn in *.
  destruct (param_ty p); try done; injection Hfit as <-; [lia|done].
Qed.

(** Nothing is asserted at the start, and the inputs are the values of the
    variables of the parameters. *)
Lemma start_new : exists entry s0 bvs vm sol,
  em0 = em_new (set_solver sol (set_varmap vm s0)) project bvs (squash_unsats cfg) /\
  fresh_state {| module := md; func := f; bb := entry; instr := Instr 0; source_loc := None |} cfg s0 /\
  params_new widths (loop_bound cfg - 1) f s0 (func_parameters f) bvs vm sol /\ NoDup (param_name <$> func_parameters f).
Proof.
  destruct Hem as [_ Hfunc Hmain Hbound Hfits]. pose proof (fits_ok _ _ _ _ _ Hfits) as Hok. unfold program_ok in Hok. rewrite Forall_forall in Hok.
  destruct (Hok _ Hmain) as [Hf _]. unfold function_ok in Hf. rewrite !andb_true_iff in Hf. destruct Hf as [[[Hps _] _] Hnd%bool_decide_eq_true].
  destruct (new_manager funcname project cfg f md widths em0 Hnew Hfunc Hbound Hps) as (entry & s0 & bvs & vm & sol & _ & E & Hs0 & Hp).
  by exists entry, s0, bvs, vm, sol.
Qed.
Lemma start_solver : solver_ok (solver (em_state em0)) /\ forall m, models (solver (em_state em0)) m.
Proof.
  destruct start_new as (entry & s0 & bvs & vm & sol & E & Hs0 & Hp & _).
  by destruct (new_solver_ok project cfg f widths _ _ _ _ _ _ E Hs0 Hp) as (_ & ? & ?).
Qed.
Lemma inputs_new m : inputs_of f em0 m = eval m <$> param_bvs em0.
Proof.
  destruct start_new as (entry & s0 & bvs & vm & sol & -> & Hs0 & Hp & Hnd). by apply (new_values_of _ _ _ _ _ _ _ _ _ Hp (fresh_version _ _ _ Hs0)).
Qed.
Lemma start_bound : func (cur_loc (em_state em0)) = f /\
  forall p, p ∈ func_parameters f -> is_Some (binding (varmap (em_state em0)) (func_name f) (param_name p)).
Proof.
  destruct start_new as (entry & s0 & bvs & vm & sol & -> & Hs0 & Hp & Hnd). split; [cbn; by rewrite (fresh_loc _ _ _ Hs0)|].
  intros p [i Hi]%list_elem_of_lookup. cbn.
  destruct (Forall2_lookup_l _ _ _ _ _ (new_fit _ _ _ _ _ _ _ _ Hp) Hi) as (bv & Hbv & _).
  destruct (new_bound _ _ _ _ _ _ _ _ Hp inhabitant ∅ ∅) as [He _];
    [by intros n v Hn; rewrite lookup_empty in Hn|by intros fn' n v; rewrite (fresh_version _ _ _ Hs0)|].
  destruct (He (param_name p) (eval inhabitant bv)) as (bv' & Hl & _); [|by exists bv'].
  apply (bind_all_lookup _ _ _ _ i); [done|by rewrite list_lookup_fmap, Hi|by rewrite list_lookup_fmap, Hbv].
Qed.

(** The pointers among the parameters are not null in the model. *)
Definition nonnull_inputs em m : Prop := Forall (nonnull_in m) (params_of em).
Lemma nonnull_inputs_integers em m :
  Forall (fun p => match param_ty p with PointerType _ => False | _ => True end) (func_parameters f) -> nonnull_inputs em m.
Proof.
  intros Hp. rewrite Forall_forall in Hp. apply Forall_forall. intros [p bv] Hin%elem_of_zip_l%Hp. unfold nonnull_in. cbn. by destruct (param_ty p).
Qed.
Lemma nonnull_run params em : solver_ok (solver (em_state em)) ->
  exists sol, nonnull_pointers params em = (Ok tt, set_em_state (set_solver sol (em_state em)) em) /\ same_below (solver (em_state em)) sol /\
    forall m, models sol m <-> models (solver (em_state em)) m /\ Forall (nonnull_in m) params.
Proof.
  revert em. induction params as [|[p bv] params IH]; intros em O; cbn [nonnull_pointers forM].
  { exists (solver (em_state em)). split; [by destruct em as [[]]|]. split; [by apply same_below_same|]. intros m. rewrite Forall_nil. tauto. }
  destruct (param_ty p) eqn:Ety; try (destruct (IH em O) as (sol & E & Hb & Hm); exists sol; split; [exact E|]; split; [exact Hb|];
    intros m; rewrite Hm, Forall_cons; unfold nonnull_in at 2; cbn; rewrite Ety; tauto).
  set (c := bv_ne bv (bv_zero (get_width bv))). set (s1 := set_solver (btor_assert c (solver (em_state em))) (em_state em)).
  pose proof (width_pos bv) as Wp. destruct (bv_zero_law (get_width bv) Wp) as [Wz Ez].
  assert (get_width c = 1) as Wc by by apply (pred_width bv_ne _ _ _ bv_ne_law).
  pose proof (same_below_assert c _ Wc O) as Hb1. destruct (IH (set_em_state s1 em) (same_below_ok _ _ Hb1)) as (sol & E & Hb & Hm).
  exists sol. split; [exact E|]. split; [by eapply same_below_trans|]. intros m. rewrite Hm. cbn. rewrite models_assert by done.
  rewrite Forall_cons. unfold nonnull_in at 2. cbn. rewrite Ety. unfold c. rewrite (pred_eval bv_ne _ _ _ m bv_ne_law), Ez, b2z_1, negb_true_iff, Z.eqb_neq by done.
  tauto.
Qed.

(** After the assertions the exploration is one of the same program. *)
Lemma nonnull_explored : (exists m, nonnull_inputs em0 m) ->
  exists sol, let em1 := set_em_state (set_solver sol (em_state em0)) em0 in
    nonnull_pointers (params_of em0) em0 = (Ok tt, em1) /\ prepared f em0 em1 /\ explored_from em1 /\
    forall m, models sol m <-> nonnull_inputs em0 m.
Proof.
  intros [m0 Hm0]. destruct start_solver as [O Hall]. destruct (nonnull_run (params_of em0) em0 O) as (sol & E & Hb & Hm).
  assert (forall m, models sol m <-> nonnull_inputs em0 m) as Hm' by (intros m; rewrite Hm; unfold nonnull_inputs; naive_solver).
  exists sol. split; [exact E|]. assert (prepared f em0 (set_em_state (set_solver sol (em_state em0)) em0)) as Has.
  { exists (em_state em0), (set_solver sol (em_state em0)). split; [done|]. split; [by apply same_below_used|]. split; [|done]. exists m0. by apply Hm'. }
  split; [done|]. split; [|exact Hm']. destruct Hem as [_ Hf Hmain Hbound Hfits]. split; [|done..]. by exists em0.
Qed.

(** Fixing arguments binds parameters to constants, and the inputs change with
    them. *)
Definition arg_ok (x : Parameter_ * option Z) : Prop :=
  match x.2, value_width (param_ty x.1) with Some u, Some w => 0 <= u < 2 ^ 64 /\ u < 2 ^ w | _, _ => True end.
Fixpoint fix_inputs (args : list (option Z)) (xs : list Z) : list Z :=
  match args, xs with
  | Some u :: args, _ :: xs => u :: fix_inputs args xs
  | None :: args, x :: xs => x :: fix_inputs args xs
  | _, _ => xs
  end.
Definition fix_argument (x : Parameter_ * option Z) : M ExecutionManager unit :=
  let '(param, a) := x in
  match a with
  | Some val =>
      w ← lift (size (param_ty param));
      mut_state (State.overwrite_latest_version_of_bv (param_name param) (from_u64 val (as_u32 w)))
  | None => mret tt
  end.
Definition bound_param s p : Prop := is_Some (binding (varmap s) (func_name f) (param_name p)).

Lemma fix_argument_run em p u w :
  func (cur_loc (em_state em)) = f -> p ∈ func_parameters f -> bound_param (em_state em) p ->
  value_width (param_ty p) = Some w -> 0 < w < 2 ^ 32 -> 0 <= u < 2 ^ 64 -> u < 2 ^ w ->
  exists vm, let s := set_varmap vm (em_state em) in
    fix_argument (p, Some u) em = (Ok tt, set_em_state s em) /\ fixes f (em_state em) s /\
    (forall n, n <> param_name p -> binding vm (func_name f) n = binding (varmap (em_state em)) (func_name f) n) /\
    forall m, param_value vm f m p = u.
Proof.
  intros Hf Hp Hb Hty Hw Hu Hfit. set (bv := from_u64 u w). set (s := em_state em) in *.
  destruct (from_u64_law u w) as [Wb Eb]; [lia|lia|done|]. assert (cur_fn s = func_name f) as Efn by (unfold cur_fn; by rewrite Hf).
  set (vm := set_active (<[(func_name f, param_name p) := bv]> (active_version (varmap s))) (varmap s)).
  assert (State.overwrite_latest_version_of_bv (param_name p) bv s = (Ok tt, set_varmap vm s)) as Hrun by (apply overwrite_inv; by rewrite Efn).
  exists vm. split; [|split; [|split]].
  - unfold fix_argument. rewrite (size_value _ _ Hty). rewrite (bind_run _ _ _ _ _ (eq_refl : lift (Ok w) em = _)).
    assert (as_u32 w = w) as -> by (apply Z.mod_small; lia). unfold mut_state, zoom. fold s bv. by rewrite Hrun.
  - exists p, bv. split; [done|]. split; [unfold bv; by rewrite Hty, Wb|done].
  - intros n Hn. unfold binding. cbn. by rewrite lookup_insert_ne by congruence.
  - intros m. unfold param_value, binding. cbn. by rewrite lookup_insert_eq.
Qed.
Lemma set_em_state_twice s s' em : set_em_state s' (set_em_state s em) = set_em_state s' em.
Proof. done. Qed.
Lemma param_value_eq vm vm' m p : binding vm (func_name f) (param_name p) = binding vm' (func_name f) (param_name p) -> param_value vm f m p = param_value vm' f m p.
Proof. intros E. unfold param_value. by rewrite E. Qed.

Lemma fix_arguments_run ps : forall args em,
  func (cur_loc (em_state em)) = f -> ps ⊆ func_parameters f -> NoDup (param_name <$> ps) -> Forall (bound_param (em_state em)) ps ->
  Forall (fun p => exists w, value_width (param_ty p) = Some w /\ 0 < w < 2 ^ 32) ps -> Forall arg_ok (zip ps args) ->
  exists vm, let s := set_varmap vm (em_state em) in
    forM (zip ps args) fix_argument em = (Ok tt, set_em_state s em) /\ rtc (fixes f) (em_state em) s /\
    (forall n, n ∉ param_name <$> ps -> binding vm (func_name f) n = binding (varmap (em_state em)) (func_name f) n) /\
    forall m, param_value vm f m <$> ps = fix_inputs args (param_value (varmap (em_state em)) f m <$> ps).
Proof.
  assert (forall em, set_em_state (set_varmap (varmap (em_state em)) (em_state em)) em = em) as Hsame by by intros [[]].
  assert (forall s, set_varmap (varmap s) s = s) as Hsame' by by intros [].
  induction ps as [|p ps IH]; intros args em Hf Hps Hnd Hb Hw Ha.
  { exists (varmap (em_state em)). cbn. rewrite Hsame, Hsame'. split; [done|]. split; [done|]. split; [done|]. by destruct args as [|[u|] args]. }
  destruct args as [|a args].
  { exists (varmap (em_state em)). cbn. rewrite Hsame, Hsame'. done. }
  cbn [fmap list_fmap] in Hnd. apply NoDup_cons in Hnd as [Hn Hnd]. cbn [zip zip_with] in Ha |- *.
  apply Forall_cons in Hb as [Hbp Hb]. apply Forall_cons in Hw as [(w & Hty & Hwb) Hw]. apply Forall_cons in Ha as [Hap Ha].
  assert (ps ⊆ func_parameters f /\ p ∈ func_parameters f) as [Hps' Hp] by set_solver. cbn [forM].
  destruct a as [u|].
  - unfold arg_ok in Hap. cbn in Hap. rewrite Hty in Hap. destruct Hap as [Hu Hfit].
    destruct (fix_argument_run em p u w Hf Hp Hbp Hty Hwb Hu Hfit) as (vm1 & Hrun & Hfix & Hother & Hval).
    set (em1 := set_em_state (set_varmap vm1 (em_state em)) em) in *.
    assert (forall p', p' ∈ ps -> param_name p' <> param_name p) as Hne.
    { intros p' Hp' E. apply Hn. rewrite <- E. by apply list_elem_of_fmap_2. }
    destruct (IH args em1 Hf Hps' Hnd) as (vm & Hruns & Hrtc & Hothers & Hvals); [|done..|].
    { rewrite Forall_forall in Hb |- *. intros p' Hp'. unfold bound_param. cbn. rewrite Hother by by apply Hne. by apply Hb. }
    exists vm. split; [rewrite (bind_run _ _ _ _ _ Hrun); exact Hruns|]. split; [by eapply rtc_l|]. split.
    + intros n [Hn1 Hn2]%not_elem_of_cons. rewrite Hothers by done. by apply Hother.
    + intros m. cbn. rewrite Hvals. f_equal.
      * rewrite <- (Hval m). by apply param_value_eq, Hothers.
      * f_equal. apply list_fmap_ext. intros i p' Hp'. apply param_value_eq, Hother, Hne. by eapply list_elem_of_lookup_2.
  - destruct (IH args em Hf Hps' Hnd Hb Hw Ha) as (vm & Hruns & Hrtc & Hothers & Hvals). exists vm.
    split; [exact Hruns|]. split; [done|]. split; [intros n [Hn1 Hn2]%not_elem_of_cons; by apply Hothers|].
    intros m. cbn. rewrite Hvals. f_equal. by apply param_value_eq, Hothers.
Qed.

Lemma fix_arguments_explored args : Forall arg_ok (zip (func_parameters f) args) ->
  exists vm, let em1 := set_em_state (set_varmap vm (em_state em0)) em0 in
    forM (zip (func_parameters f) args) fix_argument em0 = (Ok tt, em1) /\ prepared f em0 em1 /\ explored_from em1 /\
    forall m, inputs_of f em1 m = fix_inputs args (inputs_of f em0 m).
Proof.
  intros Ha. destruct start_bound as [Hf Hb], start_new as (_ & _ & _ & _ & _ & _ & _ & _ & Hnd), start_solver as [O Hall].
  destruct (fix_arguments_run (func_parameters f) args em0) as (vm & Hrun & Hfix & _ & Hval); [done..|by apply Forall_forall| |done|].
  { pose proof (explored_fits _ _ _ _ _ _ _ _ _ Hem) as Hfits. pose proof (fits_ok _ _ _ _ _ Hfits) as Hok.
    unfold program_ok in Hok. rewrite Forall_forall in Hok. destruct (Hok _ (explored_main _ _ _ _ _ _ _ _ _ Hem)) as [Hfn _].
    unfold function_ok in Hfn. rewrite !andb_true_iff in Hfn. destruct Hfn as [[[Hps _] _] _]. rewrite forallb_forall in Hps.
    apply Forall_forall. intros p Hp. specialize (Hps p (proj1 (list_elem_of_In _ _) Hp)). unfold param_ok in Hps.
    destruct (value_width (param_ty p)) as [w|]; [|done]. exists w. split; [done|]. apply width_ok_inv. by apply andb_prop in Hps as [_ ?]. }
  exists vm. cbn zeta. set (em1 := set_em_state (set_varmap vm (em_state em0)) em0) in *. split; [exact Hrun|].
  assert (prepared f em0 em1) as Hp1.
  { exists (set_varmap vm (em_state em0)), (set_varmap vm (em_state em0)). split; [done|]. split; [by apply used_refl|].
    split; [by exists inhabitant; apply Hall|done]. }
  split; [done|]. split; [|exact Hval]. destruct Hem as [_ Hfunc Hmain Hbound Hfits]. split; [|done..]. by exists em0.
Qed.

Lemma params_length : length (params_of em0) = length (func_parameters f).
Proof.
  destruct (explored_alive _ _ _ _ _ _ _ _ unranked _ Hem) as (_ & _ & _ & _ & _ & Hfit & _).
  unfold params_of, param_bvs. rewrite length_zip. rewrite (Forall2_length _ _ _ Hfit). lia.
Qed.

(** What the two analyses do after the state was made, for these types. *)
Lemma find_zero_runs rounds fuel w s1 : let em1 := set_em_state s1 em0 in
  nonnull_pointers (params_of em0) em0 = (Ok tt, em1) -> func_return_type f = IntegerType w -> 0 < w < 2 ^ 32 ->
  find_zero_of_func rounds fuel funcname project cfg =
  ((found ← zero_loop rounds fuel (bv_zero w); if (found : bool) then values ← input_values (params_of em0); mret (Some values) else mret None) em1).1.
Proof.
  intros em1 Hn Hty Hw. unfold find_zero_of_func. rewrite Hnew. cbn [mbind outcome_bind].
  rewrite (explored_function _ _ _ _ _ _ _ _ _ Hem). cbn - [nonnull_pointers zero_loop input_values]. fold (params_of em0).
  rewrite (bind_run _ _ _ _ _ Hn), Hty, size_integer. rewrite (bind_run _ _ _ _ _ (eq_refl : lift (Ok w) em1 = _)).
  assert (as_u32 w = w) as -> by (apply Z.mod_small; lia). done.
Qed.
Lemma return_values_runs rounds fuel args thrown_size n w s1 : let em1 := set_em_state s1 em0 in
  forM (zip (func_parameters f) args) fix_argument em0 = (Ok tt, em1) -> func_return_type f = IntegerType w ->
  get_possible_return_values_of_func rounds fuel funcname args project cfg thrown_size n =
  (c ← (values_loop rounds fuel thrown_size w n [] false em1).1; mret (if n <? Z.of_nat (length c) then AtLeastRV c else ExactlyRV c)).
Proof.
  intros em1 Hrun Hty. unfold get_possible_return_values_of_func. rewrite Hnew. cbn [mbind outcome_bind].
  rewrite (explored_function _ _ _ _ _ _ _ _ _ Hem). cbn - [values_loop forM].
  change (forM _ _) with (forM (zip (func_parameters f) args) fix_argument). rewrite (bind_run _ _ _ _ _ Hrun), Hty, size_integer.
  by rewrite (bind_run _ _ _ _ _ (eq_refl : lift (Ok w) em1 = _)).
Qed.

(** C4: [find_zero_of_func] decides whether the program returns zero.  When it
    answers [None], the program, run by the reference semantics, returns zero on
    no inputs within the loop bound in which the pointers are not null.  When it
    answers with values, there are such inputs on which the program returns
    zero, and each value is that of its parameter in such inputs (an integer in
    its signed interpretation). *)
Theorem find_zero_exact rounds fuel w o :
  (forall x, sol_as_u64 x = sol_as_u64 (disambiguate x)) -> (exists m, nonnull_inputs em0 m) ->
  func_return_type f = IntegerType w -> 0 < w < 2 ^ 32 -> Forall reportable (func_parameters f) ->
  find_zero_of_func rounds fuel funcname project cfg = Ok o ->
  match o with
  | None => forall m, nonnull_inputs em0 m -> ~ program_loops m -> ~ program_returns m (Some 0)
  | Some xs => (exists m, nonnull_inputs em0 m /\ program_returns m (Some 0)) /\ length xs = length (func_parameters f) /\
      forall i p x, func_parameters f !! i = Some p -> xs !! i = Some x ->
        exists m u, nonnull_inputs em0 m /\ program_returns m (Some 0) /\ inputs_of f em0 m !! i = Some u /\ solution_value (param_ty p) u = Ok x
  end.
Proof.
  intros Hdis Hsome Hty Hw Hrep. destruct (nonnull_explored Hsome) as (sol & Hrun & Has & He & Hm).
  rewrite (find_zero_runs _ _ w _ Hrun Hty Hw). set (em1 := set_em_state (set_solver sol (em_state em0)) em0) in *.
  destruct (zero_loop rounds fuel (bv_zero w) em1) as [[found|e|p|] em'] eqn:Ez; unfold mbind at 1, M_bind at 1; rewrite Ez; try done.
  assert (func_return_type f = IntegerType (get_width (bv_zero w))) as Hz by (destruct (bv_zero_law w) as [-> _]; [lia|done]).
  pose proof (zero_loop_program _ _ _ _ _ _ _ _ em1 He (bv_zero w) (fun m => zero_eval w m ltac:(lia)) Hz rounds fuel em1 [] found em'
                (visits_none em1) (List.Forall_nil _) Ez) as Ha.
  destruct found; cbn - [input_values]; [|intros [= <-] m Hnn; apply Ha; by apply Hm]. destruct Ha as ([m0 Hm0] & G & Ha).
  unfold mbind, M_bind. destruct (input_values (params_of em0) em') as [[xs|e|p|] em''] eqn:Ei; try done. cbn. intros [= <-].
  assert (forall m, models (solver (em_state em')) m -> nonnull_inputs em0 m /\ program_returns m (Some 0)) as Hret.
  { intros m [Hall Hr]%Ha. split; [by apply Hm|exact Hr]. }
  split; [exists m0; by apply Hret|].
  pose proof (wp_run _ _ _ _ _ Ei (wp_input_values Hdis _ em' (params_reportable em0 Hem Hrep) (ex_intro _ m0 Hm0) G)) as Hr. cbn in Hr.
  split; [rewrite <- (Forall2_length _ _ _ Hr); apply params_length|]. intros i p x Hp Hx.
  destruct (Forall2_lookup_r _ _ _ _ _ Hr Hx) as ([p' bv] & [Hp' Hbv]%lookup_zip_Some & (u & (m & Hmm & <-) & Hu)). cbn in Hbv, Hu.
  assert (p' = p) as -> by (cbn in Hp'; congruence). destruct (Hret m Hmm). exists m, (eval m bv). split; [done|]. split; [done|]. split; [|done].
  by rewrite inputs_new, list_lookup_fmap, Hbv.
Qed.

(** The program on the inputs of a model with the fixed arguments. *)
Definition returns_with args m (v : option Z) : Prop :=
  returns_on (linked_in em0) md f (fix_inputs args (inputs_of f em0 m)) (memory_of em0 m) v.
Definition loops_with args m : Prop :=
  loops_beyond (linked_in em0) (loop_bound cfg) md f (fix_inputs args (inputs_of f em0 m)) (memory_of em0 m).
Definition returned_with args (c : Candidates) : Prop := forall x, x ∈ c -> exists u m, x = Return u /\ returns_with args m (Some u).

(** C5: [get_possible_return_values_of_func] reports the values that the program
    returns when some arguments are fixed.  Each reported value is returned by the
    program, run by the reference semantics, on some inputs with these arguments;
    there are no duplicates; and when it answers that these are all ([Exactly]),
    there are at most [n], and whatever the program returns on inputs with these
    arguments within the loop bound is among them.  Otherwise there are more than
    [n]. *)
Theorem return_values_exact rounds fuel args thrown_size n w r :
  func_return_type f = IntegerType w -> 0 < w <= 64 -> 0 <= n < 2 ^ 64 -> Forall arg_ok (zip (func_parameters f) args) ->
  get_possible_return_values_of_func rounds fuel funcname args project cfg thrown_size n = Ok r ->
  match r with
  | ExactlyRV c =>
      NoDup c /\ Z.of_nat (length c) <= n /\ returned_with args c /\
      forall m u, ~ loops_with args m -> returns_with args m (Some u) -> Return u ∈ c
  | AtLeastRV c => NoDup c /\ n < Z.of_nat (length c) /\ returned_with args c
  end.
Proof.
  intros Hty Hw Hn Hargs. destruct (fix_arguments_explored args Hargs) as (vm & Hrun & _ & He & Hin).
  rewrite (return_values_runs _ _ _ _ _ w _ Hrun Hty). set (em1 := set_em_state (set_varmap vm (em_state em0)) em0) in *.
  destruct (values_loop rounds fuel thrown_size w n [] false em1) as [[c|e|p|] em'] eqn:Ev; try done. cbn. intros [= <-].
  destruct (values_loop_program _ _ _ _ _ _ _ _ em1 He w n Hty Hw Hn thrown_size fuel rounds em1 [] [] false c em' (visits_none em1)) as (Hnd & Hret & Hall);
    [constructor|by intros u Hu%elem_of_nil|by intros x Hx%elem_of_nil|constructor|exact Ev|].
  assert (returned_with args c) as Hret'.
  { intros x Hx. destruct (Hret x Hx) as (u & m & -> & Hr). exists u, m. split; [done|]. unfold returns_in in Hr. by rewrite Hin in Hr. }
  destruct (Z.ltb_spec n (Z.of_nat (length c))); [done|]. split_and!; [done..|]. intros m u Hl Hr. apply (Hall ltac:(done) m u (proj2 start_solver m)).
  - unfold loops_in. by rewrite Hin.
  - unfold returns_in. by rewrite Hin.
Qed.

(** C6: the two analyses always answer.  On a program that cannot go on for ever
    without binding names there is a number of rounds and an amount of fuel from
    which on both return: [find_zero_of_func] gives an answer, or the error of a
    path that cannot be followed; [get_possible_return_values_of_func] gives an
    answer, or panics because a path ended with an error.  So the theorems on
    their answers do not hold for want of one. *)
Theorem analyses_answer rk w thrown_size n args :
  (forall x, sol_as_u64 x = sol_as_u64 (disambiguate x)) -> (exists m, nonnull_inputs em0 m) ->
  program_ranked (linked_in em0) rk program = true ->
  func_return_type f = IntegerType w -> 0 < w <= 64 -> Forall reportable (func_parameters f) ->
  0 <= n < 2 ^ 64 -> Forall arg_ok (zip (func_parameters f) args) ->
  exists N, forall rounds fuel, (N <= rounds)%nat -> (N <= fuel)%nat ->
    match find_zero_of_func rounds fuel funcname project cfg with
    | Ok _ => True
    | Err e => exists em1, prepared f em0 em1 /\ path_error em1 e
    | _ => False
    end /\
    match get_possible_return_values_of_func rounds fuel funcname args project cfg thrown_size n with
    | Ok _ => True
    | Panic _ => exists em1 e, prepared f em0 em1 /\ path_error em1 e
    | _ => False
    end.
Proof.
  intros Hdis Hsome Hr Hty Hw Hrep Hn Hargs. destruct (nonnull_explored Hsome) as (sol & Hrun & Has & He & Hm).
  destruct (fix_arguments_explored args Hargs) as (vm & Hrun2 & Has2 & He2 & _).
  destruct (ranked_bounded _ _ _ _ _ _ _ _ _ He rk Hr) as [N1 HN1]. destruct (ranked_bounded _ _ _ _ _ _ _ _ _ He2 rk Hr) as [N2 HN2].
  exists (S (N1 + N2)). intros rounds fuel Hrounds Hfuel. split.
  - rewrite (find_zero_runs _ _ w _ Hrun Hty ltac:(lia)). set (em1 := set_em_state (set_solver sol (em_state em0)) em0) in *.
    assert (func_return_type f = IntegerType (get_width (bv_zero w))) as Hz by (destruct (bv_zero_law w) as [-> _]; [lia|done]).
    pose proof (zero_loop_total _ _ _ _ _ _ _ _ em1 He N1 (bv_zero w) rounds fuel HN1 Hz ltac:(lia) em1 [] (visits_none em1) ltac:(cbn; lia)) as Ht.
    destruct (zero_loop rounds fuel (bv_zero w) em1) as [[found|e|p|] em'] eqn:Ez; unfold mbind at 1, M_bind at 1; rewrite Ez; [|by exists em1|done..].
    pose proof (zero_loop_program _ _ _ _ _ _ _ _ em1 He (bv_zero w) (fun m => zero_eval w m ltac:(lia)) Hz rounds fuel em1 [] found em'
                  (visits_none em1) (List.Forall_nil _) Ez) as Ha.
    destruct found; [|done]. destruct Ha as (Hsat & G & Ha). unfold mbind, M_bind.
    destruct (input_values (params_of em0) em') as [[xs|e|p|] em''] eqn:Ei; [done|..];
      pose proof (wp_run _ _ _ _ _ Ei (wp_input_values Hdis _ em' (params_reportable em0 Hem Hrep) Hsat G)) as Hi; cbn in Hi; [|done..].
    by destruct (never_failed e).
  - rewrite (return_values_runs _ _ _ _ _ w _ Hrun2 Hty). set (em1 := set_em_state (set_varmap vm (em_state em0)) em0) in *.
    pose proof (values_loop_total _ _ _ _ _ _ _ _ em1 He2 N2 thrown_size w n rounds fuel HN2 Hty Hw Hn ltac:(lia) em1 [] [] false (visits_none em1)) as Ht.
    assert (fit w []) as Hfit by by intros x Hx%elem_of_nil. assert (all_returned f md em1 []) as Hret by by intros x Hx%elem_of_nil.
    specialize (Ht ltac:(constructor) Hfit Hret ltac:(cbn; lia)).
    destruct (values_loop rounds fuel thrown_size w n [] false em1) as [[c|e|p|] em'] eqn:Ev; cbn; try done. destruct Ht as [e Hpe]. by exists em1, e.
Qed.

End answers.
