(* ===== verification/Examples.v ===== *)
(** * Examples: a small program, run and used as a witness

    A two-function program in the model's IR, the toy solver, cell memory and
    LLVM instance put together.  The first part runs the execution manager on
    it; the rest instantiates the theorems about the state, the instructions
    and the exploration. *)
From S2P Require Import Prelude Bits Backend ToySolver SolverUtils MemorySpec Memory Alloc LLVMIR ToyLLVM Project Layout VarMap Watchpoints FunctionHooks GlobalAllocations Config State Operands HookUtils Hooks SymexInstr Symex StateTheorems SymexTheorems LevelTheorems EngineTheorems Analyses EngineInvariant AnalysesTheorems InstrTheorems DataTheorems ConstTheorems MemInstrTheorems CopyTheorems.

From stdpp Require Import finite.

Open Scope Z_scope.

Module Program.
Import ToyBackend Toy CellBackend ToyLLVM ToyLevels.

#[export] Instance no_structs : LLVM := toy_llvm [].
#[export] Instance fuel : ConstFuel := 10%nat.
#[export] Instance no_user_code : UserCode := {|
  user_hook _ _ _ := mret ReturnVoid;
  instruction_callback _ _ := mret tt;
  terminator_callback _ _ := mret tt
|}.

Definition i8 : Type_ := IntegerType 8.
Definition var (n : string) (ty : Type_) : Operand := LocalOperand (NameStr n) ty.
Definition num (v : Z) : Operand := ConstantOperand (CInt 8 v).
Definition block (n : string) (ins : list Instruction) (t : Terminator) : BasicBlock :=
  {| bb_name := NameStr n; bb_instrs := ins; bb_term := t |}.
Definition fn (n : string) (params : list string) (bbs : list BasicBlock) : Function_ :=
  {| func_name := n; func_parameters := (fun p => {| param_name := NameStr p; param_ty := i8 |}) <$> params;
     func_is_var_arg := false; func_return_type := i8; func_basic_blocks := bbs; func_linkage := External |}.
Definition prog (fs : list Function_) : Project :=
  {| modules := [{| mod_name := "m"; mod_source_file_name := "m.c"; mod_functions := fs; mod_global_vars := [];
                    mod_global_aliases := []; mod_named_struct_types := ∅ |}] |}.
Definition call_g (d : string) (arg : Operand) : Call :=
  {| call_function := inr (ConstantOperand (CGlobalReference (NameStr "g") (FuncType i8 [i8] false)));
     call_arguments := [arg]; call_dest := Some (NameStr d) |}.

(** [f x = if x < 3 then g x else switch x { 3, 4 => 100, 5 => 200, _ => x }] *)
Definition cond : CondBr :=
  {| condbr_condition := var "c" (IntegerType 1); condbr_true_dest := NameStr "then"; condbr_false_dest := NameStr "else" |}.
Definition sw : Switch :=
  {| switch_operand := var "x" i8;
     switch_dests := [(CInt 8 3, NameStr "small"); (CInt 8 4, NameStr "small"); (CInt 8 5, NameStr "five")];
     switch_default_dest := NameStr "other" |}.
Definition f_entry : BasicBlock :=
  block "entry" [IICmp {| icmp_predicate := ULT; icmp_operand0 := var "x" i8; icmp_operand1 := num 3; icmp_dest := NameStr "c" |}]
    (TCondBr cond).
Definition f : Function_ := fn "f" ["x"]
  [f_entry;
   block "then" [ICall (call_g "y" (var "x" i8))] (TRet (Some (var "y" i8)));
   block "else" [] (TSwitch sw);
   block "small" [] (TRet (Some (num 100)));
   block "five" [] (TRet (Some (num 200)));
   block "other" [] (TRet (Some (var "x" i8)))].
(** [g z = z + 10] *)
Definition g : Function_ := fn "g" ["z"]
  [block "entry" [IBinaryOp {| bop_kind := OpAdd; bop_operand0 := var "z" i8; bop_operand1 := num 10; bop_dest := NameStr "r" |}]
     (TRet (Some (var "r" i8)))].
Definition P : Project := prog [f; g].
Definition cfg : Config := config_with_hooks hooks_new.

(** The values of the result of each path, under the models of its constraints. *)
Definition path_values (s : State) (r : outcome (option (outcome (ReturnValue BV)))) : list (Z * Z) :=
  match r with
  | Ok (Some (Ok (Return v))) =>
      match lookup_var (varmap s) "f" (NameStr "x") with
      | Ok x => remove_dups (List.map (fun m : model => (teval m x, teval m v)) (List.filter (tsat_model (solver s)) (enum model)))
      | _ => []
      end
  | _ => []
  end.

Fixpoint paths (n : nat) (em : ExecutionManager) : list (list (Z * Z)) :=
  match n with
  | O => []
  | S n => let '(r, em) := next 20 em in path_values (em_state em) r :: paths n em
  end.

(** The exploration finds every path of [f] once, with the right values. *)
Example exploration_runs :
  (fun r => match r with Ok em => paths 6 em | _ => [] end) (symex_function "f" P cfg) =
  [[(2, 12); (1, 11); (0, 10)]; [(3, 100)]; [(7, 7); (6, 6)]; [(5, 200)]; [(4, 100)]; []].
Proof. vm_compute. reflexivity. Qed.

(** ** A state in the middle of [f] *)

Definition M : Module_ := {| mod_name := "m"; mod_source_file_name := "m.c"; mod_functions := [f; g]; mod_global_vars := [];
                             mod_global_aliases := []; mod_named_struct_types := ∅ |}.
Definition at_block (b : BasicBlock) : Location :=
  {| module := M; func := f; bb := b; instr := TerminatorIdx; source_loc := None |}.
Definition st_new (c : Config) : State :=
  {| solver := snd (Memory.new_uninitialized true None solver_new); config := c; cur_loc := at_block f_entry;
     varmap := {| active_version := ∅; version_num := ∅; max_version_num := 9 |};
     mem := fst (Memory.new_uninitialized true None solver_new); allocator := alloc_new; global_allocations := ga_new;
     intrinsic_hooks := hooks_new; stack := []; backtrack_points := []; path := []; mem_watchpoints := ∅;
     function_ptr_cache := ∅ |}.
(** [x] is the parameter and [c] the condition [x < 3]. *)
Definition x : BV := fst (bv_new 8 (Some "f@x_1") (solver (st_new cfg))).
Definition c : BV := ult x (from_u64 3 8).
Definition st : State := snd (assign_bv_to_name (NameStr "c") c (snd (new_bv_with_name (NameStr "x") 8 (st_new cfg)))).

Lemma solver_ok_st : solver_ok (solver st).
Proof. done. Qed.
Lemma no_query_fails e : ~ query_failed e.
Proof.
  intros [_ [s Hs]]. cbn in Hs. unfold tsat in Hs. by destruct (List.find (tsat_model s) (enum model)).
Qed.
Lemma models_st (m : model) : models (solver st) m.
Proof. constructor. Qed.

(** Rocq's [vm_compute] decides the closed facts below. *)
Ltac closed := vm_compute; (reflexivity || done).

Definition E : Engine := engine P true 5.

Lemma condbr_witness :
  exists s2 bp, symex_condbr E cond st = symex_from_cur_loc_through_end_of_function E s2 /\
    continues st (NameStr "then") (fun m => eval m c = 1) s2 /\
    backtrack_points s2 = [bp] /\ saved st (NameStr "else") (fun m => eval m c = 0) bp.
Proof.
  destruct (condbr_explores E cond st st c (block "then" [ICall (call_g "y" (var "x" i8))] (TRet (Some (var "y" i8))))
    (block "else" [] (TSwitch sw))) as [(e & s2 & _ & Hq)|(s2 & Hc)]; try reflexivity; [done|by apply no_query_fails in Hq|].
  assert (feasible (solver st) (fun m => eval m c = 1)) as HT.
  { exists (false, false, false, false). split; [apply models_st|reflexivity]. }
  assert (feasible (solver st) (fun m => eval m c = 0)) as HF.
  { exists (true, true, true, true). split; [apply models_st|reflexivity]. }
  destruct Hc as [(_ & _ & H1 & H2 & bp & H3 & H4)|[(_ & Hn & _)|[(Hn & _)|(Hn & _)]]]; [|by destruct Hn..].
  exists s2, bp. by rewrite H3.
Defined.

Lemma switch_witness :
  exists s3 n Q bps, symex_switch E sw st = symex_from_cur_loc_through_end_of_function E s3 /\
    explores st (goes_to x [(from_u64 3 8, NameStr "small"); (from_u64 4 8, NameStr "small"); (from_u64 5 8, NameStr "five")]
                   (NameStr "other")) s3 n Q bps.
Proof.
  destruct (switch_explores E sw st st st x
    [(from_u64 3 8, NameStr "small"); (from_u64 4 8, NameStr "small"); (from_u64 5 8, NameStr "five")])
    as [(e & s3 & _ & Hq)|Hx]; try reflexivity.
  - done.
  - repeat constructor; by eexists.
  - by eexists.
  - by apply no_query_fails in Hq.
  - exact Hx.
Defined.

(** Two points saved, one reverted to, memory and variables changed in between. *)
Definition after_save : State := snd (save_backtracking_point_at_location (at_block f_entry) c st).
Definition in_between : State :=
  set_varmap (varmap (st_new cfg)) (snd (revert_to_backtracking_point (snd (save_backtracking_point_at_location
    (at_block f_entry) (bv_not c) (snd (assert_bv (bv_not c) after_save)))))).

Lemma backtracking_witness :
  exists s3, revert_to_backtracking_point in_between = (Ok true, s3) /\ varmap s3 = varmap st /\
    forall m, models (solver s3) m <-> models (solver st) m /\ eval m c = 1.
Proof.
  destruct (backtracking_restores st (at_block f_entry) c after_save in_between) as (s3 & Hr & _ & Hv & _ & _ & _ & _ & Hm & _);
    [done|reflexivity|reflexivity| |reflexivity|by exists s3].
  eapply rtc_l; [by apply (step_assert _ after_save (bv_not c))|].
  eapply rtc_l; [by apply (step_save _ _ (at_block f_entry) (bv_not c))|].
  eapply rtc_l; [apply step_revert; vm_compute; lia|]. eapply rtc_l; [apply step_varmap|]. apply rtc_refl.
Defined.

(** A recursive call to [f] binds [x] again. *)
Definition in_callee : State :=
  set_stack (stack (snd (push_generic_callsite (LeftCall (call_g "y" (var "x" i8))) st)))
    (snd (assign_bv_to_name (NameStr "x") (from_u64 7 8) st)).

Lemma call_witness :
  exists s3, pop_callsite in_callee =
      (Ok (Some {| callsite_loc := cur_loc st; callsite_instr := LeftCall (call_g "y" (var "x" i8)) |}), s3) /\
    lookup_var (varmap s3) "f" (NameStr "x") = Ok x.
Proof.
  destruct (call_restores_caller st (LeftCall (call_g "y" (var "x" i8))) in_callee (solver st)) as (s3 & Hp & _ & Hl & _).
  - eapply rtc_once.
    by apply (VarMap.step_assign (varmap st) (solver st) "f" (NameStr "x") (from_u64 7 8)).
  - reflexivity.
  - exists s3. split; [exact Hp|]. by apply Hl.
Defined.

Definition em0 : ExecutionManager :=
  match symex_function "f" P cfg with Ok em => em | _ => em_new st P [] true end.


Lemma next_witness : fst (next 20 em0) <> OutOfFuel /\ next 40 em0 = next 20 em0.
Proof.
  assert (fst (next 20 em0) <> OutOfFuel) as Hr by (vm_compute; discriminate).
  split; [exact Hr|]. apply (next_fuel_independent em0 20 40); [exact Hr|lia].
Defined.

#[export] Instance calm_no_user_code : CalmUserCode.
Proof. split; intros; apply calm_ret. Qed.

Lemma reached_em0 : reached "f" P cfg em0.
Proof.
  exists em0. split; [|apply later_refl]. assert (is_ok (symex_function "f" P cfg) = true) as E1 by (vm_compute; reflexivity).
  unfold em0. destruct (symex_function "f" P cfg) as [em1|e|p|]; [reflexivity|discriminate E1..].
Qed.
Lemma later_after em1 em : is_ok (fst (next 20 em)) = true -> later em1 em -> later em1 (snd (next 20 em)).
Proof.
  intros E2 Hl. destruct (fst (next 20 em)) as [r|e|p|] eqn:En; [|discriminate E2..].
  apply (later_next em1 20 em r); [exact Hl|]. rewrite <- En. apply surjective_pairing.
Qed.

(** After the first path there is one point to go back to. *)
Lemma exploration_invariant_witness :
  let em := snd (next 20 em0) in
  length (backtrack_points (em_state em)) = 1%nat /\ length (assertions (solver (em_state em))) = 2%nat.
Proof.
  cbv zeta. set (em := snd (next 20 em0)).
  assert (reached "f" P cfg em) as Hr.
  { destruct reached_em0 as (e0 & H1 & H2). exists e0. split; [exact H1|]. apply later_after; [vm_compute; reflexivity|exact H2]. }
  destruct (exploration_invariant "f" P cfg em Hr) as [Hl _].
  assert (length (backtrack_points (em_state em)) = 1%nat) as Hb by (vm_compute; reflexivity).
  split; [exact Hb|]. rewrite Hl, Hb. reflexivity.
Defined.

(** The caller assumes that [x] is not 1; that still holds after two paths and
    the reverts between them. *)
Definition param_x : BV := match param_bvs em0 with b :: _ => b | [] => x end.
Definition em_assume : ExecutionManager :=
  set_em_state (set_solver (btor_assert (bv_ne param_x (from_u64 1 8)) (solver (em_state em0))) (em_state em0)) em0.
Definition em_two : ExecutionManager := snd (next 20 (snd (next 20 em_assume))).

Lemma assumptions_persist_witness :
  existsb (tsat_model (solver (em_state em_two))) (enum model) = true /\
  forall m, models (solver (em_state em_two)) m -> models (solver (em_state em_assume)) m.
Proof.
  split; [vm_compute; reflexivity|]. intros m.
  assert (reached "f" P cfg em_assume) as Hr.
  { destruct reached_em0 as (e0 & H1 & H2). exists e0. split; [exact H1|]. apply later_use; [exact H2|apply undisturbed_assert]. }
  assert (length (backtrack_points (em_state em_assume)) = 0%nat) as Hb by (vm_compute; reflexivity). apply nil_length_inv in Hb.
  assert (later em_assume em_two) as Hl.
  { apply later_after; [vm_compute; reflexivity|]. apply later_after; [vm_compute; reflexivity|apply later_refl]. }
  exact (assumptions_persist "f" P cfg em_assume em_two m Hr Hb Hl).
Defined.

(** The values that [f] can return, from its five paths. *)
Definition some_model (s : State) : bool := existsb (tsat_model (solver s)) (enum model).
Definition path_okb (p : State * ReturnValue BV) : bool :=
  match p with
  | (s, Return v) =>
      negb (bool_decide (assertions (solver s) = [])) && negb (model_gen (solver s)) && some_model s && (get_width v =? 8)
  | _ => true
  end.
Lemma path_okb_ok p : path_okb p = true -> path_ok 8 p.
Proof.
  destruct p as [s [v| |u|]]; cbn - [some_model solver_ok satisfiable get_width]; [|done..]. intros [[[H1 H2]%andb_true_iff H3]%andb_true_iff H4%Z.eqb_eq]%andb_true_iff.
  split_and!; [| | |done|by rewrite H4].
  - apply negb_true_iff, bool_decide_eq_false in H1. unfold solver_ok. done.
  - by apply negb_true_iff.
  - apply existsb_exists in H3 as (m & _ & Hm). exists m. by apply tsat_model_models.
Qed.

Lemma return_values_correct_witness :
  exists paths c, length paths = 5%nat /\ fst (values_loop 6 20 None 8 20 [] false em0) = Ok c /\
    Z.of_nat (length c) <= 20 /\ forall x, AnalysesTheorems.result_of paths x -> match x with Throw _ => exists u, Throw u ∈ c | _ => x ∈ c end.
Proof.
  destruct (visited 20 8 20 6 em0 [] false) as [[paths all]|] eqn:Ev.
  - assert (length paths = 5%nat /\ forallb path_okb paths = true /\ all = true) as (H1 & H2 & ->).
    { assert (match visited 20 8 20 6 em0 [] false with
              | Some (paths, all) => (length paths, forallb path_okb paths, all) | _ => (0%nat, false, false) end = (5%nat, true, true)) as Hc
        by (vm_compute; reflexivity). rewrite Ev in Hc. apply pair_equal_spec in Hc as [[H1 H2]%pair_equal_spec H3]. exact (conj H1 (conj H2 H3)). }
    destruct (return_values_correct 20 8 20 em0 paths true 6) as (c & E & _ & _ & _ & Hn & Hc).
    + by apply (visited_visits _ _ _ 6).
    + apply Forall_forall. intros p Hp. apply path_okb_ok. apply (proj1 (forallb_forall _ _) H2). by apply list_elem_of_In.
    + lia.
    + lia.
    + exists paths, c. exact (conj H1 (conj E (conj Hn Hc))).
  - assert (bool_decide (is_Some (visited 20 8 20 6 em0 [] false)) = true) as Hc by (vm_compute; reflexivity).
    rewrite Ev in Hc. discriminate Hc.
Defined.

(** [z x = if x < 3 then 7 else x - 6], which returns zero on its second path. *)
Definition z : Function_ := fn "z" ["x"]
  [f_entry;
   block "then" [] (TRet (Some (num 7)));
   block "else" [IBinaryOp {| bop_kind := OpSub; bop_operand0 := var "x" i8; bop_operand1 := num 6; bop_dest := NameStr "r" |}]
     (TRet (Some (var "r" i8)))].
Definition Mz : Module_ := {| mod_name := "m"; mod_source_file_name := "m.c"; mod_functions := [z]; mod_global_vars := [];
                              mod_global_aliases := []; mod_named_struct_types := ∅ |}.
Definition Pz : Project := {| modules := [Mz] |}.
Definition end_okb (p : State * BV) : bool :=
  negb (bool_decide (assertions (solver p.1) = [])) && negb (model_gen (solver p.1)) && (get_width p.2 =? 8).
Lemma end_okb_ok p : end_okb p = true -> end_ok (bv_zero 8) p.
Proof.
  intros [[H1 H2]%andb_true_iff H3%Z.eqb_eq]%andb_true_iff. split; [|split; [by apply negb_true_iff|by rewrite H3]].
  apply negb_true_iff, bool_decide_eq_false in H1. unfold solver_ok. done.
Qed.

Definition emz : ExecutionManager :=
  match symex_function "z" Pz cfg with Ok em => em | _ => em_new st Pz [] true end.
Definition found_summary (r : option (nat * list (State * BV) * option State)) : nat * bool * bool :=
  match r with Some (k, paths, o) => (k, forallb end_okb paths, bool_decide (is_Some o)) | None => (100%nat, false, false) end.

Lemma find_zero_correct_witness :
  exists xs, find_zero_of_func 5 20 "z" Pz cfg = Ok (Some xs) /\ length xs = 1%nat.
Proof.
  assert (found_summary (search 20 (bv_zero 8) 5 emz) = (1%nat, true, true)) as Hc by (vm_compute; reflexivity).
  destruct (search 20 (bv_zero 8) 5 emz) as [[[k paths] o]|] eqn:Es; [|discriminate Hc].
  apply pair_equal_spec in Hc as [[Hk H2]%pair_equal_spec H3]. apply search_searched in Es.
  assert (symex_function "z" Pz cfg = Ok emz) as E1.
  { assert (is_ok (symex_function "z" Pz cfg) = true) as E1 by (vm_compute; reflexivity).
    unfold emz. destruct (symex_function "z" Pz cfg); [reflexivity|discriminate E1..]. }
  assert (length (param_bvs emz) = 1%nat /\ forallb (fun b => get_width b =? 8) (param_bvs emz) = true) as [L1 L2]
    by (vm_compute; split; reflexivity).
  destruct o as [s'|]; [|discriminate H3]. destruct (param_bvs emz) as [|b [|]] eqn:Eb; [discriminate L1| |discriminate L1].
  apply andb_true_iff in L2 as [L2%Z.eqb_eq _].
  assert (zip (func_parameters z) (param_bvs emz) = [({| param_name := NameStr "x"; param_ty := i8 |}, b)]) as Ep by by rewrite Eb.
  destruct (find_zero_correct 5 20 "z" Pz cfg emz z Mz emz 8 k paths (Some s')) as [(e & _ & Hq)|(xs & p & s2 & E & _ & _ & Hx)];
    [done|exact E1|reflexivity|rewrite Ep; reflexivity|reflexivity|reflexivity|exact Es|lia| | | |].
  - apply Forall_forall. intros q Hq. apply end_okb_ok, (proj1 (forallb_forall _ _) H2). by apply list_elem_of_In.
  - rewrite Ep. apply Forall_singleton. split; [change (get_width b <= 64); lia|by left].
  - destruct (no_query_fails e Hq).
  - exists xs. split; [exact E|]. apply Forall2_length in Hx. rewrite Ep in Hx. by rewrite <- Hx.
Defined.

(** [zp p = 0] for a pointer [p]. *)
Definition zp : Function_ :=
  {| func_name := "zp"; func_parameters := [{| param_name := NameStr "p"; param_ty := PointerType i8 |}]; func_is_var_arg := false;
     func_return_type := i8; func_basic_blocks := [block "entry" [] (TRet (Some (num 0)))]; func_linkage := External |}.
Definition Pp : Project := prog [zp].
Definition emp : ExecutionManager :=
  match symex_function "zp" Pp cfg with Ok em => em | _ => em_new st Pp [] true end.
Definition ptr_params : list (Parameter_ * BV) := zip (func_parameters zp) (param_bvs emp).
Definition emp_nonnull : ExecutionManager := snd (nonnull_pointers ptr_params emp).

Lemma inputs_not_null_witness :
  exists k paths o, searched 20 (bv_zero 8) emp_nonnull k paths o /\ length paths = 1%nat /\
    Forall (fun p => forall m, models (solver p.1) m -> Forall (nonnull_in m) ptr_params) paths.
Proof.
  assert (match search 20 (bv_zero 8) 5 emp_nonnull with Some (k, paths, o) => length paths | None => 0%nat end = 1%nat) as Hc
    by (vm_compute; reflexivity).
  destruct (search 20 (bv_zero 8) 5 emp_nonnull) as [[[k paths] o]|] eqn:Es; [|discriminate Hc]. apply search_searched in Es.
  exists k, paths, o. split; [exact Es|]. split; [exact Hc|].
  apply (inputs_not_null "zp" Pp cfg 20 (bv_zero 8) emp emp_nonnull ptr_params k paths o); [| | | |exact Es].
  - assert (is_ok (symex_function "zp" Pp cfg) = true) as E1 by (vm_compute; reflexivity).
    unfold emp. destruct (symex_function "zp" Pp cfg); [reflexivity|discriminate E1..].
  - assert (length (backtrack_points (em_state emp)) = 0%nat) as Hb by (vm_compute; reflexivity). exact (nil_length_inv _ Hb).
  - assert (length (assertions (solver (em_state emp))) = 1%nat) as Hl by (vm_compute; reflexivity).
    unfold solver_ok. intros E. rewrite E in Hl. discriminate Hl.
  - assert (is_ok (fst (nonnull_pointers ptr_params emp)) = true) as E1 by (vm_compute; reflexivity).
    unfold emp_nonnull. destruct (nonnull_pointers ptr_params emp) as [[[]|e|p|] em1]; [reflexivity|discriminate E1..].
Defined.

(** ** Instructions *)

Definition vec : Operand := ConstantOperand (CVector [CInt 8 1; CInt 8 2; CInt 8 3; CInt 8 4]).
Definition vec_bv : BV := match fst (operand_to_bv vec st) with Ok v => v | _ => x end.

Definition add_op : BinaryOp := {| bop_kind := OpAdd; bop_operand0 := vec; bop_operand1 := vec; bop_dest := NameStr "r" |}.

Lemma binop_witness :
  exists r, symex_binop add_op st = record_bv_result (result (IBinaryOp add_op) (NameStr "r")) r st /\
    get_width r = 4 * 8 /\
    forall m i, 0 <= i < 4 -> lane 8 (eval m r) i = (lane 8 (eval m vec_bv) i + lane 8 (eval m vec_bv) i) mod 2 ^ 8.
Proof. apply (binop_correct add_op st st st vec_bv vec_bv 4 8); try reflexivity; lia. Defined.

Definition lt_op : ICmp := {| icmp_predicate := ULT; icmp_operand0 := var "x" i8; icmp_operand1 := num 3; icmp_dest := NameStr "c" |}.

Lemma icmp_witness :
  exists r, symex_icmp lt_op st = record_bv_result (result (IICmp lt_op) (NameStr "c")) r st /\ get_width r = 1 /\
    forall m i, 0 <= i < 1 -> Z.testbit (eval m r) i = (lane 8 (eval m x) i <? lane 8 (eval m (from_u64 3 8)) i).
Proof. apply (icmp_correct lt_op st st st x (from_u64 3 8) 1 8); try reflexivity; lia. Defined.

Definition insert_op : InsertElement :=
  {| ie_vector := vec; ie_element := var "x" i8; ie_index := ConstantOperand (CInt 32 2); ie_dest := NameStr "v" |}.

Lemma insertelement_witness :
  exists r, symex_insertelement insert_op st = record_bv_result (result (IInsertElement insert_op) (NameStr "v")) r st /\
    get_width r = 4 * 8 /\
    forall m i, 0 <= i < 4 -> lane 8 (eval m r) i = if i =? 2 then eval m x else lane 8 (eval m vec_bv) i.
Proof. apply (insertelement_correct insert_op st st st vec_bv x 32 2 i8 4 8); try reflexivity; lia. Defined.

Definition shuffle_op : ShuffleVector :=
  {| sv_operand0 := vec; sv_operand1 := vec; sv_mask := CVector [CInt 32 3; CInt 32 4; CUndef (IntegerType 32)]; sv_dest := NameStr "v" |}.

Lemma shufflevector_witness :
  exists r, symex_shufflevector shuffle_op st = record_bv_result (result (IShuffleVector shuffle_op) (NameStr "v")) r st /\
    get_width r = 3 * 8 /\
    forall m j idx, [3; 4; 0] !! j = Some idx ->
      lane 8 (eval m r) (Z.of_nat j) = if idx <? 4 then lane 8 (eval m vec_bv) idx else lane 8 (eval m vec_bv) (idx - 4).
Proof.
  apply (shufflevector_correct shuffle_op st st st vec_bv vec_bv i8 4 8 [3; 4; 0]); try reflexivity; try lia; try done.
  repeat constructor; lia.
Defined.

Definition i32 : Type_ := IntegerType 32.
Definition bswap_arg : Operand := ConstantOperand (CInt 32 305419896).
Definition bswap_call : CallInstr :=
  LeftCall {| call_function := inr (ConstantOperand (CGlobalReference (NameStr "llvm.bswap.i32") (FuncType i32 [i32] false)));
              call_arguments := [bswap_arg]; call_dest := Some (NameStr "b") |}.

Lemma bswap_witness :
  exists r, symex_bswap bswap_call st = (Ok (Return r), st) /\ get_width r = 32 /\
    forall m i, 0 <= i < 4 -> lane 8 (eval m r) i = lane 8 (eval m (from_u64 305419896 32)) (3 - i).
Proof.
  apply (bswap_correct bswap_call st st (from_u64 305419896 32) bswap_arg 32); try reflexivity. repeat constructor.
Defined.

Definition sext_op : UnaryOp := {| un_operand := vec; un_to_type := VectorType (IntegerType 16) 4; un_dest := NameStr "w" |}.

Lemma conversion_witness :
  exists r, symex_sext sext_op st = record_bv_result (result (ISExt sext_op) (NameStr "w")) r st /\ get_width r = 4 * 16 /\
    forall m i, 0 <= i < 4 -> lane 16 (eval m r) i = sval 8 (lane 8 (eval m vec_bv) i) mod 2 ^ 16.
Proof.
  pose proof (conversion_correct SExt sext_op st st vec_bv 4 8 16) as Hc.
  cbv beta iota delta [symex_conversion conversion_instr conversion_val conversion_ok un_dest sext_op] in Hc |- *.
  apply Hc; try reflexivity; try lia. apply convert_vector.
Defined.

(** The lanes of [vec] where the mask is set, those of zero elsewhere. *)
Definition zeros : Operand := ConstantOperand (CVector [CInt 8 0; CInt 8 0; CInt 8 0; CInt 8 0]).
Definition zeros_bv : BV := match fst (operand_to_bv zeros st) with Ok v => v | _ => x end.
Definition mask : Operand := ConstantOperand (CVector [CInt 1 1; CInt 1 0; CInt 1 1; CInt 1 0]).
Definition mask_bv : BV := match fst (operand_to_bv mask st) with Ok v => v | _ => x end.
Definition select_op : Select :=
  {| select_condition := mask; select_true_value := vec; select_false_value := zeros; select_dest := NameStr "s" |}.

Lemma select_witness :
  exists r, symex_select select_op st = record_bv_result (result (ISelect select_op) (NameStr "s")) r st /\ get_width r = 4 * 8 /\
    forall m i, 0 <= i < 4 ->
      lane 8 (eval m r) i = if Z.testbit (eval m mask_bv) i then lane 8 (eval m vec_bv) i else lane 8 (eval m zeros_bv) i.
Proof.
  apply (select_correct select_op st st st st mask_bv vec_bv zeros_bv 4 8); try reflexivity; try lia. by apply select_elements.
Defined.

(** [{ i16, { i8, i8 } }] *)
Definition nested : Operand :=
  ConstantOperand (CStruct None [CInt 16 513; CStruct None [CInt 8 3; CInt 8 4] false] false).
Definition nested_bv : BV := match fst (operand_to_bv nested st) with Ok v => v | _ => x end.

Lemma no_struct_sizes : Forall unsigned_ty struct_types.
Proof. constructor. Qed.
Lemma aggregate_nested : aggregate_ok (operand_type nested) nested_bv 32.
Proof. repeat split; cbn; lia. Qed.
Lemma selects_nested : selects [1; 0] (operand_type nested) (2 + (0 + 0)) i8.
Proof.
  apply (selects_in 1 [0] _ 2 (StructType [i8; i8] false)); [lia|done|reflexivity|].
  apply (selects_in 0 [] _ 0 i8); [lia|done|reflexivity|]. apply selects_here.
Qed.

(** [{ i8 250 + 10, i16 zext 7 }] *)
Definition folded : Constant := CStruct None [CAdd (CInt 8 250) (CInt 8 10); CZExt (CInt 8 7) (IntegerType 16)] false.

Lemma constant_witness :
  exists w n, Layout.size (StructType [i8; IntegerType 16] false) = Ok w /\ 0 < w < 2 ^ 32 /\
    forall s fuel, (n <= fuel)%nat -> exists b, const_to_bv_at fuel folded s = (Ok b, s) /\ get_width b = w /\ forall m, eval m b = 1796.
Proof.
  apply (constant_correct folded (StructType [i8; IntegerType 16] false) ((250 + 10) mod 2 ^ 8 + (7 + 0 * 2 ^ 16) * 2 ^ 8)).
  apply (denotes_struct None _ false _ (8 + (16 + 0))); [|done|lia].
  apply row_cons; [|reflexivity|apply row_cons; [|reflexivity|apply row_nil]].
  - apply (denotes_binop OpAdd (CInt 8 250) (CInt 8 10) _ 8 250 10 (fun w a b => (a + b) mod 2 ^ w)); [| |reflexivity|reflexivity];
      apply denotes_int; lia.
  - apply (denotes_convert ZExt (CInt 8 7) 8 16 7); [apply denotes_int; lia|lia|cbn; lia].
Defined.

Definition extract_op : ExtractValue := {| ev_aggregate := nested; ev_indices := [1; 0]; ev_dest := NameStr "e" |}.

Lemma extractvalue_witness :
  exists r, symex_extractvalue extract_op st = record_bv_result (result (IExtractValue extract_op) (NameStr "e")) r st /\
    get_width r = 8 /\ forall m j, 0 <= j < 8 -> Z.testbit (eval m r) j = Z.testbit (eval m nested_bv) (j + 8 * 2).
Proof.
  apply (extractvalue_correct no_struct_sizes extract_op st st nested_bv 32 2 i8 8); try reflexivity;
    [apply aggregate_nested|apply selects_nested].
Defined.

Definition insertv_op : InsertValue :=
  {| iv_aggregate := nested; iv_element := var "x" i8; iv_indices := [1; 0]; iv_dest := NameStr "e" |}.

Lemma insertvalue_witness :
  exists r, symex_insertvalue insertv_op st = record_bv_result (result (IInsertValue insertv_op) (NameStr "e")) r st /\
    get_width r = 32 /\
    forall m j, 0 <= j < 32 -> Z.testbit (eval m r) j =
      if (8 * 2 <=? j) && (j <? 8 * 2 + 8) then Z.testbit (eval m x) (j - 8 * 2) else Z.testbit (eval m nested_bv) j.
Proof.
  apply (insertvalue_correct no_struct_sizes insertv_op st st st nested_bv x 32 2 i8 8); try reflexivity;
    [apply aggregate_nested|apply selects_nested].
Defined.

(** [&((struct { i32, [4 x i8] }* ) 4096)->field1[x]] *)
Definition record_ty : Type_ := StructType [IntegerType 32; ArrayType i8 4] false.
Definition gep_op : GetElementPtr :=
  {| gep_address := ConstantOperand (CIntToPtr (CInt 64 4096) (PointerType record_ty));
     gep_indices := [ConstantOperand (CInt 64 0); ConstantOperand (CInt 32 1); var "x" i8]; gep_dest := NameStr "p" |}.

Lemma gep_witness :
  exists r, symex_gep gep_op st = record_bv_result (result (IGetElementPtr gep_op) (NameStr "p")) r st /\ get_width r = 64 /\
    forall m, eval m r = (4096 + (0 * 8 + (4 + (eval m x * 1 + 0)))) mod 2 ^ 64.
Proof.
  destruct (gep_correct gep_op st st st (from_u64 4096 64) record_ty [from_u64 0 64; x]
    (fun m => sval 64 (eval m (from_u64 0 64)) * (64 / 8) + (4 + (sval 8 (eval m x) * (8 / 8) + 0)))) as (r & Er & Wr & Hr); try reflexivity.
  - apply (offset_index 64 _ _ _ record_ty st st st (from_u64 0 64) [x] 64); try reflexivity; try done.
    apply (offset_field 64 32 1 _ _ (ArrayType i8 4)); try reflexivity; [by eexists|lia|].
    apply (offset_index 64 _ [] _ i8 st st st x [] 8); try reflexivity; try done. apply offset_here.
  - exists r. split; [exact Er|]. split; [exact Wr|]. intros m. rewrite Hr.
    + by destruct m as [[[[] []] []] []]; vm_compute.
    + constructor; [by left|]. constructor; [right; by destruct m as [[[[] []] []] []]; vm_compute|constructor].
Defined.

(** ** Memory *)

Definition addr : BV := from_u64 4096 64.

Lemma access_ok_at s : mem_wf (mem s) -> solver_ok (solver s) -> mem_watchpoints s = ∅ -> access_ok s addr.
Proof.
  intros Hm O Hw. split; [done|]. split; [done|]. split; [|done]. intros n w e He. by rewrite Hw, lookup_empty in He.
Qed.
Lemma mem_wf_new c : mem_wf (mem (st_new c)).
Proof. by destruct (Memory.new_uninitialized_spec true None solver_new) as [Hw _]. Qed.

Lemma store_load_state_witness :
  wp (_ ← write addr x; read addr 8) st (state_access st addr (fun r s' =>
    get_width r = 8 /\ (forall m, models (solver s') m <-> models (solver st) m) /\ forall m, eval m r = eval m x)).
Proof.
  apply (state_store_load st addr x); [apply access_ok_at; [apply mem_wf_new|done|reflexivity]|split; [|reflexivity]].
  change (get_width x) with 8. lia.
Defined.

(** An address that can be null, with [SplitPath]. *)
Definition split_cfg : Config :=
  {| loop_bound := 10; max_callstack_depth := None; solver_query_timeout := None; null_pointer_checking := NPSplitPath;
     concretize_memcpy_lengths := Symbolic; max_memcpy_length := None; squash_unsats := true;
     trust_llvm_assumes := true; function_hooks := hooks_new; callbacks := callbacks_default;
     initial_mem_watchpoints := ∅; demangling := None; print_source_info := true; print_module_name := true |}.
Definition split_st : State := snd (new_bv_with_name (NameStr "x") 8 (st_new split_cfg)).
Definition maybe_null : BV := zext x 56.

Lemma null_pointer_witness :
  exists s' sol, read maybe_null 8 split_st = (Err NullPointerDereference, s') /\
    revert_to_backtracking_point s' = (Ok true, set_solver sol split_st) /\
    forall m, models sol m <-> models (solver split_st) m /\ eval m maybe_null <> 0.
Proof.
  assert (access_ok split_st maybe_null) as Ha.
  { split; [apply mem_wf_new|]. split; [done|]. split; [|done]. intros n w e He. change (mem_watchpoints split_st) with (∅ : gmap string (Watchpoint * bool)) in He. by rewrite lookup_empty in He. }
  destruct (null_pointer_checked split_st maybe_null Ha) as [Hr _]. specialize (Hr 8).
  destruct (read maybe_null 8 split_st) as [r s'] eqn:Er. apply (wp_run _ _ _ _ _ Er) in Hr; [|split; [lia|by right]].
  assert (possible (solver split_st) maybe_null 0) as Hp.
  { exists (false, false, false, false). split; [constructor|reflexivity]. }
  destruct r as [v|e|p|]; [by destruct Hr| |done|done].
  destruct Hr as [Hq|(-> & _ & _ & Hs)]; [destruct (no_query_fails e Hq)|].
  assert (feasible (solver split_st) (fun m => eval m maybe_null <> 0)) as Hf.
  { exists (true, true, true, true). split; [constructor|by vm_compute]. }
  destruct (Hs Hf) as (sol & H1 & H2).
  exists s', sol. split; [reflexivity|]. split; [exact H1|exact H2].
Defined.

Definition xchg : CmpXchg :=
  {| cx_address := ConstantOperand (CIntToPtr (CInt 64 4096) (PointerType i8)); cx_expected := num 5;
     cx_replacement := var "x" i8; cx_dest := NameStr "o" |}.

Lemma cmpxchg_witness :
  exists old r mem' s4, symex_cmpxchg xchg st = record_bv_result (result (ICmpXchg xchg) (NameStr "o")) r s4 /\
    only_queried (set_mem mem' st) s4 /\ get_width old = 8 /\ get_width r = 9 /\
    forall m, reads (mem_bit (mem st) m) (8 * eval m addr) 8 (eval m old) /\
      writes (mem_bit (mem st) m) (mem_bit mem' m) (8 * eval m addr) 8
        (if eval m old =? eval m (from_u64 5 8) then eval m x else eval m old) /\
      eval m r = concat_val (Z.b2z (eval m old =? eval m (from_u64 5 8))) 8 (eval m old).
Proof.
  destruct (cmpxchg_correct xchg st st st st addr (from_u64 5 8) x 8 i8 (IntegerType 1) false)
    as [(e & s4 & _ & Hf)|Hx]; try reflexivity; [|split; [lia|done]| |exact Hx].
  - apply access_ok_at; [apply mem_wf_new|done|reflexivity].
  - exfalso. destruct Hf as [Hq|(_ & _ & (m & _ & Hv) & _)]; [by apply no_query_fails in Hq|done].
Defined.

(** Lengths are minimized and at most 100. *)
Definition copy_cfg : Config :=
  {| loop_bound := 10; max_callstack_depth := None; solver_query_timeout := None; null_pointer_checking := NPSimple;
     concretize_memcpy_lengths := Prefer 50 Maximum; max_memcpy_length := Some 100; squash_unsats := true;
     trust_llvm_assumes := true; function_hooks := hooks_new; callbacks := callbacks_default;
     initial_mem_watchpoints := ∅; demangling := None; print_source_info := true; print_module_name := true |}.
Definition copy_st : State := snd (new_bv_with_name (NameStr "x") 8 (st_new copy_cfg)).
(** Between 1 and 8 bytes. *)
Definition len : BV := bv_add (zext x 56) (from_u64 1 64).

(** No maximum and a symbolic length: the default configuration. *)
Definition default_st : State := snd (new_bv_with_name (NameStr "x") 8 (st_new cfg)).

Lemma as_u64_disambiguates : forall x : BVSolution, sol_as_u64 x = sol_as_u64 (disambiguate x).
Proof. done. Qed.
Lemma len_bound m : eval m len <= 256.
Proof. destruct m as [[[[] []] []] []]; by vm_compute. Qed.

Lemma copy_ok_st : copy_ok copy_st len.
Proof.
  split; [|split; [done|]].
  - split; [done|]. split; [done|]. split; [done|]. split; [by left|]. by intros mx [= <-].
  - intros m _ Hw. specialize (Hw 100 eq_refl). lia.
Qed.
Lemma copy_ok_default : copy_ok default_st len.
Proof.
  split; [|split; [done|]].
  - split; [done|]. split; [done|]. split; [done|]. split; [by left|done].
  - intros m _ _. pose proof (len_bound m). lia.
Qed.

Lemma memcpy_length_witness :
  wp (get_memcpy_length len (Prefer 50 Maximum)) copy_st (length_chosen copy_st len) /\
  wp (get_memcpy_length len Symbolic) default_st (length_chosen default_st len) /\
  wp (get_memcpy_length len Arbitrary) copy_st (length_chosen copy_st len).
Proof.
  split; [|split].
  - apply (memcpy_length_correct as_u64_disambiguates copy_st len (Prefer 50 Maximum)); [apply copy_ok_st|done].
  - apply (memcpy_length_correct as_u64_disambiguates default_st len Symbolic); [apply copy_ok_default|done].
  - apply (memcpy_length_correct as_u64_disambiguates copy_st len Arbitrary); [apply copy_ok_st|done].
Defined.

(** The maximum, 8, is chosen. *)
Example memcpy_length_runs :
  fst (get_memcpy_length len (Prefer 50 Maximum) copy_st) = Ok (ConcreteLen 8).
Proof. closed. Qed.

Definition memcpy_right (s : State) (dest src n : BV) : Prop :=
  wp (memcpy_bv dest src n) s (fun r s' =>
    match r with
    | Ok d => d = dest /\ exists mem', copied s n mem' s' /\
        forall m, models (solver s') m ->
          exists v, reads (mem_bit (mem s) m) (8 * eval m src) (8 * eval m n) v /\
            writes (mem_bit (mem s) m) (mem_bit mem' m) (8 * eval m dest) (8 * eval m n) v
    | Err e => copy_failed e
    | _ => False
    end).

(** A copy to an overlapping region of a concrete length, and one of a symbolic
    length in the default configuration. *)
Lemma memcpy_witness :
  memcpy_right copy_st addr (from_u64 4100 64) len /\ memcpy_right default_st addr (from_u64 4100 64) len.
Proof.
  split.
  - apply (memcpy_correct as_u64_disambiguates copy_st addr (from_u64 4100 64) len);
      [apply copy_ok_st|apply access_ok_at; [apply mem_wf_new|done|reflexivity]|reflexivity|done].
  - apply (memcpy_correct as_u64_disambiguates default_st addr (from_u64 4100 64) len);
      [apply copy_ok_default|apply access_ok_at; [apply mem_wf_new|done|reflexivity]|reflexivity|].
    intros _ m _ _. right. pose proof (len_bound m). change (eval m addr) with 4096.
    change (eval m (from_u64 4100 64)) with 4100. change ((4096 - 4100) mod 2 ^ 64) with 18446744073709551612. lia.
Defined.

Definition memset_right (s : State) (a val n : BV) : Prop :=
  wp (memset_bv a val n) s (fun r s' =>
    match r with
    | Ok b => b = a /\ exists mem', copied s n mem' s' /\
        forall m, models (solver s') m -> exists v, filled v (eval m val mod 256) (eval m n) /\
          writes (mem_bit (mem s) m) (mem_bit mem' m) (8 * eval m a) (8 * eval m n) v
    | Err e => copy_failed e
    | _ => False
    end).

Lemma memset_witness :
  memset_right copy_st addr (from_u64 300 32) len /\ memset_right default_st addr (from_u64 300 32) len.
Proof.
  split.
  - refine (memset_correct as_u64_disambiguates copy_st addr (from_u64 300 32) len copy_ok_st _ _);
      [apply access_ok_at; [apply mem_wf_new|done|reflexivity]|change (8 <= 32); lia].
  - refine (memset_correct as_u64_disambiguates default_st addr (from_u64 300 32) len copy_ok_default _ _);
      [apply access_ok_at; [apply mem_wf_new|done|reflexivity]|change (8 <= 32); lia].
Defined.

End Program.
