(* ===== verification/PathExamples.v ===== *)
(** * PathExamples: recursion, a loop and memory, explored and run

    The theorems of PathTheorems.v on a program whose main function calls a
    recursive one, stores the result, and then goes through a loop that often,
    with a load in each round: the paths that the engine returns are the
    executions of the reference semantics. *)
From S2P Require Import Prelude Bits Backend ToySolver SolverUtils MemorySpec Memory Alloc LLVMIR ToyLLVM Project Layout VarMap Watchpoints FunctionHooks GlobalAllocations Config State Operands HookUtils Hooks SymexInstr Symex StateTheorems SymexTheorems LevelTheorems Analyses EngineInvariant AnalysesTheorems Concrete PathVariables PathMeasure PathState PathTerminators PathBlocks PathStart PathTheorems ProgramAnalyses Examples.

From stdpp Require Import finite.

Open Scope Z_scope.

Module Loop.
Import ToyBackend Toy CellBackend ToyLLVM ToyLevels Program.

(** [depth x = if x < 2 then x else depth (x >> 1) + 1] *)
Definition call_depth (d : string) (arg : Operand) : Call :=
  {| call_function := inr (ConstantOperand (CGlobalReference (NameStr "depth") (FuncType i8 [i8] false)));
     call_arguments := [arg]; call_dest := Some (NameStr d) |}.
Definition depth : Function_ := fn "depth" ["x"]
  [block "entry" [IICmp {| icmp_predicate := ULT; icmp_operand0 := var "x" i8; icmp_operand1 := num 2; icmp_dest := NameStr "c" |}]
     (TCondBr {| condbr_condition := var "c" (IntegerType 1); condbr_true_dest := NameStr "base"; condbr_false_dest := NameStr "step" |});
   block "base" [] (TRet (Some (var "x" i8)));
   block "step"
     [IBinaryOp {| bop_kind := OpLShr; bop_operand0 := var "x" i8; bop_operand1 := num 1; bop_dest := NameStr "h" |};
      ICall (call_depth "r" (var "h" i8));
      IBinaryOp {| bop_kind := OpAdd; bop_operand0 := var "r" i8; bop_operand1 := num 1; bop_dest := NameStr "s" |}]
     (TRet (Some (var "s" i8)))].
(** [count x = p[2] := depth x; do i++ while i < p[2]; i], with [p] an address *)
Definition ptr8 : Type_ := PointerType i8.
Definition count_loop : BasicBlock :=
  block "loop"
    [IPhi {| phi_incoming_values := [(num 0, NameStr "entry"); (var "j" i8, NameStr "loop")]; phi_dest := NameStr "i" |};
     IBinaryOp {| bop_kind := OpAdd; bop_operand0 := var "i" i8; bop_operand1 := num 1; bop_dest := NameStr "j" |};
     ILoad {| load_address := var "q" ptr8; load_dest := NameStr "l" |};
     IICmp {| icmp_predicate := ULT; icmp_operand0 := var "j" i8; icmp_operand1 := var "l" i8; icmp_dest := NameStr "c" |}]
    (TCondBr {| condbr_condition := var "c" (IntegerType 1); condbr_true_dest := NameStr "loop"; condbr_false_dest := NameStr "done" |}).
Definition count : Function_ := fn "count" ["x"]
  [block "entry"
     [ICall (call_depth "d" (var "x" i8));
      IIntToPtr {| un_operand := ConstantOperand (CInt 64 4096); un_to_type := ptr8; un_dest := NameStr "p" |};
      IGetElementPtr {| gep_address := var "p" ptr8; gep_indices := [ConstantOperand (CInt 64 2)]; gep_dest := NameStr "q" |};
      IStore {| store_address := var "q" ptr8; store_value := var "d" i8 |}]
     (TBr (NameStr "loop"));
   count_loop; block "done" [] (TRet (Some (var "j" i8)))].
Definition Pc : Project := prog [count; depth].
Definition Mc : Module_ := {| mod_name := "m"; mod_source_file_name := "m.c"; mod_functions := [count; depth]; mod_global_vars := [];
                              mod_global_aliases := []; mod_named_struct_types := ∅ |}.

(** The widths of the names, and those that are bound in each block. *)
Definition names_of (fn : string) : gmap Name Z :=
  list_to_map ((fun '(n, w) => (NameStr n, w)) <$>
    (if String.eqb fn "count" then [("x", 8); ("d", 8); ("p", 64); ("q", 64); ("i", 8); ("j", 8); ("l", 8); ("c", 1)]
     else [("x", 8); ("c", 1); ("h", 8); ("r", 8); ("s", 8)])).
Definition bound (fn : string) (b : Name) : gset Name :=
  list_to_set (NameStr <$>
    match fn, b with
    | "count", NameStr "loop" => ["x"; "d"; "q"; "i"]
    | "count", NameStr "done" => ["x"; "d"; "q"; "i"; "j"]
    | "depth", NameStr "step" => ["x"; "c"]
    | _, _ => ["x"]
    end%string).
Definition emc : ExecutionManager :=
  match symex_function "count" Pc cfg with Ok em => em | _ => em_new st Pc [] true end.

#[export] Instance no_user_code_observes : ObservingCallbacks.
Proof. done. Qed.
#[export] Instance constants_evaluated : EnoughFuel.
Proof. apply (Nat.ltb_lt 0 const_fuel). reflexivity. Qed.

(** The first paths, and the manager after them. *)
Fixpoint first_paths (n : nat) (em : ExecutionManager) : list (outcome (ReturnValue BV) * State) * ExecutionManager :=
  match n with
  | O => ([], em)
  | S n =>
      match next 60 em with
      | (Ok (Some r), em1) => let '(vs, em2) := first_paths n em1 in ((r, em_state em1) :: vs, em2)
      | _ => ([], em)
      end
  end.

Lemma visits_cons em n r em1 vs em2 :
  next n em = (Ok (Some r), em1) -> visits em1 vs em2 -> visits em ((r, em_state em1) :: vs) em2.
Proof.
  intros Hn Hv. induction Hv as [|vs em2 k r' em3 _ IH Hk|vs em2 s _ IH Hf Hu].
  - by apply (visits_path em [] em n); [constructor|].
  - by apply (visits_path em ((r, em_state em1) :: vs) em2 k).
  - by apply visits_use.
Qed.
Lemma first_paths_visits n em : visits em (first_paths n em).1 (first_paths n em).2.
Proof.
  revert em. induction n as [|n IH]; intros em; [constructor|]. cbn [first_paths].
  destruct (next 60 em) as [[[r|]|e|p|] em1] eqn:En; try constructor.
  pose proof (IH em1) as Hv. destruct (first_paths n em1) as [vs em2]. by apply (visits_cons _ 60).
Qed.

(** The result of a path in a model, if the path is one of the model. *)
Definition result_in (m : model) (v : outcome (ReturnValue BV) * State) : option Z :=
  match v with
  | (Ok (Return bv), s) => if tsat_model (solver s) m then Some (teval m bv) else None
  | _ => None
  end.
(** [x] is 5. *)
Definition m5 : model := (true, false, true, false).

Definition vsc : list (outcome (ReturnValue BV) * State) := (first_paths 8 emc).1.
Definition emc' : ExecutionManager := (first_paths 8 emc).2.
Lemma visits_c : visits emc vsc emc'.
Proof. exact (first_paths_visits 8 emc). Qed.

Lemma emc_start : symex_function "count" Pc cfg = Ok emc.
Proof.
  assert (is_ok (symex_function "count" Pc cfg) = true) as E1 by (vm_compute; reflexivity).
  unfold emc. destruct (symex_function "count" Pc cfg); [reflexivity|discriminate E1..].
Qed.

(** Three paths, none of which ends with an error, one of them for 5. *)
Lemma count_explored :
  omap (result_in m5) vsc = [3] /\ length vsc = 3%nat /\ forallb (fun v => is_ok v.1) vsc = true /\
  match (next 60 emc').1 with Ok None => true | _ => false end = true.
Proof. vm_compute. repeat split. Qed.

Lemma forallb_Forall {A} (p : A -> bool) xs : forallb p xs = true -> Forall (fun x => p x = true) xs.
Proof. rewrite forallb_forall, Forall_forall. intros Hp x Hx. apply Hp. by apply list_elem_of_In. Qed.

Lemma result_in_inv m v z : result_in m v = Some z -> exists bv, v.1 = Ok (Return bv) /\ models (solver v.2) m /\ eval m bv = z.
Proof.
  destruct v as [[[bv| | |]|e|p|] s]; try done. cbn. destruct (tsat_model (solver s) m) eqn:Es; [|done].
  intros [= <-]. exists bv. split; [done|]. split; [|done]. apply Forall_forall. intros b Hb.
  unfold tsat_model in Es. rewrite forallb_forall in Es. apply Z.eqb_eq, Es. by apply list_elem_of_In.
Qed.

(** The program is in the part of the language of Concrete.v. *)
Abbreviation link_c := (linked (global_allocations (em_state emc))).
Definition program_c : list (Function_ * Module_) := [(count, Mc); (depth, Mc)].

Lemma links_depth : link_c Mc "depth" = Some (depth, Mc).
Proof. vm_compute. reflexivity. Qed.
Lemma functions_ok : Forall (fun '(f, md) => function_ok link_c names_of bound md f = true) program_c.
Proof. repeat constructor; vm_compute; reflexivity. Qed.
Lemma calls_depth : Forall (fun '(f, _) => Forall (fun name => name = "depth"%string) (calls f)) program_c.
Proof. repeat constructor. Qed.
Lemma in_module f md : (f, md) ∈ program_c -> md = Mc.
Proof. intros [[= _ ->]|[[= _ ->]|[]%elem_of_nil]%elem_of_cons]%elem_of_cons; done. Qed.

Lemma program_c_fits : program_fits (global_allocations (em_state emc)) cfg names_of bound program_c.
Proof.
  pose proof functions_ok as Hok. pose proof calls_depth as Hcalls. rewrite Forall_forall in Hok, Hcalls. split.
  - apply Forall_forall. intros [f md] Hin. split; [exact (Hok _ Hin)|]. apply Forall_forall. intros name Hn g Hg.
    pose proof (Hcalls _ Hin) as Hc. cbn in Hc. rewrite Forall_forall in Hc. rewrite (Hc _ Hn) in Hg. rewrite (in_module _ _ Hin), links_depth in Hg.
    injection Hg as <-. right. left.
  - intros f md n b Hin Hb. apply List.find_some in Hb as [Hb _]. by apply list_elem_of_In.
  - reflexivity.
  - discriminate.
  - intros name w Hw. discriminate Hw.
  - intros f md name Hin Hn. pose proof (Hcalls _ Hin) as Hc. cbn in Hc. rewrite Forall_forall in Hc. by rewrite (Hc _ Hn).
Qed.
Lemma explored_c : explored "count" Pc cfg count Mc names_of bound program_c emc.
Proof. eapply explored_new; [exact _|exact emc_start|reflexivity|left|discriminate|exact program_c_fits]. Qed.
(** Nothing is assumed of the input. *)
Lemma models_c m : models (solver (em_state emc)) m.
Proof. exact (proj2 (start_solver "count" Pc cfg count Mc names_of bound program_c emc emc_start explored_c) m). Qed.

(** Every block that goes on binds a name, so that the ranks do not matter. *)
Definition ranks : Ranking := Build_Ranking (fun _ _ => 1%nat) 1 4.
Lemma exploration_total_witness :
  program_ranked (linked_in emc) ranks program_c = true /\
  exists N vs em', (forall rounds n, (N <= rounds)%nat -> (N <= n)%nat -> all_paths rounds n emc = (Ok vs, em')) /\
    forall m, models (solver (em_state emc)) m -> ~ loops_in cfg count Mc emc m -> exists r s, (r, s) ∈ vs /\ models (solver s) m.
Proof.
  assert (program_ranked (linked_in emc) ranks program_c = true) as Hr by (vm_compute; reflexivity). split; [exact Hr|].
  destruct (exploration_total "count" Pc cfg count Mc names_of bound program_c ranks emc explored_c) as [_ Ht].
  destruct (Ht Hr) as (N & _ & vs & em' & Hall & Hc & _). exists N, vs, em'. split; [exact Hall|exact Hc].
Defined.

(** The program itself, by the reference semantics, on 5. *)
Lemma inputs_5 : inputs_of count emc m5 = [5].
Proof. vm_compute. reflexivity. Qed.
Abbreviation memory_5 := (memory_of (H0 := toy_sem) emc m5).
Lemma run_5 : runs_within (linked_in emc) 100 10 Mc count [5] memory_5 3 = true.
Proof. vm_compute. reflexivity. Qed.
Lemma count_runs : returns_in count Mc emc m5 (Some 3) /\ ~ loops_in cfg count Mc emc m5.
Proof.
  unfold returns_in, loops_in. rewrite inputs_5. apply (run_within (linked_in emc) 100 10 Mc count [5] memory_5 3); [exact run_5|].
  discriminate.
Qed.

Lemma paths_sound_witness : exists r s, (Ok r, s) ∈ vsc /\ ret_val m5 r = Some (Some 3) /\ returns_in count Mc emc m5 (Some 3).
Proof.
  destruct count_explored as [Hr _]. assert (3 ∈ omap (result_in m5) vsc) as Hin by (rewrite Hr; left).
  apply list_elem_of_omap in Hin as ([r0 s] & Hin & (bv & Hv & Hm & He)%result_in_inv). cbn in Hv, Hm. subst r0.
  exists (Return bv), s. split; [exact Hin|].
  destruct (paths_sound "count" Pc cfg count Mc names_of bound program_c emc vsc emc' (Ok (Return bv)) s explored_c visits_c Hin) as (_ & _ & Hs).
  destruct (Hs m5 Hm) as (_ & v & Hv & Hruns).
  pose proof (f_equal (fun z => Some (Some z)) He : ret_val m5 (Return bv) = Some (Some 3)) as H5.
  split; [exact H5|]. assert (v = Some 3) as E5 by congruence. rewrite E5 in Hruns. exact Hruns.
Defined.

Lemma paths_complete_witness :
  ~ loops_in cfg count Mc emc m5 /\
  forall v, returns_in count Mc emc m5 v <-> exists r s, (Ok r, s) ∈ vsc /\ models (solver s) m5 /\ ret_val m5 r = Some v.
Proof.
  destruct count_runs as [_ Hl]. split; [exact Hl|]. destruct count_explored as (_ & _ & Hoks & Hend).
  destruct (next 60 emc') as [[[r|]|e|p|] em2] eqn:En; try discriminate Hend.
  destruct (paths_complete "count" Pc cfg count Mc names_of bound program_c emc vsc emc' 60 em2 _ explored_c visits_c En (models_c m5) Hl) as [_ Hx].
  apply Hx. exact (forallb_Forall _ _ Hoks).
Defined.

Lemma some_inputs : exists m, nonnull_inputs count emc m.
Proof. exists m5. apply nonnull_inputs_integers. repeat constructor. Qed.

(** [is_null p = if p == null then 0 else 1] returns zero, but not on the inputs
    that [find_zero_of_func] looks for. *)
Definition is_null : Function_ :=
  {| func_name := "is_null"; func_parameters := [{| param_name := NameStr "p"; param_ty := ptr8 |}]; func_is_var_arg := false;
     func_return_type := i8; func_linkage := External;
     func_basic_blocks :=
       [block "entry"
          [IICmp {| icmp_predicate := EQ; icmp_operand0 := var "p" ptr8; icmp_operand1 := ConstantOperand (CNull ptr8); icmp_dest := NameStr "c" |}]
          (TCondBr {| condbr_condition := var "c" (IntegerType 1); condbr_true_dest := NameStr "null"; condbr_false_dest := NameStr "other" |});
        block "null" [] (TRet (Some (num 0)));
        block "other" [] (TRet (Some (num 1)))] |}.
Definition Pn : Project := prog [is_null].
Definition Mn : Module_ := {| mod_name := "m"; mod_source_file_name := "m.c"; mod_functions := [is_null]; mod_global_vars := [];
                              mod_global_aliases := []; mod_named_struct_types := ∅ |}.
Definition names_n (fn : string) : gmap Name Z := {[NameStr "p" := 64; NameStr "c" := 1]}.
Definition bound_n (fn : string) (b : Name) : gset Name := {[NameStr "p"]}.
Definition program_n : list (Function_ * Module_) := [(is_null, Mn)].
Definition emn : ExecutionManager :=
  match symex_function "is_null" Pn cfg with Ok em => em | _ => em_new st Pn [] true end.

Lemma emn_start : symex_function "is_null" Pn cfg = Ok emn.
Proof.
  assert (is_ok (symex_function "is_null" Pn cfg) = true) as E1 by (vm_compute; reflexivity).
  unfold emn. destruct (symex_function "is_null" Pn cfg); [reflexivity|discriminate E1..].
Qed.
Lemma is_null_fits : program_fits (global_allocations (em_state emn)) cfg names_n bound_n program_n.
Proof.
  assert (function_ok (linked (global_allocations (em_state emn))) names_n bound_n Mn is_null = true) as Hf by (vm_compute; reflexivity).
  split; [|intros f md n b Hin Hb; apply List.find_some in Hb as [Hb _]; by apply list_elem_of_In|reflexivity|discriminate|by intros|].
  - apply Forall_singleton. split; [exact Hf|]. constructor.
  - intros f md name [= -> ->]%list_elem_of_singleton Hn. by apply elem_of_nil in Hn.
Qed.
Lemma explored_n : explored "is_null" Pn cfg is_null Mn names_n bound_n program_n emn.
Proof. eapply explored_new; [exact _|exact emn_start|reflexivity|left|discriminate|exact is_null_fits]. Qed.

(** What the two analyses say: [count] returns 1, 2 or 3, and never 0, and
    [is_null] returns 0, but only on a null pointer. *)
Lemma nonnull_check fn em (m : model) : forallb (fun p => negb (eval m p.2 =? 0)) (params_of fn em) = true -> nonnull_inputs fn em m.
Proof.
  intros Hp%forallb_Forall. eapply Forall_impl; [exact Hp|]. intros [p bv] Hn%negb_true_iff%Z.eqb_neq. unfold nonnull_in. cbn. by destruct (param_ty p).
Qed.
Lemma some_pointers : (exists m, nonnull_inputs is_null emn m) /\ exists m : Model, returns_in is_null Mn emn m (Some 0).
Proof.
  split; [exists (true, true, true, true)|exists (false, false, false, false)].
  - assert (forallb (fun p => negb (eval (true, true, true, true) p.2 =? 0)) (params_of is_null emn) = true) as Hp by (vm_compute; reflexivity).
    exact (nonnull_check _ _ _ Hp).
  - assert (inputs_of is_null emn (false, false, false, false) = [0]) as Hi by (vm_compute; reflexivity). unfold returns_in. rewrite Hi.
    assert (runs_within (linked_in emn) 100 10 Mn is_null [0] (memory_of (H0 := toy_sem) emn (false, false, false, false)) 0 = true) as Hrun
      by (vm_compute; reflexivity).
    by apply (run_within (linked_in emn) 100 10 Mn is_null [0] _ 0 Hrun).
Qed.
Lemma find_zero_exact_witness :
  (find_zero_of_func 10 60 "count" Pc cfg = Ok None /\
   forall m, nonnull_inputs count emc m -> ~ loops_in cfg count Mc emc m -> ~ returns_in count Mc emc m (Some 0)) /\
  find_zero_of_func 10 60 "is_null" Pn cfg = Ok None /\
  forall m, nonnull_inputs is_null emn m -> ~ loops_in cfg is_null Mn emn m -> ~ returns_in is_null Mn emn m (Some 0).
Proof.
  split.
  - assert (find_zero_of_func 10 60 "count" Pc cfg = Ok None) as Hr by (vm_compute; reflexivity). split; [exact Hr|].
    apply (find_zero_exact "count" Pc cfg count Mc names_of bound program_c emc emc_start explored_c 10 60 8 None);
      [reflexivity|exact some_inputs|reflexivity|lia| |exact Hr].
    repeat constructor; cbn; tauto.
  - assert (find_zero_of_func 10 60 "is_null" Pn cfg = Ok None) as Hr by (vm_compute; reflexivity). split; [exact Hr|].
    apply (find_zero_exact "is_null" Pn cfg is_null Mn names_n bound_n program_n emn emn_start explored_n 10 60 8 None);
      [reflexivity|exact (proj1 some_pointers)|reflexivity|lia|repeat constructor|exact Hr].
Defined.

(** With a free argument, and for 5. *)
Definition possible_values : Candidates := [Return 3; Return 2; Return 1].
Lemma return_values_exact_witness :
  (get_possible_return_values_of_func 10 60 "count" [None] Pc cfg None 5 = Ok (ExactlyRV possible_values) /\
   forall m u, ~ loops_with cfg count Mc emc [None] m -> returns_with count Mc emc [None] m (Some u) -> Return u ∈ possible_values) /\
  get_possible_return_values_of_func 10 60 "count" [Some 5] Pc cfg None 5 = Ok (ExactlyRV [Return 3]) /\
  forall m u, ~ loops_with cfg count Mc emc [Some 5] m -> returns_with count Mc emc [Some 5] m (Some u) -> Return u ∈ [Return 3].
Proof.
  split.
  - assert (get_possible_return_values_of_func 10 60 "count" [None] Pc cfg None 5 = Ok (ExactlyRV possible_values)) as Hr by (vm_compute; reflexivity).
    split; [exact Hr|].
    apply (return_values_exact "count" Pc cfg count Mc names_of bound program_c emc emc_start explored_c 10 60 [None] None 5 8 (ExactlyRV possible_values));
      [reflexivity|lia|lia|repeat constructor|exact Hr].
  - assert (get_possible_return_values_of_func 10 60 "count" [Some 5] Pc cfg None 5 = Ok (ExactlyRV [Return 3])) as Hr by (vm_compute; reflexivity).
    split; [exact Hr|].
    apply (return_values_exact "count" Pc cfg count Mc names_of bound program_c emc emc_start explored_c 10 60 [Some 5] None 5 8 (ExactlyRV [Return 3]));
      [reflexivity|lia|lia|repeat constructor; cbn; lia|exact Hr].
Defined.

Lemma analyses_answer_witness :
  program_ranked (linked_in emc) ranks program_c = true /\
  exists N, forall rounds fuel, (N <= rounds)%nat -> (N <= fuel)%nat ->
    match get_possible_return_values_of_func rounds fuel "count" [Some 5] Pc cfg None 5 with
    | Ok _ => True
    | Panic _ => exists em1 e, prepared count emc em1 /\ path_error em1 e
    | _ => False
    end.
Proof.
  assert (program_ranked (linked_in emc) ranks program_c = true) as Hr by (vm_compute; reflexivity). split; [exact Hr|].
  destruct (analyses_answer "count" Pc cfg count Mc names_of bound program_c emc emc_start explored_c ranks 8 None 5 [Some 5]) as [N HN];
    [reflexivity|exact some_inputs|exact Hr|reflexivity|lia|repeat constructor; cbn; tauto|lia|repeat constructor; cbn; lia|].
  exists N. intros rounds fuel Hr1 Hf. exact (proj2 (HN rounds fuel Hr1 Hf)).
Defined.

End Loop.
