(* ===== verification/Findings.v ===== *)
(** * Findings: behaviour that departs from the intention, on concrete programs

    Each theorem runs the model on a small program, with the toy solver and
    LLVM instance of Examples.v, and shows a result that the code's comments or
    the semantics of LLVM IR do not lead one to expect. *)
From S2P Require Import Prelude Bits Backend ToySolver SolverUtils MemorySpec Memory Alloc LLVMIR ToyLLVM Project Layout VarMap Watchpoints FunctionHooks GlobalAllocations Config State Operands HookUtils Hooks SymexInstr Symex StateTheorems SymexTheorems EngineTheorems InstrTheorems MemInstrTheorems Analyses Concrete Examples.

Open Scope Z_scope.

Module Runs.
Import ToyBackend Toy CellBackend ToyLLVM Program.

(** The results of the first calls to [next]. *)
Fixpoint results (n : nat) (em : ExecutionManager) : list (outcome (option (outcome (ReturnValue BV)))) :=
  match n with
  | O => []
  | S n => let '(r, em) := next 30 em in r :: results n em
  end.
Definition run (n : nat) (fs : list Function_) (c : Config) : list (outcome (option (outcome (ReturnValue BV)))) :=
  match symex_function "f" (prog fs) c with Ok em => results n em | _ => [] end.

(** A configuration in which [abort] is hooked. *)
Definition abort_cfg : Config :=
  config_with_hooks (match add_hook hooks_new "abort" H_abort with Ok h => h | _ => hooks_new end).
(** A configuration with a default hook. *)
Definition default_cfg : Config :=
  config_with_hooks (match add_default_hook hooks_new H_generic_stub with Ok (_, h) => h | _ => hooks_new end).

Definition fun_ref (n : string) (r : Type_) : unit + Operand :=
  inr (ConstantOperand (CGlobalReference (NameStr n) (FuncType r [i8] false))).
Definition invoke_ (n : string) : Terminator :=
  TInvoke {| invoke_function := fun_ref n i8; invoke_arguments := [var "x" i8]; invoke_result := NameStr "y";
             invoke_return_label := NameStr "ok"; invoke_exception_label := NameStr "bad" |}.

(** [g] invoked, then a phi node in the block that the invoke returns to. *)
Definition f_phi : Function_ := fn "f" ["x"]
  [block "entry" [] (invoke_ "g");
   block "ok" [IPhi {| phi_incoming_values := [(num 1, NameStr "entry")]; phi_dest := NameStr "p" |}] (TRet (Some (var "p" i8)));
   block "bad" [] TUnreachable].
Definition g_block : Function_ := fn "g" ["z"] [block "body" [] (TRet (Some (var "z" i8)))].

(** The phi node asks for the previous block of the path, and after an invoke
    that is the callee's last block: the path ends with an error. *)
Theorem phi_after_invoke_fails :
  run 1 [f_phi; g_block] cfg = [Ok (Some (Err (OtherError "Failed to find a Phi member matching previous BasicBlock")))].
Proof. vm_compute. reflexivity. Qed.

(** An invoke of an undefined function, with a default hook. *)
Definition f_default : Function_ := fn "f" ["x"]
  [block "entry" [] (invoke_ "undefined"); block "ok" [] (TRet (Some (var "y" i8))); block "bad" [] TUnreachable].

(** The path is given up after the default hook returns, although nothing is
    unsatisfiable: no result is reported for [f]. *)
Theorem default_hook_invoke_loses_path : run 1 [f_default] default_cfg = [Ok None].
Proof. vm_compute. reflexivity. Qed.

(** [f x = g x; h x], where [g] aborts if [x >= 3] and [h] has no feasible path. *)
Definition call_to (n d : string) : Instruction :=
  ICall {| call_function := fun_ref n i8; call_arguments := [var "x" i8]; call_dest := Some (NameStr d) |}.
Definition f_abort : Function_ := fn "f" ["x"] [block "entry" [call_to "g" "y"; call_to "h" "w"] (TRet (Some (var "y" i8)))].
Definition g_abort : Function_ := fn "g" ["x"]
  [block "entry" [IICmp {| icmp_predicate := ULT; icmp_operand0 := var "x" i8; icmp_operand1 := num 3; icmp_dest := NameStr "c" |}]
     (TCondBr {| condbr_condition := var "c" (IntegerType 1); condbr_true_dest := NameStr "t"; condbr_false_dest := NameStr "e" |});
   block "t" [] (TRet (Some (var "x" i8)));
   block "e" [ICall {| call_function := fun_ref "abort" VoidType; call_arguments := [var "x" i8]; call_dest := None |}] TUnreachable].
Definition h_stuck : Function_ := fn "h" ["x"]
  [block "entry" [ICall {| call_function := fun_ref "llvm.assume" VoidType; call_arguments := [ConstantOperand (CInt 1 0)]; call_dest := None |};
                  IICmp {| icmp_predicate := EQ; icmp_operand0 := var "x" i8; icmp_operand1 := num 3; icmp_dest := NameStr "c" |}]
     (TCondBr {| condbr_condition := var "c" (IntegerType 1); condbr_true_dest := NameStr "t"; condbr_false_dest := NameStr "t" |});
   block "t" [] (TRet (Some (var "x" i8)))].

(** Backtracking out of [h] into [g], which aborts, leaves [g]'s call site on
    the stack, where the caller of [h] finds it: a panic. *)
Theorem abort_after_backtracking_panics : run 1 [f_abort; g_abort; h_stuck] abort_cfg = [Panic "Received unexpected callsite"].
Proof. vm_compute. reflexivity. Qed.

(** Two phis that exchange their values: [a, b = 1, 2; do { if second round break; a, b = b, a }; return b]. *)
Definition swap_loop : BasicBlock :=
  block "loop"
    [IPhi {| phi_incoming_values := [(num 1, NameStr "entry"); (var "b" i8, NameStr "loop")]; phi_dest := NameStr "a" |};
     IPhi {| phi_incoming_values := [(num 2, NameStr "entry"); (var "a" i8, NameStr "loop")]; phi_dest := NameStr "b" |};
     IPhi {| phi_incoming_values := [(num 0, NameStr "entry"); (num 1, NameStr "loop")]; phi_dest := NameStr "n" |};
     IICmp {| icmp_predicate := EQ; icmp_operand0 := var "n" i8; icmp_operand1 := num 1; icmp_dest := NameStr "c" |}]
    (TCondBr {| condbr_condition := var "c" (IntegerType 1); condbr_true_dest := NameStr "done"; condbr_false_dest := NameStr "loop" |}).
Definition f_swap : Function_ := fn "f" ["x"]
  [block "entry" [] (TBr (NameStr "loop")); swap_loop; block "done" [] (TRet (Some (var "b" i8)))].

(** The phis of a block take their values at the same time, but the engine
    evaluates them one after the other: the second one reads the new value of
    the first, and the path returns 2 where the program returns 1. *)
Theorem phi_swap_loses_value :
  (fun rs => match rs with [Ok (Some (Ok (Return v)))] => as_u64 v | _ => None end) (run 1 [f_swap] cfg) = Some 2 /\
  forall link md x mem, returns_on link md f_swap [x] mem (Some 1).
Proof.
  split; [vm_compute; reflexivity|]. intros link md x mem. apply (run_within link 20 10); [vm_compute; reflexivity|discriminate].
Qed.

(** [f = p + (i8)255 < p]: the index is -1. *)
Definition f_index : Function_ := fn "f" ["x"]
  [block "entry"
     [IIntToPtr {| un_operand := ConstantOperand (CInt 64 4096); un_to_type := i8_pointer; un_dest := NameStr "p" |};
      IGetElementPtr {| gep_address := var "p" i8_pointer; gep_indices := [num 255]; gep_dest := NameStr "q" |};
      IICmp {| icmp_predicate := ULT; icmp_operand0 := var "q" i8_pointer; icmp_operand1 := var "p" i8_pointer; icmp_dest := NameStr "c" |};
      IZExt {| un_operand := var "c" (IntegerType 1); un_to_type := i8; un_dest := NameStr "r" |}]
     (TRet (Some (var "r" i8)))].

(** An index that is narrower than a pointer is extended with zeros, but it is
    signed: the path returns 0 where the program returns 1. *)
Theorem negative_index_is_extended_with_zeros :
  (fun rs => match rs with [Ok (Some (Ok (Return v)))] => as_u64 v | _ => None end) (run 1 [f_index] cfg) = Some 0 /\
  forall link md x mem, returns_on link md f_index [x] mem (Some 1).
Proof.
  split; [vm_compute; reflexivity|]. intros link md x mem. apply (run_within link 20 10); [vm_compute; reflexivity|discriminate].
Qed.

(** [f x = if x < 3 then G else G], with a global [G = 5]; the values of the two
    paths. *)
Definition load_global (n : string) : Instruction :=
  ILoad {| load_address := ConstantOperand (CGlobalReference (NameStr "G") i8); load_dest := NameStr n |}.
Definition f_global : Function_ := fn "f" ["x"]
  [block "entry" [IICmp {| icmp_predicate := ULT; icmp_operand0 := var "x" i8; icmp_operand1 := num 3; icmp_dest := NameStr "c" |}]
     (TCondBr {| condbr_condition := var "c" (IntegerType 1); condbr_true_dest := NameStr "t"; condbr_false_dest := NameStr "e" |});
   block "t" [load_global "y"] (TRet (Some (var "y" i8)));
   block "e" [load_global "z"] (TRet (Some (var "z" i8)))].
Definition p_global : Project :=
  {| modules := [{| mod_name := "m"; mod_source_file_name := "m.c"; mod_functions := [f_global];
                    mod_global_vars := [{| gv_name := NameStr "G"; gv_linkage := External; gv_ty := i8_pointer; gv_initializer := Some (CInt 8 5) |}];
                    mod_global_aliases := []; mod_named_struct_types := ∅ |}] |}.
Definition global_values : list (list Z) :=
  match symex_function "f" p_global cfg with Ok em => (fun vs => remove_dups (snd <$> vs)) <$> paths 2 em | _ => [] end.

(** A global is initialized when it is first used, and the flag that says so is
    not among what a revert restores, while the memory is: on the second path
    [G] is not 5 but anything. *)
Theorem global_lost_on_revert : exists v w vs, global_values = [[5]; v :: w :: vs] /\ 5 ∉ v :: w :: vs.
Proof. do 3 eexists. split; [vm_compute; reflexivity|]. apply (bool_decide_unpack _). vm_compute. exact I. Qed.

(** [f = *NULL], and two calls of [next] with paths split on null pointers: is
    the first a null-pointer error, does the second return a value, and are
    the constraints of that path satisfiable? *)
Definition f_null : Function_ := fn "f" ["x"]
  [block "entry" [ILoad {| load_address := ConstantOperand (CNull i8_pointer); load_dest := NameStr "y" |}] (TRet (Some (var "y" i8)))].
Definition split_cfg : Config :=
  {| loop_bound := 10; max_callstack_depth := None; solver_query_timeout := None;
     null_pointer_checking := NPSplitPath; concretize_memcpy_lengths := Symbolic; max_memcpy_length := None;
     squash_unsats := true; trust_llvm_assumes := true; function_hooks := hooks_new; callbacks := callbacks_default;
     initial_mem_watchpoints := ∅; demangling := None; print_source_info := true; print_module_name := true |}.
Definition is_return (r : outcome (option (outcome (ReturnValue BV)))) : bool := match r with Ok (Some (Ok (Return _))) => true | _ => false end.
Definition null_split_run : option (bool * bool * outcome bool) :=
  match symex_function "f" (prog [f_null]) split_cfg with
  | Ok em =>
      let '(r1, em1) := next 30 em in
      let '(r2, em2) := next 30 em1 in
      Some (match r1 with Ok (Some (Err NullPointerDereference)) => true | _ => false end, is_return r2, fst (State.sat (em_state em2)))
  | _ => None
  end.

(** The path is split also when null is the only address: the second path
    returns a value though no input is on it. *)
Theorem null_only_address_is_split : null_split_run = Some (true, true, Ok false).
Proof. vm_compute. reflexivity. Qed.

(** [realloc] from 8 bytes to 32: the new size is compared in bytes with the
    old one in bits, so the block is returned as it is. *)
Theorem realloc_does_not_grow :
  let '(r, s) := (p ← malloc (ConstantOperand (CInt 64 8));
                  q ← realloc (ConstantOperand (CIntToPtr (CInt 64 0x10000000) i8_pointer)) (ConstantOperand (CInt 64 32));
                  n ← get_allocation_size q;
                  mret (as_u64 p, as_u64 q, n)) (st_new cfg) in
  r = Ok (Some 0x10000000, Some 0x10000000, Some 64).
Proof. vm_compute. reflexivity. Qed.

(** The built-in hook for [llvm.smul.with.overflow] is registered but the name
    is not recognized: the prefix is spelled with underscores. *)
Theorem smul_with_overflow_unresolved ty :
  fst (resolve_function (inr (ConstantOperand (CGlobalReference (NameStr "llvm.smul.with.overflow.i32") ty))) st) =
  Ok (NoHookActive "llvm.smul.with.overflow.i32").
Proof. reflexivity. Qed.

(** The sum of the constant vectors [<255, 0>] and [<1, 0>] carries from the
    first element into the second. *)
Theorem constant_vector_add_carries :
  (fun r => match r with Ok b => Some (get_width b, lane 8 (eval (false, false, false, false) b) 0, lane 8 (eval (false, false, false, false) b) 1)
            | _ => None end)
    (fst (const_to_bv (CAdd (CVector [CInt 8 255; CInt 8 0]) (CVector [CInt 8 1; CInt 8 0])) st)) = Some (16, 0, 1).
Proof. vm_compute. reflexivity. Qed.

(** A [memmove] of one or two bytes from 4096 to 4097, where the memory holds 1,
    2, 3: in the models in which it is of two bytes, the byte at 4098 should be
    2, but the first byte has been copied over the second before that is
    read. *)
Definition overlapping_move : Prelude.M State (BV * BV) :=
  n ← new_bv_with_name (NameStr "n") 1;
  let len := bv_add (zext n 63) (from_u64 1 64) in
  _ ← write (from_u64 4096 64) (from_u64 197121 24);
  _ ← memcpy_bv (from_u64 4097 64) (from_u64 4096 64) len;
  b ← read (from_u64 4098 64) 8;
  mret (len, b).
Theorem symbolic_move_propagates :
  match fst (overlapping_move (st_new cfg)) with
  | Ok (len, b) => eval (true, true, true, true) len = 2 /\ eval (true, true, true, true) b = 1
  | _ => False
  end.
Proof. vm_compute. by split. Qed.

(** Lengths are multiplied by 8 in 32 bits: a copy of [2 ^ 32 + 1] bytes copies
    one byte (of the bytes 1, 2 only the first), one of [2 ^ 29] panics. *)
Definition huge_copy : Prelude.M State BV :=
  _ ← write (from_u64 4096 64) (from_u64 513 16);
  _ ← write (from_u64 8192 64) (from_u64 0 16);
  _ ← memcpy_bv (from_u64 8192 64) (from_u64 4096 64) (from_u64 (2 ^ 32 + 1) 64);
  read (from_u64 8192 64) 16.
Theorem huge_length_truncated :
  match fst (huge_copy (st_new cfg)) with Ok b => eval (true, true, true, true) b = 1 | _ => False end /\
  match fst (memcpy_bv (from_u64 8192 64) (from_u64 4096 64) (from_u64 (2 ^ 29) 64) (st_new cfg)) with Panic _ => True | _ => False end.
Proof. by vm_compute. Qed.

(** ** Witnesses *)

Definition intrinsics : FunctionHooks := match intrinsic_hooks_new with Ok h => h | _ => hooks_new end.
Definition st_intrinsics : State :=
  {| solver := solver st; config := config st; cur_loc := cur_loc st; varmap := varmap st; mem := mem st;
     allocator := allocator st; global_allocations := global_allocations st; intrinsic_hooks := intrinsics; stack := [];
     backtrack_points := []; path := []; mem_watchpoints := ∅; function_ptr_cache := ∅ |}.

Lemma resolve_witness :
  (exists h, hook h = H_memset /\
    resolve_function (inr (ConstantOperand (CGlobalReference (NameStr "llvm.memset.p0i8.i64") VoidType))) st_intrinsics =
    (Ok (HookActive h (HTFunction "llvm.memset.p0i8.i64")), st_intrinsics)) /\
  exists h, hook h = H_umul_with_overflow /\
    resolve_function (inr (ConstantOperand (CGlobalReference (NameStr "llvm.umul.with.overflow.i16") VoidType))) st_intrinsics =
    (Ok (HookActive h (HTIntrinsic "llvm.umul.with.overflow.i16")), st_intrinsics).
Proof.
  assert (intrinsic_hooks_new = Ok intrinsics) as Hn by (vm_compute; reflexivity).
  assert (intrinsic_hooks st_intrinsics = intrinsics) as Hs by (unfold st_intrinsics; cbn [intrinsic_hooks]; reflexivity).
  split.
  - destruct (resolve_by_name st_intrinsics "llvm.memset.p0i8.i64" VoidType intrinsics Hn Hs) as [Hr _].
    apply (Hr "llvm.memset"%string H_memset); [vm_compute; repeat constructor|by exists ".p0i8.i64"%string].
  - destruct (resolve_by_name st_intrinsics "llvm.umul.with.overflow.i16" VoidType intrinsics Hn Hs) as [Hr _].
    apply (Hr "llvm.umul.with.overflow"%string H_umul_with_overflow); [vm_compute; repeat constructor|by exists ".i16"%string].
Defined.

Definition loop_block : BasicBlock := block "loop" [] (TBr (NameStr "loop")).
Definition in_loop : State :=
  set_cur_loc {| module := M; func := fn "f" ["x"] [loop_block]; bb := loop_block; instr := Instr 0; source_loc := None |} st.

Lemma empty_loop_witness :
  fst (symex_from_cur_loc_through_end_of_function (engine P true 1000) in_loop) = OutOfFuel.
Proof. apply (empty_loop_diverges P true 1000 in_loop loop_block); reflexivity. Defined.

(** A watchpoint that the caller adds to the final state of the first path of
    [f] is still there after the second path: reverting restores the location,
    the variables, the memory, the stack, the path and the solver, and nothing
    else. *)
Definition with_watchpoint (em : ExecutionManager) : ExecutionManager :=
  snd (mut_state (add_mem_watchpoint "w" {| low := 16; high := 23 |}) em).
Theorem final_state_changes_survive :
  let em1 := snd (next 20 em0) in
  let '(r, em2) := next 20 (with_watchpoint em1) in
  em_fresh em1 = false /\ mem_watchpoints (em_state em1) !! "w" = None /\
  match r with Ok (Some (Ok (Return _))) => True | _ => False end /\ is_Some (mem_watchpoints (em_state em2) !! "w").
Proof. vm_compute. repeat split. by eexists. Qed.

End Runs.
